(* ===== verification/_CoqProject ===== *)
-Q . S2P
Prelude.v
Crc.v
F64.v
Keys.v
Utf8.v
ScalarKey.v
Like.v
Kmp.v
Analyzer.v
Trigram.v
BuildAnalyzer.v
Calendar.v
SqlText.v
SqlTime.v
Lexer.v
Limits.v
Page.v
Disk.v
Meta.v
Readers.v
Wal.v
PwalFormat.v
Pager.v
Recovery.v
PgWire.v
Cells.v
Order.v
Node.v
Interior.v
Pool.v
BTree.v
BTreeDelete.v
Cursor.v
Reverse.v
Tree.v
TreeRep.v
TreeRead.v
TreeCursor.v
TreeReverse.v
TreeWrite.v
TreeSplit.v
TreeSpill.v
TreeInsert.v
TreeThree.v
TreeOps.v
TreePair.v
TreeEven.v
TreeInstall.v
TreeDelete.v
TreeMain.v
