(* ===== verification/Prelude.v ===== *)
(** * Sekejap: a verification development of its storage engine and query text core

    Sekejap is an embedded multi-model database in Rust: a storage kernel
    ([core/kernel]), an engine of collections and indexes over it
    ([core/engine]), a SQL and GQL language ([lang]) and the programs that serve
    it ([dist]).  This library models the parts of it whose correctness is a
    matter of definite answers - bytes on disk, recovery, ordering of keys,
    pattern matching, calendars, protocol framing - and proves what each part
    promises the others.  Paths below are under [src/].

    ** How the parts meet

    A page ([Page]) is the unit of storage.  It is sealed with CRC-32C ([Crc]).
    Two stores are built of it.  The kernel's own store writes records to a log
    ([Wal]) and publishes a page tree through a two-slot superblock ([Meta]);
    readers announce the generation they pin in a directory of slots
    ([Readers]), and the writer recycles nothing that is pinned.  The engine's
    page-WAL store appends whole page images to a log of fixed frames
    ([PwalFormat]), publishes by a commit frame, checkpoints the pages into the
    main file, and admits readers beside a live writer through a publication hint
    ([Pager], [Recovery]).  Above the pages records are cells of one ordered tree,
    on pages published by copying ([BTree] over the page numbers of [Pool]),
    whose keys are built so that byte order is the order of the values ([Keys],
    [ScalarKey], over the bit patterns of doubles in [F64]).  Text indexes cut a
    text into terms or trigrams ([Analyzer], [Kmp], [Trigram], [BuildAnalyzer]);
    a [LIKE] is compiled to a substring test or a wildcard walk ([Like], over
    [Utf8]) and narrowed by the index.  SQL's scalar functions work on strings
    ([SqlText]) and on instants ([Calendar], [SqlTime]); a statement is cut into
    tokens by [Lexer].  The PostgreSQL server cuts the client's bytes into messages
    and reads their bodies ([PgWire]).

    ** Files, and the code they model

    - [Prelude]: notations, the development's tactics and hint database, results
      and options, little- and big-endian integers, byte-list lemmas.
    - [Crc]: the class [Crc32c] of the third-party checksum with its documented
      laws [Crc32cLaws], and a bitwise reference instance.
    - [F64]: doubles as bit patterns; numeric order against the Standard Library's
      [spec_float].
    - [Disk]: [core/kernel/src/io.rs]; a file is its bytes and the set of ranges
      whose reads fail.
    - [Page]: [core/kernel/src/page.rs].  [init], [insert_slot], [remove_slot],
      [compact], [seal], [page_open] on the 4096 bytes themselves; the abstract
      view is the list of payloads ([records]).
    - [Limits]: [limits.rs] and [budget.rs] of the kernel; the reservation ledger is
      a step relation of interleaved compare-exchange loops.
    - [Wal]: [core/kernel/src/wal.rs].  [Wal.open_limited], [Wal.append], [flush],
      [rotate], [Wal.replay], [salvage_committed] over a log state record.
    - [Meta], [Readers]: [meta.rs] and [readers.rs] of the kernel.
    - [PwalFormat], [Pager], [Recovery]: [core/engine/src/store/pagewal/format.rs]
      and [mod.rs].  [Pager] has the operations, each a function from the pager to
      a pager and a result, so that an early error keeps what was changed before
      it; [Recovery] has the session theorems over any sequence of calls, failures
      and crashes.
    - [Keys]: [core/kernel/src/keys.rs]; [ScalarKey]:
      [core/engine/src/store/scalar_key.rs].
    - [Cells]: the records of tree pages, [decode_record] of [verify.rs] and the
      encoders of [btree.rs]; [Order]: byte order as a total order with its tactic.
    - [Node], [Interior]: one tree page: its checked opening, search, building and
      [split_point]; interior pages with the child of a slot patched in place.
    - [Pool]: the class [PagePool] the tree is written against, with its laws, and
      the bookkeeping of [core/kernel/src/pool.rs] as its instance.
    - [BTree]: [core/kernel/src/btree.rs], operation by operation, in a monad of
      state, errors and panics; [BTreeDelete]: its [delete] and
      [rebalance_after_delete]; [Cursor]: the pull side of its [RangeIter];
      [Reverse]: its [ReverseRangeIter].
    - [Tree]: trees, one-hole contexts, order and sibling links, without pages;
      [TreeRep]: when the pages of a handle hold a tree; [TreeRead]: lookup and
      scans; [TreeCursor], [TreeReverse]: what a cursor in the middle of its range
      stands for; [TreeWrite]: what a run keeps ([runs]), copy-on-write descent;
      [TreeSplit]: [insert_separator]; [TreeSpill]: overflow chains written and
      retired; [TreeInsert], [TreeThree], [TreeOps]: the leaf, cut in two, cut in
      three, replaced in; [TreePair], [TreeEven], [TreeInstall], [TreeDelete]: two
      siblings merged or evened out on the pages of the tree, the way up and the
      deletion; [TreeMain]: the operations whole, histories, snapshots.
    - [Utf8]: Rust's [char], [str] and UTF-8; [Like]: [core/engine/src/query/like.rs].
    - [Kmp], [Analyzer], [BuildAnalyzer]: [core/engine/src/index/text/analyzer.rs];
      [Trigram]: [core/engine/src/index/text/trigram.rs].
    - [Calendar], [SqlText], [SqlTime]: [lang/src/functions.rs]; [Lexer]:
      [lang/src/lexer.rs], its tokens as a relation on text ([lexed]) and as the
      loop.
    - [PgWire]: [dist/src/pg/frames.rs] and the framing of
      [dist/src/pg/connection.rs].

    ** Conventions

    A machine integer is a [Z] with its width written out where the code wraps,
    checks or casts.  A panic (an index out of range, an [unwrap], an overflow of
    a checked operation) is [None]; an error the code returns is a value of
    [result].  Stateful code is state passing.  Code the repository does not
    contain is a class or a section variable with its documented behaviour as a
    law: [Crc32c], Unicode lowercasing and the substring searcher ([Like]), the
    pinned Unicode tables ([Analyzer.Tables]), [serde_json]'s numbers ([ScalarKey]),
    lossy UTF-8 decoding and number formatting ([PgWire]).  Every property with a
    hypothesis is instantiated once on concrete data by the theorem of the same
    name with [_witness].

    ** What the theorems show

    - Recovery.  [crash_recovery]: after any calls and crashes reopening restores
      exactly the last publication.  [rollback_restores], [read_your_writes],
      [snapshot_isolation] and [reader_admission] are the other promises of the
      page-WAL store; [metadata_update_crash_safe] that of
      its two-copy header.
    - The kernel's log.  [wal_sessions_refine]: a session refines the list of
      committed records; [wal_recovery_replays_committed] and
      [wal_open_cuts_only_a_clean_tail] say what an open may cut and what it must
      report; [salvage_recovers] is the offline
      repair.
    - The superblock and the readers.  [meta_flip_crash_safe],
      [meta_never_hides_newer_format], [live_readers_protected].
    - Pages.  [page_session_opens]: any mutations refine the list of records;
      [page_open_sound]: what the checked open accepts is safe afterwards.
    - The tree.  [tree_insert]: insertion keeps the tree well formed and sets one
      entry; [tree_delete]: deletion takes one out, on every way a page is merged,
      evened out or taken off; [tree_history]: any sequence of insertions,
      deletions and publications answers like a map; [tree_snapshot]: a published root is a
      snapshot; [tree_scan], [pull_cursor]: a range, in either direction and however
      it is consumed, is the list of its entries; [leaf_always_splits], [record_codec], [page_ownership].
    - Keys.  [key_order_key_order], [scalar_key_order]: byte order is value order;
      [scalar_key_roundtrip]: decoding is exact.
    - Text.  [like_pattern]: every compiled shape answers what the pattern means;
      [trigram_required_sound]: the index never loses a matching row;
      [text_analysis_exact], [build_analyzer_equivalent], [phrase_scan_finds].
    - Time.  [calendar_gregorian]: the day algorithms are the Gregorian calendar;
      [timestamp_roundtrip]; [interval_is_the_sum] is a lemma of [SqlTime].
    - Statements.  [sql_tokens]: the tokenizer is exactly what a declarative
      grammar of tokens, white space and comments says; [statement_guards]: no
      comment hides a statement's first word from what guards it.
    - The wire.  [pg_feed_chunking], [pg_messages_read_back].
    - Resources.  [budget_exact]: no interleaving of reservations oversteps.

    ** Fuel

    Loops the kernel does not see terminate carry fuel, and the fuel is part of
    the definition with a theorem that it is enough: the walk over a log consumes
    a frame header or a byte per step ([Wal.scan_total]); the wildcard walk moves
    one of two cursors ([like_walk]); the feed loop consumes a header per frame
    ([PgWire]); a round of the tokenizer consumes a byte ([sql_tokens]); the
    failure function falls strictly ([Kmp]); checkpoint and inspection consume a
    frame per step ([Pager]). A loop down the tree has the number of the pool's
    pages as fuel, since the pages of a path are distinct; a scan counts its
    leaves against the same bound; the walk of an overflow chain has one hop per
    page; a round of the rebalancing goes up the path or gives a page back, so
    twice that number is enough; with a well-formed tree none runs out
    ([tree_history] excludes it).

    ** Not modelled

    - The frames of the buffer pool, their pins and eviction ([pool.rs]): unsafe
      memory shared by threads.  [Pool] has
      their bookkeeping: numbers, retirement, recycling and the frozen boundary,
      with contents as a map; promotion by the readers' generations
      ([refresh_reuse]) and the persisted free list are left out.
    - Of the tree: prefix deletion, the hints per keyspace, grafts of packed subtrees, and what cargo features off
      by default add.
    - Bulk loading, navigation and the index families over the tree ([bulk.rs],
      [nav.rs], [graph.rs], [text.rs], [spatial.rs], [vecquant.rs], [score.rs]) and
      the engine's graph, spatial and vector indexes: floating-point scoring,
      geometry and approximate search.
    - Collections, catalog, supportive registers, the planner and executor, the SQL
      and GQL front ends: large and mostly glue over the parts above.
    - Operating-system calls (locks, barriers, memory maps, sockets, threads), the
      C and Rust facades, command line, benchmarks. *)

From stdpp Require Export base numbers list strings gmap relations sorting.
From Stdlib Require Export ZArith Lia.

Declare Scope skj_scope.
Delimit Scope skj_scope with skj.
Global Open Scope Z_scope.

(** * Automation of the development

    [skj] holds the forward lemmas (lengths, ranges, well-formed byte strings)
    the proofs of every component use; [skj_rw] the rewriting rules that
    normalise lengths of encoded byte strings. *)
Create HintDb skj discriminated.
#[export] Hint Constants Opaque : skj.
Create Rewrite HintDb skj_rw.

(** * Errors and results *)

(** The kernel's [Error] enum.  [Io] keeps no payload: every place that
    produces one here is a read past the end of a file, or the
    "would block" condition of an admission, named by its message. *)
Inductive error :=
  | Io (why : string)
  | Corrupt (page_no : Z) (why : string)
  | TooLarge
  | ReadOnly
  | WriterLocked
  | CorruptWal (offset : Z) (why : string)
  | StorePoisoned
  | OutOfBudget
  | ResourceLimit (why : string)
  | DuplicateKey
  | RangeNotEmpty
  | UnsupportedFormat (found : Z).

#[export] Instance error_eq_dec : EqDecision error.
Proof. solve_decision. Defined.

(** Rust's [Result<T, E>], used with every error type of the program. *)
Inductive result (E A : Type) :=
  | Ok (a : A)
  | Err (e : E).
Arguments Ok {E A} a.
Arguments Err {E A} e.

#[export] Instance result_eq_dec {E A} `{EqDecision E, EqDecision A} : EqDecision (result E A).
Proof. solve_decision. Defined.

Definition rbind {E A B} (m : result E A) (f : A → result E B) : result E B :=
  match m with Ok a => f a | Err e => Err e end.
Definition rmap {E A B} (f : A → B) (m : result E A) : result E B :=
  match m with Ok a => Ok (f a) | Err e => Err e end.
Definition is_ok {E A} (m : result E A) : bool :=
  match m with Ok _ => true | Err _ => false end.
(** [Option::ok_or]. *)
Definition ok_or {E A} (o : option A) (e : E) : result E A :=
  match o with Some a => Ok a | None => Err e end.
(** [if cond { return Err(e) }]. *)
Definition refuse_if {E} (c : bool) (e : E) : result E unit :=
  if c then Err e else Ok tt.

Notation "'let*' x ':=' m 'in' k" := (rbind m (fun x => k))
  (at level 10, x pattern, m at level 100, k at level 200) : skj_scope.
Notation "'guard' c 'else' e ';' k" := (rbind (refuse_if (negb c) e) (fun _ => k))
  (at level 10, c at level 100, e at level 100, k at level 200) : skj_scope.
(** The same inside a loop with fuel, whose body answers [Some] of a result. *)
Notation "'let?' x ':=' m 'in' k" :=
  (match m with Ok x => k | Err e => Some (Err e) end)
  (at level 10, x pattern, m at level 100, k at level 200) : skj_scope.
Global Open Scope skj_scope.

(** [injection] without simplifying the values. *)
Lemma Ok_inj {E A} (a b : A) : @Ok E A a = Ok b → a = b.
Proof. by intros [=]. Qed.
Lemma Some_Ok_inj {E A} (a b : A) : Some (@Ok E A a) = Some (Ok b) → a = b.
Proof. by intros [=]. Qed.

Lemma rbind_ok {E A B} (m : result E A) (f : A → result E B) b :
  rbind m f = Ok b ↔ ∃ a, m = Ok a ∧ f a = Ok b.
Proof. destruct m; simpl; naive_solver. Qed.

Lemma refuse_if_ok {E} c (e : E) u : refuse_if c e = Ok u ↔ c = false.
Proof. destruct c, u; simpl; naive_solver. Qed.

(** Case analysis on the [Result] chains of a hypothesis or of the goal. *)
Ltac res_case :=
  match goal with
  | H : rbind ?m _ = Ok _ |- _ =>
      let E := fresh "E" in destruct m eqn:E; cbn [rbind] in H; [|discriminate H]
  | H : rbind (refuse_if ?c _) _ = Ok _ |- _ =>
      let E := fresh "E" in destruct c eqn:E; cbn [refuse_if rbind] in H; [discriminate H|]
  | H : Ok _ = Ok _ |- _ => injection H as H
  | H : Err _ = Ok _ |- _ => discriminate H
  | H : refuse_if ?c _ = Ok _ |- _ => apply refuse_if_ok in H
  end.
Ltac res_simpl := repeat res_case.

(** * Machine integers

    A [w]-bit unsigned integer is a [Z] in [0, 2^w); casts and wrapping
    operations write their [mod] out. *)
Definition u8_max  : Z := 255.
Definition u16_max : Z := 65535.
Definition u32_max : Z := 4294967295.
Definition u64_max : Z := 18446744073709551615.
Definition i64_min : Z := -9223372036854775808.
Definition i64_max : Z := 9223372036854775807.

Abbreviation is_u8 x := (0 ≤ x ≤ u8_max).
Abbreviation is_u16 x := (0 ≤ x ≤ u16_max).
Abbreviation is_u32 x := (0 ≤ x ≤ u32_max).
Abbreviation is_u64 x := (0 ≤ x ≤ u64_max).
Abbreviation is_i64 x := (i64_min ≤ x ≤ i64_max).

(** [u64::checked_add] and [u32::checked_add]. *)
Definition checked_add_u64 (a b : Z) : option Z :=
  if a + b <=? u64_max then Some (a + b) else None.
Definition checked_add_u32 (a b : Z) : option Z :=
  if a + b <=? u32_max then Some (a + b) else None.
(** [u64::saturating_add], [u64::saturating_sub]. *)
Definition saturating_add_u64 (a b : Z) : Z := Z.min (a + b) u64_max.
Definition saturating_sub (a b : Z) : Z := Z.max (a - b) 0.

Lemma checked_add_u64_Some a b c :
  checked_add_u64 a b = Some c ↔ c = a + b ∧ a + b ≤ u64_max.
Proof. unfold checked_add_u64. destruct (Z.leb_spec (a + b) u64_max); naive_solver lia. Qed.
Lemma checked_add_u64_None a b : checked_add_u64 a b = None ↔ u64_max < a + b.
Proof. unfold checked_add_u64. destruct (Z.leb_spec (a + b) u64_max); naive_solver lia. Qed.
Lemma checked_add_u64_ok a b : a + b ≤ u64_max → checked_add_u64 a b = Some (a + b).
Proof. intros. by apply checked_add_u64_Some. Qed.
Lemma checked_add_u32_Some a b c :
  checked_add_u32 a b = Some c ↔ c = a + b ∧ a + b ≤ u32_max.
Proof. unfold checked_add_u32. destruct (Z.leb_spec (a + b) u32_max); naive_solver lia. Qed.

(** * Byte strings

    A byte is a [Z] in [0, 256); a [Vec<u8>] or [&[u8]] is a [list Z].
    [bytes_ok] says every element is a byte. *)
Abbreviation bytes := (list Z).
Definition byte_ok (x : Z) : Prop := 0 ≤ x < 256.
Definition bytes_ok (b : bytes) : Prop := Forall byte_ok b.
#[export] Instance byte_ok_dec x : Decision (byte_ok x).
Proof. unfold byte_ok. apply _. Defined.
#[export] Instance bytes_ok_dec b : Decision (bytes_ok b).
Proof. unfold bytes_ok. apply _. Defined.

(** [len()]. *)
Definition blen {A} (b : list A) : Z := Z.of_nat (length b).
(** [&b[off..off+n]] for a range inside [b]. *)
Definition slice {A} (b : list A) (off n : Z) : list A :=
  take (Z.to_nat n) (drop (Z.to_nat off) b).
(** [b[off..off+src.len()].copy_from_slice(src)] for a range inside [b].  A
    range past the end panics in Rust; the operations that can meet one check
    it and use [put_at].  Outside [b] nothing is written: a slice never grows. *)
Definition splice {A} (b : list A) (off : Z) (src : list A) : list A :=
  take (Z.to_nat off) b ++ take (length b - Z.to_nat off) src
    ++ drop (Z.to_nat off + length src) b.
(** The same with the panic: [None] when the range does not fit. *)
Definition put_at {A} (b : list A) (off : Z) (src : list A) : option (list A) :=
  if (0 <=? off) && (off + blen src <=? blen b) then Some (splice b off src) else None.
(** [&b[off..off+n]] with the panic. *)
Definition get_at {A} (b : list A) (off n : Z) : option (list A) :=
  if (0 <=? off) && (0 <=? n) && (off + n <=? blen b) then Some (slice b off n) else None.
(** [b.copy_within(from..to, dest)] with the panics. *)
Definition copy_within {A} (b : list A) (from to dest : Z) : option (list A) :=
  if (from <=? to) && (to <=? blen b) then put_at b dest (slice b from (to - from)) else None.
Definition zeros (n : Z) : bytes := replicate (Z.to_nat n) 0.
(** [b[i]] of a byte string, for an index inside it. *)
Definition byte_at (b : bytes) (i : Z) : Z := b !!! Z.to_nat i.

(** The bytes of an ASCII literal such as [b"E4LIMIT1"]. *)
Fixpoint ascii_bytes (s : string) : bytes :=
  match s with
  | EmptyString => []
  | String c s => Z.of_N (Ascii.N_of_ascii c) :: ascii_bytes s
  end.

Section lists.
Context {A : Type}.
Implicit Types (b c src : list A) (off n : Z).

Lemma blen_nonneg b : 0 ≤ blen b.
Proof. unfold blen. lia. Qed.
Lemma blen_nil : blen (@nil A) = 0.
Proof. done. Qed.
Lemma blen_cons x b : blen (x :: b) = 1 + blen b.
Proof. unfold blen. simpl. lia. Qed.
Lemma blen_app b c : blen (b ++ c) = blen b + blen c.
Proof. unfold blen. rewrite length_app. lia. Qed.
Lemma blen_length b n : blen b = n → length b = Z.to_nat n.
Proof. unfold blen. lia. Qed.
Lemma blen_0_nil b : blen b = 0 → b = [].
Proof. destruct b; [done|]. rewrite blen_cons. pose proof (blen_nonneg b). lia. Qed.

Lemma blen_slice b off n :
  0 ≤ off → 0 ≤ n → off + n ≤ blen b → blen (slice b off n) = n.
Proof. unfold slice, blen. rewrite length_take, length_drop. lia. Qed.
Lemma blen_slice_le b off n : blen (slice b off n) ≤ Z.max 0 n.
Proof. unfold slice, blen. rewrite length_take. lia. Qed.
Lemma blen_splice b off src : blen (splice b off src) = blen b.
Proof.
  unfold splice, blen. rewrite !length_app, !length_take, length_drop. lia.
Qed.
Lemma blen_take (k : nat) b : (k ≤ length b)%nat → blen (take k b) = Z.of_nat k.
Proof. intros. unfold blen. rewrite length_take. lia. Qed.
Lemma blen_drop (k : nat) b : blen (drop k b) = Z.max 0 (blen b - Z.of_nat k).
Proof. unfold blen. rewrite length_drop. lia. Qed.

Lemma lookup_slice b off n (i : nat) :
  0 ≤ off →
  slice b off n !! i = if decide (Z.of_nat i < n) then b !! (Z.to_nat off + i)%nat else None.
Proof.
  intros. unfold slice. destruct (decide _).
  - rewrite lookup_take_lt by lia. apply lookup_drop.
  - apply lookup_take_ge. lia.
Qed.
Lemma lookup_splice b off src (i : nat) :
  0 ≤ off → off + blen src ≤ blen b →
  splice b off src !! i =
    if decide (off ≤ Z.of_nat i < off + blen src)
    then src !! (i - Z.to_nat off)%nat else b !! i.
Proof.
  unfold splice, blen. intros. rewrite (take_ge src) by lia. destruct (decide _) as [?|Hn].
  - rewrite lookup_app_r by (rewrite length_take; lia).
    rewrite length_take, lookup_app_l by lia. f_equal. lia.
  - destruct (decide (Z.of_nat i < off)).
    + rewrite lookup_app_l by (rewrite length_take; lia). apply lookup_take_lt. lia.
    + rewrite lookup_app_r by (rewrite length_take; lia).
      rewrite length_take, lookup_app_r by lia. rewrite lookup_drop. f_equal. lia.
Qed.

Lemma slice_splice_same b off src :
  0 ≤ off → off + blen src ≤ blen b → slice (splice b off src) off (blen src) = src.
Proof.
  intros. apply list_eq. intros i. rewrite lookup_slice by lia.
  destruct (decide _) as [Hi|Hi].
  - rewrite lookup_splice by lia. rewrite decide_True by lia. f_equal. lia.
  - symmetry. apply lookup_ge_None. unfold blen in *. lia.
Qed.
(** Reading inside, before and after a written range. *)
Lemma slice_splice_inner b off src o n :
  0 ≤ off → off + blen src ≤ blen b → off ≤ o → o + n ≤ off + blen src →
  slice (splice b off src) o n = slice src (o - off) n.
Proof.
  intros. apply list_eq. intros i. rewrite !lookup_slice by lia.
  destruct (decide _); [|done]. rewrite lookup_splice by lia.
  rewrite decide_True by lia. f_equal. lia.
Qed.
Lemma slice_splice_other b off src o n :
  0 ≤ off → off + blen src ≤ blen b → 0 ≤ o →
  o + n ≤ off ∨ off + blen src ≤ o →
  slice (splice b off src) o n = slice b o n.
Proof.
  intros. apply list_eq. intros i. rewrite !lookup_slice by lia.
  destruct (decide _); [|done]. rewrite lookup_splice by lia.
  rewrite decide_False by lia. done.
Qed.

Lemma splice_splice b off src src' :
  0 ≤ off → off + blen src' ≤ blen b → blen src = blen src' →
  splice (splice b off src) off src' = splice b off src'.
Proof.
  intros. apply list_eq. intros i. rewrite !lookup_splice by (rewrite ?blen_splice; lia).
  rewrite H1. by destruct (decide _).
Qed.

Lemma splice_self b off src :
  0 ≤ off → off + blen src ≤ blen b → slice b off (blen src) = src → splice b off src = b.
Proof.
  intros ?? Hs. apply list_eq. intros i. rewrite lookup_splice by done.
  destruct (decide _); [|done]. rewrite <-Hs, lookup_slice, decide_True by lia. f_equal. lia.
Qed.

Lemma slice_all b n : n = blen b → slice b 0 n = b.
Proof. intros ->. unfold slice, blen. rewrite Nat2Z.id. simpl. apply firstn_all. Qed.
Lemma slice_app_l b c off n :
  0 ≤ off → off + n ≤ blen b → slice (b ++ c) off n = slice b off n.
Proof.
  intros. apply list_eq. intros i. rewrite !lookup_slice by lia.
  destruct (decide _); [|done]. apply lookup_app_l. unfold blen in *. lia.
Qed.
Lemma slice_app_r b c off n :
  blen b ≤ off → slice (b ++ c) off n = slice c (off - blen b) n.
Proof.
  intros. pose proof (blen_nonneg b). apply list_eq. intros i.
  rewrite !lookup_slice by lia. destruct (decide _); [|done].
  rewrite lookup_app_r by (unfold blen in *; lia). f_equal. unfold blen in *. lia.
Qed.
Lemma slice_app_exact b c n : n = blen b → slice (b ++ c) 0 n = b.
Proof. intros ->. rewrite slice_app_l by lia. by apply slice_all. Qed.
Lemma slice_whole b off n : off = 0 → n = blen b → slice b off n = b.
Proof. intros -> ->. by apply slice_all. Qed.
Lemma slice_slice b off n o m :
  0 ≤ off → 0 ≤ o → o + m ≤ n → slice (slice b off n) o m = slice b (off + o) m.
Proof.
  intros. apply list_eq. intros i. rewrite !lookup_slice by lia.
  destruct (decide _); [|done]. rewrite decide_True by lia. f_equal. lia.
Qed.
Lemma slice_0 b off : slice b off 0 = [].
Proof. unfold slice. done. Qed.
Lemma slice_split b off n m :
  0 ≤ off → 0 ≤ n → 0 ≤ m → off + n + m ≤ blen b →
  slice b off (n + m) = slice b off n ++ slice b (off + n) m.
Proof.
  intros. unfold slice. rewrite Z2Nat.inj_add by lia.
  rewrite <-(take_drop (Z.to_nat n) (take _ (drop (Z.to_nat off) b))).
  rewrite take_take, Nat.min_l by lia. f_equal.
  rewrite skipn_firstn_comm, drop_drop. f_equal; [lia|f_equal; lia].
Qed.
Lemma take_slice b (n : Z) : 0 ≤ n → take (Z.to_nat n) b = slice b 0 n.
Proof. done. Qed.
Lemma drop_slice b (n : Z) : 0 ≤ n ≤ blen b → drop (Z.to_nat n) b = slice b n (blen b - n).
Proof.
  intros. unfold slice. symmetry. apply take_ge. rewrite length_drop. unfold blen in *. lia.
Qed.
End lists.

#[export] Hint Rewrite @blen_nil @blen_cons @blen_app @blen_splice : skj_rw.
#[export] Hint Rewrite @blen_slice using (rewrite ?blen_splice, ?blen_app; lia) : skj_rw.

Section panics.
Context {A : Type}.
Implicit Types (b src : list A).
Lemma put_at_ok b off src :
  0 ≤ off → off + blen src ≤ blen b → put_at b off src = Some (splice b off src).
Proof. intros. unfold put_at. by rewrite !(proj2 (Z.leb_le _ _)) by lia. Qed.
Lemma get_at_ok b off n :
  0 ≤ off → 0 ≤ n → off + n ≤ blen b → get_at b off n = Some (slice b off n).
Proof. intros. unfold get_at. by rewrite !(proj2 (Z.leb_le _ _)) by lia. Qed.
Lemma copy_within_ok b from to dest :
  0 ≤ from ≤ to → to ≤ blen b → 0 ≤ dest → dest + (to - from) ≤ blen b →
  copy_within b from to dest = Some (splice b dest (slice b from (to - from))).
Proof.
  intros. unfold copy_within. rewrite !(proj2 (Z.leb_le _ _)) by lia. cbn [andb].
  apply put_at_ok; [lia|]. rewrite blen_slice by lia. lia.
Qed.
End panics.
Arguments slice : simpl never.
Arguments splice : simpl never.
Arguments blen : simpl never.

Lemma blen_zeros n : 0 ≤ n → blen (zeros n) = n.
Proof. intros. unfold blen, zeros. rewrite length_replicate. lia. Qed.
#[export] Hint Rewrite blen_zeros using lia : skj_rw.

Lemma bytes_ok_app a b : bytes_ok (a ++ b) ↔ bytes_ok a ∧ bytes_ok b.
Proof. apply Forall_app. Qed.
Lemma bytes_ok_cons x b : bytes_ok (x :: b) ↔ byte_ok x ∧ bytes_ok b.
Proof. apply Forall_cons. Qed.
Lemma bytes_ok_slice b off n : bytes_ok b → bytes_ok (slice b off n).
Proof. intros. unfold slice. by apply Forall_take, Forall_drop. Qed.
Lemma bytes_ok_splice b off src : bytes_ok b → bytes_ok src → bytes_ok (splice b off src).
Proof.
  intros. unfold splice.
  repeat apply Forall_app_2; [by apply Forall_take|by apply Forall_take|by apply Forall_drop].
Qed.
Lemma bytes_ok_zeros n : bytes_ok (zeros n).
Proof. apply Forall_replicate. unfold byte_ok. lia. Qed.
Lemma bytes_ok_nil : bytes_ok [].
Proof. constructor. Qed.
#[export] Hint Resolve bytes_ok_nil bytes_ok_slice bytes_ok_splice bytes_ok_zeros : skj.

(** * Fixed-width integers as bytes *)

(** [to_le_bytes] of an [n]-byte integer (also of a negative one: [mod] is
    two's complement), and [from_le_bytes]. *)
Fixpoint le_bytes (n : nat) (x : Z) : bytes :=
  match n with
  | O => []
  | S n => x mod 256 :: le_bytes n (x / 256)
  end.
Fixpoint le_num (b : bytes) : Z :=
  match b with
  | [] => 0
  | x :: b => x + 256 * le_num b
  end.

(** [to_be_bytes] and [from_be_bytes]. *)
Fixpoint be_bytes (n : nat) (x : Z) : bytes :=
  match n with
  | O => []
  | S n => (x / 256 ^ Z.of_nat n) mod 256 :: be_bytes n x
  end.
Fixpoint be_num (b : bytes) : Z :=
  match b with
  | [] => 0
  | x :: b => x * 256 ^ blen b + be_num b
  end.

Lemma length_le_bytes n x : length (le_bytes n x) = n.
Proof. revert x. induction n; intros; simpl; [done|]. by rewrite IHn. Qed.
Lemma length_be_bytes n x : length (be_bytes n x) = n.
Proof. induction n; simpl; [done|]. by rewrite IHn. Qed.
Lemma blen_le_bytes n x : blen (le_bytes n x) = Z.of_nat n.
Proof. unfold blen. by rewrite length_le_bytes. Qed.
Lemma blen_be_bytes n x : blen (be_bytes n x) = Z.of_nat n.
Proof. unfold blen. by rewrite length_be_bytes. Qed.
#[export] Hint Rewrite blen_le_bytes blen_be_bytes : skj_rw.

Lemma mod_256_ok x : byte_ok (x mod 256).
Proof. unfold byte_ok. apply Z.mod_pos_bound. lia. Qed.
Lemma le_bytes_ok n x : bytes_ok (le_bytes n x).
Proof. revert x. induction n; intros; constructor; [apply mod_256_ok|apply IHn]. Qed.
Lemma be_bytes_ok n x : bytes_ok (be_bytes n x).
Proof. induction n; constructor; [apply mod_256_ok|done]. Qed.
#[export] Hint Resolve le_bytes_ok be_bytes_ok : skj.

Lemma pow256_succ n : 256 ^ Z.of_nat (S n) = 256 * 256 ^ Z.of_nat n.
Proof. rewrite Nat2Z.inj_succ. apply Z.pow_succ_r. lia. Qed.
Lemma pow256_pos n : 0 < 256 ^ Z.of_nat n.
Proof. apply Z.pow_pos_nonneg; lia. Qed.

Lemma le_num_le_bytes n x : 0 ≤ x < 256 ^ Z.of_nat n → le_num (le_bytes n x) = x.
Proof.
  revert x. induction n as [|n IH]; intros x Hx; simpl; [change (256 ^ Z.of_nat 0) with 1 in Hx; lia|].
  rewrite pow256_succ in Hx. rewrite IH.
  - pose proof (Z.div_mod x 256). lia.
  - split; [apply Z.div_pos; lia|]. apply Z.div_lt_upper_bound; lia.
Qed.
Lemma le_num_bound b : bytes_ok b → 0 ≤ le_num b < 256 ^ blen b.
Proof.
  induction 1 as [|x b [? ?] _ IH]; simpl; [done|].
  rewrite blen_cons, Z.pow_add_r, Z.pow_1_r by (try lia; apply blen_nonneg). lia.
Qed.
Lemma le_bytes_le_num b : bytes_ok b → le_bytes (length b) (le_num b) = b.
Proof.
  induction 1 as [|x b [? ?] _ IH]; simpl; [done|].
  rewrite (Z.mul_comm 256), Z_mod_plus_full, Z.mod_small by lia.
  rewrite Z.div_add, Z.div_small by lia. by rewrite Z.add_0_l, IH.
Qed.
Lemma le_bytes_inj n x y :
  0 ≤ x < 256 ^ Z.of_nat n → 0 ≤ y < 256 ^ Z.of_nat n →
  le_bytes n x = le_bytes n y → x = y.
Proof. intros Hx Hy H. apply (f_equal le_num) in H. by rewrite !le_num_le_bytes in H. Qed.
Lemma le_bytes_mod n x : le_bytes n (x mod 256 ^ Z.of_nat n) = le_bytes n x.
Proof.
  revert x. induction n as [|n IH]; intros x; [done|]. cbn [le_bytes].
  rewrite pow256_succ. pose proof (pow256_pos n). f_equal.
  - apply Z.mod_mod_divide, Z.divide_factor_l.
  - rewrite Z.rem_mul_r by lia. rewrite (Z.mul_comm 256), Z.div_add by lia.
    rewrite (Z.div_small (x mod 256)) by (apply Z.mod_pos_bound; lia). by rewrite Z.add_0_l, IH.
Qed.

(** Reading back what was written at [off]: the pattern of every codec. *)
Lemma le_num_slice_splice b off n x :
  0 ≤ off → off + Z.of_nat n ≤ blen b → 0 ≤ x < 256 ^ Z.of_nat n →
  le_num (slice (splice b off (le_bytes n x)) off (Z.of_nat n)) = x.
Proof.
  intros. pose proof (slice_splice_same b off (le_bytes n x)) as H'.
  rewrite blen_le_bytes in H'. rewrite H' by lia. by apply le_num_le_bytes.
Qed.

Lemma be_num_be_bytes n x : be_num (be_bytes n x) = x mod 256 ^ Z.of_nat n.
Proof.
  induction n as [|n IH]; cbn [be_bytes be_num]; [by rewrite Z.mod_1_r|].
  rewrite IH, blen_be_bytes, pow256_succ, (Z.mul_comm 256), Z.rem_mul_r; [lia| |lia].
  pose proof (pow256_pos n). lia.
Qed.
Lemma be_num_be_bytes_small n x : 0 ≤ x < 256 ^ Z.of_nat n → be_num (be_bytes n x) = x.
Proof. intros. rewrite be_num_be_bytes. by apply Z.mod_small. Qed.
Lemma be_num_bound b : bytes_ok b → 0 ≤ be_num b < 256 ^ blen b.
Proof.
  induction 1 as [|x b [? ?] _ IH]; cbn [be_num]; [done|].
  rewrite blen_cons, Z.pow_add_r, Z.pow_1_r by (try lia; apply blen_nonneg). nia.
Qed.

(** * Lexicographic byte order: [Ord for [u8]], the order of B-tree keys. *)
Fixpoint bytes_compare (a b : bytes) : comparison :=
  match a, b with
  | [], [] => Eq
  | [], _ :: _ => Lt
  | _ :: _, [] => Gt
  | x :: a, y :: b => match x ?= y with Eq => bytes_compare a b | c => c end
  end.
Definition bytes_lt (a b : bytes) : Prop := bytes_compare a b = Lt.
Definition bytes_ltb (a b : bytes) : bool :=
  match bytes_compare a b with Lt => true | _ => false end.
(** [starts_with]. *)
Fixpoint starts_with (b pre : bytes) {struct pre} : bool :=
  match pre, b with
  | [], _ => true
  | _ :: _, [] => false
  | p :: pre, x :: b => (p =? x) && starts_with b pre
  end.

Lemma bytes_compare_refl a : bytes_compare a a = Eq.
Proof. induction a as [|x a IH]; simpl; [done|]. by rewrite Z.compare_refl. Qed.
Lemma bytes_compare_eq a b : bytes_compare a b = Eq ↔ a = b.
Proof.
  split; [|intros ->; apply bytes_compare_refl].
  revert b. induction a as [|x a IH]; intros [|y b]; simpl; try done.
  destruct (Z.compare_spec x y); try done. intros. subst. f_equal. auto.
Qed.
Lemma bytes_compare_antisym a b : bytes_compare b a = CompOpp (bytes_compare a b).
Proof.
  revert b. induction a as [|x a IH]; intros [|y b]; simpl; try done.
  rewrite (Z.compare_antisym x y). destruct (x ?= y); simpl; auto.
Qed.
#[export] Instance bytes_lt_trans : Transitive bytes_lt.
Proof.
  unfold bytes_lt. intros a. induction a as [|x a IH]; intros [|y b] [|z c]; simpl; try done.
  destruct (Z.compare_spec x y), (Z.compare_spec y z); try done; intros; subst.
  - rewrite Z.compare_refl. eauto.
  - by rewrite (proj2 (Z.compare_lt_iff _ _)).
  - by rewrite (proj2 (Z.compare_lt_iff _ _)).
  - by rewrite (proj2 (Z.compare_lt_iff _ _)) by lia.
Qed.
#[export] Instance bytes_lt_irrefl : Irreflexive bytes_lt.
Proof. intros a. unfold complement, bytes_lt. by rewrite bytes_compare_refl. Qed.
Lemma bytes_compare_app p a b : bytes_compare (p ++ a) (p ++ b) = bytes_compare a b.
Proof. induction p as [|x p IH]; simpl; [done|]. by rewrite Z.compare_refl. Qed.
Lemma starts_with_iff b pre : starts_with b pre = true ↔ ∃ s, b = pre ++ s.
Proof.
  revert b. induction pre as [|p pre IH]; intros b; simpl; [by split; eauto|].
  destruct b as [|x b]; simpl; [by split; [|intros [??]]|].
  rewrite andb_true_iff, Z.eqb_eq, IH. split.
  - intros [-> [s ->]]. eauto.
  - intros [s [= -> ->]]. eauto.
Qed.
Lemma starts_with_app pre s : starts_with (pre ++ s) pre = true.
Proof. apply starts_with_iff. eauto. Qed.

Lemma be_div_step n x :
  0 ≤ x < 256 ^ Z.of_nat (S n) →
  (x / 256 ^ Z.of_nat n) mod 256 = x / 256 ^ Z.of_nat n.
Proof.
  intros Hx. rewrite pow256_succ in Hx. pose proof (pow256_pos n).
  apply Z.mod_small. split; [apply Z.div_pos; lia|apply Z.div_lt_upper_bound; lia].
Qed.
Lemma be_bytes_mod n x : be_bytes n (x mod 256 ^ Z.of_nat n) = be_bytes n x.
Proof.
  assert (∀ k m, (k ≤ m)%nat → be_bytes k (x mod 256 ^ Z.of_nat m) = be_bytes k x) as Hgen; [|by apply Hgen].
  induction k as [|k IH]; intros m Hkm; [done|]. cbn [be_bytes].
  rewrite (IH m) by lia. f_equal.
  replace (Z.of_nat m) with (Z.of_nat k + (1 + Z.of_nat (m - k - 1))) by lia.
  rewrite Z.pow_add_r by lia. pose proof (pow256_pos k).
  rewrite Z.rem_mul_r by (try lia; apply Z.pow_pos_nonneg; lia).
  rewrite (Z.mul_comm (256 ^ Z.of_nat k)), Z.div_add by lia.
  rewrite (Z.div_small (x mod _)) by (apply Z.mod_pos_bound; lia). rewrite Z.add_0_l.
  rewrite Z.pow_add_r, Z.pow_1_r by lia.
  apply Z.mod_mod_divide, Z.divide_factor_l.
Qed.

Lemma be_bytes_be_num b : bytes_ok b → be_bytes (length b) (be_num b) = b.
Proof.
  induction b as [|x b IH]; intros Hb; [done|]. apply bytes_ok_cons in Hb as [Hx Hb].
  cbn [length be_bytes be_num]. pose proof (be_num_bound b Hb) as Hr. unfold blen in *.
  pose proof (pow256_pos (length b)). rewrite Z.add_comm, Z.div_add, Z.div_small, Z.add_0_l by lia. f_equal.
  - by apply Z.mod_small.
  - rewrite <-be_bytes_mod, Z.mod_add, be_bytes_mod by lia. by apply IH.
Qed.

(** Big-endian bytes sort as the numbers they encode, and ties are decided by
    what follows: the one fact every index key of the program rests on. *)
Lemma be_bytes_compare n x y s t :
  0 ≤ x < 256 ^ Z.of_nat n → 0 ≤ y < 256 ^ Z.of_nat n →
  bytes_compare (be_bytes n x ++ s) (be_bytes n y ++ t) =
    match x ?= y with Eq => bytes_compare s t | c => c end.
Proof.
  revert x y. induction n as [|n IH]; intros x y Hx Hy.
  { change (256 ^ Z.of_nat 0) with 1 in *. by replace x with y by lia; rewrite Z.compare_refl. }
  cbn [be_bytes]. rewrite <-!app_comm_cons. cbn [bytes_compare].
  rewrite !be_div_step by done.
  rewrite <-(be_bytes_mod n x), <-(be_bytes_mod n y).
  pose proof (pow256_pos n) as Hp. set (P := 256 ^ Z.of_nat n) in *.
  pose proof (Z.mod_pos_bound x P Hp) as Hmx. pose proof (Z.mod_pos_bound y P Hp) as Hmy.
  rewrite IH by done.
  pose proof (Z.div_mod x P ltac:(lia)). pose proof (Z.div_mod y P ltac:(lia)).
  destruct (Z.compare_spec (x / P) (y / P)) as [He|Hl|Hg].
  - destruct (Z.compare_spec (x mod P) (y mod P)); destruct (Z.compare_spec x y); try lia; auto; nia.
  - destruct (Z.compare_spec x y); try done; nia.
  - destruct (Z.compare_spec x y); try done; nia.
Qed.

Lemma be_bytes_inj n x y s t :
  0 ≤ x < 256 ^ Z.of_nat n → 0 ≤ y < 256 ^ Z.of_nat n →
  be_bytes n x ++ s = be_bytes n y ++ t → x = y ∧ s = t.
Proof.
  intros Hx Hy H. apply app_inj_1 in H as [H ->]; [|by rewrite !length_be_bytes].
  apply (f_equal be_num) in H. by rewrite !be_num_be_bytes_small in H.
Qed.

(** Facts [lia] needs about the concrete widths. *)
Lemma pow256_4 : 256 ^ Z.of_nat 4 = u32_max + 1. Proof. done. Qed.
Lemma pow256_8 : 256 ^ Z.of_nat 8 = u64_max + 1. Proof. done. Qed.
Lemma pow256_2 : 256 ^ Z.of_nat 2 = u16_max + 1. Proof. done. Qed.

(** Ranges of the concrete machine widths, by [lia] after unfolding. *)
Ltac width :=
  rewrite ?pow256_2, ?pow256_4, ?pow256_8 in *;
  unfold u8_max, u16_max, u32_max, u64_max, i64_min, i64_max, byte_ok in *; lia.

(** Lengths: normalise with [skj_rw], then [lia]. *)
Ltac len := autorewrite with skj_rw in *; try lia.

(** Reads one part of a concatenation: the goal's [slice] of [a ++ b ++ ..] at
    the place of one of the parts. *)
Ltac part_side := autorewrite with skj_rw; lia.
Ltac take_part :=
  repeat (rewrite slice_app_r by part_side);
  try (rewrite slice_app_l by part_side);
  rewrite slice_whole by part_side.
