(* ===== verification/Crc.v ===== *)
(** * CRC-32C as an interface

    Every on-disk structure of the program is sealed by the [crc32c] crate:
    pages, log frames, publication hints and reader slots.  The crate is not
    part of the repository, so the development is parameterised by it: the
    class [Crc32c] is its one function [crc32c_append], and [Crc32cLaws] is
    what its documentation promises and the code relies on (a 32-bit result;
    feeding a buffer in pieces is feeding it whole).  Nothing is assumed about
    collisions.

    [crc32c_ref] is the reflected Castagnoli polynomial written out bit by bit;
    it satisfies the laws and is the instance the concrete examples run on. *)
From S2P Require Import Prelude.

(** [crc32c::crc32c_append(crc, data)]. *)
Class Crc32c := crc32c_append : Z → bytes → Z.
(** [crc32c::crc32c(data)] is [crc32c_append(0, data)]. *)
Definition crc32c `{Crc32c} (b : bytes) : Z := crc32c_append 0 b.

Class Crc32cLaws `{Crc32c} : Prop := {
  crc_range c b : is_u32 c → is_u32 (crc32c_append c b);
  crc_app c a b : is_u32 c → crc32c_append (crc32c_append c a) b = crc32c_append c (a ++ b);
  crc_nil c : is_u32 c → crc32c_append c [] = c;
}.

Section laws.
Context `{Crc32cLaws}.
Lemma crc32c_range b : 0 ≤ crc32c b < 256 ^ Z.of_nat 4.
Proof. pose proof (crc_range 0 b). unfold crc32c. width. Qed.
Lemma crc_append_range c b : is_u32 c → 0 ≤ crc32c_append c b < 256 ^ Z.of_nat 4.
Proof. intros Hc. pose proof (crc_range c b Hc). width. Qed.
Lemma crc32c_append_app a b : crc32c_append (crc32c a) b = crc32c (a ++ b).
Proof. unfold crc32c. apply crc_app. width. Qed.
End laws.
#[export] Hint Resolve crc32c_range crc_append_range : skj.

(** ** The reference instance *)
Definition crc_bit (x : Z) : Z :=
  if Z.odd x then Z.lxor (Z.shiftr x 1) 2197175160 else Z.shiftr x 1.
Definition crc_byte (c b : Z) : Z :=
  Nat.iter 8 crc_bit (Z.lxor c (Z.land b 255)).
Definition crc32c_ref (c : Z) (b : bytes) : Z :=
  Z.lxor (fold_left crc_byte b (Z.lxor c u32_max)) u32_max.

Lemma lxor_u32 a b : is_u32 a → is_u32 b → is_u32 (Z.lxor a b).
Proof.
  intros Ha Hb.
  assert (Z.lxor a b = Z.lxor a b mod 2 ^ 32) as ->.
  - symmetry. rewrite <-Z.land_ones by lia. apply Z.bits_inj'. intros i Hi.
    rewrite Z.land_spec, Z.lxor_spec. destruct (decide (i < 32)).
    + rewrite Z.ones_spec_low by lia. by rewrite andb_true_r.
    + rewrite Z.ones_spec_high by lia.
      rewrite <-(Z.mod_small a (2 ^ 32)), <-(Z.mod_small b (2 ^ 32)) by (unfold u32_max in *; lia).
      by rewrite !Z.mod_pow2_bits_high by lia.
  - pose proof (Z.mod_pos_bound (Z.lxor a b) (2 ^ 32)). unfold u32_max. lia.
Qed.
Lemma crc_bit_u32 x : is_u32 x → is_u32 (crc_bit x).
Proof.
  intros Hx. assert (is_u32 (Z.shiftr x 1)).
  { rewrite Z.shiftr_div_pow2 by lia. change (2 ^ 1) with 2.
    split; [apply Z.div_pos; lia|]. apply Z.div_le_upper_bound; unfold u32_max in *; lia. }
  unfold crc_bit. destruct (Z.odd x); [|done]. apply lxor_u32; [done|unfold u32_max; lia].
Qed.
Lemma crc_byte_u32 c b : is_u32 c → is_u32 (crc_byte c b).
Proof.
  intros Hc. unfold crc_byte. simpl. repeat apply crc_bit_u32. apply lxor_u32; [done|].
  change 255 with (Z.ones 8). rewrite Z.land_ones by lia.
  pose proof (Z.mod_pos_bound b (2 ^ 8)). unfold u32_max. lia.
Qed.
Lemma fold_crc_byte_u32 b c : is_u32 c → is_u32 (fold_left crc_byte b c).
Proof. revert c. induction b as [|x b IH]; intros c Hc; simpl; [done|]. by apply IH, crc_byte_u32. Qed.
Lemma lxor_lxor_u32 x : Z.lxor (Z.lxor x u32_max) u32_max = x.
Proof. by rewrite Z.lxor_assoc, Z.lxor_nilpotent, Z.lxor_0_r. Qed.

Definition crc32c_reference : Crc32c := crc32c_ref.
Lemma crc32c_reference_laws : @Crc32cLaws crc32c_reference.
Proof.
  split; unfold crc32c_append, crc32c_reference, crc32c_ref.
  - intros c b Hc. apply lxor_u32; [|unfold u32_max; lia].
    apply fold_crc_byte_u32, lxor_u32; [done|unfold u32_max; lia].
  - intros c a b Hc. by rewrite lxor_lxor_u32, fold_left_app.
  - intros c Hc. simpl. apply lxor_lxor_u32.
Qed.

(** The check value of CRC-32C. *)
Example crc32c_ref_check : crc32c_ref 0 (ascii_bytes "123456789") = 3808858755.
Proof. vm_compute. reflexivity. Qed.
