(* ===== verification/F64.v ===== *)
(** * IEEE 754 doubles as bit patterns

    Rust's [f64] is modelled by its 64-bit pattern ([f64::to_bits]); the value
    a pattern denotes is the Standard Library's [spec_float], so "numeric
    order" below is [SFcompare] and not a definition of this development.
    The file proves the one fact order-preserving index keys rest on: flipping
    the sign bit of a non-negative pattern and every bit of a negative one
    turns numeric order into unsigned integer order. *)
From Stdlib Require Import SpecFloat.
From S2P Require Import Prelude.

Definition sign_bit : Z := 9223372036854775808. (* 1 << 63 *)
Definition frac_size : Z := 4503599627370496.   (* 1 << 52 *)
(** Magnitude bits of an infinity; larger magnitudes are NaNs. *)
Definition inf_mag : Z := 2047 * frac_size.

(** The value of sign [s] and the low 63 bits [mag]. *)
Definition f64_mag (s : bool) (mag : Z) : spec_float :=
  let e := mag / frac_size in
  let m := mag mod frac_size in
  if e =? 2047 then (if m =? 0 then S754_infinity s else S754_nan)
  else if e =? 0 then
    match m with Zpos p => S754_finite s p (-1074) | _ => S754_zero s end
  else
    match m + frac_size with Zpos p => S754_finite s p (e - 1075) | _ => S754_nan end.
(** [f64::from_bits]. *)
Definition f64_of_bits (b : Z) : spec_float := f64_mag (sign_bit <=? b) (b mod sign_bit).

(** [f64::is_finite] and [f64::is_nan], on the pattern. *)
Definition is_finite (b : Z) : bool := b mod sign_bit <? inf_mag.
Definition is_nan (b : Z) : bool := inf_mag <? b mod sign_bit.

(** [b ^ (1 << 63)] and [!b] on a [u64]. *)
Definition flip_sign (b : Z) : Z := Z.lxor b sign_bit.
Definition not_u64 (b : Z) : Z := u64_max - b.

Lemma flip_sign_spec b :
  is_u64 b → flip_sign b = if sign_bit <=? b then b - sign_bit else b + sign_bit.
Proof.
  intros Hb. unfold flip_sign, sign_bit. change 9223372036854775808 with (2 ^ 63).
  assert (∀ x, 0 ≤ x < 2 ^ 63 → Z.lxor x (2 ^ 63) = x + 2 ^ 63) as Hlow.
  { intros x Hx. symmetry. apply Z.add_nocarry_lxor.
    apply Z.bits_inj'. intros i Hi. rewrite Z.land_spec, Z.bits_0, Z.pow2_bits_eqb by lia.
    destruct (Z.eqb_spec 63 i) as [<-|]; [|by rewrite andb_false_r].
    rewrite <-(Z.mod_small x (2 ^ 63)) by lia. by rewrite Z.mod_pow2_bits_high. }
  destruct (Z.leb_spec (2 ^ 63) b); [|by apply Hlow; lia].
  unfold u64_max in Hb. replace b with (b - 2 ^ 63 + 2 ^ 63) at 1 by lia.
  rewrite <-(Hlow (b - 2 ^ 63)) by lia.
  by rewrite Z.lxor_assoc, Z.lxor_nilpotent, Z.lxor_0_r.
Qed.
Lemma flip_sign_u64 b : is_u64 b → is_u64 (flip_sign b).
Proof. intros Hb. rewrite flip_sign_spec by done. unfold sign_bit. case_match; width. Qed.
Lemma flip_sign_involutive b : flip_sign (flip_sign b) = b.
Proof. unfold flip_sign. by rewrite Z.lxor_assoc, Z.lxor_nilpotent, Z.lxor_0_r. Qed.
Lemma not_u64_involutive b : not_u64 (not_u64 b) = b.
Proof. unfold not_u64. lia. Qed.
Lemma not_u64_u64 b : is_u64 b → is_u64 (not_u64 b).
Proof. unfold not_u64. width. Qed.

(** The order-preserving code of a pattern: the scheme the kernel's [enc_f64]
    and the scalar index keys share. *)
Definition f64_ordered (b : Z) : Z := if sign_bit <=? b then not_u64 b else flip_sign b.

Section compare.
Lemma frac_size_pos : 0 < frac_size. Proof. done. Qed.

(** A magnitude below infinity, as SpecFloat sees it: zero or an explicit
    (exponent, mantissa) pair ordered like the magnitude itself. *)
Lemma f64_mag_cases s a :
  0 ≤ a ≤ inf_mag →
  (a = 0 ∧ f64_mag s a = S754_zero s) ∨
  (a = inf_mag ∧ f64_mag s a = S754_infinity s) ∨
  (0 < a < inf_mag ∧ ∃ p e, f64_mag s a = S754_finite s p e ∧
     ((e = -1074 ∧ a = Zpos p ∧ Zpos p < frac_size) ∨
      (-1074 ≤ e ∧ a = (e + 1074) * frac_size + Zpos p ∧ frac_size ≤ Zpos p < 2 * frac_size))).
Proof.
  intros Ha. unfold f64_mag.
  pose proof (Z.div_mod a frac_size ltac:(done)) as Hdm.
  pose proof (Z.mod_pos_bound a frac_size frac_size_pos) as Hm.
  set (e := a / frac_size) in *. set (m := a mod frac_size) in *.
  assert (0 ≤ e ≤ 2047) as He.
  { unfold inf_mag in Ha. split; [apply Z.div_pos; [lia|done]|].
    apply Z.div_le_upper_bound; [done|lia]. }
  clearbody e m. unfold inf_mag, frac_size in *.
  destruct (Z.eqb_spec e 2047) as [->|He'].
  { right; left. assert (m = 0) as -> by lia. done. }
  destruct (Z.eqb_spec e 0) as [E0|He0].
  { rewrite E0 in *. destruct m as [|p|p] eqn:Em; [|right; right|lia].
    - left. split; [lia|done].
    - split; [unfold inf_mag; lia|]. exists p, (-1074). split; [done|]. left. lia. }
  right; right. destruct (m + 4503599627370496) as [|p|p] eqn:Em; [lia| |lia].
  split; [lia|].
  exists p, (e - 1075). split; [done|]. right. lia.
Qed.

Lemma f64_mag_compare_pos a b :
  0 ≤ a ≤ inf_mag → 0 ≤ b ≤ inf_mag →
  SFcompare (f64_mag false a) (f64_mag false b) = Some (a ?= b).
Proof.
  intros Ha Hb.
  destruct (f64_mag_cases false a Ha) as [[-> ->]|[[-> ->]|(Ha' & pa & ea & -> & Hpa)]];
  destruct (f64_mag_cases false b Hb) as [[-> ->]|[[-> ->]|(Hb' & pb & eb & -> & Hpb)]];
  cbn [SFcompare]; f_equal; try (symmetry; first [apply Z.compare_refl|apply Z.compare_lt_iff; unfold inf_mag in *; lia|apply Z.compare_gt_iff; unfold inf_mag in *; lia]); try done.
  change (PosDef.Pos.compare_cont Eq pa pb) with (Zpos pa ?= Zpos pb).
  unfold frac_size in *.
  destruct (Z.compare_spec ea eb); destruct (Z.compare_spec a b);
    try (destruct (Z.compare_spec (Zpos pa) (Zpos pb))); try done; lia.
Qed.

Lemma SFcompare_neg a b :
  0 ≤ a ≤ inf_mag → 0 ≤ b ≤ inf_mag →
  SFcompare (f64_mag true a) (f64_mag true b) = Some (b ?= a).
Proof.
  intros Ha Hb. pose proof (f64_mag_compare_pos b a Hb Ha) as H. revert H.
  destruct (f64_mag_cases false a Ha) as [[-> ->]|[[-> ->]|(Ha' & pa & ea & -> & Hpa)]];
  destruct (f64_mag_cases false b Hb) as [[-> ->]|[[-> ->]|(Hb' & pb & eb & -> & Hpb)]];
  try done.
  - destruct (f64_mag_cases true b Hb) as [[? ->]|[[? ->]|(? & p' & e' & -> & Hp)]]; done || lia.
  - destruct (f64_mag_cases true b Hb) as [[? ->]|[[? ->]|(? & p' & e' & -> & Hp)]]; done || lia.
  - destruct (f64_mag_cases true a Ha) as [[? ->]|[[? ->]|(? & p' & e' & -> & Hp)]]; done || lia.
  - destruct (f64_mag_cases true a Ha) as [[? ->]|[[? ->]|(? & p' & e' & -> & Hp)]]; done || lia.
  - intros _.
    destruct (f64_mag_cases true a Ha) as [[? ->]|[[? ->]|(? & p1 & e1 & -> & H1)]]; [lia|lia|].
    destruct (f64_mag_cases true b Hb) as [[? ->]|[[? ->]|(? & p2 & e2 & -> & H2)]]; [lia|lia|].
    cbn [SFcompare]. f_equal.
    change (PosDef.Pos.compare_cont Eq p1 p2) with (Zpos p1 ?= Zpos p2).
    unfold frac_size in *.
    destruct (Z.compare_spec e1 e2); destruct (Z.compare_spec b a);
      try (destruct (Z.compare_spec (Zpos p1) (Zpos p2))); try done; lia.
Qed.

Lemma SFcompare_mixed a b :
  0 ≤ a ≤ inf_mag → 0 ≤ b ≤ inf_mag → ¬ (a = 0 ∧ b = 0) →
  SFcompare (f64_mag false a) (f64_mag true b) = Some Gt ∧
  SFcompare (f64_mag true b) (f64_mag false a) = Some Lt.
Proof.
  intros Ha Hb Hz.
  destruct (f64_mag_cases false a Ha) as [[-> ->]|[[-> ->]|(Ha' & pa & ea & -> & Hpa)]];
  destruct (f64_mag_cases true b Hb) as [[-> ->]|[[-> ->]|(Hb' & pb & eb & -> & Hpb)]];
  done || lia.
Qed.

(** Zero has two patterns; every other pair of non-NaN patterns is ordered
    by the code exactly as by IEEE comparison. *)
Lemma f64_ordered_compare a b :
  is_u64 a → is_u64 b → is_nan a = false → is_nan b = false →
  ¬ (a mod sign_bit = 0 ∧ b mod sign_bit = 0 ∧ a ≠ b) →
  SFcompare (f64_of_bits a) (f64_of_bits b) = Some (f64_ordered a ?= f64_ordered b).
Proof.
  intros Ha Hb Hna Hnb Hz. unfold is_nan in *. apply Z.ltb_ge in Hna, Hnb.
  pose proof (Z.mod_pos_bound a sign_bit ltac:(done)).
  pose proof (Z.mod_pos_bound b sign_bit ltac:(done)).
  assert (∀ x, is_u64 x → x mod sign_bit = if sign_bit <=? x then x - sign_bit else x) as Hmod.
  { intros x Hx. destruct (Z.leb_spec sign_bit x).
    - symmetry. apply (Z.mod_unique x sign_bit 1); unfold sign_bit in *; width.
    - apply Z.mod_small. lia. }
  pose proof (Hmod a Ha). pose proof (Hmod b Hb).
  unfold f64_of_bits, f64_ordered, not_u64. rewrite !flip_sign_spec by done.
  destruct (Z.leb_spec sign_bit a), (Z.leb_spec sign_bit b).
  - rewrite SFcompare_neg by lia. f_equal.
    destruct (Z.compare_spec (b mod sign_bit) (a mod sign_bit)); symmetry;
      [apply Z.compare_eq_iff|apply Z.compare_lt_iff|apply Z.compare_gt_iff]; lia.
  - destruct (SFcompare_mixed (b mod sign_bit) (a mod sign_bit)) as [_ ->]; try lia.
    f_equal. symmetry. apply Z.compare_lt_iff. unfold sign_bit in *. width.
  - destruct (SFcompare_mixed (a mod sign_bit) (b mod sign_bit)) as [-> _]; try lia.
    f_equal. symmetry. apply Z.compare_gt_iff. unfold sign_bit in *. width.
  - rewrite f64_mag_compare_pos by lia. f_equal.
    destruct (Z.compare_spec (a mod sign_bit) (b mod sign_bit)); symmetry;
      [apply Z.compare_eq_iff|apply Z.compare_lt_iff|apply Z.compare_gt_iff]; lia.
Qed.
End compare.

Lemma f64_ordered_u64 b : is_u64 b → is_u64 (f64_ordered b).
Proof.
  intros. unfold f64_ordered. case_match; [by apply not_u64_u64|by apply flip_sign_u64].
Qed.
