(* ===== verification/Keys.v ===== *)
(** * Keyspaces of the kernel tree ([core/kernel/src/keys.rs])

    Every record of the kernel store is a cell of one byte-ordered tree, found
    by a key whose first byte is the keyspace tag and whose fields are
    big-endian, so that "everything of X" is a prefix scan and byte order is
    field order.  This file has the tags, every key builder, the
    order-preserving value encodings and the hash of an external key, and the
    lemmas that make them an ordered, prefix-closed code. *)
From S2P Require Import Prelude F64.
From Stdlib Require Import SpecFloat.

(** ** Tags *)
Definition TAG_CATALOG : Z := 0.
Definition TAG_NODE : Z := 1.
Definition TAG_LABEL : Z := 2.
Definition TAG_EDGE : Z := 3.
Definition TAG_REDGE : Z := 4.
Definition TAG_VEC : Z := 5.
Definition TAG_EXT : Z := 6.
Definition TAG_CEDGE : Z := 8.
Definition TAG_CREDGE : Z := 9.
Definition TAG_PROP : Z := 10.
Definition TAG_VCODE : Z := 11.
Definition TAG_TEXT : Z := 12.
Definition TAG_TEXTNORM : Z := 13.
Definition TAG_TEXTMETA : Z := 14.
Definition TAG_SPAT : Z := 15.
Definition TAG_GEOM : Z := 16.
Definition TAG_NAV : Z := 17.
Definition TAG_SQLMETA : Z := 18.
Definition TAG_FIELDIDX : Z := 19.
Definition TAG_SEARCHSLOT : Z := 20.
Definition CAT_KEY_ORDER : Z := 4.
Definition CAT_FIELD_AGGREGATE : Z := 5.
Definition TEXT_TERM_STATS_SEG : Z := u32_max - 1.
Definition TEXT_FIELD_META_SEG : Z := u32_max.

(** [u64::to_be_bytes], [u32::to_be_bytes]. *)
Definition be64 (x : Z) : bytes := be_bytes 8 x.
Definition be32 (x : Z) : bytes := be_bytes 4 x.

(** [k]: the tag, then each part big-endian. *)
Definition k (tag : Z) (parts : list Z) : bytes := tag :: concat (map be64 parts).

(** ** Graph keyspaces: context 0 is the base graph and has the short keys. *)
Definition node (id : Z) : bytes := k TAG_NODE [id].
Definition edge (ctx src ty dst : Z) : bytes :=
  if ctx =? 0 then k TAG_EDGE [src; ty; dst] else k TAG_CEDGE [ctx; src; ty; dst].
Definition redge (ctx dst ty src : Z) : bytes :=
  if ctx =? 0 then k TAG_REDGE [dst; ty; src] else k TAG_CREDGE [ctx; dst; ty; src].
Definition edge_prefix (ctx src : Z) : bytes :=
  if ctx =? 0 then k TAG_EDGE [src] else k TAG_CEDGE [ctx; src].
Definition ctx_prefix (ctx : Z) : bytes :=
  if ctx =? 0 then [TAG_EDGE] else k TAG_CEDGE [ctx].
Definition edge_type_prefix (ctx src ty : Z) : bytes :=
  if ctx =? 0 then k TAG_EDGE [src; ty] else k TAG_CEDGE [ctx; src; ty].
Definition redge_prefix (ctx dst : Z) : bytes :=
  if ctx =? 0 then k TAG_REDGE [dst] else k TAG_CREDGE [ctx; dst].
Definition redge_type_prefix (ctx dst ty : Z) : bytes :=
  if ctx =? 0 then k TAG_REDGE [dst; ty] else k TAG_CREDGE [ctx; dst; ty].

(** ** Vectors, text, space, metadata *)
Definition vec_key (field id : Z) : bytes := k TAG_VEC [field; id].
Definition vec_prefix (field : Z) : bytes := k TAG_VEC [field].
Definition vcode_key (field id : Z) : bytes := k TAG_VCODE [field; id].
Definition vcode_prefix (field : Z) : bytes := k TAG_VCODE [field].
Definition nav_key (field id : Z) : bytes := k TAG_NAV [field; id].
Definition nav_prefix (field : Z) : bytes := k TAG_NAV [field].

Definition text_head_key (field : Z) (term : bytes) (docid : Z) : bytes :=
  [TAG_TEXT] ++ be64 field ++ be32 0 ++ term ++ [0] ++ be64 docid.
Definition text_head_doc_key (field docid : Z) : bytes := text_head_key field [] docid.
Definition text_seg_key (field seg : Z) (term : bytes) : bytes :=
  [TAG_TEXT] ++ be64 field ++ be32 seg ++ term.
Definition text_seg_block_prefix (field seg : Z) (term : bytes) : bytes :=
  text_seg_key field seg term ++ [0].
Definition text_seg_block_key (field seg : Z) (term : bytes) (first_doc : Z) : bytes :=
  text_seg_block_prefix field seg term ++ be64 first_doc.
Definition text_meta_key (field seg : Z) : bytes :=
  [TAG_TEXTMETA] ++ be64 field ++ be32 seg.
Definition text_seg_doc_prefix (field seg : Z) : bytes := text_meta_key field seg ++ [0].
Definition text_seg_doc_key (field seg docid : Z) : bytes :=
  text_seg_doc_prefix field seg ++ be64 docid.
Definition text_norm_key (field docid : Z) : bytes := k TAG_TEXTNORM [field; docid].
Definition text_prefix (field : Z) : bytes := k TAG_TEXT [field].
Definition text_norm_prefix (field : Z) : bytes := k TAG_TEXTNORM [field].
Definition text_meta_prefix (field : Z) : bytes := k TAG_TEXTMETA [field].
Definition text_field_meta_key (field : Z) : bytes := text_meta_key field TEXT_FIELD_META_SEG.
Definition text_term_id_key (field term_id : Z) : bytes :=
  text_meta_key field TEXT_TERM_STATS_SEG ++ [0] ++ be64 term_id.
Definition text_term_lex_prefix (field : Z) : bytes :=
  text_meta_key field TEXT_TERM_STATS_SEG ++ [1].
Definition text_term_lex_key (field : Z) (term : bytes) : bytes :=
  text_term_lex_prefix field ++ term.

Definition spat_key (field level cell id : Z) : bytes :=
  [TAG_SPAT] ++ be64 field ++ [level] ++ be64 cell ++ be64 id.
Definition spat_prefix (field level : Z) : bytes := [TAG_SPAT] ++ be64 field ++ [level].
Definition geom_key (field id : Z) : bytes := k TAG_GEOM [field; id].
Definition geom_prefix (field : Z) : bytes := k TAG_GEOM [field].

Definition fieldidx_key (coll field : Z) (value : bytes) (id : Z) : bytes :=
  [TAG_FIELDIDX] ++ be64 coll ++ be64 field ++ value ++ be64 id.
Definition fieldidx_prefix (coll field : Z) : bytes :=
  [TAG_FIELDIDX] ++ be64 coll ++ be64 field.
Definition searchslot_key (idx kind id : Z) : bytes :=
  [TAG_SEARCHSLOT] ++ be64 idx ++ [kind] ++ be64 id.
Definition searchslot_prefix (idx : Z) : bytes := [TAG_SEARCHSLOT] ++ be64 idx.
Definition sqlmeta_key (kind hash : Z) : bytes := [TAG_SQLMETA; kind] ++ be64 hash.
Definition label (l id : Z) : bytes := k TAG_LABEL [l; id].
Definition label_prefix (l : Z) : bytes := k TAG_LABEL [l].
Definition extkey (h : Z) : bytes := k TAG_EXT [h].
Definition prop (prop_id value id : Z) : bytes := k TAG_PROP [prop_id; value; id].
Definition prop_prefix (prop_id : Z) : bytes := k TAG_PROP [prop_id].
Definition prop_value_prefix (prop_id value : Z) : bytes := k TAG_PROP [prop_id; value].

(** ** Catalogue slots *)
Definition catalog (field : Z) : bytes := k TAG_CATALOG [field].
Definition catalog_field (slot field : Z) : bytes := k TAG_CATALOG [slot; field].
Definition catalog_field_prefix (slot : Z) : bytes := k TAG_CATALOG [slot].
Definition catalog_field_item (slot field item : Z) : bytes := k TAG_CATALOG [slot; field; item].
Definition field_aggregate_key (coll field : Z) : bytes :=
  k TAG_CATALOG [CAT_FIELD_AGGREGATE; coll; field].
Definition is_field_aggregate_key (key : bytes) : bool :=
  (blen key =? 25) && (byte_at key 0 =? TAG_CATALOG) &&
  bool_decide (slice key 1 8 = be64 CAT_FIELD_AGGREGATE).

Definition key_order_prefix (collection field : Z) : bytes :=
  k TAG_CATALOG [CAT_KEY_ORDER; collection; field].
(** The loop of [key_order_key]: NUL becomes [00 ff]. *)
Fixpoint escape_nul (key : bytes) : bytes :=
  match key with
  | [] => []
  | b :: key => if b =? 0 then 0 :: u8_max :: escape_nul key else b :: escape_nul key
  end.
Definition key_order_key (collection field : Z) (key : bytes) (id : Z) : bytes :=
  key_order_prefix collection field ++ escape_nul key ++ [0; 0] ++ be64 id.

(** FNV-1a 64, with [wrapping_mul]. *)
Definition ext_hash (b : bytes) : Z :=
  fold_left (λ h x, (Z.lxor h x * 1099511628211) mod (u64_max + 1)) b 14695981039346656037.

(** ** Order-preserving value codes *)
(** [(v as u64) ^ (1 << 63)]. *)
Definition enc_i64 (v : Z) : Z := flip_sign (v mod (u64_max + 1)).
Definition enc_f64 (b : Z) : Z :=
  if Z.shiftr b 63 =? 1 then not_u64 b else Z.lxor b sign_bit.
Definition enc_f64_desc (b : Z) : Z := not_u64 (enc_f64 b).
Definition enc_i64_desc (v : Z) : Z := not_u64 (enc_i64 v).

(** [u64_at]: slicing past the end panics, which is [None]. *)
Definition u64_at (key : bytes) (off : Z) : option Z :=
  if off + 8 <=? blen key then Some (be_num (slice key off 8)) else None.

(** * Lemmas *)
Lemma be64_compare x y s t :
  is_u64 x → is_u64 y →
  bytes_compare (be64 x ++ s) (be64 y ++ t) =
    match x ?= y with Eq => bytes_compare s t | c => c end.
Proof. intros. apply be_bytes_compare; width. Qed.
Lemma be32_compare x y s t :
  is_u32 x → is_u32 y →
  bytes_compare (be32 x ++ s) (be32 y ++ t) =
    match x ?= y with Eq => bytes_compare s t | c => c end.
Proof. intros. apply be_bytes_compare; width. Qed.

(** Lexicographic comparison of field tuples. *)
Fixpoint parts_compare (ps qs : list Z) : comparison :=
  match ps, qs with
  | p :: ps, q :: qs => match p ?= q with Eq => parts_compare ps qs | c => c end
  | _, _ => Eq
  end.

Lemma k_app tag ps qs : k tag (ps ++ qs) = k tag ps ++ concat (map be64 qs).
Proof. unfold k. by rewrite map_app, concat_app. Qed.

(** Keys of one keyspace with the same number of fields sort by their fields. *)
Lemma k_compare tag ps qs s t :
  Forall (λ x, is_u64 x) ps → Forall (λ x, is_u64 x) qs → length ps = length qs →
  bytes_compare (k tag ps ++ s) (k tag qs ++ t) =
    match parts_compare ps qs with Eq => bytes_compare s t | c => c end.
Proof.
  intros Hps. unfold k. rewrite <-!app_comm_cons. cbn [bytes_compare]. rewrite Z.compare_refl.
  revert qs. induction Hps as [|p ps Hp _ IH]; intros [|q qs] Hqs; try done.
  apply Forall_cons in Hqs as [Hq Hqs]. cbn [map concat parts_compare length]. intros [= Hl].
  rewrite <-!(assoc_L (++)), be64_compare by done. destruct (p ?= q); auto.
Qed.
(** Different tags never interleave. *)
Lemma tag_compare t1 t2 a b : t1 ≠ t2 → bytes_compare (t1 :: a) (t2 :: b) = (t1 ?= t2).
Proof. intros. cbn [bytes_compare]. by destruct (Z.compare_spec t1 t2). Qed.

Lemma concat_be64_inj ps qs s t :
  Forall (λ x, is_u64 x) ps → Forall (λ x, is_u64 x) qs → length ps = length qs →
  concat (map be64 ps) ++ s = concat (map be64 qs) ++ t → ps = qs ∧ s = t.
Proof.
  intros Hps. revert qs. induction Hps as [|p ps Hp _ IH]; intros [|q qs] Hqs; try done.
  apply Forall_cons in Hqs as [Hq Hqs]. cbn [map concat length]. intros [= Hl].
  rewrite <-!(assoc_L (++)). intros H. apply be_bytes_inj in H as [-> H]; [|width..].
  apply IH in H as [-> ->]; auto.
Qed.
Lemma k_prefix_iff tag ps qs rest :
  Forall (λ x, is_u64 x) ps → Forall (λ x, is_u64 x) qs → length ps = length qs →
  starts_with (k tag (ps ++ rest)) (k tag qs) = true ↔ ps = qs.
Proof.
  intros. rewrite starts_with_iff, k_app. unfold k. split.
  - intros [s Hs]. rewrite <-!app_comm_cons in Hs. injection Hs as Hs.
    by apply concat_be64_inj in Hs as [-> _].
  - intros ->. eauto.
Qed.
Lemma starts_with_tag_ne t1 t2 a b : t1 ≠ t2 → starts_with (t1 :: a) (t2 :: b) = false.
Proof. intros. simpl. by rewrite (proj2 (Z.eqb_neq _ _)). Qed.

(** ** The NUL escape *)
Lemma escape_nul_compare a b s t :
  bytes_ok a → bytes_ok b →
  bytes_compare (escape_nul a ++ [0; 0] ++ s) (escape_nul b ++ [0; 0] ++ t) =
    match bytes_compare a b with Eq => bytes_compare s t | c => c end.
Proof.
  intros Ha. revert b. induction Ha as [|x a Hx _ IH]; intros b Hb.
  - destruct b as [|y b]; [done|]. apply Forall_cons in Hb as [[? ?] _]. cbn [escape_nul].
    destruct (Z.eqb_spec y 0) as [->|]; [done|].
    cbn [app bytes_compare]. by rewrite (proj2 (Z.compare_lt_iff 0 y)) by lia.
  - destruct Hx as [? ?]. destruct b as [|y b].
    + cbn [escape_nul]. destruct (Z.eqb_spec x 0) as [->|]; [done|].
      cbn [app bytes_compare]. by rewrite (proj2 (Z.compare_gt_iff x 0)) by lia.
    + apply Forall_cons in Hb as [[? ?] Hb]. cbn [escape_nul bytes_compare].
      destruct (Z.eqb_spec x 0) as [->|], (Z.eqb_spec y 0) as [->|].
      * rewrite <-!app_comm_cons. cbn [bytes_compare]. rewrite !Z.compare_refl. by apply IH.
      * rewrite <-!app_comm_cons. cbn [bytes_compare].
        by rewrite (proj2 (Z.compare_lt_iff 0 y)) by lia.
      * rewrite <-!app_comm_cons. cbn [bytes_compare].
        by rewrite (proj2 (Z.compare_gt_iff x 0)) by lia.
      * rewrite <-!app_comm_cons. cbn [bytes_compare]. destruct (x ?= y); auto.
Qed.

(** ** Value codes *)
Lemma enc_i64_spec v : is_i64 v → enc_i64 v = v + sign_bit.
Proof.
  intros Hv. unfold enc_i64. rewrite flip_sign_spec by (pose proof (Z.mod_pos_bound v (u64_max + 1)); width).
  destruct (decide (0 ≤ v)).
  - rewrite Z.mod_small by width. destruct (Z.leb_spec sign_bit v); unfold sign_bit in *; width.
  - assert (v mod (u64_max + 1) = v + (u64_max + 1)) as ->.
    { symmetry. apply (Z.mod_unique v _ (-1)); width. }
    destruct (Z.leb_spec sign_bit (v + (u64_max + 1))); unfold sign_bit in *; width.
Qed.
Lemma enc_i64_u64 v : is_i64 v → is_u64 (enc_i64 v).
Proof. intros. rewrite enc_i64_spec by done. unfold sign_bit. width. Qed.
Lemma enc_f64_ordered b : is_u64 b → enc_f64 b = f64_ordered b.
Proof.
  intros Hb. unfold enc_f64, f64_ordered. rewrite Z.shiftr_div_pow2 by lia.
  change (2 ^ 63) with sign_bit.
  assert (b / sign_bit = if sign_bit <=? b then 1 else 0) as ->.
  { destruct (Z.leb_spec sign_bit b); [|apply Z.div_small; lia].
    symmetry. apply (Z.div_unique b sign_bit 1 (b - sign_bit)); unfold sign_bit in *; width. }
  by destruct (sign_bit <=? b).
Qed.

Lemma ext_hash_u64 b : is_u64 (ext_hash b).
Proof.
  unfold ext_hash.
  assert (∀ h, is_u64 h → is_u64 (fold_left (λ h x, (Z.lxor h x * 1099511628211) mod (u64_max + 1)) b h)) as Hgen.
  { induction b as [|x b IH]; intros h Hh; simpl; [done|]. apply IH.
    pose proof (Z.mod_pos_bound (Z.lxor h x * 1099511628211) (u64_max + 1)). width. }
  apply Hgen. width.
Qed.

(** A NUL terminator sorts before every text byte, so terms keep their order. *)
Lemma nul_terminated_compare a b s t :
  Forall (λ x, 0 < x < 256) a → Forall (λ x, 0 < x < 256) b →
  bytes_compare (a ++ [0] ++ s) (b ++ [0] ++ t) =
    match bytes_compare a b with Eq => bytes_compare s t | c => c end.
Proof.
  intros Ha. revert b. induction Ha as [|x a Hx _ IH]; intros b Hb.
  - destruct b as [|y b]; [done|]. apply Forall_cons in Hb as [? _].
    cbn [app bytes_compare]. by rewrite (proj2 (Z.compare_lt_iff 0 y)) by lia.
  - destruct b as [|y b].
    + cbn [app bytes_compare]. by rewrite (proj2 (Z.compare_gt_iff x 0)) by lia.
    + apply Forall_cons in Hb as [? Hb]. cbn [app bytes_compare].
      destruct (x ?= y); [by apply IH|done|done].
Qed.

(** * Properties *)

Definition u64s (l : list Z) : Prop := Forall (λ x, is_u64 x) l.
#[export] Instance u64s_dec l : Decision (u64s l).
Proof. unfold u64s. apply _. Defined.

(** An adjacency scan is exact.  The edges a prefix scan of
    [edge_prefix ctx' src'] meets are the edges of that context and that
    source, no other, whatever the contexts (the base graph's short keys
    included); and within one context the keys sort by (source, type,
    destination). *)
Lemma adjacency_scan_exact ctx src ty dst ctx' src' ty' dst' :
  u64s [ctx; src; ty; dst] → u64s [ctx'; src'; ty'; dst'] →
  (starts_with (edge ctx src ty dst) (edge_prefix ctx' src') = true ↔ ctx = ctx' ∧ src = src') ∧
  (ctx = ctx' → bytes_compare (edge ctx src ty dst) (edge ctx' src' ty' dst') =
     parts_compare [src; ty; dst] [src'; ty'; dst']) ∧
  starts_with (node src) (edge_prefix ctx' src') = false ∧
  starts_with (redge ctx dst ty src) (edge_prefix ctx' src') = false.
Proof.
  unfold u64s. rewrite !Forall_cons. intros (? & ? & ? & ? & _) (? & ? & ? & ? & _).
  split; [|split; [|split]].
  - unfold edge, edge_prefix.
    destruct (Z.eqb_spec ctx 0) as [->|], (Z.eqb_spec ctx' 0) as [->|].
    + rewrite (k_prefix_iff TAG_EDGE [src] [src'] [ty; dst]) by (repeat constructor; width).
      naive_solver.
    + unfold k. rewrite starts_with_tag_ne by done. split; [done|]. intros [<- _]. done.
    + unfold k. rewrite starts_with_tag_ne by done. split; [done|]. intros [-> _]. done.
    + rewrite (k_prefix_iff TAG_CEDGE [ctx; src] [ctx'; src'] [ty; dst]) by (repeat constructor; width).
      naive_solver.
  - intros <-. unfold edge. destruct (ctx =? 0).
    + rewrite <-(app_nil_r (k _ [src; ty; dst])), <-(app_nil_r (k _ [src'; ty'; dst'])).
      rewrite k_compare by (repeat constructor; width). by destruct (parts_compare _ _).
    + rewrite <-(app_nil_r (k _ [_; src; ty; dst])), <-(app_nil_r (k _ [_; src'; ty'; dst'])).
      rewrite k_compare by (repeat constructor; width).
      cbn [parts_compare]. rewrite Z.compare_refl. by destruct (src ?= src'), (ty ?= ty'), (dst ?= dst').
  - unfold node, edge_prefix, k. by destruct (ctx' =? 0).
  - unfold redge, edge_prefix, k. by destruct (ctx =? 0), (ctx' =? 0).
Qed.

Lemma adjacency_scan_exact_witness :
  u64s [5; 42; 7; 9] ∧
  (starts_with (edge 5 42 7 9) (edge_prefix 5 42) = true ↔ 5 = 5 ∧ 42 = 42).
Proof.
  assert (H : u64s [5; 42; 7; 9]) by (repeat constructor; width).
  split; [exact H|]. exact (proj1 (adjacency_scan_exact 5 42 7 9 5 42 7 9 H H)).
Defined.

(** C16: the covering key index is in key order.  Two entries of one
    (collection, field) compare as their external keys do, byte by byte, with
    embedded NULs and proper prefixes included, and equal keys are separated
    by the row id: distinct rows are distinct physical entries. *)
Theorem key_order_key_order coll field key id key' id' :
  u64s [coll; field; id; id'] → bytes_ok key → bytes_ok key' →
  bytes_compare (key_order_key coll field key id) (key_order_key coll field key' id') =
    match bytes_compare key key' with Eq => id ?= id' | c => c end.
Proof.
  unfold u64s. rewrite !Forall_cons. intros (? & ? & ? & ? & _) Hk Hk'.
  unfold key_order_key. rewrite bytes_compare_app, escape_nul_compare by done.
  destruct (bytes_compare key key'); [|done..].
  rewrite <-(app_nil_r (be64 id)), <-(app_nil_r (be64 id')), be64_compare by done.
  by destruct (id ?= id').
Qed.

Lemma key_order_key_order_witness :
  bytes_compare (key_order_key 1 2 [97; 0] 7) (key_order_key 1 2 [97; 0; 98] 3) = Lt.
Proof.
  rewrite (key_order_key_order 1 2 [97; 0] 7 [97; 0; 98] 3); [reflexivity|..];
    repeat constructor; unfold byte_ok; width.
Defined.

(** Head postings of a text field sort by term and then by
    document, for the NUL-free terms the tokenizer emits: a term sorts before
    every longer term it prefixes. *)
Lemma text_head_key_order field term doc term' doc' :
  u64s [field; doc; doc'] →
  Forall (λ x, 0 < x < 256) term → Forall (λ x, 0 < x < 256) term' →
  bytes_compare (text_head_key field term doc) (text_head_key field term' doc') =
    match bytes_compare term term' with Eq => doc ?= doc' | c => c end.
Proof.
  unfold u64s. rewrite !Forall_cons. intros (? & ? & ? & _) Ht Ht'.
  unfold text_head_key. rewrite !bytes_compare_app, nul_terminated_compare by done.
  destruct (bytes_compare term term'); [|done..].
  rewrite <-(app_nil_r (be64 doc)), <-(app_nil_r (be64 doc')), be64_compare by done.
  by destruct (doc ?= doc').
Qed.

Lemma text_head_key_order_witness :
  bytes_compare (text_head_key 1 (ascii_bytes "hand") 9) (text_head_key 1 (ascii_bytes "handle") 2) = Lt.
Proof.
  rewrite (text_head_key_order 1 (ascii_bytes "hand") 9 (ascii_bytes "handle") 2); [reflexivity|..];
    repeat constructor; width.
Defined.

(** The 8-byte value codes of the property index preserve order.
    Signed integers compare as their codes, the descending codes reverse
    them, and IEEE comparison of two doubles (SpecFloat's) is comparison of
    their codes, for every pair without a NaN, the two zeros apart. *)
Lemma value_codes_preserve_order v w a b :
  is_i64 v → is_i64 w → is_u64 a → is_u64 b → is_nan a = false → is_nan b = false →
  ¬ (a mod sign_bit = 0 ∧ b mod sign_bit = 0 ∧ a ≠ b) →
  (enc_i64 v ?= enc_i64 w) = (v ?= w) ∧
  (enc_i64_desc v ?= enc_i64_desc w) = (w ?= v) ∧
  SFcompare (f64_of_bits a) (f64_of_bits b) = Some (enc_f64 a ?= enc_f64 b) ∧
  SFcompare (f64_of_bits a) (f64_of_bits b) = Some (enc_f64_desc b ?= enc_f64_desc a) ∧
  is_u64 (enc_i64 v) ∧ is_u64 (enc_f64 a).
Proof.
  intros Hv Hw Ha Hb Hna Hnb Hz.
  unfold enc_i64_desc, enc_f64_desc, not_u64.
  rewrite !enc_i64_spec, !enc_f64_ordered by done.
  rewrite (f64_ordered_compare a b) by done.
  assert (∀ x y c, (c - x ?= c - y) = (y ?= x)) as Hsub.
  { intros x y c. destruct (Z.compare_spec (c - x) (c - y)); symmetry;
      [apply Z.compare_eq_iff|apply Z.compare_lt_iff|apply Z.compare_gt_iff]; lia. }
  split_and!.
  - destruct (Z.compare_spec v w);
      [apply Z.compare_eq_iff|apply Z.compare_lt_iff|apply Z.compare_gt_iff]; lia.
  - rewrite Hsub. destruct (Z.compare_spec w v);
      [apply Z.compare_eq_iff|apply Z.compare_lt_iff|apply Z.compare_gt_iff]; lia.
  - done.
  - by rewrite Hsub.
  - unfold sign_bit. width.
  - unfold sign_bit. width.
  - apply f64_ordered_u64; done.
  - apply f64_ordered_u64; done.
Qed.

Lemma value_codes_preserve_order_witness :
  SFcompare (f64_of_bits 13830554455654793216) (f64_of_bits 4607182418800017408) = Some Lt.
Proof.
  destruct (value_codes_preserve_order (-3) 4 13830554455654793216 4607182418800017408)
    as (_ & _ & H & _); [width..|reflexivity|reflexivity| |].
  - intros (H & _). discriminate H.
  - rewrite H. reflexivity.
Defined.
