(* ===== verification/Utf8.v ===== *)
(** * UTF-8, as Rust's [str] has it

    A [char] is a Unicode scalar value, a [str] the bytes that encode a list of
    them.  Patterns and keys are matched on bytes while the language rules speak
    of characters; the lemmas here carry one view to the other: prefixes,
    suffixes and substrings of the bytes are those of the characters. *)
From S2P Require Import Prelude.

Module Utf8.

Definition is_scalar (c : Z) : bool :=
  (0 <=? c) && (c <=? 1114111) && negb ((55296 <=? c) && (c <=? 57343)).
Definition encode_char (c : Z) : bytes :=
  if c <? 128 then [c] else
  if c <? 2048 then [192 + c / 64; 128 + c mod 64] else
  if c <? 65536 then [224 + c / 4096; 128 + (c / 64) mod 64; 128 + c mod 64] else
  [240 + c / 262144; 128 + (c / 4096) mod 64; 128 + (c / 64) mod 64; 128 + c mod 64].
Definition encode (s : list Z) : bytes := concat (map encode_char s).

Definition cont (b : Z) : bool := (128 <=? b) && (b <? 192).
(** The first character and the bytes behind it; [None] where the bytes are not
    UTF-8 (a stray or missing continuation byte, an overlong form, a surrogate,
    a value past U+10FFFF). *)
Definition decode_char (b : bytes) : option (Z * bytes) :=
  match b with
  | [] => None
  | b0 :: r =>
      if b0 <? 128 then Some (b0, r) else
      if b0 <? 192 then None else
      if b0 <? 224 then
        match r with
        | b1 :: r =>
            let c := (b0 - 192) * 64 + (b1 - 128) in
            if cont b1 && (128 <=? c) then Some (c, r) else None
        | _ => None
        end
      else if b0 <? 240 then
        match r with
        | b1 :: b2 :: r =>
            let c := (b0 - 224) * 4096 + (b1 - 128) * 64 + (b2 - 128) in
            if cont b1 && cont b2 && (2048 <=? c) && is_scalar c then Some (c, r) else None
        | _ => None
        end
      else
        match r with
        | b1 :: b2 :: b3 :: r =>
            let c := (b0 - 240) * 262144 + (b1 - 128) * 4096 + (b2 - 128) * 64 + (b3 - 128) in
            if cont b1 && cont b2 && cont b3 && (65536 <=? c) && is_scalar c then Some (c, r) else None
        | _ => None
        end
  end.
Fixpoint decode_fuel (n : nat) (b : bytes) : option (list Z) :=
  match b with
  | [] => Some []
  | _ =>
      match n with
      | O => None
      | S n => '(c, r) ← decode_char b; cs ← decode_fuel n r; Some (c :: cs)
      end
  end.
(** [String::from_utf8]: every character takes a byte, so the length is fuel enough. *)
Definition decode (b : bytes) : option (list Z) := decode_fuel (length b) b.

(** [to_ascii_lowercase], and a match on ASCII words. *)
Definition ascii_lower (c : Z) : Z := if (65 <=? c) && (c <=? 90) then c + 32 else c.
Definition one_of (w : list Z) (l : list string) : bool := existsb (λ s, bool_decide (ascii_bytes s = w)) l.

Definition scalars (s : list Z) : Prop := Forall (λ c, is_scalar c = true) s.

Lemma is_scalar_spec c : is_scalar c = true ↔ 0 ≤ c ≤ 1114111 ∧ ¬ (55296 ≤ c ≤ 57343).
Proof. unfold is_scalar. rewrite !andb_true_iff, negb_true_iff, andb_false_iff, !Z.leb_le, !Z.leb_gt. lia. Qed.
Lemma cont_spec b : cont b = true ↔ 128 ≤ b < 192.
Proof. unfold cont. rewrite andb_true_iff, Z.leb_le, Z.ltb_lt. lia. Qed.
Lemma cont_false b : cont b = false ↔ b < 128 ∨ 192 ≤ b.
Proof. rewrite <-not_true_iff_false, cont_spec. lia. Qed.

(** The digits of a character in base 64. *)
Ltac digits c :=
  pose proof (Z.div_mod c 64 ltac:(done)); pose proof (Z.mod_pos_bound c 64 ltac:(done));
  pose proof (Z.div_mod (c / 64) 64 ltac:(done)); pose proof (Z.mod_pos_bound (c / 64) 64 ltac:(done));
  pose proof (Z.div_mod (c / 4096) 64 ltac:(done)); pose proof (Z.mod_pos_bound (c / 4096) 64 ltac:(done));
  pose proof (Z.div_div c 64 64 ltac:(done) ltac:(done)); pose proof (Z.div_div c 4096 64 ltac:(done) ltac:(done));
  change (64 * 64) with 4096 in *; change (4096 * 64) with 262144 in *.

Lemma encode_char_shape c :
  is_scalar c = true → ∃ b0 l, encode_char c = b0 :: l ∧ byte_ok b0 ∧ cont b0 = false ∧ Forall (λ b, cont b = true) l.
Proof.
  intros Hc%is_scalar_spec. unfold encode_char. digits c.
  destruct (Z.ltb_spec c 128); [|destruct (Z.ltb_spec c 2048); [|destruct (Z.ltb_spec c 65536)]];
    do 2 eexists; (split; [reflexivity|]); rewrite cont_false, ?Forall_cons, ?cont_spec;
    (split; [unfold byte_ok; lia|split; [lia|]]); rewrite ?Forall_nil; repeat (split; [lia|]); done.
Qed.
Lemma decode_char_encode c s : is_scalar c = true → decode_char (encode_char c ++ s) = Some (c, s).
Proof.
  intros Hc. pose proof (proj1 (is_scalar_spec c) Hc) as Hr. unfold encode_char. digits c.
  destruct (Z.ltb_spec c 128); [|destruct (Z.ltb_spec c 2048); [|destruct (Z.ltb_spec c 65536)]]; cbn [app decode_char].
  - by rewrite (proj2 (Z.ltb_lt c 128)) by lia.
  - rewrite (proj2 (Z.ltb_ge _ 128)), (proj2 (Z.ltb_ge _ 192)), (proj2 (Z.ltb_lt _ 224)) by lia.
    rewrite (proj2 (cont_spec _)) by lia. replace ((192 + c / 64 - 192) * 64 + (128 + c mod 64 - 128)) with c by lia.
    by rewrite (proj2 (Z.leb_le 128 c)) by lia.
  - rewrite (proj2 (Z.ltb_ge _ 128)), (proj2 (Z.ltb_ge _ 192)), (proj2 (Z.ltb_ge _ 224)), (proj2 (Z.ltb_lt _ 240)) by lia.
    rewrite !(proj2 (cont_spec _)) by lia.
    replace ((224 + c / 4096 - 224) * 4096 + (128 + (c / 64) mod 64 - 128) * 64 + (128 + c mod 64 - 128)) with c by lia.
    by rewrite (proj2 (Z.leb_le 2048 c)), Hc by lia.
  - rewrite (proj2 (Z.ltb_ge _ 128)), (proj2 (Z.ltb_ge _ 192)), (proj2 (Z.ltb_ge _ 224)), (proj2 (Z.ltb_ge _ 240)) by lia.
    rewrite !(proj2 (cont_spec _)) by lia.
    replace ((240 + c / 262144 - 240) * 262144 + (128 + (c / 4096) mod 64 - 128) * 4096
             + (128 + (c / 64) mod 64 - 128) * 64 + (128 + c mod 64 - 128)) with c by lia.
    by rewrite (proj2 (Z.leb_le 65536 c)), Hc by lia.
Qed.
(** A base-64 number's digits. *)
Lemma radix64 a b : 0 ≤ b < 64 → (a * 64 + b) / 64 = a ∧ (a * 64 + b) mod 64 = b.
Proof.
  intros Hb. split.
  - rewrite Z.div_add_l by done. rewrite Z.div_small by done. lia.
  - rewrite Z.add_comm, Z.mod_add by done. by apply Z.mod_small.
Qed.
Lemma radix4096 a b c : 0 ≤ b < 64 → 0 ≤ c < 64 →
  (a * 4096 + b * 64 + c) / 4096 = a ∧ ((a * 4096 + b * 64 + c) / 64) mod 64 = b ∧ (a * 4096 + b * 64 + c) mod 64 = c.
Proof.
  intros Hb Hc. replace (a * 4096 + b * 64 + c) with ((a * 64 + b) * 64 + c) by lia.
  destruct (radix64 (a * 64 + b) c Hc) as [E1 E2]. destruct (radix64 a b Hb) as [E3 E4].
  split; [|split; [rewrite E1; exact E4|exact E2]].
  change 4096 with (64 * 64). rewrite <-Z.div_div by done. rewrite E1. exact E3.
Qed.
Lemma decode_char_inv b c r : bytes_ok b → decode_char b = Some (c, r) → is_scalar c = true ∧ b = encode_char c ++ r.
Proof.
  intros Hb. destruct b as [|b0 b]; [done|]. apply bytes_ok_cons in Hb as [H0 Hb]. unfold byte_ok in H0. cbn [decode_char].
  destruct (Z.ltb_spec b0 128).
  { intros [= <- <-]. rewrite is_scalar_spec. split; [lia|]. unfold encode_char. by rewrite (proj2 (Z.ltb_lt b0 128)) by lia. }
  destruct (Z.ltb_spec b0 192); [done|]. destruct (Z.ltb_spec b0 224); [|destruct (Z.ltb_spec b0 240)].
  - destruct b as [|b1 b]; [done|]. destruct (_ && _) eqn:Ec; [|done]. intros [= <- <-].
    apply andb_true_iff in Ec as [K1%cont_spec K2%Z.leb_le]. rewrite is_scalar_spec. split; [lia|]. unfold encode_char.
    rewrite (proj2 (Z.ltb_ge _ 128)), (proj2 (Z.ltb_lt _ 2048)) by lia.
    destruct (radix64 (b0 - 192) (b1 - 128)) as [-> ->]; [lia|]. cbn [app]. repeat f_equal; lia.
  - destruct b as [|b1 [|b2 b]]; [done..|]. destruct (_ && _) eqn:Ec; [|done]. intros [= <- <-].
    rewrite !andb_true_iff in Ec. destruct Ec as [[[K1%cont_spec K2%cont_spec] K3%Z.leb_le] K4]. split; [exact K4|].
    unfold encode_char. rewrite (proj2 (Z.ltb_ge _ 128)), (proj2 (Z.ltb_ge _ 2048)), (proj2 (Z.ltb_lt _ 65536)) by lia.
    destruct (radix4096 (b0 - 224) (b1 - 128) (b2 - 128)) as (-> & -> & ->); [lia..|]. cbn [app]. repeat f_equal; lia.
  - destruct b as [|b1 [|b2 [|b3 b]]]; [done..|]. destruct (_ && _) eqn:Ec; [|done]. intros [= <- <-].
    rewrite !andb_true_iff in Ec. destruct Ec as [[[[K1%cont_spec K2%cont_spec] K3%cont_spec] K4%Z.leb_le] K5]. split; [exact K5|].
    unfold encode_char. rewrite (proj2 (Z.ltb_ge _ 128)), (proj2 (Z.ltb_ge _ 2048)), (proj2 (Z.ltb_ge _ 65536)) by lia.
    replace ((b0 - 240) * 262144 + (b1 - 128) * 4096 + (b2 - 128) * 64 + (b3 - 128))
      with (((b0 - 240) * 64 + (b1 - 128)) * 4096 + (b2 - 128) * 64 + (b3 - 128)) by lia.
    destruct (radix4096 ((b0 - 240) * 64 + (b1 - 128)) (b2 - 128) (b3 - 128)) as (E1 & -> & ->); [lia..|].
    change 262144 with (4096 * 64). rewrite <-Z.div_div by done. rewrite !E1.
    destruct (radix64 (b0 - 240) (b1 - 128)) as [-> ->]; [lia|]. cbn [app]. repeat f_equal; lia.
Qed.

Lemma encode_cons c s : encode (c :: s) = encode_char c ++ encode s.
Proof. done. Qed.
Lemma encode_app s t : encode (s ++ t) = encode s ++ encode t.
Proof. unfold encode. by rewrite map_app, concat_app. Qed.
Lemma scalars_app s t : scalars (s ++ t) ↔ scalars s ∧ scalars t.
Proof. apply Forall_app. Qed.
Lemma encode_char_length c : (1 ≤ length (encode_char c) ≤ 4)%nat.
Proof. unfold encode_char. repeat case_match; simpl; lia. Qed.
Lemma utf8_encode_ok s : scalars s → bytes_ok (encode s).
Proof.
  induction 1 as [|c s Hc _ IH]; [constructor|]. rewrite encode_cons, bytes_ok_app. split; [|done].
  destruct (encode_char_shape c Hc) as (b0 & l & -> & H0 & _ & Hl). constructor; [done|].
  eapply Forall_impl; [exact Hl|]. intros b Hb%cont_spec. unfold byte_ok. lia.
Qed.
Lemma decode_fuel_encode s t n :
  scalars s → (length (encode s) ≤ n)%nat → decode_fuel n (encode s ++ t) =
    (r ← decode_fuel (n - length s) t; Some (s ++ r)).
Proof.
  intros Hs. revert n. induction Hs as [|c s Hc Hs IH]; intros n Hn.
  - simpl. rewrite Nat.sub_0_r. by destruct (decode_fuel n t).
  - rewrite encode_cons in *. rewrite length_app in Hn. pose proof (encode_char_length c).
    destruct n as [|n]; [lia|]. rewrite <-app_assoc.
    destruct (encode_char_shape c Hc) as (b0 & l & He & _).
    assert (decode_fuel (S n) (encode_char c ++ encode s ++ t) =
      ('(c, r) ← decode_char (encode_char c ++ encode s ++ t); cs ← decode_fuel n r; Some (c :: cs))) as ->
      by (rewrite He; reflexivity).
    rewrite decode_char_encode by done. simpl. rewrite IH by lia.
    by destruct (decode_fuel (n - length s) t).
Qed.
Lemma utf8_decode_encode s : scalars s → decode (encode s) = Some s.
Proof.
  intros Hs. unfold decode. rewrite <-(app_nil_r (encode s)) at 2. rewrite decode_fuel_encode by (done || lia).
  destruct (length (encode s) - length s)%nat; simpl; by rewrite app_nil_r.
Qed.
Lemma decode_fuel_inv n b s : bytes_ok b → decode_fuel n b = Some s → scalars s ∧ b = encode s.
Proof.
  revert b s. induction n as [|n IH]; intros b s Hb.
  { destruct b; [|done]. intros [= <-]. by split; [constructor|]. }
  destruct b as [|b0 b]; [intros [= <-]; by split; [constructor|]|]. cbn [decode_fuel].
  destruct (decode_char (b0 :: b)) as [[c r]|] eqn:Hd; [|done]. simpl.
  apply decode_char_inv in Hd as [Hc Hd]; [|done]. rewrite Hd in Hb |- *. apply bytes_ok_app in Hb as [_ Hr].
  destruct (decode_fuel n r) as [cs|] eqn:Hf; [|done]. simpl. intros [= <-].
  destruct (IH _ _ Hr Hf) as [? ->]. split; [by constructor|done].
Qed.
Lemma decode_inv b s : bytes_ok b → decode b = Some s → scalars s ∧ b = encode s.
Proof. apply decode_fuel_inv. Qed.
Lemma encode_inj s t : scalars s → scalars t → encode s = encode t → s = t.
Proof. intros Hs Ht He. pose proof (utf8_decode_encode s Hs) as H. rewrite He, utf8_decode_encode in H by done. by injection H. Qed.

(** A split of the bytes at a place where a character starts, or at the end,
    is a split of the characters. *)
Lemma encode_split s x y :
  scalars s → encode s = x ++ y → (∀ b l, y = b :: l → cont b = false) →
  ∃ s1 s2, s = s1 ++ s2 ∧ x = encode s1 ∧ y = encode s2.
Proof.
  intros Hs. revert x. induction Hs as [|c s Hc Hs IH]; intros x He Hy.
  - symmetry in He. apply app_eq_nil in He as [-> ->]. by exists [], [].
  - destruct x as [|x0 x]; [by exists [], (c :: s)|].
    rewrite encode_cons in He. destruct (encode_char_shape c Hc) as (b0 & l & Hec & _ & _ & Hl). rewrite Hec in He.
    injection He as <- He.
    assert (∃ x', x = l ++ x' ∧ encode s = x' ++ y) as (x' & -> & He').
    { clear -He Hl Hy. revert x He. induction Hl as [|b l Hb _ IH]; intros x He; [by exists x|].
      destruct x as [|x0 x].
      - destruct y as [|y0 y]; [done|]. simpl in He. injection He as <- _. specialize (Hy _ _ eq_refl). congruence.
      - injection He as <- He. destruct (IH x He) as (x' & -> & ?). by exists x'. }
    destruct (IH x' He' Hy) as (s1 & s2 & -> & -> & ->). exists (c :: s1), s2. by rewrite encode_cons, Hec.
Qed.
Lemma encode_head s b l : scalars s → encode s = b :: l → cont b = false.
Proof.
  intros Hs. destruct Hs as [|c s Hc Hs]; [done|]. rewrite encode_cons.
  destruct (encode_char_shape c Hc) as (b0 & l' & -> & _ & H0 & _). by intros [= <- _].
Qed.
(** Where one string's bytes start inside another's, with a character behind. *)
Lemma encode_prefix s t y : scalars s → scalars t → encode s = encode t ++ y → ∃ u, s = t ++ u ∧ y = encode u.
Proof.
  intros Hs Ht. revert s Hs. induction Ht as [|c t Hc Ht IH]; intros s Hs He; [by exists s|].
  rewrite encode_cons in He. destruct Hs as [|d s Hd Hs].
  { destruct (encode_char_shape c Hc) as (b0 & l & Hec & _). by rewrite Hec in He. }
  rewrite encode_cons in He. pose proof (decode_char_encode d (encode s) Hd) as H1.
  rewrite He, <-app_assoc, decode_char_encode in H1 by done. injection H1 as <- H1.
  destruct (IH s Hs (eq_sym H1)) as (u & -> & ->). by exists u.
Qed.
Lemma encode_infix s t x y :
  scalars s → scalars t → t ≠ [] → encode s = x ++ encode t ++ y → ∃ u v, s = u ++ t ++ v.
Proof.
  intros Hs Ht Hne He. destruct (encode_split s x (encode t ++ y) Hs He) as (u & s2 & -> & _ & H2).
  { intros b l Hb. destruct t as [|c t]; [done|]. destruct (encode (c :: t)) as [|b' l'] eqn:Het.
    - rewrite encode_cons in Het. pose proof (encode_char_length c). apply app_eq_nil in Het as [Het _]. rewrite Het in *. simpl in *. lia.
    - rewrite <-app_comm_cons in Hb. injection Hb as -> _. by eapply encode_head. }
  apply scalars_app in Hs as [_ Hs2]. destruct (encode_prefix s2 t y Hs2 Ht (eq_sym H2)) as (v & -> & _). by exists u, v.
Qed.
Lemma encode_suffix s t x : scalars s → scalars t → encode s = x ++ encode t → ∃ u, s = u ++ t.
Proof.
  intros Hs Ht He. destruct (encode_split s x (encode t) Hs He) as (u & s2 & -> & _ & H2).
  { intros b l Hb. by eapply encode_head. }
  apply scalars_app in Hs as [_ Hs2]. apply encode_inj in H2 as ->; [by exists u|done..].
Qed.
End Utf8.
