(* ===== verification/ScalarKey.v ===== *)
(** * Scalar index keys ([core/engine/src/store/scalar_key.rs])

    The version-1 key of one declared scalar field: a tag and an encoding whose
    byte order is the order of the values.  [serde_json]'s numbers are a
    parameter of the model, with the accessors the code calls. *)
From S2P Require Import Prelude F64 Keys Utf8.
From Stdlib Require Import Floats.SpecFloat.
Import Utf8.

Module ScalarKey.

(** The declared kinds ([core/engine/src/lib.rs]) and the two errors of
    [collections::Error] this file raises. *)
Inductive Kind := Text | Int | Real | Bool | Json | Geo | Point | Vector (n : Z).
Inductive Error := InvalidInput (why : string) | Corrupt (why : string).
#[global] Instance Error_eq_dec : EqDecision Error.
Proof. solve_decision. Defined.

(** [serde_json::Number]: what [as_i64] and [as_f64] (a 64-bit pattern) answer,
    and the numbers built from an [i64] and from a finite [f64]. *)
Class Numbers := {
  Number : Type;
  as_i64 : Number → option Z;
  as_f64 : Number → option Z;
  from_i64 : Z → Number;
  from_f64 : Z → Number;
}.
(** The documented behaviour: the accessors return values of their type, and a
    number gives back the value it was built from. *)
Class NumbersLaws `{Numbers} := {
  as_i64_range n z : as_i64 n = Some z → is_i64 z;
  as_f64_range n b : as_f64 n = Some b → is_u64 b;
  as_i64_from z : is_i64 z → as_i64 (from_i64 z) = Some z;
  as_f64_from b : is_u64 b → is_finite b = true → as_f64 (from_f64 b) = Some b;
}.

Definition SIGN : Z := sign_bit.
Definition TEXT_LIMIT : Z := 1024.
Definition tag (kind : Kind) : option Z :=
  match kind with Bool => Some 1 | Int => Some 2 | Real => Some 3 | Text => Some 4 | _ => None end.
Definition invalid (m : string) : Error := InvalidInput m.
Definition corrupt (m : string) : Error := Corrupt m.

Section keys.
Context `{Numbers}.

(** [serde_json::Value]; a string is its characters. *)
Inductive Value := Null | VBool (b : bool) | VNumber (n : Number) | VString (s : list Z)
  | VArray (l : list Value) | VObject (fields : list (list Z * Value)).
Definition as_bool (v : Value) : option bool := match v with VBool b => Some b | _ => None end.
Definition value_i64 (v : Value) : option Z := match v with VNumber n => as_i64 n | _ => None end.
Definition value_f64 (v : Value) : option Z := match v with VNumber n => as_f64 n | _ => None end.
Definition as_str (v : Value) : option bytes := match v with VString s => Some (encode s) | _ => None end.

(** [n as u64] of an [i64]. *)
Definition cast_u64 (n : Z) : Z := n mod 2 ^ 64.
Definition cast_i64 (u : Z) : Z := if u <? 2 ^ 63 then u else u - 2 ^ 64.

(** The buffer afterwards and the result: the buffer is cleared first, and an
    error found behind the tag leaves the tag in it. *)
Definition encode_into (kind : Kind) (value : option Value) (out : bytes) : bytes * result Error unit :=
  match tag kind with
  | None => (out, Err (invalid "scalar index requires Bool, Int, Real, or Text"))
  | Some t =>
      match value with
      | None | Some Null => ([0], Ok tt)
      | Some value =>
          let out := [t] in
          match kind with
          | Bool =>
              match as_bool value with
              | None => (out, Err (invalid "scalar Bool value required"))
              | Some b => (out ++ [if b then 1 else 0], Ok tt)
              end
          | Int =>
              match value_i64 value with
              | None => (out, Err (invalid "scalar i64 value required"))
              | Some n => (out ++ be_bytes 8 (Z.lxor (cast_u64 n) SIGN), Ok tt)
              end
          | Real =>
              match (n ← value_f64 value; if is_finite n then Some n else None) with
              | None => (out, Err (invalid "finite scalar Real value required"))
              | Some n =>
                  let bits := if n mod sign_bit =? 0 then 0 else n in
                  let ordered := if negb (Z.land bits SIGN =? 0) then not_u64 bits else Z.lxor bits SIGN in
                  (out ++ be_bytes 8 ordered, Ok tt)
              end
          | Text =>
              match as_str value with
              | None => (out, Err (invalid "scalar Text value required"))
              | Some s =>
                  if TEXT_LIMIT <? blen s
                  then (out, Err (invalid "scalar Text index value exceeds 1024 UTF-8 bytes"))
                  else (out ++ escape_nul s ++ [0; 0], Ok tt)
              end
          | _ => (out, Ok tt)
          end
      end
  end.
Definition encode_key (kind : Kind) (value : option Value) : result Error bytes :=
  let '(out, r) := encode_into kind value [] in rmap (λ _, out) r.

(** The text loops, from the byte behind the tag: [width]'s counts, [decode]'s
    collects.  Both return the position behind the terminator. *)
Fixpoint width_text (b : bytes) (at_ len : Z) : result Error Z :=
  match b with
  | [] => Err (corrupt "unterminated scalar Text key")
  | x :: b =>
      if x =? 0 then
        match b with
        | [] => Err (corrupt "invalid scalar Text escape")
        | y :: b =>
            if y =? 0 then Ok (at_ + 2) else
            if negb (y =? 255) then Err (corrupt "invalid scalar Text escape") else
            if len =? TEXT_LIMIT then Err (corrupt "scalar Text key exceeds 1024 UTF-8 bytes") else
            width_text b (at_ + 2) (len + 1)
        end
      else
        if len =? TEXT_LIMIT then Err (corrupt "scalar Text key exceeds 1024 UTF-8 bytes") else
        width_text b (at_ + 1) (len + 1)
  end.
Fixpoint decode_text (b : bytes) (at_ : Z) (out : bytes) : result Error (bytes * Z) :=
  match b with
  | [] => Err (corrupt "unterminated scalar Text key")
  | x :: b =>
      if x =? 0 then
        match b with
        | [] => Err (corrupt "invalid scalar Text escape")
        | y :: b =>
            if y =? 0 then Ok (out, at_ + 2) else
            if negb (y =? 255) then Err (corrupt "invalid scalar Text escape") else
            if blen out =? TEXT_LIMIT then Err (corrupt "scalar Text key exceeds 1024 UTF-8 bytes") else
            decode_text b (at_ + 2) (out ++ [x])
        end
      else
        if blen out =? TEXT_LIMIT then Err (corrupt "scalar Text key exceeds 1024 UTF-8 bytes") else
        decode_text b (at_ + 1) (out ++ [x])
  end.
(** The eight bytes of a number and the bits of a real behind them. *)
Definition numeric (b : bytes) : result Error Z :=
  if blen b <? 9 then Err (corrupt "truncated scalar numeric key") else Ok (be_num (slice b 1 8)).
Definition real_bits (ordered : Z) : Z :=
  if negb (Z.land ordered SIGN =? 0) then Z.lxor ordered SIGN else not_u64 ordered.
Definition canonical (bits : Z) : bool := is_finite bits && negb (bits =? SIGN).

Definition width (kind : Kind) (b : bytes) : result Error Z :=
  match tag kind with
  | None => Err (corrupt "unsupported scalar index kind")
  | Some expected =>
      match b with
      | [] => Err (corrupt "missing scalar key tag")
      | actual :: r =>
          if actual =? 0 then Ok 1 else
          if negb (actual =? expected) then Err (corrupt "scalar key tag does not match declared kind") else
          match kind with
          | Bool => match r with x :: _ => if (x =? 0) || (x =? 1) then Ok 2 else Err (corrupt "invalid scalar Bool key")
                            | [] => Err (corrupt "invalid scalar Bool key") end
          | Int => if blen b <? 9 then Err (corrupt "truncated scalar numeric key") else Ok 9
          | Real =>
              let* ordered := numeric b in
              if negb (canonical (real_bits ordered)) then Err (corrupt "noncanonical or nonfinite scalar Real key") else Ok 9
          | _ => width_text r 1 0
          end
      end
  end.
Definition decode_key (kind : Kind) (b : bytes) : result Error (Value * Z) :=
  match tag kind with
  | None => Err (corrupt "unsupported scalar index kind")
  | Some expected =>
      match b with
      | [] => Err (corrupt "missing scalar key tag")
      | actual :: r =>
          if actual =? 0 then Ok (Null, 1) else
          if negb (actual =? expected) then Err (corrupt "scalar key tag does not match declared kind") else
          match kind with
          | Bool => match r with
                    | x :: _ => if x =? 0 then Ok (VBool false, 2) else if x =? 1 then Ok (VBool true, 2)
                                else Err (corrupt "invalid scalar Bool key")
                    | [] => Err (corrupt "invalid scalar Bool key") end
          | Int => let* ordered := numeric b in Ok (VNumber (from_i64 (cast_i64 (Z.lxor ordered SIGN))), 9)
          | Real =>
              let* ordered := numeric b in
              let bits := real_bits ordered in
              if negb (canonical bits) then Err (corrupt "noncanonical or nonfinite scalar Real key")
              else Ok (VNumber (from_f64 bits), 9)
          | _ =>
              let* r := decode_text r 1 [] in
              let '(out, at_) := r in
              match decode out with
              | Some s => Ok (VString s, at_)
              | None => Err (corrupt "invalid UTF-8 scalar key")
              end
          end
      end
  end.

(** * What the keys promise

    The scalar a value stands for in a field of a declared kind, and the order
    of scalars: null first, then the order of the kind (IEEE comparison for
    reals, the order of UTF-8 bytes for text). *)
Inductive scalar := SNull | SBool (b : bool) | SInt (z : Z) | SReal (bits : Z) | SText (s : list Z).
Definition scalar_of (kind : Kind) (value : option Value) : option scalar :=
  match tag kind with
  | None => None
  | Some _ =>
      match value with
      | None | Some Null => Some SNull
      | Some v =>
          match kind with
          | Bool => SBool <$> as_bool v
          | Int => SInt <$> value_i64 v
          | Real => b ← value_f64 v; if is_finite b then Some (SReal (if b mod sign_bit =? 0 then 0 else b)) else None
          | Text => match v with VString s => if blen (encode s) <=? TEXT_LIMIT then Some (SText s) else None | _ => None end
          | _ => None
          end
      end
  end.
Definition scalar_compare (x y : scalar) : comparison :=
  match x, y with
  | SNull, SNull => Eq
  | SNull, _ => Lt
  | _, SNull => Gt
  | SBool a, SBool b => Bool.compare a b
  | SInt a, SInt b => a ?= b
  | SReal a, SReal b => default Eq (SFcompare (f64_of_bits a) (f64_of_bits b))
  | SText a, SText b => bytes_compare (encode a) (encode b)
  | _, _ => Eq
  end.
(** The bytes behind the tag. *)
Definition scalar_key (kind : Kind) (x : scalar) : bytes :=
  match x with
  | SNull => [0]
  | SBool b => [default 0 (tag kind); if b then 1 else 0]
  | SInt z => default 0 (tag kind) :: be_bytes 8 (Z.lxor (cast_u64 z) SIGN)
  | SReal b => default 0 (tag kind) :: be_bytes 8 (f64_ordered b)
  | SText s => default 0 (tag kind) :: escape_nul (encode s) ++ [0; 0]
  end.
Definition scalar_value (x : scalar) : Value :=
  match x with SNull => Null | SBool b => VBool b | SInt z => VNumber (from_i64 z) | SReal b => VNumber (from_f64 b) | SText s => VString s end.
(** A value's strings are strings. *)
Definition value_ok (v : option Value) : Prop := match v with Some (VString s) => scalars s | _ => True end.
Definition scalar_ok (kind : Kind) (x : scalar) : Prop :=
  is_Some (tag kind) ∧
  match x with
  | SNull => True
  | SBool _ => kind = Bool
  | SInt z => kind = Int ∧ is_i64 z
  | SReal b => kind = Real ∧ is_u64 b ∧ is_finite b = true ∧ b ≠ SIGN
  | SText s => kind = Text ∧ scalars s ∧ blen (encode s) ≤ TEXT_LIMIT
  end.
End keys.

Section proofs.
Context `{HL : NumbersLaws}.

Lemma cast_u64_range n : is_u64 (cast_u64 n).
Proof using. unfold cast_u64. pose proof (Z.mod_pos_bound n (2 ^ 64) ltac:(done)). change (2 ^ 64) with 18446744073709551616 in *. width. Qed.
Lemma sign_test b : is_u64 b → negb (Z.land b SIGN =? 0) = (sign_bit <=? b).
Proof using.
  intros Hb. unfold SIGN, sign_bit. change 9223372036854775808 with (2 ^ 63).
  assert (Z.testbit b 63 = (2 ^ 63 <=? b)) as Ht.
  { destruct (Z.leb_spec (2 ^ 63) b); [apply Z.testbit_true|apply Z.testbit_false]; try lia.
    - rewrite <-(Z.div_unique b (2 ^ 63) 1 (b - 2 ^ 63)); [done|left; change (2 ^ 63) with 9223372036854775808 in *; width|lia].
    - rewrite Z.div_small by lia. done. }
  rewrite <-Ht. destruct (Z.testbit b 63) eqn:E.
  - apply negb_true_iff, Z.eqb_neq. intros H0. apply (f_equal (λ x, Z.testbit x 63)) in H0.
    by rewrite Z.land_spec, Z.bits_0, Z.pow2_bits_true, andb_true_r, E in H0 by lia.
  - apply negb_false_iff, Z.eqb_eq. apply Z.bits_inj'. intros n Hn. rewrite Z.land_spec, Z.bits_0.
    destruct (Z.eq_dec n 63) as [->|]; [by rewrite E|by rewrite Z.pow2_bits_false, andb_false_r by lia].
Qed.
Lemma flip_cast n : is_i64 n → Z.lxor (cast_u64 n) SIGN = n + sign_bit.
Proof using.
  intros Hn. change (Z.lxor (cast_u64 n) SIGN) with (flip_sign (cast_u64 n)). rewrite flip_sign_spec by apply cast_u64_range.
  unfold cast_u64, sign_bit in *. destruct (Z.leb_spec 0 n).
  - rewrite Z.mod_small by width. rewrite (proj2 (Z.leb_gt _ _)) by width. done.
  - rewrite <-(Z.mod_unique n (2 ^ 64) (-1) (n + 2 ^ 64)) by (first [left; width|lia]).
    rewrite (proj2 (Z.leb_le _ _)) by width. width.
Qed.
Lemma cast_back u : is_u64 u → cast_i64 (Z.lxor u SIGN) = u - sign_bit.
Proof using.
  intros Hu. change (Z.lxor u SIGN) with (flip_sign u). rewrite flip_sign_spec by done. unfold cast_i64, sign_bit.
  destruct (Z.leb_spec 9223372036854775808 u); case_match; width.
Qed.
Lemma ordered_spec b : is_u64 b → (if negb (Z.land b SIGN =? 0) then not_u64 b else Z.lxor b SIGN) = f64_ordered b.
Proof using. intros Hb. by rewrite sign_test. Qed.
Lemma real_bits_spec u : is_u64 u → is_u64 (real_bits u) ∧ f64_ordered (real_bits u) = u.
Proof using.
  intros Hu. unfold real_bits. rewrite sign_test by done. change (Z.lxor u SIGN) with (flip_sign u).
  unfold f64_ordered. rewrite flip_sign_spec by done. unfold not_u64, sign_bit.
  destruct (Z.leb_spec 9223372036854775808 u).
  - split; [width|]. rewrite (proj2 (Z.leb_gt _ _)) by width. rewrite flip_sign_spec by width. unfold sign_bit.
    rewrite (proj2 (Z.leb_gt _ _)) by width. lia.
  - split; [width|]. rewrite (proj2 (Z.leb_le _ _)) by width. lia.
Qed.
Lemma real_bits_ordered b : is_u64 b → real_bits (f64_ordered b) = b.
Proof using.
  intros Hb. unfold real_bits. rewrite sign_test by (by apply f64_ordered_u64).
  change (Z.lxor (f64_ordered b) SIGN) with (flip_sign (f64_ordered b)).
  rewrite flip_sign_spec by (by apply f64_ordered_u64). unfold f64_ordered. rewrite flip_sign_spec by done. unfold not_u64, sign_bit.
  destruct (Z.leb_spec 9223372036854775808 b).
  - rewrite (proj2 (Z.leb_gt _ _)) by width. width.
  - rewrite (proj2 (Z.leb_le _ _)) by width. lia.
Qed.
(** Finite patterns, negative zero apart, compare as their codes. *)
Lemma finite_compare a b :
  is_u64 a → is_u64 b → is_finite a = true → is_finite b = true → a ≠ SIGN → b ≠ SIGN →
  default Eq (SFcompare (f64_of_bits a) (f64_of_bits b)) = (f64_ordered a ?= f64_ordered b).
Proof using.
  intros Ha Hb Hfa Hfb Hna Hnb. rewrite f64_ordered_compare; try done.
  - apply Z.ltb_ge. apply Z.ltb_lt in Hfa. lia.
  - apply Z.ltb_ge. apply Z.ltb_lt in Hfb. lia.
  - assert (∀ x, is_u64 x → x ≠ SIGN → x mod sign_bit = 0 → x = 0) as Hz.
    { intros x Hx Hne H0. unfold SIGN, sign_bit in *. apply Z.mod_divide in H0 as [q ->]; [|done]. width. }
    intros (H1 & H2 & Hne). apply Hne. by rewrite (Hz a), (Hz b).
Qed.

(** ** Text *)
Lemma decode_text_escape s at_ out rest :
  blen out + blen s ≤ TEXT_LIMIT →
  decode_text (escape_nul s ++ [0; 0] ++ rest) at_ out = Ok (out ++ s, at_ + blen (escape_nul s) + 2) ∧
  width_text (escape_nul s ++ [0; 0] ++ rest) at_ (blen out) = Ok (at_ + blen (escape_nul s) + 2).
Proof using.
  revert at_ out. induction s as [|x s IH]; intros at_ out Hl.
  { cbn. rewrite app_nil_r. split; repeat f_equal; rewrite ?blen_nil; lia. }
  rewrite blen_cons in Hl. pose proof (blen_nonneg s). cbn [escape_nul].
  assert (blen (out ++ [x]) = blen out + 1) as Hb by (rewrite blen_app, blen_cons, blen_nil; lia).
  destruct (Z.eqb_spec x 0) as [->|Hx].
  - destruct (IH (at_ + 2) (out ++ [0])) as [IH1 IH2]; [lia|]. rewrite Hb in IH2.
    change ((0 :: u8_max :: escape_nul s) ++ [0; 0] ++ rest) with (0 :: 255 :: (escape_nul s ++ [0; 0] ++ rest)).
    cbn [decode_text width_text Z.eqb Pos.eqb negb].
    rewrite (proj2 (Z.eqb_neq _ TEXT_LIMIT)) by lia. rewrite IH1, IH2, <-app_assoc, !blen_cons.
    split; [do 2 f_equal; lia|f_equal; lia].
  - destruct (IH (at_ + 1) (out ++ [x])) as [IH1 IH2]; [lia|]. rewrite Hb in IH2.
    change ((x :: escape_nul s) ++ [0; 0] ++ rest) with (x :: (escape_nul s ++ [0; 0] ++ rest)).
    cbn [decode_text width_text]. rewrite (proj2 (Z.eqb_neq x 0)) by done.
    rewrite (proj2 (Z.eqb_neq _ TEXT_LIMIT)) by lia. rewrite IH1, IH2, <-app_assoc, !blen_cons.
    split; [do 2 f_equal; lia|f_equal; lia].
Qed.
Lemma decode_text_inv n b at_ out o e :
  (length b ≤ n)%nat → blen out ≤ TEXT_LIMIT → decode_text b at_ out = Ok (o, e) →
  ∃ s rest, o = out ++ s ∧ b = escape_nul s ++ [0; 0] ++ rest ∧ e = at_ + blen (escape_nul s) + 2 ∧ blen o ≤ TEXT_LIMIT.
Proof using.
  revert b at_ out. induction n as [|n IH]; intros b at_ out Hn Hout; [by destruct b; [|simpl in Hn; lia]|].
  assert (∀ x, blen (out ++ [x]) = blen out + 1) as Hb by (intros; rewrite blen_app, blen_cons, blen_nil; lia).
  destruct b as [|x b]; [done|]. cbn [decode_text]. simpl in Hn. destruct (Z.eqb_spec x 0) as [->|Hx].
  - destruct b as [|y b]; [done|]. simpl in Hn. destruct (Z.eqb_spec y 0) as [->|].
    + intros [= <- <-]. exists [], b. rewrite app_nil_r. split_and!; try done. change (escape_nul []) with (@nil Z). rewrite blen_nil. lia.
    + destruct (Z.eqb_spec y 255) as [->|]; [|done]. simpl. destruct (Z.eqb_spec (blen out) TEXT_LIMIT); [done|]. intros Hd.
      apply IH in Hd as (s & rest & -> & -> & -> & Hl); [|lia|rewrite Hb; lia].
      exists (0 :: s), rest. rewrite <-app_assoc in *. split_and!; try done.
      change (escape_nul (0 :: s)) with (0 :: 255 :: escape_nul s). rewrite !blen_cons. lia.
  - destruct (Z.eqb_spec (blen out) TEXT_LIMIT); [done|]. intros Hd.
    apply IH in Hd as (s & rest & -> & -> & -> & Hl); [|lia|rewrite Hb; lia].
    exists (x :: s), rest. rewrite <-app_assoc in *. cbn [escape_nul]. rewrite (proj2 (Z.eqb_neq x 0)) by done.
    split_and!; try done. rewrite !blen_cons. lia.
Qed.
Lemma width_text_decode n b at_ out :
  (length b ≤ n)%nat → width_text b at_ (blen out) = rmap snd (decode_text b at_ out).
Proof using.
  revert b at_ out. induction n as [|n IH]; intros b at_ out Hn; [by destruct b; [|simpl in Hn; lia]|].
  assert (∀ x, blen (out ++ [x]) = blen out + 1) as Hb by (intros; rewrite blen_app, blen_cons, blen_nil; lia).
  destruct b as [|x b]; [done|]. cbn [decode_text width_text]. simpl in Hn. rewrite <-!(Hb x).
  destruct (x =? 0); [destruct b as [|y b]; [done|]; simpl in Hn; destruct (y =? 0); [done|]; destruct (negb (y =? 255)); [done|]|].
  all: destruct (blen out =? TEXT_LIMIT); [done|]; apply IH; lia.
Qed.

(** ** Keys of scalars *)
Lemma scalar_of_ok kind value x : value_ok value → scalar_of kind value = Some x → scalar_ok kind x.
Proof using HL.
  intros Hv. unfold scalar_of, scalar_ok. destruct (tag kind) as [t|] eqn:Ht; [|done].
  destruct value as [v|]; [|intros [= <-]; done].
  destruct v as [|b|n|s|l|f]; try (intros [= <-]; done).
  all: destruct kind; try done; unfold as_bool, value_i64, value_f64; simpl; try done.
  - intros [= <-]. by split.
  - destruct (as_i64 n) as [z|] eqn:Hz; [|done]. intros [= <-]. split_and!; try done; eapply as_i64_range, Hz.
  - destruct (as_f64 n) as [b|] eqn:Hb; [|done]. simpl. destruct (is_finite b) eqn:Hf; [|done]. intros [= <-].
    apply as_f64_range in Hb. destruct (Z.eqb_spec (b mod sign_bit) 0) as [H0|H0]; [done|].
    split_and!; try done; try apply Hb. unfold SIGN. intros ->. by apply H0.
  - destruct (Z.leb_spec (blen (encode s)) TEXT_LIMIT); [|done]. intros [= <-]. by split_and!.
Qed.
Lemma encode_key_spec kind value :
  value_ok value →
  match scalar_of kind value with
  | Some x => encode_key kind value = Ok (scalar_key kind x)
  | None => ∃ why, encode_key kind value = Err (InvalidInput why)
  end.
Proof using HL.
  intros Hv. pose proof (scalar_of_ok kind value) as Hok. unfold scalar_of in *. unfold encode_key, encode_into.
  destruct (tag kind) as [t|] eqn:Ht; [|by eexists].
  destruct value as [v|]; [|done].
  destruct v as [|b|n|s|l|f]; [done|..].
  all: destruct kind; try done; unfold as_bool, value_i64, value_f64, as_str, scalar_key in *; simpl in *; rewrite ?Ht; try by eexists.
  - by injection Ht as <-.
  - injection Ht as <-. by destruct (as_i64 n); [|eexists].
  - injection Ht as <-. destruct (as_f64 n) as [b|]; [|by eexists]. simpl in *. destruct (is_finite b); [|by eexists].
    destruct (Hok _ Hv eq_refl) as (_ & _ & Hu & _). simpl. rewrite ordered_spec by done. reflexivity.
  - injection Ht as <-. rewrite (Z.leb_antisym TEXT_LIMIT). by destruct (TEXT_LIMIT <? blen (encode s)); [eexists|].
Qed.

Lemma numeric_key t u rest : is_u64 u → numeric ((t :: be_bytes 8 u) ++ rest) = Ok u.
Proof using.
  intros Hu. unfold numeric. pose proof (blen_nonneg rest).
  assert (blen ((t :: be_bytes 8 u) ++ rest) = 9 + blen rest) as E by (rewrite blen_app, blen_cons, blen_be_bytes; lia).
  rewrite (proj2 (Z.ltb_ge _ _)) by lia. f_equal.
  change ((t :: be_bytes 8 u) ++ rest) with ([t] ++ (be_bytes 8 u ++ rest)). rewrite (slice_app_r [t] _ 1 8) by done.
  change (1 - blen [t]) with 0.
  rewrite slice_app_exact by (by rewrite blen_be_bytes). apply be_num_be_bytes_small. width.
Qed.
Lemma decode_scalar_key kind x rest :
  scalar_ok kind x →
  decode_key kind (scalar_key kind x ++ rest) = Ok (scalar_value x, blen (scalar_key kind x)) ∧
  width kind (scalar_key kind x ++ rest) = Ok (blen (scalar_key kind x)).
Proof using.
  intros ([t Ht] & Hx). unfold decode_key, width, scalar_key. rewrite Ht.
  assert (blen (be_bytes 8 0) = 8) as E8 by done.
  destruct x as [|b|z|b|s].
  - done.
  - subst kind. injection Ht as <-. by destruct b.
  - destruct Hx as [-> Hz]. injection Ht as <-. cbn [default id]. cbn [app Z.eqb Pos.eqb negb].
    rewrite flip_cast by done. change (2 :: be_bytes 8 (z + sign_bit) ++ rest) with ((2 :: be_bytes 8 (z + sign_bit)) ++ rest).
    assert (is_u64 (z + sign_bit)) as Hu by (unfold sign_bit; width). rewrite numeric_key by done. cbn [rbind scalar_value].
    rewrite (cast_back _ Hu), blen_cons, blen_be_bytes. replace (z + sign_bit - sign_bit) with z by lia. split; [done|].
    pose proof (blen_nonneg rest). rewrite (proj2 (Z.ltb_ge _ _)); [done|].
    change (2 :: be_bytes 8 (z + sign_bit) ++ rest) with ((2 :: be_bytes 8 (z + sign_bit)) ++ rest). rewrite blen_app, blen_cons, blen_be_bytes. lia.
  - destruct Hx as (-> & Hb & Hf & Hne). injection Ht as <-. cbn [default id]. cbn [app Z.eqb Pos.eqb negb].
    change (3 :: be_bytes 8 (f64_ordered b) ++ rest) with ((3 :: be_bytes 8 (f64_ordered b)) ++ rest).
    rewrite numeric_key by (by apply f64_ordered_u64). cbn [rbind]. rewrite real_bits_ordered by done.
    unfold canonical. rewrite Hf, (proj2 (Z.eqb_neq b SIGN)) by done. cbn [negb andb scalar_value]. rewrite blen_cons, blen_be_bytes. done.
  - destruct Hx as (-> & Hs & Hl). injection Ht as <-. cbn [default id]. cbn [app Z.eqb Pos.eqb negb].
    rewrite <-app_assoc. destruct (decode_text_escape (encode s) 1 [] rest) as [H1 H2]; [rewrite blen_nil; lia|].
    rewrite H1. change (blen []) with 0 in H2. rewrite H2. cbn [rbind]. change ([] ++ encode s) with (encode s). rewrite utf8_decode_encode by done.
    rewrite blen_cons, blen_app, !blen_cons, blen_nil. split; [do 2 f_equal; lia|f_equal; lia].
Qed.
Lemma scalar_key_compare kind x y s t :
  scalar_ok kind x → scalar_ok kind y →
  bytes_compare (scalar_key kind x ++ s) (scalar_key kind y ++ t) =
    match scalar_compare x y with Eq => bytes_compare s t | c => c end.
Proof using.
  intros ([k Hk] & Hx) (_ & Hy). unfold scalar_key. rewrite Hk.
  assert (0 < k) as Hpos by (destruct kind; try done; by injection Hk as <-).
  destruct x as [|a|a|a|a], y as [|b|b|b|b]; cbn [default id app bytes_compare scalar_compare]; rewrite ?Z.compare_refl;
    try (by rewrite (proj2 (Z.compare_lt_iff 0 k)) by lia); try (by rewrite (proj2 (Z.compare_gt_iff k 0)) by lia); try done;
    try (exfalso; repeat match goal with H : _ ∧ _ |- _ => destruct H end; congruence).
  - by destruct a, b.
  - destruct Hx as [_ Hx], Hy as [_ Hy]. rewrite !flip_cast by done.
    rewrite be_bytes_compare by (unfold sign_bit; width). rewrite <-!(Z.add_comm sign_bit), Z.add_compare_mono_l. done.
  - destruct Hx as (_ & Hx & Hfx & Hnx), Hy as (_ & Hy & Hfy & Hny). rewrite finite_compare by done.
    apply be_bytes_compare; [pose proof (f64_ordered_u64 a Hx)|pose proof (f64_ordered_u64 b Hy)]; width.
  - destruct Hx as (_ & Hx & _), Hy as (_ & Hy & _). rewrite <-!app_assoc.
    apply escape_nul_compare; by apply utf8_encode_ok.
Qed.

Lemma scalar_of_value kind x : scalar_ok kind x → scalar_of kind (Some (scalar_value x)) = Some x ∧ value_ok (Some (scalar_value x)).
Proof using HL.
  intros ([t Ht] & Hx). unfold scalar_of. rewrite Ht. destruct x as [|b|z|b|s]; cbn [scalar_value value_ok].
  - done.
  - by subst kind.
  - destruct Hx as [-> Hz]. cbn [value_i64]. by rewrite as_i64_from.
  - destruct Hx as (-> & Hb & Hf & Hne). cbn [value_f64]. rewrite as_f64_from by done. cbn. rewrite Hf. split; [|done].
    destruct (Z.eqb_spec (b mod sign_bit) 0) as [H0|]; [|done]. do 2 f_equal.
    apply Z.mod_divide in H0 as [q ->]; [|done]. unfold SIGN, sign_bit in *. width.
  - destruct Hx as (-> & Hs & Hl). by rewrite (proj2 (Z.leb_le _ _)).
Qed.
Lemma numeric_inv t r u : bytes_ok r → numeric (t :: r) = Ok u → is_u64 u ∧ ∃ rest, r = be_bytes 8 u ++ rest.
Proof using.
  intros Hr. unfold numeric. destruct (Z.ltb_spec (blen (t :: r)) 9) as [|Hl]; [done|]. intros [= <-].
  rewrite blen_cons in Hl. change (t :: r) with ([t] ++ r). rewrite slice_app_r by done. change (1 - blen [t]) with 0.
  assert (length (take 8 r) = 8%nat) as H8 by (rewrite length_take; unfold blen in Hl; lia).
  rewrite <-(take_slice r 8) by lia. change (Z.to_nat 8) with 8%nat.
  assert (bytes_ok (take 8 r)) as Hok by (by apply Forall_take). split.
  - pose proof (be_num_bound (take 8 r) Hok) as Hb. unfold blen in Hb. rewrite H8 in Hb. change (Z.of_nat 8) with (Z.of_nat 8%nat) in Hb. width.
  - exists (drop 8 r). rewrite <-(take_drop 8 r) at 1. f_equal. pose proof (be_bytes_be_num _ Hok) as He. by rewrite H8 in He.
Qed.
Lemma decode_key_inv kind b v n :
  bytes_ok b → decode_key kind b = Ok (v, n) →
  ∃ x rest, scalar_ok kind x ∧ v = scalar_value x ∧ b = scalar_key kind x ++ rest ∧ n = blen (scalar_key kind x).
Proof using.
  intros Hb. unfold decode_key. destruct (tag kind) as [t|] eqn:Ht; [|done]. destruct b as [|a r]; [done|].
  apply bytes_ok_cons in Hb as [_ Hr].
  destruct (Z.eqb_spec a 0) as [->|_]; [intros [= <- <-]; exists SNull, r; split; [by split; [eexists|]|done]|].
  destruct (Z.eqb_spec a t) as [->|_]; [|done]. cbn [negb].
  destruct kind; try done.
  - destruct (decode_text r 1 []) as [[out at_]|] eqn:Hd; [|done]. cbn [rbind].
    destruct (decode out) as [s|] eqn:Hs; [|done]. intros [= <- <-].
    apply (decode_text_inv (length r)) in Hd as (o & rest & -> & -> & -> & Hl); [|done|done].
    rewrite app_nil_l in Hs, Hl. assert (bytes_ok o) as Ho.
    { apply bytes_ok_app in Hr as [Hr _]. clear -Hr. induction o as [|x o IH]; [constructor|]. cbn [escape_nul] in Hr.
      destruct (Z.eqb_spec x 0) as [->|]; rewrite !bytes_ok_cons in Hr; constructor; tauto. }
    apply decode_inv in Hs as [Hs ->]; [|done]. exists (SText s), rest. unfold scalar_key. rewrite Ht. cbn [default id].
    split_and!; [by split; [eexists|]|done|cbn [app]; by rewrite <-app_assoc|].
    rewrite blen_cons, blen_app, !blen_cons. change (blen []) with 0. lia.
  - destruct (numeric (t :: r)) as [u|] eqn:Hn; [|done]. cbn [rbind]. intros [= <- <-].
    apply numeric_inv in Hn as (Hu & rest & ->); [|done]. exists (SInt (cast_i64 (Z.lxor u SIGN))), rest.
    assert (is_i64 (u - sign_bit)) as Hi by (unfold sign_bit; width).
    unfold scalar_key. rewrite Ht, cast_back, flip_cast by done. cbn [default id].
    replace (u - sign_bit + sign_bit) with u by lia. rewrite blen_cons, blen_be_bytes.
    split_and!; [by split; [eexists|]|done..].
  - destruct (numeric (t :: r)) as [u|] eqn:Hn; [|done]. cbn [rbind].
    apply numeric_inv in Hn as (Hu & rest & ->); [|done]. destruct (canonical (real_bits u)) eqn:Hc; [|done]. intros [= <- <-].
    apply andb_true_iff in Hc as [Hf Hne%negb_true_iff%Z.eqb_neq]. destruct (real_bits_spec u Hu) as [Hru Hro].
    exists (SReal (real_bits u)), rest. unfold scalar_key. rewrite Ht, Hro. cbn [default id].
    rewrite blen_cons, blen_be_bytes. split_and!; [by split; [eexists|]|done..].
  - destruct r as [|x r]; [done|]. injection Ht as <-.
    destruct (Z.eqb_spec x 0) as [->|_]; [intros [= <- <-]; by exists (SBool false), r|].
    destruct (Z.eqb_spec x 1) as [->|_]; [intros [= <- <-]; by exists (SBool true), r|done].
Qed.

(** * Properties *)

(** C28: byte order of scalar keys is value order.  Of any two values
    that encode under one declared kind, whatever follows the keys (the entity
    id of a posting), the bytes compare as the values do: null first, then the
    order of the kind, negative zero counting as zero; equal values leave the
    comparison to what follows, so no key is a proper prefix of another. *)
Theorem scalar_key_order kind v1 v2 k1 k2 s t :
  value_ok v1 → value_ok v2 → encode_key kind v1 = Ok k1 → encode_key kind v2 = Ok k2 →
  ∃ x1 x2, scalar_of kind v1 = Some x1 ∧ scalar_of kind v2 = Some x2 ∧
    bytes_compare (k1 ++ s) (k2 ++ t) = match scalar_compare x1 x2 with Eq => bytes_compare s t | c => c end.
Proof using HL.
  intros H1 H2 E1 E2. pose proof (encode_key_spec kind v1 H1) as S1. pose proof (encode_key_spec kind v2 H2) as S2.
  destruct (scalar_of kind v1) as [x1|] eqn:X1; [|destruct S1; congruence].
  destruct (scalar_of kind v2) as [x2|] eqn:X2; [|destruct S2; congruence].
  exists x1, x2. rewrite S1 in E1. rewrite S2 in E2. injection E1 as <-. injection E2 as <-.
  do 2 (split; [done|]). apply scalar_key_compare; [by apply (scalar_of_ok kind v1)|by apply (scalar_of_ok kind v2)].
Qed.

Lemma encoded_decodes kind value rest : value_ok value →
  match scalar_of kind value with
  | None => ∃ why, encode_key kind value = Err (InvalidInput why)
  | Some _ => ∃ key v, encode_key kind value = Ok key ∧ decode_key kind (key ++ rest) = Ok (v, blen key) ∧
      width kind (key ++ rest) = Ok (blen key) ∧ scalar_of kind (Some v) = scalar_of kind value
  end.
Proof using HL.
  intros Hv. pose proof (encode_key_spec kind value Hv) as Hs. pose proof (scalar_of_ok kind value) as Ho.
  destruct (scalar_of kind value) as [x|]; [|exact Hs]. specialize (Ho x Hv eq_refl).
  destruct (decode_scalar_key kind x rest Ho) as [Hd Hw]. exists (scalar_key kind x), (scalar_value x).
  by rewrite (proj1 (scalar_of_value kind x Ho)).
Qed.
Lemma decoded_encodes kind b v n : bytes_ok b → decode_key kind b = Ok (v, n) →
  value_ok (Some v) ∧ encode_key kind (Some v) = Ok (slice b 0 n).
Proof using HL.
  intros Hb Hd. apply decode_key_inv in Hd as (x & rest & Hx & -> & -> & ->); [|done].
  destruct (scalar_of_value kind x Hx) as [Hs Hv]. split; [exact Hv|].
  pose proof (encode_key_spec kind _ Hv) as He. rewrite Hs in He. by rewrite slice_app_exact.
Qed.
Lemma width_is_decode kind b :
  match decode_key kind b with
  | Ok (_, n) => width kind b = Ok n
  | Err e => width kind b = Err e ∨ (e = corrupt "invalid UTF-8 scalar key" ∧ kind = Text ∧ is_ok (width kind b) = true)
  end.
Proof using.
  unfold decode_key, width. destruct (tag kind) as [t|] eqn:Ht; [|by left]. destruct b as [|a r]; [by left|].
  destruct (a =? 0); [done|]. destruct (negb (a =? t)); [by left|].
  destruct kind; try discriminate Ht.
  2: { unfold numeric. destruct (blen (a :: r) <? 9); [by left|done]. }
  2: { destruct (numeric (a :: r)) as [u|]; [|by left]. cbn [rbind]. destruct (negb _); [by left|done]. }
  2: { destruct r as [|x r]; [by left|]. destruct (x =? 0); [done|]. destruct (x =? 1); [done|by left]. }
  pose proof (width_text_decode (length r) r 1 [] ltac:(done)) as Hw; change (blen []) with 0 in Hw; rewrite Hw.
  destruct (decode_text r 1 []) as [[out at_]|]; [|by left]. cbn [rbind]. destruct (decode out); [done|by right].
Qed.

End proofs.

(** * A model of the numbers *)
Section sample.
(** [serde_json]'s own representation; [as_f64] of an integer rounds it. *)
Inductive sample_number := PInt (z : Z) | PFloat (bits : Z).
Definition sf_bits (f : spec_float) : Z :=
  match f with
  | S754_finite s m e => (if s then sign_bit else 0) + (e + 1074) * frac_size + Zpos m
  | S754_infinity s => (if s then sign_bit else 0) + inf_mag
  | S754_zero s => if s then sign_bit else 0
  | S754_nan => inf_mag + 1
  end.
Definition sample_bits (z : Z) : Z := Z.modulo (sf_bits (binary_normalize 53 1024 z 0 false)) 18446744073709551616.
#[local] Instance sample_numbers : Numbers := {|
  Number := sample_number;
  as_i64 n := match n with PInt z => if bool_decide (is_i64 z) then Some z else None | PFloat _ => None end;
  as_f64 n := match n with PInt z => Some (sample_bits z) | PFloat b => if bool_decide (is_u64 b) then Some b else None end;
  from_i64 := PInt;
  from_f64 := PFloat;
|}.
#[local] Instance sample_numbers_laws : NumbersLaws.
Proof.
  split.
  - intros [z|b] x; cbn; [|done]. case_bool_decide; [|done]. by intros [= <-].
  - intros [z|b] x; cbn.
    + intros [= <-]. unfold sample_bits. pose proof (Z.mod_pos_bound (sf_bits (binary_normalize 53 1024 z 0 false)) 18446744073709551616 ltac:(done)). width.
    + case_bool_decide; [|done]. by intros [= <-].
  - intros z Hz. cbn. by rewrite bool_decide_true.
  - intros b Hb _. cbn. by rewrite bool_decide_true.
Qed.

(** 42 as an integer is the real 42.0; -0.0 is 0.0. *)
Example sample_real_42 : encode_key Real (Some (VNumber (PInt 42))) = encode_key Real (Some (VNumber (PFloat 4631107791820423168))).
Proof. vm_compute. reflexivity. Qed.
Example sample_zero : encode_key Real (Some (VNumber (PFloat sign_bit))) = encode_key Real (Some (VNumber (PFloat 0))).
Proof. vm_compute. reflexivity. Qed.
Example sample_text : encode_key Text (Some (VString [97; 0])) = Ok [4; 97; 0; 255; 0; 0].
Proof. vm_compute. reflexivity. Qed.
(** [width] measures a text key that [decode] refuses. *)
Example width_skips_utf8 :
  decode_key Text [4; 255; 0; 0] = Err (corrupt "invalid UTF-8 scalar key") ∧ width Text [4; 255; 0; 0] = Ok 4.
Proof. split; reflexivity. Qed.

Lemma scalar_key_order_witness :
  ∃ x1 x2, scalar_of Int (Some (VNumber (PInt (-1)))) = Some x1 ∧ scalar_of Int (Some (VNumber (PInt 7))) = Some x2 ∧
    bytes_compare ([2; 127; 255; 255; 255; 255; 255; 255; 255] ++ [9]) ([2; 128; 0; 0; 0; 0; 0; 0; 7] ++ [1]) =
      match scalar_compare x1 x2 with Eq => bytes_compare [9] [1] | c => c end.
Proof.
  apply (scalar_key_order (H:=sample_numbers) Int (Some (VNumber (H:=sample_numbers) (PInt (-1)))) (Some (VNumber (H:=sample_numbers) (PInt 7)))); [exact I|exact I|vm_compute; reflexivity|vm_compute; reflexivity].
Defined.
End sample.
End ScalarKey.
