(* ===== verification/Like.v ===== *)
(** * [LIKE] patterns ([core/engine/src/query/like.rs])

    A pattern is compiled to tokens and, in the common shapes, to one substring
    test on the UTF-8 bytes; the rest is the wildcard walk that backtracks to
    the last [%].  The reference semantics is a relation on the pattern as it
    was written.  Unicode lowercasing and the substring searcher of [memchr]
    are parameters. *)
From S2P Require Import Prelude Utf8.
Import Utf8.

Module Like.

(** [char::to_lowercase] and [str::to_lowercase]. *)
Class Lowercase := { char_lower : Z → list Z; str_lower : list Z → list Z }.
Definition is_ascii (s : list Z) : bool := forallb (λ c, c <? 128) s.
Definition SIGMA : Z := 931.
(** Their documented behaviour: characters map to characters, ASCII as
    [to_ascii_lowercase], and a string maps character by character unless it has
    the one letter whose lowercase depends on its place. *)
Class LowercaseLaws `{Lowercase} := {
  char_lower_scalars c : is_scalar c = true → scalars (char_lower c);
  char_lower_ascii c : 0 ≤ c < 128 → char_lower c = [ascii_lower c];
  str_lower_scalars s : scalars s → scalars (str_lower s);
  str_lower_chars s : SIGMA ∉ s → str_lower s = concat (map char_lower s);
}.
(** [memchr::memmem]: the position of a needle's first occurrence, if any. *)
Class Memmem := { find : bytes → bytes → option Z }.
Class MemmemLaws `{Memmem} := { find_spec needle hay : is_Some (find needle hay) ↔ ∃ x y, hay = x ++ needle ++ y }.

Inductive Token := Char (c : Z) | One | Many.
#[global] Instance Token_eq_dec : EqDecision Token.
Proof. solve_decision. Defined.
Inductive Shape := Any | Exact (s : list Z) | Prefix (s : list Z) | Suffix (s : list Z) | Contains (s : list Z) | General (ts : list Token).
Record LikeMatcher := mkLike { shape : Shape; insensitive : bool; finder : option bytes }.
Inductive LikePatternError := PatternError (why : string).

Definition is_many (t : Token) : bool := bool_decide (t = Many).
Fixpoint literal (ts : list Token) : option (list Z) :=
  match ts with
  | [] => Some []
  | Char c :: ts => cs ← literal ts; Some (c :: cs)
  | _ :: _ => None
  end.
Definition is_last_many (ts : list Token) : bool := bool_decide (last ts = Some Many).
Definition shape_of (ts : list Token) : Shape :=
  if forallb is_many ts then (match ts with [] => Exact [] | _ => Any end) else
  let starts := bool_decide (head ts = Some Many) in
  let ends := is_last_many ts in
  let inner := slice ts (if starts then 1 else 0) (blen ts - (if ends then 1 else 0) - (if starts then 1 else 0)) in
  match starts, ends, literal inner with
  | false, false, Some s => Exact s
  | false, true, Some s => Prefix s
  | true, false, Some s => Suffix s
  | true, true, Some s => Contains s
  | _, _, None => General ts
  end.

(** [str::ends_with], on bytes. *)
Definition ends_with (b suf : bytes) : bool :=
  (blen suf <=? blen b) && bool_decide (slice b (blen b - blen suf) (blen suf) = suf).

(** The walk: text position [t], token position [p], and the last [%] with the
    text position it has absorbed up to; [None] is out of fuel. *)
Fixpoint walk (fuel : nat) (ts : list Token) (text : list Z) (t p : nat) (star : option (nat * nat)) : option bool :=
  match fuel with
  | O => None
  | S fuel =>
      match text !! t with
      | None => Some (forallb is_many (drop p ts))
      | Some x =>
          let mismatch :=
            match star with
            | Some (sp, st) => walk fuel ts text (S st) (S sp) (Some (sp, S st))
            | None => Some false
            end in
          match ts !! p with
          | Some Many => walk fuel ts text t (S p) (Some (p, t))
          | Some One => walk fuel ts text (S t) (S p) star
          | Some (Char c) => if c =? x then walk fuel ts text (S t) (S p) star else mismatch
          | None => mismatch
          end
      end
  end.
(** Enough for every text and pattern: each [%] position is tried once per text position. *)
Definition walk_fuel (ts : list Token) (text : list Z) : nat := S ((length text + 2) * (length ts + 1)).
Definition wildcard (ts : list Token) (text : list Z) : bool := default false (walk (walk_fuel ts text) ts text 0 0 None).

Section like.
Context `{Lowercase} `{Memmem}.

Definition push_char (ts : list Token) (c : Z) (insensitive : bool) : list Token :=
  if insensitive then ts ++ map Char (char_lower c) else ts ++ [Char c].
Fixpoint compile_tokens (chars : list Z) (escape : option Z) (insensitive : bool) (ts : list Token) : result LikePatternError (list Token) :=
  match chars with
  | [] => Ok ts
  | c :: chars =>
      if bool_decide (Some c = escape) then
        match chars with
        | [] => Err (PatternError "LIKE pattern must not end with escape character")
        | next :: chars => compile_tokens chars escape insensitive (push_char ts next insensitive)
        end
      else if c =? 37 then compile_tokens chars escape insensitive (if negb (is_last_many ts) then ts ++ [Many] else ts)
      else if c =? 95 then compile_tokens chars escape insensitive (ts ++ [One])
      else compile_tokens chars escape insensitive (push_char ts c insensitive)
  end.
Definition compile (pattern : list Z) (escape : option Z) (insensitive : bool) : result LikePatternError LikeMatcher :=
  let* ts := compile_tokens pattern escape insensitive [] in
  let shape := shape_of ts in
  Ok (mkLike shape insensitive (match shape with Contains s => Some (encode s) | _ => None end)).

Definition matches_folded (m : LikeMatcher) (text : list Z) : bool :=
  match shape m with
  | Any => true
  | Exact s => bool_decide (encode text = encode s)
  | Prefix s => starts_with (encode text) (encode s)
  | Suffix s => ends_with (encode text) (encode s)
  | Contains s =>
      match finder m with
      | Some needle => bool_decide (is_Some (find needle (encode text)))
      | None => bool_decide (is_Some (find (encode s) (encode text)))
      end
  | General ts => wildcard ts text
  end.
Definition matches (m : LikeMatcher) (text : list Z) : bool :=
  if negb (insensitive m) then matches_folded m text else
  if is_ascii text then matches_folded m (map ascii_lower text) else matches_folded m (str_lower text).
End like.

(** * The reference semantics

    Tokens against characters. *)
Inductive like : list Token → list Z → Prop :=
  | like_nil : like [] []
  | like_char c ts s : like ts s → like (Char c :: ts) (c :: s)
  | like_one c ts s : like ts s → like (One :: ts) (c :: s)
  | like_stop ts s : like ts s → like (Many :: ts) s
  | like_many c ts s : like (Many :: ts) s → like (Many :: ts) (c :: s).
#[local] Hint Constructors like : core.

(** ** The walk *)
Lemma like_many_iff ts s : like (Many :: ts) s ↔ like ts s ∨ ∃ c s', s = c :: s' ∧ like (Many :: ts) s'.
Proof. split; [inversion 1; subst; eauto|intros [?|(c & s' & -> & ?)]; auto]. Qed.
Lemma like_many_app ts s u : like (Many :: ts) s → like (Many :: ts) (u ++ s).
Proof. intros. induction u; simpl; auto. Qed.
Lemma like_many_split ts s : like (Many :: ts) s ↔ ∃ u v, s = u ++ v ∧ like ts v.
Proof.
  split.
  - intros Hl. remember (Many :: ts) as l eqn:El. induction Hl as [| | |ts' s Hl _|c ts' s Hl IH]; try done; injection El as ->.
    + by exists [], s.
    + destruct (IH eq_refl) as (u & v & -> & ?). by exists (c :: u), v.
  - intros (u & v & -> & ?). apply like_many_app. auto.
Qed.
Lemma like_drop_many ts s (i j : nat) : (i ≤ j)%nat → like (Many :: ts) (drop j s) → like (Many :: ts) (drop i s).
Proof.
  intros Hij Hl. replace j with (i + (j - i))%nat in Hl by lia. rewrite <-drop_drop in Hl.
  rewrite <-(take_drop (j - i) (drop i s)). by apply like_many_app.
Qed.
Lemma like_end ts : like ts [] ↔ forallb is_many ts = true.
Proof.
  induction ts as [|t ts IH]; [split; auto|]. cbn [forallb]. rewrite andb_true_iff. unfold is_many at 1. rewrite bool_decide_eq_true.
  destruct t; [split; [by inversion 1|by intros [? _]]..|]. rewrite like_many_iff. naive_solver.
Qed.
(** Tokens that take exactly one character each. *)
Definition single (t : Token) : Prop := t ≠ Many.
Lemma like_singles seg ts s :
  Forall single seg → like (seg ++ ts) s → ∃ u v, s = u ++ v ∧ length u = length seg ∧ like ts v.
Proof.
  intros Hs. revert s. induction Hs as [|t seg Ht _ IH]; intros s Hl; [by exists [], s|].
  simpl in Hl. inversion Hl as [|c ts' s' Hl'|c ts' s' Hl'| |]; subst; try done.
  all: destruct (IH _ Hl') as (u & v & -> & Hu & ?); exists (c :: u), v; simpl; rewrite Hu; done.
Qed.
(** What the last [%] has behind it: single tokens, as many as the characters
    matched since. *)
Definition star_ok (ts : list Token) (t p : nat) (star : option (nat * nat)) : Prop :=
  match star with
  | None => True
  | Some (sp, st) => ∃ seg, drop (S sp) ts = seg ++ drop p ts ∧ Forall single seg ∧ t = (st + length seg)%nat ∧ (S sp + length seg = p)%nat
  end.
(** The match still open at the last [%], should this one fail. *)
Definition retry (ts : list Token) (s : list Z) (star : option (nat * nat)) : Prop :=
  match star with None => False | Some (sp, st) => like (Many :: drop (S sp) ts) (drop (S st) s) end.

Lemma retry_from ts s t p sp st :
  star_ok ts t p (Some (sp, st)) → retry ts s (Some (sp, st)) → ∃ k, (t < k)%nat ∧ like (drop p ts) (drop k s).
Proof.
  intros (seg & Hd & Hseg & -> & _) Hr. unfold retry in Hr. rewrite Hd in Hr. apply like_many_split in Hr as (u & v & Hs & Hl).
  apply like_singles in Hl as (w & v' & -> & Hw & Hl); [|done].
  exists (S st + length u + length w)%nat. split; [lia|].
  by rewrite <-!drop_drop, Hs, drop_app_length, drop_app_length.
Qed.
Lemma retry_many ts s t p star :
  star_ok ts t p star → ts !! p = Some Many → retry ts s star → like (drop p ts) (drop t s).
Proof.
  intros Hok Hp Hr. destruct star as [[sp st]|]; [|done]. destruct (retry_from ts s t p sp st Hok Hr) as (k & Hk & Hl).
  rewrite (drop_S _ _ _ Hp) in Hl |- *. apply (like_drop_many _ _ t k); [lia|done].
Qed.
Lemma star_step ts t p star x : star_ok ts t p star → ts !! p = Some x → single x → star_ok ts (S t) (S p) star.
Proof.
  destruct star as [[sp st]|]; [|done]. intros (seg & Hd & Hs & Ht & Hp) Hx Hx1. exists (seg ++ [x]).
  rewrite (drop_S _ _ _ Hx) in Hd. rewrite Hd, <-app_assoc, length_app, Forall_app. simpl. repeat split; auto; lia.
Qed.
Lemma retry_again ts s sp st :
  retry ts s (Some (sp, st)) ↔ like (drop (S sp) ts) (drop (S st) s) ∨ retry ts s (Some (sp, S st)).
Proof.
  unfold retry. rewrite like_many_iff. split; (intros [Hl|Hr]; [by left|]).
  - destruct Hr as (c & s' & He & Hl). right. apply (like_drop_many _ _ _ (S (S st))); [lia|].
    replace (S (S st)) with (S st + 1)%nat by lia. rewrite <-drop_drop, He. exact Hl.
  - destruct (drop (S st) s) as [|c s'] eqn:He.
    + left. assert (drop (S (S st)) s = []) as He'.
      { replace (S (S st)) with (S st + 1)%nat by lia. by rewrite <-drop_drop, He. }
      rewrite He' in Hr. by inversion Hr.
    + right. exists c, s'. split; [done|]. replace (S (S st)) with (S st + 1)%nat in Hr by lia. by rewrite <-drop_drop, He in Hr.
Qed.
Lemma star_first ts p t : star_ok ts t (S p) (Some (p, t)).
Proof. exists []. simpl. repeat split; [constructor|lia..]. Qed.

(** What the walk answers, wherever it is. *)
Lemma walk_sound fuel ts s : ∀ t p star b,
  star_ok ts t p star → walk fuel ts s t p star = Some b → (b = true ↔ like (drop p ts) (drop t s) ∨ retry ts s star).
Proof.
  induction fuel as [|fuel IH]; intros t p star b Hok Hw; [done|]. cbn [walk] in Hw.
  destruct (s !! t) as [x|] eqn:Hx.
  - rewrite (drop_S _ _ _ Hx).
    assert (¬ like (drop p ts) (x :: drop (S t) s) →
      match star with Some (sp, st) => walk fuel ts s (S st) (S sp) (Some (sp, S st)) | None => Some false end = Some b →
      b = true ↔ like (drop p ts) (x :: drop (S t) s) ∨ retry ts s star) as Hmis.
    { intros Hno Hr. destruct star as [[sp st]|]; [|injection Hr as <-; split; [done|by intros [?|[]]]].
      rewrite (IH _ _ _ _ (star_first ts sp (S st)) Hr), (retry_again ts s sp st). tauto. }
    destruct (ts !! p) as [[c| |]|] eqn:Hp.
    + destruct (Z.eqb_spec c x) as [->|Hne].
      * rewrite (IH _ _ _ _ (star_step _ _ _ _ _ Hok Hp ltac:(done)) Hw), (drop_S _ _ _ Hp).
        split; (intros [Hl|Hr]; [left|by right]); [auto|by inversion Hl].
      * apply Hmis; [|done]. rewrite (drop_S _ _ _ Hp). intros Hl. inversion Hl. congruence.
    + rewrite (IH _ _ _ _ (star_step _ _ _ _ _ Hok Hp ltac:(done)) Hw), (drop_S _ _ _ Hp).
      split; (intros [Hl|Hr]; [left|by right]); [auto|by inversion Hl].
    + rewrite (IH _ _ _ _ (star_first ts p t) Hw). rewrite <-(drop_S _ _ _ Hx). rewrite (drop_S _ _ _ Hp).
      assert (like (Many :: drop (S p) ts) (drop t s) ↔ like (drop (S p) ts) (drop t s) ∨ retry ts s (Some (p, t))) as Ht.
      { rewrite like_many_iff. unfold retry. rewrite (drop_S _ _ _ Hx). naive_solver. }
      pose proof (retry_many ts s t p star Hok Hp) as Hm. rewrite (drop_S _ _ _ Hp) in Hm. tauto.
    + apply Hmis; [|done]. apply lookup_ge_None in Hp. rewrite (drop_ge ts p) by done. by inversion 1.
  - injection Hw as <-. apply lookup_ge_None in Hx. rewrite (drop_ge s t) by done. rewrite <-like_end.
    split; [tauto|]. intros [?|Hr]; [done|]. destruct star as [[sp st]|]; [|done].
    destruct (retry_from ts s t p sp st Hok Hr) as (k & Hk & Hl). by rewrite (drop_ge s k) in Hl by lia.
Qed.

(** How much is left to do: a text position for the last [%], then tokens. *)
Definition todo (ts : list Token) (s : list Z) (p : nat) (star : option (nat * nat)) : nat :=
  ((match star with None => length s + 1 | Some (_, st) => length s - st end) * (length ts + 1) + (length ts - p))%nat.
Lemma walk_total fuel ts s : ∀ t p star,
  star_ok ts t p star → (p ≤ length ts)%nat → (match star with Some (_, st) => st ≤ length s | None => True end)%nat →
  (todo ts s p star < fuel)%nat → is_Some (walk fuel ts s t p star).
Proof.
  induction fuel as [|fuel IH]; intros t p star Hok Hp Hst Hf; [lia|]. cbn [walk].
  destruct (s !! t) as [x|] eqn:Hx; [|by eexists]. apply lookup_lt_Some in Hx.
  assert (is_Some (match star with Some (sp, st) => walk fuel ts s (S st) (S sp) (Some (sp, S st)) | None => Some false end)) as Hmis.
  { destruct star as [[sp st]|]; [|by eexists]. destruct Hok as (seg & _ & _ & -> & Hsp).
    apply IH; [apply star_first|lia|lia|]. unfold todo in *.
    replace (length s - st)%nat with (S (length s - S st)) in Hf by lia. nia. }
  destruct (ts !! p) as [[c| |]|] eqn:Htp; [| | |exact Hmis]; pose proof (lookup_lt_Some _ _ _ Htp) as Hpl.
  - destruct (c =? x); [|exact Hmis]. apply IH; [by eapply star_step| |done|unfold todo in *]; lia.
  - apply IH; [by eapply star_step| |done|unfold todo in *]; lia.
  - apply IH; [apply star_first|lia|lia|]. unfold todo in *. destruct star as [[sp st]|].
    + destruct Hok as (seg & _ & _ & -> & _). nia.
    + nia.
Qed.
(** The walk is the relation, and always answers. *)
Lemma wildcard_spec ts s : wildcard ts s = true ↔ like ts s.
Proof.
  unfold wildcard. destruct (walk_total (walk_fuel ts s) ts s 0 0 None) as [b Hb]; [done|lia|done|unfold todo, walk_fuel; nia|].
  rewrite Hb. cbn [default id]. rewrite (walk_sound _ ts s 0 0 None b ltac:(done) Hb), !drop_0. simpl. tauto.
Qed.

(** ** The shapes *)
Lemma like_app ts us s : like (ts ++ us) s ↔ ∃ u v, s = u ++ v ∧ like ts u ∧ like us v.
Proof.
  revert s. induction ts as [|t ts IH]; intros s; simpl.
  { split; [intros ?; by exists [], s|]. intros (u & v & -> & Hn & ?). by inversion Hn. }
  destruct t.
  - split.
    + inversion 1 as [|c' ts' s' Hl| | |]; subst. apply IH in Hl as (u & v & -> & ? & ?). exists (c :: u), v. eauto.
    + intros (u & v & -> & Hn & ?). inversion Hn; subst. simpl. constructor. apply IH. eauto.
  - split.
    + inversion 1 as [| |c' ts' s' Hl| |]; subst. apply IH in Hl as (u & v & -> & ? & ?). exists (c' :: u), v. eauto.
    + intros (u & v & -> & Hn & ?). inversion Hn; subst. simpl. constructor. apply IH. eauto.
  - rewrite like_many_split. split.
    + intros (w & v & -> & Hl). apply IH in Hl as (u & v' & -> & ? & ?). exists (w ++ u), v'. rewrite <-app_assoc.
      split; [done|]. split; [|done]. apply like_many_app. auto.
    + intros (u & v & -> & Hn & ?). apply like_many_split in Hn as (w & u' & -> & ?). exists w, (u' ++ v).
      rewrite <-app_assoc. split; [done|]. apply IH. eauto.
Qed.
Lemma like_chars l s : like (map Char l) s ↔ s = l.
Proof.
  split; [|intros ->; induction l; simpl; auto].
  revert s. induction l as [|c l IH]; intros s; inversion 1; subst; [done|]. f_equal. auto.
Qed.
Lemma like_open s : like [Many] s ↔ True.
Proof. split; [done|]. intros _. apply like_many_split. exists s, []. by rewrite app_nil_r. Qed.
Lemma like_all_many ts s : forallb is_many ts = true → ts ≠ [] → like ts s.
Proof.
  intros Ha Hne. assert (∃ r, ts = r ++ [Many] ∧ forallb is_many r = true) as (r & -> & Hr).
  { destruct (exists_last Hne) as (r & t & ->). rewrite forallb_app in Ha. apply andb_true_iff in Ha as [? Ht].
    exists r. split; [|done]. simpl in Ht. rewrite andb_true_r in Ht. unfold is_many in Ht. apply bool_decide_eq_true in Ht. by subst. }
  apply like_app. exists [], s. split; [done|]. split; [by apply like_end|by apply like_open].
Qed.
Lemma literal_Some ts l : literal ts = Some l → ts = map Char l.
Proof.
  revert l. induction ts as [|t ts IH]; intros l; [by intros [= <-]|]. destruct t; [|done..]. simpl.
  destruct (literal ts) as [cs|]; [|done]. intros [= <-]. simpl. f_equal. auto.
Qed.
Lemma ends_with_spec b suf : ends_with b suf = true ↔ ∃ x, b = x ++ suf.
Proof.
  unfold ends_with. rewrite andb_true_iff, Z.leb_le, bool_decide_eq_true. split.
  - intros [Hl He]. exists (slice b 0 (blen b - blen suf)). rewrite <-He at 2.
    pose proof (blen_nonneg suf). rewrite <-(slice_all b (blen b) eq_refl) at 1.
    replace (blen b) with ((blen b - blen suf) + blen suf) at 1 by lia. rewrite slice_split by lia. done.
  - intros [x ->]. rewrite blen_app. pose proof (blen_nonneg x). split; [lia|].
    rewrite slice_app_r by lia. apply slice_whole; lia.
Qed.
Definition token_ok (t : Token) : Prop := match t with Char c => is_scalar c = true | _ => True end.
Lemma tokens_chars l : Forall token_ok (map Char l) → scalars l.
Proof. rewrite Forall_map. done. Qed.

(** How the tokens sit around the literal part. *)
Lemma shape_of_cases ts :
  match shape_of ts with
  | Any => forallb is_many ts = true ∧ ts ≠ []
  | Exact l => ts = map Char l
  | Prefix l => ts = map Char l ++ [Many]
  | Suffix l => ts = [Many] ++ map Char l
  | Contains l => ts = [Many] ++ map Char l ++ [Many] ∧ l ≠ []
  | General ts' => ts' = ts
  end.
Proof.
  unfold shape_of. destruct (forallb is_many ts) eqn:Ha; [by destruct ts|].
  assert (∃ pre inner suf, ts = pre ++ inner ++ suf ∧
    pre = (if bool_decide (head ts = Some Many) then [Many] else []) ∧
    suf = (if is_last_many ts then [Many] else [])) as (pre & inner & suf & Hts & Hpre & Hsuf).
  { unfold is_last_many. case_bool_decide as Hh; case_bool_decide as Hl.
    - destruct ts as [|t ts]; [done|]. injection Hh as ->. assert (ts ≠ []) as Hne by (by intros ->).
      destruct (exists_last Hne) as (r & x & ->). rewrite app_comm_cons, last_snoc in Hl. injection Hl as ->.
      by exists [Many], r, [Many].
    - destruct ts as [|t ts]; [done|]. injection Hh as ->. exists [Many], ts, []. by rewrite app_nil_r.
    - destruct (exists_last (l:=ts) ltac:(by destruct ts)) as (r & x & ->). rewrite last_snoc in Hl. injection Hl as ->.
      by exists [], r, [Many].
    - exists [], ts, []. by rewrite app_nil_r. }
  assert (slice ts (if bool_decide (head ts = Some Many) then 1 else 0)
    (blen ts - (if is_last_many ts then 1 else 0) - (if bool_decide (head ts = Some Many) then 1 else 0)) = inner) as ->.
  { assert (blen pre = if bool_decide (head ts = Some Many) then 1 else 0) as <- by (rewrite Hpre; destruct (bool_decide _); reflexivity).
    assert (blen suf = if is_last_many ts then 1 else 0) as <- by (rewrite Hsuf; destruct (is_last_many ts); reflexivity).
    rewrite Hts, slice_app_r by lia. rewrite Z.sub_diag. apply slice_app_exact. rewrite !blen_app. lia. }
  destruct (literal inner) as [l|] eqn:Hl; [|by destruct (bool_decide _), (is_last_many ts)].
  apply literal_Some in Hl. rewrite Hl in Hts.
  destruct (bool_decide _), (is_last_many ts); rewrite Hts, Hpre, Hsuf, ?app_nil_r; try done.
  split; [done|]. intros ->. rewrite Hts, Hpre, Hsuf in Ha. done.
Qed.

Section matching.
Context `{LL : LowercaseLaws} `{ML : MemmemLaws}.

Lemma matches_folded_spec ts i s :
  Forall token_ok ts → scalars s →
  matches_folded (mkLike (shape_of ts) i (match shape_of ts with Contains l => Some (encode l) | _ => None end)) s = true ↔ like ts s.
Proof using ML.
  intros Hts Hs. pose proof (shape_of_cases ts) as Hc. unfold matches_folded. cbn [shape finder].
  destruct (shape_of ts) as [|l|l|l|l|ts'].
  - destruct Hc. split; [|done]. intros _. by apply like_all_many.
  - subst ts. apply tokens_chars in Hts. rewrite bool_decide_eq_true, like_chars. split; [by apply encode_inj|by intros ->].
  - subst ts. apply Forall_app in Hts as [Hl%tokens_chars _]. rewrite starts_with_iff, like_app. split.
    + intros [y He]. destruct (encode_prefix s l y Hs Hl He) as (u & -> & _). exists l, u. by rewrite like_chars, like_open.
    + intros (u & v & -> & Hu%like_chars & _). subst u. rewrite encode_app. by exists (encode v).
  - subst ts. apply Forall_app in Hts as [_ Hl%tokens_chars]. rewrite ends_with_spec, like_app. split.
    + intros [x He]. destruct (encode_suffix s l x Hs Hl He) as (u & ->). exists u, l. by rewrite like_chars, like_open.
    + intros (u & v & -> & _ & Hv%like_chars). subst v. rewrite encode_app. by exists (encode u).
  - destruct Hc as [-> Hne]. rewrite !Forall_app in Hts. destruct Hts as (_ & Hl%tokens_chars & _).
    rewrite bool_decide_eq_true, find_spec, like_app. split.
    + intros (x & y & He). destruct (encode_infix s l x y Hs Hl Hne He) as (u & v & ->).
      exists u, (l ++ v). split; [done|]. split; [by apply like_open|]. apply like_app. exists l, v. by rewrite like_chars, like_open.
    + intros (u & v & -> & _ & Hv). apply like_app in Hv as (l' & v' & -> & Hl'%like_chars & _). subst l'.
      rewrite !encode_app. by exists (encode u), (encode v').
  - subst ts'. apply wildcard_spec.
Qed.

(** ** Patterns *)
(** What a literal character of the pattern stands for in the text. *)
Definition lit (insensitive : bool) (c : Z) : list Z := if insensitive then char_lower c else [c].
(** PostgreSQL's rules, on the pattern as written. *)
Inductive pattern_matches (escape : option Z) (insensitive : bool) : list Z → list Z → Prop :=
  | pm_nil : pattern_matches escape insensitive [] []
  | pm_escape e c p s : escape = Some e → pattern_matches escape insensitive p s →
      pattern_matches escape insensitive (e :: c :: p) (lit insensitive c ++ s)
  | pm_percent p u s : escape ≠ Some 37 → pattern_matches escape insensitive p s →
      pattern_matches escape insensitive (37 :: p) (u ++ s)
  | pm_underscore c p s : escape ≠ Some 95 → pattern_matches escape insensitive p s →
      pattern_matches escape insensitive (95 :: p) (c :: s)
  | pm_char c p s : escape ≠ Some c → c ≠ 37 → c ≠ 95 → pattern_matches escape insensitive p s →
      pattern_matches escape insensitive (c :: p) (lit insensitive c ++ s).
(** An escape character at the end escapes nothing. *)
Fixpoint dangling (escape : option Z) (p : list Z) : bool :=
  match p with
  | [] => false
  | c :: p =>
      if bool_decide (Some c = escape) then match p with [] => true | _ :: p => dangling escape p end
      else dangling escape p
  end.

Lemma push_char_lit ts c i : push_char ts c i = ts ++ map Char (lit i c).
Proof using. by destruct i. Qed.
Lemma lit_ok i c : is_scalar c = true → Forall token_ok (map Char (lit i c)).
Proof using LL.
  intros Hc. apply Forall_map. destruct i; simpl; [by apply char_lower_scalars|by repeat constructor].
Qed.
Lemma last_many_absorbs ts u v : is_last_many ts = true → like ts u → like ts (u ++ v).
Proof using.
  unfold is_last_many. rewrite bool_decide_eq_true. intros Hl Hu.
  destruct (exists_last (l:=ts) ltac:(by destruct ts)) as (r & x & ->). rewrite last_snoc in Hl. injection Hl as ->.
  apply like_app in Hu as (a & b & -> & Ha & _). apply like_app. exists a, (b ++ v). rewrite app_assoc. by rewrite like_open.
Qed.
Lemma like_lit ts i c us s :
  like ((ts ++ map Char (lit i c)) ++ us) s ↔ ∃ u v, s = u ++ lit i c ++ v ∧ like ts u ∧ like us v.
Proof using.
  rewrite <-app_assoc, like_app. split.
  - intros (u & v & -> & Hu & Hv). apply like_app in Hv as (a & b & -> & Ha%like_chars & Hb). subst a. by exists u, b.
  - intros (u & v & -> & Hu & Hv). exists u, (lit i c ++ v). split; [done|]. split; [done|]. apply like_app. exists (lit i c), v. by rewrite like_chars.
Qed.

Lemma compile_tokens_spec n escape i : ∀ p ts,
  (length p ≤ n)%nat → Forall token_ok ts → scalars p →
  match compile_tokens p escape i ts with
  | Ok ts' => dangling escape p = false ∧ Forall token_ok ts' ∧
      ∀ s, like ts' s ↔ ∃ u v, s = u ++ v ∧ like ts u ∧ pattern_matches escape i p v
  | Err _ => dangling escape p = true
  end.
Proof using LL.
  induction n as [|n IH]; intros p ts Hn Hts Hp; [destruct p; [|simpl in Hn; lia]|destruct p as [|c p]].
  1-2: simpl; do 2 (split; [done|]); intros s; split;
    [intros Hl; exists s, []; rewrite app_nil_r; repeat split; [done|constructor]|
     intros (u & v & -> & Hu & Hv); inversion Hv; by rewrite app_nil_r].
  simpl in Hn. apply Forall_cons in Hp as [Hc Hp]. cbn [compile_tokens dangling].
  case_bool_decide as He.
  - destruct p as [|d p]; [done|]. apply Forall_cons in Hp as [Hd Hp]. simpl in Hn. rewrite push_char_lit.
    specialize (IH p (ts ++ map Char (lit i d)) ltac:(lia)). destruct (compile_tokens _ _ _ _) as [ts'|e].
    2: { apply IH; [apply Forall_app; split; [done|by apply lit_ok]|done]. }
    destruct IH as (Hdg & Hok & Hl); [apply Forall_app; split; [done|by apply lit_ok]|done|]. do 2 (split; [done|]). intros s. rewrite Hl. split.
    + intros (u & v & -> & Hu & Hv). apply like_app in Hu as (a & b & -> & Ha & Hb%like_chars). subst b.
      exists a, (lit i d ++ v). rewrite <-app_assoc. split; [done|]. split; [done|]. by constructor.
    + intros (u & v & -> & Hu & Hv). inversion Hv as [|e c' p' s' ? Hv'| | |]; subst; try congruence.
      exists (u ++ lit i d), s'. rewrite <-app_assoc. split; [done|]. split; [|done]. apply like_app. exists u, (lit i d). by rewrite like_chars.
  - destruct (Z.eqb_spec c 37) as [->|Hpc]; [|destruct (Z.eqb_spec c 95) as [->|Hus]].
    + set (ts0 := if negb (is_last_many ts) then ts ++ [Many] else ts).
      assert (∀ s, like ts0 s ↔ ∃ u v, s = u ++ v ∧ like ts u) as Hts0.
      { intros s. unfold ts0. destruct (is_last_many ts) eqn:Hm; simpl.
        - split; [intros Hl; exists s, []; by rewrite app_nil_r|]. intros (u & v & -> & Hu). by apply last_many_absorbs.
        - rewrite like_app. split; [intros (u & v & -> & ? & _); eauto|]. intros (u & v & -> & ?). exists u, v. by rewrite like_open. }
      assert (Forall token_ok ts0) as Hok0 by (unfold ts0; case_match; [apply Forall_app; split; [done|by repeat constructor]|done]).
      specialize (IH p ts0 ltac:(lia) Hok0 Hp). destruct (compile_tokens _ _ _ _) as [ts'|e]; [|done].
      destruct IH as (Hdg & Hok & Hl). do 2 (split; [done|]). intros s. rewrite Hl. split.
      * intros (u & v & -> & (a & b & -> & Ha)%Hts0 & Hv). exists a, (b ++ v). rewrite <-app_assoc.
        split; [done|]. split; [done|]. apply pm_percent; [congruence|done].
      * intros (u & v & -> & Hu & Hv). inversion Hv as [|e c' p' s' Hesc Hv'|p' w s' ? Hv'| |]; subst; try congruence.
        exists (u ++ w), s'. rewrite <-app_assoc. split; [done|]. split; [|done]. apply Hts0. eauto.
    + specialize (IH p (ts ++ [One]) ltac:(lia)). destruct (compile_tokens _ _ _ _) as [ts'|e].
      2: { apply IH; [apply Forall_app; split; [done|by repeat constructor]|done]. }
      destruct IH as (Hdg & Hok & Hl); [apply Forall_app; split; [done|by repeat constructor]|done|]. do 2 (split; [done|]). intros s. rewrite Hl. split.
      * intros (u & v & -> & Hu & Hv). apply like_app in Hu as (a & b & -> & Ha & Hb). inversion Hb as [| |c ? ? Hb'| |]; subst. inversion Hb'; subst.
        exists a, (c :: v). rewrite <-app_assoc. split; [done|]. split; [done|]. apply pm_underscore; [congruence|done].
      * intros (u & v & -> & Hu & Hv). inversion Hv as [|e c' p' s' Hesc Hv'| |c' p' s' ? Hv'|]; subst; try congruence.
        exists (u ++ [c']), s'. rewrite <-app_assoc. split; [done|]. split; [|done]. apply like_app. exists u, [c']. eauto.
    + rewrite push_char_lit. specialize (IH p (ts ++ map Char (lit i c)) ltac:(lia)). destruct (compile_tokens _ _ _ _) as [ts'|e].
      2: { apply IH; [apply Forall_app; split; [done|by apply lit_ok]|done]. }
      destruct IH as (Hdg & Hok & Hl); [apply Forall_app; split; [done|by apply lit_ok]|done|]. do 2 (split; [done|]). intros s. rewrite Hl. split.
      * intros (u & v & -> & Hu & Hv). apply like_app in Hu as (a & b & -> & Ha & Hb%like_chars). subst b.
        exists a, (lit i c ++ v). rewrite <-app_assoc. split; [done|]. split; [done|]. apply pm_char; [congruence|done..].
      * intros (u & v & -> & Hu & Hv). inversion Hv as [|e c' p' s' Hesc Hv'|p' w s' ? Hv'|c' p' s' ? Hv'|c' p' s' ? ? ? Hv']; subst; try congruence.
        exists (u ++ lit i c), s'. rewrite <-app_assoc. split; [done|]. split; [|done]. apply like_app. exists u, (lit i c). by rewrite like_chars.
Qed.
Lemma ascii_lowered text : scalars text → is_ascii text = true → map ascii_lower text = str_lower text.
Proof using LL.
  intros Hs Ha. rewrite str_lower_chars.
  - unfold is_ascii in Ha. induction Hs as [|c s Hc Hs IH]; [done|]. simpl in Ha. apply andb_true_iff in Ha as [Hc'%Z.ltb_lt Ha].
    simpl. apply is_scalar_spec in Hc. rewrite char_lower_ascii by lia. simpl. f_equal. by apply IH.
  - intros Hin. unfold is_ascii in Ha. rewrite forallb_forall in Ha. specialize (Ha SIGMA). rewrite <-list_elem_of_In in Ha.
    specialize (Ha Hin). done.
Qed.

Lemma compile_ok pattern escape i text :
  scalars pattern → scalars text →
  match compile pattern escape i with
  | Ok m => dangling escape pattern = false ∧
      (matches m text = true ↔ pattern_matches escape i pattern (if i then str_lower text else text))
  | Err _ => dangling escape pattern = true
  end.
Proof using LL ML.
  intros Hp Ht. unfold compile. pose proof (compile_tokens_spec (length pattern) escape i pattern [] ltac:(lia) ltac:(constructor) Hp) as Hc.
  destruct (compile_tokens _ _ _ _) as [ts|e]; [|exact Hc]. destruct Hc as (Hd & Hok & Hl). cbn [rbind]. split; [exact Hd|].
  assert (∀ s, scalars s → matches_folded (mkLike (shape_of ts) i (match shape_of ts with Contains l => Some (encode l) | _ => None end)) s = true
    ↔ pattern_matches escape i pattern s) as Hfold.
  { intros s Hs. rewrite matches_folded_spec by done. rewrite Hl. split.
    - intros (u & v & -> & Hu & Hv). by inversion Hu.
    - intros Hm. by exists [], s. }
  unfold matches. cbn [insensitive]. destruct i; simpl; [|by apply Hfold].
  destruct (is_ascii text) eqn:Ha; [rewrite ascii_lowered by done|]; apply Hfold; by apply str_lower_scalars.
Qed.


(** C38: the wildcard walk always ends, within a number of steps
    bounded by the text's length times the pattern's, and every shape answers
    what the walk answers on the pattern's tokens. *)
Theorem like_walk ts s i :
  Forall token_ok ts → scalars s →
  ∃ b, walk (walk_fuel ts s) ts s 0 0 None = Some b ∧
    matches_folded (mkLike (shape_of ts) i (match shape_of ts with Contains l => Some (encode l) | _ => None end)) s = b.
Proof using ML.
  intros Hts Hs. destruct (walk_total (walk_fuel ts s) ts s 0 0 None) as [b Hb]; [done|lia|done|unfold todo, walk_fuel; nia|].
  exists b. split; [exact Hb|]. apply eq_true_iff_eq. rewrite matches_folded_spec by done.
  rewrite (walk_sound _ ts s 0 0 None b ltac:(done) Hb), !drop_0. simpl. tauto.
Qed.
End matching.

(** * A model of the parameters *)
Section sample.
(** ASCII, and the letter whose lowercase depends on its place: final sigma
    after a letter, at the end. *)
Definition sample_char (c : Z) : list Z := if c =? SIGMA then [963] else if (0 <=? c) && (c <? 128) then [ascii_lower c] else [c].
Fixpoint sample_lower (after : bool) (s : list Z) : list Z :=
  match s with
  | [] => []
  | c :: r => (if (c =? SIGMA) && after && bool_decide (r = []) then [962] else sample_char c) ++ sample_lower true r
  end.
#[local] Instance sample_lowercase : Lowercase := {| char_lower := sample_char; str_lower := sample_lower false |}.
#[local] Instance sample_memmem : Memmem :=
  {| find needle hay := head (filter (λ i, bool_decide (slice hay i (blen needle) = needle)) (seqZ 0 (blen hay + 1))) |}.
Lemma sample_char_scalars c : is_scalar c = true → scalars (sample_char c).
Proof.
  intros Hc. unfold sample_char. repeat case_match; (constructor; [|constructor]); [done| |done].
  match goal with H : _ && _ = true |- _ => apply andb_true_iff in H as [?%Z.leb_le ?%Z.ltb_lt] end.
  apply is_scalar_spec. unfold ascii_lower. case_match; lia.
Qed.
#[local] Instance sample_lowercase_laws : LowercaseLaws.
Proof.
  split; cbn.
  - apply sample_char_scalars.
  - intros c Hc. unfold sample_char, SIGMA. rewrite (proj2 (Z.eqb_neq c 931)) by lia.
    by rewrite (proj2 (Z.leb_le 0 c)), (proj2 (Z.ltb_lt c 128)) by lia.
  - intros s. generalize false. intros after Hs. revert after. induction Hs as [|c s Hc _ IH]; intros after; simpl; [constructor|].
    apply scalars_app. split; [case_match; [by repeat constructor|by apply sample_char_scalars]|apply IH].
  - intros s. generalize false. induction s as [|c s IH]; intros after Hs; [done|]. simpl. apply not_elem_of_cons in Hs as [Hc Hs].
    rewrite (proj2 (Z.eqb_neq c SIGMA)) by done. simpl. f_equal. by apply IH.
Qed.
#[local] Instance sample_memmem_laws : MemmemLaws.
Proof.
  split. intros needle hay. cbn. split.
  - intros [i Hi]. apply head_Some_elem_of, list_elem_of_filter in Hi as [Hi _]. apply bool_decide_unpack in Hi.
    exists (take (Z.to_nat i) hay), (drop (Z.to_nat (blen needle)) (drop (Z.to_nat i) hay)).
    rewrite <-Hi at 1. unfold slice. by rewrite !take_drop.
  - intros (x & y & ->). destruct (filter _ _) as [|i l] eqn:Hf; [|by eexists].
    exfalso. assert (blen x ∈ @nil Z) as Hin; [|by apply elem_of_nil in Hin]. rewrite <-Hf. apply list_elem_of_filter. split.
    + apply bool_decide_pack. rewrite slice_app_r, Z.sub_diag by lia. by apply slice_app_exact.
    + apply elem_of_seqZ. rewrite !blen_app. pose proof (blen_nonneg x). pose proof (blen_nonneg needle). pose proof (blen_nonneg y). lia.
Qed.

(** [josh_doe LIKE '%h!_d%' ESCAPE '!'], and an [ILIKE] beyond ASCII. *)
Definition sample_matches (pattern : list Z) (escape : option Z) (i : bool) (text : list Z) : option bool :=
  match compile pattern escape i with Ok m => Some (matches m text) | Err _ => None end.
Example sample_contains : sample_matches [37; 104; 33; 95; 100; 37] (Some 33) false [106; 111; 115; 104; 95; 100; 111; 101] = Some true.
Proof. vm_compute. reflexivity. Qed.
Example sample_general : sample_matches [97; 37; 98; 37; 99] (Some 92) true [65; 120; 120; 66; 121; 121; 67] = Some true.
Proof. vm_compute. reflexivity. Qed.
Example sample_dangling : sample_matches [97; 92] (Some 92) false [97] = None.
Proof. vm_compute. reflexivity. Qed.
(** The pattern is lowercased character by character and the text as a whole:
    a word with a final sigma does not [ILIKE] itself. *)
Example ilike_final_sigma : sample_matches [913; 931] None true [913; 931] = Some false.
Proof. vm_compute. reflexivity. Qed.

Lemma like_walk_witness :
  ∃ b, walk (walk_fuel [Many; Char 97; One] [98; 97; 233]) [Many; Char 97; One] [98; 97; 233] 0 0 None = Some b ∧
    matches_folded (mkLike (shape_of [Many; Char 97; One]) false None) [98; 97; 233] = b.
Proof. apply (like_walk [Many; Char 97; One] [98; 97; 233] false); repeat constructor. Defined.
End sample.
End Like.
