(* ===== verification/Kmp.v ===== *)
(** * The phrase matcher ([core/engine/src/index/text/analyzer.rs])

    A phrase query is matched against a document's tokens as they are cut, by
    the failure function of the phrase ([phrase_prefix]) and one step per token
    ([follow]).  [None] is an index out of range, which would panic. *)
From S2P Require Import Prelude.
#[local] Open Scope nat_scope.

Module Kmp.
Section kmp.
Context {A : Type} `{EqDecision A}.
Implicit Types (phrase xs : list A) (prefix : list nat).

(** [while matched > 0 && token != phrase[matched]]; the position decreases, so
    its successor is fuel enough. *)
Fixpoint fall (fuel : nat) (phrase : list A) (prefix : list nat) (token : A) (matched : nat) : option nat :=
  match fuel with
  | O => None
  | S fuel =>
      match matched with
      | O => Some O
      | S before =>
          x ← phrase !! matched;
          if decide (token = x) then Some matched else m ← prefix !! before; fall fuel phrase prefix token m
      end
  end.
Definition advance (phrase : list A) (prefix : list nat) (token : A) (matched : nat) : option nat :=
  m ← fall (S matched) phrase prefix token matched;
  x ← phrase !! m;
  Some (if decide (token = x) then S m else m).
Definition prefix_step (phrase : list A) (prefix : option (list nat)) (index : nat) : option (list nat) :=
  prefix ← prefix;
  matched ← prefix !! (index - 1);
  token ← phrase !! index;
  m ← advance phrase prefix token matched;
  Some (<[index := m]> prefix).
Definition phrase_prefix (phrase : list A) : option (list nat) :=
  foldl (prefix_step phrase) (Some (replicate (length phrase) 0)) (seq 1 (length phrase - 1)).
(** One token of the document: how much of the phrase ends here, and whether
    all of it has been seen. *)
Definition follow (phrase : list A) (prefix : list nat) (token : A) (s : nat * bool) : option (nat * bool) :=
  let '(matched, found) := s in
  if bool_decide (phrase = []) then Some (matched, found) else
  m ← advance phrase prefix token matched;
  if bool_decide (m = length phrase) then m' ← prefix !! (m - 1); Some (m', true) else Some (m, found).

(** * What the positions mean *)
Definition matches phrase (k : nat) xs : Prop := take k phrase `suffix_of` xs.
(** [m] is the longest piece of the phrase, among those shorter than [b], that
    the tokens so far end with. *)
Definition longest phrase (b : nat) xs (m : nat) : Prop :=
  m < b ∧ matches phrase m xs ∧ ∀ k, k < b → matches phrase k xs → k ≤ m.
Definition prefix_ok phrase prefix (n : nat) : Prop :=
  length prefix = length phrase ∧ ∀ j, j < n → ∃ m, prefix !! j = Some m ∧ longest phrase (S j) (take (S j) phrase) m.
(** The tokens hold the phrase, in order and without a gap. *)
Definition occurs phrase xs : Prop := ∃ x y, xs = x ++ phrase ++ y.

Lemma suffix_shorter (l1 l2 xs : list A) : l1 `suffix_of` xs → l2 `suffix_of` xs → length l1 ≤ length l2 → l1 `suffix_of` l2.
Proof using.
  intros [a ->] [b Hb] Hl. assert (length a = length b + (length l2 - length l1)) as Ha.
  { apply (f_equal length) in Hb. rewrite !length_app in Hb. lia. }
  exists (drop (length b) a). apply (f_equal (drop (length b))) in Hb. rewrite drop_app_length in Hb. rewrite <-Hb.
  by rewrite drop_app_le by lia.
Qed.
Lemma matches_0 phrase xs : matches phrase 0 xs.
Proof using. exists xs. by rewrite app_nil_r. Qed.
Lemma matches_le phrase k m xs : k ≤ m → m ≤ length phrase → matches phrase m xs → matches phrase k xs → matches phrase k (take m phrase).
Proof using. intros ? ? Hm Hk. apply (suffix_shorter _ _ xs); [done..|]. rewrite !length_take. lia. Qed.
Lemma matches_trans phrase k m xs : matches phrase m xs → matches phrase k (take m phrase) → matches phrase k xs.
Proof using. intros [a ->] [b ->]. exists (a ++ b). by rewrite app_assoc. Qed.
Lemma matches_snoc phrase k xs t : matches phrase (S k) (xs ++ [t]) → k < length phrase → matches phrase k xs ∧ phrase !! k = Some t.
Proof using.
  intros [a Ha] Hk. destruct (lookup_lt_is_Some_2 phrase k Hk) as [x Hx]. rewrite (take_S_r _ _ _ Hx), app_assoc in Ha.
  apply app_inj_tail in Ha as [-> ->]. split; [by exists a|done].
Qed.
Lemma snoc_matches phrase k xs t : matches phrase k xs → phrase !! k = Some t → matches phrase (S k) (xs ++ [t]).
Proof using. intros [a ->] Hx. unfold matches. rewrite (take_S_r _ _ _ Hx). exists a. by rewrite app_assoc. Qed.

(** ** One step *)
Lemma fall_spec phrase prefix b xs t fuel m :
  b ≤ length phrase → prefix_ok phrase prefix (b - 1) → m < fuel → m < b → matches phrase m xs →
  (∀ k, k < b → matches phrase k xs → phrase !! k = Some t → k ≤ m) →
  ∃ m', fall fuel phrase prefix t m = Some m' ∧ m' < b ∧ matches phrase m' xs ∧ (m' = 0 ∨ phrase !! m' = Some t) ∧
    ∀ k, k < b → matches phrase k xs → phrase !! k = Some t → k ≤ m'.
Proof using.
  intros Hb [Hlen Hok]. revert m. induction fuel as [|fuel IH]; intros m Hf Hm Hmm Hmax; [lia|].
  cbn [fall]. destruct m as [|m]; [exists 0; split_and!; auto|].
  destruct (lookup_lt_is_Some_2 phrase (S m) ltac:(lia)) as [x Hx]. rewrite Hx. simpl.
  destruct (decide (t = x)) as [->|Hne]; [exists (S m); split_and!; auto|].
  destruct (Hok m ltac:(lia)) as (m' & Hm' & Hlt & Hmatch & Hlong). rewrite Hm'. simpl.
  apply IH; [lia|lia|by eapply matches_trans|]. intros k Hk Hkm Hkt. pose proof (Hmax k Hk Hkm Hkt).
  assert (k ≠ S m) by congruence. apply Hlong; [lia|]. by apply (matches_le _ _ (S m) xs); [lia..| |].
Qed.
Lemma advance_spec phrase prefix b xs t m :
  b ≤ length phrase → prefix_ok phrase prefix (b - 1) → longest phrase b xs m →
  ∃ m', advance phrase prefix t m = Some m' ∧ longest phrase (S b) (xs ++ [t]) m'.
Proof using.
  intros Hb Hok (Hm & Hmm & Hmax). unfold advance.
  destruct (fall_spec phrase prefix b xs t (S m) m) as (m' & -> & Hlt & Hm' & Hor & Hall); [lia|done|lia|done|done|auto|].
  simpl. destruct (lookup_lt_is_Some_2 phrase m' ltac:(lia)) as [x Hx]. rewrite Hx. simpl.
  eexists. split; [done|]. destruct (decide (t = x)) as [<-|Hne].
  - split; [lia|]. split; [by apply snoc_matches|]. intros [|k] Hk Hkm; [lia|].
    apply matches_snoc in Hkm as [? ?]; [|lia]. apply le_n_S, Hall; [lia|done..].
  - assert (m' = 0) as -> by (destruct Hor; [done|congruence]). split; [lia|]. split; [apply matches_0|].
    intros [|k] Hk Hkm; [lia|]. apply matches_snoc in Hkm as [? Hkt]; [|lia].
    assert (k ≤ 0) by (apply Hall; [lia|done..]). assert (k = 0) as -> by lia. congruence.
Qed.

(** ** The failure function *)
Lemma prefix_step_ok phrase prefix i :
  0 < i < length phrase → prefix_ok phrase prefix i →
  ∃ prefix', prefix_step phrase (Some prefix) i = Some prefix' ∧ prefix_ok phrase prefix' (S i).
Proof using.
  intros Hi [Hlen Hok]. unfold prefix_step. cbn [mbind option_bind].
  destruct (Hok (i - 1) ltac:(lia)) as (m & -> & Hm). replace (S (i - 1)) with i in Hm by lia. cbn [mbind option_bind].
  destruct (lookup_lt_is_Some_2 phrase i ltac:(lia)) as [t Ht]. rewrite Ht. cbn [mbind option_bind].
  destruct (advance_spec phrase prefix i (take i phrase) t m) as (m' & -> & Hm'); [lia|split; [done|]; intros; apply Hok; lia|done|].
  cbn [mbind option_bind]. eexists. split; [done|]. split; [by rewrite length_insert|]. intros j Hj. destruct (decide (j = i)) as [->|].
  - exists m'. rewrite list_lookup_insert_eq by lia. rewrite (take_S_r _ _ _ Ht). done.
  - rewrite list_lookup_insert_ne by done. apply Hok. lia.
Qed.
Lemma phrase_prefix_ok phrase : ∃ prefix, phrase_prefix phrase = Some prefix ∧ prefix_ok phrase prefix (length phrase).
Proof using.
  unfold phrase_prefix. assert (∀ n, n < length phrase → ∃ prefix,
    foldl (prefix_step phrase) (Some (replicate (length phrase) 0)) (seq 1 n) = Some prefix ∧ prefix_ok phrase prefix (S n)) as Hn.
  { induction n as [|n IH]; intros Hn.
    - eexists. split; [done|]. split; [by rewrite length_replicate|]. intros [|j] Hj; [|lia]. exists 0.
      rewrite lookup_replicate_2 by lia. split; [done|]. split; [lia|]. split; [apply matches_0|lia].
    - destruct IH as (prefix & He & Hp); [lia|]. rewrite seq_S, foldl_app, He. cbn [foldl].
      apply prefix_step_ok; [lia|done]. }
  destruct (decide (length phrase = 0)) as [Hz|Hz].
  - rewrite Hz. eexists. split; [done|]. split; [by rewrite Hz|]. lia.
  - destruct (Hn (length phrase - 1) ltac:(lia)) as (prefix & ? & Hp). exists prefix. split; [done|].
    by replace (length phrase) with (S (length phrase - 1)) by lia.
Qed.

(** ** A whole document *)
Definition state_ok phrase xs (s : nat * bool) : Prop :=
  if bool_decide (phrase = []) then s = (0, false) else longest phrase (length phrase) xs s.1 ∧ (s.2 = true ↔ occurs phrase xs).
Lemma state_start phrase : state_ok phrase [] (0, false).
Proof using.
  unfold state_ok. case_bool_decide as Hp; [done|]. simpl. destruct phrase as [|p phrase]; [done|]. simpl. split.
  - split; [lia|]. split; [apply matches_0|]. intros [|k] Hk Hm; [done|]. destruct Hm as [[|] Ha]; discriminate Ha.
  - split; [done|]. intros (x & y & He). symmetry in He. apply app_eq_nil in He as [_ He]. discriminate He.
Qed.
Lemma occurs_snoc phrase xs t : phrase ≠ [] → occurs phrase (xs ++ [t]) ↔ occurs phrase xs ∨ phrase `suffix_of` xs ++ [t].
Proof using.
  intros Hp. split.
  - intros (x & y & He). destruct y as [|z y _] using rev_ind.
    + right. exists x. by rewrite app_nil_r in He.
    + left. exists x, y. rewrite !app_assoc in He. apply app_inj_tail in He as [-> _]. by rewrite app_assoc.
  - intros [(x & y & ->)|[x He]]; [exists x, (y ++ [t]); by rewrite <-!app_assoc|]. exists x, []. by rewrite app_nil_r.
Qed.
Lemma follow_ok phrase prefix xs t s :
  prefix_ok phrase prefix (length phrase) → state_ok phrase xs s →
  ∃ s', follow phrase prefix t s = Some s' ∧ state_ok phrase (xs ++ [t]) s'.
Proof using.
  intros Hok. unfold state_ok, follow. destruct s as [m found]. case_bool_decide as Hp; [eauto|]. intros [Hm Hf]. cbn [fst snd] in *.
  assert (0 < length phrase) by (destruct phrase; [done|simpl; lia]).
  destruct (advance_spec phrase prefix (length phrase) xs t m) as (m' & -> & Hm'); [done|split; [apply Hok|]; intros; apply Hok; lia|done|].
  simpl. destruct Hm' as (Hlt & Hmm & Hall). case_bool_decide as Hl.
  - subst m'. destruct Hok as [_ Hpre]. destruct (Hpre (length phrase - 1) ltac:(lia)) as (k & Hk & Hk1 & Hk2 & Hk3).
    rewrite Hk. simpl. eexists. split; [done|]. cbn [fst snd].
    replace (S (length phrase - 1)) with (length phrase) in Hk1, Hk2, Hk3 by lia.
    split; [|split; [intros _|done]].
    + split; [done|]. split; [by apply (matches_trans _ _ (length phrase))|]. intros j Hj Hjm. apply Hk3; [done|].
      by apply (matches_le _ _ _ (xs ++ [t])); [lia..| |].
    + apply occurs_snoc; [done|]. right. unfold matches in Hmm. by rewrite firstn_all in Hmm.
  - eexists. split; [done|]. cbn [fst snd]. split.
    + split; [lia|]. split; [done|]. intros k Hk. apply Hall. lia.
    + rewrite occurs_snoc by done. rewrite Hf. split; [by left|]. intros [?|Hs]; [done|]. exfalso.
      assert (length phrase ≤ m'); [|lia]. apply Hall; [lia|]. unfold matches. by rewrite firstn_all.
Qed.
End kmp.

(** The failure function of [a b a b c]. *)
Example prefix_ababc : phrase_prefix [1; 2; 1; 2; 3] = Some [0; 0; 1; 2; 0].
Proof. vm_compute. reflexivity. Qed.
End Kmp.
