(* ===== verification/Analyzer.v ===== *)
(** * The text analyzer ([core/engine/src/index/text/analyzer.rs])

    How a text becomes terms: maximal runs of alphanumeric characters,
    lowercased by the pinned tables, counted, under four bounds.  The phrase
    scanners cut the same tokens and match a phrase as they go.  The Unicode
    tables ([unicode_v1.rs]) are data, and the theorems hold of any. *)
From S2P Require Import Prelude Utf8 Kmp.
Import Utf8.

Module Analyzer.

(** [unicode_v1]: ranges of alphanumeric characters, and lowercase mappings. *)
Class Tables := { ALNUM : list (Z * Z); LOWER : list (Z * list Z) }.

Definition MAX_TEXT_BYTES : Z := 64 * 1024.
Definition MAX_TERM_BYTES : Z := 128.
Definition MAX_TOKENS : Z := 16384.
Definition MAX_TERMS : Z := 4096.
Definition MAX_PHRASE_TOKENS : Z := 64.

(** [terms] is a [BTreeMap<String, u32>]; a [String] is its characters. *)
Record Analysis := mkAnalysis { alen : Z; terms : gmap (list Z) Z }.
Record PhraseAnalysis := mkPhrase { analysis : Analysis; sequence : list (list Z) }.
Inductive PhraseScanError (E : Type) := AnalysisError (why : string) | Callback (e : E).
Arguments AnalysisError {E}.
Arguments Callback {E}.
Inductive PhraseScanEvent := Poll | Token.

(** Code that may fail after it has changed the state: [?] in a method. *)
Definition andthen {S E} (m : S * result E unit) (k : S → S * result E unit) : S * result E unit :=
  match m with (s, Ok _) => k s | (s, Err e) => (s, Err e) end.
Notation "'let!' s ':=' m 'in' k" := (andthen m (λ s, k)) (at level 10, s name, m at level 100, k at level 200).

(** [slice::partition_point]. *)
Fixpoint partition_point {A} (f : A → bool) (l : list A) : Z :=
  match l with [] => 0 | x :: l => if f x then 1 + partition_point f l else 0 end.
Definition is_ascii_alphanumeric (ch : Z) : bool :=
  (48 <=? ch) && (ch <=? 57) || (65 <=? ch) && (ch <=? 90) || (97 <=? ch) && (ch <=? 122).

Section analyzer.
Context `{Tables}.

Definition alphanumeric (ch : Z) : bool :=
  if ch <? 128 then is_ascii_alphanumeric ch else
  let at_ := partition_point (λ r : Z * Z, r.1 <=? ch) ALNUM in
  (0 <? at_) && match ALNUM !! Z.to_nat (at_ - 1) with Some (_, hi) => ch <=? hi | None => false end.
(** [LOWER] has one entry per character, so the binary search finds it or nothing. *)
Definition lower_entry (ch : Z) : option (list Z) := snd <$> head (filter (λ e : Z * list Z, bool_decide (e.1 = ch)) LOWER).
Definition push_lower (ch : Z) (token : list Z) : list Z :=
  if ch <? 128 then token ++ [ascii_lower ch] else
  match lower_entry ch with Some s => token ++ s | None => token ++ [ch] end.

(** The loop of every analyzer: [finish] at each character that is not
    alphanumeric and at the end; [bound] is the refusal of a long term. *)
Section scan.
Context {S E : Type} (bound : option E) (finish : list Z → S → S * result E unit).
Definition too_long (token : list Z) : option E := if MAX_TERM_BYTES <? blen (encode token) then bound else None.
Fixpoint scan (chars token : list Z) (s : S) : S * result E unit :=
  match chars with
  | [] => finish token s
  | ch :: chars =>
      if alphanumeric ch then
        let token := push_lower ch token in
        match too_long token with Some e => (s, Err e) | None => scan chars token s end
      else let! s := finish token s in scan chars [] s
  end.
(** The same with a cancellation checkpoint about every 256 bytes. *)
Fixpoint scan_polled (poll : S → S * result E unit) (chars : list Z) (offset next_poll : Z) (token : list Z) (s : S) : S * result E unit :=
  match chars with
  | [] => finish token s
  | ch :: chars =>
      let due := next_poll <=? offset in
      let! s := (if due then poll s else (s, Ok tt)) in
      let next_poll := if due then saturating_add_u64 offset 256 else next_poll in
      let next := offset + blen (encode_char ch) in
      if alphanumeric ch then
        let token := push_lower ch token in
        match too_long token with Some e => (s, Err e) | None => scan_polled poll chars next next_poll token s end
      else let! s := finish token s in scan_polled poll chars next next_poll [] s
  end.
End scan.

(** ** One text *)
Definition count_term (max : Z) (why : string) (token : list Z) (r : Analysis) : Analysis * result string unit :=
  match terms r !! token with
  | Some count => (mkAnalysis (alen r) (<[token := count + 1]> (terms r)), Ok tt)
  | None =>
      if Z.of_nat (size (terms r)) =? max then (r, Err why)
      else (mkAnalysis (alen r) (<[token := 1]> (terms r)), Ok tt)
  end.
Definition too_many_terms : string := "indexed text exceeds 4096 distinct terms".
Definition too_many_tokens : string := "indexed text exceeds 16384 tokens".
Definition long_term : string := "indexed term exceeds 128 UTF-8 bytes".
Definition long_text : string := "indexed text exceeds 64 KiB".
Definition finish (token : list Z) (r : Analysis) : Analysis * result string unit :=
  if bool_decide (token = []) then (r, Ok tt) else
  if alen r =? MAX_TOKENS then (r, Err too_many_tokens) else
  count_term MAX_TERMS too_many_terms token (mkAnalysis (alen r + 1) (terms r)).
Definition empty_analysis : Analysis := mkAnalysis 0 ∅.
Definition analyze (text : list Z) : result string Analysis :=
  if MAX_TEXT_BYTES <? blen (encode text) then Err long_text else
  match scan (Some long_term) finish text [] empty_analysis with
  | (r, Ok _) => Ok r
  | (_, Err e) => Err e
  end.

(** ** Phrases *)
Definition finish_sequence (token : list Z) (s : list (list Z)) : list (list Z) * result string unit :=
  if bool_decide (token = []) then (s, Ok tt) else
  if blen s =? MAX_PHRASE_TOKENS then (s, Err "text phrase query exceeds 64 tokens"%string) else (s ++ [token], Ok tt).
Definition analyze_phrase_query (text : list Z) : result string PhraseAnalysis :=
  let* analysis := analyze text in
  match scan None finish_sequence text [] [] with
  | (s, Ok _) => Ok (mkPhrase analysis s)
  | (_, Err e) => Err e
  end.

(** The scanners tell their caller of every token; what the caller keeps is
    [C].  An error [None] would be a panic. *)
Section document.
Context {C E : Type} (callback : PhraseScanEvent → C → C * result E unit) (phrase : list (list Z)) (prefix : list nat).
Definition tell (ev : PhraseScanEvent) (c : C) : C * result (option (PhraseScanError E)) unit :=
  match callback ev c with (c, Ok _) => (c, Ok tt) | (c, Err e) => (c, Err (Some (Callback e))) end.

Record Scanned := mkScanned { result_ : Analysis; matched : nat; found : bool; told : C }.
Definition poll_scanned (s : Scanned) : Scanned * result (option (PhraseScanError E)) unit :=
  let '(c, o) := tell Poll (told s) in (mkScanned (result_ s) (matched s) (found s) c, o).
Definition finish_scanned (token : list Z) (s : Scanned) : Scanned * result (option (PhraseScanError E)) unit :=
  if bool_decide (token = []) then (s, Ok tt) else
  let '(c, o) := tell Token (told s) in
  let! s := (mkScanned (result_ s) (matched s) (found s) c, o) in
  if alen (result_ s) =? MAX_TOKENS then (s, Err (Some (AnalysisError too_many_tokens))) else
  match count_term MAX_TERMS too_many_terms token (mkAnalysis (alen (result_ s) + 1) (terms (result_ s))) with
  | (r, Err why) => (mkScanned r (matched s) (found s) (told s), Err (Some (AnalysisError why)))
  | (r, Ok _) =>
      match Kmp.follow phrase prefix token (matched s, found s) with
      | Some (m, f) => (mkScanned r m f (told s), Ok tt)
      | None => (mkScanned r (matched s) (found s) (told s), Err None)
      end
  end.

(** The counting the caller asked for, instead of the whole analysis. *)
Record Seen := mkSeen { slen : Z; seen : list Z; smatched : nat; sfound : bool; stold : C }.
Definition poll_seen (s : Seen) : Seen * result (option (PhraseScanError E)) unit :=
  let '(c, o) := tell Poll (stold s) in (mkSeen (slen s) (seen s) (smatched s) (sfound s) c, o).
Definition saturating_add_u32 (a b : Z) : Z := Z.min (a + b) u32_max.
Fixpoint bump (asked : list (list Z)) (token : list Z) (counts : list Z) : list Z :=
  match asked, counts with
  | term :: asked, n :: counts => if bool_decide (term = token) then saturating_add_u32 n 1 :: counts else n :: bump asked token counts
  | _, _ => counts
  end.
Definition finish_seen (asked : list (list Z)) (token : list Z) (s : Seen) : Seen * result (option (PhraseScanError E)) unit :=
  if bool_decide (token = []) then (s, Ok tt) else
  let '(c, o) := tell Token (stold s) in
  let! s := (mkSeen (slen s) (seen s) (smatched s) (sfound s) c, o) in
  if slen s =? MAX_TOKENS then (s, Err (Some (AnalysisError too_many_tokens))) else
  let s := mkSeen (slen s + 1) (bump asked token (seen s)) (smatched s) (sfound s) (stold s) in
  match Kmp.follow phrase prefix token (smatched s, sfound s) with
  | Some (m, f) => (mkSeen (slen s) (seen s) m f (stold s), Ok tt)
  | None => (s, Err None)
  end.
End document.
Arguments mkScanned {C}.
Arguments mkSeen {C}.

Definition analyze_phrase_document {C E} (text : list Z) (phrase : list (list Z)) (callback : PhraseScanEvent → C → C * result E unit) (c : C)
  : C * result (option (PhraseScanError E)) (Analysis * bool) :=
  if MAX_TEXT_BYTES <? blen (encode text) then (c, Err (Some (AnalysisError long_text))) else
  match Kmp.phrase_prefix phrase with
  | None => (c, Err None)
  | Some prefix =>
      match scan_polled (Some (Some (AnalysisError long_term))) (finish_scanned callback phrase prefix) (poll_scanned callback)
              text 0 256 [] (mkScanned empty_analysis 0 false c) with
      | (s, Ok _) => (told s, Ok (result_ s, found s))
      | (s, Err e) => (told s, Err e)
      end
  end.
Definition scan_phrase_document {C E} (text : list Z) (phrase : list (list Z)) (prefix : list nat) (asked : list (list Z)) (buffer : list Z)
    (callback : PhraseScanEvent → C → C * result E unit) (c : C) : C * list Z * result (option (PhraseScanError E)) (Z * bool) :=
  if MAX_TEXT_BYTES <? blen (encode text) then (c, buffer, Err (Some (AnalysisError long_text))) else
  match scan_polled (Some (Some (AnalysisError long_term))) (finish_seen callback phrase prefix asked) (poll_seen callback)
          text 0 256 [] (mkSeen 0 (replicate (length asked) 0) 0 false c) with
  | (s, Ok _) => (stold s, seen s, Ok (slen s, sfound s))
  | (s, Err e) => (stold s, seen s, Err e)
  end.

(** * The reference semantics

    The runs of alphanumeric characters, lowercased. *)
Fixpoint split_words (text : list Z) : list (list Z) :=
  match text with
  | [] => [[]]
  | ch :: text =>
      if alphanumeric ch then match split_words text with w :: ws => (ch :: w) :: ws | [] => [[ch]] end
      else [] :: split_words text
  end.
Definition lower_word (w : list Z) : list Z := concat (map (λ ch, push_lower ch []) w).
Definition nonempty (w : list Z) : Prop := w ≠ [].
#[local] Instance nonempty_dec w : Decision (nonempty w) := decide (w ≠ []).
Definition raw_words (text : list Z) : list (list Z) := map lower_word (split_words text).
Definition words (text : list Z) : list (list Z) := filter nonempty (raw_words text).
Definition occurrences (w : list Z) (ws : list (list Z)) : Z := blen (filter (w =.) ws).
Definition distinct (ws : list (list Z)) : Z := Z.of_nat (size (list_to_set ws : gset (list Z))).
Definition short (w : list Z) : Prop := blen (encode w) ≤ MAX_TERM_BYTES.

(** The words one at a time. *)
Fixpoint each {S E} (bound : option E) (finish : list Z → S → S * result E unit) (ws : list (list Z)) (s : S) : S * result E unit :=
  match ws with
  | [] => (s, Ok tt)
  | w :: ws => match too_long bound w with Some e => (s, Err e) | None => let! s := finish w s in each bound finish ws s end
  end.

Lemma push_lower_app ch token : push_lower ch token = token ++ push_lower ch [].
Proof using. unfold push_lower. repeat case_match; done. Qed.
Lemma lower_word_cons ch w : lower_word (ch :: w) = push_lower ch [] ++ lower_word w.
Proof using. done. Qed.
Lemma split_words_cons text : ∃ w ws, split_words text = w :: ws.
Proof using. destruct text as [|ch text]; simpl; [eauto|]. destruct (alphanumeric ch); [|eauto]. destruct (split_words text); eauto. Qed.
Lemma too_long_nil {E} (bound : option E) : too_long bound [] = None.
Proof using. done. Qed.
Lemma too_long_app {E} (bound : option E) u v e : too_long bound u = Some e → too_long bound (u ++ v) = Some e.
Proof using.
  unfold too_long. rewrite encode_app, blen_app. pose proof (blen_nonneg (encode v)).
  destruct (Z.ltb_spec MAX_TERM_BYTES (blen (encode u))); [|done]. intros ->. by rewrite (proj2 (Z.ltb_lt _ _)) by lia.
Qed.
Lemma too_long_Some {E} (e : E) w : too_long (Some e) w = None ↔ short w.
Proof using. unfold too_long, short. destruct (Z.ltb_spec MAX_TERM_BYTES (blen (encode w))); split; [done|lia|lia|done]. Qed.
Lemma each_app {S E} bound (fin : list Z → S → S * result E unit) us ws s :
  each bound fin (us ++ ws) s = let! s := each bound fin us s in each bound fin ws s.
Proof using.
  revert s. induction us as [|u us IH]; intros s; [done|]. simpl. destruct (too_long bound u); [done|].
  destruct (fin u s) as [s' [|]]; simpl; [apply IH|done].
Qed.
Lemma each_err {S E} bound (fin : list Z → S → S * result E unit) us ws s s' e :
  each bound fin us s = (s', Err e) → each bound fin (us ++ ws) s = (s', Err e).
Proof using. intros Hu. by rewrite each_app, Hu. Qed.

(** ** The rule of the scanning loops

    [P] holds of the words finished so far, [Q] of all the words and an error. *)
Section rule.
Context {S E : Type} (bound : option E) (fin : list Z → S → S * result E unit) (poll : S → S * result E unit).
Context (P : list (list Z) → S → Prop) (Q : list (list Z) → E → Prop).
Hypothesis Hfin : ∀ done w rest s, P done s → too_long bound w = None →
  match fin w s with (s', Ok _) => P (done ++ [w]) s' | (_, Err e) => Q (done ++ w :: rest) e end.
Hypothesis Hlong : ∀ done w rest s e, P done s → too_long bound w = Some e → Q (done ++ w :: rest) e.
Hypothesis Hpoll : ∀ done rest s, P done s → match poll s with (s', Ok _) => P done s' | (_, Err e) => Q (done ++ rest) e end.

Definition with_token (token : list Z) (chars : list Z) : list (list Z) :=
  match split_words chars with w :: ws => (token ++ lower_word w) :: map lower_word ws | [] => [] end.
Lemma with_token_nil chars : with_token [] chars = raw_words chars.
Proof using. unfold with_token, raw_words. destruct (split_words_cons chars) as (w & ws & ->). done. Qed.
Lemma with_token_alnum token ch chars :
  alphanumeric ch = true → with_token token (ch :: chars) = with_token (push_lower ch token) chars.
Proof using.
  intros Ha. unfold with_token. cbn [split_words]. rewrite Ha. destruct (split_words_cons chars) as (w & ws & ->).
  by rewrite lower_word_cons, (push_lower_app ch token), app_assoc.
Qed.
Lemma with_token_other token ch chars :
  alphanumeric ch = false → with_token token (ch :: chars) = token :: with_token [] chars.
Proof using.
  intros Ha. rewrite with_token_nil. unfold with_token. cbn [split_words]. rewrite Ha. by rewrite app_nil_r.
Qed.
Lemma with_token_head token chars : ∃ x ws, with_token token chars = (token ++ x) :: ws.
Proof using. unfold with_token. destruct (split_words_cons chars) as (w & ws & ->). eauto. Qed.

Lemma scan_polled_rule chars : ∀ offset next token s done,
  too_long bound token = None → P done s →
  match scan_polled bound fin poll chars offset next token s with
  | (s', Ok _) => P (done ++ with_token token chars) s'
  | (_, Err e) => Q (done ++ with_token token chars) e
  end.
Proof using Hfin Hlong Hpoll.
  induction chars as [|ch chars IH]; intros offset next token s done Ht Hs; cbn [scan_polled].
  - pose proof (Hfin done token [] s Hs Ht) as Hf. unfold with_token. simpl. rewrite app_nil_r. exact Hf.
  - cbv zeta. set (due := next <=? offset). generalize (if due then saturating_add_u64 offset 256 else next). intros next'.
    assert (match (if due then poll s else (s, Ok tt)) with
      | (s', Ok _) => P done s' | (_, Err e) => Q (done ++ with_token token (ch :: chars)) e end) as Hp.
    { destruct due; [by apply Hpoll|done]. }
    destruct (if due then poll s else (s, Ok tt)) as [s1 [[]|e]]; simpl; [|exact Hp].
    destruct (alphanumeric ch) eqn:Ha.
    + rewrite with_token_alnum by done. destruct (too_long bound (push_lower ch token)) as [e|] eqn:Hl; [|by apply IH].
      destruct (with_token_head (push_lower ch token) chars) as (x & ws & ->).
      apply (Hlong done _ ws s1 e Hp). by apply too_long_app.
    + rewrite with_token_other by done. pose proof (Hfin done token (with_token [] chars) s1 Hp Ht) as Hf.
      destruct (fin token s1) as [s2 [[]|e]]; simpl; [|exact Hf].
      specialize (IH (offset + blen (encode_char ch)) next' [] s2 (done ++ [token]) (too_long_nil _) Hf).
      rewrite <-app_assoc in IH. exact IH.
Qed.
End rule.
(** The loop is [each] of the words, state and error. *)
Lemma scan_with_token {S E} (bound : option E) (fin : list Z → S → S * result E unit) chars : ∀ token s,
  too_long bound token = None → scan bound fin chars token s = each bound fin (with_token token chars) s.
Proof using.
  induction chars as [|ch chars IH]; intros token s Ht; cbn [scan].
  - unfold with_token. simpl. rewrite app_nil_r, Ht. by destruct (fin token s) as [? [[]|]].
  - destruct (alphanumeric ch) eqn:Ha.
    + rewrite with_token_alnum by done. cbv zeta. destruct (too_long bound (push_lower ch token)) as [e|] eqn:Hl; [|by apply IH].
      destruct (with_token_head (push_lower ch token) chars) as (x & ws & ->). simpl. by rewrite (too_long_app _ _ _ _ Hl).
    + rewrite with_token_other by done. simpl. rewrite Ht. destruct (fin token s) as [s' [[]|e]]; simpl; [|done]. by apply IH.
Qed.
Lemma scan_each {S E} (bound : option E) (fin : list Z → S → S * result E unit) text s :
  scan bound fin text [] s = each bound fin (raw_words text) s.
Proof using. rewrite scan_with_token by done. by rewrite with_token_nil. Qed.

(** ** One text *)
Definition analysis_of (ws : list (list Z)) (r : Analysis) : Prop :=
  alen r = blen ws ∧ ∀ w, terms r !! w = if decide (w ∈ ws) then Some (occurrences w ws) else None.
Definition within (ws : list (list Z)) : Prop := blen ws ≤ MAX_TOKENS ∧ distinct ws ≤ MAX_TERMS.
(** Which bound a text is over. *)
Definition refused_words (raw : list (list Z)) (why : string) : Prop :=
  (why = long_term ∧ Exists (λ w, ¬ short w) raw) ∨
  (why = too_many_tokens ∧ MAX_TOKENS < blen (filter nonempty raw)) ∨
  (why = too_many_terms ∧ MAX_TERMS < distinct (filter nonempty raw)).

Lemma occurrences_snoc w ws t : occurrences w (ws ++ [t]) = occurrences w ws + (if decide (w = t) then 1 else 0).
Proof using.
  unfold occurrences. rewrite filter_app, blen_app. f_equal. rewrite filter_cons. destruct (decide (w = t)); done.
Qed.
Lemma occurrences_none w ws : w ∉ ws → occurrences w ws = 0.
Proof using.
  intros Hw. unfold occurrences. destruct (filter (w =.) ws) as [|x l] eqn:He; [done|]. exfalso.
  assert (x ∈ filter (w =.) ws) as [<- ?]%list_elem_of_filter by (rewrite He; left). done.
Qed.
Lemma distinct_terms ws r : analysis_of ws r → Z.of_nat (size (terms r)) = distinct ws.
Proof using.
  intros [_ Ht]. unfold distinct. rewrite <-(size_dom (D:=gset (list Z))). do 2 f_equal. apply set_eq. intros w.
  rewrite elem_of_dom, Ht, elem_of_list_to_set. destruct (decide (w ∈ ws)); split; try done; by intros [].
Qed.
Lemma distinct_app ws us : distinct ws ≤ distinct (ws ++ us).
Proof using. unfold distinct. rewrite list_to_set_app_L. apply Nat2Z.inj_le, subseteq_size. set_solver. Qed.
Lemma distinct_snoc ws t : t ∉ ws → distinct (ws ++ [t]) = distinct ws + 1.
Proof using.
  intros Hn. unfold distinct. replace (list_to_set (ws ++ [t])) with ({[t]} ∪ list_to_set ws : gset (list Z)) by set_solver.
  rewrite size_union by set_solver. rewrite size_singleton. lia.
Qed.
Lemma analysis_of_snoc ws r t n :
  analysis_of ws r → n = occurrences t ws + 1 → analysis_of (ws ++ [t]) (mkAnalysis (alen r + 1) (<[t := n]> (terms r))).
Proof using.
  intros [Hl Ht] ->. split; [cbn; rewrite Hl, blen_app; done|]. intros w. cbn. rewrite occurrences_snoc. destruct (decide (w = t)) as [->|Hne].
  - rewrite lookup_insert_eq, decide_True by set_solver. done.
  - rewrite lookup_insert_ne by done. rewrite Ht, Z.add_0_r. apply decide_ext. set_solver.
Qed.
Lemma filter_one w : filter nonempty [w] = if decide (w = []) then [] else [w].
Proof using. rewrite filter_cons, filter_nil. destruct (decide (w = [])); [rewrite decide_False|rewrite decide_True]; unfold nonempty; tauto. Qed.
(** One word. *)
Lemma finish_spec ws r w :
  analysis_of ws r → within ws →
  match finish w r with
  | (r', Ok _) => analysis_of (ws ++ filter nonempty [w]) r' ∧ within (ws ++ filter nonempty [w])
  | (_, Err why) => (why = too_many_tokens ∧ MAX_TOKENS < blen (ws ++ filter nonempty [w])) ∨
      (why = too_many_terms ∧ MAX_TERMS < distinct (ws ++ filter nonempty [w]))
  end.
Proof using.
  intros Hr [Hn Hd]. pose proof Hr as [Hl Ht]. unfold finish. rewrite filter_one.
  case_bool_decide as Hw; [rewrite decide_True by done; by rewrite app_nil_r|]. rewrite decide_False by done.
  unfold within. rewrite blen_app, Hl. change (blen [w]) with 1.
  destruct (Z.eqb_spec (blen ws) MAX_TOKENS); [left; split; [done|lia]|]. unfold count_term. cbn [terms alen]. rewrite Ht.
  destruct (decide (w ∈ ws)) as [Hin|Hin].
  - split; [rewrite <-Hl; by apply analysis_of_snoc|]. split; [lia|].
    unfold distinct. rewrite list_to_set_app_L. replace (list_to_set ws ∪ list_to_set [w]) with (list_to_set ws : gset (list Z)); [done|set_solver].
  - rewrite (distinct_terms ws r Hr). destruct (Z.eqb_spec (distinct ws) MAX_TERMS); [right; split; [done|rewrite distinct_snoc by done; lia]|].
    split; [rewrite <-Hl; apply analysis_of_snoc; [done|by rewrite occurrences_none]|]. split; [lia|]. rewrite distinct_snoc by done. lia.
Qed.
Lemma each_finish raw ws r :
  analysis_of ws r → within ws →
  match each (Some long_term) finish raw r with
  | (r', Ok _) => Forall short raw ∧ analysis_of (ws ++ filter nonempty raw) r' ∧ within (ws ++ filter nonempty raw)
  | (_, Err why) => (why = long_term ∧ Exists (λ w, ¬ short w) raw) ∨
      (why = too_many_tokens ∧ MAX_TOKENS < blen (ws ++ filter nonempty raw)) ∨
      (why = too_many_terms ∧ MAX_TERMS < distinct (ws ++ filter nonempty raw))
  end.
Proof using.
  revert ws r. induction raw as [|w raw IH]; intros ws r Hr Hw; [simpl; by rewrite app_nil_r|]. cbn [each].
  destruct (too_long (Some long_term) w) as [e|] eqn:Hl.
  { left. unfold too_long in Hl. destruct (Z.ltb_spec MAX_TERM_BYTES (blen (encode w))); [|done]. injection Hl as <-.
    split; [done|]. left. unfold short. lia. }
  apply too_long_Some in Hl. pose proof (finish_spec ws r w Hr Hw) as Hf.
  replace (filter nonempty (w :: raw)) with (filter nonempty [w] ++ filter nonempty raw) by (by rewrite <-filter_app).
  destruct (finish w r) as [r1 [[]|why]]; simpl.
  - destruct Hf as [Hr1 Hw1]. specialize (IH _ r1 Hr1 Hw1). rewrite <-app_assoc in IH.
    destruct (each _ _ raw r1) as [r2 [[]|why]]; [|naive_solver]. destruct IH as (? & ? & ?). split; [by constructor|done].
  - right. rewrite app_assoc. pose proof (distinct_app (ws ++ filter nonempty [w]) (filter nonempty raw)).
    rewrite blen_app. pose proof (blen_nonneg (filter nonempty raw)). destruct Hf as [[-> ?]|[-> ?]]; [left|right]; (split; [done|lia]).
Qed.
Lemma analyze_each text :
  analyze text = if MAX_TEXT_BYTES <? blen (encode text) then Err long_text else
    match each (Some long_term) finish (raw_words text) empty_analysis with (r, Ok _) => Ok r | (_, Err e) => Err e end.
Proof using. unfold analyze. by rewrite scan_each. Qed.
Lemma analysis_of_empty : analysis_of [] empty_analysis.
Proof using. split; [done|]. intros w. by rewrite decide_False by set_solver. Qed.
Lemma within_nil : within [].
Proof using. done. Qed.

(** What a text is indexed as, or why it is not. *)
Lemma analyze_ok text :
  match analyze text with
  | Ok a => blen (encode text) ≤ MAX_TEXT_BYTES ∧ Forall short (words text) ∧
      blen (words text) ≤ MAX_TOKENS ∧ distinct (words text) ≤ MAX_TERMS ∧
      alen a = blen (words text) ∧
      ∀ w, terms a !! w = if decide (w ∈ words text) then Some (occurrences w (words text)) else None
  | Err why => why = long_text ∧ MAX_TEXT_BYTES < blen (encode text) ∨
      why = long_term ∧ Exists (λ w, ¬ short w) (words text) ∨
      why = too_many_tokens ∧ MAX_TOKENS < blen (words text) ∨
      why = too_many_terms ∧ MAX_TERMS < distinct (words text)
  end.
Proof using.
  rewrite analyze_each. destruct (Z.ltb_spec MAX_TEXT_BYTES (blen (encode text))); [by left|].
  pose proof (each_finish (raw_words text) [] empty_analysis analysis_of_empty within_nil) as He. simpl in He. fold (words text) in He.
  destruct (each _ _ _ _) as [r [[]|why]].
  - destruct He as (Hs & [Hl Ht] & Hn & Hd). split; [done|]. split; [|by split_and!].
    apply Forall_forall. intros w [_ Hw]%list_elem_of_filter. rewrite Forall_forall in Hs. auto.
  - right. destruct He as [[-> He]|He]; [left|by right]. split; [done|]. apply Exists_exists in He as (w & Hw & Hns). apply Exists_exists. exists w.
    split; [|done]. apply list_elem_of_filter. split; [|done]. intros ->. apply Hns. done.
Qed.

(** ** Phrases *)
Lemma each_sequence raw s :
  blen s ≤ MAX_PHRASE_TOKENS →
  match each None finish_sequence raw s with
  | (s', Ok _) => s' = s ++ filter nonempty raw ∧ blen s' ≤ MAX_PHRASE_TOKENS
  | (_, Err _) => MAX_PHRASE_TOKENS < blen (s ++ filter nonempty raw)
  end.
Proof using.
  revert s. induction raw as [|w raw IH]; intros s Hs; [simpl; by rewrite app_nil_r|]. cbn [each].
  replace (too_long (@None string) w) with (@None string) by (unfold too_long; by destruct (_ <? _)).
  replace (filter nonempty (w :: raw)) with (filter nonempty [w] ++ filter nonempty raw) by (by rewrite <-filter_app).
  rewrite filter_one. unfold finish_sequence. case_bool_decide as Hw; [rewrite decide_True by done; apply (IH s Hs)|].
  rewrite decide_False, app_assoc by done. destruct (Z.eqb_spec (blen s) MAX_PHRASE_TOKENS) as [He|]; cbn [andthen].
  - rewrite !blen_app. pose proof (blen_nonneg (filter nonempty raw)). change (blen [w]) with 1. lia.
  - apply IH. rewrite blen_app. change (blen [w]) with 1. lia.
Qed.
Lemma found_occurs (phrase ws : list (list Z)) m f : Kmp.state_ok phrase ws (m, f) → f = true ↔ phrase ≠ [] ∧ Kmp.occurs phrase ws.
Proof using. unfold Kmp.state_ok. case_bool_decide; [intros [= -> ->]; naive_solver|]. cbn. naive_solver. Qed.

Section document_proofs.
Context {C E : Type} (callback : PhraseScanEvent → C → C * result E unit) (phrase : list (list Z)) (prefix : list nat).
Hypothesis Hprefix : Kmp.prefix_ok phrase prefix (length phrase).
(** The caller stopped the scan. *)
Definition cancelled (e : E) : Prop := ∃ ev c, (callback ev c).2 = Err e.
Lemma tell_spec ev c :
  match (tell callback ev c).2 with Ok _ => True | Err e => ∃ x, e = Some (Callback x) ∧ cancelled x end.
Proof using. unfold tell. destruct (callback ev c) as [c' [|e]] eqn:Hc; [done|]. exists e. split; [done|]. exists ev, c. by rewrite Hc. Qed.
Lemma follow_word done w m f :
  w ≠ [] → Kmp.state_ok phrase (filter nonempty done) (m, f) →
  ∃ m' f', Kmp.follow phrase prefix w (m, f) = Some (m', f') ∧ Kmp.state_ok phrase (filter nonempty (done ++ [w])) (m', f').
Proof using Hprefix.
  intros Hw Hk. destruct (Kmp.follow_ok phrase prefix _ w _ Hprefix Hk) as ([m' f'] & ? & ?). exists m', f'.
  rewrite filter_app, filter_one, decide_False by done. done.
Qed.

Definition scanned_ok (done : list (list Z)) (s : Scanned (C:=C)) : Prop :=
  each (Some long_term) finish done empty_analysis = (result_ s, Ok tt) ∧ Kmp.state_ok phrase (filter nonempty done) (matched s, found s).
Definition scanned_err (ws : list (list Z)) (e : option (PhraseScanError E)) : Prop :=
  match e with
  | Some (AnalysisError why) => (each (Some long_term) finish ws empty_analysis).2 = Err why
  | Some (Callback e) => cancelled e
  | None => False
  end.
Lemma finish_scanned_ok done w rest s :
  scanned_ok done s → short w →
  match finish_scanned callback phrase prefix w s with
  | (s', Ok _) => scanned_ok (done ++ [w]) s'
  | (_, Err e) => scanned_err (done ++ w :: rest) e
  end.
Proof using Hprefix.
  intros [He Hk] Hs. pose proof (proj2 (too_long_Some long_term w) Hs) as Hl. unfold finish_scanned, scanned_ok, scanned_err.
  rewrite !each_app, He. cbn [andthen each]. rewrite Hl. unfold finish. case_bool_decide as Hw.
  { rewrite Hw, filter_app, filter_one, decide_True, app_nil_r by done. done. }
  pose proof (tell_spec Token (told s)) as Ht. destruct (tell callback Token (told s)) as [c [[]|e]]; cbn [andthen snd] in *.
  2: { by destruct Ht as (x & -> & ?). }
  cbn [result_ matched found told]. destruct (alen (result_ s) =? MAX_TOKENS); [done|].
  destruct (count_term _ _ _ _) as [r [[]|why]]; [|done].
  destruct (follow_word done w (matched s) (found s) Hw Hk) as (m & f & -> & Hk'). done.
Qed.

Fixpoint asked_counts (asked ws : list (list Z)) : list Z :=
  match asked with [] => [] | t :: asked => occurrences t ws :: asked_counts asked (filter (λ w, w ≠ t) ws) end.
Lemma occurrences_le w ws : 0 ≤ occurrences w ws ≤ blen ws.
Proof using. unfold occurrences, blen. pose proof (length_filter (w =.) ws). lia. Qed.
Lemma bump_counts asked w ws :
  blen ws < u32_max → bump asked w (asked_counts asked ws) = asked_counts asked (ws ++ [w]).
Proof using.
  revert ws. induction asked as [|t asked IH]; intros ws Hn; [done|]. simpl. rewrite occurrences_snoc, filter_app, filter_cons, filter_nil.
  pose proof (occurrences_le t ws). case_bool_decide as Ht.
  - subst. rewrite decide_True, decide_False, app_nil_r by tauto. unfold saturating_add_u32. by rewrite Z.min_l by lia.
  - rewrite decide_False, decide_True, Z.add_0_r by congruence. rewrite IH; [done|].
    unfold blen in *. pose proof (length_filter (λ w, w ≠ t) ws). lia.
Qed.
Definition seen_ok (asked done : list (list Z)) (s : Seen (C:=C)) : Prop :=
  Forall short done ∧ slen s = blen (filter nonempty done) ∧ slen s ≤ MAX_TOKENS ∧
  seen s = asked_counts asked (filter nonempty done) ∧ Kmp.state_ok phrase (filter nonempty done) (smatched s, sfound s).
Definition seen_err (ws : list (list Z)) (e : option (PhraseScanError E)) : Prop :=
  match e with
  | Some (AnalysisError why) => Exists (λ w, ¬ short w) ws ∨ MAX_TOKENS < blen (filter nonempty ws)
  | Some (Callback e) => cancelled e
  | None => False
  end.
Lemma finish_seen_ok asked done w rest s :
  seen_ok asked done s → short w →
  match finish_seen callback phrase prefix asked w s with
  | (s', Ok _) => seen_ok asked (done ++ [w]) s'
  | (_, Err e) => seen_err (done ++ w :: rest) e
  end.
Proof using Hprefix.
  intros (Hd & Hn & Hle & Hc & Hk) Hs. unfold finish_seen, seen_ok, seen_err.
  assert (Forall short (done ++ [w])) as Hd' by (apply Forall_app; auto). case_bool_decide as Hw.
  { subst w. rewrite filter_app, filter_one, decide_True, app_nil_r by done. split_and!; done. }
  pose proof (tell_spec Token (stold s)) as Ht. destruct (tell callback Token (stold s)) as [c [[]|e]]; cbn [andthen snd] in *.
  2: { by destruct Ht as (x & -> & ?). }
  cbn [slen seen stold smatched sfound].
  assert (filter nonempty (done ++ [w]) = filter nonempty done ++ [w]) as Hf by (by rewrite filter_app, filter_one, decide_False).
  destruct (Z.eqb_spec (slen s) MAX_TOKENS).
  - right. replace (done ++ w :: rest) with ((done ++ [w]) ++ rest) by (by rewrite <-app_assoc).
    rewrite filter_app, Hf, !blen_app, <-Hn. pose proof (blen_nonneg (filter nonempty rest)). change (blen [w]) with 1. lia.
  - destruct (follow_word done w (smatched s) (sfound s) Hw Hk) as (m & f & -> & Hk'). rewrite Hf in *.
    cbn [slen seen smatched sfound]. rewrite blen_app, <-Hn. change (blen [w]) with 1. split_and!; [done|done|lia| |done].
    rewrite Hc. apply bump_counts. rewrite <-Hn. unfold MAX_TOKENS, u32_max in *. lia.
Qed.

Lemma long_word {X} (x e : X) w : too_long (Some x) w = Some e → e = x ∧ ¬ short w.
Proof using. unfold too_long, short. destruct (Z.ltb_spec MAX_TERM_BYTES (blen (encode w))); [|done]. intros [= <-]. split; [done|lia]. Qed.
Lemma scanned_run text c :
  match scan_polled (Some (Some (AnalysisError long_term))) (finish_scanned callback phrase prefix) (poll_scanned callback)
          text 0 256 [] (mkScanned empty_analysis 0 false c) with
  | (s, Ok _) => scanned_ok (raw_words text) s
  | (_, Err e) => scanned_err (raw_words text) e
  end.
Proof using Hprefix.
  rewrite <-with_token_nil. apply (scan_polled_rule _ _ _ scanned_ok scanned_err) with (done := []); try done.
  - intros done w rest s Hs Hw%too_long_Some. by apply finish_scanned_ok.
  - intros done w rest s e [He Hk] [-> Hl]%long_word. cbn. rewrite each_app, He. cbn.
    unfold too_long. unfold short in Hl. by rewrite (proj2 (Z.ltb_lt _ _)) by lia.
  - intros done rest s Hs. unfold poll_scanned. pose proof (tell_spec Poll (told s)) as Ht.
    destruct (tell callback Poll (told s)) as [c' [|e]]; [done|]. by destruct Ht as (x & -> & ?).
  - split; [done|]. apply Kmp.state_start.
Qed.
Lemma seen_run asked text c :
  match scan_polled (Some (Some (AnalysisError long_term))) (finish_seen callback phrase prefix asked) (poll_seen callback)
          text 0 256 [] (mkSeen 0 (replicate (length asked) 0) 0 false c) with
  | (s, Ok _) => seen_ok asked (raw_words text) s
  | (_, Err e) => seen_err (raw_words text) e
  end.
Proof using Hprefix.
  rewrite <-with_token_nil. apply (scan_polled_rule _ _ _ (seen_ok asked) seen_err) with (done := []); try done.
  - intros done w rest s Hs Hw%too_long_Some. by apply finish_seen_ok.
  - intros done w rest s e Hs [-> Hl]%long_word. left. apply Exists_app. right. by left.
  - intros done rest s Hs. unfold poll_seen. pose proof (tell_spec Poll (stold s)) as Ht.
    destruct (tell callback Poll (stold s)) as [c' [|e]]; [done|]. by destruct Ht as (x & -> & ?).
  - split_and!; [constructor|done|done| |apply Kmp.state_start]. cbn.
    induction asked as [|t asked IH]; [done|]. cbn. f_equal. exact IH.
Qed.
End document_proofs.
(** C31: what a text is indexed as.  It is refused, with the matching
    sentence, only when it is over one of the four bounds (bytes of text, bytes
    of a term, terms, distinct terms), and accepted only when it is within all
    of them; an accepted text's terms are its words, each with its number of
    occurrences, and its length is their number. *)
Theorem text_analysis_exact text :
  match analyze text with
  | Ok a => blen (encode text) ≤ MAX_TEXT_BYTES ∧ Forall short (words text) ∧
      blen (words text) ≤ MAX_TOKENS ∧ distinct (words text) ≤ MAX_TERMS ∧
      alen a = blen (words text) ∧
      ∀ w, terms a !! w = if decide (w ∈ words text) then Some (occurrences w (words text)) else None
  | Err why => why = long_text ∧ MAX_TEXT_BYTES < blen (encode text) ∨
      why = long_term ∧ Exists (λ w, ¬ short w) (words text) ∨
      why = too_many_tokens ∧ MAX_TOKENS < blen (words text) ∨
      why = too_many_terms ∧ MAX_TERMS < distinct (words text)
  end.
Proof using. apply analyze_ok. Qed.

(** The phrase itself is cut the same way, and bounded. *)
Lemma phrase_query_words text :
  analyze_phrase_query text =
  let* a := analyze text in
  if MAX_PHRASE_TOKENS <? blen (words text) then Err "text phrase query exceeds 64 tokens"%string else Ok (mkPhrase a (words text)).
Proof using.
  unfold analyze_phrase_query. destruct (analyze text) as [a|]; [|done]. cbn [rbind]. rewrite scan_each.
  assert (∀ raw s, match (each None finish_sequence raw s).2 with Ok _ => True | Err e => e = "text phrase query exceeds 64 tokens"%string end) as Hmsg.
  { induction raw as [|w raw IH]; intros s; [done|]. cbn [each].
    replace (too_long (@None string) w) with (@None string) by (unfold too_long; by destruct (_ <? _)).
    unfold finish_sequence at 1. case_bool_decide; [apply IH|]. destruct (blen s =? MAX_PHRASE_TOKENS); [done|apply IH]. }
  pose proof (each_sequence (raw_words text) [] ltac:(done)) as He. specialize (Hmsg (raw_words text) []). fold (words text) in He.
  destruct (each _ _ _ _) as [s [[]|e]].
  - destruct He as [-> Hn]. by rewrite (proj2 (Z.ltb_ge _ _)).
  - cbn in Hmsg. subst e. by rewrite (proj2 (Z.ltb_lt _ _)).
Qed.
End analyzer.

(** * A sample: [É] has an entry of its own, [é] is only alphanumeric *)
Section sample.
#[local] Instance sample_tables : Tables := {| ALNUM := [(192, 255)]; LOWER := [(201, [233])] |}.
Definition sample_text : list Z := [65; 98; 45; 201; 32; 97; 66; 46].
Example sample_words : words sample_text = [[97; 98]; [233]; [97; 98]].
Proof. vm_compute. reflexivity. Qed.
Example sample_analyze : (λ a, (alen a, map_to_list (terms a))) <$> match analyze sample_text with Ok a => Some a | Err _ => None end
  = Some (3, [([233], 1); ([97; 98], 2)]).
Proof. vm_compute. reflexivity. Qed.
End sample.
End Analyzer.
