(* ===== verification/Trigram.v ===== *)
(** * Trigrams ([core/engine/src/index/text/trigram.rs])

    How a text becomes three-character pieces, and which pieces a [LIKE] pattern
    requires.  The index only narrows, so a missing candidate is a wrong answer:
    every row the matcher of [Like] accepts must hold every required piece. *)
From S2P Require Import Prelude Utf8 Like Analyzer.
Import Utf8.

Module Trigram.
Import Analyzer.

Definition START : Z := 2.
Definition END : Z := 3.
Definition MAX_PIECES : Z := Z.shiftl 1 18.
Definition MAX_REQUIRED_PIECES : Z := 256.
Definition one_sigma (c : Z) : Z := if c =? 962 then 963 else c.

(** [chars.windows(3)], and those without a NUL. *)
Fixpoint windows3 (chars : list Z) : list (list Z) :=
  match chars with
  | a :: chars => match chars with b :: c :: _ => [a; b; c] :: windows3 chars | _ => [] end
  | [] => []
  end.
Definition windows (chars : list Z) : list (list Z) := filter (λ w, 0 ∉ w) (windows3 chars).

Inductive Token := Char (c : Z) | Wild.
Fixpoint tokens_of (pattern : list Z) (escape : option Z) : result string (list Token) :=
  match pattern with
  | [] => Ok []
  | c :: pattern =>
      if bool_decide (Some c = escape) then
        match pattern with
        | [] => Err "LIKE pattern must not end with escape character"%string
        | next :: pattern => let* ts := tokens_of pattern escape in Ok (Char next :: ts)
        end
      else let* ts := tokens_of pattern escape in Ok ((if (c =? 37) || (c =? 95) then Wild else Char c) :: ts)
  end.

(** [BTreeSet::insert]: in the order of the strings, which is that of their characters. *)
Fixpoint insert_piece (p : list Z) (l : list (list Z)) : list (list Z) :=
  match l with
  | [] => [p]
  | q :: l' => match bytes_compare p q with Lt => p :: l | Eq => l | Gt => q :: insert_piece p l' end
  end.

Section trigram.
Context `{Tables}.

Definition fold (text : list Z) : list Z := concat (map (λ ch, map one_sigma (push_lower ch [])) text).
Definition marked (text : list Z) : result string (list Z) :=
  if MAX_TEXT_BYTES <? blen (encode text) then Err long_text
  else Ok ([START; START] ++ fold text ++ [END; END]).
Definition too_many_pieces : string := "indexed text exceeds 262144 distinct trigram pieces".
(** [length] is a [u32]. *)
Fixpoint count_pieces (ws : list (list Z)) (r : Analysis) : result string Analysis :=
  match ws with
  | [] => Ok r
  | piece :: ws =>
      match count_term MAX_PIECES too_many_pieces piece r with
      | (r, Ok _) => count_pieces ws (mkAnalysis (alen r + 1) (terms r))
      | (_, Err e) => Err e
      end
  end.
Definition analyze (text : list Z) : result string Analysis :=
  let* chars := marked text in
  count_pieces (windows chars) empty_analysis.

(** Whether the toolchain's Unicode is the pinned one is [pinned]. *)
Section required.
Context (ascii_only : bool) (tokens : list Token).
Definition keep_piece (pieces : list (list Z)) (window : list Z) : list (list Z) :=
  if (blen pieces <? MAX_REQUIRED_PIECES) && (negb ascii_only || Like.is_ascii window) then insert_piece window pieces else pieces.
(** One run of literal characters, the tokens [from .. to]. *)
Definition cut_chars (from to : nat) (run : list Z) : list Z :=
  (if bool_decide (from = 0%nat) then [START; START] else []) ++ fold run ++ (if bool_decide (to = length tokens) then [END; END] else []).
Definition cut (from to : nat) (run : list Z) (pieces : list (list Z)) : list (list Z) :=
  if bool_decide (run = []) && negb (bool_decide (from = 0%nat) && bool_decide (to = length tokens)) then pieces
  else foldl keep_piece pieces (windows (cut_chars from to run)).
Fixpoint cut_runs (ts : list Token) (at_ from : nat) (run : list Z) (pieces : list (list Z)) : list (list Z) :=
  match ts with
  | [] => cut from (length tokens) run pieces
  | Char c :: ts => cut_runs ts (S at_) (if bool_decide (run = []) then at_ else from) (run ++ [c]) pieces
  | Wild :: ts => cut_runs ts (S at_) (S at_) [] (cut from at_ run pieces)
  end.
End required.
Definition required (pinned : bool) (pattern : list Z) (escape : option Z) (insensitive : bool) : result string (list (list Z)) :=
  let* tokens := tokens_of pattern escape in
  Ok (cut_runs (insensitive && negb pinned) tokens tokens 0 0 [] []).
End trigram.

(** * Windows *)
Lemma windows3_spec w l : w ∈ windows3 l ↔ length w = 3%nat ∧ ∃ x y, l = x ++ w ++ y.
Proof.
  induction l as [|a l IH].
  { split; [by intros ?%elem_of_nil|]. intros (Hw & x & y & He). destruct x, w; try done. }
  destruct l as [|b [|c l]].
  1-2: split; [by intros ?%elem_of_nil|]; intros (Hw & x & y & He); apply (f_equal length) in He; rewrite !length_app in He; simpl in He; lia.
  change (windows3 (a :: b :: c :: l)) with ([a; b; c] :: windows3 (b :: c :: l)). rewrite elem_of_cons, IH. split.
  - intros [->|(? & x & y & ->)]; [split; [done|]; by exists [], l|]. split; [done|]. by exists (a :: x), y.
  - intros (Hw & x & y & He). destruct x as [|a' x].
    + left. destruct w as [|w1 [|w2 [|w3 [|]]]]; try done. simpl in He. injection He as <- <- <- _. done.
    + right. injection He as <- ->. eauto.
Qed.
Lemma windows_spec w l : w ∈ windows l ↔ length w = 3%nat ∧ 0 ∉ w ∧ ∃ x y, l = x ++ w ++ y.
Proof. unfold windows. rewrite list_elem_of_filter, windows3_spec. tauto. Qed.
Lemma insert_piece_elem p q l : q ∈ insert_piece p l ↔ q = p ∨ q ∈ l.
Proof.
  induction l as [|r l IH]; simpl; [set_solver|]. destruct (bytes_compare p r) eqn:Hc; [|set_solver..].
  apply bytes_compare_eq in Hc as ->. set_solver.
Qed.
Definition infix (w l : list Z) : Prop := ∃ x y, l = x ++ w ++ y.
Lemma infix_app w l a b : infix w l → infix w (a ++ l ++ b).
Proof. intros (x & y & ->). exists (a ++ x), (y ++ b). by rewrite <-!app_assoc. Qed.

(** ** Texts alike in their ASCII

    The same but for stretches that hold no ASCII character on either side. *)
Definition foreign (u : list Z) : Prop := u ≠ [] ∧ Forall (λ c, (c <? 128) = false) u.
Inductive alike : list Z → list Z → Prop :=
  | alike_nil : alike [] []
  | alike_same c l1 l2 : alike l1 l2 → alike (c :: l1) (c :: l2)
  | alike_foreign u v l1 l2 : foreign u → foreign v → alike l1 l2 → alike (u ++ l1) (v ++ l2).
Lemma alike_refl l : alike l l.
Proof. induction l; by constructor. Qed.
Lemma alike_app l1 l2 r1 r2 : alike l1 l2 → alike r1 r2 → alike (l1 ++ r1) (l2 ++ r2).
Proof. intros Hl Hr. induction Hl as [|c l1 l2 _ IH|u v l1 l2 Hu Hv _ IH]; [done|by constructor|]. rewrite <-!app_assoc. by constructor. Qed.
Lemma alike_sym l1 l2 : alike l1 l2 → alike l2 l1.
Proof. induction 1; by constructor. Qed.
Lemma alike_concat ls rs : Forall2 alike ls rs → alike (concat ls) (concat rs).
Proof. induction 1; [constructor|by apply alike_app]. Qed.
Lemma alike_prefix w l1 l2 : Like.is_ascii w = true → alike l1 l2 → (∃ y, l1 = w ++ y) → ∃ y, l2 = w ++ y.
Proof.
  intros Hw Ha. revert w Hw. induction Ha as [|c l1 l2 Ha IH|u v l1 l2 Hu Hv Ha IH]; intros w Hw [y He].
  - symmetry in He. apply app_eq_nil in He as [-> _]. by exists [].
  - destruct w as [|d w]; [by exists (c :: l2)|]. injection He as <- He. cbn in Hw. apply andb_true_iff in Hw as [_ Hw].
    destruct (IH w Hw) as [y' ->]; [eauto|]. by exists y'.
  - destruct w as [|d w]; [eauto|]. destruct Hu as [Hn Hu]. destruct u as [|b u]; [done|]. injection He as -> _.
    inversion Hu; subst. cbn in Hw. apply andb_true_iff in Hw as [Hd _]. congruence.
Qed.
Lemma alike_infix w l1 l2 : w ≠ [] → Like.is_ascii w = true → alike l1 l2 → infix w l1 → infix w l2.
Proof.
  intros Hne Hw Ha. induction Ha as [|c l1 l2 Ha IH|u v l1 l2 Hu Hv Ha IH]; intros (x & y & He).
  - exists [], []. symmetry in He. apply app_eq_nil in He as [_ [-> _]%app_eq_nil]. done.
  - destruct x as [|d x].
    + destruct (alike_prefix w (c :: l1) (c :: l2) Hw) as [y' ->]; [by constructor|by exists y|]. by exists [], y'.
    + injection He as -> ->. destruct IH as (x' & y' & ->); [by exists x, y|]. by exists (d :: x'), y'.
  - apply app_eq_app in He as (k & [[-> He]|[-> ->]]).
    + destruct w as [|d w]; [done|]. destruct k as [|b k].
      * destruct IH as (x' & y' & ->); [exists [], y; simpl in *; congruence|]. exists (v ++ x'), y'. by rewrite <-app_assoc.
      * injection He as -> _. exfalso. destruct Hu as [_ Hu]. rewrite Forall_app, Forall_cons in Hu. destruct Hu as (_ & Hd & _).
        cbn in Hw. apply andb_true_iff in Hw as [? _]. congruence.
    + destruct IH as (x' & y' & ->); [by exists k, y|]. exists (v ++ x'), y'. by rewrite <-app_assoc.
Qed.

(** ** The matcher's lowercase and the fold

    The standard library's lowercase is the fold's, but for which sigma is
    written; where the toolchain's Unicode is not the pinned one the two may
    differ, character by character, outside ASCII. *)
Class FoldLaws `{Tables} `{Like.Lowercase} (pinned : bool) := {
  fold_sigma : fold [962] = [963] ∧ fold [963] = [963];
  str_lower_sigma s : map one_sigma (Like.str_lower s) = map one_sigma (concat (map Like.char_lower s));
  fold_char_lower c : fold (Like.char_lower c) = fold [c] ∨
    pinned = false ∧ foreign (fold (Like.char_lower c)) ∧ foreign (fold [c]);
}.

Section required_proofs.
Context `{T : Tables} `{LL : Like.LowercaseLaws} `{ML : Like.MemmemLaws} (pinned : bool) `{FL : !FoldLaws pinned}.

Lemma fold_app s t : fold (s ++ t) = fold s ++ fold t.
Proof using. unfold fold. by rewrite map_app, concat_app. Qed.
Lemma fold_cons c s : fold (c :: s) = fold [c] ++ fold s.
Proof using. apply (fold_app [c] s). Qed.
Lemma fold_concat ls : fold (concat ls) = concat (map fold ls).
Proof using. induction ls as [|l ls IH]; [done|]. cbn [concat map]. by rewrite fold_app, IH. Qed.
Lemma fold_one_sigma s : fold (map one_sigma s) = fold s.
Proof using FL.
  induction s as [|c s IH]; [done|]. cbn [map]. rewrite fold_cons, (fold_cons c), IH. f_equal.
  unfold one_sigma. destruct (Z.eqb_spec c 962) as [->|]; [|done]. destruct fold_sigma as [-> ->]. done.
Qed.
(** What [LIKE] looks for, and what the index holds. *)
Definition subject (i : bool) (text : list Z) : list Z := if i then Like.str_lower text else text.
Definition literal (i : bool) (run : list Z) : list Z := concat (map (Like.lit i) run).
Lemma fold_str_lower text : fold (Like.str_lower text) = fold (concat (map Like.char_lower text)).
Proof using FL. by rewrite <-fold_one_sigma, str_lower_sigma, fold_one_sigma. Qed.
Lemma fold_lowered text :
  alike (fold (concat (map Like.char_lower text))) (fold text) ∧
  (pinned = true → fold (concat (map Like.char_lower text)) = fold text).
Proof using FL.
  induction text as [|c text [IH1 IH2]]; [split; [constructor|done]|]. cbn [map concat]. rewrite fold_app, (fold_cons c).
  destruct (fold_char_lower c) as [->|(-> & Hu & Hv)]; split; try done.
  - by apply alike_app; [apply alike_refl|].
  - intros Hp. by rewrite IH2.
  - by constructor.
Qed.
Definition exact (i : bool) : Prop := i && negb pinned = false.
Lemma fold_subject i text : alike (fold (subject i text)) (fold text) ∧ (exact i → fold (subject i text) = fold text).
Proof using FL.
  unfold subject, exact. destruct i; simpl; [|split; [apply alike_refl|done]]. rewrite fold_str_lower, negb_false_iff. apply fold_lowered.
Qed.
Lemma fold_literal i run : alike (fold (literal i run)) (fold run) ∧ (exact i → fold (literal i run) = fold run).
Proof using FL.
  unfold literal, exact. destruct i; simpl; [rewrite negb_false_iff; apply fold_lowered|].
  replace (concat (map (Like.lit false) run)) with run; [split; [apply alike_refl|done]|].
  induction run as [|c run IH]; [done|]. simpl. by rewrite <-IH.
Qed.

(** ** Patterns and their tokens *)
Inductive token_match (i : bool) : list Token → list Z → Prop :=
  | tm_nil : token_match i [] []
  | tm_char c ts s : token_match i ts s → token_match i (Char c :: ts) (Like.lit i c ++ s)
  | tm_wild u ts s : token_match i ts s → token_match i (Wild :: ts) (u ++ s).
Lemma pattern_tokens escape i p s :
  Like.pattern_matches escape i p s → ∃ ts, tokens_of p escape = Ok ts ∧ token_match i ts s.
Proof using.
  induction 1 as [|e c p s He _ (ts & Hts & Hm)|p u s He _ (ts & Hts & Hm)|c p s He _ (ts & Hts & Hm)|c p s He H1 H2 _ (ts & Hts & Hm)];
    cbn [tokens_of].
  - exists []. split; [done|constructor].
  - rewrite bool_decide_eq_true_2 by done. rewrite Hts. eexists. split; [done|]. by constructor.
  - rewrite bool_decide_eq_false_2 by congruence. rewrite Hts. eexists. split; [done|]. by constructor.
  - rewrite bool_decide_eq_false_2 by congruence. rewrite Hts. eexists. split; [done|]. by apply (tm_wild i [c]).
  - rewrite bool_decide_eq_false_2 by congruence. rewrite Hts. eexists. split; [done|]. cbn [rbind].
    rewrite (proj2 (Z.eqb_neq c 37)), (proj2 (Z.eqb_neq c 95)) by done. by constructor.
Qed.
Lemma tokens_dangling escape n : ∀ p, (length p ≤ n)%nat → is_ok (tokens_of p escape) = negb (Like.dangling escape p).
Proof using.
  induction n as [|n IH]; intros [|c p] Hn; try done; simpl in Hn; [lia|]. cbn [tokens_of Like.dangling]. case_bool_decide.
  - destruct p as [|d p]; [done|]. simpl in Hn. rewrite <-(IH p) by lia. by destruct (tokens_of p escape).
  - rewrite <-(IH p) by lia. by destruct (tokens_of p escape).
Qed.
Lemma token_match_app i ts us s :
  token_match i (ts ++ us) s → ∃ u v, s = u ++ v ∧ token_match i ts u ∧ token_match i us v.
Proof using.
  revert s. induction ts as [|t ts IH]; intros s; simpl; [exists [], s; split; [done|]; split; [constructor|done]|].
  inversion 1 as [|c ts' s' Hm|w ts' s' Hm]; subst; apply IH in Hm as (u & v & -> & Hu & Hv).
  - exists (Like.lit i c ++ u), v. rewrite app_assoc. split; [done|]. split; [by constructor|done].
  - exists (w ++ u), v. rewrite app_assoc. split; [done|]. split; [by constructor|done].
Qed.
Lemma token_match_nil i s : token_match i [] s → s = [].
Proof using. by inversion 1. Qed.
Lemma token_match_run i run s : token_match i (map Char run) s → s = literal i run.
Proof using.
  revert s. induction run as [|c run IH]; intros s; inversion 1; subst; [done|]. unfold literal. simpl. f_equal. by apply IH.
Qed.

(** ** The pieces of one run *)
Definition kept (ascii_only : bool) (w : list Z) : Prop := ascii_only = true → Like.is_ascii w = true.
Definition holds (text w : list Z) : Prop := w ∈ windows ([START; START] ++ fold text ++ [END; END]).
Lemma run_holds i text pre run post w :
  token_match i (pre ++ map Char run ++ post) (subject i text) →
  kept (i && negb pinned) w →
  w ∈ windows ((if bool_decide (length pre = 0%nat) then [START; START] else []) ++ fold run ++
               (if bool_decide (post = []) then [END; END] else [])) →
  holds text w.
Proof using FL.
  intros Hm Hk. unfold holds. rewrite !windows_spec. intros (Hl & Hnul & Hin). split; [done|]. split; [done|].
  apply token_match_app in Hm as (s1 & r & Hs & H1 & Hm). apply token_match_app in Hm as (s2 & s3 & -> & H2%token_match_run & H3). subst s2.
  set (a := if bool_decide (length pre = 0%nat) then [START; START] else []) in *.
  set (b := if bool_decide (post = []) then [END; END] else []) in *.
  assert (∃ a' b', [START; START] ++ fold (subject i text) ++ [END; END] = a' ++ (a ++ fold (literal i run) ++ b) ++ b') as (a' & b' & He).
  { rewrite Hs, !fold_app. unfold a, b. destruct pre as [|t pre]; [apply token_match_nil in H1; subst s1|];
      (destruct post as [|t' post]; [apply token_match_nil in H3; subst s3|]); cbn [length]; repeat case_bool_decide; try done; change (fold []) with (@nil Z).
    - exists [], []. by rewrite ?app_nil_r.
    - exists [], (fold s3 ++ [END; END]). by rewrite ?app_nil_r, <-?app_assoc.
    - exists ([START; START] ++ fold s1), []. by rewrite ?app_nil_r, <-?app_assoc.
    - exists ([START; START] ++ fold s1), (fold s3 ++ [END; END]). by rewrite ?app_nil_r, <-?app_assoc. }
  assert (w ≠ []) as Hne by (by intros ->).
  destruct (fold_literal i run) as [La Le], (fold_subject i text) as [Sa Se]. destruct (i && negb pinned) eqn:Hx.
  - specialize (Hk eq_refl). assert (infix w (a ++ fold (literal i run) ++ b)) as Hw.
    { apply (alike_infix w (a ++ fold run ++ b)); [done..| |done]. apply alike_app; [apply alike_refl|].
      apply alike_app; [by apply alike_sym|apply alike_refl]. }
    apply (alike_infix w ([START; START] ++ fold (subject i text) ++ [END; END])); [done..| |].
    + apply alike_app; [apply alike_refl|]. apply alike_app; [done|apply alike_refl].
    + rewrite He. by apply infix_app.
  - rewrite <-(Se Hx), He, (Le Hx). by apply infix_app.
Qed.

Definition sorted_pieces (l : list (list Z)) : Prop := StronglySorted bytes_lt l ∧ blen l ≤ MAX_REQUIRED_PIECES.
Lemma insert_piece_sorted p l : StronglySorted bytes_lt l → StronglySorted bytes_lt (insert_piece p l).
Proof using.
  induction 1 as [|q l Hl IH Hq]; simpl; [by repeat constructor|]. destruct (bytes_compare p q) eqn:Hc; [by constructor| |].
  - constructor; [by constructor|]. constructor; [done|]. eapply Forall_impl; [exact Hq|]. intros r Hr. by etrans.
  - constructor; [done|]. apply Forall_forall. intros r [->|Hr]%insert_piece_elem; [|by rewrite Forall_forall in Hq; auto].
    unfold bytes_lt. rewrite bytes_compare_antisym, Hc. done.
Qed.
Lemma insert_piece_length p l : (length (insert_piece p l) ≤ S (length l))%nat.
Proof using. induction l as [|q l IH]; simpl; [lia|]. destruct (bytes_compare p q); simpl; lia. Qed.
Lemma keep_piece_spec ascii_only ws pieces :
  (∀ w, w ∈ foldl (keep_piece ascii_only) pieces ws → w ∈ pieces ∨ w ∈ ws ∧ kept ascii_only w) ∧
  (sorted_pieces pieces → sorted_pieces (foldl (keep_piece ascii_only) pieces ws)).
Proof using.
  revert pieces. induction ws as [|v ws IH]; intros pieces; [by split; [left|]|]. cbn [foldl].
  destruct (IH (keep_piece ascii_only pieces v)) as [Hin Hs]. split.
  - intros w [Hw|[? ?]]%Hin; [|right; split; [by right|done]]. unfold keep_piece in Hw.
    destruct (_ && _) eqn:Hk; [|by left]. apply insert_piece_elem in Hw as [->|]; [|by left]. right. split; [by left|].
    intros ->. apply andb_true_iff in Hk as [_ Hk]. exact Hk.
  - intros [H1 H2]. apply Hs. unfold keep_piece. destruct (_ && _) eqn:Hk; [|done]. apply andb_true_iff in Hk as [Hn%Z.ltb_lt _].
    split; [by apply insert_piece_sorted|]. pose proof (insert_piece_length v pieces). unfold blen in *. lia.
Qed.
Lemma cut_spec ascii_only tokens from to run pieces :
  (∀ w, w ∈ cut ascii_only tokens from to run pieces → w ∈ pieces ∨ w ∈ windows (cut_chars tokens from to run) ∧ kept ascii_only w) ∧
  (sorted_pieces pieces → sorted_pieces (cut ascii_only tokens from to run pieces)).
Proof using. unfold cut. destruct (_ && _); [by split; [left|]|]. apply keep_piece_spec. Qed.
Lemma cut_runs_sound i text tokens ts : ∀ pre run pieces,
  token_match i tokens (subject i text) → tokens = pre ++ map Char run ++ ts →
  (∀ w, w ∈ pieces → holds text w) → sorted_pieces pieces →
  let r := cut_runs (i && negb pinned) tokens ts (length pre + length run) (length pre) run pieces in
  (∀ w, w ∈ r → holds text w) ∧ sorted_pieces r.
Proof using FL.
  induction ts as [|[c|] ts IH]; intros pre run pieces Hm Ht Hp Hs; cbn [cut_runs].
  - destruct (cut_spec (i && negb pinned) tokens (length pre) (length tokens) run pieces) as [Hin Hso].
    split; [|by apply Hso]. intros w [Hw|[Hw Hk]]%Hin; [by apply Hp|]. apply (run_holds i text pre run []); [by rewrite <-Ht|done|].
    unfold cut_chars in Hw. rewrite (bool_decide_eq_true_2 (length tokens = _)) in Hw by done. exact Hw.
  - replace (if bool_decide (run = []) then (length pre + length run)%nat else length pre) with (length pre).
    2: { case_bool_decide; [subst run; simpl; lia|done]. }
    replace (S (length pre + length run)) with (length pre + length (run ++ [c]))%nat by (rewrite length_app; simpl; lia).
    apply IH; [done| |done..]. by rewrite map_app, <-app_assoc.
  - destruct (cut_spec (i && negb pinned) tokens (length pre) (length pre + length run) run pieces) as [Hin Hso].
    set (pre' := pre ++ map Char run ++ [Wild]) in *.
    assert (S (length pre + length run) = length pre') as -> by (unfold pre'; rewrite !length_app, length_map; simpl; lia).
    pose proof (IH pre' []) as Hr. change (length (@nil Z)) with 0%nat in Hr. rewrite Nat.add_0_r in Hr.
    apply Hr; [done| | |by apply Hso].
    + rewrite Ht. unfold pre'. simpl. by rewrite <-!app_assoc.
    + intros w [Hw|[Hw Hk]]%Hin; [by apply Hp|]. apply (run_holds i text pre run (Wild :: ts)); [by rewrite <-Ht|done|].
      unfold cut_chars in Hw. rewrite (bool_decide_eq_false_2 (_ = length tokens)) in Hw; [exact Hw|].
      rewrite Ht, !length_app, length_map. simpl. lia.
Qed.

(** ** The pieces of a text *)
Lemma count_pieces_spec ws us r :
  analysis_of us r →
  match count_pieces ws r with
  | Ok r' => analysis_of (us ++ ws) r'
  | Err why => why = too_many_pieces ∧ MAX_PIECES < distinct (us ++ ws)
  end.
Proof using.
  revert us r. induction ws as [|w ws IH]; intros us r Hr; [simpl; by rewrite app_nil_r|]. cbn [count_pieces].
  pose proof Hr as [_ Ht]. unfold count_term. rewrite Ht. replace (us ++ w :: ws) with ((us ++ [w]) ++ ws) by (by rewrite <-app_assoc).
  destruct (decide (w ∈ us)) as [Hin|Hin]; cbn [alen terms].
  - apply IH. by apply analysis_of_snoc.
  - rewrite (distinct_terms us r Hr). destruct (Z.eqb_spec (distinct us) MAX_PIECES) as [He|]; cbn [alen terms].
    + split; [done|]. pose proof (distinct_app (us ++ [w]) ws). rewrite (distinct_snoc us w Hin) in *. lia.
    + apply IH. apply analysis_of_snoc; [done|]. by rewrite occurrences_none.
Qed.
Lemma distinct_le ws : distinct ws ≤ blen ws.
Proof using.
  unfold distinct, blen. apply Nat2Z.inj_le. induction ws as [|w ws IH]; [done|]. cbn [list_to_set length].
  rewrite size_union_alt, size_singleton. etrans; [|apply le_n_S, IH]. apply le_n_S, subseteq_size.
  intros x Hx. by apply elem_of_difference in Hx as [? _].
Qed.

Lemma windows_length chars : blen (windows chars) ≤ blen chars.
Proof using.
  unfold windows, blen. pose proof (length_filter (λ w, 0 ∉ w) (windows3 chars)). apply Nat2Z.inj_le. etrans; [done|].
  clear. induction chars as [|a [|b [|c l]] IH]; simpl; try lia. simpl in IH. lia.
Qed.
(** No lowercase has more characters than the character has bytes: [MAX_PIECES]
    refuses no text the 64 KiB bound admits. *)
Lemma fold_length text :
  (∀ c, blen (push_lower c []) ≤ blen (encode_char c)) → blen (fold text) ≤ blen (encode text).
Proof using.
  intros Hc. induction text as [|c text IH]; [done|]. rewrite fold_cons, encode_cons, !blen_app.
  assert (blen (fold [c]) = blen (push_lower c [])) as ->; [|pose proof (Hc c); lia].
  unfold fold, blen. simpl. by rewrite app_nil_r, length_map.
Qed.

(** A trigram index of a text holds, with their number of occurrences,
    exactly the three-character windows of the folded and marked text that hold
    no NUL; and it refuses exactly the texts over 64 KiB. *)
Lemma trigram_analysis text :
  (∀ c, blen (push_lower c []) ≤ blen (encode_char c)) →
  match analyze text with
  | Ok a => blen (encode text) ≤ MAX_TEXT_BYTES ∧ analysis_of (windows ([START; START] ++ fold text ++ [END; END])) a
  | Err why => why = long_text ∧ MAX_TEXT_BYTES < blen (encode text)
  end.
Proof using.
  intros Hc. unfold analyze, marked. destruct (Z.ltb_spec MAX_TEXT_BYTES (blen (encode text))); [done|]. cbn [rbind].
  set (chars := [START; START] ++ fold text ++ [END; END]). pose proof (count_pieces_spec (windows chars) [] empty_analysis analysis_of_empty) as Hp.
  destruct (count_pieces _ _) as [a|why]; [done|]. destruct Hp as [_ Hp]. exfalso. simpl in Hp.
  pose proof (distinct_le (windows chars)). pose proof (windows_length chars). pose proof (fold_length text Hc).
  assert (blen chars = blen (fold text) + 4) by (unfold chars; rewrite !blen_app; change (blen [START; START]) with 2; change (blen [END; END]) with 2; lia).
  change MAX_PIECES with 262144 in Hp. change MAX_TEXT_BYTES with 65536 in *. lia.
Qed.

(** C26: the index never loses a row.  A pattern is refused exactly when the
    matcher refuses it; otherwise every text that matches holds, in its trigram
    analysis, every piece the pattern requires, [LIKE] or [ILIKE], with a pinned
    Unicode or another; the pieces are sorted, distinct and at most 256. *)
Theorem trigram_required_sound pattern escape i text :
  scalars pattern → scalars text →
  match required pinned pattern escape i, Like.compile pattern escape i with
  | Ok pieces, Ok m =>
      StronglySorted bytes_lt pieces ∧ blen pieces ≤ MAX_REQUIRED_PIECES ∧
      (Like.matches m text = true → ∀ a, analyze text = Ok a → ∀ w, w ∈ pieces → is_Some (terms a !! w))
  | Err _, Err _ => True
  | _, _ => False
  end.
Proof using LL ML FL.
  intros Hp Ht. pose proof (Like.compile_ok pattern escape i text Hp Ht) as Hc.
  pose proof (tokens_dangling escape (length pattern) pattern ltac:(lia)) as Hd. unfold required.
  destruct (tokens_of pattern escape) as [tokens|why] eqn:Htok; cbn [rbind is_ok] in *.
  2: { destruct (Like.compile _ _ _); [|done]. destruct Hc as [Hc _]. by rewrite Hc in Hd. }
  destruct (Like.compile _ _ _) as [m|]; [|by rewrite Hc in Hd]. destruct Hc as [_ Hm].
  assert (sorted_pieces (cut_runs (i && negb pinned) tokens tokens 0 0 [] [])) as [Hs Hn].
  { assert (∀ ts at_ from run pieces, sorted_pieces pieces → sorted_pieces (cut_runs (i && negb pinned) tokens ts at_ from run pieces)) as Hall.
    { induction ts as [|[c|] ts IH]; intros at_ from run pieces Hs; cbn [cut_runs]; [by apply cut_spec|by apply IH|apply IH; by apply cut_spec]. }
    apply Hall. split; [constructor|done]. }
  split; [done|]. split; [done|]. intros Hmat a Ha w Hw. apply Hm, pattern_tokens in Hmat as (ts & Hts & Htm).
  rewrite Htok in Hts. apply Ok_inj in Hts as <-.
  destruct (cut_runs_sound i text tokens tokens [] [] []) as [Hin _]; [done|done|by intros ? ?%elem_of_nil|split; [constructor|done]|].
  unfold analyze, marked in Ha. destruct (_ <? _); [done|]. cbn [rbind] in Ha.
  pose proof (count_pieces_spec (windows ([START; START] ++ fold text ++ [END; END])) [] empty_analysis analysis_of_empty) as Hr.
  rewrite Ha in Hr. destruct Hr as [_ Hr]. rewrite Hr. simpl app. rewrite decide_True by (by apply Hin). by eexists.
Qed.
End required_proofs.

(** * A sample: one letter beyond ASCII, the sigma *)
Section sample.
#[local] Instance sample_tables : Tables := {| ALNUM := [(913, 969)]; LOWER := [(931, [963])] |}.
#[local] Existing Instances Like.sample_lowercase Like.sample_memmem Like.sample_lowercase_laws Like.sample_memmem_laws.
Lemma sample_push_lower c : push_lower c [] = if c <? 128 then [ascii_lower c] else if c =? 931 then [963] else [c].
Proof.
  unfold push_lower, lower_entry, LOWER, sample_tables. rewrite filter_cons, filter_nil. cbn [fst]. destruct (c <? 128); [done|].
  case_bool_decide; subst; simpl; [done|]. by rewrite (proj2 (Z.eqb_neq c 931)).
Qed.
Lemma sample_fold c : fold [c] = if c =? 962 then [963] else push_lower c [].
Proof.
  unfold fold. simpl. rewrite app_nil_r, sample_push_lower. destruct (Z.eqb_spec c 962) as [->|Hc]; [done|].
  destruct (Z.ltb_spec c 128); [|destruct (Z.eqb_spec c 931)]; simpl; unfold one_sigma; try done.
  - rewrite (proj2 (Z.eqb_neq _ _)); [done|]. unfold ascii_lower. case_match; lia.
  - by rewrite (proj2 (Z.eqb_neq c 962)).
Qed.
Lemma sample_laws pinned : FoldLaws pinned.
Proof.
  split.
  - done.
  - intros s. cbn. generalize false. induction s as [|c s IH]; intros after; [done|]. cbn [Like.sample_lower map concat].
    rewrite !map_app, IH. f_equal. destruct (_ && _) eqn:Hs; [|done].
    apply andb_true_iff in Hs as [[->%Z.eqb_eq _]%andb_true_iff _]. done.
  - intros c. left. change (Like.char_lower c) with (Like.sample_char c). unfold Like.sample_char, Like.SIGMA. destruct (Z.eqb_spec c 931) as [->|]; [done|].
    destruct ((0 <=? c) && (c <? 128)) eqn:Hc; [|done]. apply andb_true_iff in Hc as [?%Z.leb_le ?%Z.ltb_lt].
    rewrite !sample_fold, !sample_push_lower.
    assert (ascii_lower c < 128 ∧ ascii_lower (ascii_lower c) = ascii_lower c) as [Hl ->] by (unfold ascii_lower; repeat case_match; lia).
    rewrite (proj2 (Z.ltb_lt _ _) Hl), (proj2 (Z.ltb_lt c 128)) by done. rewrite !(proj2 (Z.eqb_neq _ 962)) by lia. done.
Qed.
(** [%a!_Σ%] and [AbΣ]. *)
Example sample_required : required false [37; 65; 33; 95; 931; 98; 37] (Some 33) true = Ok [].
Proof. vm_compute. reflexivity. Qed.
Example sample_required_pinned : required true [97; 98; 95; 99; 100; 101; 37] None false = Ok [[2; 2; 97]; [2; 97; 98]; [99; 100; 101]].
Proof. vm_compute. reflexivity. Qed.

Lemma sample_trigram_analysis :
  match analyze [65; 931] with
  | Ok a => blen (encode [65; 931]) ≤ MAX_TEXT_BYTES ∧ analysis_of (windows ([START; START] ++ fold [65; 931] ++ [END; END])) a
  | Err why => why = long_text ∧ MAX_TEXT_BYTES < blen (encode [65; 931])
  end.
Proof.
  apply (trigram_analysis [65; 931]). intros c. rewrite sample_push_lower. pose proof (encode_char_length c) as Hl. unfold blen.
  destruct (c <? 128); [|destruct (c =? 931)]; simpl; lia.
Defined.
Lemma trigram_required_sound_witness :
  match required true [37; 65; 98; 931; 37] None true, Like.compile [37; 65; 98; 931; 37] None true with
  | Ok pieces, Ok m =>
      StronglySorted bytes_lt pieces ∧ blen pieces ≤ MAX_REQUIRED_PIECES ∧
      (Like.matches m [120; 97; 66; 963] = true → ∀ a, analyze [120; 97; 66; 963] = Ok a → ∀ w, w ∈ pieces → is_Some (terms a !! w))
  | Err _, Err _ => True
  | _, _ => False
  end.
Proof. apply (trigram_required_sound true (FL:=sample_laws true) [37; 65; 98; 931; 37] None true [120; 97; 66; 963]); repeat constructor. Defined.
End sample.
End Trigram.
