(* ===== verification/BuildAnalyzer.v ===== *)
(** * The build-side analyzer ([core/engine/src/index/text/analyzer.rs])

    [BuildAnalyzer]: terms are interned once for a whole build, and a document is
    a run of lookups and counter increments.  It is only allowed to be faster
    than [Analyzer.analyze] and [Trigram.analyze]. *)
From S2P Require Import Prelude Utf8 Analyzer Trigram.
Import Utf8.

Module BuildAnalyzer.
Import Analyzer.

(** The token buffer is empty between documents and is the argument of the loop
    during one.  [ids] and [touched] hold [u32]s. *)
Record BuildAnalyzer := mkBuild {
  ids : gmap (list Z) Z; names : list (list Z); frequency : list Z; touched : list Z;
  document : list (Z * Z); blength : Z; trigram : bool }.
Definition new (trigram : bool) : BuildAnalyzer := mkBuild ∅ [] [] [] [] 0 trigram.
Definition as_u32 (x : Z) : Z := x mod 2 ^ 32.

Definition with_length (b : BuildAnalyzer) (n : Z) := mkBuild (ids b) (names b) (frequency b) (touched b) (document b) n (trigram b).
Definition with_touched (b : BuildAnalyzer) (t : list Z) := mkBuild (ids b) (names b) (frequency b) t (document b) (blength b) (trigram b).
Definition with_frequency (b : BuildAnalyzer) (f : list Z) := mkBuild (ids b) (names b) f (touched b) (document b) (blength b) (trigram b).

Definition intern (token : list Z) (b : BuildAnalyzer) : BuildAnalyzer * Z :=
  match ids b !! token with
  | Some id => (b, id)
  | None =>
      let id := blen (names b) in
      (mkBuild (<[token := as_u32 id]> (ids b)) (names b ++ [token]) (frequency b ++ [0]) (touched b) (document b) (blength b) (trigram b), id)
  end.
(** The counter of an interned term, under the bound on a document's distinct
    ones.  An error [None] is an index out of range. *)
Definition count_id (b : BuildAnalyzer) (id : Z) : BuildAnalyzer * result (option string) unit :=
  match frequency b !! Z.to_nat id with
  | None => (b, Err None)
  | Some f =>
      if (f =? 0) && trigram b && (blen (touched b) =? Trigram.MAX_PIECES) then (b, Err (Some Trigram.too_many_pieces)) else
      if (f =? 0) && negb (trigram b) && (blen (touched b) =? MAX_TERMS) then (b, Err (Some too_many_terms)) else
      let b := if f =? 0 then with_touched b (touched b ++ [as_u32 id]) else b in
      (with_frequency b (<[Z.to_nat id := f + 1]> (frequency b)), Ok tt)
  end.
Definition finish_token (token : list Z) (b : BuildAnalyzer) : BuildAnalyzer * result (option string) unit :=
  if bool_decide (token = []) then (b, Ok tt) else
  if negb (trigram b) && (blength b =? MAX_TOKENS) then (b, Err (Some too_many_tokens)) else
  let b := with_length b (blength b + 1) in
  let '(b, id) := intern token b in
  count_id b id.
Fixpoint finish_windows (ws : list (list Z)) (b : BuildAnalyzer) : BuildAnalyzer * result (option string) unit :=
  match ws with [] => (b, Ok tt) | w :: ws => andthen (finish_token w b) (finish_windows ws) end.
Definition answered (o : BuildAnalyzer * result (option string) unit) : BuildAnalyzer * result (option string) Z :=
  match o with (b, Ok _) => (b, Ok (blength b)) | (b, Err e) => (b, Err e) end.
Section build.
Context `{Tables}.
Definition run (text : list Z) (b : BuildAnalyzer) : BuildAnalyzer * result (option string) Z :=
  if MAX_TEXT_BYTES <? blen (encode text) then (b, Err (Some long_text)) else
  let b := with_length b 0 in
  if trigram b then
    match Trigram.marked text with
    | Err e => (b, Err (Some e))
    | Ok chars => answered (finish_windows (Trigram.windows chars) b)
    end
  else answered (scan (Some (Some long_term)) finish_token text [] b).
(** What a document touched is answered on success, and zeroed either way. *)
Fixpoint drain (ok : bool) (touched frequency : list Z) (document : list (Z * Z)) : option (list Z * list (Z * Z)) :=
  match touched with
  | [] => Some (frequency, document)
  | id :: touched =>
      f ← frequency !! Z.to_nat id;
      drain ok touched (<[Z.to_nat id := 0]> frequency) (if ok then document ++ [(id, f)] else document)
  end.
Definition analyze (text : list Z) (b : BuildAnalyzer) : BuildAnalyzer * result (option string) Z :=
  let '(b, outcome) := run text b in
  match drain (is_ok outcome) (touched b) (frequency b) [] with
  | None => (b, Err None)
  | Some (frequency, document) => (mkBuild (ids b) (names b) frequency [] document (blength b) (trigram b), outcome)
  end.
(** A build: one document after another, with the names of its terms. *)
Definition named (b : BuildAnalyzer) : list (list Z * Z) := map (λ d, (names b !!! Z.to_nat d.1, d.2)) (document b).
Fixpoint build (texts : list (list Z)) (b : BuildAnalyzer) : BuildAnalyzer * list (result (option string) (Z * list (list Z * Z))) :=
  match texts with
  | [] => (b, [])
  | text :: texts =>
      let '(b, o) := analyze text b in
      let r := rmap (λ n, (n, named b)) o in
      let '(b, rs) := build texts b in (b, r :: rs)
  end.
(** The analyzer it stands in for. *)
Definition oracle (trigram : bool) (text : list Z) : result string Analysis :=
  if trigram then Trigram.analyze text else Analyzer.analyze text.
End build.

(** * What the state means *)
Definition interned (b : BuildAnalyzer) : Prop :=
  NoDup (names b) ∧ length (frequency b) = length (names b) ∧
  (∀ w id, ids b !! w = Some id ↔ 0 ≤ id ∧ names b !! Z.to_nat id = Some w) ∧
  Forall (λ f, 0 ≤ f) (frequency b) ∧
  NoDup (touched b) ∧ (∀ id, id ∈ touched b ↔ 0 ≤ id ∧ ∃ f, frequency b !! Z.to_nat id = Some f ∧ f ≠ 0).
Definition idle (b : BuildAnalyzer) : Prop := interned b ∧ touched b = [].
(** The document so far is the analysis [r]. *)
Definition shows (b : BuildAnalyzer) (r : Analysis) : Prop :=
  blength b = alen r ∧
  ∀ w c, terms r !! w = Some c ↔ ∃ id, names b !! id = Some w ∧ frequency b !! id = Some c ∧ c ≠ 0.
Definition fits (b : BuildAnalyzer) : Prop := blen (names b) ≤ 2 ^ 32.

Lemma as_u32_small x : 0 ≤ x < 2 ^ 32 → as_u32 x = x.
Proof. intros. unfold as_u32. by apply Z.mod_small. Qed.
Lemma intern_ok b w :
  interned b → let '(b', id) := intern w b in fits b' →
  interned b' ∧ 0 ≤ id ∧ names b' !! Z.to_nat id = Some w ∧ touched b' = touched b ∧ trigram b' = trigram b ∧ blength b' = blength b ∧
  ∀ r, shows b r → shows b' r.
Proof.
  intros (Hnd & Hlen & Hids & Hf & Htn & Ht). unfold intern. destruct (ids b !! w) as [id|] eqn:Hid.
  { intros _. apply Hids in Hid as [? ?]. split_and!; done. }
  unfold fits. cbn [names]. rewrite blen_app. change (blen [w]) with 1. intros Hfit.
  assert (w ∉ names b) as Hw.
  { intros [i Hi]%list_elem_of_lookup. assert (ids b !! w = Some (Z.of_nat i)) as Hs; [|congruence]. apply Hids. rewrite Nat2Z.id. split; [lia|done]. }
  pose proof (blen_nonneg (names b)). rewrite as_u32_small by lia.
  assert (Z.to_nat (blen (names b)) = length (names b)) as Hn by (unfold blen; lia).
  split; [|split_and!; try done].
  - split_and!; cbn [names frequency ids touched].
    + apply NoDup_app. split_and!; [done|set_solver|apply NoDup_singleton].
    + rewrite !length_app. simpl. lia.
    + intros w' id. destruct (decide (w' = w)) as [->|Hne].
      * rewrite lookup_insert_eq. split.
        -- intros [= <-]. split; [done|]. rewrite Hn. by apply list_lookup_middle.
        -- intros [? [Hi|[Hge Hi]]%lookup_app_Some]; [by apply list_elem_of_lookup_2 in Hi|].
           assert (Z.to_nat id - length (names b) = 0)%nat by (apply lookup_lt_Some in Hi; simpl in Hi; lia). f_equal. unfold blen. lia.
      * rewrite lookup_insert_ne, Hids by done. split; (intros [? Hi]; split; [done|]).
        -- by apply lookup_app_l_Some.
        -- apply lookup_app_Some in Hi as [|[_ Hi]]; [done|]. apply list_elem_of_lookup_2, list_elem_of_singleton in Hi. done.
    + apply Forall_app. split; [done|]. by repeat constructor.
    + done.
    + intros id. rewrite Ht. split; (intros [? (f & Hi & Hnz)]; split; [done|]; exists f; split; [|done]).
      * by apply lookup_app_l_Some.
      * apply lookup_app_Some in Hi as [|[_ Hi]]; [done|]. apply list_elem_of_lookup_2, list_elem_of_singleton in Hi. done.
  - cbn [names]. rewrite Hn. by apply list_lookup_middle.
  - intros r [Hl Hs]. split; [done|]. intros w' c. rewrite Hs. cbn [names frequency]. split; intros (i & Hi & Hfi & Hc).
    + exists i. split_and!; [by apply lookup_app_l_Some..|done].
    + apply lookup_app_Some in Hfi as [Hfi|[_ Hfi]].
      * exists i. split_and!; [|done..]. apply lookup_lt_Some in Hfi. rewrite lookup_app_l in Hi by lia. done.
      * apply list_elem_of_lookup_2, list_elem_of_singleton in Hfi. done.
Qed.

(** Names are only added. *)
Lemma intern_grows b w : names b `prefix_of` names (intern w b).1.
Proof. unfold intern. destruct (ids b !! w); [done|]. by exists [w]. Qed.
Lemma count_id_same b id : names (count_id b id).1 = names b ∧ trigram (count_id b id).1 = trigram b.
Proof. unfold count_id. destruct (frequency b !! _) as [f|]; [|done]. repeat match goal with |- context [if ?c then _ else _] => destruct c end; done. Qed.
Lemma finish_token_grows b w : names b `prefix_of` names (finish_token w b).1.
Proof.
  unfold finish_token. case_bool_decide; [done|]. destruct (_ && _); [done|].
  pose proof (intern_grows (with_length b (blength b + 1)) w) as Hg. destruct (intern w _) as [b1 id].
  by rewrite (proj1 (count_id_same b1 id)).
Qed.
Lemma fits_grows b b' : names b `prefix_of` names b' → fits b' → fits b.
Proof. intros [l Hl]. unfold fits. rewrite Hl, blen_app. pose proof (blen_nonneg l). lia. Qed.

(** One word, or one piece, of the analyzer it stands in for. *)
Definition count_step (trigram : bool) : list Z → Analysis → Analysis * result string unit :=
  if trigram then count_term Trigram.MAX_PIECES Trigram.too_many_pieces else count_term MAX_TERMS too_many_terms.
Definition oracle_step (trigram : bool) (w : list Z) (r : Analysis) : Analysis * result string unit :=
  if bool_decide (w = []) then (r, Ok tt) else
  if negb trigram && (alen r =? MAX_TOKENS) then (r, Err too_many_tokens) else
  count_step trigram w (mkAnalysis (alen r + 1) (terms r)).

Lemma touched_name b id : interned b → id ∈ touched b → names b !! Z.to_nat id = Some (names b !!! Z.to_nat id).
Proof.
  intros (_ & Hlen & _ & _ & _ & Ht) (? & f & Hf & _)%Ht. apply list_lookup_lookup_total_lt. apply lookup_lt_Some in Hf. lia.
Qed.
Lemma touched_names b : interned b → NoDup (map (λ id, names b !!! Z.to_nat id) (touched b)).
Proof.
  intros Hb. pose proof Hb as (Hnd & _ & _ & _ & Htn & Ht). apply NoDup_fmap_2_strong; [|done]. intros x y Hx Hy He.
  pose proof (touched_name b x Hb Hx) as H1. pose proof (touched_name b y Hb Hy) as H2. rewrite He in H1.
  apply Ht in Hx as [? _], Hy as [? _]. rewrite <-(Z2Nat.id x), <-(Z2Nat.id y) by done. f_equal.
  by apply (NoDup_lookup (names b) _ _ (names b !!! Z.to_nat y)).
Qed.
(** The terms of a document are those it touched, with their counters. *)
Lemma shows_touched b r w c :
  interned b → shows b r →
  terms r !! w = Some c ↔ (w, c) ∈ map (λ id, (names b !!! Z.to_nat id, frequency b !!! Z.to_nat id)) (touched b).
Proof.
  intros Hb [_ Hs]. pose proof Hb as (_ & Hlen & _ & _ & _ & Ht). rewrite Hs, list_elem_of_fmap. split.
  - intros (id & Hw & Hf & Hc). exists (Z.of_nat id). rewrite Nat2Z.id.
    split; [|apply Ht; rewrite Nat2Z.id; split; [lia|eauto]]. by rewrite (list_lookup_total_correct _ _ _ Hw), (list_lookup_total_correct _ _ _ Hf).
  - intros (id & [= -> ->] & Hid). exists (Z.to_nat id). pose proof (touched_name b id Hb Hid). apply Ht in Hid as (_ & f & Hf & Hnz).
    by rewrite (list_lookup_total_correct _ _ _ Hf).
Qed.
Lemma shows_map b r :
  interned b → shows b r →
  NoDup (map (λ id, (names b !!! Z.to_nat id, frequency b !!! Z.to_nat id)) (touched b)).*1 ∧
  list_to_map (map (λ id, (names b !!! Z.to_nat id, frequency b !!! Z.to_nat id)) (touched b)) = terms r.
Proof.
  intros Hb Hs. assert (NoDup (map (λ id, (names b !!! Z.to_nat id, frequency b !!! Z.to_nat id)) (touched b)).*1) as Hnd.
  { rewrite <-list_fmap_compose. by apply touched_names. }
  split; [done|]. apply map_eq_iff. intros w. apply option_eq. intros c. rewrite <-elem_of_list_to_map by done. symmetry. by apply shows_touched.
Qed.
Lemma shows_size b r : interned b → shows b r → blen (touched b) = Z.of_nat (size (terms r)).
Proof.
  intros Hb Hs. destruct (shows_map b r Hb Hs) as [Hnd <-]. unfold blen. f_equal.
  rewrite <-(size_dom (D:=gset (list Z))), dom_list_to_map_L, size_list_to_set by done. by rewrite !length_map.
Qed.
(** The counter of one word. *)
Lemma count_ok b r w id f :
  interned b → shows b r → 0 ≤ id < 2 ^ 32 → names b !! Z.to_nat id = Some w → frequency b !! Z.to_nat id = Some f →
  let b' := if f =? 0 then with_touched b (touched b ++ [as_u32 id]) else b in
  let b'' := with_frequency b' (<[Z.to_nat id := f + 1]> (frequency b')) in
  interned b'' ∧ shows b'' (mkAnalysis (alen r) (<[w := f + 1]> (terms r))).
Proof.
  intros (Hnd & Hlen & Hids & Hf & Htn & Ht) [Hl Hs] Hid Hw Hfi. cbv zeta. rewrite as_u32_small by done.
  assert (0 ≤ f) as Hpos by (by apply (Forall_lookup_1 _ _ _ _ Hf Hfi)). pose proof (lookup_lt_Some _ _ _ Hfi) as Hlt.
  assert (touched (if f =? 0 then with_touched b (touched b ++ [id]) else b) = if f =? 0 then touched b ++ [id] else touched b) as Htou by (by destruct (f =? 0)).
  assert (∀ x, x ∈ (if f =? 0 then touched b ++ [id] else touched b) ↔ x = id ∨ x ∈ touched b) as Hel.
  { intros x. destruct (Z.eqb_spec f 0); [set_solver|]. split; [by right|]. intros [->|]; [|done]. apply Ht. split; [lia|eauto]. }
  split.
  - unfold interned. cbn [names frequency ids touched with_frequency]. rewrite Htou.
    replace (names (if f =? 0 then _ else b)) with (names b) by (by destruct (f =? 0)).
    replace (ids (if f =? 0 then _ else b)) with (ids b) by (by destruct (f =? 0)).
    replace (frequency (if f =? 0 then _ else b)) with (frequency b) by (by destruct (f =? 0)).
    split_and!; [done|by rewrite length_insert|done|by apply Forall_insert; [|lia]| |].
    + destruct (Z.eqb_spec f 0) as [->|]; [|done]. apply NoDup_app. split_and!; [done| |apply NoDup_singleton].
      intros x Hx ->%list_elem_of_singleton. apply Ht in Hx as (_ & f' & Hf' & ?). congruence.
    + intros x. rewrite Hel. destruct (decide (Z.to_nat x = Z.to_nat id)) as [He|He].
      * rewrite He, list_lookup_insert_eq by done. split; [|intros [? _]; left; lia]. intros [->|Hx].
        -- split; [lia|]. exists (f + 1). split; [done|lia].
        -- apply Ht in Hx as [? _]. split; [done|]. exists (f + 1). split; [done|lia].
      * rewrite list_lookup_insert_ne by done. rewrite <-Ht. split; [intros [->|]; done|by right].
  - split; [cbn; destruct (f =? 0); done|]. intros w' c. cbn [terms names frequency with_frequency].
    replace (names (if f =? 0 then _ else b)) with (names b) by (by destruct (f =? 0)).
    replace (frequency (if f =? 0 then _ else b)) with (frequency b) by (by destruct (f =? 0)).
    destruct (decide (w' = w)) as [->|Hne].
    + rewrite lookup_insert_eq. split.
      * intros [= <-]. exists (Z.to_nat id). rewrite list_lookup_insert_eq by done. split_and!; [done..|lia].
      * intros (i & Hi & Hc & _). assert (i = Z.to_nat id) as -> by (by apply (NoDup_lookup (names b) _ _ w)).
        rewrite list_lookup_insert_eq in Hc by done. done.
    + rewrite lookup_insert_ne, Hs by done. split; intros (i & Hi & Hc & ?); exists i;
        (assert (Z.to_nat id ≠ i) by (intros <-; congruence)); rewrite list_lookup_insert_ne in * by done; done.
Qed.

Definition lifted (o : result string unit) : result (option string) unit :=
  match o with Ok u => Ok u | Err why => Err (Some why) end.
Lemma shows_next b r : shows b r → shows (with_length b (blength b + 1)) (mkAnalysis (alen r + 1) (terms r)).
Proof. intros [Hl Hs]. split; [cbn; lia|done]. Qed.
Lemma shows_lookup b r id w f :
  interned b → shows b r → names b !! Z.to_nat id = Some w → frequency b !! Z.to_nat id = Some f →
  terms r !! w = if f =? 0 then None else Some f.
Proof.
  intros Hb [_ Hs] Hw Hf. destruct (Z.eqb_spec f 0) as [->|Hnz].
  - destruct (terms r !! w) as [c|] eqn:Hc; [|done]. apply Hs in Hc as (i & Hi & Hfi & Hc).
    assert (i = Z.to_nat id) as -> by (destruct Hb as [Hnd _]; by apply (NoDup_lookup (names b) _ _ w)). congruence.
  - apply Hs. eauto.
Qed.
Lemma count_id_sim b r w id :
  interned b → shows b r → 0 ≤ id < 2 ^ 32 → names b !! Z.to_nat id = Some w →
  let '(b', o) := count_id b id in
  interned b' ∧ let '(r', o') := count_step (trigram b) w r in o = lifted o' ∧ (o' = Ok tt → shows b' r').
Proof.
  intros Hb Hs Hid Hw. unfold count_id. destruct (frequency b !! Z.to_nat id) as [f|] eqn:Hf.
  2: { destruct Hb as (_ & Hlen & _). apply lookup_lt_Some in Hw. apply lookup_ge_None in Hf. lia. }
  pose proof (shows_lookup b r id w f Hb Hs Hw Hf) as Hterm. rewrite (shows_size b r Hb Hs).
  pose proof (count_ok b r w id f Hb Hs Hid Hw Hf) as Hcnt. cbv zeta in Hcnt. unfold count_step, count_term.
  destruct (trigram b), (Z.eqb_spec f 0) as [->|]; cbn [andb negb]; rewrite Hterm; try (destruct (Z.of_nat _ =? _); [done|]).
  all: destruct Hcnt; done.
Qed.
Lemma finish_token_sim b r w :
  interned b → shows b r → let '(b', o) := finish_token w b in fits b' →
  interned b' ∧ trigram b' = trigram b ∧
  let '(r', o') := oracle_step (trigram b) w r in o = lifted o' ∧ (o' = Ok tt → shows b' r').
Proof.
  intros Hb Hs. unfold finish_token, oracle_step. case_bool_decide as Hw; [done|]. rewrite <-(proj1 Hs).
  destruct (negb (trigram b) && (blength b =? MAX_TOKENS)); [done|]. rewrite (proj1 Hs).
  pose proof (shows_next b r Hs) as Hs1. rewrite (proj1 Hs) in Hs1. pose proof (intern_ok (with_length b (alen r + 1)) w Hb) as Hi.
  destruct (intern w (with_length b (alen r + 1))) as [b1 id]. destruct (count_id_same b1 id) as [Hn Ht].
  pose proof (count_id_sim b1 (mkAnalysis (alen r + 1) (terms r)) w id) as Hc.
  destruct (count_id b1 id) as [b2 o]. cbn [fst] in Hn, Ht. unfold fits. rewrite Hn. intros Hfit.
  destruct (Hi Hfit) as (Hb1 & Hid & Hnm & _ & Htri & _ & Hall). rewrite Htri in *.
  destruct Hc as [? ?]; [done|by apply Hall| |done|done].
  apply lookup_lt_Some in Hnm. unfold fits, blen in Hfit. lia.
Qed.

(** ** One document *)
Lemma each_grows bound ws b : names b `prefix_of` names (each bound finish_token ws b).1.
Proof.
  revert b. induction ws as [|w ws IH]; intros b; [done|]. cbn [each]. destruct (too_long bound w); [done|].
  pose proof (finish_token_grows b w) as Hg. destruct (finish_token w b) as [b1 [[]|]]; cbn [andthen fst] in *; [by etrans|done].
Qed.
Lemma each_sim (bound : option string) ws b r :
  interned b → shows b r → let '(b', o) := each (Some <$> bound) finish_token ws b in fits b' →
  interned b' ∧ trigram b' = trigram b ∧
  let '(r', o') := each bound (oracle_step (trigram b)) ws r in o = lifted o' ∧ (o' = Ok tt → shows b' r').
Proof.
  revert b r. induction ws as [|w ws IH]; intros b r Hb Hs; [done|]. cbn [each].
  assert (too_long (Some <$> bound) w = Some <$> too_long bound w) as -> by (unfold too_long; by destruct (_ <? _)).
  destruct (too_long bound w) as [e|]; [done|]. cbn [fmap option_fmap option_map].
  pose proof (finish_token_sim b r w Hb Hs) as Hf. destruct (finish_token w b) as [b1 o1].
  pose proof (each_grows (Some <$> bound) ws b1) as Hg. destruct o1 as [[]|e1]; cbn [andthen].
  - destruct (each (Some <$> bound) finish_token ws b1) as [b2 o2] eqn:He. intros Hfit.
    destruct Hf as (Hb1 & Ht & Hf); [by eapply fits_grows|]. destruct (oracle_step (trigram b) w r) as [r1 [[]|]]; [|by destruct Hf].
    destruct Hf as [_ Hs1]. cbn [andthen]. specialize (IH b1 r1 Hb1 (Hs1 eq_refl)). rewrite He, Ht in IH. by apply IH.
  - intros Hfit. destruct (Hf Hfit) as (? & ? & Hr). split; [done|]. split; [done|].
    destruct (oracle_step (trigram b) w r) as [r1 [[]|]]; [by destruct Hr|done].
Qed.
Lemma finish_windows_each ws b : finish_windows ws b = each None finish_token ws b.
Proof.
  revert b. induction ws as [|w ws IH]; intros b; [done|]. cbn [finish_windows each].
  assert (too_long (@None (option string)) w = None) as -> by (unfold too_long; by destruct (_ <? _)).
  destruct (finish_token w b) as [b1 [[]|]]; [apply IH|done].
Qed.
Lemma count_pieces_each ws r :
  Forall (λ w, w ≠ []) ws →
  Trigram.count_pieces ws r = match each None (oracle_step true) ws r with (r, Ok _) => Ok r | (_, Err e) => Err e end.
Proof.
  intros Hws. revert r. induction Hws as [|w ws Hw _ IH]; intros r; [done|]. cbn [Trigram.count_pieces each].
  assert (too_long (@None string) w = None) as -> by (unfold too_long; by destruct (_ <? _)).
  unfold oracle_step at 1. rewrite bool_decide_eq_false_2 by done. unfold count_step, count_term. cbn [negb andb terms alen].
  destruct (terms r !! w); [apply IH|]. destruct (_ =? _); [done|apply IH].
Qed.
Lemma windows_nonempty chars : Forall (λ w, w ≠ []) (Trigram.windows chars).
Proof. apply Forall_forall. intros w [Hl _]%Trigram.windows_spec ->. done. Qed.

Lemma drain_spec ok ts : ∀ freq doc,
  NoDup ts → (∀ id, id ∈ ts → 0 ≤ id ∧ (Z.to_nat id < length freq)%nat) →
  ∃ freq', drain ok ts freq doc = Some (freq', doc ++ if ok then map (λ id, (id, freq !!! Z.to_nat id)) ts else []) ∧
    length freq' = length freq ∧
    ∀ i : nat, freq' !! i = (if decide (Z.of_nat i ∈ ts) then Some 0 else freq !! i).
Proof.
  induction ts as [|id ts IH]; intros freq doc Hnd Hin.
  { exists freq. simpl. split; [by destruct ok; rewrite app_nil_r|]. split; done. }
  apply NoDup_cons in Hnd as [Hid Hnd]. destruct (Hin id) as [H0 Hlt]; [by left|]. cbn [drain].
  rewrite (list_lookup_lookup_total_lt _ _ Hlt). cbn [mbind option_bind].
  destruct (IH (<[Z.to_nat id:=0]> freq) (if ok then doc ++ [(id, freq !!! Z.to_nat id)] else doc) Hnd) as (freq' & -> & Hl & Hf).
  { intros x Hx. rewrite length_insert. apply Hin. by right. }
  rewrite length_insert in Hl. exists freq'. split; [|split; [done|]].
  - do 2 f_equal. destruct ok; [|done]. rewrite <-app_assoc. simpl. do 2 f_equal. apply map_ext_in. intros x Hx%list_elem_of_In.
    rewrite list_lookup_total_insert_ne; [done|]. intros He. destruct (Hin x) as [? _]; [by right|].
    assert (id = x) as -> by lia. done.
  - intros i. rewrite Hf. destruct (decide (Z.of_nat i ∈ ts)); [by rewrite decide_True by (by right)|].
    destruct (decide (Z.of_nat i = id)) as [<-|Hne].
    + rewrite decide_True by (by left). rewrite Nat2Z.id in *. by apply list_lookup_insert_eq.
    + rewrite decide_False by set_solver. apply list_lookup_insert_ne. lia.
Qed.

Section proofs.
Context `{Tables}.
Lemma oracle_step_words : oracle_step false = finish.
Proof using. done. Qed.
Lemma shows_idle b : idle b → shows (with_length b 0) empty_analysis.
Proof using.
  intros [(Hnd & Hlen & _ & _ & _ & Ht) He]. split; [done|]. intros w c. change (terms empty_analysis) with (∅ : gmap (list Z) Z). rewrite lookup_empty. split; [done|].
  intros (id & _ & Hf & Hc). rewrite He in Ht. assert (Z.of_nat id ∈ @nil Z) as Hin by (apply Ht; rewrite Nat2Z.id; split; [lia|eauto]).
  by apply elem_of_nil in Hin.
Qed.
Lemma run_grows text b : names b `prefix_of` names (run text b).1.
Proof using.
  unfold run. destruct (_ <? _); [done|]. cbv zeta. destruct (trigram (with_length b 0)).
  - destruct (Trigram.marked text) as [chars|]; [|done]. rewrite finish_windows_each.
    pose proof (each_grows None (Trigram.windows chars) (with_length b 0)) as Hg. by destruct (each _ _ _ _) as [? [|]].
  - rewrite scan_each. pose proof (each_grows (Some (Some long_term)) (raw_words text) (with_length b 0)) as Hg. by destruct (each _ _ _ _) as [? [|]].
Qed.
(** What a document's run leaves, and what it answers. *)
Lemma answered_ok tri b o r (o' : result string unit) :
  (fits b → interned b ∧ trigram b = tri ∧ o = lifted o' ∧ (o' = Ok tt → shows b r)) →
  let '(b', out) := answered (b, o) in fits b' →
  interned b' ∧ trigram b' = tri ∧
  match (match o' with Ok _ => Ok r | Err e => Err e end) with
  | Ok a => out = Ok (alen a) ∧ shows b' a
  | Err why => out = Err (Some why)
  end.
Proof using.
  intros Hb. destruct o as [[]|e]; cbn [answered]; intros Hfit; destruct (Hb Hfit) as (? & ? & Ho & Hs); destruct o' as [[]|]; try done.
  - destruct (Hs eq_refl) as [<- ?]. split_and!; auto.
  - by injection Ho as ->.
Qed.
Lemma run_sim text b :
  idle b → let '(b', o) := run text b in fits b' →
  interned b' ∧ trigram b' = trigram b ∧
  match oracle (trigram b) text with
  | Ok a => o = Ok (alen a) ∧ shows b' a
  | Err why => o = Err (Some why)
  end.
Proof using.
  intros Hb. pose proof (shows_idle b Hb) as Hs. destruct Hb as [Hb He].
  unfold run, oracle, Trigram.analyze, Trigram.marked. rewrite analyze_each.
  destruct (MAX_TEXT_BYTES <? blen (encode text)); [by destruct (trigram b)|]. cbv zeta. cbn [rbind].
  change (trigram (with_length b 0)) with (trigram b). destruct (trigram b) eqn:Ht.
  - rewrite finish_windows_each, count_pieces_each by apply windows_nonempty.
    set (ws := Trigram.windows _). pose proof (each_sim None ws (with_length b 0) empty_analysis Hb Hs) as Hsim.
    change (trigram (with_length b 0)) with (trigram b) in Hsim. rewrite Ht in Hsim. cbn [fmap option_fmap option_map] in Hsim.
    destruct (each None finish_token _ _) as [b' o], (each None (oracle_step true) _ _) as [r o']. by apply answered_ok.
  - rewrite scan_each. pose proof (each_sim (Some long_term) (raw_words text) (with_length b 0) empty_analysis Hb Hs) as Hsim.
    change (trigram (with_length b 0)) with (trigram b) in Hsim. rewrite Ht, oracle_step_words in Hsim. cbn [fmap option_fmap option_map] in Hsim.
    destruct (each _ finish_token _ _) as [b' o], (each _ finish _ _) as [r o']. by apply answered_ok.
Qed.

Lemma analyze_sim text b :
  idle b → let '(b', o) := analyze text b in fits b' →
  idle b' ∧ trigram b' = trigram b ∧
  match oracle (trigram b) text with
  | Ok a => o = Ok (alen a) ∧ NoDup (named b').*1 ∧ list_to_map (named b') = terms a
  | Err why => o = Err (Some why)
  end.
Proof using.
  intros Hb. unfold analyze. pose proof (run_sim text b Hb) as Hr. destruct (run text b) as [b1 o].
  destruct (drain (is_ok o) (touched b1) (frequency b1) []) as [[freq doc]|] eqn:Hd.
  2: { intros Hfit. destruct (Hr Hfit) as ((_ & _ & _ & _ & Htn & Ht) & _).
       destruct (drain_spec (is_ok o) (touched b1) (frequency b1) [] Htn) as (? & ? & _); [|congruence].
       intros id (? & f & Hf & _)%Ht. by apply lookup_lt_Some in Hf. }
  intros Hfit. destruct (Hr Hfit) as (Hi & Htri & Ho). clear Hr Hfit. pose proof Hi as (Hnd & Hlen & Hids & Hpos & Htn & Ht).
  destruct (drain_spec (is_ok o) (touched b1) (frequency b1) [] Htn) as (freq' & Hd' & Hl & Hf).
  { intros id (? & f & Hf & _)%Ht. by apply lookup_lt_Some in Hf. }
  rewrite Hd in Hd'. injection Hd' as -> ->.
  assert (∀ i f, freq' !! i = Some f → f = 0) as Hzero.
  { intros i f. rewrite Hf. case_decide as Hin; [by intros [= <-]|]. intros Hfi. destruct (decide (f = 0)); [done|]. exfalso. apply Hin, Ht.
    rewrite Nat2Z.id. split; [lia|eauto]. }
  split; [split; [|done]|split; [done|]].
  - split_and!; cbn [names frequency ids touched]; [done|lia|done| |constructor|].
    + apply Forall_lookup. intros i f Hi'. by rewrite (Hzero i f Hi').
    + intros id. split; [by intros ?%elem_of_nil|]. intros (_ & f & Hi' & Hnz). by apply Hzero in Hi'.
  - destruct (oracle (trigram b) text) as [a|why]; [|done]. destruct Ho as [-> Hs]. split; [done|].
    pose proof (shows_map b1 a Hi Hs) as Hm. unfold named. cbn [document names is_ok]. rewrite (map_map (λ id, (id, frequency b1 !!! Z.to_nat id))). exact Hm.
Qed.
Lemma analyze_grows text b : names b `prefix_of` names (analyze text b).1.
Proof using.
  unfold analyze. pose proof (run_grows text b) as Hg. destruct (run text b) as [b1 o]. destruct (drain _ _ _ _) as [[]|]; done.
Qed.
Lemma build_grows texts b : names b `prefix_of` names (build texts b).1.
Proof using.
  revert b. induction texts as [|text texts IH]; intros b; [done|]. cbn [build]. pose proof (analyze_grows text b) as Hg.
  destruct (analyze text b) as [b1 o]. specialize (IH b1). destruct (build texts b1) as [b2 rs]. cbn [fst] in *. by etrans.
Qed.
Definition same (tri : bool) (text : list Z) (r : result (option string) (Z * list (list Z * Z))) : Prop :=
  match oracle tri text, r with
  | Ok a, Ok (n, d) => n = alen a ∧ NoDup d.*1 ∧ list_to_map d = terms a
  | Err why, Err (Some why') => why' = why
  | _, _ => False
  end.
Lemma build_sim texts b :
  idle b → let '(b', rs) := build texts b in fits b' → Forall2 (same (trigram b)) texts rs.
Proof using.
  revert b. induction texts as [|text texts IH]; intros b Hb; [constructor|]. cbn [build].
  pose proof (analyze_sim text b Hb) as Ha. destruct (analyze text b) as [b1 o]. pose proof (build_grows texts b1) as Hg.
  specialize (IH b1). destruct (build texts b1) as [b2 rs]. intros Hfit. destruct Ha as (Hb1 & Ht & Ho); [by eapply fits_grows|].
  constructor; [|rewrite <-Ht; by apply IH]. unfold same. destruct (oracle (trigram b) text) as [a|why]; [|by rewrite Ho]. by destruct Ho as [-> ?].
Qed.
Lemma new_idle tri : idle (new tri).
Proof using.
  split; [|done]. split_and!; try (by constructor); [|].
  - intros w id. cbn. rewrite lookup_empty, lookup_nil. naive_solver.
  - intros id. cbn. split; [by intros ?%elem_of_nil|]. intros (_ & f & Hf & _). by rewrite lookup_nil in Hf.
Qed.

End proofs.

Section sample.
#[local] Existing Instance Analyzer.sample_tables.
Example sample_build : (build [[65; 98; 45; 201; 32; 97; 66]; [97; 98; 46; 97; 98]] (new false)).2
  = [Ok (3, [([97; 98], 2); ([233], 1)]); Ok (2, [([97; 98], 2)])].
Proof. vm_compute. reflexivity. Qed.
End sample.
End BuildAnalyzer.
