(* ===== verification/Calendar.v ===== *)
(** * Dates and times of SQL ([lang/src/functions.rs])

    A timestamp is a count of microseconds since 1970-01-01 00:00:00 UTC in an
    [i64].  This file has the proleptic Gregorian calendar the functions compute
    with, [date_trunc], the unit's successor and [EXTRACT].  Arithmetic on
    [i64] is exact where it stays in range; a step that leaves it is [None]
    (Rust panics on it, or wraps when overflow checks are off). *)
From S2P Require Import Prelude Utf8.
Import Utf8.

Module Calendar.

Definition i64_chk (z : Z) : option Z := if (i64_min <=? z) && (z <=? i64_max) then Some z else None.

Definition MICROS_PER_SECOND : Z := 1000000.
Definition MICROS_PER_MINUTE : Z := 60 * MICROS_PER_SECOND.
Definition MICROS_PER_HOUR : Z := 60 * MICROS_PER_MINUTE.
Definition MICROS_PER_DAY : Z := 24 * MICROS_PER_HOUR.

(** [SqlError], without the messages that echo the statement ([Parameter] is a
    Rocq keyword). *)
Inductive SqlError := BadParameter | Unsupported.
#[global] Instance SqlError_eq_dec : EqDecision SqlError.
Proof. solve_decision. Defined.

Definition is_time_type (declared : string) : bool :=
  existsb (λ s, bool_decide (declared = s)) ["TIMESTAMPTZ"; "TIMESTAMP"; "DATE"]%string.

Inductive TimeUnit := Year | Month | Day | Hour | Minute | Second | Dow | Epoch.
#[global] Instance TimeUnit_eq_dec : EqDecision TimeUnit.
Proof. solve_decision. Defined.
Definition written (u : TimeUnit) : string :=
  match u with
  | Year => "year" | Month => "month" | Day => "day" | Hour => "hour"
  | Minute => "minute" | Second => "second" | Dow => "dow" | Epoch => "epoch"
  end.
Definition parse (word : bytes) : option TimeUnit :=
  let w := map ascii_lower word in
  if one_of w ["year"; "years"; "y"] then Some Year else
  if one_of w ["month"; "months"; "mon"] then Some Month else
  if one_of w ["day"; "days"; "d"] then Some Day else
  if one_of w ["hour"; "hours"; "h"] then Some Hour else
  if one_of w ["minute"; "minutes"; "min"] then Some Minute else
  if one_of w ["second"; "seconds"; "sec"] then Some Second else
  if one_of w ["dow"; "dayofweek"] then Some Dow else
  if one_of w ["epoch"] then Some Epoch else None.
Definition truncates (u : TimeUnit) : bool := match u with Dow | Epoch => false | _ => true end.

Record Civil := mkCivil { year : Z; month : Z; day : Z; hour : Z; minute : Z; second : Z; micro : Z }.
#[global] Instance Civil_eq_dec : EqDecision Civil.
Proof. solve_decision. Defined.

(** Hinnant's algorithms.  [Z.quot] is Rust's division where the dividend may
    be negative; the other divisions are of nonnegative numbers. *)
Definition days_from_civil (year month day : Z) : Z :=
  let y := if month <=? 2 then year - 1 else year in
  let era := Z.quot (if 0 <=? y then y else y - 399) 400 in
  let yoe := y - era * 400 in
  let m := month in
  let doy := (153 * (if 2 <? m then m - 3 else m + 9) + 2) / 5 + day - 1 in
  let doe := yoe * 365 + yoe / 4 - yoe / 100 + doy in
  era * 146097 + doe - 719468.
Definition civil_from_days (days : Z) : Z * Z * Z :=
  let z := days + 719468 in
  let era := Z.quot (if 0 <=? z then z else z - 146096) 146097 in
  let doe := z - era * 146097 in
  let yoe := (doe - doe / 1460 + doe / 36524 - doe / 146096) / 365 in
  let y := yoe + era * 400 in
  let doy := doe - (365 * yoe + yoe / 4 - yoe / 100) in
  let mp := (5 * doy + 2) / 153 in
  let d := doy - (153 * mp + 2) / 5 + 1 in
  let m := if mp <? 10 then mp + 3 else mp - 9 in
  (if m <=? 2 then y + 1 else y, m, d).
(** [div_euclid] by a positive divisor is floor division. *)
Definition floor_div_rem (a b : Z) : Z * Z := let q := a / b in (q, a - q * b).
Definition civil_from_micros (micros : Z) : Civil :=
  let '(days, rest) := floor_div_rem micros MICROS_PER_DAY in
  let '(year, month, day) := civil_from_days days in
  mkCivil year month day (rest / MICROS_PER_HOUR) (rest mod MICROS_PER_HOUR / MICROS_PER_MINUTE)
    (rest mod MICROS_PER_MINUTE / MICROS_PER_SECOND) (rest mod MICROS_PER_SECOND).
Definition micros_from_civil (c : Civil) : option Z :=
  a ← i64_chk (days_from_civil (year c) (month c) (day c) * MICROS_PER_DAY);
  a ← i64_chk (a + hour c * MICROS_PER_HOUR);
  a ← i64_chk (a + minute c * MICROS_PER_MINUTE);
  a ← i64_chk (a + second c * MICROS_PER_SECOND);
  i64_chk (a + micro c).

Definition at_midnight (y m d : Z) : Civil := mkCivil y m d 0 0 0 0.
Definition date_trunc (unit_ : TimeUnit) (micros : Z) : option (result SqlError Z) :=
  let c := civil_from_micros micros in
  match unit_ with
  | Year => v ← micros_from_civil (at_midnight (year c) 1 1); Some (Ok v)
  | Month => v ← micros_from_civil (at_midnight (year c) (month c) 1); Some (Ok v)
  | Day => v ← micros_from_civil (at_midnight (year c) (month c) (day c)); Some (Ok v)
  | Hour => v ← i64_chk (micros - micros mod MICROS_PER_HOUR); Some (Ok v)
  | Minute => v ← i64_chk (micros - micros mod MICROS_PER_MINUTE); Some (Ok v)
  | Second => v ← i64_chk (micros - micros mod MICROS_PER_SECOND); Some (Ok v)
  | Dow | Epoch => Some (Err Unsupported)
  end.
Definition next_unit (unit_ : TimeUnit) (start : Z) : option (result SqlError Z) :=
  let c := civil_from_micros start in
  match unit_ with
  | Year => v ← micros_from_civil (at_midnight (year c + 1) 1 1); Some (Ok v)
  | Month =>
      let '(y, m) := if month c =? 12 then (year c + 1, 1) else (year c, month c + 1) in
      v ← micros_from_civil (at_midnight y m 1); Some (Ok v)
  | Day => v ← i64_chk (start + MICROS_PER_DAY); Some (Ok v)
  | Hour => v ← i64_chk (start + MICROS_PER_HOUR); Some (Ok v)
  | Minute => v ← i64_chk (start + MICROS_PER_MINUTE); Some (Ok v)
  | Second => v ← i64_chk (start + MICROS_PER_SECOND); Some (Ok v)
  | Dow | Epoch => Some (Err Unsupported)
  end.
Definition extract (unit_ : TimeUnit) (micros : Z) : Z :=
  let c := civil_from_micros micros in
  match unit_ with
  | Year => year c
  | Month => month c
  | Day => day c
  | Hour => hour c
  | Minute => minute c
  | Second => second c
  | Dow => (micros / MICROS_PER_DAY + 4) mod 7
  | Epoch => micros / MICROS_PER_SECOND
  end.

(** * The Gregorian calendar, as it is defined *)
Definition leap (y : Z) : bool := (y mod 4 =? 0) && (negb (y mod 100 =? 0) || (y mod 400 =? 0)).
Definition month_days (y m : Z) : Z :=
  if m =? 2 then (if leap y then 29 else 28) else if bool_decide (m ∈ [4; 6; 9; 11]) then 30 else 31.
Definition next_day (c : Z * Z * Z) : Z * Z * Z :=
  let '(y, m, d) := c in
  if d <? month_days y m then (y, m, d + 1) else if m <? 12 then (y, m + 1, 1) else (y + 1, 1, 1).
Definition valid_date (c : Z * Z * Z) : Prop := let '(y, m, d) := c in 1 ≤ m ≤ 12 ∧ 1 ≤ d ≤ month_days y m.

(** ** Periods of 400 years *)
Lemma era_floor z n : 0 < n → Z.quot (if 0 <=? z then z else z - (n - 1)) n = z / n.
Proof.
  intros Hn. destruct (Z.leb_spec 0 z); [by apply Z.quot_div_nonneg; lia|].
  pose proof (Z.div_mod z n ltac:(lia)). pose proof (Z.mod_pos_bound z n Hn).
  rewrite <-(Z.opp_involutive (z - (n - 1))), Z.quot_opp_l by lia. rewrite Z.quot_div_nonneg by lia.
  rewrite <-(Z.div_unique_pos (- (z - (n - 1))) n (- (z / n)) (n - 1 - z mod n)); lia.
Qed.
Definition shift (k : Z) (c : Z * Z * Z) : Z * Z * Z := let '(y, m, d) := c in (y + 400 * k, m, d).
(** Both functions of the place in a period. *)
Definition civil_doe (doe : Z) : Z * Z * Z :=
  let yoe := (doe - doe / 1460 + doe / 36524 - doe / 146096) / 365 in
  let doy := doe - (365 * yoe + yoe / 4 - yoe / 100) in
  let mp := (5 * doy + 2) / 153 in
  let m := if mp <? 10 then mp + 3 else mp - 9 in
  (if m <=? 2 then yoe + 1 else yoe, m, doy - (153 * mp + 2) / 5 + 1).
Lemma civil_era d : civil_from_days d = shift ((d + 719468) / 146097) (civil_doe ((d + 719468) - (d + 719468) / 146097 * 146097)).
Proof.
  unfold civil_from_days. cbv zeta. pose proof (era_floor (d + 719468) 146097 eq_refl) as He.
  change (146097 - 1) with 146096 in He. rewrite He. clear He. set (era := (d + 719468) / 146097).
  set (doe := d + 719468 - era * 146097). clearbody era doe. unfold civil_doe. cbv zeta. cbn [shift].
  set (yoe := (doe - doe / 1460 + doe / 36524 - doe / 146096) / 365). clearbody yoe.
  set (mp := (5 * (doe - (365 * yoe + yoe / 4 - yoe / 100)) + 2) / 153). clearbody mp.
  do 2 f_equal. destruct (_ <=? 2); lia.
Qed.
Lemma shift_shift j k c : shift j (shift k c) = shift (k + j) c.
Proof. destruct c as [[y m] d]. cbn. do 2 f_equal. lia. Qed.
Lemma civil_shift d k : civil_from_days (d + 146097 * k) = shift k (civil_from_days d).
Proof.
  rewrite !civil_era, shift_shift. replace (d + 146097 * k + 719468) with (d + 719468 + k * 146097) by lia.
  rewrite Z.div_add by done. do 2 f_equal. lia.
Qed.
Lemma days_shift y m d k : days_from_civil (y + 400 * k) m d = days_from_civil y m d + 146097 * k.
Proof.
  unfold days_from_civil. cbv zeta.
  assert ((if m <=? 2 then y + 400 * k - 1 else y + 400 * k) = (if m <=? 2 then y - 1 else y) + k * 400) as -> by (case_match; lia).
  set (y' := if m <=? 2 then y - 1 else y). clearbody y'.
  pose proof (era_floor y' 400 eq_refl) as H1. pose proof (era_floor (y' + k * 400) 400 eq_refl) as H2.
  change (400 - 1) with 399 in *. rewrite H1, H2, Z.div_add by done. clear H1 H2.
  replace (y' + k * 400 - (y' / 400 + k) * 400) with (y' - y' / 400 * 400) by lia. lia.
Qed.
Lemma leap_shift y k : leap (y + 400 * k) = leap y.
Proof.
  assert (∀ n q, 400 = q * n → n ≠ 0 → (y + 400 * k) mod n = y mod n) as Hm.
  { intros n q He Hn. replace (y + 400 * k) with (y + (q * k) * n) by (rewrite He; lia). by apply Z.mod_add. }
  unfold leap. by rewrite (Hm 4 100), (Hm 100 4), (Hm 400 1).
Qed.
Lemma next_day_shift k c : next_day (shift k c) = shift k (next_day c).
Proof.
  destruct c as [[y m] d]. cbn [shift next_day]. unfold month_days. rewrite leap_shift.
  destruct (d <? _); [done|]. destruct (m <? 12); [done|]. cbn [shift]. do 2 f_equal. lia.
Qed.

(** ** One period

    Years run from March in the algorithms: [fy] days lie before year [y] of a
    period, whose last day is the 29th of February where there is one. *)
Definition fy (y : Z) : Z := 365 * y + y / 4 - y / 100.
Definition yoe_of (doe : Z) : Z := (doe - doe / 1460 + doe / 36524 - doe / 146096) / 365.
Definition mdoy (m d : Z) : Z := (153 * (if 2 <? m then m - 3 else m + 9) + 2) / 5 + d - 1.
Definition md_of (doy : Z) : Z * Z :=
  let mp := (5 * doy + 2) / 153 in (if mp <? 10 then mp + 3 else mp - 9, doy - (153 * mp + 2) / 5 + 1).
Definition len29 (m : Z) : Z := if m =? 2 then 29 else month_days 1 m.
Definition leap1 (y : Z) : Z := if leap y then 1 else 0.

(** [f] on each of [n] numbers from [z]: how the short tables are checked. *)
Fixpoint all_from (f : Z → bool) (n : nat) (z : Z) : bool :=
  match n with O => true | S n => f z && all_from f n (z + 1) end.
Lemma all_from_spec f n z x : all_from f n z = true → z ≤ x < z + Z.of_nat n → f x = true.
Proof.
  revert z. induction n as [|n IH]; intros z Hf Hx; [lia|]. cbn [all_from] in Hf. apply andb_true_iff in Hf as [Hz Hf].
  destruct (decide (x = z)) as [->|]; [done|]. apply (IH (z + 1)); [done|lia].
Qed.
(** The days of a year. *)
Definition doy_ok (doy : Z) : bool :=
  let '(m, d) := md_of doy in
  bool_decide (1 ≤ m ≤ 12) && bool_decide (1 ≤ d ≤ len29 m) && (mdoy m d =? doy)
  && bool_decide (doy = 365 ↔ m = 2 ∧ d = 29) && bool_decide (m ≤ 2 ↔ 306 ≤ doy)
  && ((365 <=? doy) || bool_decide (md_of (doy + 1) = if d <? len29 m then (m, d + 1) else (if m <? 12 then m + 1 else 1, 1))).
Lemma doy_table doy : 0 ≤ doy ≤ 365 → doy_ok doy = true.
Proof. intros. apply (all_from_spec doy_ok 366 0); [vm_compute; reflexivity|lia]. Qed.
Definition md_ok (m d : Z) : bool := (len29 m <? d) || (bool_decide (0 ≤ mdoy m d ≤ 365) && bool_decide (md_of (mdoy m d) = (m, d))).
Lemma md_table m d : 1 ≤ m ≤ 12 → 1 ≤ d ≤ len29 m → 0 ≤ mdoy m d ≤ 365 ∧ md_of (mdoy m d) = (m, d).
Proof.
  intros Hm Hd. assert (len29 m ≤ 31) by (unfold len29, month_days; repeat case_match; lia).
  assert (all_from (λ m, all_from (md_ok m) 31 1) 12 1 = true) as Ht by (vm_compute; reflexivity).
  apply (all_from_spec _ _ _ m) in Ht; [|lia]. apply (all_from_spec _ _ _ d) in Ht; [|lia].
  unfold md_ok in Ht. rewrite (proj2 (Z.ltb_ge (len29 m) d)) in Ht by lia. simpl in Ht.
  apply andb_true_iff in Ht as [H1 H2]. split; [exact (bool_decide_eq_true_1 _ H1)|exact (bool_decide_eq_true_1 _ H2)].
Qed.
(** The years of a period. *)
Definition yoe_ok (y : Z) : bool :=
  (yoe_of (fy y) =? y) && (yoe_of (fy y + 364 + leap1 (y + 1)) =? y) && (fy y + 364 + leap1 (y + 1) <=? 146096)
  && ((399 <=? y) || (fy (y + 1) =? fy y + 365 + leap1 (y + 1))).
Lemma yoe_table y : 0 ≤ y ≤ 399 →
  yoe_of (fy y) = y ∧ yoe_of (fy y + 364 + leap1 (y + 1)) = y ∧ fy y + 364 + leap1 (y + 1) ≤ 146096 ∧
  (y < 399 → fy (y + 1) = fy y + 365 + leap1 (y + 1)).
Proof.
  intros Hy. assert (all_from yoe_ok 400 0 = true) as Ht by (vm_compute; reflexivity).
  apply (all_from_spec _ _ _ y) in Ht; [|lia]. unfold yoe_ok in Ht.
  rewrite !andb_true_iff, orb_true_iff, !Z.eqb_eq, !Z.leb_le in Ht. intuition lia.
Qed.
Lemma leap1_range y : 0 ≤ leap1 y ≤ 1.
Proof. unfold leap1. case_match; lia. Qed.
Lemma yoe_step doe : 0 ≤ doe → yoe_of doe ≤ yoe_of (doe + 1).
Proof.
  intros Hd. unfold yoe_of. apply Z.div_le_mono; [done|].
  assert (∀ n, 0 < n → doe / n ≤ (doe + 1) / n ≤ doe / n + 1) as Hs.
  { intros n Hn. split; [apply Z.div_le_mono; lia|]. rewrite <-Z.div_add by lia. apply Z.div_le_mono; lia. }
  assert ((doe + 1) / 146096 = doe / 146096 ∨ (doe + 1) / 36524 = doe / 36524 + 1) as H4.
  { change 146096 with (36524 * 4). rewrite <-!Z.div_div by done.
    destruct (Hs 36524) as [H1 H2]; [done|]. destruct (decide ((doe + 1) / 36524 = doe / 36524)) as [->|]; [by left|right; lia]. }
  pose proof (Hs 1460 eq_refl). pose proof (Hs 36524 eq_refl). pose proof (Hs 146096 eq_refl). lia.
Qed.
Lemma yoe_mono a b : 0 ≤ a ≤ b → yoe_of a ≤ yoe_of b.
Proof.
  intros [Ha Hb]. replace b with (a + Z.of_nat (Z.to_nat (b - a))) by lia. induction (Z.to_nat (b - a)) as [|n IH]; [by rewrite Z.add_0_r|].
  etrans; [exact IH|]. replace (a + Z.of_nat (S n)) with (a + Z.of_nat n + 1) by lia. apply yoe_step. lia.
Qed.
Lemma fy_nonneg y : 0 ≤ y → 0 ≤ fy y.
Proof.
  intros. unfold fy. pose proof (Z.div_le_lower_bound y 4 (y / 100)). pose proof (Z.mul_div_le y 100 ltac:(lia)).
  pose proof (Z.div_pos y 100 ltac:(lia) ltac:(lia)). lia.
Qed.
Lemma yoe_spec doe : 0 ≤ doe ≤ 146096 →
  0 ≤ yoe_of doe ≤ 399 ∧ fy (yoe_of doe) ≤ doe ≤ fy (yoe_of doe) + 364 + leap1 (yoe_of doe + 1).
Proof.
  intros Hd. assert (0 ≤ yoe_of doe ≤ 399) as Hy.
  { change 0 with (yoe_of 0) at 1. change 399 with (yoe_of 146096). split; apply yoe_mono; lia. }
  set (y := yoe_of doe) in *. split; [done|]. pose proof (leap1_range (y + 1)). pose proof (fy_nonneg y ltac:(lia)).
  destruct (yoe_table y Hy) as (H1 & H2 & H3 & H4). split.
  - destruct (decide (fy y ≤ doe)) as [|Hn]; [done|]. exfalso. destruct (decide (y = 0)) as [E|].
    { rewrite E in Hn. change (fy 0) with 0 in Hn. lia. }
    destruct (yoe_table (y - 1) ltac:(lia)) as (_ & K2 & _ & K4). replace (y - 1 + 1) with y in * by lia.
    pose proof (yoe_mono doe (fy (y - 1) + 364 + leap1 y) ltac:(lia)) as Hm. fold y in Hm. lia.
  - destruct (decide (doe ≤ fy y + 364 + leap1 (y + 1))) as [|Hn]; [done|]. exfalso. destruct (decide (y = 399)) as [E|].
    { rewrite E in Hn. change (fy 399 + 364 + leap1 (399 + 1)) with 146096 in Hn. lia. }
    destruct (yoe_table (y + 1) ltac:(lia)) as (K1 & _ & _ & _).
    pose proof (yoe_mono (fy (y + 1)) doe ltac:(lia)) as Hm. fold y in Hm. lia.
Qed.
Lemma yoe_unique y doy : 0 ≤ y ≤ 399 → 0 ≤ doy ≤ 364 + leap1 (y + 1) → yoe_of (fy y + doy) = y ∧ 0 ≤ fy y + doy ≤ 146096.
Proof.
  intros Hy Hd. destruct (yoe_table y Hy) as (H1 & H2 & H3 & _). pose proof (fy_nonneg y ltac:(lia)).
  pose proof (yoe_mono (fy y) (fy y + doy) ltac:(lia)). pose proof (yoe_mono (fy y + doy) (fy y + 364 + leap1 (y + 1)) ltac:(lia)). lia.
Qed.
Lemma civil_doe_eq doe :
  civil_doe doe = let '(m, d) := md_of (doe - fy (yoe_of doe)) in (if m <=? 2 then yoe_of doe + 1 else yoe_of doe, m, d).
Proof. reflexivity. Qed.

(** ** Days and dates *)
Lemma civil_of_shape era y doy :
  0 ≤ y ≤ 399 → 0 ≤ doy ≤ 364 + leap1 (y + 1) →
  civil_from_days (era * 146097 + fy y + doy - 719468) =
    let '(m, d) := md_of doy in ((if m <=? 2 then y + 1 else y) + 400 * era, m, d).
Proof.
  intros Hy Hd. destruct (yoe_unique y doy Hy Hd) as [Hu Hr]. rewrite civil_era.
  replace (era * 146097 + fy y + doy - 719468 + 719468) with (fy y + doy + era * 146097) by lia.
  rewrite Z.div_add, Z.div_small, Z.add_0_l by lia. replace (fy y + doy + era * 146097 - era * 146097) with (fy y + doy) by lia.
  rewrite civil_doe_eq, Hu. replace (fy y + doy - fy y) with doy by lia. by destruct (md_of doy).
Qed.
Lemma civil_shape n : ∃ era y doy,
  n = era * 146097 + fy y + doy - 719468 ∧ 0 ≤ y ≤ 399 ∧ 0 ≤ doy ≤ 364 + leap1 (y + 1).
Proof.
  set (era := (n + 719468) / 146097). set (doe := (n + 719468) mod 146097).
  pose proof (Z.div_mod (n + 719468) 146097 ltac:(done)). pose proof (Z.mod_pos_bound (n + 719468) 146097 ltac:(done)).
  destruct (yoe_spec doe) as (Hy & Hd); [unfold doe; lia|].
  exists era, (yoe_of doe), (doe - fy (yoe_of doe)). unfold era, doe in *. split; [lia|]. split; [done|]. lia.
Qed.
Lemma days_shape era y m d :
  0 ≤ y ≤ 399 →
  days_from_civil ((if m <=? 2 then y + 1 else y) + 400 * era) m d = era * 146097 + fy y + mdoy m d - 719468.
Proof.
  intros Hy. rewrite days_shift. unfold days_from_civil. cbv zeta.
  assert ((if m <=? 2 then (if m <=? 2 then y + 1 else y) - 1 else if m <=? 2 then y + 1 else y) = y) as -> by (destruct (m <=? 2); lia).
  rewrite (proj2 (Z.leb_le 0 y)) by lia. rewrite Z.quot_small by lia. unfold fy, mdoy. rewrite Z.mul_0_l, Z.sub_0_r. lia.
Qed.
Lemma md_of_facts doy m d :
  0 ≤ doy ≤ 365 → md_of doy = (m, d) →
  1 ≤ m ≤ 12 ∧ 1 ≤ d ≤ len29 m ∧ mdoy m d = doy ∧ (doy = 365 ↔ m = 2 ∧ d = 29) ∧ (m ≤ 2 ↔ 306 ≤ doy) ∧
  (doy < 365 → md_of (doy + 1) = if d <? len29 m then (m, d + 1) else (if m <? 12 then m + 1 else 1, 1)).
Proof.
  intros Hd He. pose proof (doy_table doy Hd) as Ht. unfold doy_ok in Ht. rewrite He in Ht.
  rewrite !andb_true_iff, orb_true_iff, !bool_decide_eq_true, Z.eqb_eq, Z.leb_le in Ht.
  destruct Ht as [[[[[? ?] ?] ?] ?] Hn]. split_and!; try lia; try done. intros. destruct Hn as [|Hn]; [lia|exact Hn].
Qed.
Lemma len29_month y m d : 1 ≤ m → d ≤ month_days y m → d ≤ len29 m ∧ (m = 2 → d = 29 → leap y = true).
Proof. unfold month_days, len29, month_days. repeat case_match; intros; split; intros; try done; lia. Qed.
Lemma month_len29 y m : m ≠ 2 → month_days y m = len29 m.
Proof. intros. unfold len29, month_days. by rewrite (proj2 (Z.eqb_neq m 2)). Qed.
(** The civil year of a March year's months, and its leap day. *)
Lemma leap1_era y era : leap1 (y + 400 * era) = leap1 y.
Proof. unfold leap1. by rewrite leap_shift. Qed.

(** [civil_from_days] gives dates, [days_from_civil] is its inverse on them,
    and the day after is the calendar's next day. *)
Lemma civil_valid n : valid_date (civil_from_days n).
Proof.
  destruct (civil_shape n) as (era & y & doy & -> & Hy & Hd). rewrite civil_of_shape by done.
  pose proof (leap1_range (y + 1)). destruct (md_of doy) as [m d] eqn:Hmd.
  destruct (md_of_facts doy m d ltac:(lia) Hmd) as (Hm & Hdd & _ & H29 & H306 & _). split; [done|].
  destruct (decide (m = 2)) as [->|]; [|by rewrite month_len29]. cbn. rewrite Z.add_comm, Z.add_comm, leap_shift. change (len29 2) with 29 in Hdd.
  unfold leap1 in Hd. destruct (leap (y + 1)); [lia|]. unfold month_days. cbn. destruct (decide (d = 29)) as [->|]; [|lia].
  assert (doy = 365) by tauto. lia.
Qed.
Lemma days_civil n : let '(y, m, d) := civil_from_days n in days_from_civil y m d = n.
Proof.
  destruct (civil_shape n) as (era & y & doy & -> & Hy & Hd). rewrite civil_of_shape by done.
  pose proof (leap1_range (y + 1)). destruct (md_of doy) as [m d] eqn:Hmd.
  destruct (md_of_facts doy m d ltac:(lia) Hmd) as (_ & _ & Hdoy & _). rewrite days_shape by done. lia.
Qed.
Lemma date_shape y m : ∃ era yy, 0 ≤ yy ≤ 399 ∧ y = (if m <=? 2 then yy + 1 else yy) + 400 * era.
Proof.
  set (y' := if m <=? 2 then y - 1 else y). exists (y' / 400), (y' mod 400).
  pose proof (Z.div_mod y' 400 ltac:(done)). pose proof (Z.mod_pos_bound y' 400 ltac:(done)).
  split; [lia|]. unfold y' in *. destruct (m <=? 2); lia.
Qed.
Lemma civil_days y m d : valid_date (y, m, d) → civil_from_days (days_from_civil y m d) = (y, m, d).
Proof.
  intros [Hm Hd]. destruct (len29_month y m d) as [Hd29 Hleap]; [lia..|].
  destruct (md_table m d) as [Hr Hmd]; [lia..|]. destruct (date_shape y m) as (era & yy & Hyy & Hy).
  rewrite Hy at 1. rewrite days_shape by done. rewrite civil_of_shape; [by rewrite Hmd, Hy|done|].
  split; [lia|]. pose proof (leap1_range (yy + 1)). destruct (decide (mdoy m d = 365)) as [E|]; [|lia].
  destruct (md_of_facts _ m d Hr Hmd) as (_ & _ & _ & H29 & _). destruct (proj1 H29 E) as [-> ->].
  assert (leap1 (yy + 1) = 1); [|lia]. unfold leap1. specialize (Hleap eq_refl eq_refl).
  rewrite Hy in Hleap. cbn in Hleap. rewrite leap_shift in Hleap. by rewrite Hleap.
Qed.
Lemma civil_next n : civil_from_days (n + 1) = next_day (civil_from_days n).
Proof.
  destruct (civil_shape n) as (era & y & doy & -> & Hy & Hd). rewrite civil_of_shape by done.
  pose proof (leap1_range (y + 1)) as Hl1. destruct (md_of doy) as [m d] eqn:Hmd.
  destruct (md_of_facts doy m d ltac:(lia) Hmd) as (Hm & Hdd & Hdoy & H29 & H306 & Hnext).
  assert (month_days ((if m <=? 2 then y + 1 else y) + 400 * era) m = if m =? 2 then 28 + leap1 (y + 1) else len29 m) as Hlen.
  { unfold month_days at 1. destruct (Z.eqb_spec m 2) as [->|]; [|by rewrite <-(month_len29 1) by done; unfold month_days; rewrite (proj2 (Z.eqb_neq m 2))].
    cbn. rewrite leap_shift. unfold leap1. by destruct (leap (y + 1)). }
  cbn [next_day]. rewrite Hlen.
  destruct (decide (doy < 364 + leap1 (y + 1))) as [Hin|Hlast].
  - replace (era * 146097 + fy y + doy - 719468 + 1) with (era * 146097 + fy y + (doy + 1) - 719468) by lia.
    rewrite civil_of_shape by lia. rewrite Hnext by lia.
    destruct (md_of (doy + 1)) as [m' d'] eqn:Hmd'. specialize (Hnext ltac:(lia)).
    destruct (md_of_facts (doy + 1) m' d' ltac:(lia) Hmd') as (_ & _ & _ & H29' & H306' & _).
    destruct (Z.eqb_spec m 2) as [->|Hm2].
    + change (len29 2) with 29 in *.
      assert (d < 28 + leap1 (y + 1)) as Hd28.
      { destruct (decide (d < 28)); [lia|]. assert (d = 28 ∨ d = 29) as [->| ->] by lia; [|lia].
        rewrite (proj2 (Z.ltb_lt 28 29)) in Hnext by lia. injection Hnext as -> ->. assert (doy + 1 = 365) by tauto. lia. }
      by rewrite (proj2 (Z.ltb_lt d 29)), (proj2 (Z.ltb_lt d (28 + leap1 (y + 1)))) by lia.
    + destruct (d <? len29 m); [done|]. destruct (Z.ltb_spec m 12) as [Hm12|].
      * injection Hnext as -> ->. do 2 f_equal. destruct (Z.leb_spec m 2), (Z.leb_spec (m + 1) 2); lia.
      * replace m with 12 in * by lia. cbn. do 2 f_equal. lia.
  - assert (doy = 364 + leap1 (y + 1)) as Heq by lia.
    assert (m = 2 ∧ d = 28 + leap1 (y + 1)) as [-> ->].
    { destruct (leap1_range (y + 1)). destruct (decide (leap1 (y + 1) = 1)) as [E|]; [rewrite E in *; apply H29; lia|].
      replace (leap1 (y + 1)) with 0 in * by lia. rewrite Heq in Hmd. change (md_of (364 + 0)) with (2, 28) in Hmd. by injection Hmd as <- <-. }
    rewrite (proj2 (Z.ltb_ge _ _)) by (cbn; lia). cbn [Z.ltb Z.leb Z.compare Pos.compare Pos.compare_cont].
    destruct (yoe_table y Hy) as (_ & _ & _ & H4). destruct (decide (y = 399)) as [->|].
    + change (399 + 1) with 400 in *. change (fy 399) with 145731. change (leap1 400) with 1 in *. rewrite Heq.
      replace (era * 146097 + 145731 + (364 + 1) - 719468 + 1) with ((era + 1) * 146097 + fy 0 + 0 - 719468) by (change (fy 0) with 0; lia).
      rewrite civil_of_shape by (pose proof (leap1_range (0 + 1)); lia). change (md_of 0) with (3, 1). cbn. do 2 f_equal. lia.
    + replace (era * 146097 + fy y + doy - 719468 + 1) with (era * 146097 + fy (y + 1) + 0 - 719468) by lia.
      rewrite civil_of_shape; [|lia|pose proof (leap1_range (y + 1 + 1)); lia]. change (md_of 0) with (3, 1). cbn. do 2 f_equal.
Qed.

(** ** The order of dates *)
Definition ord (c : Z * Z * Z) : Z := let '(y, m, d) := c in y * 372 + (m - 1) * 31 + (d - 1).
Lemma month_days_range y m : 28 ≤ month_days y m ≤ 31.
Proof. unfold month_days. repeat case_match; lia. Qed.
Lemma next_day_later c : valid_date c → ord c < ord (next_day c).
Proof.
  destruct c as [[y m] d]. intros [Hm Hd]. pose proof (month_days_range y m). cbn [next_day].
  destruct (Z.ltb_spec d (month_days y m)); [cbn; lia|]. destruct (Z.ltb_spec m 12); cbn; lia.
Qed.
Lemma civil_later a b : a < b → ord (civil_from_days a) < ord (civil_from_days b).
Proof.
  intros Hab. replace b with (a + 1 + Z.of_nat (Z.to_nat (b - a - 1))) by lia.
  assert (∀ n, ord (civil_from_days n) < ord (civil_from_days (n + 1))) as Hs
    by (intros n; rewrite civil_next; apply next_day_later, civil_valid).
  induction (Z.to_nat (b - a - 1)) as [|n IH]; [rewrite Z.add_0_r; apply Hs|].
  etrans; [exact IH|]. replace (a + 1 + Z.of_nat (S n)) with (a + 1 + Z.of_nat n + 1) by lia. apply Hs.
Qed.
(** The days on or after a date. *)
Lemma days_le y m d n : valid_date (y, m, d) → days_from_civil y m d ≤ n ↔ ord (y, m, d) ≤ ord (civil_from_days n).
Proof.
  intros Hv. pose proof (f_equal ord (civil_days y m d Hv)) as Ho. rewrite <-Ho. clear Ho. split; intros Hle.
  - destruct (decide (days_from_civil y m d = n)) as [->|]; [done|]. apply Z.lt_le_incl, civil_later. lia.
  - destruct (decide (days_from_civil y m d ≤ n)); [done|]. pose proof (civil_later n (days_from_civil y m d) ltac:(lia)). lia.
Qed.

Lemma day_pos : 0 < MICROS_PER_DAY. Proof. done. Qed.
Lemma i64_chk_Some z v : i64_chk z = Some v ↔ z = v ∧ is_i64 z.
Proof.
  unfold i64_chk. destruct (_ && _) eqn:E.
  - apply andb_true_iff in E as [?%Z.leb_le ?%Z.leb_le]. split; [intros [= <-]|intros [-> _]]; done.
  - split; [done|]. intros [_ [H1 H2]]. rewrite (proj2 (Z.leb_le _ _) H1), (proj2 (Z.leb_le _ _) H2) in E. done.
Qed.
Lemma i64_chk_ok z : is_i64 z → i64_chk z = Some z.
Proof. intros. by apply i64_chk_Some. Qed.
Lemma midnight_micros y m d : micros_from_civil (at_midnight y m d) = i64_chk (days_from_civil y m d * MICROS_PER_DAY).
Proof.
  unfold micros_from_civil, at_midnight. cbn [year month day hour minute second micro].
  destruct (i64_chk (days_from_civil y m d * MICROS_PER_DAY)) as [a|] eqn:E; [|done].
  apply i64_chk_Some in E as [<- Ha]. set (a := days_from_civil y m d * MICROS_PER_DAY) in *. clearbody a.
  cbn [mbind option_bind]. do 4 (rewrite ?Z.mul_0_l, Z.add_0_r, i64_chk_ok by done; cbn [mbind option_bind]). done.
Qed.

(** * What the functions promise *)
(** The days whose midnight an [i64] can hold start here. *)
Definition first_instant : Z := -106751991 * MICROS_PER_DAY.
(** [date_trunc] without the width of the integer. *)
Definition trunc_z (u : TimeUnit) (t : Z) : Z :=
  let c := civil_from_micros t in
  match u with
  | Year => days_from_civil (year c) 1 1 * MICROS_PER_DAY
  | Month => days_from_civil (year c) (month c) 1 * MICROS_PER_DAY
  | Hour => t - t mod MICROS_PER_HOUR
  | Minute => t - t mod MICROS_PER_MINUTE
  | Second => t - t mod MICROS_PER_SECOND
  | _ => t - t mod MICROS_PER_DAY
  end.
Definition next_z (u : TimeUnit) (v : Z) : Z :=
  let c := civil_from_micros v in
  match u with
  | Year => days_from_civil (year c + 1) 1 1 * MICROS_PER_DAY
  | Month => (if month c =? 12 then days_from_civil (year c + 1) 1 1 else days_from_civil (year c) (month c + 1) 1) * MICROS_PER_DAY
  | Hour => v + MICROS_PER_HOUR
  | Minute => v + MICROS_PER_MINUTE
  | Second => v + MICROS_PER_SECOND
  | _ => v + MICROS_PER_DAY
  end.
Definition ok_in_range (z : Z) : option (result SqlError Z) := v ← i64_chk z; Some (Ok v).

Lemma civil_date t : let c := civil_from_micros t in (year c, month c, day c) = civil_from_days (t / MICROS_PER_DAY).
Proof. unfold civil_from_micros, floor_div_rem. cbv zeta. by destruct (civil_from_days (t / MICROS_PER_DAY)) as [[y m] d]. Qed.
Lemma civil_time t :
  let c := civil_from_micros t in
  0 ≤ hour c ≤ 23 ∧ 0 ≤ minute c ≤ 59 ∧ 0 ≤ second c ≤ 59 ∧ 0 ≤ micro c ≤ 999999 ∧
  hour c * MICROS_PER_HOUR + minute c * MICROS_PER_MINUTE + second c * MICROS_PER_SECOND + micro c = t mod MICROS_PER_DAY.
Proof.
  unfold civil_from_micros, floor_div_rem. cbv zeta. destruct (civil_from_days (t / MICROS_PER_DAY)) as [[y m] d]. cbn [hour minute second micro].
  replace (t - t / MICROS_PER_DAY * MICROS_PER_DAY) with (t mod MICROS_PER_DAY) by (pose proof (Z.div_mod t MICROS_PER_DAY ltac:(done)); lia).
  pose proof (Z.mod_pos_bound t MICROS_PER_DAY ltac:(done)) as Hr. set (r := t mod MICROS_PER_DAY) in *. clearbody r.
  unfold MICROS_PER_DAY, MICROS_PER_HOUR, MICROS_PER_MINUTE, MICROS_PER_SECOND in *.
  change (24 * (60 * (60 * 1000000))) with 86400000000 in *. change (60 * (60 * 1000000)) with 3600000000 in *. change (60 * 1000000) with 60000000 in *.
  Z.to_euclidean_division_equations. lia.
Qed.
Lemma date_trunc_eq u t : truncates u = true → date_trunc u t = ok_in_range (trunc_z u t).
Proof.
  pose proof (civil_date t) as Hc. cbv zeta in Hc. unfold date_trunc, ok_in_range, trunc_z. destruct u; intros; try done; rewrite ?midnight_micros; try done.
  pose proof (days_civil (t / MICROS_PER_DAY)) as Hd. rewrite <-Hc in Hd. rewrite Hd.
  replace (t / MICROS_PER_DAY * MICROS_PER_DAY) with (t - t mod MICROS_PER_DAY) by (pose proof (Z.div_mod t MICROS_PER_DAY ltac:(done)); lia). done.
Qed.
Lemma next_unit_eq u v : truncates u = true → next_unit u v = ok_in_range (next_z u v).
Proof.
  unfold next_unit, ok_in_range, next_z. destruct u; intros; try done; rewrite ?midnight_micros; try done.
  destruct (_ =? 12); by rewrite midnight_micros.
Qed.
Lemma ok_in_range_Some z v : ok_in_range z = Some (Ok v) ↔ z = v ∧ is_i64 z.
Proof.
  unfold ok_in_range. pose proof (i64_chk_Some z v) as Hz. destruct (i64_chk z) as [x|]; cbn [mbind option_bind].
  - rewrite <-Hz. split; intros H; congruence.
  - split; [done|]. intros H. by apply Hz in H.
Qed.
Lemma date_fields c y m d : (year c, month c, day c) = (y, m, d) → year c = y ∧ month c = m ∧ day c = d.
Proof. intros [= ? ? ?]. done. Qed.
Lemma midnight_civil y m d :
  valid_date (y, m, d) → let c := civil_from_micros (days_from_civil y m d * MICROS_PER_DAY) in year c = y ∧ month c = m ∧ day c = d.
Proof.
  intros Hv. apply date_fields. etrans; [apply civil_date|]. rewrite Z.div_mul by done. by apply civil_days.
Qed.
#[local] Opaque civil_from_micros days_from_civil civil_from_days.
(** Every unit is one range of instants. *)
Lemma trunc_range u t t' : truncates u = true → trunc_z u t' = trunc_z u t ↔ trunc_z u t ≤ t' < next_z u (trunc_z u t).
Proof.
  assert (∀ n, 0 < n → t' - t' mod n = t - t mod n ↔ t - t mod n ≤ t' < t - t mod n + n) as Hmod.
  { intros n Hn. pose proof (Z.div_mod t n ltac:(lia)). pose proof (Z.mod_pos_bound t n Hn).
    pose proof (Z.div_mod t' n ltac:(lia)). pose proof (Z.mod_pos_bound t' n Hn). split; intros; [lia|].
    assert (t' / n = t / n) by nia. lia. }
  assert (∀ n x, n * MICROS_PER_DAY ≤ x ↔ n ≤ x / MICROS_PER_DAY) as Hday.
  { intros n x. pose proof (Z.div_mod x MICROS_PER_DAY ltac:(done)). pose proof (Z.mod_pos_bound x MICROS_PER_DAY ltac:(done)). pose proof day_pos. nia. }
  destruct u; intros Hu; try done; unfold trunc_z, next_z; try by apply Hmod.
  - pose proof (civil_date t) as Hc. pose proof (civil_date t') as Hc'. cbv zeta in Hc, Hc'.
    set (y := year (civil_from_micros t)) in *. set (y' := year (civil_from_micros t')) in *.
    assert (∀ y, valid_date (y, 1, 1)) as Hvalid by (intros; split; [lia|]; pose proof (month_days_range y0 1); lia).
    destruct (midnight_civil y 1 1 (Hvalid y)) as (Hvy & _). rewrite Hvy.
    pose proof (civil_valid (t' / MICROS_PER_DAY)) as Hval. rewrite <-Hc' in Hval. destruct Hval as [Hm Hd].
    pose proof (month_days_range y' (month (civil_from_micros t'))).
    rewrite (Hday _ t'), Z.lt_nge, (Hday _ t'), !days_le, <-Hc' by done. cbn [ord].
    split; [|intros; assert (y' = y) by lia; congruence]. intros He. assert (days_from_civil y' 1 1 = days_from_civil y 1 1) as He' by (pose proof day_pos; nia).
    pose proof (civil_days y' 1 1 (Hvalid y')) as H1. rewrite He', civil_days in H1 by done. injection H1 as <-. lia.
  - pose proof (civil_date t) as Hc. pose proof (civil_date t') as Hc'. cbv zeta in Hc, Hc'.
    pose proof (civil_valid (t / MICROS_PER_DAY)) as Hval. rewrite <-Hc in Hval. destruct Hval as [Hm _].
    pose proof (civil_valid (t' / MICROS_PER_DAY)) as Hval. rewrite <-Hc' in Hval. destruct Hval as [Hm' Hd'].
    set (y := year (civil_from_micros t)) in *. set (y' := year (civil_from_micros t')) in *.
    set (m := month (civil_from_micros t)) in *. set (m' := month (civil_from_micros t')) in *.
    assert (∀ y m, 1 ≤ m ≤ 12 → valid_date (y, m, 1)) as Hvalid by (intros ? ? ?; split; [lia|]; pose proof (month_days_range y0 m0); lia).
    destruct (midnight_civil y m 1 (Hvalid y m Hm)) as (Hvy & Hvm & _). rewrite Hvy, Hvm.
    pose proof (month_days_range y' m').
    rewrite (Hday _ t'), Z.lt_nge, (Hday _ t'), (days_le y m 1), <-Hc' by auto.
    assert ((if m =? 12 then days_from_civil (y + 1) 1 1 else days_from_civil y (m + 1) 1) ≤ t' / MICROS_PER_DAY
      ↔ y * 12 + m < y' * 12 + m') as ->.
    { destruct (Z.eqb_spec m 12); rewrite days_le, <-Hc' by (apply Hvalid; lia); cbn [ord]; lia. }
    cbn [ord]. split; [|intros; assert (y' = y ∧ m' = m) as [-> ->] by lia; done].
    intros He. assert (days_from_civil y' m' 1 = days_from_civil y m 1) as He' by (pose proof day_pos; nia).
    pose proof (civil_days y' m' 1 (Hvalid y' m' Hm')) as H1. rewrite He', civil_days in H1 by auto. injection H1 as -> ->. lia.
Qed.

(** A civil time is its instant. *)
Lemma micros_civil t : first_instant ≤ t ≤ i64_max → micros_from_civil (civil_from_micros t) = Some t.
Proof.
  intros Ht. pose proof (civil_date t) as Hd. pose proof (civil_time t) as (Hh & Hm & Hs & Hu & Hsum).
  pose proof (days_civil (t / MICROS_PER_DAY)) as Hdays. cbv zeta in *. rewrite <-Hd in Hdays. clear Hd. unfold micros_from_civil. rewrite Hdays. clear Hdays.
  set (c := civil_from_micros t) in *. clearbody c.
  pose proof (Z.div_mod t MICROS_PER_DAY ltac:(done)). pose proof (Z.mod_pos_bound t MICROS_PER_DAY ltac:(done)).
  assert (first_instant ≤ t / MICROS_PER_DAY * MICROS_PER_DAY) as Hlow.
  { unfold first_instant in *. assert (-106751991 ≤ t / MICROS_PER_DAY) by (apply Z.div_le_lower_bound; [done|lia]). pose proof day_pos. nia. }
  assert (i64_min ≤ first_instant) by done. assert (t = t / MICROS_PER_DAY * MICROS_PER_DAY + t mod MICROS_PER_DAY) as Hq by lia. set (q := t / MICROS_PER_DAY * MICROS_PER_DAY) in *. clearbody q.
  unfold MICROS_PER_HOUR, MICROS_PER_MINUTE, MICROS_PER_SECOND in *.
  do 5 (rewrite i64_chk_ok by lia; cbn [mbind option_bind]). f_equal. lia.
Qed.

(** * Properties *)


(** An instant and its civil time are one another.  The fields of
    every instant are in their ranges and belong to a calendar date, and they
    compute back to the instant without overflow, from the first day whose
    midnight an [i64] holds. *)
Lemma civil_time_roundtrip t :
  is_i64 t →
  let c := civil_from_micros t in
  valid_date (year c, month c, day c) ∧ 0 ≤ hour c ≤ 23 ∧ 0 ≤ minute c ≤ 59 ∧ 0 ≤ second c ≤ 59 ∧ 0 ≤ micro c ≤ 999999 ∧
  (first_instant ≤ t → micros_from_civil c = Some t).
Proof.
  intros Ht. pose proof (civil_time t) as (Hh & Hm & Hs & Hu & _). cbv zeta. split; [|split_and!; try lia; intros; apply micros_civil; lia].
  pose proof (civil_date t) as Hd. cbv zeta in Hd. rewrite Hd. apply civil_valid.
Qed.

(** A predicate on [date_trunc] is one range of the stored integer.
    Where truncating to a unit and its successor do not overflow, the instants
    that truncate to the same value are exactly the ones from that value up to
    the next unit, the value being the first of them; [EXTRACT(YEAR)] is equal
    on exactly the instants of one [date_trunc('year')]. *)
Lemma trunc_is_one_range u t v w :
  truncates u = true → date_trunc u t = Some (Ok v) → next_unit u v = Some (Ok w) →
  v ≤ t < w ∧
  (∀ t', date_trunc u t' = Some (Ok v) ↔ v ≤ t' < w) ∧
  (u = Year → ∀ t', extract Year t' = extract Year t ↔ v ≤ t' < w).
Proof.
  intros Hu Hv Hw. rewrite date_trunc_eq in Hv by done. rewrite next_unit_eq in Hw by done.
  apply ok_in_range_Some in Hv as [<- Hvr]. apply ok_in_range_Some in Hw as [<- _].
  assert (∀ t', trunc_z u t' = trunc_z u t ↔ trunc_z u t ≤ t' < next_z u (trunc_z u t)) as Hr by (intros; by apply trunc_range).
  split; [by apply Hr|]. split.
  - intros t'. rewrite date_trunc_eq, ok_in_range_Some, <-Hr by done. split; [tauto|]. intros He. rewrite He. done.
  - intros -> t'. rewrite <-Hr. unfold extract, trunc_z. split; [by intros ->|]. intros He.
    assert (∀ y, valid_date (y, 1, 1)) as Hvalid by (intros; split; [lia|]; pose proof (month_days_range y 1); lia).
    assert (days_from_civil (year (civil_from_micros t')) 1 1 = days_from_civil (year (civil_from_micros t)) 1 1) as Hd by (pose proof day_pos; nia).
    pose proof (civil_days _ 1 1 (Hvalid (year (civil_from_micros t')))) as H1. rewrite Hd, civil_days in H1 by done. by injection H1.
Qed.
Lemma trunc_is_one_range_witness :
  date_trunc Year (-1) = Some (Ok (-31536000000000)) ∧
  (∀ t', date_trunc Year t' = Some (Ok (-31536000000000)) ↔ -31536000000000 ≤ t' < 0).
Proof.
  assert (date_trunc Year (-1) = Some (Ok (-31536000000000))) as H1 by (vm_compute; reflexivity).
  assert (next_unit Year (-31536000000000) = Some (Ok 0)) as H2 by (vm_compute; reflexivity).
  split; [exact H1|]. exact (proj1 (proj2 (trunc_is_one_range Year (-1) (-31536000000000) 0 eq_refl H1 H2))).
Defined.
Lemma civil_time_roundtrip_witness :
  let c := civil_from_micros (-1) in valid_date (year c, month c, day c) ∧ micros_from_civil c = Some (-1).
Proof.
  destruct (civil_time_roundtrip (-1)) as (H1 & _ & _ & _ & _ & H2); [split; discriminate|]. split; [exact H1|apply H2; discriminate].
Defined.
(** Before that first day the conversion overflows, and so does truncating an
    instant of the first year an [i64] reaches. *)
Example trunc_overflows : date_trunc Year i64_min = None ∧ date_trunc Day i64_min = None ∧ extract Year i64_min = -290308.
Proof. vm_compute. done. Qed.
Example known_weekday : extract Dow 1789948800000000 = 1 ∧ civil_from_days 20717 = (2026, 9, 21).
Proof. vm_compute. done. Qed.
End Calendar.
