(* ===== verification/SqlText.v ===== *)
(** * The string functions of SQL ([lang/src/functions.rs])

    [length], [substring], [left], [right], [split_part], [position], the
    boolean input, and the prefix range a [LIKE 'abc%'] or a [starts_with]
    becomes over an index on text.  A string is its characters; where the code
    works on bytes, the UTF-8 of them. *)
From S2P Require Import Prelude Utf8 Like Calendar.
Import Utf8.

Module SqlText.

(** [char::is_whitespace]: the Unicode property White_Space. *)
Definition is_whitespace (c : Z) : bool :=
  ((9 <=? c) && (c <=? 13)) || (c =? 32) || (c =? 133) || (c =? 160) || (c =? 5760)
  || ((8192 <=? c) && (c <=? 8202)) || (c =? 8232) || (c =? 8233) || (c =? 8239) || (c =? 8287) || (c =? 12288).
Fixpoint trim_start_by (f : Z → bool) (s : list Z) : list Z :=
  match s with c :: r => if f c then trim_start_by f r else s | [] => [] end.
Definition trim_by (f : Z → bool) (s : list Z) : list Z := rev (trim_start_by f (rev (trim_start_by f s))).
Definition trim_start : list Z → list Z := trim_start_by is_whitespace.
Definition str_trim : list Z → list Z := trim_by is_whitespace.

(** [trim(s)] of SQL: spaces only. *)
Definition trim (s : list Z) : list Z := trim_by (λ c, c =? 32) s.
(** [concat]: a NULL argument adds nothing. *)
Definition concat_sql (parts : list (option (list Z))) : list Z := concat (map (default []) parts).

(** Whether [word] begins the ASCII string [s]: [s.starts_with(&word)]. *)
Definition begins (s : string) (word : list Z) : bool := starts_with (ascii_bytes s) word.
Definition parse_bool (text : list Z) : option bool :=
  let word := map ascii_lower (str_trim text) in
  if one_of word [""%string] then None else
  if one_of word ["1"; "on"]%string then Some true else
  if one_of word ["0"%string] then Some false else
  if (2 <=? blen (encode word)) && begins "off" word then Some false else
  if begins "true" word || begins "yes" word then Some true else
  if begins "false" word || begins "no" word then Some false else None.

Definition length_sql (s : list Z) : Z := blen s.

(** [i64::saturating_add]. *)
Definition saturating_add_i64 (a b : Z) : Z := Z.max i64_min (Z.min i64_max (a + b)).
Definition substring (s : list Z) (start : Z) (count : option Z) : result Calendar.SqlError (list Z) :=
  let chars := s in
  let* end_ :=
    (match count with
     | None => Ok (blen chars + 1)
     | Some n => if n <? 0 then Err Calendar.Unsupported else Ok (saturating_add_i64 start n)
     end) in
  let from := Z.max start 1 in
  if end_ <=? from then Ok [] else
  let from := from - 1 in
  let to := Z.min (end_ - 1) (blen chars) in
  if blen chars <=? from then Ok [] else Ok (slice chars from (to - from)).

Definition left (s : list Z) (n : Z) : list Z :=
  let chars := s in
  let take_ := if n <? 0 then Z.max (blen chars + n) 0 else Z.min n (blen chars) in
  take (Z.to_nat take_) chars.
(** [unsigned_abs] of an [i64]. *)
Definition right (s : list Z) (n : Z) : list Z :=
  let chars := s in
  let len := blen chars in
  let from := if n <? 0 then Z.min (Z.abs n) len else len - Z.min n len in
  drop (Z.to_nat from) chars.

(** The first occurrence of [sub], as [str::find] reports it, in characters. *)
Fixpoint find_from (s sub : list Z) (i : Z) : option Z :=
  if starts_with s sub then Some i else match s with [] => None | _ :: s => find_from s sub (i + 1) end.
Definition find (s sub : list Z) : option Z := find_from s sub 0.
(** [str::split]: every match takes at least one character. *)
Fixpoint split_fuel (n : nat) (s delimiter : list Z) : list (list Z) :=
  match n with
  | O => [s]
  | S n =>
      match find s delimiter with
      | None => [s]
      | Some i => slice s 0 i :: split_fuel n (drop (Z.to_nat (i + blen delimiter)) s) delimiter
      end
  end.
Definition split (s delimiter : list Z) : list (list Z) := split_fuel (length s) s delimiter.
Definition split_part (s delimiter : list Z) (n : Z) : result Calendar.SqlError (list Z) :=
  if bool_decide (delimiter = []) then Err Calendar.Unsupported else
  if n =? 0 then Err Calendar.Unsupported else
  let parts := split s delimiter in
  let at_ := if 0 <? n then n - 1 else blen parts + n in
  if (at_ <? 0) || (blen parts <=? at_) then Ok [] else Ok (parts !!! Z.to_nat at_).
Definition position (s sub : list Z) : Z := match find s sub with None => 0 | Some i => i + 1 end.

Inductive PrefixSuccessor := Bound (s : list Z) | Unbounded | NotUtf8.
(** The bytes of the prefix, last first: the first that is not 255 is
    incremented, the ones behind it dropped. *)
Fixpoint successor_loop (rbytes : bytes) : PrefixSuccessor :=
  match rbytes with
  | [] => Unbounded
  | last :: r =>
      if negb (last =? 255) then
        match decode (rev (last + 1 :: r)) with Some text => Bound text | None => NotUtf8 end
      else successor_loop r
  end.
Definition prefix_successor (prefix : list Z) : PrefixSuccessor := successor_loop (rev (encode prefix)).
Definition like_prefix (pattern : list Z) : option (list Z) :=
  match rev pattern with
  | c :: r =>
      if c =? 37 then
        let body := rev r in
        if bool_decide (body = []) || existsb (λ c, (c =? 37) || (c =? 95) || (c =? 92)) body then None else Some body
      else None
  | [] => None
  end.

(** * What they promise *)

(** The characters from position [from] up to [upto], one-based. *)
Definition positions (s : list Z) (from upto : Z) : list Z :=
  omap (λ p : Z * Z, if (from <=? p.1) && (p.1 <? upto) then Some p.2 else None) (zip (seqZ 1 (blen s)) s).
Lemma slice_cons {A} (c : A) s k n : 0 < k → slice (c :: s) k n = slice s (k - 1) n.
Proof. intros. unfold slice. replace (Z.to_nat k) with (S (Z.to_nat (k - 1))) by lia. done. Qed.
Lemma slice_head {A} (c : A) s n : 0 < n → slice (c :: s) 0 n = c :: slice s 0 (n - 1).
Proof. intros. unfold slice. replace (Z.to_nat n) with (S (Z.to_nat (n - 1))) by lia. done. Qed.
Lemma slice_none {A} (s : list A) k n : n ≤ 0 → slice s k n = [].
Proof. intros. unfold slice. by replace (Z.to_nat n) with 0%nat by lia. Qed.
Lemma positions_slice s from upto :
  positions s from upto = slice s (Z.max from 1 - 1) (Z.min upto (blen s + 1) - Z.max from 1).
Proof.
  unfold positions. set (f := λ p : Z * Z, if (from <=? p.1) && (p.1 <? upto) then Some p.2 else None).
  assert (∀ k, omap f (zip (seqZ (k + 1) (blen s)) s)
    = slice s (Z.max from (k + 1) - (k + 1)) (Z.min upto (k + blen s + 1) - Z.max from (k + 1))) as Hgen; [|exact (Hgen 0)].
  induction s as [|c s IH]; intros k.
  { simpl. unfold slice. by rewrite drop_nil, take_nil. }
  rewrite blen_cons. pose proof (blen_nonneg s). rewrite seqZ_cons by lia.
  replace (Z.succ (k + 1)) with (k + 1 + 1) by lia. replace (Z.pred (1 + blen s)) with (blen s) by lia.
  cbn [zip zip_with omap list_omap]. rewrite (IH (k + 1)). unfold f at 1. cbn [fst snd].
  destruct (Z.leb_spec from (k + 1)), (Z.ltb_spec (k + 1) upto); cbn [andb].
  - rewrite !Z.max_r by lia. rewrite !Z.sub_diag, slice_head by lia. f_equal. f_equal; lia.
  - rewrite !slice_none by lia. done.
  - rewrite slice_cons by lia. f_equal; lia.
  - rewrite !slice_none by lia. done.
Qed.

(** ** Splitting *)
Lemma starts_with_nil s : starts_with s [] = true.
Proof. by destruct s. Qed.
Lemma find_from_spec sub s : ∀ i,
  match find_from s sub i with
  | Some j => i ≤ j ∧ (∃ u v, s = u ++ sub ++ v ∧ j = i + blen u) ∧
      (∀ u v, s = u ++ sub ++ v → j ≤ i + blen u)
  | None => ∀ u v, s ≠ u ++ sub ++ v
  end.
Proof.
  induction s as [|c s IH]; intros i; cbn [find_from].
  - destruct (starts_with [] sub) eqn:Hs.
    + apply starts_with_iff in Hs as [v Hv]. split; [lia|]. split; [by exists [], v; rewrite blen_nil, Z.add_0_r|].
      intros u w _. pose proof (blen_nonneg u). lia.
    + intros u v Hn. symmetry in Hn. apply app_eq_nil in Hn as [-> Hn]. apply app_eq_nil in Hn as [-> _]. by rewrite starts_with_nil in Hs.
  - destruct (starts_with (c :: s) sub) eqn:Hs.
    + apply starts_with_iff in Hs as [v Hv]. split; [lia|]. split; [by exists [], v; rewrite blen_nil, Z.add_0_r|].
      intros u w _. pose proof (blen_nonneg u). lia.
    + assert (∀ u v, c :: s = u ++ sub ++ v → ∃ u', u = c :: u' ∧ s = u' ++ sub ++ v) as Hu.
      { intros [|c' u] v He; [|injection He as -> ->; by exists u]. exfalso. apply not_true_iff_false in Hs. apply Hs, starts_with_iff. by exists v. }
      specialize (IH (i + 1)). destruct (find_from s sub (i + 1)) as [j|].
      * destruct IH as (Hj & (u & v & -> & ->) & Hmin). split; [lia|]. split.
        -- exists (c :: u), v. rewrite blen_cons. split; [done|lia].
        -- intros u' w He. destruct (Hu u' w He) as (u'' & -> & He'). rewrite blen_cons. pose proof (Hmin _ _ He'). lia.
      * intros u v He. destruct (Hu u v He) as (u' & _ & He'). by eapply IH.
Qed.
(** Putting the fields of a split back together. *)
Fixpoint join (parts : list (list Z)) (delimiter : list Z) : list Z :=
  match parts with
  | [] => []
  | [p] => p
  | p :: ps => p ++ delimiter ++ join ps delimiter
  end.
Definition has (s sub : list Z) : Prop := ∃ u v, s = u ++ sub ++ v.
Lemma split_fuel_spec n s d :
  d ≠ [] → (length s ≤ n)%nat →
  join (split_fuel n s d) d = s ∧ Forall (λ p, ¬ has p d) (split_fuel n s d) ∧ split_fuel n s d ≠ [].
Proof.
  intros Hd. assert (1 ≤ blen d) by (destruct d; [done|]; rewrite blen_cons; pose proof (blen_nonneg d); lia).
  revert s. induction n as [|n IH]; intros s Hn.
  { destruct s; [|simpl in Hn; lia]. simpl. split_and!; [done| |done]. constructor; [|constructor].
    intros (u & v & He). symmetry in He. apply app_eq_nil in He as [_ He]. by apply app_eq_nil in He as [? _]. }
  cbn [split_fuel]. unfold find. pose proof (find_from_spec d s 0) as Hf. destruct (find_from s d 0) as [i|].
  - destruct Hf as (_ & (u & v & -> & ->) & Hmin). rewrite Z.add_0_l in *. rewrite slice_app_exact by done.
    assert (drop (Z.to_nat (blen u + blen d)) (u ++ d ++ v) = v) as ->.
    { rewrite app_assoc, drop_app_length'; [done|]. rewrite length_app. unfold blen. lia. }
    destruct (IH v) as (Hj & Hall & Hne). { rewrite !length_app in Hn. unfold blen in *. lia. }
    split_and!; [| |done].
    + cbn [join]. destruct (split_fuel n v d) eqn:E; [done|]. rewrite <-E in *. by rewrite Hj.
    + constructor; [|done]. intros (a & b & ->). pose proof (Hmin a (b ++ d ++ v)) as Hm. rewrite <-!app_assoc in Hm. specialize (Hm eq_refl).
      rewrite !blen_app in Hm. pose proof (blen_nonneg b). lia.
  - split_and!; [done| |done]. constructor; [|constructor]. intros (u & v & He). by eapply Hf.
Qed.

(** ** Prefix ranges *)
(** Between a prefix and the same prefix with its last byte incremented lie
    exactly the byte strings that start with it. *)
Lemma prefix_between p x b :
  (bytes_compare (p ++ [x]) b ≠ Gt ∧ bytes_compare b (p ++ [x + 1]) = Lt) ↔ starts_with b (p ++ [x]) = true.
Proof.
  revert b. induction p as [|y p IH]; intros b; simpl.
  - destruct b as [|z b]; simpl; [naive_solver|]. rewrite andb_true_iff, Z.eqb_eq.
    destruct (Z.compare_spec x z), (Z.compare_spec z (x + 1)); destruct b; simpl; naive_solver lia.
  - destruct b as [|z b]; simpl; [naive_solver|]. rewrite andb_true_iff, Z.eqb_eq, <-IH.
    destruct (Z.compare_spec y z) as [->|Hl|Hg].
    + rewrite Z.compare_refl. naive_solver.
    + rewrite (proj2 (Z.compare_gt_iff z y)) by lia. naive_solver lia.
    + rewrite (proj2 (Z.compare_lt_iff z y)) by lia. naive_solver lia.
Qed.

Lemma starts_with_encode s t : scalars s → scalars t → starts_with (encode s) (encode t) = starts_with s t.
Proof.
  intros Hs Ht. apply eq_true_iff_eq. rewrite !starts_with_iff. split.
  - intros [y He]. destruct (encode_prefix s t y Hs Ht He) as (u & -> & _). by exists u.
  - intros [u ->]. rewrite encode_app. by exists (encode u).
Qed.
Lemma encode_byte s b : scalars s → b ∈ encode s → b < 255.
Proof.
  intros Hs Hb. assert (Forall (λ b, b < 255) (encode s)) as Hall; [|rewrite Forall_forall in Hall; by apply Hall]. clear b Hb.
  induction Hs as [|c s Hc _ IH]; [constructor|]. rewrite encode_cons. apply Forall_app. split; [|exact IH].
  apply is_scalar_spec in Hc as [Hc _]. unfold encode_char.
  assert (∀ x, x mod 64 < 64) as Hm by (intros; by apply Z.mod_pos_bound).
  pose proof (Hm c). pose proof (Hm (c / 64)). pose proof (Hm (c / 4096)).
  destruct (Z.ltb_spec c 128); [|destruct (Z.ltb_spec c 2048); [|destruct (Z.ltb_spec c 65536)]]; repeat constructor; try lia.
  - pose proof (Z.div_lt_upper_bound c 64 32). lia.
  - pose proof (Z.div_lt_upper_bound c 4096 16). lia.
  - pose proof (Z.div_lt_upper_bound c 262144 5). lia.
Qed.
(** A pure prefix pattern is the prefix test. *)
Lemma like_prefix_Some pattern body :
  like_prefix pattern = Some body → pattern = body ++ [37] ∧ body ≠ [] ∧ Forall (λ c, c ≠ 37 ∧ c ≠ 95 ∧ c ≠ 92) body.
Proof.
  unfold like_prefix. destruct (rev pattern) as [|c r] eqn:Er; [done|]. destruct (Z.eqb_spec c 37) as [->|]; [|done].
  destruct (_ || _) eqn:Eb; [done|]. intros [= <-]. apply orb_false_iff in Eb as [Hne%bool_decide_eq_false Hex].
  split; [by rewrite <-(rev_involutive pattern), Er|]. split; [done|]. apply Forall_forall. intros x Hx.
  rewrite existsb_exists in Hex || idtac. destruct ((x =? 37) || (x =? 95) || (x =? 92)) eqn:E; [|lia].
  exfalso. apply not_true_iff_false in Hex. apply Hex, existsb_exists. exists x. split; [by apply list_elem_of_In|exact E].
Qed.

Section prefix.
Context `{Like.Lowercase}.
Lemma prefix_pattern body text :
  Forall (λ c, c ≠ 37 ∧ c ≠ 95 ∧ c ≠ 92) body →
  Like.pattern_matches (Some 92) false (body ++ [37]) text ↔ starts_with text body = true.
Proof using.
  intros Hb. revert text. induction Hb as [|c body (H1 & H2 & H3) _ IH]; intros text.
  - rewrite starts_with_nil. split; [done|]. intros _. rewrite <-(app_nil_r text). apply Like.pm_percent; [done|constructor].
  - simpl. split.
    + inversion 1 as [|e c' p s He| | |c' p s ? ? ? Hm]; subst; try congruence. simpl. rewrite Z.eqb_refl. by apply IH.
    + destruct text as [|x text]; [done|]. rewrite andb_true_iff, Z.eqb_eq. intros [-> Hs].
      change (x :: text) with (Like.lit false x ++ text). apply Like.pm_char; [congruence|done..|by apply IH].
Qed.

(** A pure prefix [LIKE] is one range of the text index.  Where a
    pattern is recognised as [abc%], a text matches it exactly when it starts
    with the prefix; and where the prefix's successor is a text, that is exactly
    when its UTF-8 bytes, the order of the index, lie from the prefix up to,
    but not including, the successor. *)
Lemma like_prefix_range pattern body text :
  scalars pattern → scalars text → like_prefix pattern = Some body →
  (Like.pattern_matches (Some 92) false pattern text ↔ starts_with text body = true) ∧
  match prefix_successor body with
  | Bound hi => scalars hi ∧
      (starts_with text body = true ↔
       bytes_compare (encode body) (encode text) ≠ Gt ∧ bytes_compare (encode text) (encode hi) = Lt)
  | Unbounded => False
  | NotUtf8 => True
  end.
Proof using.
  intros Hp Ht Hl. apply like_prefix_Some in Hl as (-> & Hne & Hb). split; [by apply prefix_pattern|].
  apply scalars_app in Hp as [Hs _]. unfold prefix_successor.
  destruct (exists_last (l:=encode body)) as (p & x & He).
  { destruct body as [|c body]; [done|]. rewrite encode_cons. pose proof (encode_char_length c). intros Hn.
    apply app_eq_nil in Hn as [Hn _]. rewrite Hn in *. simpl in *. lia. }
  rewrite He, rev_app_distr. cbn [rev app successor_loop].
  assert (x < 255) as Hx by (apply (encode_byte body); [done|rewrite He; set_solver]).
  rewrite (proj2 (Z.eqb_neq x 255)) by lia. cbn [negb]. rewrite rev_involutive.
  pose proof (utf8_encode_ok body Hs) as Hok. rewrite He in Hok. apply bytes_ok_app in Hok as [Hokp Hokx].
  destruct (decode (p ++ [x + 1])) as [hi|] eqn:Hd; [|done].
  apply decode_inv in Hd as [Hhi Hd].
  2: { apply bytes_ok_app. split; [done|]. apply bytes_ok_cons in Hokx as [Hx0 _]. repeat constructor; unfold byte_ok in *; lia. }
  split; [done|]. rewrite <-starts_with_encode, He, <-Hd by done. symmetry. apply prefix_between.
Qed.
End prefix.

(** Character functions count characters.  [substring] keeps the
    characters at the one-based positions from the start up to start plus
    count, positions below 1 counting towards the count and a sum past the
    largest [i64] saturating; a negative count is refused.  [left] and [right]
    split the string at the same place, counted from either end. *)
Lemma substring_positions s start count n :
  is_i64 start → blen s < i64_max → is_i64 n →
  substring s start count =
    match count with
    | None => Ok (positions s start (blen s + 1))
    | Some k => if k <? 0 then Err Calendar.Unsupported else Ok (positions s start (start + k))
    end ∧
  (n ≠ 0 → left s n ++ right s (- n) = s) ∧ (0 ≤ n → left s n = positions s 1 (n + 1)).
Proof.
  intros Hst Hlen Hn. pose proof (blen_nonneg s). split; [|split].
  - assert (∀ end_, (if end_ <=? Z.max start 1 then Ok [] else
      if blen s <=? Z.max start 1 - 1 then Ok [] else Ok (slice s (Z.max start 1 - 1) (Z.min (end_ - 1) (blen s) - (Z.max start 1 - 1))))
      = @Ok Calendar.SqlError _ (positions s start end_)) as Hend.
    { intros e. rewrite positions_slice. destruct (Z.leb_spec e (Z.max start 1)); [by rewrite slice_none by lia|].
      destruct (Z.leb_spec (blen s) (Z.max start 1 - 1)); [by rewrite slice_none by lia|]. do 2 f_equal. lia. }
    unfold substring. destruct count as [k|]; cbn [rbind]; [|apply Hend].
    destruct (Z.ltb_spec k 0); [done|]. cbn [rbind]. rewrite Hend. f_equal. rewrite !positions_slice. f_equal.
    unfold saturating_add_i64. unfold i64_min, i64_max in *. lia.
  - intros Hn0. unfold left, right. destruct (Z.ltb_spec n 0), (Z.ltb_spec (- n) 0); try lia.
    + replace (Z.max (blen s + n) 0) with (blen s - Z.min (- n) (blen s)) by lia. apply take_drop.
    + replace (Z.min (Z.abs (- n)) (blen s)) with (Z.min n (blen s)) by lia. apply take_drop.
  - intros Hn0. unfold left. rewrite (proj2 (Z.ltb_ge n 0)) by lia. rewrite positions_slice, take_slice by lia.
    destruct (decide (n = 0)) as [->|]; [by rewrite !slice_none by lia|]. f_equal; lia.
Qed.

(** [split_part] returns fields of the string.  The fields joined with
    the delimiter are the string, none of them contains the delimiter, and the
    answer is the field of that number from the start, or from the end for a
    negative number, empty past either end; an empty delimiter and field number
    0 are refused.  [position] is 0 for a text that does not occur and
    otherwise the first place where it does. *)
Lemma split_part_fields s d n :
  (if bool_decide (d = []) || (n =? 0) then split_part s d n = Err Calendar.Unsupported
   else join (split s d) d = s ∧ Forall (λ p, ¬ has p d) (split s d) ∧
     split_part s d n = Ok (default [] (if 0 <? n then split s d !! Z.to_nat (n - 1)
       else if blen (split s d) + n <? 0 then None else split s d !! Z.to_nat (blen (split s d) + n)))) ∧
  (position s d = 0 ↔ ¬ has s d) ∧
  (∀ k, position s d = k + 1 → 0 ≤ k → (∃ u v, s = u ++ d ++ v ∧ k = blen u) ∧ ∀ u v, s = u ++ d ++ v → k ≤ blen u).
Proof.
  split.
  - unfold split_part. case_bool_decide as Hd; [done|]. simpl. destruct (Z.eqb_spec n 0) as [|Hn]; [done|].
    destruct (split_fuel_spec (length s) s d Hd ltac:(lia)) as (Hj & Hall & _). unfold split in *. split; [done|]. split; [done|].
    set (ps := split_fuel (length s) s d) in *. clearbody ps. pose proof (blen_nonneg ps).
    assert (∀ k, 0 ≤ k → (if (k <? 0) || (blen ps <=? k) then Ok [] else @Ok Calendar.SqlError _ (ps !!! Z.to_nat k)) = Ok (default [] (ps !! Z.to_nat k))) as Hk.
    { intros k Hk. rewrite (proj2 (Z.ltb_ge k 0)) by lia. simpl. destruct (Z.leb_spec (blen ps) k).
      - by rewrite lookup_ge_None_2 by (unfold blen in *; lia).
      - destruct (ps !! Z.to_nat k) as [x|] eqn:E; [by rewrite (list_lookup_total_correct _ _ _ E)|].
        apply lookup_ge_None in E. unfold blen in *. lia. }
    destruct (Z.ltb_spec 0 n); [apply Hk; lia|]. destruct (Z.ltb_spec (blen ps + n) 0) as [|Hge]; [done|].
    pose proof (Hk _ Hge) as He. by rewrite (proj2 (Z.ltb_ge _ 0) Hge) in He.
  - unfold position, find. pose proof (find_from_spec d s 0) as Hf. destruct (find_from s d 0) as [i|].
    + destruct Hf as (Hi & (u & v & -> & ->) & Hmin). split.
      * split; [lia|]. intros Hn. exfalso. apply Hn. by exists u, v.
      * intros k Hk _. replace k with (0 + blen u) by lia. split; [by exists u, v|]. intros a b He. by apply (Hmin a b).
    + split; [|intros k Hk; lia]. split; [|done]. intros _ (u & v & He). by eapply Hf.
Qed.

(** The words PostgreSQL's boolean input accepts. *)
Definition true_words : list string := ["1"; "on"; "t"; "tr"; "tru"; "true"; "y"; "ye"; "yes"]%string.
Definition false_words : list string := ["0"; "of"; "off"; "f"; "fa"; "fal"; "fals"; "false"; "n"; "no"]%string.
(** The prefixes of a word. *)
Lemma begins_prefix s w : begins s w = true ↔ ∃ k, w = take k (ascii_bytes s).
Proof.
  unfold begins. rewrite starts_with_iff. split.
  - intros [t Ht]. exists (length w). by rewrite Ht, take_app_length.
  - intros [k ->]. exists (drop k (ascii_bytes s)). by rewrite take_drop.
Qed.

Lemma one_of_In w l : one_of w l = true ↔ ∃ s, In s l ∧ w = ascii_bytes s.
Proof.
  unfold one_of. rewrite existsb_exists. split; intros (s & Hs & He); exists s; split; try done;
    [symmetry; by apply bool_decide_eq_true in He|by apply bool_decide_eq_true].
Qed.
(** A prefix of a short word, one length at a time. *)
Ltac prefixes H :=
  apply begins_prefix in H as [k ->]; do 6 (destruct k as [|k]; [first [reflexivity|discriminate]|]); first [reflexivity|discriminate].

(** The boolean input is PostgreSQL's.  Without the white space around
    it and in lower case, the text is true for exactly [1], [on] and the
    prefixes of [true] and [yes], false for exactly [0], [of], [off] and the
    prefixes of [false] and [no], and nothing otherwise: [o] is neither. *)
Lemma parse_bool_words text b :
  parse_bool text = Some b ↔ one_of (map ascii_lower (str_trim text)) (if b then true_words else false_words) = true.
Proof.
  unfold parse_bool. set (w := map ascii_lower (str_trim text)). clearbody w. split.
  - destruct (one_of w [""%string]) eqn:E0; [done|].
    destruct (one_of w ["1"; "on"]%string) eqn:E1.
    { intros [= <-]. apply one_of_In in E1 as (s & Hs & ->). repeat destruct Hs as [<-|Hs]; done. }
    destruct (one_of w ["0"%string]) eqn:E2.
    { intros [= <-]. apply one_of_In in E2 as (s & Hs & ->). repeat destruct Hs as [<-|Hs]; done. }
    destruct (_ && _) eqn:E3.
    { intros [= <-]. apply andb_true_iff in E3 as [Hl E3]. prefixes E3. }
    destruct (_ || _) eqn:E4.
    { intros [= <-]. apply orb_true_iff in E4 as [E4|E4]; prefixes E4. }
    destruct (begins "false" w || begins "no" w) eqn:E5; [|discriminate].
    intros [= <-]. apply orb_true_iff in E5 as [E5|E5]; prefixes E5.
  - intros Hw. apply one_of_In in Hw as (s & Hs & ->). destruct b; simpl in Hs; repeat destruct Hs as [<-|Hs]; done.
Qed.

Lemma like_prefix_range_witness :
  ∃ hi, prefix_successor [84; 105] = Bound hi ∧
    (starts_with [84; 105; 109] [84; 105] = true ↔
     bytes_compare (encode [84; 105]) (encode [84; 105; 109]) ≠ Gt ∧ bytes_compare (encode [84; 105; 109]) (encode hi) = Lt).
Proof.
  exists [84; 106]. split; [reflexivity|].
  refine (proj2 (proj2 (like_prefix_range (H:={| Like.char_lower := λ c, [c]; Like.str_lower := λ s, s |}) [84; 105; 37] [84; 105] [84; 105; 109] _ _ eq_refl)));
    repeat constructor.
Defined.
Lemma substring_positions_witness :
  substring [97; 98; 99; 100] (-1) (Some 4) = Ok (positions [97; 98; 99; 100] (-1) 3) ∧ positions [97; 98; 99; 100] (-1) 3 = [97; 98].
Proof.
  split; [|reflexivity].
  exact (proj1 (substring_positions [97; 98; 99; 100] (-1) (Some 4) 0 ltac:(split; discriminate) ltac:(reflexivity) ltac:(split; discriminate))).
Defined.
Example sample_split : split_part [97; 44; 98; 44; 99] [44] (-1) = Ok [99] ∧ position [97; 98; 99] [99] = 3.
Proof. vm_compute. done. Qed.
Example sample_not_utf8 : prefix_successor [255] = NotUtf8 ∧ prefix_successor [233] = Bound [234].
Proof. vm_compute. done. Qed.
End SqlText.
