(* ===== verification/SqlTime.v ===== *)
(** * Date and time literals of SQL ([lang/src/functions.rs])

    Reading and printing timestamps and dates, [to_char], and fixed-width
    intervals.  The reader slices the literal by byte positions; a slice that
    cuts a character in two is Rust's panic, [None] here. *)
From S2P Require Import Prelude Utf8 Calendar SqlText.
Import Utf8 Calendar SqlText.

Module SqlTime.

(** A step that may panic or be refused. *)
Definition orbind {A B} (m : option (result SqlError A)) (f : A → option (result SqlError B)) : option (result SqlError B) :=
  match m with None => None | Some (Err e) => Some (Err e) | Some (Ok a) => f a end.
#[local] Notation "'let!' x ':=' m 'in' k" := (orbind m (fun x => k))
  (at level 10, x pattern, m at level 100, k at level 200) : skj_scope.

(** ** Slices of a [str] *)
Definition is_boundary (b : bytes) (i : Z) : bool :=
  (i =? 0) || (i =? blen b) || ((0 <=? i) && (i <? blen b) && negb (cont (byte_at b i))).
(** [s.get(i..j)]; as an index, [None] is a panic. *)
Definition str_slice (b : bytes) (i j : Z) : option bytes :=
  if (i <=? j) && (j <=? blen b) && is_boundary b i && is_boundary b j then Some (slice b i (j - i)) else None.
Definition str_from (b : bytes) (i : Z) : option bytes := str_slice b i (blen b).

(** ** Numbers *)
Definition is_digit (c : Z) : bool := (48 <=? c) && (c <=? 57).
Fixpoint parse_digits (acc : Z) (b : list Z) : option Z :=
  match b with [] => Some acc | c :: b => if is_digit c then parse_digits (acc * 10 + (c - 48)) b else None end.
(** [str::parse::<i64>]. *)
Definition parse_i64 (b : list Z) : option Z :=
  match b with
  | [] => None
  | c :: r =>
      let neg := c =? 45 in
      let digits := if neg || (c =? 43) then r else b in
      match digits with
      | [] => None
      | _ => v ← parse_digits 0 digits; i64_chk (if neg then - v else v)
      end
  end.
(** The decimal digits of a nonnegative number (20 are enough for 64 bits), and
    the [{:0w}] of a signed one. *)
Fixpoint dec_fuel (n : nat) (z : Z) : bytes :=
  match n with
  | O => []
  | S n => if z <? 10 then [48 + z] else dec_fuel n (z / 10) ++ [48 + z mod 10]
  end.
Definition dec (z : Z) : bytes := dec_fuel 20 z.
Definition pad (w : nat) (z : Z) : bytes := replicate (w - length (dec z)) 48 ++ dec z.
Definition fmt (w : nat) (z : Z) : bytes := if z <? 0 then 45 :: pad (w - 1) (- z) else pad w z.

(** ** Printing *)
Definition ymd (c : Civil) : bytes := fmt 4 (year c) ++ [45] ++ fmt 2 (month c) ++ [45] ++ fmt 2 (day c).
Definition hms (c : Civil) : bytes := fmt 2 (hour c) ++ [58] ++ fmt 2 (minute c) ++ [58] ++ fmt 2 (second c).
Definition format_timestamp (micros : Z) : bytes :=
  let c := civil_from_micros micros in
  let head := ymd c ++ [84] ++ hms c in
  if micro c =? 0 then head ++ [90] else head ++ [46] ++ fmt 6 (micro c) ++ [90].
Definition format_date (micros : Z) : bytes := ymd (civil_from_micros micros).
Definition to_char (micros : Z) (format : string) : result SqlError bytes :=
  let c := civil_from_micros micros in
  if bool_decide (format = "YYYY-MM-DD"%string) then Ok (ymd c) else
  if bool_decide (format = "YYYY-MM"%string) then Ok (fmt 4 (year c) ++ [45] ++ fmt 2 (month c)) else
  if bool_decide (format = "YYYY"%string) then Ok (fmt 4 (year c)) else
  if bool_decide (format = "HH24:MI"%string) then Ok (fmt 2 (hour c) ++ [58] ++ fmt 2 (minute c)) else
  if bool_decide (format = "HH24:MI:SS"%string) then Ok (hms c) else
  if bool_decide (format = "YYYY-MM-DD HH24:MI:SS"%string) then Ok (ymd c ++ [32] ++ hms c)
  else Err Unsupported.

(** ** Reading *)
(** A slice that panics, or a number that is refused. *)
Definition number_at (b : bytes) (i j : Z) : option (result SqlError Z) :=
  t ← str_slice b i j; Some (ok_or (parse_i64 t) BadParameter).
Definition first_is (b : bytes) (c : Z) : bool := bool_decide (head b = Some c).
Definition count_while (f : Z → bool) (b : list Z) : Z := blen (b) - blen (trim_start_by f b).
(** The fraction in microseconds: short ones padded, digits past six dropped. *)
Definition scale_fraction (digits fraction : Z) : Z :=
  if digits <=? 6 then Nat.iter (Z.to_nat (6 - digits)) (λ f, f * 10) fraction
  else Nat.iter (Z.to_nat (digits - 6)) (λ f, f / 10) fraction.
(** [:SS[.ffffff]]: the seconds, the microseconds and what is left. *)
Definition parse_seconds (rest : bytes) : option (result SqlError (Z * Z * bytes)) :=
  if negb (first_is rest 58) then Some (Ok (0, 0, rest)) else
  if blen rest <? 3 then Some (Err BadParameter) else
  let! second := number_at rest 1 3 in
  rest ← str_from rest 3;
  if negb (first_is rest 46) then Some (Ok (second, 0, rest)) else
  tail ← str_from rest 1;
  let digits := Z.min (count_while is_digit tail) 9 in
  if digits =? 0 then Some (Err BadParameter) else
  let! fraction := number_at rest 1 (1 + digits) in
  rest ← str_from rest (1 + digits);
  Some (Ok (second, scale_fraction digits fraction, rest)).
(** Hour, minute, second, microsecond and what is left. *)
Definition parse_time (rest : bytes) : option (result SqlError (Z * Z * Z * Z * bytes)) :=
  if negb (first_is rest 84 || first_is rest 116 || first_is rest 32) then Some (Ok (0, 0, 0, 0, rest)) else
  rest ← str_from rest 1;
  if (blen rest <? 5) || negb (byte_at rest 2 =? 58) then Some (Err BadParameter) else
  let! hour := number_at rest 0 2 in
  let! minute := number_at rest 3 5 in
  rest ← str_from rest 5;
  let! s := parse_seconds rest in
  let '(second, micro, rest) := s in
  Some (Ok (hour, minute, second, micro, rest)).
(** The zone suffix: the offset in microseconds and what is left. *)
Definition parse_zone (rest : bytes) : option (result SqlError (Z * bytes)) :=
  if first_is rest 90 || first_is rest 122 then rest ← str_from rest 1; Some (Ok (0, rest)) else
  if first_is rest 43 || first_is rest 45 then
    let sign := if first_is rest 45 then -1 else 1 in
    body ← str_from rest 1;
    let parts :=
      if (5 <=? blen body) && (byte_at body 2 =? 58) then
        oh ← str_slice body 0 2; om ← str_slice body 3 5; Some (Some (oh, om, 6))
      else if 4 <=? blen body then oh ← str_slice body 0 2; om ← str_slice body 2 4; Some (Some (oh, om, 5))
      else if 2 <=? blen body then oh ← str_slice body 0 2; Some (Some (oh, [48; 48], 3))
      else Some None in
    parts ← parts;
    match parts with
    | None => Some (Err BadParameter)
    | Some (oh, om, used) =>
        match parse_i64 oh, parse_i64 om with
        | Some oh, Some om => rest ← str_from rest used; Some (Ok (sign * (oh * MICROS_PER_HOUR + om * MICROS_PER_MINUTE), rest))
        | _, _ => Some (Err BadParameter)
        end
    end
  else Some (Ok (0, rest)).
Definition in_range (lo hi z : Z) : bool := (lo <=? z) && (z <=? hi).
(** Every number read has at most nine digits, so the sums stay far inside an [i64]. *)
Definition parse_timestamp (text : list Z) : option (result SqlError Z) :=
  let s := str_trim text in
  let b := encode s in
  let bad := Some (Err BadParameter) in
  if blen b <? 10 then bad else
  let num i j := t ← str_slice b i j; parse_i64 t in
  if negb (byte_at b 4 =? 45) || negb (byte_at b 7 =? 45) then bad else
  match num 0 4, num 5 7, num 8 10 with
  | Some year, Some month, Some day =>
      if negb (in_range 1 12 month) || negb (in_range 1 31 day) then bad else
      rest ← str_from b 10;
      let! t := (if bool_decide (rest = []) then Some (Ok (0, 0, 0, 0, rest)) else parse_time rest) in
      let '(hour, minute, second, micro, rest) := t in
      let! z := (if bool_decide (rest = []) then Some (Ok (0, rest)) else parse_zone rest) in
      let '(offset, rest) := z in
      if negb (forallb is_whitespace (default [] (decode rest))) then bad else
      if negb (in_range 0 23 hour) || negb (in_range 0 59 minute) || negb (in_range 0 60 second) then bad else
      let days := days_from_civil year month day in
      if negb (bool_decide (civil_from_days days = (year, month, day))) then bad else
      Some (Ok (days * MICROS_PER_DAY + hour * MICROS_PER_HOUR + minute * MICROS_PER_MINUTE
                + second * MICROS_PER_SECOND + micro - offset))
  | _, _, _ => bad
  end.

(** ** Intervals *)
Definition is_alpha (c : Z) : bool := ((65 <=? c) && (c <=? 90)) || ((97 <=? c) && (c <=? 122)).
Definition interval_scale (unit_ : list Z) : option Z :=
  let u := map ascii_lower unit_ in
  if one_of u ["microsecond"; "microseconds"; "us"]%string then Some 1 else
  if one_of u ["millisecond"; "milliseconds"; "ms"]%string then Some 1000 else
  if one_of u ["second"; "seconds"; "sec"; "secs"; "s"]%string then Some MICROS_PER_SECOND else
  if one_of u ["minute"; "minutes"; "min"; "mins"]%string then Some MICROS_PER_MINUTE else
  if one_of u ["hour"; "hours"; "h"]%string then Some MICROS_PER_HOUR else
  if one_of u ["day"; "days"; "d"]%string then Some MICROS_PER_DAY else
  if one_of u ["week"; "weeks"; "w"]%string then Some (7 * MICROS_PER_DAY) else None.
Fixpoint interval_loop (n : nat) (rest : list Z) (total : Z) (seen : bool) : option (result SqlError Z) :=
  match n with
  | O => None
  | S n =>
      if forallb is_whitespace rest then Some (if seen then Ok total else Err Unsupported) else
      let body := trim_start rest in
      let sign_len := if first_is body 45 || first_is body 43 then 1 else 0 in
      let digits := count_while is_digit (drop (Z.to_nat sign_len) body) in
      if digits =? 0 then Some (Err Unsupported) else
      match parse_i64 (slice body 0 (sign_len + digits)) with
      | None => Some (Err Unsupported)
      | Some magnitude =>
          let after := trim_start (drop (Z.to_nat (sign_len + digits)) body) in
          let unit_len := count_while is_alpha after in
          match interval_scale (slice after 0 unit_len) with
          | None => Some (Err Unsupported)
          | Some scale =>
              match (p ← i64_chk (magnitude * scale); i64_chk (total + p)) with
              | None => Some (Err Unsupported)
              | Some total => interval_loop n (drop (Z.to_nat unit_len) after) total true
              end
          end
      end
  end.
(** Every turn takes a digit, so the length is fuel enough. *)
Definition parse_interval (text : list Z) : option (result SqlError Z) :=
  let s := str_trim text in
  if bool_decide (s = []) then Some (Err Unsupported) else interval_loop (S (length s)) s 0 false.

Example sample_literals :
  parse_timestamp (ascii_bytes "2001-02-03T05:05:06+01:00") = Some (Ok 981173106000000) ∧
  parse_timestamp (ascii_bytes "2001-02-03T03:05:06-0100") = Some (Ok 981173106000000) ∧
  parse_timestamp (ascii_bytes " 2001-02-03 04:05:06.5") = Some (Ok 981173106500000) ∧
  parse_timestamp (ascii_bytes "2001-02-30") = Some (Err BadParameter) ∧
  format_timestamp 981173106500000 = ascii_bytes "2001-02-03T04:05:06.500000Z" ∧
  parse_interval (ascii_bytes "7 days -2h") = Some (Ok 597600000000) ∧
  parse_interval (ascii_bytes "1 month") = Some (Err Unsupported).
Proof. vm_compute. done. Qed.
(** A literal with a character cut by a field, and a year the reader has no
    place for. *)
Example timestamp_panics : parse_timestamp (ascii_bytes "2001-02-03T10:1" ++ [233]) = None.
Proof. vm_compute. done. Qed.
Example year_10000_does_not_read_back :
  parse_timestamp (format_timestamp 253402300800000000) = Some (Err BadParameter).
Proof. vm_compute. done. Qed.

(** * Decimal digits *)
Fixpoint fixed (w : nat) (z : Z) : bytes :=
  match w with O => [] | S w => fixed w (z / 10) ++ [48 + z mod 10] end.
Definition digit (c : Z) : Prop := 48 ≤ c ≤ 57.
Lemma fixed_digits w z : 0 ≤ z → Forall digit (fixed w z).
Proof.
  revert z. induction w as [|w IH]; intros z Hz; [constructor|]. cbn [fixed]. apply Forall_app. split; [apply IH, Z.div_pos; lia|].
  constructor; [|constructor]. pose proof (Z.mod_pos_bound z 10 ltac:(done)). unfold digit. lia.
Qed.
Lemma length_fixed w z : length (fixed w z) = w.
Proof. revert z. induction w as [|w IH]; intros z; [done|]. cbn [fixed]. rewrite length_app, IH. simpl. lia. Qed.
Lemma fixed_0 w : fixed w 0 = replicate w 48.
Proof.
  induction w as [|w IH]; [done|]. cbn [fixed]. change (0 / 10) with 0. rewrite IH. change (48 + 0 mod 10) with 48. by rewrite <-replicate_cons_app || (symmetry; apply replicate_S_end).
Qed.
Lemma pow10_S (w : nat) : 10 ^ Z.of_nat (S w) = 10 * 10 ^ Z.of_nat w.
Proof. rewrite Nat2Z.inj_succ. apply Z.pow_succ_r. lia. Qed.
(** A number that fits a field is printed as its digits. *)
Lemma dec_fixed n : ∀ w z, 0 ≤ z < 10 ^ Z.of_nat w → (1 ≤ w)%nat → (w ≤ n)%nat →
  (length (dec_fuel n z) ≤ w)%nat ∧ replicate (w - length (dec_fuel n z)) 48 ++ dec_fuel n z = fixed w z.
Proof.
  induction n as [|n IH]; intros w z Hz Hw Hn; [lia|]. destruct w as [|w]; [lia|]. cbn [dec_fuel].
  destruct (Z.ltb_spec z 10).
  - split; [simpl; lia|]. cbn [fixed]. rewrite (Z.div_small z 10), (Z.mod_small z 10), fixed_0 by lia. simpl. by rewrite Nat.sub_0_r.
  - rewrite pow10_S in Hz. destruct w as [|w]; [change (10 ^ Z.of_nat 0) with 1 in Hz; lia|].
    destruct (IH (S w) (z / 10)) as [Hl He]; [|lia|lia|].
    { split; [apply Z.div_pos; lia|apply Z.div_lt_upper_bound; lia]. }
    rewrite length_app. split; [simpl; lia|]. change (fixed (S (S w)) z) with (fixed (S w) (z / 10) ++ [48 + z mod 10]).
    rewrite <-He, <-app_assoc. f_equal. f_equal. simpl. lia.
Qed.
Lemma pad_fixed w z : 0 ≤ z < 10 ^ Z.of_nat w → (1 ≤ w ≤ 20)%nat → pad w z = fixed w z.
Proof. intros Hz Hw. exact (proj2 (dec_fixed 20 w z Hz ltac:(lia) ltac:(lia))). Qed.
Lemma fmt_fixed w z : 0 ≤ z < 10 ^ Z.of_nat w → (1 ≤ w ≤ 20)%nat → fmt w z = fixed w z.
Proof. intros Hz Hw. unfold fmt. rewrite (proj2 (Z.ltb_ge z 0)) by lia. by apply pad_fixed. Qed.

Lemma is_digit_spec c : is_digit c = true ↔ digit c.
Proof. unfold is_digit, digit. rewrite andb_true_iff, !Z.leb_le. lia. Qed.
Lemma parse_digits_app a b acc : Forall digit a → parse_digits acc (a ++ b) = (v ← parse_digits acc a; parse_digits v b).
Proof.
  intros Ha. revert acc. induction Ha as [|c a Hc _ IH]; intros acc; [done|]. cbn [app parse_digits].
  rewrite (proj2 (is_digit_spec c) Hc). apply IH.
Qed.
Lemma parse_fixed w z acc : 0 ≤ z < 10 ^ Z.of_nat w → parse_digits acc (fixed w z) = Some (acc * 10 ^ Z.of_nat w + z).
Proof.
  revert z acc. induction w as [|w IH]; intros z acc Hz.
  { change (10 ^ Z.of_nat 0) with 1 in *. simpl. f_equal. lia. }
  rewrite pow10_S in Hz |- *. cbn [fixed]. assert (0 ≤ z / 10 < 10 ^ Z.of_nat w) as Hd by (split; [apply Z.div_pos; lia|apply Z.div_lt_upper_bound; lia]).
  rewrite parse_digits_app, IH by (done || apply fixed_digits; lia). pose proof (Z.mod_pos_bound z 10 ltac:(done)). pose proof (Z.div_mod z 10 ltac:(done)).
  cbn [mbind option_bind parse_digits]. rewrite (proj2 (is_digit_spec _)) by (unfold digit; lia). f_equal. lia.
Qed.
Lemma parse_i64_digits l v : Forall digit l → l ≠ [] → parse_digits 0 l = Some v → parse_i64 l = i64_chk v.
Proof.
  intros Hl Hne Hv. destruct l as [|c l]; [done|]. unfold parse_i64. apply Forall_cons in Hl as [Hc _]. unfold digit in Hc.
  rewrite (proj2 (Z.eqb_neq c 45)), (proj2 (Z.eqb_neq c 43)) by lia. cbn [orb]. by rewrite Hv.
Qed.
Lemma parse_i64_fixed w z : 0 ≤ z < 10 ^ Z.of_nat w → (1 ≤ w)%nat → z ≤ i64_max → parse_i64 (fixed w z) = Some z.
Proof.
  intros Hz Hw Hm. rewrite (parse_i64_digits _ z).
  - apply i64_chk_ok. unfold i64_min, i64_max in *. lia.
  - apply fixed_digits. lia.
  - intros He. apply (f_equal length) in He. rewrite length_fixed in He. simpl in He. lia.
  - by rewrite parse_fixed by done.
Qed.

(** * ASCII literals *)
Definition ascii (s : list Z) : Prop := Forall (λ c, 0 ≤ c < 128) s.
Lemma encode_ascii s : ascii s → encode s = s.
Proof.
  induction 1 as [|c s Hc _ IH]; [done|]. rewrite encode_cons, IH. unfold encode_char. by rewrite (proj2 (Z.ltb_lt c 128)) by lia.
Qed.
Lemma digits_ascii l : Forall digit l → ascii l.
Proof. intros H. eapply Forall_impl; [exact H|]. unfold digit. simpl. lia. Qed.
Lemma ascii_boundary s i : ascii s → 0 ≤ i ≤ blen s → is_boundary s i = true.
Proof.
  intros Hs Hi. unfold is_boundary. destruct (Z.eqb_spec i 0); [done|]. destruct (Z.eqb_spec i (blen s)); [done|]. simpl.
  rewrite (proj2 (Z.leb_le 0 i)), (proj2 (Z.ltb_lt i (blen s))) by lia. simpl. apply negb_true_iff, cont_false.
  unfold byte_at. destruct (lookup_lt_is_Some_2 s (Z.to_nat i)) as [x Hx]; [unfold blen in *; lia|].
  rewrite (list_lookup_total_correct _ _ _ Hx). apply (Forall_lookup_1 _ _ _ _ Hs) in Hx. lia.
Qed.
(** Slicing an ASCII literal at the seams of its parts. *)
Lemma str_slice_mid a b c : ascii (a ++ b ++ c) → str_slice (a ++ b ++ c) (blen a) (blen a + blen b) = Some b.
Proof.
  intros Hs. pose proof (blen_nonneg a). pose proof (blen_nonneg b). pose proof (blen_nonneg c). unfold str_slice.
  rewrite !ascii_boundary by (try done; rewrite !blen_app; lia).
  rewrite (proj2 (Z.leb_le _ _)), (proj2 (Z.leb_le (blen a + blen b) _)) by (rewrite ?blen_app; lia). simpl. f_equal.
  rewrite slice_app_r, Z.sub_diag by lia. apply slice_app_exact. lia.
Qed.
Lemma str_slice_part s a b c i j :
  ascii s → s = a ++ b ++ c → i = blen a → j = blen a + blen b → str_slice s i j = Some b.
Proof. intros Hs -> -> ->. by apply str_slice_mid. Qed.
Lemma str_from_part s a b i : ascii s → s = a ++ b → i = blen a → str_from s i = Some b.
Proof.
  intros Hs -> ->. unfold str_from. apply (str_slice_part _ a b []); [done|by rewrite app_nil_r|done|by rewrite blen_app].
Qed.
Lemma number_at_part s a w z c i j :
  ascii s → s = a ++ fixed w z ++ c → i = blen a → j = blen a + Z.of_nat w → 0 ≤ z < 10 ^ Z.of_nat w → (1 ≤ w)%nat → z ≤ i64_max →
  number_at s i j = Some (Ok z).
Proof.
  intros Hs He Hi Hj Hz Hw Hm. unfold number_at. rewrite (str_slice_part s a (fixed w z) c) by (try done; unfold blen at 2; rewrite length_fixed; done).
  cbn [mbind option_bind]. by rewrite parse_i64_fixed.
Qed.
Lemma byte_at_part a x c i : i = blen a → byte_at (a ++ x :: c) i = x.
Proof.
  intros ->. unfold byte_at, blen. rewrite Nat2Z.id. by rewrite lookup_total_app_r, Nat.sub_diag by lia.
Qed.
Lemma trim_start_stop f s : match s with c :: _ => f c = false | [] => True end → trim_start_by f s = s.
Proof. destruct s as [|c s]; [done|]. simpl. by intros ->. Qed.
Lemma str_trim_stop c m d : is_whitespace c = false → is_whitespace d = false → str_trim (c :: m ++ [d]) = c :: m ++ [d].
Proof.
  intros Hc Hd. unfold str_trim, trim_by. rewrite (trim_start_stop _ (c :: m ++ [d])) by done.
  change (c :: m ++ [d]) with ((c :: m) ++ [d]). rewrite rev_app_distr. rewrite trim_start_stop by done. by rewrite rev_app_distr, rev_involutive.
Qed.
Lemma digit_not_space c : digit c → is_whitespace c = false.
Proof. unfold digit, is_whitespace. intros. repeat (rewrite ?orb_false_iff, ?andb_false_iff); rewrite ?Z.eqb_neq, ?Z.leb_gt. lia. Qed.
Lemma count_while_app f a b :
  Forall (λ c, f c = true) a → match b with c :: _ => f c = false | [] => True end → count_while f (a ++ b) = blen a.
Proof.
  intros Ha Hb. unfold count_while. assert (trim_start_by f (a ++ b) = b) as ->.
  { induction Ha as [|c a Hc _ IH]; [by apply trim_start_stop|]. simpl. by rewrite Hc. }
  rewrite blen_app. lia.
Qed.

(** The parts a printed instant is read in. *)
Lemma read_seconds s u tail :
  0 ≤ s ≤ 59 → 0 ≤ u ≤ 999999 → tail = (if u =? 0 then [90] else [46] ++ fixed 6 u ++ [90]) →
  parse_seconds ([58] ++ fixed 2 s ++ tail) = Some (Ok (s, u, [90])).
Proof.
  intros Hs Hu ->. set (tail := if u =? 0 then [90] else [46] ++ fixed 6 u ++ [90]).
  assert (ascii tail) as Ht.
  { unfold tail. case_match; [by repeat constructor|]. constructor; [done|]. apply Forall_app. split; [apply digits_ascii, fixed_digits; lia|by repeat constructor]. }
  assert (ascii ([58] ++ fixed 2 s ++ tail)) as Ha.
  { constructor; [done|]. apply Forall_app. split; [apply digits_ascii, fixed_digits; lia|done]. }
  unfold parse_seconds. cbn [first_is head app]. change (first_is (58 :: fixed 2 s ++ tail) 58) with true. cbn [negb].
  change (58 :: fixed 2 s ++ tail) with ([58] ++ fixed 2 s ++ tail).
  rewrite (proj2 (Z.ltb_ge _ 3)). 2: { rewrite !blen_app. unfold blen at 2. rewrite length_fixed. pose proof (blen_nonneg tail). change (blen [58]) with 1. lia. }
  rewrite (number_at_part _ [58] 2 s tail) by (try done; change (10 ^ Z.of_nat 2) with 100; unfold i64_max; lia). cbn [orbind].
  rewrite (str_from_part _ ([58] ++ fixed 2 s) tail) by done.
  cbn [mbind option_bind]. unfold tail. destruct (Z.eqb_spec u 0) as [->|Hu0]; [done|].
  change (first_is ([46] ++ fixed 6 u ++ [90]) 46) with true. cbn [negb].
  assert (ascii ([46] ++ fixed 6 u ++ [90])) as Ha'.
  { constructor; [done|]. apply Forall_app. split; [apply digits_ascii, fixed_digits; lia|by repeat constructor]. }
  rewrite (str_from_part _ [46] (fixed 6 u ++ [90])) by done. cbn [mbind option_bind].
  assert (count_while is_digit (fixed 6 u ++ [90]) = 6) as ->.
  { rewrite count_while_app; [unfold blen; by rewrite length_fixed| |done].
    eapply Forall_impl; [apply (fixed_digits 6 u); lia|]. intros c. apply is_digit_spec. }
  change (Z.min 6 9) with 6. change (6 =? 0) with false. cbv iota. change (1 + 6) with 7.
  rewrite (number_at_part _ [46] 6 u [90]) by (try done; change (10 ^ Z.of_nat 6) with 1000000; unfold i64_max; lia). cbn [orbind].
  rewrite (str_from_part _ ([46] ++ fixed 6 u) [90]) by done. done.
Qed.

Definition zone_tail (u : Z) : bytes := if u =? 0 then [90] else [46] ++ fixed 6 u ++ [90].
Lemma ascii_fixed w z r : 0 ≤ z → ascii r → ascii (fixed w z ++ r).
Proof. intros. apply Forall_app. split; [by apply digits_ascii, fixed_digits|done]. Qed.
Lemma ascii_cons c r : 0 ≤ c < 128 → ascii r → ascii (c :: r).
Proof. by constructor. Qed.
Lemma zone_tail_ascii u : 0 ≤ u → ascii (zone_tail u).
Proof. intros. unfold zone_tail. case_match; [by repeat constructor|]. apply ascii_cons; [done|]. apply ascii_fixed; [done|by repeat constructor]. Qed.
Ltac ascii_tac := repeat first [apply ascii_fixed; [lia|]|apply ascii_cons; [done|]|apply zone_tail_ascii; lia|constructor].
Lemma read_time h m s u :
  0 ≤ h ≤ 23 → 0 ≤ m ≤ 59 → 0 ≤ s ≤ 59 → 0 ≤ u ≤ 999999 →
  parse_time (84 :: fixed 2 h ++ 58 :: fixed 2 m ++ 58 :: fixed 2 s ++ zone_tail u) = Some (Ok (h, m, s, u, [90])).
Proof.
  intros Hh Hm Hs Hu. set (sec := 58 :: fixed 2 s ++ zone_tail u). unfold parse_time.
  change (first_is (84 :: fixed 2 h ++ 58 :: fixed 2 m ++ sec) 84) with true. cbn [orb negb].
  assert (ascii sec) as Hsec by (unfold sec; ascii_tac).
  rewrite (str_from_part _ [84] (fixed 2 h ++ 58 :: fixed 2 m ++ sec)); [|apply ascii_cons; [done|]; apply ascii_fixed; [lia|]; apply ascii_cons; [done|]; by apply ascii_fixed; [lia|]|done..].
  cbn [mbind option_bind].
  assert (ascii (fixed 2 h ++ 58 :: fixed 2 m ++ sec)) as Ha by (apply ascii_fixed; [lia|]; apply ascii_cons; [done|]; apply ascii_fixed; [lia|done]).
  rewrite (proj2 (Z.ltb_ge _ 5)). 2: { change (fixed 2 h ++ 58 :: fixed 2 m ++ sec) with (fixed 2 h ++ [58] ++ fixed 2 m ++ sec). rewrite !blen_app. pose proof (blen_nonneg sec). unfold blen at 1 2 3. rewrite !length_fixed. simpl. lia. }
  rewrite (byte_at_part (fixed 2 h) 58 _ 2) by (unfold blen; by rewrite length_fixed). cbn [orb negb Z.eqb Pos.eqb].
  rewrite (number_at_part _ [] 2 h (58 :: fixed 2 m ++ sec)) by (try done; change (10 ^ Z.of_nat 2) with 100; unfold i64_max; lia). cbn [orbind].
  rewrite (number_at_part _ (fixed 2 h ++ [58]) 2 m sec) by (try done; change (10 ^ Z.of_nat 2) with 100; unfold i64_max; lia). cbn [orbind].
  rewrite (str_from_part _ (fixed 2 h ++ [58] ++ fixed 2 m) sec) by done. cbn [mbind option_bind].
  change sec with ([58] ++ fixed 2 s ++ zone_tail u). by rewrite (read_seconds s u).
Qed.
Lemma year_start_range y : 0 ≤ y ≤ 9999 → 0 ≤ y < 10 ^ Z.of_nat 4.
Proof. change (10 ^ Z.of_nat 4) with 10000. lia. Qed.
(** Reading a date and whatever follows it. *)
Lemma read_date y m d tl :
  0 ≤ y ≤ 9999 → valid_date (y, m, d) → ascii tl → (∀ r x, tl = r ++ [x] → is_whitespace x = false) →
  ∀ r : option (result SqlError Z),
  (let rest := tl in
   orbind (if bool_decide (rest = []) then Some (Ok (0, 0, 0, 0, rest)) else parse_time rest) (λ t,
   let '(hour, minute, second, micro, rest) := t in
   orbind (if bool_decide (rest = []) then Some (Ok (0, rest)) else parse_zone rest) (λ z,
   let '(offset, rest) := z in
   if negb (forallb is_whitespace (default [] (decode rest))) then Some (Err BadParameter) else
   if negb (in_range 0 23 hour) || negb (in_range 0 59 minute) || negb (in_range 0 60 second) then Some (Err BadParameter) else
   Some (Ok (days_from_civil y m d * MICROS_PER_DAY + hour * MICROS_PER_HOUR + minute * MICROS_PER_MINUTE
                + second * MICROS_PER_SECOND + micro - offset)))) = r) →
  parse_timestamp (fixed 4 y ++ 45 :: fixed 2 m ++ 45 :: fixed 2 d ++ tl) = r.
Proof.
  intros Hy Hv Ha Hl r Hr. pose proof Hv as [Hm Hd]. pose proof (month_days_range y m).
  set (s := fixed 4 y ++ 45 :: fixed 2 m ++ 45 :: fixed 2 d ++ tl).
  assert (ascii s) as Hs by (unfold s; apply ascii_fixed; [lia|]; apply ascii_cons; [done|]; apply ascii_fixed; [lia|]; apply ascii_cons; [done|]; apply ascii_fixed; [lia|exact Ha]).
  unfold parse_timestamp.
  assert (str_trim s = s) as ->.
  { assert (∃ c l, fixed 4 y = c :: l ∧ digit c) as (c & l & E & Hc).
    { pose proof (fixed_digits 4 y ltac:(lia)) as Hf. pose proof (length_fixed 4 y) as Hlen.
      destruct (fixed 4 y) as [|c l]; [done|]. apply Forall_cons in Hf as [Hc _]. by exists c, l. }
    assert (∃ r x, 45 :: fixed 2 m ++ 45 :: fixed 2 d ++ tl = r ++ [x] ∧ is_whitespace x = false) as (r' & x & Hrx & Hx).
    { destruct tl as [|t0 tl'] eqn:Et.
      - exists (45 :: fixed 2 m ++ 45 :: fixed 1 (d / 10)), (48 + d mod 10). split; [by list_simplifier|].
        apply digit_not_space. unfold digit. pose proof (Z.mod_pos_bound d 10 ltac:(done)). lia.
      - destruct (exists_last (l:=t0 :: tl')) as (r' & x & Hrx); [done|]. rewrite Hrx. exists (45 :: fixed 2 m ++ 45 :: fixed 2 d ++ r'), x.
        split; [by list_simplifier|]. by eapply Hl. }
    assert (s = c :: (l ++ r') ++ [x]) as ->.
    { unfold s. rewrite Hrx, E. by list_simplifier. }
    apply str_trim_stop; [by apply digit_not_space|done]. }
  rewrite encode_ascii by done. cbv zeta.
  assert (10 ≤ blen s) as H10.
  { unfold s. rewrite !blen_app, blen_cons, blen_app, blen_cons, blen_app. pose proof (blen_nonneg tl). unfold blen at 1 2 3. rewrite !length_fixed. lia. }
  rewrite (proj2 (Z.ltb_ge _ 10)) by done.
  assert (byte_at s 4 = 45) as -> by (apply byte_at_part; unfold blen; by rewrite length_fixed).
  assert (byte_at s 7 = 45) as ->.
  { replace s with ((fixed 4 y ++ 45 :: fixed 2 m) ++ 45 :: fixed 2 d ++ tl) by (unfold s; by rewrite <-app_assoc). by apply byte_at_part. }
  cbn [Z.eqb Pos.eqb negb orb].
  assert (str_slice s 0 4 = Some (fixed 4 y)) as -> by (apply (str_slice_part _ [] (fixed 4 y) (45 :: fixed 2 m ++ 45 :: fixed 2 d ++ tl)); done).
  assert (str_slice s 5 7 = Some (fixed 2 m)) as -> by (apply (str_slice_part _ (fixed 4 y ++ [45]) (fixed 2 m) (45 :: fixed 2 d ++ tl)); done).
  assert (str_slice s 8 10 = Some (fixed 2 d)) as -> by (apply (str_slice_part _ (fixed 4 y ++ 45 :: fixed 2 m ++ [45]) (fixed 2 d) tl); done).
  cbn [mbind option_bind]. rewrite !parse_i64_fixed by (try done; first [change (10 ^ Z.of_nat 4) with 10000|change (10 ^ Z.of_nat 2) with 100|idtac]; unfold i64_max; lia).
  unfold in_range at 1 2. rewrite (proj2 (Z.leb_le 1 m)), (proj2 (Z.leb_le m 12)), (proj2 (Z.leb_le 1 d)), (proj2 (Z.leb_le d 31)) by lia. cbn [andb negb orb].
  rewrite (str_from_part s (fixed 4 y ++ 45 :: fixed 2 m ++ 45 :: fixed 2 d) tl) by done. cbn [mbind option_bind].
  rewrite (civil_days y m d Hv), (bool_decide_eq_true_2 ((y, m, d) = (y, m, d))) by done. cbn [negb]. exact Hr.
Qed.

Lemma ymd_fixed c : 0 ≤ year c ≤ 9999 → valid_date (year c, month c, day c) →
  ymd c = fixed 4 (year c) ++ 45 :: fixed 2 (month c) ++ 45 :: fixed 2 (day c).
Proof.
  intros Hy [Hm Hd]. pose proof (month_days_range (year c) (month c)). unfold ymd.
  rewrite (fmt_fixed 4) by (change (10 ^ Z.of_nat 4) with 10000; lia). by rewrite !(fmt_fixed 2) by (change (10 ^ Z.of_nat 2) with 100; lia).
Qed.
Lemma hms_fixed c : 0 ≤ hour c ≤ 23 → 0 ≤ minute c ≤ 59 → 0 ≤ second c ≤ 59 →
  hms c = fixed 2 (hour c) ++ 58 :: fixed 2 (minute c) ++ 58 :: fixed 2 (second c).
Proof. intros. unfold hms. by rewrite !(fmt_fixed 2) by (change (10 ^ Z.of_nat 2) with 100; lia). Qed.
Lemma zone_tail_last u : ∃ t, zone_tail u = t ++ [90].
Proof. unfold zone_tail. case_match; [by exists []|]. exists (46 :: fixed 6 u). done. Qed.

(** C37: a printed instant reads back.  For every instant of the years 0 to
    9999 the ISO-8601 text of a timestamp reads back to the instant, to the
    microsecond, and the text of a date to the midnight of its day; reading
    never cuts a character there. *)
Theorem timestamp_roundtrip t :
  0 ≤ year (civil_from_micros t) ≤ 9999 →
  parse_timestamp (format_timestamp t) = Some (Ok t) ∧
  parse_timestamp (format_date t) = Some (Ok (t - t mod MICROS_PER_DAY)).
Proof.
  intros Hy. pose proof (civil_date t) as Hd. pose proof (civil_time t) as (Hh & Hm & Hs & Hu & Hsum). cbv zeta in *.
  pose proof (civil_valid (t / MICROS_PER_DAY)) as Hv. pose proof (days_civil (t / MICROS_PER_DAY)) as Hdays. rewrite <-Hd in Hv, Hdays. clear Hd.
  unfold format_timestamp, format_date. set (c := civil_from_micros t) in *. clearbody c. pose proof (Z.div_mod t MICROS_PER_DAY ltac:(done)).
  rewrite ymd_fixed by done. split.
  - rewrite hms_fixed by done.
    rewrite (fmt_fixed 6 (micro c)) by (change (10 ^ Z.of_nat 6) with 1000000; lia).
    destruct (zone_tail_last (micro c)) as [tl Htl].
    replace (if micro c =? 0 then _ else _) with
      (fixed 4 (year c) ++ 45 :: fixed 2 (month c) ++ 45 :: fixed 2 (day c) ++ (84 :: fixed 2 (hour c) ++ 58 :: fixed 2 (minute c) ++ 58 :: fixed 2 (second c) ++ tl) ++ [90]).
    2: { destruct (micro c =? 0) eqn:E; unfold zone_tail in Htl; rewrite E in Htl.
         - assert (tl = []) as -> by (by destruct tl as [|? [|]]). by list_simplifier.
         - change ([46] ++ fixed 6 (micro c) ++ [90]) with ((46 :: fixed 6 (micro c)) ++ [90]) in Htl. apply app_inj_2 in Htl as [<- _]; [|done]. by list_simplifier. }
    assert ((84 :: fixed 2 (hour c) ++ 58 :: fixed 2 (minute c) ++ 58 :: fixed 2 (second c) ++ tl) ++ [90]
      = 84 :: fixed 2 (hour c) ++ 58 :: fixed 2 (minute c) ++ 58 :: fixed 2 (second c) ++ zone_tail (micro c)) as Hrest
      by (rewrite Htl; by list_simplifier).
    apply read_date; [done|done|rewrite Hrest; ascii_tac|by intros r x [_ [= <-]]%app_inj_2|]. cbv zeta. rewrite Hrest.
    rewrite bool_decide_eq_false_2 by done. rewrite read_time by done. cbn [orbind]. rewrite bool_decide_eq_false_2 by done.
    change (parse_zone [90]) with (Some (@Ok SqlError _ (0, @nil Z))). cbn [orbind]. change (forallb is_whitespace (default [] (decode []))) with true. cbn [negb].
    unfold in_range. rewrite !(proj2 (Z.leb_le _ _)) by lia. cbn [andb negb orb]. rewrite Hdays. do 2 f_equal.
    unfold MICROS_PER_HOUR, MICROS_PER_MINUTE in *. lia.
  - rewrite <-(app_nil_r (fixed 2 (day c))). apply read_date; [done|done|constructor|by intros [] ?|].
    cbv zeta. rewrite bool_decide_eq_true_2 by done. cbn [orbind]. rewrite bool_decide_eq_true_2 by done. cbn [orbind].
    change (forallb is_whitespace (default [] (decode []))) with true. cbn [negb]. unfold in_range. cbn [Z.leb Z.compare andb orb negb]. rewrite Hdays. do 2 f_equal. lia.
Qed.

(** * Intervals *)
Lemma trim_start_shorter f s : (length (trim_start_by f s) ≤ length s)%nat.
Proof. induction s as [|c s IH]; [done|]. simpl. case_match; simpl; lia. Qed.
Lemma count_while_range f s : 0 ≤ count_while f s ≤ blen s.
Proof. unfold count_while, blen. pose proof (trim_start_shorter f s). lia. Qed.
Lemma interval_loop_total n : ∀ rest total seen,
  (length rest < n)%nat → is_i64 total →
  ∃ r, interval_loop n rest total seen = Some r ∧ (∀ v, r = Ok v → is_i64 v).
Proof.
  induction n as [|n IH]; intros rest total seen Hn Ht; [lia|]. cbn [interval_loop].
  destruct (forallb is_whitespace rest); [eexists; split; [done|]; intros v; destruct seen; [by intros [= <-]|done]|].
  set (body := trim_start rest). pose proof (trim_start_shorter is_whitespace rest) as Hb. fold trim_start in Hb. fold body in Hb.
  set (sl := if first_is body 45 || first_is body 43 then 1 else 0).
  pose proof (count_while_range is_digit (drop (Z.to_nat sl) body)) as Hd. set (digits := count_while is_digit (drop (Z.to_nat sl) body)) in *.
  destruct (Z.eqb_spec digits 0) as [|Hd0]; [by eexists|]. destruct (parse_i64 _) as [mag|]; [|by eexists].
  set (after := trim_start (drop (Z.to_nat (sl + digits)) body)). set (ul := count_while is_alpha after).
  destruct (interval_scale _) as [scale|]; [|by eexists]. destruct (i64_chk (mag * scale)) as [p|]; [|by eexists]. cbn [mbind option_bind].
  destruct (i64_chk (total + p)) as [t|] eqn:Et; [|by eexists]. apply i64_chk_Some in Et as [<- Ht']. apply IH; [|done].
  pose proof (trim_start_shorter is_whitespace (drop (Z.to_nat (sl + digits)) body)) as Ha. fold trim_start in Ha. fold after in Ha.
  rewrite length_drop in *. unfold blen in Hd. rewrite length_drop in Hd. assert (0 ≤ sl) by (unfold sl; case_match; lia). lia.
Qed.

Lemma dec_digits z : 0 ≤ z ≤ 9223372036854775808 → Forall digit (dec z) ∧ dec z ≠ [] ∧ parse_digits 0 (dec z) = Some z.
Proof.
  intros Hz. assert (0 ≤ z < 10 ^ Z.of_nat 20) as Hr by (change (10 ^ Z.of_nat 20) with 100000000000000000000; lia).
  destruct (dec_fixed 20 20 z Hr) as [_ He]; [lia..|]. change (dec_fuel 20 z) with (dec z) in He.
  pose proof (fixed_digits 20 z ltac:(lia)) as Hd. pose proof (parse_fixed 20 z 0 Hr) as Hp. rewrite <-He in Hd, Hp. rewrite Z.mul_0_l, Z.add_0_l in Hp.
  apply Forall_app in Hd as [_ Hd]. split; [exact Hd|]. split; [unfold dec; cbn [dec_fuel]; case_match; [done|by intros [_ ?]%app_eq_nil]|].
  revert Hp. generalize (20 - length (dec z))%nat. intros k. induction k as [|k IH]; [done|]. exact IH.
Qed.
Lemma parse_fmt n : is_i64 n →
  parse_i64 (fmt 0 n) = Some n ∧ ∃ sg l, fmt 0 n = sg ++ l ∧ Forall digit l ∧ l ≠ [] ∧ (sg = [] ∨ sg = [45]).
Proof.
  intros Hn. unfold fmt. destruct (Z.ltb_spec n 0).
  - destruct (dec_digits (- n)) as (Hd & Hne & Hp); [unfold i64_min, i64_max in *; lia|].
    change (pad (0 - 1) (- n)) with (dec (- n)). split; [|exists [45], (dec (- n)); auto].
    unfold parse_i64. cbn [Z.eqb Pos.eqb orb]. destruct (dec (- n)) as [|c l] eqn:E; [done|]. rewrite Hp. cbn [mbind option_bind].
    rewrite i64_chk_ok by lia. f_equal. lia.
  - destruct (dec_digits n) as (Hd & Hne & Hp); [unfold i64_min, i64_max in *; lia|].
    change (pad 0 n) with (dec n). split; [|exists [], (dec n); auto]. rewrite (parse_i64_digits _ n) by done. by apply i64_chk_ok.
Qed.
Lemma scale_word u k : interval_scale u = Some k → Forall (λ c, is_alpha c = true) u ∧ u ≠ [].
Proof.
  assert (∀ c, is_alpha (ascii_lower c) = true → is_alpha c = true) as Hlow.
  { intros c. unfold is_alpha, ascii_lower. destruct ((65 <=? c) && (c <=? 90)) eqn:E; [done|]. by rewrite E. }
  assert (∀ w, Forall (λ c, is_alpha c = true) (ascii_bytes w) → ascii_bytes w ≠ [] → map ascii_lower u = ascii_bytes w →
    Forall (λ c, is_alpha c = true) u ∧ u ≠ []) as Hw.
  { intros w Ha Hne He. rewrite <-He in Ha, Hne. split; [|by intros ->]. apply Forall_map in Ha. eapply Forall_impl; [exact Ha|]. exact Hlow. }
  unfold interval_scale. repeat (destruct (one_of _ _) eqn:E; [apply one_of_In in E as (w & Hin & E); intros _; apply (Hw w); [| |exact E];
    repeat destruct Hin as [<-|Hin]; try done; repeat constructor|clear E]). done.
Qed.

(** The written form of one magnitude and unit, and of a list of them. *)
Definition item_text (i : Z * list Z) : list Z := fmt 0 i.1 ++ [32] ++ i.2.
Fixpoint items_text (is_ : list (Z * list Z)) : list Z :=
  match is_ with [] => [] | [i] => item_text i | i :: is_ => item_text i ++ [32] ++ items_text is_ end.
Definition item_ok (i : Z * list Z) : Prop := is_i64 i.1 ∧ is_Some (interval_scale i.2).
(** The sum the items stand for, every product and every partial sum in range. *)
Fixpoint total_of (acc : Z) (is_ : list (Z * list Z)) : option Z :=
  match is_ with
  | [] => Some acc
  | (n, u) :: is_ => k ← interval_scale u; p ← i64_chk (n * k); a ← i64_chk (acc + p); total_of a is_
  end.
Definition outcome (r : option Z) : result SqlError Z := match r with Some v => Ok v | None => Err Unsupported end.
Lemma interval_step n i ws tail total seen :
  item_ok i → (ws = [] ∨ ws = [32]) → match tail with c :: _ => c = 32 | [] => True end →
  interval_loop (S n) (ws ++ item_text i ++ tail) total seen =
    match total_of total [i] with Some t => interval_loop n tail t true | None => Some (Err Unsupported) end.
Proof.
  destruct i as [m u]. intros [Hm [k Hk]] Hws Htail. cbn [fst snd] in *. destruct (scale_word u k Hk) as [Hu Hune].
  destruct (parse_fmt m Hm) as (Hpm & sg & l & Hf & Hl & Hlne & Hsg). unfold item_text. cbn [fst snd].
  destruct l as [|c0 l]; [done|]. pose proof Hl as Hl'. apply Forall_cons in Hl as [Hc0 Hl].
  cbn [interval_loop total_of]. rewrite Hk. cbn [mbind option_bind].
  assert (forallb is_whitespace (ws ++ (fmt 0 m ++ [32] ++ u) ++ tail) = false) as ->.
  { rewrite Hf, !forallb_app. cbn [forallb]. rewrite (digit_not_space c0 Hc0). cbn [andb]. by rewrite !andb_false_r. }
  assert (trim_start (ws ++ (fmt 0 m ++ [32] ++ u) ++ tail) = fmt 0 m ++ [32] ++ u ++ tail) as ->.
  { rewrite <-!app_assoc. rewrite Hf. assert (∀ r, trim_start ((sg ++ c0 :: l) ++ r) = (sg ++ c0 :: l) ++ r) as Hs.
    { intros r. apply trim_start_stop. destruct Hsg as [->| ->]; [by apply digit_not_space|done]. }
    destruct Hws as [->| ->]; apply Hs. }
  assert ((if first_is (fmt 0 m ++ [32] ++ u ++ tail) 45 || first_is (fmt 0 m ++ [32] ++ u ++ tail) 43 then 1 else 0) = blen sg) as ->.
  { rewrite Hf. destruct Hsg as [->| ->]; [|done]. unfold first_is. cbn [head app]. unfold digit in Hc0.
    by rewrite !bool_decide_eq_false_2 by (intros [= ?]; lia). }
  assert (drop (Z.to_nat (blen sg)) (fmt 0 m ++ [32] ++ u ++ tail) = (c0 :: l) ++ [32] ++ u ++ tail) as ->.
  { rewrite Hf, <-app_assoc. unfold blen. by rewrite Nat2Z.id, drop_app_length. }
  rewrite count_while_app; [| |done]. 2: { eapply Forall_impl; [exact Hl'|]. intros c. apply is_digit_spec. }
  rewrite (proj2 (Z.eqb_neq (blen (c0 :: l)) 0)) by (rewrite blen_cons; pose proof (blen_nonneg l); lia).
  rewrite <-blen_app, <-Hf, slice_app_exact, Hpm by done.
  assert (drop (Z.to_nat (blen (fmt 0 m))) (fmt 0 m ++ [32] ++ u ++ tail) = [32] ++ u ++ tail) as -> by (unfold blen; by rewrite Nat2Z.id, drop_app_length).
  assert (trim_start ([32] ++ u ++ tail) = u ++ tail) as ->.
  { change (trim_start ([32] ++ u ++ tail)) with (trim_start (u ++ tail)). apply trim_start_stop. destruct u as [|x u]; [done|].
    apply Forall_cons in Hu as [Hx _]. cbn [app]. unfold is_alpha in Hx. rewrite orb_true_iff, !andb_true_iff, !Z.leb_le in Hx.
    unfold is_whitespace. repeat (rewrite ?orb_false_iff, ?andb_false_iff); rewrite ?Z.eqb_neq, ?Z.leb_gt. lia. }
  rewrite count_while_app by (try done; by destruct tail as [|? ?]; [|subst]). rewrite slice_app_exact, Hk by done.
  assert (drop (Z.to_nat (blen u)) (u ++ tail) = tail) as -> by (unfold blen; by rewrite Nat2Z.id, drop_app_length).
  destruct (i64_chk (m * k)) as [p|]; [|done]. cbn [mbind option_bind]. by destruct (i64_chk (total + p)).
Qed.
Lemma interval_items n : ∀ is_ ws total seen,
  is_ ≠ [] → Forall item_ok is_ → (ws = [] ∨ ws = [32]) → (length is_ < n)%nat →
  interval_loop n (ws ++ items_text is_) total seen = Some (outcome (total_of total is_)).
Proof.
  induction n as [|n IH]; intros is_ ws total seen Hne Hok Hws Hn; [lia|].
  destruct is_ as [|i is_]; [done|]. apply Forall_cons in Hok as [Hi Hok]. simpl in Hn.
  destruct is_ as [|j is_].
  - cbn [items_text]. rewrite <-(app_nil_r (item_text i)). rewrite interval_step by done. destruct (total_of total [i]) as [t|]; [|done].
    destruct n as [|n]; [lia|]. done.
  - change (items_text (i :: j :: is_)) with (item_text i ++ [32] ++ items_text (j :: is_)). rewrite interval_step by done.
    assert (total_of total (i :: j :: is_) = (t ← total_of total [i]; total_of t (j :: is_))) as ->.
    { destruct i as [m u]. cbn [total_of]. destruct (interval_scale u); [|done]. cbn [mbind option_bind].
      destruct (i64_chk (m * z)); [|done]. cbn [mbind option_bind]. by destruct (i64_chk (total + z0)). }
    destruct (total_of total [i]) as [t|]; [|done]. cbn [mbind option_bind]. apply IH; [done|done|by right|simpl in *; lia].
Qed.

(** An interval literal is the sum of its parts or is refused.  Reading one always
    ends, and a value it answers is an [i64]; overflow of a product or of a partial
    sum never wraps into an answer. *)
Lemma interval_is_the_sum text is_ :
  (∃ r, parse_interval text = Some r ∧ ∀ v, r = Ok v → is_i64 v) ∧
  (is_ ≠ [] → Forall item_ok is_ → parse_interval (items_text is_) = Some (outcome (total_of 0 is_))).
Proof.
  split.
  - unfold parse_interval. case_bool_decide; [by eexists|]. apply interval_loop_total; [lia|split; discriminate].
  - intros Hne Hok. unfold parse_interval.
    assert (∀ i, item_ok i → ∃ c r x, item_text i = c :: r ++ [x] ∧ is_whitespace c = false ∧ is_whitespace x = false) as Hitem.
    { intros [m u] [Hm [k Hk]]. cbn [fst snd] in *. destruct (scale_word u k Hk) as [Hu Hune].
      destruct (parse_fmt m Hm) as (_ & sg & l & Hf & Hl & Hlne & Hsg). unfold item_text. cbn [fst snd]. rewrite Hf.
      destruct (exists_last Hune) as (u' & x & ->). apply Forall_app in Hu as [_ Hx]. apply Forall_cons in Hx as [Hx _].
      assert (is_whitespace x = false) as Hxw.
      { unfold is_alpha in Hx. rewrite orb_true_iff, !andb_true_iff, !Z.leb_le in Hx.
        unfold is_whitespace. repeat (rewrite ?orb_false_iff, ?andb_false_iff); rewrite ?Z.eqb_neq, ?Z.leb_gt. lia. }
      destruct l as [|c l]; [done|]. apply Forall_cons in Hl as [Hc _].
      destruct Hsg as [->| ->].
      - exists c, (l ++ [32] ++ u'), x. split; [by list_simplifier|]. split; [by apply digit_not_space|done].
      - exists 45, (c :: l ++ [32] ++ u'), x. split; [by list_simplifier|]. done. }
    assert (∃ c r x, items_text is_ = c :: r ++ [x] ∧ is_whitespace c = false ∧ is_whitespace x = false) as (c & r & x & He & Hc & Hx).
    { clear -Hne Hok Hitem. induction is_ as [|i is_ IH]; [done|]. apply Forall_cons in Hok as [Hi Hok].
      destruct (Hitem i Hi) as (c & r & x & He & Hc & Hx). destruct is_ as [|j is_]; [by exists c, r, x|].
      destruct (IH ltac:(done) Hok) as (c' & r' & x' & He' & _ & Hx').
      change (items_text (i :: j :: is_)) with (item_text i ++ [32] ++ items_text (j :: is_)). rewrite He, He'.
      exists c, (r ++ [x] ++ [32] ++ c' :: r'), x'. split; [by list_simplifier|done]. }
    rewrite He, str_trim_stop, <-He by done. rewrite bool_decide_eq_false_2 by (rewrite He; done).
    apply (interval_items _ is_ [] 0 false); [done|done|by left|].
    assert (∀ l, (length l ≤ length (items_text l))%nat) as Hlen; [|specialize (Hlen is_); lia].
    induction l as [|i l IH]; [done|]. destruct l as [|j l]; [destruct i as [m u]; change (items_text [(m, u)]) with (fmt 0 m ++ [32] ++ u); rewrite !length_app; simpl; lia|].
    change (items_text (i :: j :: l)) with (item_text i ++ [32] ++ items_text (j :: l)). rewrite !length_app. simpl in *. lia.
Qed.
Example intervals_read :
  parse_interval (items_text [(3, ascii_bytes "days"); (-4, ascii_bytes "H")]) = Some (Ok 244800000000) ∧
  parse_interval (items_text [(9223372036854775807, ascii_bytes "weeks")]) = Some (Err Unsupported).
Proof.
  split.
  - refine (proj2 (interval_is_the_sum [] [(3, ascii_bytes "days"); (-4, ascii_bytes "H")]) _ _); [discriminate|].
    repeat constructor; first [discriminate|by eexists].
  - refine (proj2 (interval_is_the_sum [] [(9223372036854775807, ascii_bytes "weeks")]) _ _); [discriminate|].
    repeat constructor; first [discriminate|by eexists].
Defined.
Lemma timestamp_roundtrip_witness :
  parse_timestamp (format_timestamp 981173106500000) = Some (Ok 981173106500000) ∧
  parse_timestamp (format_date 981173106500000) = Some (Ok 981158400000000).
Proof.
  assert (0 ≤ year (civil_from_micros 981173106500000) ≤ 9999) as Hy by (vm_compute; split; discriminate).
  exact (timestamp_roundtrip 981173106500000 Hy).
Defined.
End SqlTime.
