(* ===== verification/Lexer.v ===== *)
(** * The SQL tokenizer ([lang/src/lexer.rs])

    A statement is its UTF-8 bytes; the position [i] of the code is the suffix of
    the bytes it stands at, and an offset is the length of the text less that of
    the suffix.  A slice of the text that cuts a character in two is Rust's panic,
    [None] here, and so is a loop out of fuel.  [lexed] says, without running
    anything, which text spells which tokens; [tokenize] is sound and complete for
    it, and the guards that look at the first word of a statement agree with it. *)
From Stdlib Require Import SpecFloat.
From S2P Require Import Prelude Utf8 Calendar SqlText SqlTime.
Import Utf8 Calendar SqlTime.

Module Lexer.

(** ** Tokens *)
Inductive Tok :=
  | Word (w : bytes) | Quoted (w : bytes) | Str (s : bytes)
  | Num (value : spec_float) (integer : option Z) | Param (n : Z)
  | Star | Comma | Dot | Semicolon | LParen | RParen | LBrace | RBrace | LBracket | RBracket | Colon
  | Cast | Eq | Ne | Lt | Le | Gt | Ge | Plus | Minus | Slash | Percent | Caret | Concat | Pipe | Amp
  | Overlaps | Matches | ContainsOp | VecCosine | VecL2 | VecDot | VecL1
  | Arrow | LongArrow | HashArrow | HashLongArrow | BackArrow | Tilde | Question | Bang | Eof.
Record Token := mkToken { tok : Tok; at_ : Z }.
Inductive SqlError := Syntax (message : bytes) (at_ : Z).
Definition MAX_PARAMETER : Z := 65535.

Definition to_ascii_uppercase (w : bytes) : bytes := map (λ c, if (97 <=? c) && (c <=? 122) then c - 32 else c) w.
Definition keyword (t : Tok) : option bytes :=
  match t with Word w => Some (to_ascii_uppercase w) | _ => None end.

(** A step that may panic or be refused. *)
Definition lbind {A B} (m : option (result SqlError A)) (f : A → option (result SqlError B)) : option (result SqlError B) :=
  match m with None => None | Some (Err e) => Some (Err e) | Some (Ok a) => f a end.
#[local] Notation "'let!' x ':=' m 'in' k" := (lbind m (fun x => k))
  (at level 10, x pattern, m at level 100, k at level 200) : skj_scope.

(** ** Bytes *)
Definition is_ascii_whitespace (c : Z) : bool := (c =? 32) || (c =? 9) || (c =? 10) || (c =? 12) || (c =? 13).
Definition is_ascii_alphabetic (c : Z) : bool := (65 <=? c) && (c <=? 90) || (97 <=? c) && (c <=? 122).
Definition word_start (c : Z) : bool := (c =? 95) || is_ascii_alphabetic c || (128 <=? c).
Definition word_char (c : Z) : bool := (c =? 95) || (is_ascii_alphabetic c || is_digit c) || (128 <=? c).
Fixpoint skip_while (f : Z → bool) (b : bytes) : bytes :=
  match b with c :: r => if f c then skip_while f r else b | [] => [] end.
Fixpoint take_while (f : Z → bool) (b : bytes) : bytes :=
  match b with c :: r => if f c then c :: take_while f r else [] | [] => [] end.
Definition next_is (c : Z) (b : bytes) : bool := match b with d :: _ => d =? c | [] => false end.

(** [text[i..j]] for the positions [from] and [to]. *)
Definition boundary (b : bytes) : bool := match b with c :: _ => negb (cont c) | [] => true end.
Definition text_slice (from to : bytes) : option bytes :=
  if boundary from && boundary to && (blen to <=? blen from) then Some (take (length from - length to) from) else None.

(** ** Numbers *)
(** [str::parse::<f64>] of an unsigned decimal: the double nearest to its value. *)
Definition nearest (m e : Z) : spec_float :=
  match m with
  | Zpos p =>
      if 0 <=? e then binary_normalize 53 1024 (Zpos p * 10 ^ e) 0 false
      else SFdiv 53 1024 (S754_finite false p 0) (S754_finite false (Z.to_pos (10 ^ (- e))) 0)
  | _ => S754_zero false
  end.
Definition fraction (b : bytes) : bytes * bytes :=
  match b with
  | c :: r => if c =? 46 then (take_while is_digit r, skip_while is_digit r) else ([], b)
  | [] => ([], [])
  end.
(** The sign of an exponent and what follows it. *)
Definition exp_sign (b : bytes) : bool * bytes :=
  match b with c :: r => if c =? 45 then (true, r) else if c =? 43 then (false, r) else (false, b) | [] => (false, []) end.
Definition is_exp (c : Z) : bool := (c =? 101) || (c =? 69).
Definition parse_f64 (b : bytes) : option spec_float :=
  let whole := take_while is_digit b in
  let '(frac, rest) := fraction (skip_while is_digit b) in
  if (blen whole =? 0) && (blen frac =? 0) then None else
  m ← parse_digits 0 (whole ++ frac);
  match rest with
  | [] => Some (nearest m (- blen frac))
  | c :: rest =>
      let '(neg, digits) := exp_sign rest in
      if negb (is_exp c) || (blen digits =? 0) then None else
      e ← parse_digits 0 digits;
      Some (nearest m ((if neg : bool then - e else e) - blen frac))
  end.
(** [str::parse::<usize>] of digits. *)
Definition parse_usize (b : bytes) : option Z :=
  n ← parse_digits 0 b; if n <=? u64_max then Some n else None.

Definition scan_fraction (j : bytes) : bool * bytes :=
  if next_is 46 j then (false, skip_while is_digit (drop 1 j)) else (true, j).
Definition scan_exponent (exact : bool) (j : bytes) : bool * bytes :=
  match j with
  | c :: k =>
      if is_exp c then
        let k := if next_is 43 k || next_is 45 k then drop 1 k else k in
        match k with
        | d :: _ => if is_digit d then (false, skip_while is_digit k) else (exact, j)
        | [] => (exact, j)
        end
      else (exact, j)
  | [] => (exact, j)
  end.
Definition number (text_len : Z) (b : bytes) : option (result SqlError (Tok * bytes)) :=
  let at_ := text_len - blen b in
  let j := skip_while is_digit b in
  let '(exact, j) := scan_fraction j in
  let '(exact, j) := scan_exponent exact j in
  text ← text_slice b j;
  match parse_f64 text with
  | None => Some (Err (Syntax (ascii_bytes "number literal is out of range") at_))
  | Some value => Some (Ok (Num value (if exact : bool then parse_i64 text else None), j))
  end.

(** ** Strings and quoted identifiers *)
Definition is_cont (c : Z) : bool := Z.land c 192 =? 128.
Fixpoint quoted (fuel : nat) (q : Z) (unterminated : string) (at_ : Z) (value b : bytes) : option (result SqlError (bytes * bytes)) :=
  match fuel with
  | O => None
  | S fuel =>
      match b with
      | [] => Some (Err (Syntax (ascii_bytes unterminated) at_))
      | c :: r =>
          if c =? q then
            if next_is q r then quoted fuel q unterminated at_ (value ++ [q]) (drop 1 r)
            else Some (Ok (value, r))
          else
            let end_ := skip_while is_cont r in
            let chunk := c :: take_while is_cont r in
            match decode chunk with
            | None => Some (Err (Syntax (ascii_bytes "statement text is not UTF-8") at_))
            | Some _ => quoted fuel q unterminated at_ (value ++ chunk) end_
            end
      end
  end.

Definition parameter (text_len : Z) (b : bytes) : option (result SqlError (Tok * bytes)) :=
  let at_ := text_len - blen b in
  let j := skip_while is_digit (drop 1 b) in
  if blen j =? blen (drop 1 b) then Some (Err (Syntax (ascii_bytes "`$` must be followed by a digit") at_)) else
  text ← text_slice (drop 1 b) j;
  match (n ← parse_usize text; if n <=? MAX_PARAMETER then Some n else None) with
  | None => Some (Err (Syntax (ascii_bytes "parameter number is out of range: the PostgreSQL protocol carries at most $65535") at_))
  | Some n =>
      if n =? 0 then Some (Err (Syntax (ascii_bytes "parameters are numbered from $1") at_))
      else Some (Ok (Param n, j))
  end.

(** ** Operators, in the order the code tries them *)
Definition operators : list (string * Tok) :=
  [("<=>", VecCosine); ("<->", VecL2); ("<#>", VecDot); ("<+>", VecL1); ("->>", LongArrow); ("#>>", HashLongArrow);
   ("<>", Ne); ("<=", Le); ("<-", BackArrow); (">=", Ge); ("!=", Ne); ("->", Arrow); ("#>", HashArrow); ("::", Cast);
   ("||", Concat); ("&&", Overlaps); ("@@", Matches); ("@>", ContainsOp);
   ("*", Star); (",", Comma); (".", Dot); (";", Semicolon); ("(", LParen); (")", RParen); ("{", LBrace); ("}", RBrace);
   ("[", LBracket); ("]", RBracket); (":", Colon); ("=", Eq); ("<", Lt); (">", Gt); ("+", Plus); ("-", Minus);
   ("/", Slash); ("%", Percent); ("^", Caret); ("|", Pipe); ("&", Amp); ("~", Tilde); ("?", Question); ("!", Bang)]%string.
Fixpoint operator (table : list (string * Tok)) (b : bytes) : option (Tok * bytes) :=
  match table with
  | [] => None
  | (s, t) :: table =>
      if starts_with b (ascii_bytes s) then Some (t, drop (length (ascii_bytes s)) b) else operator table b
  end.

(** ** The loop *)
Definition token (text_len : Z) (b : bytes) : option (result SqlError (Tok * bytes)) :=
  let at_ := text_len - blen b in
  match b with
  | [] => None
  | c :: r =>
      if c =? 39 then
        let! (value, j) := quoted (S (length r)) 39 "unterminated string literal" at_ [] r in Some (Ok (Str value, j))
      else if c =? 34 then
        let! (value, j) := quoted (S (length r)) 34 "unterminated quoted identifier" at_ [] r in Some (Ok (Quoted value, j))
      else if c =? 36 then parameter text_len b
      else if is_digit c then number text_len b
      else if (c =? 46) && match r with d :: _ => is_digit d | [] => false end then number text_len b
      else if word_start c then
        let j := skip_while word_char b in
        word ← text_slice b j; Some (Ok (Word word, j))
      else
        match operator operators b with
        | Some (t, j) => Some (Ok (t, j))
        | None => Some (Err (Syntax (ascii_bytes "unexpected character `" ++ encode_char c ++ [96]) at_))
        end
  end.
(** What follows the first [*/]. *)
Fixpoint comment_end (b : bytes) : option bytes :=
  match b with
  | [] => None
  | c :: r => if (c =? 42) && next_is 47 r then Some (drop 1 r) else comment_end r
  end.
Definition line_comment (b : bytes) : bool := next_is 45 b && next_is 45 (drop 1 b).
Definition block_comment (b : bytes) : bool := next_is 47 b && next_is 42 (drop 1 b).
Definition not_newline (c : Z) : bool := negb (c =? 10).
Fixpoint tokenize_loop (fuel : nat) (text_len : Z) (b : bytes) (out : list Token) : option (result SqlError (list Token)) :=
  match fuel with
  | O => None
  | S fuel =>
      match b with
      | [] => Some (Ok (out ++ [mkToken Eof text_len]))
      | c :: r =>
          if is_ascii_whitespace c then tokenize_loop fuel text_len r out
          else if line_comment b then tokenize_loop fuel text_len (skip_while not_newline b) out
          else if block_comment b then
            match comment_end (drop 1 r) with
            | None => Some (Err (Syntax (ascii_bytes "unterminated block comment") (text_len - blen b)))
            | Some j => tokenize_loop fuel text_len j out
            end
          else
            let! (t, j) := token text_len b in
            tokenize_loop fuel text_len j (out ++ [mkToken t (text_len - blen b)])
      end
  end.
(** Every round consumes a byte. *)
Definition tokenize (text : bytes) : option (result SqlError (list Token)) :=
  tokenize_loop (S (length text)) (blen text) text [].

(** ** What callers ask of a statement *)
Definition params (l : list Token) : list Z :=
  omap (λ t, match tok t with Param n => Some n | _ => None end) l.
Definition highest_parameter (sql : bytes) : option Z :=
  match tokenize sql with
  | None => None
  | Some (Err _) => Some 0
  | Some (Ok l) => Some (foldl Z.max 0 (params l))
  end.
Fixpoint leading_loop (fuel : nat) (b : bytes) : option bytes :=
  match fuel with
  | O => None
  | S fuel =>
      let b := skip_while is_ascii_whitespace b in
      if line_comment b then leading_loop fuel (skip_while not_newline b)
      else if block_comment b then
        match comment_end (drop 2 b) with
        | Some j => leading_loop fuel j
        | None => text_slice b []
        end
      else text_slice b []
  end.
Definition after_leading_comments (sql : bytes) : option bytes := leading_loop (S (length sql)) sql.
Definition ddl_words : list string := ["CREATE"; "DROP"; "ALTER"; "REINDEX"; "TRUNCATE"]%string.
Definition commits_on_its_own (sql : bytes) : option bool :=
  rest ← after_leading_comments sql;
  let first := take_while is_ascii_alphabetic rest in
  Some (existsb (λ w, bool_decide (to_ascii_uppercase first = to_ascii_uppercase (ascii_bytes w))) ddl_words).

(** * What the text spells *)
Definition utf8 (b : bytes) : Prop := ∃ s, scalars s ∧ b = encode s.
(** A run of [f] goes no further into [b]. *)
Definition stop (f : Z → bool) (b : bytes) : Prop := match b with c :: _ => f c = false | [] => True end.
Definition digits (b : bytes) : Prop := Forall (λ c, is_digit c = true) b.
Definition dec_num (b : bytes) : Z := foldl (λ a c, a * 10 + (c - 48)) 0 b.

(** White space and comments.  A line comment ends at its newline, a block comment
    at the first closing mark. *)
Definition unclosed (l : bytes) : Prop := ∀ x y, l ≠ x ++ 42 :: 47 :: y.
Inductive gap : bytes → Prop :=
  | gap_nil : gap []
  | gap_space c g : is_ascii_whitespace c = true → gap g → gap (c :: g)
  | gap_line l g : Forall (λ c, c ≠ 10) l → gap g → gap (45 :: 45 :: l ++ 10 :: g)
  | gap_block l g : unclosed (l ++ [42]) → gap g → gap (47 :: 42 :: l ++ 42 :: 47 :: g).
(** At the end of the text a line comment needs no newline. *)
Definition trailing (b : bytes) : Prop :=
  gap b ∨ ∃ g l, b = g ++ 45 :: 45 :: l ∧ gap g ∧ Forall (λ c, c ≠ 10) l.

(** A number as written: digits, maybe a fraction, maybe an exponent with its sign. *)
Record numeral := Numeral { whole : bytes; frac : option bytes; expo : option (Z * bytes * bytes) }.
Definition frac_digits (nm : numeral) : bytes := default [] (frac nm).
Definition spelled (nm : numeral) : bytes :=
  whole nm ++ match frac nm with Some x => 46 :: x | None => [] end ++
  match expo nm with Some (c, sg, x) => c :: sg ++ x | None => [] end.
Definition numeral_ok (nm : numeral) : Prop :=
  digits (whole nm) ∧ digits (frac_digits nm) ∧ (whole nm = [] → frac_digits nm ≠ []) ∧
  match expo nm with
  | Some (c, sg, x) => is_exp c = true ∧ (sg = [] ∨ sg = [43] ∨ sg = [45]) ∧ x ≠ [] ∧ digits x
  | None => True
  end.
Definition exponent (nm : numeral) : Z :=
  match expo nm with Some (_, sg, x) => if bool_decide (sg = [45]) then - dec_num x else dec_num x | None => 0 end.
Definition value (nm : numeral) : spec_float := nearest (dec_num (whole nm ++ frac_digits nm)) (exponent nm - blen (frac_digits nm)).
(** Digits alone are an integer, kept to the last digit while 64 bits hold it. *)
Definition integer (nm : numeral) : option Z :=
  match frac nm, expo nm with
  | None, None => if dec_num (whole nm) <=? i64_max then Some (dec_num (whole nm)) else None
  | _, _ => None
  end.
Definition exp_follows (b : bytes) : bool :=
  match b with
  | c :: k => is_exp c && match (if next_is 43 k || next_is 45 k then drop 1 k else k) with d :: _ => is_digit d | [] => false end
  | [] => false
  end.
Definition number_ends (nm : numeral) (rest : bytes) : Prop :=
  stop is_digit rest ∧ (frac nm = None → expo nm = None → next_is 46 rest = false) ∧ (expo nm = None → exp_follows rest = false).

Definition next_digit (b : bytes) : bool := match b with d :: _ => is_digit d | [] => false end.
(** A quote inside is written twice. *)
Definition doubled (q : Z) (s : bytes) : bytes := flat_map (λ c, if c =? q then [q; q] else [c]) s.

(** [lexeme w t rest]: the bytes [w] spell the token [t], and it ends there when
    [rest] follows. *)
Inductive lexeme : bytes → Tok → bytes → Prop :=
  | lex_word c w rest : word_start c = true → Forall (λ c, word_char c = true) w → stop word_char rest →
      lexeme (c :: w) (Word (c :: w)) rest
  | lex_quoted s rest : utf8 s → next_is 34 rest = false → lexeme (34 :: doubled 34 s ++ [34]) (Quoted s) rest
  | lex_str s rest : utf8 s → next_is 39 rest = false → lexeme (39 :: doubled 39 s ++ [39]) (Str s) rest
  | lex_num nm rest : numeral_ok nm → number_ends nm rest → lexeme (spelled nm) (Num (value nm) (integer nm)) rest
  | lex_param d rest : d ≠ [] → digits d → 1 ≤ dec_num d ≤ MAX_PARAMETER → stop is_digit rest →
      lexeme (36 :: d) (Param (dec_num d)) rest
  | lex_operator s t rest : (s, t) ∈ operators → let b := ascii_bytes s ++ rest in
      (∀ s' t', (s', t') ∈ operators → starts_with b (ascii_bytes s') = true → (length (ascii_bytes s') ≤ length (ascii_bytes s))%nat) →
      (t = Dot → stop is_digit rest) → line_comment b = false → block_comment b = false →
      lexeme (ascii_bytes s) t rest.
(** The tokens of a text that starts at the offset [at_]. *)
Inductive lexed : Z → bytes → list Token → Prop :=
  | lexed_end at_ b : trailing b → lexed at_ b [mkToken Eof (at_ + blen b)]
  | lexed_token at_ g w t rest toks : gap g → lexeme w t rest → lexed (at_ + blen g + blen w) rest toks →
      lexed at_ (g ++ w ++ rest) (mkToken t (at_ + blen g) :: toks).

(** ** Runs of bytes *)
Lemma is_digit_range c : is_digit c = true ↔ 48 ≤ c ≤ 57.
Proof. apply is_digit_spec. Qed.
Lemma take_skip f b : take_while f b ++ skip_while f b = b.
Proof. induction b as [|c b IH]; [done|]. cbn. destruct (f c); [cbn; by rewrite IH|done]. Qed.
Lemma take_while_all f b : Forall (λ c, f c = true) (take_while f b).
Proof. induction b as [|c b IH]; [done|]. cbn. destruct (f c) eqn:E; [by constructor|done]. Qed.
Lemma skip_while_stop f b : stop f (skip_while f b).
Proof. induction b as [|c b IH]; [done|]. cbn. by destruct (f c) eqn:E. Qed.
Lemma run_of f x y : Forall (λ c, f c = true) x → stop f y → take_while f (x ++ y) = x ∧ skip_while f (x ++ y) = y.
Proof.
  intros Hx Hy. induction Hx as [|c x Hc _ [IH1 IH2]]; cbn.
  - destruct y as [|c y]; [done|]. cbn in *. by rewrite Hy.
  - rewrite Hc. by rewrite IH1, IH2.
Qed.
Lemma take_while_end f x y : stop f y → take_while f (x ++ y) = take_while f x.
Proof. intros Hy. induction x as [|c x IH]; [destruct y; [done|]; cbn in *; by rewrite Hy|]. cbn. destruct (f c); [by rewrite IH|done]. Qed.
Lemma skip_while_le f b : (length (skip_while f b) ≤ length b)%nat.
Proof. rewrite <-(take_skip f b) at 2. rewrite length_app. lia. Qed.
Lemma slice_here w rest : boundary (w ++ rest) = true → boundary rest = true → text_slice (w ++ rest) rest = Some w.
Proof.
  intros H1 H2. unfold text_slice. rewrite H1, H2. rewrite (proj2 (Z.leb_le _ _)) by (unfold blen; rewrite length_app; lia).
  cbn. rewrite length_app. replace (length w + length rest - length rest)%nat with (length w) by lia. by rewrite take_app_length.
Qed.
Lemma utf8_boundary b : utf8 b → boundary b = true.
Proof. intros (s & Hs & ->). destruct (encode s) as [|c l] eqn:E; [done|]. cbn. by rewrite (encode_head s c l). Qed.
Lemma utf8_split x y : utf8 (x ++ y) → boundary y = true → utf8 x ∧ utf8 y.
Proof.
  intros (s & Hs & He) Hy. destruct (encode_split s x y Hs (eq_sym He)) as (s1 & s2 & -> & -> & ->).
  { intros b l ->. cbn in Hy. by destruct (cont b). }
  apply scalars_app in Hs as [H1 H2]. split; [by exists s1|by exists s2].
Qed.
Lemma encode_char_head c b0 l : is_scalar c = true → encode_char c = b0 :: l → c < 128 ∧ b0 = c ∧ l = [] ∨ 128 ≤ b0.
Proof.
  intros Hc%is_scalar_spec E. unfold encode_char in E. pose proof (Z.div_pos c 64). pose proof (Z.div_pos c 4096). pose proof (Z.div_pos c 262144).
  destruct (Z.ltb_spec c 128); [injection E as <- <-; by left|right].
  destruct (c <? 2048); [injection E; lia|]. destruct (c <? 65536); injection E; lia.
Qed.
Lemma utf8_ascii c b : utf8 (c :: b) → c < 128 → utf8 b.
Proof.
  intros (s & Hs & He) Hc. destruct s as [|d s]; [done|]. apply Forall_cons in Hs as [Hd Hs]. rewrite encode_cons in He.
  destruct (encode_char d) as [|b0 l] eqn:E; [by destruct (encode_char_shape d Hd) as (? & ? & ? & _); congruence|].
  injection He as -> ->. destruct (encode_char_head _ _ _ Hd E) as [(_ & _ & ->)|?]; [by exists s|lia].
Qed.
Definition ascii (b : bytes) : Prop := Forall (λ c, c < 128) b.
Lemma utf8_after x y : ascii x → utf8 (x ++ y) → utf8 y.
Proof. induction 1 as [|c x Hc _ IH]; [done|]. intros H. apply IH. by apply (utf8_ascii c). Qed.
Lemma tok_digits_ascii d : digits d → ascii d.
Proof. intros Hd. eapply Forall_impl; [exact Hd|]. intros c [? ?]%is_digit_range. cbn. lia. Qed.
Lemma digit_boundary c b : is_digit c = true → boundary (c :: b) = true.
Proof. intros [Hc1 Hc2]%is_digit_range. cbn. by rewrite (proj2 (cont_false c)) by lia. Qed.

(** ** Numbers *)
Lemma parse_digits_all b : digits b → ∀ acc, parse_digits acc b = Some (foldl (λ a c, a * 10 + (c - 48)) acc b).
Proof. induction 1 as [|c b Hc _ IH]; intros acc; [done|]. cbn [parse_digits foldl]. by rewrite Hc. Qed.
Lemma dec_num_nonneg b : digits b → 0 ≤ dec_num b.
Proof.
  unfold dec_num. assert (∀ acc, 0 ≤ acc → digits b → 0 ≤ foldl (λ a c, a * 10 + (c - 48)) acc b); [|by apply H].
  induction b as [|c b IH]; intros acc Ha Hd; [done|]. apply Forall_cons in Hd as [[Hc _]%is_digit_range Hd]. cbn. apply IH; [lia|done].
Qed.
Lemma digits_stop c x y : is_digit c = false → digits x → take_while is_digit (x ++ c :: y) = x ∧ skip_while is_digit (x ++ c :: y) = c :: y.
Proof. intros Hc Hx. by apply run_of. Qed.
Lemma digits_end x : digits x → take_while is_digit x = x ∧ skip_while is_digit x = [].
Proof. intros Hx. pose proof (run_of is_digit x [] Hx I) as H. by rewrite app_nil_r in H. Qed.
Lemma exp_sign_digits sg x : sg = [] ∨ sg = [43] ∨ sg = [45] → x ≠ [] → digits x → exp_sign (sg ++ x) = (bool_decide (sg = [45]), x).
Proof.
  intros [->|[->| ->]] Hx Hd; [|done..]. destruct x as [|c x]; [done|]. apply Forall_cons in Hd as [[H1 H2]%is_digit_range _].
  cbn. by rewrite (proj2 (Z.eqb_neq c 45)), (proj2 (Z.eqb_neq c 43)) by lia.
Qed.
Lemma is_exp_not_digit c : is_exp c = true → is_digit c = false ∧ (c =? 46) = false.
Proof. unfold is_exp. intros [->%Z.eqb_eq| ->%Z.eqb_eq]%orb_true_iff; done. Qed.
(** The end of a numeral: what follows its digits. *)
Definition expo_text (nm : numeral) : bytes := match expo nm with Some (c, sg, x) => c :: sg ++ x | None => [] end.
Definition frac_text (nm : numeral) : bytes := match frac nm with Some x => 46 :: x | None => [] end.
Lemma expo_stop nm : numeral_ok nm → stop is_digit (expo_text nm) ∧ next_is 46 (expo_text nm) = false.
Proof.
  intros (_ & _ & _ & He). unfold expo_text. destruct (expo nm) as [[[c sg] x]|]; [|done]. destruct He as [[Hc Hd]%is_exp_not_digit _]. done.
Qed.
Lemma parse_f64_spelled nm : numeral_ok nm → parse_f64 (spelled nm) = Some (value nm).
Proof.
  intros Hok. pose proof (expo_stop nm Hok) as [Hs Hdot]. pose proof Hok as (Hw & Hf & Hne & He).
  assert (parse_f64 (spelled nm) = (if (blen (whole nm) =? 0) && (blen (frac_digits nm) =? 0) then None else
    m ← parse_digits 0 (whole nm ++ frac_digits nm);
    match expo_text nm with
    | [] => Some (nearest m (- blen (frac_digits nm)))
    | c :: rest => let '(neg, digits) := exp_sign rest in
        if negb (is_exp c) || (blen digits =? 0) then None else
        e ← parse_digits 0 digits; Some (nearest m ((if neg : bool then - e else e) - blen (frac_digits nm))) end)) as ->.
  { unfold parse_f64, spelled. fold (frac_text nm) (expo_text nm).
    assert (stop is_digit (frac_text nm ++ expo_text nm)) as Hst by (unfold frac_text; destruct (frac nm); done).
    destruct (run_of _ _ _ Hw Hst) as [-> ->]. unfold frac_text, frac_digits in *. destruct (frac nm) as [x|]; unfold default, id in *.
    - cbn [app fraction]. rewrite Z.eqb_refl. by destruct (run_of _ _ _ Hf Hs) as [-> ->].
    - cbn [app]. destruct (expo_text nm) as [|c r]; [done|]. cbn [next_is] in Hdot. cbn [fraction]. by rewrite Hdot. }
  destruct ((blen (whole nm) =? 0) && (blen (frac_digits nm) =? 0)) eqn:E.
  { apply andb_true_iff in E as [E1%Z.eqb_eq E2%Z.eqb_eq]. exfalso. apply Hne.
    - destruct (whole nm); [done|]. unfold blen in E1. cbn in E1. lia.
    - destruct (frac_digits nm); [done|]. unfold blen in E2. cbn in E2. lia. }
  rewrite parse_digits_all by (by apply Forall_app). cbn [mbind option_bind]. unfold value, exponent, expo_text.
  destruct (expo nm) as [[[c sg] x]|]; [|done]. destruct He as (Hc & Hsg & Hx & Hd).
  rewrite exp_sign_digits by done. rewrite Hc. assert ((blen x =? 0) = false) as -> by (destruct x; [done|]; apply Z.eqb_neq; unfold blen; cbn; lia).
  cbn [negb orb]. rewrite parse_digits_all by done. cbn [mbind option_bind]. by case_bool_decide.
Qed.
Lemma parse_i64_dec d : d ≠ [] → digits d → parse_i64 d = if dec_num d <=? i64_max then Some (dec_num d) else None.
Proof.
  intros Hne Hd. destruct d as [|c d]; [done|]. pose proof (dec_num_nonneg _ Hd). pose proof Hd as [[H1 H2]%is_digit_range _]%Forall_cons.
  unfold parse_i64. rewrite (proj2 (Z.eqb_neq c 45)), (proj2 (Z.eqb_neq c 43)) by lia. cbn [orb]. rewrite parse_digits_all by done.
  cbn [mbind option_bind]. change (foldl _ 0 (c :: d)) with (dec_num (c :: d)). unfold i64_chk.
  by rewrite (proj2 (Z.leb_le i64_min _)) by (unfold i64_min; lia).
Qed.
Lemma spelled_ascii nm : numeral_ok nm → ascii (spelled nm).
Proof.
  intros (Hw & Hf & _ & He). unfold spelled, frac_digits in *. apply Forall_app. split; [by apply tok_digits_ascii|]. apply Forall_app. split.
  - destruct (frac nm) as [x|]; [|constructor]. constructor; [done|by apply tok_digits_ascii].
  - destruct (expo nm) as [[[c sg] x]|]; [|constructor]. destruct He as (Hc & Hsg & _ & Hd). constructor.
    + unfold is_exp in Hc. apply orb_true_iff in Hc as [->%Z.eqb_eq| ->%Z.eqb_eq]; done.
    + apply Forall_app. split; [|by apply tok_digits_ascii]. destruct Hsg as [->|[->| ->]]; repeat constructor.
Qed.
Lemma scan_exponent_none exact b : exp_follows b = false → scan_exponent exact b = (exact, b).
Proof.
  destruct b as [|c k]; [done|]. cbn. destruct (is_exp c); [|done]. destruct (if _ || _ then _ else _) as [|d ?]; [done|]. cbn. by intros ->.
Qed.
Lemma scan_exponent_some exact c sg x rest : is_exp c = true → sg = [] ∨ sg = [43] ∨ sg = [45] → x ≠ [] → digits x → stop is_digit rest →
  scan_exponent exact (c :: sg ++ x ++ rest) = (false, rest).
Proof.
  intros Hc Hsg Hx Hd Hs. unfold scan_exponent. rewrite Hc.
  assert ((if next_is 43 (sg ++ x ++ rest) || next_is 45 (sg ++ x ++ rest) then drop 1 (sg ++ x ++ rest) else sg ++ x ++ rest) = x ++ rest) as ->.
  { destruct x as [|d x]; [done|]. pose proof Hd as [[H1 H2]%is_digit_range _]%Forall_cons.
    destruct Hsg as [->|[->| ->]]; [|done..]. cbn. by rewrite (proj2 (Z.eqb_neq d 45)), (proj2 (Z.eqb_neq d 43)) by lia. }
  destruct (run_of _ _ _ Hd Hs) as [_ E]. destruct x as [|d x]; [done|]. apply Forall_cons in Hd as [Hd _]. cbn [app] in *. by rewrite Hd, E.
Qed.
Lemma number_spelled n nm rest : numeral_ok nm → number_ends nm rest → utf8 (spelled nm ++ rest) →
  number n (spelled nm ++ rest) = Some (Ok (Num (value nm) (integer nm), rest)).
Proof.
  intros Hok (Hst & Hdot & Hexp) Hu. pose proof Hok as (Hw & Hf & Hne & He). pose proof (expo_stop nm Hok) as [Hes Hed].
  assert (boundary rest = true) as Hb by (apply utf8_boundary, (utf8_after (spelled nm)); [by apply spelled_ascii|done]).
  unfold number. set (b := spelled nm ++ rest) in *.
  assert (skip_while is_digit b = frac_text nm ++ expo_text nm ++ rest) as ->.
  { unfold b, spelled. rewrite <-!app_assoc. apply run_of; [done|]. unfold frac_text, expo_text in *. destruct (frac nm); [done|]. by destruct (expo nm) as [[[? ?] ?]|]. }
  assert (stop is_digit (expo_text nm ++ rest)) as Hs2 by (unfold expo_text in *; by destruct (expo nm) as [[[? ?] ?]|]).
  assert (scan_fraction (frac_text nm ++ expo_text nm ++ rest) = (bool_decide (frac nm = None), expo_text nm ++ rest)) as ->.
  { unfold scan_fraction, frac_text, frac_digits in *. destruct (frac nm) as [x|]; unfold default, id in *.
    - cbn [app next_is]. rewrite Z.eqb_refl. rewrite skipn_cons, drop_0. by destruct (run_of _ _ _ Hf Hs2) as [_ ->].
    - cbn [app]. unfold expo_text in *. destruct (expo nm) as [[[c sg] x]|]; cbn [app next_is] in *; [by rewrite Hed|by rewrite Hdot]. }
  assert (scan_exponent (bool_decide (frac nm = None)) (expo_text nm ++ rest) = (bool_decide (frac nm = None ∧ expo nm = None), rest)) as ->.
  { unfold expo_text. destruct (expo nm) as [[[c sg] x]|].
    - destruct He as (Hc & Hsg & Hx & Hd). cbn [app]. rewrite <-app_assoc, scan_exponent_some by done. by rewrite bool_decide_false by (by intros [_ ?]).
    - cbn [app]. rewrite scan_exponent_none by by apply Hexp. f_equal. apply bool_decide_ext. tauto. }
  unfold b. rewrite slice_here; [|by apply utf8_boundary|done]. cbn [mbind option_bind]. rewrite parse_f64_spelled by done. unfold integer.
  destruct (frac nm) as [x|] eqn:Ef; [by rewrite bool_decide_false by (by intros [? _])|].
  destruct (expo nm) as [[[c sg] x]|] eqn:Ee; [by rewrite bool_decide_false by (by intros [_ ?])|]. rewrite bool_decide_true by done.
  unfold frac_digits in Hne. rewrite Ef in Hne. assert (spelled nm = whole nm) as -> by (unfold spelled; by rewrite Ef, Ee, app_nil_r).
  rewrite parse_i64_dec; [done| |done]. intros E. by apply Hne.
Qed.

(** Any text that starts like a number does start with one. *)
Lemma number_found c r : is_digit c = true ∨ c = 46 ∧ next_digit r = true →
  ∃ nm rest, c :: r = spelled nm ++ rest ∧ numeral_ok nm ∧ number_ends nm rest.
Proof.
  intros Hc. set (b := c :: r) in *. pose proof (take_skip is_digit b) as E1. pose proof (take_while_all is_digit b) as Hw. pose proof (skip_while_stop is_digit b) as Hs1.
  set (w := take_while is_digit b) in *. set (j := skip_while is_digit b) in *. clearbody w j.
  assert (∃ fr j2, j = match fr with Some x => 46 :: x | None => [] end ++ j2 ∧ digits (default [] fr) ∧ stop is_digit j2 ∧
    (fr = None → next_is 46 j2 = false) ∧ (w = [] → default [] fr ≠ [])) as (fr & j2 & E2 & Hf & Hs2 & Hd2 & Hne).
  { destruct (next_is 46 j) eqn:E.
    - destruct j as [|d j']; [done|]. apply Z.eqb_eq in E as ->. exists (Some (take_while is_digit j')), (skip_while is_digit j').
      split; [cbn; by rewrite take_skip|]. split; [apply take_while_all|]. split; [apply skip_while_stop|]. split; [done|]. cbn. intros Ew.
      rewrite Ew in E1. cbn [app] in E1. unfold b in E1. injection E1 as <- <-. destruct Hc as [?|[_ Hc]]; [done|]. destruct j' as [|d r']; [done|]. cbn in *. by rewrite Hc.
    - exists None, j. split; [done|]. split; [constructor|]. split; [done|]. split; [done|]. intros Ew. rewrite Ew in E1. cbn [app] in E1. rewrite E1 in E, Hs1. exfalso.
      unfold b in E, Hs1. cbn in E, Hs1. destruct Hc as [Hc|[-> _]]; [congruence|done]. }
  destruct (exp_follows j2) eqn:E.
  - destruct j2 as [|e k]; [done|]. cbn in E. apply andb_true_iff in E as [He Hk].
    assert (∃ sg k', k = sg ++ k' ∧ (sg = [] ∨ sg = [43] ∨ sg = [45]) ∧ next_digit k' = true) as (sg & k' & -> & Hsg & Hk').
    { destruct (next_is 43 k || next_is 45 k) eqn:En; [|by exists [], k; auto]. destruct k as [|d k]; [done|]. cbn in En.
      exists [d], k. split; [done|]. split; [|done]. apply orb_true_iff in En as [->%Z.eqb_eq| ->%Z.eqb_eq]; auto. }
    exists (Numeral w fr (Some (e, sg, take_while is_digit k'))), (skip_while is_digit k').
    split; [rewrite <-E1, E2; unfold spelled; cbn; rewrite <-!app_assoc; cbn; by rewrite <-!app_assoc, take_skip|]. split.
    + split; [done|]. split; [done|]. split; [done|]. cbn. split; [done|]. split; [done|]. split; [|apply take_while_all].
      destruct k' as [|d k']; [done|]. cbn in *. by rewrite Hk'.
    + split; [apply skip_while_stop|]. done.
  - exists (Numeral w fr None), j2. split; [rewrite <-E1, E2; unfold spelled; cbn; by rewrite app_nil_r, app_assoc|]. split; [by repeat split|]. split; [done|]. split; [intros Hfr _; by apply Hd2|done].
Qed.

(** ** Strings *)
Lemma is_cont_spec c : byte_ok c → is_cont c = cont c.
Proof.
  intros Hc. assert (forallb (λ c, bool_decide (is_cont c = cont c)) (seqZ 0 256) = true) as H by (by vm_compute).
  rewrite forallb_forall in H. specialize (H c). rewrite bool_decide_eq_true in H. apply H.
  apply list_elem_of_In, elem_of_seqZ. unfold byte_ok in Hc. lia.
Qed.
Lemma is_cont_encode s : scalars s → stop is_cont (encode s).
Proof.
  intros Hs. pose proof (utf8_encode_ok s Hs) as Hb. destruct (encode s) as [|c l] eqn:E; [done|]. apply Forall_cons in Hb as [Hb _].
  cbn. rewrite is_cont_spec by done. by eapply encode_head.
Qed.
Lemma encode_cons_ascii c s : c < 128 → encode (c :: s) = c :: encode s.
Proof. intros Hc. rewrite encode_cons. unfold encode_char. by rewrite (proj2 (Z.ltb_lt _ _)). Qed.
Lemma doubled_app q x y : doubled q (x ++ y) = doubled q x ++ doubled q y.
Proof. unfold doubled. by rewrite flat_map_app. Qed.
(** The bytes of a character other than the quote hold no quote. *)
Lemma char_quote q c : 0 ≤ q < 128 → is_scalar c = true → c ≠ q → ∃ b0 l, encode_char c = b0 :: l ∧ b0 ≠ q ∧ doubled q (encode_char c) = encode_char c ∧
  ∀ s, scalars s → take_while is_cont (l ++ encode s) = l ∧ skip_while is_cont (l ++ encode s) = encode s.
Proof.
  intros Hq Hc Hne. destruct (encode_char_shape c Hc) as (b0 & l & E & Hb & Hb0 & Hl). exists b0, l. split; [done|].
  assert (Forall (λ b, b ≠ q) (b0 :: l)) as Hall.
  { constructor; [|eapply Forall_impl; [exact Hl|]; intros b; cbn; rewrite cont_spec; lia].
    destruct (encode_char_head _ _ _ Hc E) as [(_ & -> & _)|?]; [done|lia]. }
  split; [by inversion Hall|]. split.
  - rewrite E. clear -Hall. induction Hall as [|b x Hb _ IH]; [done|]. cbn. rewrite (proj2 (Z.eqb_neq b q)) by done. cbn. by f_equal.
  - intros s Hs. apply run_of; [|by apply is_cont_encode]. eapply Forall_impl; [exact Hl|]. intros b Hb1. cbn in *. rewrite is_cont_spec; [done|].
    apply cont_spec in Hb1. unfold byte_ok. lia.
Qed.
Lemma quoted_step fuel q un at_ v c r : c ≠ q → ∀ l t, take_while is_cont r = l → skip_while is_cont r = t → is_Some (decode (c :: l)) →
  quoted (S fuel) q un at_ v (c :: r) = quoted fuel q un at_ (v ++ c :: l) t.
Proof. intros Hc x t <- <- [y Hx]. cbn [quoted]. rewrite (proj2 (Z.eqb_neq c q)) by done. by rewrite Hx. Qed.
Lemma quoted_char fuel q un at_ v c s : 0 ≤ q < 128 → is_scalar c = true → scalars s → c ≠ q →
  quoted (S fuel) q un at_ v (encode (c :: s)) = quoted fuel q un at_ (v ++ encode_char c) (encode s).
Proof.
  intros Hq Hc Hs Hne. destruct (char_quote q c Hq Hc Hne) as (b0 & l & E & Hb & _ & Hl). destruct (Hl s Hs) as [H1 H2].
  rewrite encode_cons, E. cbn [app]. apply quoted_step; [done|done|done|]. rewrite <-E. exists [c].
  rewrite <-(app_nil_r (encode_char c)). apply (utf8_decode_encode [c]). by constructor.
Qed.
Lemma quoted_quote fuel q un at_ v r : quoted (S fuel) q un at_ v (q :: r) =
  if next_is q r then quoted fuel q un at_ (v ++ [q]) (drop 1 r) else Some (Ok (v, r)).
Proof. cbn [quoted]. by rewrite Z.eqb_refl. Qed.
Lemma quoted_reads q un at_ : 0 ≤ q < 128 → ∀ fuel s v, scalars s → (length (encode s) < fuel)%nat →
  (∃ m, quoted fuel q un at_ v (encode s) = Some (Err (Syntax m at_))) ∨
  ∃ u t, scalars u ∧ scalars t ∧ encode s = doubled q (encode u) ++ q :: encode t ∧ next_is q (encode t) = false ∧
    quoted fuel q un at_ v (encode s) = Some (Ok (v ++ encode u, encode t)).
Proof.
  intros Hq. induction fuel as [|fuel IH]; intros s v Hs Hf; [lia|]. destruct s as [|c s]; [left; by eexists|].
  apply Forall_cons in Hs as [Hc Hs]. destruct (decide (c = q)) as [->|Hne].
  - rewrite encode_cons_ascii in * by lia. cbn [length] in Hf. rewrite quoted_quote. destruct (next_is q (encode s)) eqn:E.
    + destruct s as [|d s]; [done|]. apply Forall_cons in Hs as [Hd Hs].
      assert (d = q) as ->.
      { rewrite encode_cons in E. destruct (encode_char d) as [|b0 l] eqn:Ed; [by destruct (encode_char_shape d Hd) as (? & ? & ? & _); congruence|].
        cbn in E. apply Z.eqb_eq in E as ->. destruct (encode_char_head _ _ _ Hd Ed) as [(_ & -> & _)|?]; [done|lia]. }
      rewrite encode_cons_ascii in * by lia. rewrite skipn_cons, drop_0. cbn [length] in Hf.
      destruct (IH s (v ++ [q]) Hs) as [?|(u & t & Hu & Ht & Es & Hn & ->)]; [lia|by left|right].
      exists (q :: u), t. split; [by constructor|]. split; [done|]. rewrite encode_cons_ascii by lia. cbn [doubled flat_map]. rewrite Z.eqb_refl.
      fold (doubled q (encode u)). rewrite Es. split; [done|]. split; [done|]. by rewrite <-app_assoc.
    + right. exists [], s. split; [constructor|]. by rewrite app_nil_r.
  - rewrite quoted_char by done. pose proof (encode_char_length c). rewrite encode_cons, length_app in Hf.
    destruct (IH s (v ++ encode_char c) Hs) as [?|(u & t & Hu & Ht & Es & Hn & ->)]; [lia|by left|right].
    exists (c :: u), t. destruct (char_quote q c Hq Hc Hne) as (_ & _ & _ & _ & Ed & _). split; [by constructor|]. split; [done|].
    rewrite !encode_cons, doubled_app, Ed, Es, <-!app_assoc. done.
Qed.
Lemma doubled_encode q u : 0 ≤ q < 128 → scalars u → scalars (doubled q u) ∧ doubled q (encode u) = encode (doubled q u).
Proof.
  intros Hq Hu. induction Hu as [|c u Hc Hu [IH1 IH2]]; [split; [constructor|done]|]. rewrite encode_cons, doubled_app, IH2.
  change (doubled q (c :: u)) with ((if c =? q then [q; q] else [c]) ++ doubled q u). rewrite encode_app. destruct (Z.eqb_spec c q) as [->|Hne].
  - split; [by repeat constructor|]. assert (encode_char q = [q]) as -> by (unfold encode_char; destruct (Z.ltb_spec q 128); [done|lia]).
    rewrite !encode_cons_ascii by lia. cbn. by rewrite Z.eqb_refl.
  - destruct (char_quote q c Hq Hc Hne) as (_ & _ & _ & _ & -> & _). split; [by constructor|]. by rewrite encode_cons, app_nil_r.
Qed.
Lemma quoted_spelled q un at_ u t : 0 ≤ q < 128 → scalars u → scalars t → next_is q (encode t) = false → ∀ fuel v,
  (length (doubled q (encode u)) < fuel)%nat →
  quoted fuel q un at_ v (doubled q (encode u) ++ q :: encode t) = Some (Ok (v ++ encode u, encode t)).
Proof.
  intros Hq Hu Ht Hn. induction Hu as [|c u Hc Hu IH]; intros fuel v Hf; destruct fuel as [|fuel]; try (cbn in Hf; lia).
  - cbn [doubled encode map concat flat_map app]. rewrite quoted_quote, Hn. by rewrite app_nil_r.
  - destruct (decide (c = q)) as [->|Hne].
    + rewrite encode_cons_ascii in * by lia. cbn [doubled flat_map app] in *. rewrite Z.eqb_refl in *. cbn [app length] in *. fold (doubled q (encode u)) in *.
      rewrite quoted_quote. cbn [next_is]. rewrite Z.eqb_refl, skipn_cons, drop_0, IH by lia. by rewrite <-app_assoc.
    + destruct (char_quote q c Hq Hc Hne) as (b0 & l & E & Hb & Ed & Hl). rewrite encode_cons, doubled_app, Ed in *. rewrite length_app in Hf.
      assert (length (encode_char c) ≠ 0%nat) by (by rewrite E). destruct (doubled_encode q u Hq Hu) as [Hds Hde].
      assert (scalars (doubled q u ++ q :: t)) as Hall by (apply scalars_app; split; [done|]; constructor; [unfold is_scalar; apply is_scalar_spec; lia|done]).
      pose proof (quoted_char fuel q un at_ v c _ Hq Hc Hall Hne) as Hstep. rewrite encode_cons, encode_app, encode_cons_ascii, <-Hde in Hstep by lia.
      rewrite <-app_assoc, Hstep, IH by lia. by rewrite <-app_assoc.
Qed.

(** ** Operators *)
(** Longer spellings first, none twice: the first match is the longest. *)
Fixpoint longest_first (table : list (string * Tok)) : bool :=
  match table with
  | [] => true
  | (s, _) :: table =>
      forallb (λ x, Nat.leb (length (ascii_bytes x.1)) (length (ascii_bytes s)) && negb (bool_decide (ascii_bytes x.1 = ascii_bytes s))) table
      && longest_first table
  end.
Lemma longest_first_cons s (t : Tok) table : longest_first ((s, t) :: table) = true →
  longest_first table = true ∧ ∀ s' t', (s', t') ∈ table → (length (ascii_bytes s') ≤ length (ascii_bytes s))%nat ∧ ascii_bytes s' ≠ ascii_bytes s.
Proof.
  cbn. intros [Hf Ht]%andb_true_iff. split; [done|]. intros s' t' Hin. rewrite forallb_forall in Hf. apply list_elem_of_In, Hf in Hin.
  apply andb_true_iff in Hin as [H1%Nat.leb_le H2%negb_true_iff]. by apply bool_decide_eq_false in H2.
Qed.
Lemma operators_longest_first : longest_first operators = true.
Proof. vm_compute. reflexivity. Qed.
Lemma prefix_same x y b : starts_with b x = true → starts_with b y = true → length x = length y → x = y.
Proof. rewrite !starts_with_iff. intros [l ->] [l' E] Hl. by apply app_inj_1 in E as [-> _]. Qed.
Lemma operator_spelled b table : longest_first table = true → ∀ s t rest, b = ascii_bytes s ++ rest → (s, t) ∈ table →
  (∀ s' t', (s', t') ∈ table → starts_with b (ascii_bytes s') = true → (length (ascii_bytes s') ≤ length (ascii_bytes s))%nat) →
  operator table b = Some (t, rest).
Proof.
  intros Hlf s t rest Hb. assert (starts_with b (ascii_bytes s) = true) as Hsw by (apply starts_with_iff; by exists rest).
  revert Hlf. induction table as [|[s' t'] table IH]; intros Hlf Hin Hmax; [by apply elem_of_nil in Hin|].
  destruct (longest_first_cons _ _ _ Hlf) as [Hlf' Hlong]. clear Hlf. cbn [operator]. apply elem_of_cons in Hin as [[= <- <-]|Hin].
  - rewrite Hsw, Hb. by rewrite drop_app_length.
  - destruct (Hlong _ _ Hin) as [Hle Hne]. destruct (starts_with b (ascii_bytes s')) eqn:E.
    + exfalso. apply Hne. apply (prefix_same _ _ b); [done|done|]. pose proof (Hmax s' t' ltac:(left) E). lia.
    + apply IH; [done|done|]. intros s2 t2 H2. apply (Hmax s2 t2). by right.
Qed.
Lemma operator_found b table t rest : longest_first table = true → operator table b = Some (t, rest) →
  ∃ s, (s, t) ∈ table ∧ b = ascii_bytes s ++ rest ∧
  ∀ s' t', (s', t') ∈ table → starts_with b (ascii_bytes s') = true → (length (ascii_bytes s') ≤ length (ascii_bytes s))%nat.
Proof.
  induction table as [|[s t'] table IH]; intros Hlf Ho; [done|]. destruct (longest_first_cons _ _ _ Hlf) as [Hlf' Hlong]. clear Hlf. cbn [operator] in Ho.
  destruct (starts_with b (ascii_bytes s)) eqn:E.
  - injection Ho as <- <-. exists s. split; [by left|]. apply starts_with_iff in E as [l ->]. rewrite drop_app_length. split; [done|].
    intros s' t'' [[= -> ->]|Hin]%elem_of_cons _; [done|]. by apply (Hlong s' t'').
  - destruct (IH Hlf' Ho) as (s2 & Hin & Hb & Hmax). exists s2. split; [by right|]. split; [done|].
    intros s' t'' [[= -> ->]|Hin']%elem_of_cons Hs; [congruence|]. by apply (Hmax s' t'').
Qed.
Lemma operator_dot s : (s, Dot) ∈ operators → s = "."%string.
Proof.
  intros Hin. assert (forallb (λ x, match x.2 with Dot => bool_decide (x.1 = "."%string) | _ => true end) operators = true) as H by (by vm_compute).
  rewrite forallb_forall in H. apply list_elem_of_In, H in Hin. by apply bool_decide_eq_true in Hin.
Qed.
Lemma operator_shape s t : (s, t) ∈ operators → ascii (ascii_bytes s) ∧
  ∃ c w, ascii_bytes s = c :: w ∧ negb (is_ascii_whitespace c || (c =? 39) || (c =? 34) || (c =? 36) || is_digit c || word_start c) = true ∧
  (c = 46 → t = Dot ∧ w = []).
Proof.
  intros Hin. assert (forallb (λ x, forallb (λ c, c <? 128) (ascii_bytes x.1) && match ascii_bytes x.1 with
    | c :: w => negb (is_ascii_whitespace c || (c =? 39) || (c =? 34) || (c =? 36) || is_digit c || word_start c) &&
        (negb (c =? 46) || match x.2, w with Dot, [] => true | _, _ => false end) | [] => false end) operators = true) as H by (by vm_compute).
  rewrite forallb_forall in H. apply list_elem_of_In, H in Hin. cbn [fst snd] in Hin. apply andb_true_iff in Hin as [Ha Hs]. split.
  - apply Forall_forall. intros c Hc. rewrite forallb_forall in Ha. apply list_elem_of_In, Ha in Hc. lia.
  - destruct (ascii_bytes s) as [|c w]; [done|]. exists c, w. split; [done|]. apply andb_true_iff in Hs as [? Hd]. split; [done|].
    intros ->. cbn in Hd. destruct t; try done. by destruct w.
Qed.

(** ** One token *)
Lemma word_start_spec c : word_start c = true ↔ c = 95 ∨ 65 ≤ c ≤ 90 ∨ 97 ≤ c ≤ 122 ∨ 128 ≤ c.
Proof. unfold word_start, is_ascii_alphabetic. rewrite !orb_true_iff, !andb_true_iff, !Z.leb_le, Z.eqb_eq. lia. Qed.
Lemma word_char_spec c : word_char c = true ↔ word_start c = true ∨ is_digit c = true.
Proof. rewrite word_start_spec, is_digit_range. unfold word_char, is_ascii_alphabetic. rewrite !orb_true_iff, !andb_true_iff, !Z.leb_le, Z.eqb_eq, is_digit_range. lia. Qed.
Lemma ascii_whitespace_spec c : is_ascii_whitespace c = true ↔ c = 32 ∨ c = 9 ∨ c = 10 ∨ c = 12 ∨ c = 13.
Proof. unfold is_ascii_whitespace. rewrite !orb_true_iff, !Z.eqb_eq. lia. Qed.
Lemma word_stop_boundary rest : stop word_char rest → boundary rest = true.
Proof.
  destruct rest as [|c r]; [done|]. cbn. intros H. destruct (cont c) eqn:E; [|done]. apply cont_spec in E.
  assert (word_char c = true); [|congruence]. apply word_char_spec. left. apply word_start_spec. lia.
Qed.
Lemma next_is_spec c b : next_is c b = true ↔ ∃ r, b = c :: r.
Proof. destruct b as [|d b]; cbn; [split; [done|by intros [? ?]]|]. rewrite Z.eqb_eq. split; [intros ->; by eexists|by intros [? [= -> _]]]. Qed.
(** What the loop asks of the byte a token starts with. *)
Definition starts_token (b : bytes) : Prop := match b with c :: _ => is_ascii_whitespace c = false | [] => False end ∧
  line_comment b = false ∧ block_comment b = false.
Lemma not_comment c r : c ≠ 45 → c ≠ 47 → is_ascii_whitespace c = false → starts_token (c :: r).
Proof. intros H1 H2 Hw. split; [done|]. unfold line_comment, block_comment. cbn. by rewrite (proj2 (Z.eqb_neq c 45)), (proj2 (Z.eqb_neq c 47)). Qed.
(** A case of the match: the byte it starts with decides. *)
Ltac first_byte :=
  repeat match goal with
  | |- context [?c =? ?k] => rewrite (proj2 (Z.eqb_neq c k)) by lia
  end.
Lemma token_number n c r : is_digit c = true ∨ c = 46 ∧ next_digit r = true → token n (c :: r) = number n (c :: r).
Proof.
  intros [H|[-> H]]; unfold token.
  - pose proof (proj1 (is_digit_range c) H) as [? ?]. first_byte. by rewrite H.
  - cbn [Z.eqb Pos.eqb]. unfold next_digit in H. cbn -[operator number text_slice]. by rewrite H.
Qed.
Lemma token_word n c r : word_start c = true → token n (c :: r) =
  (word ← text_slice (c :: r) (skip_while word_char (c :: r)); Some (Ok (Word word, skip_while word_char (c :: r)))).
Proof.
  intros H. pose proof (proj1 (word_start_spec c) H). unfold token. first_byte. rewrite H.
  assert (is_digit c = false) as ->; [|done]. apply not_true_is_false. rewrite is_digit_range. lia.
Qed.
Lemma token_operator n c r : negb (is_ascii_whitespace c || (c =? 39) || (c =? 34) || (c =? 36) || is_digit c || word_start c) = true →
  (c = 46 → next_digit r = false) → token n (c :: r) =
  match operator operators (c :: r) with
  | Some (t, j) => Some (Ok (t, j))
  | None => Some (Err (Syntax (ascii_bytes "unexpected character `" ++ encode_char c ++ [96]) (n - blen (c :: r))))
  end.
Proof.
  intros H Hd. rewrite !negb_orb, !andb_true_iff, !negb_true_iff in H. destruct H as (((((_ & H1) & H2) & H3) & H4) & H5).
  unfold token. rewrite H1, H2, H3, H4, H5. destruct (Z.eqb_spec c 46) as [E|E]; [|done]. specialize (Hd E). unfold next_digit in Hd. by rewrite Hd.
Qed.
Lemma token_quoted n q r (un : string) (f : bytes → Tok) : (q, un, f) = (39, "unterminated string literal"%string, Str) ∨ (q, un, f) = (34, "unterminated quoted identifier"%string, Quoted) →
  token n (q :: r) = lbind (quoted (S (length r)) q un (n - blen (q :: r)) [] r) (λ '(v, j), Some (Ok (f v, j))).
Proof. by intros [[= -> -> ->]|[= -> -> ->]]. Qed.
Lemma quoted_lexeme n q un f s rest : 0 ≤ q < 128 → (q, un, f) = (39, "unterminated string literal"%string, Str) ∨ (q, un, f) = (34, "unterminated quoted identifier"%string, Quoted) →
  utf8 s → next_is q rest = false → utf8 (q :: doubled q s ++ [q] ++ rest) →
  token n (q :: doubled q s ++ [q] ++ rest) = Some (Ok (f s, rest)) ∧ utf8 rest.
Proof.
  intros Hq Hk (u & Hu & ->) Hn Hall. apply utf8_ascii in Hall; [|lia].
  assert (utf8 rest) as Hr.
  { apply utf8_split in Hall as [_ Hall]; [|cbn; apply negb_true_iff, cont_false; lia]. apply (utf8_ascii q); [done|lia]. }
  split; [|done]. destruct Hr as (v & Hv & ->). rewrite (token_quoted n q _ un f) by done. cbn [app].
  rewrite (quoted_spelled q un _ u v) by (try done; rewrite length_app; lia). done.
Qed.
Lemma spelled_start nm rest : numeral_ok nm → ∃ c r, spelled nm ++ rest = c :: r ∧ (is_digit c = true ∨ c = 46 ∧ next_digit r = true).
Proof.
  intros (Hw & Hf & Hne & _). unfold spelled, frac_digits in *. destruct (whole nm) as [|c w].
  - specialize (Hne eq_refl). destruct (frac nm) as [[|d x]|]; [done| |done]. do 2 eexists. split; [reflexivity|]. right. split; [done|].
    unfold default, id in Hf. by apply Forall_cons in Hf as [? _].
  - apply Forall_cons in Hw as [? _]. do 2 eexists. split; [reflexivity|]. by left.
Qed.
(** A token that is spelled is read. *)
Lemma lexeme_token n w t rest : lexeme w t rest → utf8 (w ++ rest) →
  token n (w ++ rest) = Some (Ok (t, rest)) ∧ utf8 rest ∧ w ≠ [] ∧ starts_token (w ++ rest).
Proof.
  intros Hl Hu. destruct Hl as [c w rest Hc Hw Hs|s rest Hs Hn|s rest Hs Hn|nm rest Hok He|d rest Hne Hd Hr Hs|s t rest Hin b Hmax Hdot Hlc Hbc].
  - pose proof (proj1 (word_start_spec c) Hc) as Hcr. apply word_stop_boundary in Hs as Hb. destruct (utf8_split _ _ Hu Hb) as [_ Hur]. cbn [app] in *.
    rewrite token_word by done. assert (skip_while word_char (c :: w ++ rest) = rest) as ->.
    { apply (run_of word_char (c :: w) rest); [|done]. constructor; [|done]. apply word_char_spec. by left. }
    pose proof (slice_here (c :: w) rest) as Esl. cbn [app] in Esl. rewrite Esl by (done || by apply utf8_boundary). split; [done|]. split; [done|]. split; [done|].
    apply not_comment; [lia..|]. apply not_true_is_false. rewrite ascii_whitespace_spec. lia.
  - cbn [app] in *. rewrite <-app_assoc in *. destruct (quoted_lexeme n 34 _ Quoted s rest ltac:(lia) (or_intror eq_refl) Hs Hn Hu) as [-> ?]. by split_and!.
  - cbn [app] in *. rewrite <-app_assoc in *. destruct (quoted_lexeme n 39 _ Str s rest ltac:(lia) (or_introl eq_refl) Hs Hn Hu) as [-> ?]. by split_and!.
  - destruct (spelled_start nm rest Hok) as (c & r & E & Hc). rewrite E. rewrite (token_number n c r Hc), <-E, number_spelled by done.
    split; [done|]. split; [apply (utf8_after (spelled nm)); [by apply spelled_ascii|done]|]. rewrite E. split.
    + intros E0. unfold spelled in E0. apply app_eq_nil in E0 as [Ew [Ef _]%app_eq_nil]. pose proof Hok as (_ & _ & Hne & _). apply (Hne Ew).
      unfold frac_digits. by destruct (frac nm).
    + apply not_comment; [destruct Hc as [?%is_digit_range|[-> _]]; lia..|]. apply not_true_is_false. rewrite ascii_whitespace_spec.
      destruct Hc as [?%is_digit_range|[-> _]]; lia.
  - cbn [app] in *. apply utf8_ascii in Hu as Hu1; [|done]. apply utf8_after in Hu1 as Hur; [|by apply tok_digits_ascii]. split; [|by split_and!].
    change (token n (36 :: d ++ rest)) with (parameter n (36 :: d ++ rest)). unfold parameter. rewrite skipn_cons, drop_0.
    destruct (run_of _ _ _ Hd Hs) as [_ ->]. rewrite (proj2 (Z.eqb_neq _ _)) by (destruct d; [done|]; unfold blen; cbn; rewrite length_app; lia).
    rewrite slice_here by (by apply utf8_boundary). cbn [mbind option_bind]. unfold parse_usize. rewrite parse_digits_all by done. cbn [mbind option_bind].
    fold (dec_num d). change MAX_PARAMETER with 65535 in *. rewrite (proj2 (Z.leb_le (dec_num d) u64_max)) by (unfold u64_max; lia). cbn [mbind option_bind].
    rewrite (proj2 (Z.leb_le (dec_num d) 65535)), (proj2 (Z.eqb_neq (dec_num d) 0)) by lia. done.
  - destruct (operator_shape s t Hin) as (Ha & c & w & E & Hc & Hc46). apply utf8_after in Hu as Hur; [|done].
    pose proof (operator_spelled b operators operators_longest_first s t rest eq_refl Hin Hmax) as Ho. unfold b in *. rewrite E in *. cbn [app] in *.
    rewrite token_operator; [|done|]. 2: { intros H46. destruct (Hc46 H46) as [-> ->]. specialize (Hdot eq_refl). cbn [app]. by destruct rest. }
    rewrite Ho. split_and!; try done. split; [|done]. rewrite !negb_orb, !andb_true_iff, !negb_true_iff in Hc. by destruct Hc as (((((H1 & _) & _) & _) & _) & _).
Qed.
(** A token that is read is spelled. *)
Lemma quoted_found n q un f s : 0 ≤ q < 128 → (q, un, f) = (39, "unterminated string literal"%string, Str) ∨ (q, un, f) = (34, "unterminated quoted identifier"%string, Quoted) →
  scalars s →
  (∃ m, token n (q :: encode s) = Some (Err (Syntax m (n - blen (q :: encode s))))) ∨
  ∃ v rest, q :: encode s = (q :: doubled q v ++ [q]) ++ rest ∧ utf8 v ∧ next_is q rest = false.
Proof.
  intros Hq Hk Hs. rewrite (token_quoted n q _ un f) by done.
  destruct (quoted_reads q un (n - blen (q :: encode s)) Hq (S (length (encode s))) s [] Hs ltac:(lia)) as [[m ->]|(u & t & Hu & Ht & E & Hn & _)]; [left; by exists m|right].
  exists (encode u), (encode t). rewrite E. cbn [app]. rewrite <-app_assoc. split; [done|]. split; [by exists u|done].
Qed.
Lemma param_found n r : utf8 (36 :: r) →
  (∃ m, token n (36 :: r) = Some (Err (Syntax m (n - blen (36 :: r))))) ∨ ∃ w t rest, 36 :: r = w ++ rest ∧ lexeme w t rest.
Proof.
  intros Hu. change (token n (36 :: r)) with (parameter n (36 :: r)). unfold parameter. rewrite skipn_cons, drop_0.
  pose proof (take_skip is_digit r) as E. pose proof (take_while_all is_digit r) as Hd. pose proof (skip_while_stop is_digit r) as Hs.
  set (d := take_while is_digit r) in *. set (rest := skip_while is_digit r) in *. clearbody d rest. subst r.
  destruct (Z.eqb_spec (blen rest) (blen (d ++ rest))) as [Hl|Hl]; [left; by eexists|].
  apply utf8_ascii in Hu as Hu1; [|done]. apply utf8_after in Hu1 as Hur; [|by apply tok_digits_ascii].
  rewrite slice_here by (by apply utf8_boundary). cbn [mbind option_bind]. unfold parse_usize. rewrite parse_digits_all by done. cbn [mbind option_bind].
  change (foldl _ 0 d) with (dec_num d). pose proof (dec_num_nonneg d Hd).
  destruct (Z.leb_spec (dec_num d) u64_max); cbn [mbind option_bind]; [|left; by eexists].
  destruct (Z.leb_spec (dec_num d) MAX_PARAMETER); [|left; by eexists]. destruct (Z.eqb_spec (dec_num d) 0); [left; by eexists|right].
  exists (36 :: d), (Param (dec_num d)), rest. split; [done|]. constructor; [by intros ->|done|lia|done].
Qed.
Lemma token_found n c r : utf8 (c :: r) → starts_token (c :: r) →
  (∃ m, token n (c :: r) = Some (Err (Syntax m (n - blen (c :: r))))) ∨ ∃ w t rest, c :: r = w ++ rest ∧ lexeme w t rest.
Proof.
  intros Hu (Hw & Hlc & Hbc).
  destruct (decide (c = 39)) as [->|H1].
  { destruct (utf8_ascii _ _ Hu ltac:(lia)) as (s & Hs & ->). destruct (quoted_found n 39 _ Str s ltac:(lia) (or_introl eq_refl) Hs) as [?|(v & rest & E & Hv & Hn)]; [by left|right].
    rewrite E. do 3 eexists. split; [done|]. by apply (lex_str v). }
  destruct (decide (c = 34)) as [->|H2].
  { destruct (utf8_ascii _ _ Hu ltac:(lia)) as (s & Hs & ->). destruct (quoted_found n 34 _ Quoted s ltac:(lia) (or_intror eq_refl) Hs) as [?|(v & rest & E & Hv & Hn)]; [by left|right].
    rewrite E. do 3 eexists. split; [done|]. by apply (lex_quoted v). }
  destruct (decide (c = 36)) as [->|H3]; [by apply param_found|].
  assert ((is_digit c = true ∨ c = 46 ∧ next_digit r = true) ∨ is_digit c = false ∧ (c = 46 → next_digit r = false)) as [Hn|[Hd Hn]].
  { destruct (is_digit c); [by left; left|]. destruct (decide (c = 46)); [|by right]. destruct (next_digit r); [left|]; by right. }
  { right. destruct (number_found c r Hn) as (nm & rest & -> & Hok & He). do 3 eexists. split; [done|]. by apply lex_num. }
  destruct (word_start c) eqn:Ew.
  { right. exists (take_while word_char (c :: r)), (Word (take_while word_char (c :: r))), (skip_while word_char (c :: r)). rewrite take_skip. split; [done|].
    pose proof (take_while_all word_char (c :: r)) as Ha. cbn [take_while] in *. rewrite (proj2 (word_char_spec c)) in * by (by left).
    apply Forall_cons in Ha as [_ Ha]. apply lex_word; [done|done|apply skip_while_stop]. }
  assert (negb (is_ascii_whitespace c || (c =? 39) || (c =? 34) || (c =? 36) || is_digit c || word_start c) = true) as Hneg.
  { rewrite Hw, Hd, Ew, (proj2 (Z.eqb_neq c 39)), (proj2 (Z.eqb_neq c 34)), (proj2 (Z.eqb_neq c 36)) by done. done. }
  rewrite token_operator by done. destruct (operator operators (c :: r)) as [[t rest]|] eqn:E; [right|left; by eexists].
  destruct (operator_found _ _ _ _ operators_longest_first E) as (s & Hin & Hb & Hmax). exists (ascii_bytes s), t, rest. split; [done|].
  apply lex_operator; [done|by rewrite <-Hb| |by rewrite <-Hb|by rewrite <-Hb]. intros ->.
  rewrite (operator_dot s Hin) in Hb.
  change (ascii_bytes ".") with [46] in Hb. injection Hb as -> ->. specialize (Hn eq_refl). unfold stop. unfold next_digit in Hn. destruct rest; [done|exact Hn].
Qed.

(** ** White space and comments *)
Lemma comment_end_found b j : comment_end b = Some j → ∃ l, b = l ++ 42 :: 47 :: j ∧ unclosed (l ++ [42]).
Proof.
  induction b as [|c b IH]; intros H; [done|]. cbn in H. destruct ((c =? 42) && next_is 47 b) eqn:E.
  - apply andb_true_iff in E as [->%Z.eqb_eq [r ->]%next_is_spec]. injection H as <-. exists []. split; [done|].
    intros [|d x] y Hx; [done|]. injection Hx as _ Hx. by destruct x.
  - destruct (IH H) as (l & -> & Hl). exists (c :: l). split; [done|]. intros x y Hx. destruct x as [|d x]; cbn in Hx.
    + injection Hx as -> Hx. cbn in E. destruct l as [|d l]; [done|]. cbn in Hx. by injection Hx as -> _.
    + injection Hx as _ Hx. by apply (Hl x y).
Qed.
Lemma comment_end_closed l g : unclosed (l ++ [42]) → comment_end (l ++ 42 :: 47 :: g) = Some g.
Proof.
  induction l as [|c l IH]; intros Hu; cbn; [done|]. destruct ((c =? 42) && next_is 47 (l ++ 42 :: 47 :: g)) eqn:E.
  - exfalso. apply andb_true_iff in E as [->%Z.eqb_eq [r Hr]%next_is_spec]. destruct l as [|d l]; [done|]. injection Hr as -> Hr.
    by apply (Hu [] (l ++ [42])).
  - apply IH. intros x y Hx. apply (Hu (c :: x) y). cbn. by rewrite Hx.
Qed.
Lemma gap_app g h : gap g → gap h → gap (g ++ h).
Proof.
  intros Hg Hh. induction Hg as [|c g Hc _ IH|l g Hl _ IH|l g Hl _ IH]; [done|by constructor| |]; cbn; rewrite <-app_assoc; cbn; by constructor.
Qed.
Lemma trailing_app g b : gap g → trailing b → trailing (g ++ b).
Proof.
  intros Hg [Hb|(h & l & -> & Hh & Hl)]; [left; by apply gap_app|right]. exists (g ++ h), l. rewrite <-app_assoc. split; [done|]. split; [by apply gap_app|done].
Qed.
Lemma lexed_gap a g b toks : gap g → lexed (a + blen g) b toks → lexed a (g ++ b) toks.
Proof.
  intros Hg Hl. inversion Hl as [at_ b' Ht|at_ h w t rest toks' Hh Hw Hr]; subst.
  - rewrite <-Z.add_assoc, <-blen_app. apply lexed_end. by apply trailing_app.
  - rewrite app_assoc. rewrite <-Z.add_assoc, <-blen_app. apply lexed_token; [by apply gap_app|done|]. by rewrite blen_app, Z.add_assoc.
Qed.
Lemma lexed_last a b n : trailing b → n = a + blen b → lexed a b [mkToken Eof n].
Proof. intros Ht ->. by apply lexed_end. Qed.
Lemma lexed_first a w t rest toks : lexeme w t rest → lexed (a + blen w) rest toks → lexed a (w ++ rest) (mkToken t a :: toks).
Proof.
  intros Hw Hl. pose proof (lexed_token a [] w t rest toks gap_nil Hw) as H. cbn [app] in H. rewrite blen_nil, Z.add_0_r in H. by apply H.
Qed.
Lemma utf8_gap g b : gap g → utf8 (g ++ b) → utf8 b.
Proof.
  induction 1 as [|c g Hc _ IH|l g Hl _ IH|l g Hl _ IH]; [done| | |]; intros Hu; cbn in Hu.
  - apply IH. apply (utf8_ascii c); [done|]. apply ascii_whitespace_spec in Hc. lia.
  - apply IH. do 2 apply utf8_ascii in Hu; [|done..]. rewrite <-app_assoc in Hu. apply utf8_split in Hu as [_ Hu]; [|done]. by apply utf8_ascii in Hu.
  - apply IH. do 2 apply utf8_ascii in Hu; [|done..]. rewrite <-app_assoc in Hu. apply utf8_split in Hu as [_ Hu]; [|done]. do 2 apply utf8_ascii in Hu; done.
Qed.

(** ** The loop *)
Lemma loop_end n fuel out : tokenize_loop (S fuel) n [] out = Some (Ok (out ++ [mkToken Eof n])).
Proof. done. Qed.
Lemma loop_space n fuel c r out : is_ascii_whitespace c = true → tokenize_loop (S fuel) n (c :: r) out = tokenize_loop fuel n r out.
Proof. intros H. cbn [tokenize_loop]. by rewrite H. Qed.
Lemma loop_line n fuel l out : tokenize_loop (S fuel) n (45 :: 45 :: l) out = tokenize_loop fuel n (skip_while not_newline l) out.
Proof. done. Qed.
Lemma loop_block n fuel l out : tokenize_loop (S fuel) n (47 :: 42 :: l) out =
  match comment_end l with
  | None => Some (Err (Syntax (ascii_bytes "unterminated block comment") (n - blen (47 :: 42 :: l))))
  | Some j => tokenize_loop fuel n j out
  end.
Proof. done. Qed.
Lemma loop_token n fuel b out : starts_token b → tokenize_loop (S fuel) n b out =
  lbind (token n b) (λ '(t, j), tokenize_loop fuel n j (out ++ [mkToken t (n - blen b)])).
Proof. destruct b as [|c r]; intros (Hw & Hl & Hb); [done|]. cbn [tokenize_loop]. by rewrite Hw, Hl, Hb. Qed.
(** What the loop meets. *)
Lemma loop_cases b : b = [] ∨ (∃ c r, b = c :: r ∧ is_ascii_whitespace c = true) ∨ (∃ l, b = 45 :: 45 :: l) ∨ (∃ l, b = 47 :: 42 :: l) ∨ starts_token b.
Proof.
  destruct b as [|c r]; [by left|]. destruct (is_ascii_whitespace c) eqn:Ew; [right; left; by eauto|].
  destruct (line_comment (c :: r)) eqn:El.
  { right; right; left. apply andb_true_iff in El as [E1 E2]. apply Z.eqb_eq in E1 as ->. apply next_is_spec in E2 as [l E]. rewrite skipn_cons, drop_0 in E. subst. by eexists. }
  destruct (block_comment (c :: r)) eqn:Eb.
  { right; right; right; left. apply andb_true_iff in Eb as [E1 E2]. apply Z.eqb_eq in E1 as ->. apply next_is_spec in E2 as [l E]. rewrite skipn_cons, drop_0 in E. subst. by eexists. }
  do 4 right. done.
Qed.
Lemma line_end l : ∃ x y, l = x ++ y ∧ skip_while not_newline l = y ∧ Forall (λ c, c ≠ 10) x ∧ (y = [] ∨ ∃ r, y = 10 :: r).
Proof.
  exists (take_while not_newline l), (skip_while not_newline l). split; [by rewrite take_skip|]. split; [done|]. split.
  - eapply Forall_impl; [apply take_while_all|]. intros c. cbn. unfold not_newline. destruct (Z.eqb_spec c 10); done.
  - pose proof (skip_while_stop not_newline l) as Hs. destruct (skip_while not_newline l) as [|c r]; [by left|right]. exists r. f_equal.
    cbn in Hs. unfold not_newline in Hs. destruct (Z.eqb_spec c 10); done.
Qed.
Lemma skip_line x y : Forall (λ c, c ≠ 10) x → y = [] ∨ (∃ r, y = 10 :: r) → skip_while not_newline (x ++ y) = y.
Proof.
  intros Hx Hy. apply run_of; [|by destruct Hy as [->|[r ->]]]. eapply Forall_impl; [exact Hx|]. intros c Hc. cbn in *. unfold not_newline.
  by destruct (Z.eqb_spec c 10).
Qed.

(** Every answer is sound: tokens that spell the text, or a refusal at a byte of it. *)
Lemma loop_sound n : ∀ fuel b out, utf8 b → (length b < fuel)%nat →
  match tokenize_loop fuel n b out with
  | Some (Ok toks) => ∃ l, toks = out ++ l ∧ lexed (n - blen b) b l
  | Some (Err (Syntax _ at_)) => n - blen b ≤ at_ < n
  | None => False
  end.
Proof.
  induction fuel as [fuel IH] using lt_wf_ind. intros b out Hu Hf. destruct fuel as [|fuel]; [lia|].
  assert (∀ fuel' g c, (fuel' < S fuel)%nat → b = g ++ c → gap g → (length c < fuel')%nat →
    match tokenize_loop fuel' n c out with
    | Some (Ok toks) => ∃ l, toks = out ++ l ∧ lexed (n - blen b) b l
    | Some (Err (Syntax _ at_)) => n - blen b ≤ at_ < n
    | None => False end) as Hgap.
  { intros fuel' g c Hlt -> Hg Hl. specialize (IH fuel' Hlt c out (utf8_gap _ _ Hg Hu) Hl). rewrite blen_app. pose proof (blen_nonneg g).
    destruct (tokenize_loop fuel' n c out) as [[toks|[m a]]|]; [|lia|done]. destruct IH as (l & -> & Hl'). exists l. split; [done|].
    apply lexed_gap; [done|]. by replace (n - (blen g + blen c) + blen g) with (n - blen c) by lia. }
  destruct (loop_cases b) as [->|[(c & r & -> & Hc)|[(l & ->)|[(l & ->)|Hs]]]].
  - rewrite loop_end. eexists. split; [done|]. apply lexed_last; [left; constructor|lia].
  - rewrite loop_space by done. cbn [length] in Hf. apply (Hgap fuel [c]); [lia|done|repeat constructor; done|lia].
  - rewrite loop_line. destruct (line_end l) as (x & y & -> & -> & Hx & [->|[r ->]]); cbn [length] in Hf; rewrite length_app in Hf; cbn [length] in Hf.
    + destruct fuel as [|fuel]; [lia|]. rewrite loop_end. eexists. split; [done|]. rewrite app_nil_r.
      apply lexed_last; [|lia]. right. exists [], x. split; [done|]. split; [constructor|done].
    + destruct fuel as [|fuel]; [lia|]. rewrite loop_space by done. apply (Hgap fuel (45 :: 45 :: x ++ 10 :: [])); [lia| |by apply gap_line; [|constructor]|lia].
      cbn. by rewrite <-app_assoc.
  - rewrite loop_block. destruct (comment_end l) as [j|] eqn:E.
    + apply comment_end_found in E as (x & -> & Hx). cbn [length] in Hf; rewrite length_app in Hf; cbn [length] in Hf.
      apply (Hgap fuel (47 :: 42 :: x ++ 42 :: 47 :: [])); [lia| |by apply gap_block; [|constructor]|lia]. cbn. by rewrite <-app_assoc.
    + pose proof (blen_nonneg l). unfold blen in *. cbn [length]. lia.
  - rewrite loop_token by done. destruct b as [|c r]; [by destruct Hs|].
    destruct (token_found n c r Hu Hs) as [[m ->]|(w & t & rest & E & Hl)].
    + cbn [lbind]. unfold blen. cbn [length]. lia.
    + rewrite E in *. destruct (lexeme_token n w t rest Hl Hu) as (-> & Hur & Hne & _). cbn [lbind]. rewrite length_app in Hf.
      assert (length w ≠ 0%nat) by (by destruct w). specialize (IH fuel ltac:(lia) rest (out ++ [mkToken t (n - blen (w ++ rest))]) Hur ltac:(lia)).
      rewrite blen_app in *. pose proof (blen_nonneg w). destruct (tokenize_loop fuel n rest _) as [[toks|[m a]]|]; [|lia|done].
      destruct IH as (l & -> & Hl'). exists (mkToken t (n - (blen w + blen rest)) :: l). split; [by rewrite <-app_assoc|].
      apply lexed_first; [done|]. by replace (n - (blen w + blen rest) + blen w) with (n - blen rest) by lia.
Qed.
(** Every spelling is read. *)
Lemma loop_gap n g : gap g → ∀ b fuel out, (length (g ++ b) < fuel)%nat →
  ∃ fuel', (length b < fuel')%nat ∧ tokenize_loop fuel n (g ++ b) out = tokenize_loop fuel' n b out.
Proof.
  induction 1 as [|c g Hc _ IH|l g Hl _ IH|l g Hl _ IH]; intros b fuel out Hf; [by exists fuel| | |]; destruct fuel as [|fuel]; try lia; cbn [app length] in *.
  - rewrite loop_space by done. apply IH. lia.
  - rewrite loop_line, <-app_assoc in *. rewrite length_app in Hf. cbn [app length] in *. rewrite skip_line by (done || right; by eexists).
    destruct fuel as [|fuel]; [lia|]. rewrite loop_space by done. apply IH. lia.
  - rewrite loop_block, <-app_assoc in *. rewrite length_app in Hf. cbn [app length] in *. rewrite comment_end_closed by done. apply IH. lia.
Qed.
Lemma loop_complete a b toks : lexed a b toks → ∀ n fuel out, a = n - blen b → utf8 b → (length b < fuel)%nat →
  tokenize_loop fuel n b out = Some (Ok (out ++ toks)).
Proof.
  induction 1 as [a b Ht|a g w t rest toks Hg Hw _ IH]; intros n fuel out Ha Hu Hf.
  - replace (a + blen b) with n by lia. destruct Ht as [Hg|(g & l & -> & Hg & Hl)].
    + pose proof (loop_gap n _ Hg [] fuel out) as Hlg. rewrite app_nil_r in Hlg. destruct (Hlg Hf) as (fuel' & Hf' & ->). destruct fuel' as [|?]; [lia|]. apply loop_end.
    + destruct (loop_gap n _ Hg (45 :: 45 :: l) fuel out Hf) as (fuel' & Hf' & ->). cbn [length] in Hf'. destruct fuel' as [|[|fuel']]; [lia..|].
      rewrite loop_line. pose proof (skip_line l [] Hl (or_introl eq_refl)) as Hsl. rewrite app_nil_r in Hsl. rewrite Hsl. apply loop_end.
  - destruct (loop_gap n _ Hg (w ++ rest) fuel out Hf) as (fuel' & Hf' & ->). apply utf8_gap in Hu; [|done].
    destruct (lexeme_token n w t rest Hw Hu) as (Htok & Hur & Hne & Hst). destruct fuel' as [|fuel']; [lia|].
    rewrite loop_token, Htok by done. cbn [lbind]. rewrite !blen_app in Ha. rewrite length_app in Hf'. assert (length w ≠ 0%nat) by (by destruct w).
    rewrite (IH n fuel'); [|lia|done|lia]. rewrite <-app_assoc. cbn [app]. by replace (n - blen (w ++ rest)) with (a + blen g) by (rewrite blen_app; lia).
Qed.

(** ** The guards *)
Lemma whole_text b : utf8 b → text_slice b [] = Some b.
Proof. intros Hu. pose proof (slice_here b []) as H. rewrite app_nil_r in H. apply H; [by apply utf8_boundary|done]. Qed.
Lemma leading_space fuel c r : is_ascii_whitespace c = true → leading_loop fuel (c :: r) = leading_loop fuel r.
Proof. intros H. destruct fuel as [|fuel]; [done|]. cbn [leading_loop skip_while]. by rewrite H. Qed.
Lemma leading_line fuel l : leading_loop (S fuel) (45 :: 45 :: l) = leading_loop fuel (skip_while not_newline l).
Proof. done. Qed.
Lemma leading_block fuel l : leading_loop (S fuel) (47 :: 42 :: l) =
  match comment_end l with Some j => leading_loop fuel j | None => text_slice (47 :: 42 :: l) [] end.
Proof. done. Qed.
Lemma leading_stop fuel b : utf8 b → b = [] ∨ starts_token b → leading_loop (S fuel) b = Some b.
Proof.
  intros Hu [->|Hs]; [done|]. destruct b as [|c r]; [by destruct Hs|]. destruct Hs as (Hw & Hl & Hb). cbn [leading_loop skip_while]. rewrite Hw, Hl, Hb. by apply whole_text.
Qed.
Lemma leading_gap g : gap g → ∀ b fuel, (length (g ++ b) < fuel)%nat → ∃ fuel', (length b < fuel')%nat ∧ leading_loop fuel (g ++ b) = leading_loop fuel' b.
Proof.
  induction 1 as [|c g Hc _ IH|l g Hl _ IH|l g Hl _ IH]; intros b fuel Hf; [by exists fuel| | |]; cbn [app length] in *.
  - rewrite leading_space by done. apply IH. lia.
  - destruct fuel as [|fuel]; [lia|]. rewrite leading_line, <-app_assoc in *. rewrite length_app in Hf. cbn [app length] in *. rewrite skip_line by (done || right; by eexists).
    rewrite leading_space by done. apply IH. lia.
  - destruct fuel as [|fuel]; [lia|]. rewrite leading_block, <-app_assoc in *. rewrite length_app in Hf. cbn [app length] in *. rewrite comment_end_closed by done. apply IH. lia.
Qed.
Lemma leading_total : ∀ fuel b, utf8 b → (length b < fuel)%nat → is_Some (leading_loop fuel b).
Proof.
  assert (∀ m b fuel, (length b < m)%nat → utf8 b → (length b < fuel)%nat → is_Some (leading_loop fuel b)) as H; [|by eauto].
  induction m as [|m IH]; intros b fuel Hm Hu Hf; [lia|].
  assert (∀ g c fuel', b = g ++ c → gap g → g ≠ [] → (length c < fuel')%nat → is_Some (leading_loop fuel' c)) as Hgap.
  { intros g c fuel' -> Hg Hne Hl. apply IH; [|by apply (utf8_gap g)|done]. rewrite length_app in Hm. destruct g; [done|]. cbn in Hm. lia. }
  destruct (loop_cases b) as [->|[(c & r & -> & Hc)|[(l & ->)|[(l & ->)|Hs]]]]; (destruct fuel as [|fuel]; [lia|]).
  - by eexists.
  - rewrite leading_space by done. cbn [length] in Hf. apply (Hgap [c]); [done|repeat constructor; done|done|lia].
  - rewrite leading_line. destruct (line_end l) as (x & y & -> & -> & Hx & [->|[r ->]]); cbn [length] in Hf; rewrite length_app in Hf; cbn [length] in Hf.
    + destruct fuel as [|fuel]; [lia|]. by eexists.
    + rewrite leading_space by done. apply (Hgap (45 :: 45 :: x ++ 10 :: [])); [cbn; by rewrite <-app_assoc|by apply gap_line; [|constructor]|done|lia].
  - rewrite leading_block. destruct (comment_end l) as [j|] eqn:E; [|rewrite whole_text by done; by eexists].
    apply comment_end_found in E as (x & -> & Hx). cbn [length] in Hf; rewrite length_app in Hf; cbn [length] in Hf.
    apply (Hgap (47 :: 42 :: x ++ 42 :: 47 :: [])); [cbn; by rewrite <-app_assoc|by apply gap_block; [|constructor]|done|lia].
  - rewrite leading_stop by (done || by right). by eexists.
Qed.
(** The guards stand where the first token does. *)
Lemma leading_first a b tk toks : lexed a b (tk :: toks) → utf8 b → ∃ g rest, b = g ++ rest ∧ at_ tk = a + blen g ∧
  after_leading_comments b = Some rest ∧
  (rest = [] ∧ tok tk = Eof ∨ rest ≠ [] ∧ ∃ w r, rest = w ++ r ∧ lexeme w (tok tk) r).
Proof.
  intros Hl Hu. unfold after_leading_comments. inversion Hl as [a' b' [Hg|(g & l & -> & Hg & Hnl)]|a' g w t rest toks' Hg Hw Hr]; subst.
  - exists b, []. rewrite app_nil_r. split; [done|]. split; [done|]. split; [|by left]. pose proof (leading_gap b Hg [] (S (length b))) as H. rewrite app_nil_r in H.
    destruct (H ltac:(lia)) as (fuel & Hf & ->). destruct fuel as [|fuel]; [lia|]. done.
  - exists (g ++ 45 :: 45 :: l), []. rewrite app_nil_r. split; [done|]. split; [done|]. split; [|by left].
    destruct (leading_gap g Hg (45 :: 45 :: l) _ ltac:(apply Nat.lt_succ_diag_r)) as (fuel & Hf & ->). cbn [length] in Hf. destruct fuel as [|[|fuel]]; [lia..|].
    rewrite leading_line. pose proof (skip_line l [] Hnl (or_introl eq_refl)) as Hsl. rewrite app_nil_r in Hsl. by rewrite Hsl.
  - exists g, (w ++ rest). apply utf8_gap in Hu as Hu'; [|done]. destruct (lexeme_token 0 w t rest Hw Hu') as (_ & _ & Hne & Hst).
    split; [done|]. split; [done|]. split; [|right; split; [by destruct w|by exists w, rest]].
    destruct (leading_gap g Hg (w ++ rest) _ ltac:(apply Nat.lt_succ_diag_r)) as (fuel & Hf & ->). destruct fuel as [|fuel]; [lia|]. apply leading_stop; [done|by right].
Qed.

(** ** Properties *)
(** C33: the tokenizer reads what the text spells, and nothing else.  It
    never panics and never loops; it answers the tokens [l] exactly when [l] spells
    the text: white space and comments between tokens, every token at its offset
    and as long as it can be, a doubled quote one quote, an integer to its last
    digit, any other number the double nearest to it, a parameter between 1 and
    65535.  Anything else is refused at a byte of the text. *)
Theorem sql_tokens text : utf8 text →
  (∀ l, tokenize text = Some (Ok l) ↔ lexed 0 text l) ∧
  match tokenize text with
  | None => False
  | Some (Err (Syntax _ at_)) => 0 ≤ at_ < blen text
  | Some (Ok l) => ∃ l', l = l' ++ [mkToken Eof (blen text)]
  end.
Proof.
  intros Hu. pose proof (loop_sound (blen text) (S (length text)) text [] Hu ltac:(lia)) as Hs. change (tokenize_loop _ _ text []) with (tokenize text) in Hs. rewrite Z.sub_diag in Hs. split.
  - intros l. split; intros Hl.
    + rewrite Hl in Hs. by destruct Hs as (l' & -> & ?).
    + unfold tokenize. by rewrite (loop_complete 0 text l Hl (blen text) (S (length text)) []) by (done || lia).
  - destruct (tokenize text) as [[l|[m a]]|]; [|done|done]. destruct Hs as (l' & -> & Hl). cbn [app]. change (blen text) with (0 + blen text). clear -Hl.
    induction Hl as [a b Ht|a g w t rest toks _ _ _ [l' IH]]; [by exists []|]. rewrite IH. exists (mkToken t (a + blen g) :: l'). cbn. do 4 f_equal. rewrite !blen_app. lia.
Qed.

Lemma highest_ok l : Forall (λ t, match tok t with Param n => 1 ≤ n ≤ MAX_PARAMETER | _ => True end) l →
  let n := foldl Z.max 0 (params l) in 0 ≤ n ≤ MAX_PARAMETER ∧ Forall (λ m, m ≤ n) (params l) ∧ (n = 0 ∨ n ∈ params l).
Proof.
  intros Hl. assert (Forall (λ m, 1 ≤ m ≤ MAX_PARAMETER) (params l)) as Hp.
  { induction Hl as [|t l Ht _ IH]; [constructor|]. unfold params in *. cbn. destruct (tok t); try done. by constructor. }
  set (ps := params l) in *. clearbody ps. assert (∀ a, 0 ≤ a ≤ MAX_PARAMETER → let n := foldl Z.max a ps in
    a ≤ n ≤ MAX_PARAMETER ∧ Forall (λ m, m ≤ n) ps ∧ (n = a ∨ n ∈ ps)) as Hall; [|apply (Hall 0); done].
  clear Hl. induction Hp as [|m ps Hm _ IH]; intros a Ha; cbn; [split; [lia|]; split; [constructor|by left]|].
  destruct (IH (Z.max a m) ltac:(lia)) as (H1 & H2 & H3). split; [lia|]. split; [constructor; [lia|done]|].
  destruct H3 as [H3|H3]; [|right; by right]. destruct (Z.max_spec a m) as [[_ E]|[_ E]]; rewrite E in *; [right; rewrite H3; left|by left].
Qed.
Lemma lexed_params a b l : lexed a b l → Forall (λ t, match tok t with Param n => 1 ≤ n ≤ MAX_PARAMETER | _ => True end) l.
Proof.
  induction 1 as [|a g w t rest toks _ Hw _ IH]; [by repeat constructor|]. constructor; [|done]. cbn.
  destruct Hw as [| | | | |s t rest Hin]; try done. destruct t; try done.
  assert (forallb (λ x, match x.2 with Param _ => false | _ => true end) operators = true) as Hall by (by vm_compute).
  rewrite forallb_forall in Hall. apply list_elem_of_In, Hall in Hin. done.
Qed.
Lemma ddl_letters d : d ∈ ddl_words → Forall (λ c, 65 ≤ c ≤ 90) (ascii_bytes d) ∧ to_ascii_uppercase (ascii_bytes d) = ascii_bytes d ∧ ascii_bytes d ≠ [].
Proof.
  intros Hin. assert (Forall (λ d, Forall (λ c, 65 ≤ c ≤ 90) (ascii_bytes d) ∧ to_ascii_uppercase (ascii_bytes d) = ascii_bytes d ∧ ascii_bytes d ≠ []) ddl_words) as H
    by (repeat constructor; done).
  rewrite Forall_forall in H. by apply H.
Qed.
Lemma uppercase_letters w : Forall (λ c, 65 ≤ c ≤ 90) (to_ascii_uppercase w) → Forall (λ c, is_ascii_alphabetic c = true) w.
Proof.
  unfold to_ascii_uppercase. induction w as [|c w IH]; intros Hd; [done|]. apply Forall_cons in Hd as [Hc Hd]. constructor; [|by apply IH]. unfold is_ascii_alphabetic.
  destruct (Z.leb_spec 97 c), (Z.leb_spec c 122); cbn [andb] in Hc; rewrite orb_true_iff, !andb_true_iff, !Z.leb_le; lia.
Qed.
(** The first word as the guard cuts it. *)
Definition guard_word (rest : bytes) : bytes := take_while is_ascii_alphabetic rest.
Lemma commits_spec text rest : after_leading_comments text = Some rest →
  commits_on_its_own text = Some (existsb (λ d, bool_decide (to_ascii_uppercase (guard_word rest) = to_ascii_uppercase (ascii_bytes d))) ddl_words).
Proof. intros H. unfold commits_on_its_own. by rewrite H. Qed.
Lemma alphabetic_word c : is_ascii_alphabetic c = true → word_start c = true ∧ word_char c = true.
Proof. intros H. unfold word_start, word_char. rewrite H. by rewrite !orb_true_r. Qed.
Lemma letters_stop rest : stop word_char rest → stop is_ascii_alphabetic rest.
Proof. destruct rest as [|c r]; [done|]. cbn. intros H. destruct (is_ascii_alphabetic c) eqn:E; [|done]. apply alphabetic_word in E as [_ E]. congruence. Qed.
Lemma word_guarded w rest d : d ∈ ddl_words → to_ascii_uppercase w = ascii_bytes d → stop word_char rest → guard_word (w ++ rest) = w.
Proof.
  intros Hd Hu Hs. destruct (ddl_letters d Hd) as [Hl _]. rewrite <-Hu in Hl. apply run_of; [by apply uppercase_letters|by apply letters_stop].
Qed.
(** A word the guard stops at is the start of the parser's word. *)
Lemma guarded_word w t rest c l : lexeme w t rest → guard_word (w ++ rest) = c :: l → t = Word w ∧ ∃ l', w = c :: l ++ l'.
Proof.
  intros Hl Hg. assert (∃ r, w ++ rest = c :: r ∧ is_ascii_alphabetic c = true) as (r & E & Hc).
  { pose proof (take_skip is_ascii_alphabetic (w ++ rest)) as E. pose proof (take_while_all is_ascii_alphabetic (w ++ rest)) as Ha. unfold guard_word in Hg.
    rewrite Hg in *. apply Forall_cons in Ha as [Ha _]. by eexists. }
  assert (65 ≤ c ≤ 90 ∨ 97 ≤ c ≤ 122) as Hr.
  { unfold is_ascii_alphabetic in Hc. rewrite orb_true_iff, !andb_true_iff, !Z.leb_le in Hc. lia. }
  destruct Hl as [c' w rest _ Hw Hs|s rest _ _|s rest _ _|nm rest Hok _|d rest _ _ _ _|s t rest Hin b _ _ _ _].
  - split; [done|]. unfold guard_word in Hg. cbn in E. injection E as -> _. exists (skip_while is_ascii_alphabetic w).
    rewrite (take_while_end _ (c :: w) rest) in Hg by (by apply letters_stop). cbn [take_while] in Hg. rewrite Hc in Hg. injection Hg as <-. by rewrite take_skip.
  - cbn in E. injection E as <- _. lia.
  - cbn in E. injection E as <- _. lia.
  - destruct (spelled_start nm rest Hok) as (c' & r' & E' & Hc'). rewrite E in E'. injection E' as <- <-. destruct Hc' as [?%is_digit_range|[-> _]]; lia.
  - cbn in E. injection E as <- _. lia.
  - destruct (operator_shape s t Hin) as (_ & c' & w & E' & Hc' & _). rewrite E' in E. injection E as -> _.
    rewrite !negb_orb, !andb_true_iff, !negb_true_iff in Hc'. destruct Hc' as [_ Hc']. destruct (alphabetic_word _ Hc). congruence.
Qed.

Lemma lexeme_word w0 w rest : lexeme w0 (Word w) rest → w0 = w ∧ stop word_char rest.
Proof.
  remember (Word w) as t eqn:Et. intros Hl. destruct Hl as [c x rest _ _ Hs| | | | |s t rest Hin]; try done; [by injection Et as <-|].
  exfalso. subst t. assert (forallb (λ x, match x.2 with Word _ => false | _ => true end) operators = true) as Hall by (by vm_compute).
  rewrite forallb_forall in Hall. apply list_elem_of_In, Hall in Hin. done.
Qed.


(** A statement behind comments, with a string and parameters. *)
Definition sample_statement : bytes := ascii_bytes "-- a note
/* and * another */ create table t(c) ; insert 'it''s' $2, $12 >= .5e1".
Lemma sample_utf8 : utf8 sample_statement.
Proof. exists sample_statement. split; [|by vm_compute]. unfold scalars. apply (bool_decide_unpack _). by vm_compute. Qed.
Lemma sql_tokens_witness : ∃ l, tokenize sample_statement = Some (Ok l) ∧ lexed 0 sample_statement l ∧ length l = 15%nat.
Proof.
  destruct (sql_tokens sample_statement sample_utf8) as [H _]. destruct (tokenize sample_statement) as [[l|e]|] eqn:E; [|vm_compute in E; discriminate..].
  exists l. split; [reflexivity|]. split; [by apply (H l)|]. vm_compute in E. by injection E as <-.
Defined.

End Lexer.
