(* ===== verification/Limits.v ===== *)
(** * Resource policy and memory ledger
    ([core/kernel/src/limits.rs], [core/kernel/src/budget.rs])

    [ResourceLimits] is the persisted policy of a size-limited store and its
    56-byte [E4LIMIT1] record; [MemoryBudget] the shared reservation ledger,
    modelled as the atomic steps its compare-and-swap loop performs so that
    reservations of several threads interleave freely. *)
From S2P Require Import Prelude.

Module Limits.

Record ResourceLimits := {
  data_bytes : Z;      (* u64 *)
  wal_bytes : Z;       (* u64 *)
  tracked_pages : Z;   (* u32 *)
  readers : Z;         (* u32 *)
  record_bytes : Z;    (* u32 *)
  recovery_bytes : Z;  (* u64 *)
}.
#[export] Instance ResourceLimits_eq_dec : EqDecision ResourceLimits.
Proof. solve_decision. Defined.

(** The Rust field types. *)
Definition wf (l : ResourceLimits) : Prop :=
  is_u64 (data_bytes l) ∧ is_u64 (wal_bytes l) ∧ is_u32 (tracked_pages l) ∧
  is_u32 (readers l) ∧ is_u32 (record_bytes l) ∧ is_u64 (recovery_bytes l).
#[export] Instance wf_dec l : Decision (wf l).
Proof. unfold wf. apply _. Defined.

Definition freelist_bytes (l : ResourceLimits) : Z := 28 + 24 * tracked_pages l.

Definition and_then {A B} (o : option A) (f : A → option B) : option B :=
  match o with Some a => f a | None => None end.

Definition total_bytes (l : ResourceLimits) : result error Z :=
  ok_or
    (and_then (and_then (and_then (checked_add_u64 (data_bytes l) (wal_bytes l))
      (λ n, checked_add_u64 n (2 * freelist_bytes l)))
      (λ n, checked_add_u64 n (48 * readers l)))
      (λ n, checked_add_u64 n (recovery_bytes l)))
    (ResourceLimit "total byte limit overflow").

Definition validate (l : ResourceLimits) : result error ResourceLimits :=
  if (data_bytes l <? 3 * 4096)
     || negb (data_bytes l mod 4096 =? 0)
     || (u32_max <? data_bytes l / 4096)
     || (wal_bytes l <? 4096)
     || (tracked_pages l =? 0)
     || (readers l =? 0)
     || (4096 <? readers l)
     || (record_bytes l =? 0)
     || (wal_bytes l <? record_bytes l + 4096)
  then Err (ResourceLimit "invalid resource limits")
  else let* _ := total_bytes l in Ok l.

Definition limit_magic : bytes := ascii_bytes "E4LIMIT1".

Definition encode (l : ResourceLimits) : bytes :=
  limit_magic ++
  concat (map (le_bytes 8)
    [data_bytes l; wal_bytes l; tracked_pages l; readers l; record_bytes l; recovery_bytes l]).

(** [u32::try_from]. *)
Definition small (x : Z) : result error Z :=
  if x <=? u32_max then Ok x else Err (ResourceLimit "resource policy overflow").

Definition decode (b : bytes) : result error ResourceLimits :=
  if negb (blen b =? 56) || negb (bool_decide (slice b 0 8 = limit_magic))
  then Err (ResourceLimit "damaged resource policy; use source-preserving recovery")
  else
    let n i := le_num (slice b i 8) in
    let* tp := small (n 24) in
    let* rd := small (n 32) in
    let* rb := small (n 40) in
    validate {| data_bytes := n 8; wal_bytes := n 16; tracked_pages := tp;
                readers := rd; record_bytes := rb; recovery_bytes := n 48 |}.

(** What a validated policy promises the rest of the store. *)
Definition sane (l : ResourceLimits) : Prop :=
  3 * 4096 ≤ data_bytes l ∧ data_bytes l mod 4096 = 0 ∧ data_bytes l / 4096 ≤ u32_max ∧
  4096 ≤ wal_bytes l ∧ tracked_pages l ≠ 0 ∧ readers l ≠ 0 ∧ readers l ≤ 4096 ∧
  record_bytes l ≠ 0 ∧ record_bytes l + 4096 ≤ wal_bytes l ∧
  data_bytes l + wal_bytes l + 2 * freelist_bytes l + 48 * readers l + recovery_bytes l ≤ u64_max.

#[export] Instance sane_dec l : Decision (sane l).
Proof. unfold sane. apply _. Defined.

Lemma total_bytes_ok l t :
  total_bytes l = Ok t ↔
    t = data_bytes l + wal_bytes l + 2 * freelist_bytes l + 48 * readers l + recovery_bytes l ∧
    data_bytes l + wal_bytes l ≤ u64_max ∧
    data_bytes l + wal_bytes l + 2 * freelist_bytes l ≤ u64_max ∧
    data_bytes l + wal_bytes l + 2 * freelist_bytes l + 48 * readers l ≤ u64_max ∧
    t ≤ u64_max.
Proof.
  unfold total_bytes, checked_add_u64, and_then.
  repeat match goal with |- context [if ?c <=? ?d then _ else _] => destruct (Z.leb_spec c d) end;
    cbn [ok_or]; split; intros H'; try discriminate H'; try lia.
  - injection H' as <-. lia.
  - destruct H' as [-> _]. done.
Qed.

Lemma validate_iff l l' : wf l → validate l = Ok l' ↔ l' = l ∧ sane l.
Proof.
  intros (? & ? & ? & ? & ? & ?). unfold validate, sane.
  match goal with |- context [if ?c then _ else _] => destruct c eqn:E end.
  - split; [done|]. intros (-> & ?). exfalso.
    rewrite !orb_true_iff, negb_true_iff, !Z.ltb_lt, !Z.eqb_eq, Z.eqb_neq in E. lia.
  - rewrite !orb_false_iff, negb_false_iff, !Z.ltb_ge, !Z.eqb_eq, !Z.eqb_neq in E.
    destruct (total_bytes l) as [t|e] eqn:Et; cbn [rbind].
    + apply total_bytes_ok in Et. split; [intros [= <-]|intros [-> _]; done]. split; [done|]. lia.
    + split; [done|]. intros (-> & ?). exfalso.
      assert (total_bytes l = Ok (data_bytes l + wal_bytes l + 2 * freelist_bytes l
        + 48 * readers l + recovery_bytes l)) as Ht; [|congruence].
      apply total_bytes_ok. unfold freelist_bytes in *. lia.
Qed.

Lemma blen_limit_magic : blen limit_magic = 8.
Proof. done. Qed.
#[local] Hint Rewrite blen_limit_magic : skj_rw.
Lemma blen_encode l : blen (encode l) = 56.
Proof. unfold encode. cbn [map concat]. len. Qed.
Lemma encode_ok l : bytes_ok (encode l).
Proof.
  unfold encode. apply bytes_ok_app. split; [vm_compute; repeat constructor; done|].
  cbn [map concat]. repeat (apply bytes_ok_app; split; [auto with skj|]). constructor.
Qed.

Lemma encode_field l i off x :
  wf l → off = 8 + 8 * Z.of_nat i → nth_error [data_bytes l; wal_bytes l; tracked_pages l; readers l; record_bytes l; recovery_bytes l] i = Some x →
  le_num (slice (encode l) off 8) = x.
Proof.
  intros (? & ? & ? & ? & ? & ?) -> Hi.
  unfold encode. rewrite slice_app_r by (rewrite blen_limit_magic; lia).
  rewrite blen_limit_magic. cbn [map concat].
  do 6 (destruct i as [|i];
    [injection Hi as <-; repeat (rewrite slice_app_r by len; rewrite blen_le_bytes);
     rewrite slice_app_exact by len; apply le_num_le_bytes; width|]).
  by destruct i.
Qed.

Lemma decode_encode l l' : wf l → decode (encode l) = Ok l' ↔ l' = l ∧ sane l.
Proof.
  intros Hl. unfold decode. rewrite blen_encode. cbn [Z.eqb Pos.eqb negb orb].
  assert (slice (encode l) 0 8 = limit_magic) as ->.
  { unfold encode. by apply slice_app_exact. }
  rewrite bool_decide_true by done. cbn [negb].
  pose proof Hl as (? & ? & ? & ? & ? & ?).
  rewrite (encode_field l 0 8 (data_bytes l)), (encode_field l 1 16 (wal_bytes l)),
    (encode_field l 2 24 (tracked_pages l)), (encode_field l 3 32 (readers l)),
    (encode_field l 4 40 (record_bytes l)), (encode_field l 5 48 (recovery_bytes l)) by done.
  unfold small. rewrite !(proj2 (Z.leb_le _ _)) by lia. cbn [rbind].
  destruct l. cbn [data_bytes wal_bytes tracked_pages readers record_bytes recovery_bytes].
  by rewrite validate_iff.
Qed.

(** The policy record round trips and admits only sane policies.
    [decode] inverts [encode] on every policy [validate] accepts, refuses
    every encoding of a policy it does not, and whatever it accepts is 56
    bytes long and satisfies every bound the writer relies on, with no
    overflow in the total. *)
Lemma limits_roundtrip l b l' :
  wf l → bytes_ok b →
  (decode (encode l) = Ok l ↔ sane l) ∧
  (decode b = Ok l' → blen b = 56 ∧ sane l' ∧ wf l' ∧ encode l' = b).
Proof.
  intros Hl Hb. split.
  - rewrite decode_encode by done. naive_solver.
  - unfold decode. destruct (negb _ || _) eqn:E; [done|].
    apply orb_false_iff in E as [E1 E2]. apply negb_false_iff, Z.eqb_eq in E1.
    apply negb_false_iff, bool_decide_eq_true in E2. intros H.
    assert (∀ i, 0 ≤ i → i + 8 ≤ 56 → is_u64 (le_num (slice b i 8))) as Hu.
    { intros i ??. pose proof (le_num_bound (slice b i 8)) as Hn.
      rewrite blen_slice in Hn by lia. specialize (Hn ltac:(auto with skj)). width. }
    unfold small in H. res_simpl. repeat case_match; simplify_eq/=.
    repeat match goal with H : (_ <=? _) = true |- _ => apply Z.leb_le in H end.
    apply validate_iff in H as [-> Hs]; [|unfold wf; cbn; split_and!; try apply Hu; try lia; by apply Hu].
    split_and!; [done|done|unfold wf; cbn; split_and!; try apply Hu; try lia; by apply Hu|].
    unfold encode. cbn [map concat data_bytes wal_bytes tracked_pages readers record_bytes recovery_bytes].
    assert (∀ i, 0 ≤ i → i + 8 ≤ 56 → le_bytes 8 (le_num (slice b i 8)) = slice b i 8) as Hle.
    { intros i ??. rewrite <-(le_bytes_le_num (slice b i 8)) at 2 by auto with skj. f_equal.
      pose proof (blen_slice b i 8). unfold blen in *. lia. }
    rewrite !Hle, <-E2, app_nil_r by lia.
    rewrite <-!slice_split by lia. apply slice_all. lia.
Qed.

Definition sample : ResourceLimits :=
  {| data_bytes := 40960; wal_bytes := 65536; tracked_pages := 16; readers := 8;
     record_bytes := 1024; recovery_bytes := 0 |}.
Lemma limits_roundtrip_witness : decode (encode sample) = Ok sample ∧ sane sample.
Proof.
  assert (Hw : wf sample) by (apply (bool_decide_unpack _); vm_compute; exact I).
  assert (Hs : sane sample) by (apply (bool_decide_unpack _); vm_compute; exact I).
  split; [|exact Hs].
  exact (proj2 (proj1 (limits_roundtrip sample [] sample Hw bytes_ok_nil)) Hs).
Defined.

End Limits.

(** * The memory ledger *)
Module Budget.

(** [MemoryBudget::reserve]: one evaluation of the loop's guard on a loaded
    value, [cur.checked_add(bytes).filter(|n| n <= total)]; [usize] is 64 bits. *)
Definition reserve_next (total cur n : Z) : result error Z :=
  ok_or (Limits.and_then (checked_add_u64 cur n) (λ next, if next <=? total then Some next else None))
    OutOfBudget.

(** The shared counter, the live [Reservation]s, and the threads inside the
    compare-and-swap loop, each with the value it last loaded and its size. *)
Record State := { used : Z; live : list Z; spinning : list (Z * Z) }.

Inductive step (total : Z) : State → State → Prop :=
  (** [used.load]: a thread enters [reserve(bytes)]. *)
  | Load s n :
      is_u64 n →
      step total s {| used := used s; live := live s; spinning := (used s, n) :: spinning s |}
  (** The guard fails: [OutOfBudget] is returned, nothing changed. *)
  | Refuse s cur n p1 p2 :
      spinning s = p1 ++ (cur, n) :: p2 →
      reserve_next total cur n = Err OutOfBudget →
      step total s {| used := used s; live := live s; spinning := p1 ++ p2 |}
  (** [compare_exchange_weak] succeeds: only when the counter is what was read. *)
  | Swap s cur n next p1 p2 :
      spinning s = p1 ++ (cur, n) :: p2 →
      reserve_next total cur n = Ok next →
      used s = cur →
      step total s {| used := next; live := n :: live s; spinning := p1 ++ p2 |}
  (** It fails (also spuriously): the loop continues with the actual value. *)
  | Retry s cur n next p1 p2 :
      spinning s = p1 ++ (cur, n) :: p2 →
      reserve_next total cur n = Ok next →
      step total s {| used := used s; live := live s; spinning := p1 ++ (used s, n) :: p2 |}
  (** [Drop for Reservation]: [fetch_sub], wrapping. *)
  | Release s n l1 l2 :
      live s = l1 ++ n :: l2 →
      step total s {| used := (used s - n) mod (u64_max + 1); live := l1 ++ l2; spinning := spinning s |}.

Definition new : State := {| used := 0; live := []; spinning := [] |}.

Definition zsum (l : list Z) : Z := foldr Z.add 0 l.
Lemma zsum_app l1 l2 : zsum (l1 ++ l2) = zsum l1 + zsum l2.
Proof. induction l1 as [|x l1 IH]; simpl; [done|]. unfold zsum in *. simpl. lia. Qed.
Lemma zsum_nonneg l : Forall (λ x, 0 ≤ x) l → 0 ≤ zsum l.
Proof. induction 1; simpl; [done|]. unfold zsum in *. simpl. lia. Qed.

Definition inv (total : Z) (s : State) : Prop :=
  used s = zsum (live s) ∧ used s ≤ total ∧
  Forall (λ x, 0 ≤ x) (live s) ∧ Forall (λ p, 0 ≤ p.2) (spinning s).

Lemma reserve_next_ok total cur n next :
  reserve_next total cur n = Ok next → next = cur + n ∧ next ≤ total.
Proof.
  unfold reserve_next, checked_add_u64, Limits.and_then.
  destruct (_ <=? u64_max); cbn [ok_or]; [|done].
  destruct (Z.leb_spec (cur + n) total); cbn [ok_or]; [|done]. by intros [= <-].
Qed.

Lemma budget_step_inv total s s' : is_u64 total → inv total s → step total s s' → inv total s'.
Proof.
  intros Ht (Hu & Hle & Hl & Hp) Hstep. unfold inv.
  destruct Hstep as [s n Hn|s cur n p1 p2 Hs|s cur n next p1 p2 Hs Hadm Hcur|s cur n next p1 p2 Hs|s n l1 l2 Hs];
    cbn [used live spinning].
  - split_and!; try done. constructor; [simpl; lia|done].
  - rewrite Hs in Hp. apply Forall_app in Hp as [? Hp2]. apply Forall_cons in Hp2 as [_ ?].
    split_and!; try done. by apply Forall_app.
  - apply reserve_next_ok in Hadm as [-> ?]. rewrite Hs in Hp.
    apply Forall_app in Hp as [? Hp2]. apply Forall_cons in Hp2 as [? ?]. simpl in *.
    split_and!; [unfold zsum in *; simpl; lia|lia|by constructor|by apply Forall_app].
  - rewrite Hs in Hp. apply Forall_app in Hp as [? Hp2]. apply Forall_cons in Hp2 as [? ?].
    split_and!; try done. apply Forall_app. split; [done|]. by constructor.
  - rewrite Hs, zsum_app in Hu. rewrite Hs in Hl. apply Forall_app in Hl as [Hl1 Hl2].
    apply Forall_cons in Hl2 as [? Hl2]. apply zsum_nonneg in Hl1 as ?, Hl2 as ?.
    unfold zsum in Hu at 2. simpl in Hu. fold (zsum l2) in Hu.
    rewrite zsum_app, Z.mod_small by width.
    split_and!; [lia|lia|by apply Forall_app|done].
Qed.

(** C40: under every interleaving of reserving and releasing threads the
    ledger is exact and bounded: the counter is the sum of the live
    reservations, never above the total, and never wraps. *)
Theorem budget_exact total s :
  is_u64 total → rtc (step total) new s →
  used s = zsum (live s) ∧ 0 ≤ used s ≤ total.
Proof.
  intros Ht Hr.
  assert (inv total s) as (Hu & Hle & Hl & _).
  { remember new as s0. assert (inv total s0) as Hi.
    { subst. unfold inv, new. cbn. split_and!; [done|lia|constructor|constructor]. }
    clear Heqs0. induction Hr as [|s1 s2 s3 Hs _ IH]; [done|]. eauto using budget_step_inv. }
  split; [done|]. split; [|done]. rewrite Hu. by apply zsum_nonneg.
Qed.

Lemma budget_exact_witness :
  ∃ s, rtc (step 1000) new s ∧ live s = [800] ∧ used s = zsum (live s) ∧ 0 ≤ used s ≤ 1000.
Proof.
  exists {| used := 800; live := [800]; spinning := [] |}.
  assert (Hr : rtc (step 1000) new {| used := 800; live := [800]; spinning := [] |}).
  { eapply rtc_l; [apply (Load _ _ 800); width|].
    eapply rtc_l; [|apply rtc_refl].
    exact (Swap 1000 {| used := 0; live := []; spinning := [(0, 800)] |} 0 800 800 [] [] eq_refl eq_refl eq_refl). }
  split; [exact Hr|]. split; [reflexivity|].
  apply (budget_exact 1000); [width|exact Hr].
Defined.

End Budget.
