(* ===== verification/Page.v ===== *)
(** * The page format ([core/kernel/src/page.rs])

    One 4096-byte page: a 40-byte header, a slot directory growing up, record
    payloads growing down.  A page is the byte list itself, every operation
    reads and writes the bytes the Rust code does, and an operation that can
    panic (a slice past the end, an [assert!]) answers [None].

    The abstract view is [records]: the payload of each slot in order.  The
    refinement theorems say what each operation does to it; [page_inv] is the
    invariant the writer keeps, [page_ok] what [PageRef::open] checks. *)
From S2P Require Import Prelude Crc.

Module Page.

Definition PAGE_SIZE : Z := 4096.
Definition HEADER_LEN : Z := 40.
Definition PAGE_MAGIC : Z := 1397050162. (* 0x5345_4B32 *)
Definition VERSION : Z := 1.
Definition SLOT_LEN : Z := 4.
Definition FORMAT_VERSION : Z := 2.
Definition FORMAT_AT : Z := 18.
Definition MAX_RECORD_LEN : Z := PAGE_SIZE - HEADER_LEN - SLOT_LEN.

Inductive PageKind := Free | Meta | Leaf | Interior | Overflow.
#[global] Instance PageKind_eq_dec : EqDecision PageKind.
Proof. solve_decision. Defined.
(** [kind as u16]. *)
Definition kind_code (kd : PageKind) : Z :=
  match kd with Free => 0 | Meta => 1 | Leaf => 2 | Interior => 3 | Overflow => 4 end.
Definition kind_from_u16 (v : Z) : option PageKind :=
  if v =? 0 then Some Free else if v =? 1 then Some Meta else if v =? 2 then Some Leaf
  else if v =? 3 then Some Interior else if v =? 4 then Some Overflow else None.

Definition rd_u16 (b : bytes) (at_ : Z) : Z := le_num (slice b at_ 2).
Definition rd_u32 (b : bytes) (at_ : Z) : Z := le_num (slice b at_ 4).
Definition rd_u64 (b : bytes) (at_ : Z) : Z := le_num (slice b at_ 8).
Definition wr_u16 (b : bytes) (at_ x : Z) : bytes := splice b at_ (le_bytes 2 x).
Definition wr_u32 (b : bytes) (at_ x : Z) : bytes := splice b at_ (le_bytes 4 x).
Definition wr_u64 (b : bytes) (at_ x : Z) : bytes := splice b at_ (le_bytes 8 x).

Definition format_version (b : bytes) : Z := rd_u16 b FORMAT_AT.
Definition nentries (b : bytes) : Z := rd_u16 b 10.
Definition free_ptr (b : bytes) : Z := rd_u16 b 16.
Definition page_no (b : bytes) : Z := rd_u32 b 12.
Definition tree_id (b : bytes) : Z := rd_u16 b 8.
Definition next_leaf (b : bytes) : Z := rd_u32 b 20.
Definition child0 (b : bytes) : Z := next_leaf b.
Definition lsn (b : bytes) : Z := rd_u64 b 24.
(** [PageKind::from_u16(..).unwrap()]. *)
Definition kind (b : bytes) : option PageKind := kind_from_u16 (rd_u16 b 6).
Definition free_space (b : bytes) : Z :=
  saturating_sub (free_ptr b) (HEADER_LEN + nentries b * SLOT_LEN).
Definition slot_base (i : Z) : Z := HEADER_LEN + i * SLOT_LEN.
Definition slot_bounds (b : bytes) (i : Z) : Z * Z :=
  (rd_u16 b (slot_base i), rd_u16 b (slot_base i + 2)).
(** [PageRef::slot]; the slice may panic. *)
Definition slot (b : bytes) (i : Z) : option bytes :=
  let '(off, n) := slot_bounds b i in get_at b off n.

(** ** Writing *)
Definition init (kd : PageKind) (tree page : Z) : bytes :=
  let b := zeros PAGE_SIZE in
  let b := wr_u32 b 0 PAGE_MAGIC in
  let b := wr_u16 b 4 VERSION in
  let b := wr_u16 b 6 (kind_code kd) in
  let b := wr_u16 b 8 tree in
  let b := wr_u32 b 12 page in
  let b := wr_u16 b 16 PAGE_SIZE in
  wr_u16 b FORMAT_AT FORMAT_VERSION.
Definition set_next_leaf (b : bytes) (p : Z) : bytes := wr_u32 b 20 p.
Definition set_child0 (b : bytes) (p : Z) : bytes := set_next_leaf b p.

Definition insert_slot (b : bytes) (at_ : Z) (rec : bytes) : option (result error bytes) :=
  let n := nentries b in
  if n <? at_ then Some (Err TooLarge)
  else if free_space b <? blen rec + SLOT_LEN then Some (Err TooLarge)
  else
    let new_ptr := free_ptr b - blen rec in
    b ← put_at b new_ptr rec;
    let b := wr_u16 b 16 new_ptr in
    let from := HEADER_LEN + at_ * SLOT_LEN in
    let to := HEADER_LEN + n * SLOT_LEN in
    b ← copy_within b from to (from + SLOT_LEN);
    b ← put_at b from (le_bytes 2 new_ptr);
    b ← put_at b (from + 2) (le_bytes 2 (blen rec));
    Some (Ok (wr_u16 b 10 (n + 1))).

Definition remove_slot (b : bytes) (at_ : Z) : option bytes :=
  let n := nentries b in
  if at_ <? n then
    let from := HEADER_LEN + (at_ + 1) * SLOT_LEN in
    let to := HEADER_LEN + n * SLOT_LEN in
    b ← copy_within b from to (from - SLOT_LEN);
    Some (wr_u16 b 10 (n - 1))
  else None.

(** [compact]: the snapshot of the live payloads, then the packing loop. *)
Fixpoint pack (b : bytes) (i ptr : Z) (payloads : list bytes) : option (bytes * Z) :=
  match payloads with
  | [] => Some (b, ptr)
  | p :: payloads =>
      let ptr := ptr - blen p in
      b ← put_at b ptr p;
      b ← put_at b (slot_base i) (le_bytes 2 ptr);
      pack b (i + 1) ptr payloads
  end.
Definition indices (n : Z) : list Z := seqZ 0 n.
Definition compact (b : bytes) : option bytes :=
  payloads ← mapM (slot b) (indices (nentries b));
  '(b, ptr) ← pack b 0 PAGE_SIZE payloads;
  Some (wr_u16 b 16 ptr).

Definition finalise (b : bytes) (l : Z) : bytes := wr_u64 b 24 l.

(** ** Sealing and opening *)
Section sealed.
Context `{Crc32c}.

Definition checksum (b : bytes) : Z :=
  crc32c_append (crc32c (slice b 0 36)) (slice b 40 (PAGE_SIZE - 40)).

Definition seal (b : bytes) (gen : Z) : bytes :=
  let b := wr_u64 b 24 gen in
  let b := wr_u16 b FORMAT_AT FORMAT_VERSION in
  wr_u32 b 36 (checksum b).

Definition bad (want : Z) (why : string) : result error bytes := Err (Corrupt want why).

(** The slot loop of [open_inner]. *)
Definition slot_in_bounds (b : bytes) (fp i : Z) : bool :=
  let '(off, n) := slot_bounds b i in
  negb ((off <? fp) || (PAGE_SIZE <? off + n)).

Definition open_inner (b : bytes) (want : Z) (verify_crc : bool) : result error bytes :=
  if negb (blen b =? PAGE_SIZE) then bad want "wrong buffer length"
  else if negb (rd_u32 b 0 =? PAGE_MAGIC) then bad want "bad magic"
  else if negb (rd_u16 b 4 =? VERSION) then bad want "unknown format version"
  else if verify_crc && negb (rd_u32 b 36 =? checksum b) then bad want "checksum mismatch"
  else if negb (format_version b =? FORMAT_VERSION) then Err (UnsupportedFormat (format_version b))
  else if negb (rd_u32 b 12 =? want) then bad want "page_no mismatch"
  else if bool_decide (kind b = None) then bad want "unknown page kind"
  else
    let n := nentries b in
    let dir_end := HEADER_LEN + n * SLOT_LEN in
    if PAGE_SIZE <? dir_end then bad want "nentries exceeds page"
    else
      let fp := free_ptr b in
      if (fp <? dir_end) || (PAGE_SIZE <? fp)
      then bad want "free pointer is outside the page payload area"
      else if forallb (slot_in_bounds b fp) (indices n) then Ok b
      else bad want "slot out of bounds".
Definition page_open (b : bytes) (want : Z) : result error bytes := open_inner b want true.
Definition open_resident (b : bytes) (want : Z) : result error bytes := open_inner b want false.
Definition open_resident_validated (b : bytes) (want : Z) : result error bytes :=
  if negb (blen b =? PAGE_SIZE) then bad want "wrong buffer length"
  else if negb (rd_u32 b 0 =? PAGE_MAGIC) then bad want "bad magic"
  else if negb (rd_u16 b 4 =? VERSION) then bad want "unknown format version"
  else if negb (format_version b =? FORMAT_VERSION) then Err (UnsupportedFormat (format_version b))
  else if negb (rd_u32 b 12 =? want) then bad want "page_no mismatch"
  else if bool_decide (kind b = None) then bad want "unknown page kind"
  else Ok b.
End sealed.

(** * The representation invariant *)

(** Slot [i] of [b] holds the record [r], inside the payload area. *)
Definition slot_holds (b : bytes) (i : Z) (r : bytes) : Prop :=
  let '(off, n) := slot_bounds b i in
  n = blen r ∧ free_ptr b ≤ off ∧ off + n ≤ PAGE_SIZE ∧ slice b off n = r.

Definition total_len (recs : list bytes) : Z := foldr (λ r t, blen r + t) 0 recs.

(** [page_rep b recs]: [b] is a page whose slots hold [recs] in order, whose
    directory does not reach its payloads, and whose live payloads fit between
    the free pointer and the end of the page. *)
Record page_rep (b : bytes) (recs : list bytes) : Prop := {
  rep_len : blen b = PAGE_SIZE;
  rep_n : nentries b = blen recs;
  rep_dir : slot_base (blen recs) ≤ free_ptr b;
  rep_free : free_ptr b ≤ PAGE_SIZE;
  rep_slots : ∀ (i : nat) r, recs !! i = Some r → slot_holds b (Z.of_nat i) r;
  rep_total : total_len recs ≤ PAGE_SIZE - free_ptr b;
}.

(** The header fields no slot operation touches: magic, version, kind and
    tree; page number; stamp, sibling, lsn, reserved and checksum. *)
Definition same_identity (b b' : bytes) : Prop :=
  slice b' 0 10 = slice b 0 10 ∧ slice b' 12 4 = slice b 12 4 ∧ slice b' 18 22 = slice b 18 22.

Ltac page_unfold :=
  unfold slot_base, MAX_RECORD_LEN, PAGE_SIZE, HEADER_LEN, SLOT_LEN, FORMAT_AT, rd_u16, rd_u32, rd_u64,
    wr_u16, wr_u32, wr_u64 in *.
Ltac side := autorewrite with skj_rw; try lia.
(** Resolve a read of a page against the writes that produced it. *)
Ltac rd_step :=
  first [ rewrite slice_splice_inner by side
        | rewrite slice_splice_other by side ].
Ltac rd := repeat rd_step.

Lemma wr_u16_ok b at_ x : bytes_ok b → bytes_ok (wr_u16 b at_ x).
Proof. unfold wr_u16. auto with skj. Qed.
Lemma wr_u32_ok b at_ x : bytes_ok b → bytes_ok (wr_u32 b at_ x).
Proof. unfold wr_u32. auto with skj. Qed.
Lemma wr_u64_ok b at_ x : bytes_ok b → bytes_ok (wr_u64 b at_ x).
Proof. unfold wr_u64. auto with skj. Qed.
#[global] Hint Resolve wr_u16_ok wr_u32_ok wr_u64_ok : skj.
Lemma init_ok kd tree page : bytes_ok (init kd tree page).
Proof. unfold init. auto 10 with skj. Qed.
Lemma seal_ok `{Crc32c} b gen : bytes_ok b → bytes_ok (seal b gen).
Proof. unfold seal. auto with skj. Qed.
#[global] Hint Resolve init_ok seal_ok : skj.

Lemma le_num_le_bytes_2 x : is_u16 x → le_num (le_bytes 2 x) = x.
Proof. intros. apply le_num_le_bytes. width. Qed.
Lemma le_num_le_bytes_4 x : is_u32 x → le_num (le_bytes 4 x) = x.
Proof. intros. apply le_num_le_bytes. width. Qed.
Lemma le_num_le_bytes_8 x : is_u64 x → le_num (le_bytes 8 x) = x.
Proof. intros. apply le_num_le_bytes. width. Qed.
Lemma slice_le_bytes n x m : m = Z.of_nat n → slice (le_bytes n x) 0 m = le_bytes n x.
Proof. intros ->. apply slice_all. by rewrite blen_le_bytes. Qed.

Lemma total_len_app a b : total_len (a ++ b) = total_len a + total_len b.
Proof. induction a as [|r a IH]; simpl; [done|]. lia. Qed.
Lemma total_len_nonneg recs : 0 ≤ total_len recs.
Proof. induction recs as [|r recs IH]; simpl; [done|]. pose proof (blen_nonneg r). lia. Qed.

Lemma rep_slot b recs (i : nat) r :
  page_rep b recs → recs !! i = Some r → slot b (Z.of_nat i) = Some r.
Proof.
  intros Hrep Hi. pose proof (rep_slots _ _ Hrep i r Hi) as Hs.
  unfold slot_holds, slot in *. destruct (slot_bounds b (Z.of_nat i)) as [off n].
  destruct Hs as (-> & Ho & He & Hr). pose proof (rep_dir _ _ Hrep). pose proof (rep_len _ _ Hrep).
  pose proof (blen_nonneg recs). pose proof (blen_nonneg r). page_unfold.
  rewrite get_at_ok by lia. by rewrite Hr.
Qed.

(** Two pages hold the same records when the record's directory entry and its
    payload bytes are the same and the free pointer did not rise above it. *)
Lemma slot_holds_transfer b b' i j r :
  slot_holds b i r → 0 ≤ free_ptr b → blen b = PAGE_SIZE →
  slice b' (slot_base j) 4 = slice b (slot_base i) 4 →
  0 ≤ slot_base j → 0 ≤ slot_base i →
  free_ptr b' ≤ free_ptr b →
  (∀ o n, free_ptr b ≤ o → 0 ≤ n → o + n ≤ PAGE_SIZE → slice b' o n = slice b o n) →
  slot_holds b' j r.
Proof.
  intros Hs Hfp Hlen Hdir ?? Hfree Hpay. unfold slot_holds, slot_bounds, rd_u16 in *.
  assert (∀ d, 0 ≤ d → d + 2 ≤ 4 → slice b' (slot_base j + d) 2 = slice b (slot_base i + d) 2) as Hd.
  { intros d ??. rewrite <-(slice_slice b' _ 4 d 2), <-(slice_slice b _ 4 d 2) by lia. by rewrite Hdir. }
  pose proof (Hd 0) as Hd0. rewrite !Z.add_0_r in Hd0. rewrite Hd0, (Hd 2) by lia.
  destruct Hs as (Hn & Ho & He & Hr). pose proof (blen_nonneg r).
  split_and!; try lia. by rewrite Hpay by lia.
Qed.

(** ** Initialisation and insertion *)
Lemma blen_init kd tree page : blen (init kd tree page) = PAGE_SIZE.
Proof. unfold init, wr_u16, wr_u32. len. done. Qed.
#[global] Hint Rewrite blen_init : skj_rw.

Lemma kind_code_u16 kd : 0 ≤ kind_code kd ≤ 4.
Proof. destruct kd; simpl; lia. Qed.
Lemma kind_from_code kd : kind_from_u16 (kind_code kd) = Some kd.
Proof. by destruct kd. Qed.

Lemma init_fields kd tree page :
  is_u16 tree → is_u32 page →
  let b := init kd tree page in
  rd_u32 b 0 = PAGE_MAGIC ∧ rd_u16 b 4 = VERSION ∧ kind b = Some kd ∧ tree_id b = tree ∧
  page_no b = page ∧ nentries b = 0 ∧ free_ptr b = PAGE_SIZE ∧ format_version b = FORMAT_VERSION.
Proof.
  intros Ht Hp. pose proof (kind_code_u16 kd) as Hk.
  unfold kind, tree_id, page_no, nentries, free_ptr, format_version, init. page_unfold.
  repeat match goal with |- _ ∧ _ => split end; rd;
    rewrite ?Z.sub_diag, ?slice_le_bytes by done;
    rewrite ?le_num_le_bytes_2, ?le_num_le_bytes_4 by (unfold PAGE_MAGIC, VERSION, FORMAT_VERSION; width);
    try done.
  by rewrite kind_from_code.
Qed.

(** The bytes [insert_slot] leaves, once no step can panic. *)
Definition inserted (b : bytes) (n at_ : Z) (rec : bytes) : bytes :=
  let np := free_ptr b - blen rec in
  let b1 := wr_u16 (splice b np rec) 16 np in
  let b2 := splice b1 (slot_base at_ + 4) (slice b1 (slot_base at_) (4 * (n - at_))) in
  wr_u16 (splice (splice b2 (slot_base at_) (le_bytes 2 np)) (slot_base at_ + 2) (le_bytes 2 (blen rec)))
    10 (n + 1).

Section insert.
Context (b rec : bytes) (n at_ : Z).
Context (Hlen : blen b = PAGE_SIZE) (Hn : nentries b = n) (Hat : 0 ≤ at_ ≤ n).
Context (Hfit : slot_base n + blen rec + SLOT_LEN ≤ free_ptr b) (Hfree : free_ptr b ≤ PAGE_SIZE).

Lemma insert_slot_eq : insert_slot b at_ rec = Some (Ok (inserted b n at_ rec)).
Proof using All.
  pose proof (blen_nonneg rec). unfold insert_slot, free_space, saturating_sub. rewrite Hn.
  unfold inserted. page_unfold.
  rewrite !(proj2 (Z.ltb_ge _ _)) by lia. rewrite put_at_ok by lia. cbn [mbind option_bind].
  rewrite copy_within_ok by side. cbn [mbind option_bind].
  rewrite put_at_ok by side. cbn [mbind option_bind].
  rewrite put_at_ok by side. cbn [mbind option_bind].
  by replace (40 + n * 4 - (40 + at_ * 4)) with (4 * (n - at_)) by lia.
Qed.

Lemma blen_inserted : blen (inserted b n at_ rec) = PAGE_SIZE.
Proof using Hlen. unfold inserted. page_unfold. len. Qed.

Lemma inserted_payload o m :
  free_ptr b ≤ o → 0 ≤ m → o + m ≤ PAGE_SIZE →
  slice (inserted b n at_ rec) o m = slice b o m.
Proof using All. pose proof (blen_nonneg rec). unfold inserted. page_unfold. intros. by rd. Qed.
Lemma inserted_new : slice (inserted b n at_ rec) (free_ptr b - blen rec) (blen rec) = rec.
Proof using All.
  pose proof (blen_nonneg rec). unfold inserted. page_unfold.
  destruct (decide (blen rec = 0)) as [E|?].
  { rewrite E, slice_0. by rewrite (blen_0_nil _ E). }
  rd. rewrite Z.sub_diag. by apply slice_all.
Qed.
Lemma inserted_nentries : nentries (inserted b n at_ rec) = n + 1.
Proof using All.
  pose proof (blen_nonneg rec). unfold nentries, inserted. page_unfold. rd.
  rewrite Z.sub_diag, slice_le_bytes by done. apply le_num_le_bytes_2. width.
Qed.
Lemma inserted_free : free_ptr (inserted b n at_ rec) = free_ptr b - blen rec.
Proof using All.
  pose proof (blen_nonneg rec). unfold inserted.
  set (f := free_ptr b) in *. unfold free_ptr. page_unfold. rd.
  rewrite Z.sub_diag, slice_le_bytes by done. apply le_num_le_bytes_2. width.
Qed.
Lemma inserted_before j : 0 ≤ j < at_ →
  slice (inserted b n at_ rec) (slot_base j) 4 = slice b (slot_base j) 4.
Proof using All. intros. pose proof (blen_nonneg rec). unfold inserted. page_unfold. by rd. Qed.
Lemma inserted_after j : at_ ≤ j < n →
  slice (inserted b n at_ rec) (slot_base (j + 1)) 4 = slice b (slot_base j) 4.
Proof using All.
  intros. pose proof (blen_nonneg rec). unfold inserted. page_unfold. rd.
  rewrite slice_slice by lia. rd. f_equal. lia.
Qed.
Lemma inserted_at : slot_bounds (inserted b n at_ rec) at_ = (free_ptr b - blen rec, blen rec).
Proof using All.
  pose proof (blen_nonneg rec). unfold slot_bounds, inserted. page_unfold. rd.
  rewrite ?Z.sub_diag, !slice_le_bytes by done. rewrite !le_num_le_bytes_2 by width. done.
Qed.
Lemma inserted_identity : same_identity b (inserted b n at_ rec).
Proof using All.
  pose proof (blen_nonneg rec). unfold same_identity, inserted. page_unfold. split_and!; by rd.
Qed.
End insert.

Lemma lookup_insert_at {A} (l : list A) (k i : nat) x y :
  (k ≤ length l)%nat → (take k l ++ x :: drop k l) !! i = Some y →
  (i < k ∧ l !! i = Some y)%nat ∨ (i = k ∧ y = x) ∨ (k < i ∧ l !! (i - 1) = Some y)%nat.
Proof.
  intros Hk. rewrite lookup_app, length_take, Nat.min_l by done. intros Hi.
  destruct (decide (i < k)%nat).
  - rewrite lookup_take_lt in Hi by done. left.
    destruct (l !! i) eqn:?; [by simplify_eq|].
    destruct (drop k l) eqn:?; replace (i - k)%nat with 0%nat in Hi by lia; simpl in Hi.
    + apply lookup_ge_None in Heqo. lia.
    + apply lookup_ge_None in Heqo. lia.
  - rewrite lookup_take_ge in Hi by lia. destruct (decide (i = k)) as [->|].
    + rewrite Nat.sub_diag in Hi. simpl in Hi. simplify_eq. auto.
    + do 2 right. destruct (i - k)%nat as [|m] eqn:?; [lia|]. simpl in Hi.
      rewrite lookup_drop in Hi. split; [lia|]. by replace (i - 1)%nat with (k + m)%nat by lia.
Qed.

Lemma inserted_rep b recs (k : nat) rec :
  page_rep b recs → (k ≤ length recs)%nat → blen rec + SLOT_LEN ≤ free_space b →
  page_rep (inserted b (blen recs) (Z.of_nat k) rec) (take k recs ++ rec :: drop k recs).
Proof.
  intros Hrep Hk Hfit. destruct Hrep as [Hlen Hn Hdir Hfree Hslots Htot].
  pose proof (blen_nonneg rec). assert (Hb : blen recs = Z.of_nat (length recs)) by done.
  assert (slot_base (blen recs) + blen rec + SLOT_LEN ≤ free_ptr b) as Hfit'.
  { unfold free_space, saturating_sub in Hfit. rewrite Hn in Hfit. page_unfold. lia. }
  assert (blen (take k recs ++ rec :: drop k recs) = blen recs + 1) as Hbl.
  { unfold blen. rewrite length_app, length_take. simpl. rewrite length_drop. lia. }
  assert (0 ≤ Z.of_nat k ≤ blen recs) as Hk' by lia.
  split; rewrite ?Hbl.
  - by apply blen_inserted.
  - by apply inserted_nentries.
  - rewrite inserted_free by done. page_unfold. lia.
  - rewrite inserted_free by done. lia.
  - intros i r Hi. apply lookup_insert_at in Hi as [[Hlt Hi]|[[-> ->]|[Hlt Hi]]]; [..|done].
    + eapply slot_holds_transfer; [by apply Hslots|page_unfold; lia|done| | | | |].
      * apply inserted_before; try done. lia.
      * page_unfold; lia.
      * page_unfold; lia.
      * rewrite inserted_free by done. lia.
      * intros. by apply inserted_payload.
    + unfold slot_holds. rewrite inserted_at, inserted_free by done.
      page_unfold. split_and!; [done|lia|lia|]. by apply inserted_new.
    + eapply (slot_holds_transfer b _ (Z.of_nat (i - 1))); [by apply Hslots|page_unfold; lia|done| | | | |].
      * replace (Z.of_nat i) with (Z.of_nat (i - 1) + 1) by lia.
        apply lookup_lt_Some in Hi. apply inserted_after; try done. lia.
      * page_unfold; lia.
      * page_unfold; lia.
      * rewrite inserted_free by done. lia.
      * intros. by apply inserted_payload.
  - rewrite inserted_free by done. rewrite total_len_app. simpl.
    pose proof (total_len_app (take k recs) (drop k recs)) as Ht. rewrite take_drop in Ht. lia.
Qed.

Lemma put_at_bytes b off src b' : put_at b off src = Some b' → bytes_ok b → bytes_ok src → bytes_ok b'.
Proof. unfold put_at. destruct (_ && _); [|done]. intros [= <-]. auto with skj. Qed.
Lemma insert_slot_bytes b at_ rec b' :
  insert_slot b at_ rec = Some (Ok b') → bytes_ok b → bytes_ok rec → bytes_ok b'.
Proof.
  unfold insert_slot. destruct (_ <? _); [done|]. destruct (_ <? _); [done|]. intros Hi Hb Hr.
  destruct (put_at b _ rec) as [b1|] eqn:E1; [|done]. apply put_at_bytes in E1; [|done..].
  cbn [mbind option_bind] in Hi. destruct (copy_within _ _ _ _) as [b2|] eqn:E2; [|done].
  assert (bytes_ok b2) as H2.
  { unfold copy_within in E2. destruct (_ && _); [|done]. eapply put_at_bytes; eauto with skj. }
  cbn [mbind option_bind] in Hi. destruct (put_at b2 _ _) as [b3|] eqn:E3; [|done].
  apply put_at_bytes in E3; [|auto with skj..]. cbn [mbind option_bind] in Hi.
  destruct (put_at b3 _ _) as [b4|] eqn:E4; [|done]. apply put_at_bytes in E4; [|auto with skj..].
  cbn [mbind option_bind] in Hi. apply Some_Ok_inj in Hi as <-. auto with skj.
Qed.
(** [insert_slot] on a well-formed page: refused exactly when the record and
    its directory entry do not fit. *)
Lemma insert_slot_ok b recs (k : nat) rec :
  page_rep b recs → (k ≤ length recs)%nat →
  if decide (blen rec + SLOT_LEN ≤ free_space b)
  then ∃ b', insert_slot b (Z.of_nat k) rec = Some (Ok b') ∧
             page_rep b' (take k recs ++ rec :: drop k recs) ∧ same_identity b b' ∧
             free_space b' = free_space b - (blen rec + SLOT_LEN)
  else insert_slot b (Z.of_nat k) rec = Some (Err TooLarge).
Proof.
  intros Hrep Hk. pose proof (rep_n _ _ Hrep) as Hn. pose proof (rep_dir _ _ Hrep).
  assert (0 ≤ Z.of_nat k ≤ blen recs) by (unfold blen; lia). pose proof (blen_nonneg rec).
  destruct (decide _) as [Hf|Hf].
  - assert (slot_base (blen recs) + blen rec + SLOT_LEN ≤ free_ptr b).
    { unfold free_space, saturating_sub in Hf. rewrite Hn in Hf. page_unfold. lia. }
    pose proof (rep_len _ _ Hrep). pose proof (rep_free _ _ Hrep).
    exists (inserted b (blen recs) (Z.of_nat k) rec). split_and!.
    + by apply insert_slot_eq.
    + by apply inserted_rep.
    + by apply inserted_identity.
    + unfold free_space. rewrite inserted_nentries, inserted_free, Hn by done.
      unfold saturating_sub. page_unfold. lia.
  - unfold insert_slot. rewrite (proj2 (Z.ltb_ge _ _)) by lia.
    by rewrite (proj2 (Z.ltb_lt _ _)) by lia.
Qed.

(** ** Removal *)
Definition removed (b : bytes) (n at_ : Z) : bytes :=
  wr_u16 (splice b (slot_base at_) (slice b (slot_base (at_ + 1)) (4 * (n - at_ - 1)))) 10 (n - 1).

Section remove.
Context (b : bytes) (n at_ : Z).
Context (Hlen : blen b = PAGE_SIZE) (Hn : nentries b = n) (Hat : 0 ≤ at_ < n).
Context (Hdir : slot_base n ≤ free_ptr b) (Hfree : free_ptr b ≤ PAGE_SIZE).

Lemma remove_slot_eq : remove_slot b at_ = Some (removed b n at_).
Proof using All.
  unfold remove_slot, removed. rewrite Hn, (proj2 (Z.ltb_lt _ _)) by lia. page_unfold.
  rewrite copy_within_ok by lia. cbn [mbind option_bind].
  do 3 f_equal; [lia|]. f_equal; lia.
Qed.
Lemma removed_payload o m :
  free_ptr b ≤ o → 0 ≤ m → o + m ≤ PAGE_SIZE → slice (removed b n at_) o m = slice b o m.
Proof using All. unfold removed. page_unfold. intros. by rd. Qed.
Lemma removed_nentries : nentries (removed b n at_) = n - 1.
Proof using All.
  unfold nentries, removed. page_unfold. rd.
  rewrite Z.sub_diag, slice_le_bytes by done. apply le_num_le_bytes_2. width.
Qed.
Lemma removed_free : free_ptr (removed b n at_) = free_ptr b.
Proof using All. unfold removed, free_ptr in *. page_unfold. by rd. Qed.
Lemma removed_before j : 0 ≤ j < at_ → slice (removed b n at_) (slot_base j) 4 = slice b (slot_base j) 4.
Proof using All. intros. unfold removed. page_unfold. by rd. Qed.
Lemma removed_after j : at_ ≤ j < n - 1 →
  slice (removed b n at_) (slot_base j) 4 = slice b (slot_base (j + 1)) 4.
Proof using All.
  intros. unfold removed. page_unfold. rd. rewrite slice_slice by lia. f_equal. lia.
Qed.
Lemma removed_identity : same_identity b (removed b n at_).
Proof using All. unfold same_identity, removed. page_unfold. split_and!; by rd. Qed.
End remove.

Lemma remove_slot_ok b recs (k : nat) :
  page_rep b recs → (k < length recs)%nat →
  ∃ b', remove_slot b (Z.of_nat k) = Some b' ∧ page_rep b' (delete k recs) ∧
        same_identity b b' ∧ free_ptr b' = free_ptr b.
Proof.
  intros Hrep Hk. destruct Hrep as [Hlen Hn Hdir Hfree Hslots Htot].
  assert (Hat : 0 ≤ Z.of_nat k < blen recs) by (unfold blen; lia).
  assert (blen (delete k recs) = blen recs - 1) as Hd.
  { unfold blen. rewrite length_delete by (apply lookup_lt_is_Some; lia). lia. }
  exists (removed b (blen recs) (Z.of_nat k)).
  split_and!; [by apply remove_slot_eq| |by apply removed_identity|by apply removed_free].
  split; rewrite ?Hd, ?removed_free by done.
  - unfold removed. page_unfold. len.
  - by apply removed_nentries.
  - page_unfold. lia.
  - done.
  - intros i r Hi. destruct (decide (i < k)%nat) as [Hlt|].
    + rewrite list_lookup_delete_lt in Hi by done.
      eapply slot_holds_transfer; [by apply Hslots|page_unfold; lia|done| | | | |].
      1: apply removed_before; try done; lia.
      1,2: page_unfold; lia.
      1: by rewrite removed_free by done.
      intros. by apply removed_payload.
    + rewrite list_lookup_delete_ge in Hi by lia. pose proof (lookup_lt_Some _ _ _ Hi).
      eapply (slot_holds_transfer b _ (Z.of_nat (S i))); [by apply Hslots|page_unfold; lia|done| | | | |].
      1: rewrite Nat2Z.inj_succ; apply removed_after; try done; unfold blen; lia.
      1,2: page_unfold; lia.
      1: by rewrite removed_free by done.
      intros. by apply removed_payload.
  - assert (total_len (delete k recs) ≤ total_len recs); [|lia].
    rewrite delete_take_drop, total_len_app.
    pose proof (total_len_app (take k recs) (drop k recs)) as Ht. rewrite take_drop in Ht.
    destruct (lookup_lt_is_Some_2 recs k Hk) as [x Hx].
    rewrite (drop_S _ _ _ Hx) in Ht. simpl in Ht. pose proof (blen_nonneg x). lia.
Qed.

(** ** Compaction *)
Lemma pack_spec rest : ∀ b i ptr,
  blen b = PAGE_SIZE → 0 ≤ i → ptr ≤ PAGE_SIZE →
  slot_base (i + blen rest) ≤ ptr - total_len rest →
  (∀ (j : nat) r, rest !! j = Some r → rd_u16 b (slot_base (i + Z.of_nat j) + 2) = blen r) →
  ∃ b', pack b i ptr rest = Some (b', ptr - total_len rest) ∧ blen b' = PAGE_SIZE ∧
    (∀ o m, 0 ≤ o → o + m ≤ slot_base i → slice b' o m = slice b o m) ∧
    (∀ o m, ptr ≤ o → 0 ≤ m → slice b' o m = slice b o m) ∧
    (∀ (j : nat) r, rest !! j = Some r → ∃ off,
       slot_bounds b' (i + Z.of_nat j) = (off, blen r) ∧ ptr - total_len rest ≤ off ∧
       off + blen r ≤ ptr ∧ slice b' off (blen r) = r).
Proof.
  induction rest as [|r rest IH]; intros b i ptr Hlen Hi Hptr Hdir Hlens.
  { exists b. simpl. rewrite Z.sub_0_r. split_and!; done. }
  pose proof (blen_nonneg r). pose proof (blen_nonneg rest). pose proof (total_len_nonneg rest).
  cbn [total_len foldr] in Hdir |- *. fold (total_len rest) in *. rewrite blen_cons in Hdir.
  cbn [pack]. page_unfold.
  rewrite put_at_ok by lia. cbn [mbind option_bind]. rewrite put_at_ok by side. cbn [mbind option_bind].
  pose proof (Hlens 0%nat r eq_refl) as Hr. rewrite Z.add_0_r in Hr.
  set (b1 := splice (splice b (ptr - blen r) r) (40 + i * 4) (le_bytes 2 (ptr - blen r))).
  destruct (IH b1 (i + 1) (ptr - blen r)) as (b' & Hp & Hl' & Hlow & Hhigh & Hall).
  - unfold b1. by len.
  - lia.
  - lia.
  - lia.
  - intros j x Hx. unfold b1. specialize (Hlens (S j) x Hx).
    assert (Z.of_nat j < blen rest) as Hj by (apply lookup_lt_Some in Hx; unfold blen; lia).
    rewrite <-Hlens. rd. do 2 f_equal. lia.
  - exists b'. split_and!; [rewrite Hp; do 2 f_equal; lia|done| | |].
    + intros o m ??. rewrite Hlow by lia. unfold b1. by rd.
    + intros o m ??. rewrite Hhigh by lia. unfold b1. by rd.
    + intros [|j] x Hx; simpl in Hx.
      * simplify_eq. exists (ptr - blen x). unfold slot_bounds. rewrite Z.add_0_r. page_unfold.
        rewrite !Hlow by lia. split_and!; [|lia|lia|].
        -- unfold b1. rd. rewrite Z.sub_diag, slice_le_bytes by done.
           rewrite le_num_le_bytes_2 by width. f_equal. exact Hr.
        -- rewrite Hhigh by lia. unfold b1.
           destruct (decide (blen x = 0)) as [E|?]; [rewrite E, slice_0; by rewrite (blen_0_nil _ E)|].
           rd. rewrite Z.sub_diag. by apply slice_all.
      * destruct (Hall j x Hx) as (off & ? & ? & ? & ?). exists off. split_and!; [|lia|lia|done].
        by replace (i + Z.of_nat (S j)) with (i + 1 + Z.of_nat j) by lia.
Qed.

Lemma seqZ_lookup_of n (l : list bytes) : blen l = n → indices n = Z.of_nat <$> seq 0 (length l).
Proof.
  intros <-. unfold indices, seqZ, blen. rewrite Nat2Z.id. apply list_fmap_ext. intros. simpl. lia.
Qed.
Lemma rep_snapshot b recs : page_rep b recs → mapM (slot b) (indices (nentries b)) = Some recs.
Proof.
  intros Hrep. rewrite (seqZ_lookup_of _ recs) by (symmetry; apply Hrep).
  apply mapM_Some, Forall2_same_length_lookup_2; [by rewrite length_fmap, length_seq|].
  intros i x y Hx Hy. rewrite list_lookup_fmap, fmap_Some in Hx. destruct Hx as (j & Hj & ->).
  apply lookup_seq in Hj as [-> _]. by apply rep_slot with recs.
Qed.

Lemma compact_ok b recs :
  page_rep b recs →
  ∃ b', compact b = Some b' ∧ page_rep b' recs ∧ same_identity b b' ∧
        free_space b' = PAGE_SIZE - slot_base (blen recs) - total_len recs.
Proof.
  intros Hrep. pose proof (rep_snapshot _ _ Hrep) as Hsnap.
  destruct Hrep as [Hlen Hn Hdir Hfree Hslots Htot].
  pose proof (blen_nonneg recs). pose proof (total_len_nonneg recs).
  destruct (pack_spec recs b 0 PAGE_SIZE) as (b1 & Hp & Hl1 & Hlow & _ & Hall); try done.
  { page_unfold. lia. }
  { intros j r Hr. specialize (Hslots j r Hr). unfold slot_holds, slot_bounds in Hslots.
    rewrite Z.add_0_l. apply Hslots. }
  set (fp := PAGE_SIZE - total_len recs) in *.
  assert (is_u16 fp) by (unfold fp; page_unfold; width).
  assert (free_ptr (wr_u16 b1 16 fp) = fp) as Hfp.
  { unfold free_ptr. page_unfold. rd. rewrite Z.sub_diag, slice_le_bytes by done. by apply le_num_le_bytes_2. }
  assert (nentries (wr_u16 b1 16 fp) = blen recs) as Hne.
  { rewrite <-Hn. unfold nentries. page_unfold. rd. rewrite Hlow by lia. done. }
  exists (wr_u16 b1 16 fp). unfold compact. rewrite Hsnap. cbn [mbind option_bind]. rewrite Hp.
  assert (0 ≤ fp ≤ PAGE_SIZE) by (unfold fp; page_unfold; lia).
  split_and!; [done| | |].
  - split; rewrite ?Hfp; try done.
    + page_unfold. len.
    + unfold fp. page_unfold. lia.
    + lia.
    + intros i r Hi. destruct (Hall i r Hi) as (off & Hs & ? & ? & Hsl).
      rewrite Z.add_0_l in Hs. unfold slot_holds. pose proof (lookup_lt_Some _ _ _ Hi).
      pose proof (blen_nonneg r). unfold slot_bounds in *. rewrite Hfp. page_unfold.
      repeat rewrite slice_splice_other by (rewrite ?blen_le_bytes; try lia).
      injection Hs as Ho Hbl. rewrite Ho, Hbl. split_and!; [done|done|lia|].
      by repeat rewrite slice_splice_other by (rewrite ?blen_le_bytes; unfold fp in *; lia).
    + unfold fp. lia.
  - unfold same_identity. page_unfold. split_and!; rd; rewrite Hlow by lia; done.
  - unfold free_space, saturating_sub. rewrite Hfp, Hne. unfold fp. page_unfold. lia.
Qed.

(** * Sealing, opening and whole sessions *)
(** A page of the writer: the representation plus an identity [open] accepts. *)
Record page_inv (b : bytes) (recs : list bytes) : Prop := {
  inv_rep : page_rep b recs;
  inv_magic : rd_u32 b 0 = PAGE_MAGIC;
  inv_version : rd_u16 b 4 = VERSION;
  inv_format : format_version b = FORMAT_VERSION;
  inv_kind : is_Some (kind b);
}.

Lemma init_rep kd tree page : is_u16 tree → is_u32 page → page_inv (init kd tree page) [].
Proof.
  intros Ht Hp. destruct (init_fields kd tree page Ht Hp) as (?&?&Hk&?&?&Hn&Hf&?).
  split; [|done|done|done|by rewrite Hk]. by split; rewrite ?Hn, ?Hf.
Qed.

Lemma identity_field b b' :
  same_identity b b' →
  rd_u32 b' 0 = rd_u32 b 0 ∧ rd_u16 b' 4 = rd_u16 b 4 ∧ format_version b' = format_version b ∧
  kind b' = kind b ∧ page_no b' = page_no b ∧ tree_id b' = tree_id b ∧ next_leaf b' = next_leaf b.
Proof.
  intros (H1 & H2 & H3). unfold kind, page_no, tree_id, next_leaf, format_version. page_unfold.
  assert (∀ o n, 0 ≤ o → o + n ≤ 10 → slice b' o n = slice b o n) as E1.
  { intros o n ??. rewrite <-(Z.add_0_l o), <-!(slice_slice _ 0 10) by lia. by rewrite H1. }
  assert (∀ o n, 0 ≤ o → o + n ≤ 22 → slice b' (18 + o) n = slice b (18 + o) n) as E3.
  { intros o n ??. rewrite <-!(slice_slice _ 18 22) by lia. by rewrite H3. }
  rewrite H2, (E1 0 4), (E1 4 2), (E1 6 2), (E1 8 2) by lia.
  by rewrite (E3 0 2 ltac:(lia) ltac:(lia) : slice b' 18 2 = slice b 18 2),
    (E3 2 4 ltac:(lia) ltac:(lia) : slice b' 20 4 = slice b 20 4).
Qed.
Lemma inv_preserved b b' recs recs' :
  page_inv b recs → page_rep b' recs' → same_identity b b' → page_inv b' recs'.
Proof.
  intros [] ? Hs. destruct (identity_field _ _ Hs) as (E1&E2&E3&E4&_).
  by split; rewrite ?E1, ?E2, ?E3, ?E4.
Qed.

(** A write to bytes 18 to 39 (sibling, stamp, lsn, checksum) keeps the records. *)
Lemma rep_header_write b recs off src :
  page_rep b recs → 18 ≤ off → off + blen src ≤ HEADER_LEN → page_rep (splice b off src) recs.
Proof.
  intros [Hlen Hn Hdir Hfree Hslots Htot] ??. pose proof (blen_nonneg src).
  assert (nentries (splice b off src) = nentries b) as En by (unfold nentries; page_unfold; by rd).
  assert (free_ptr (splice b off src) = free_ptr b) as Ef by (unfold free_ptr; page_unfold; by rd).
  pose proof (blen_nonneg recs).
  split; rewrite ?En, ?Ef; try done; [by len|].
  intros i r Hi. eapply slot_holds_transfer; [by apply Hslots|page_unfold; lia|done| | | | |].
  - page_unfold. by rd.
  - page_unfold. lia.
  - page_unfold. lia.
  - rewrite Ef. lia.
  - intros. page_unfold. by rd.
Qed.

Lemma header_write_inv b recs off src :
  page_inv b recs → 20 ≤ off → off + blen src ≤ HEADER_LEN → page_inv (splice b off src) recs.
Proof.
  intros [Hrep ? ? ? ?] ??. pose proof (rep_len _ _ Hrep). split.
  - apply rep_header_write; [done|lia|done].
  - page_unfold. by rd.
  - page_unfold. by rd.
  - unfold format_version in *. page_unfold. by rd.
  - unfold kind in *. page_unfold. by rd.
Qed.

(** The writer's calls on a page. *)
Inductive page_op :=
  | Insert (k : nat) (rec : bytes)
  | Remove (k : nat)
  | Compact
  | SetNext (p : Z)
  | Finalise (l : Z).
Definition run_op (o : page_op) (b : bytes) : option (result error bytes) :=
  match o with
  | Insert k rec => insert_slot b (Z.of_nat k) rec
  | Remove k => Ok <$> remove_slot b (Z.of_nat k)
  | Compact => Ok <$> compact b
  | SetNext p => Some (Ok (set_next_leaf b p))
  | Finalise l => Some (Ok (finalise b l))
  end.
(** A session: a refused insertion leaves the page as it was. *)
Fixpoint run_ops (os : list page_op) (b : bytes) : option bytes :=
  match os with
  | [] => Some b
  | o :: os => r ← run_op o b; run_ops os (match r with Ok b' => b' | Err _ => b end)
  end.

(** The abstract page: the records in order and the room left.  [None] is a
    call its callers do not make (a position outside the page); the boolean
    says whether the call was carried out. *)
Record apage := APage { a_recs : list bytes; a_free : Z }.
Definition a_init : apage := APage [] (PAGE_SIZE - HEADER_LEN).
Definition spec_op (o : page_op) (a : apage) : option (bool * apage) :=
  let recs := a_recs a in
  match o with
  | Insert k rec =>
      if (length recs <? k)%nat then None
      else if blen rec + SLOT_LEN <=? a_free a
      then Some (true, APage (take k recs ++ rec :: drop k recs) (a_free a - (blen rec + SLOT_LEN)))
      else Some (false, a)
  | Remove k =>
      if (k <? length recs)%nat then Some (true, APage (delete k recs) (a_free a + SLOT_LEN)) else None
  | Compact => Some (true, APage recs (PAGE_SIZE - slot_base (blen recs) - total_len recs))
  | SetNext _ | Finalise _ => Some (true, a)
  end.
Fixpoint spec_ops (os : list page_op) (a : apage) : option apage :=
  match os with
  | [] => Some a
  | o :: os => '(_, a) ← spec_op o a; spec_ops os a
  end.
Definition refines (b : bytes) (a : apage) : Prop := page_inv b (a_recs a) ∧ free_space b = a_free a.

Lemma header_write_refines b a off src :
  refines b a → 20 ≤ off → off + blen src ≤ HEADER_LEN → refines (splice b off src) a.
Proof.
  intros [Hinv Hf] ??. split; [by apply header_write_inv|]. rewrite <-Hf.
  pose proof (rep_len _ _ (inv_rep _ _ Hinv)).
  unfold free_space, nentries, free_ptr. page_unfold. by rd.
Qed.

Lemma run_op_refines o b a ok a' :
  refines b a → spec_op o a = Some (ok, a') →
  ∃ b', run_op o b = Some (if ok then Ok b' else Err TooLarge) ∧ (ok = false → b' = b) ∧
        refines b' a' ∧ page_no b' = page_no b.
Proof.
  intros HR Hspec. pose proof HR as [Hinv Hfree]. pose proof (inv_rep _ _ Hinv) as Hrep.
  pose proof (rep_len _ _ Hrep). destruct a as [recs free].
  destruct o as [k rec|k| |p|l]; cbn [run_op spec_op a_recs a_free] in *.
  - destruct (Nat.ltb_spec (length recs) k); [done|].
    pose proof (insert_slot_ok b recs k rec Hrep ltac:(lia)) as Hins. rewrite Hfree in Hins.
    destruct (Z.leb_spec (blen rec + SLOT_LEN) free); simplify_eq.
    + rewrite decide_True in Hins by done. destruct Hins as (b' & -> & ? & Hs & ?).
      exists b'. split_and!; [done|done| |by apply identity_field].
      split; [by eapply inv_preserved|done].
    + rewrite decide_False in Hins by lia. exists b. by rewrite Hins.
  - destruct (Nat.ltb_spec k (length recs)); simplify_eq.
    destruct (remove_slot_ok b recs k Hrep ltac:(done)) as (b' & -> & Hr' & Hs & Hfp).
    exists b'. split_and!; [done|done| |by apply identity_field].
    split; [by eapply inv_preserved|]. unfold free_space in *. cbn [a_free].
    rewrite Hfp, (rep_n _ _ Hr'), (rep_n _ _ Hrep).
    assert (blen (delete k recs) = blen recs - 1) as ->.
    { unfold blen. rewrite length_delete by (apply lookup_lt_is_Some; lia). lia. }
    pose proof (rep_dir _ _ Hrep). unfold saturating_sub. page_unfold. lia.
  - simplify_eq. destruct (compact_ok b recs Hrep) as (b' & -> & ? & Hs & ?).
    exists b'. split_and!; [done|done| |by apply identity_field].
    split; [by eapply inv_preserved|done].
  - simplify_eq. eexists. split_and!; [done|done|apply header_write_refines; [done|lia|by len]|].
    unfold page_no, set_next_leaf. page_unfold. by rd.
  - simplify_eq. eexists. split_and!; [done|done|apply header_write_refines; [done|lia|by len]|].
    unfold page_no, finalise. page_unfold. by rd.
Qed.

Lemma init_refines kd tree page : is_u16 tree → is_u32 page → refines (init kd tree page) a_init.
Proof.
  intros Ht Hp. split; [by apply init_rep|].
  destruct (init_fields kd tree page Ht Hp) as (_&_&_&_&_&Hn&Hf&_).
  unfold free_space. by rewrite Hn, Hf.
Qed.
Lemma run_ops_refines os b a a' :
  refines b a → spec_ops os a = Some a' →
  ∃ b', run_ops os b = Some b' ∧ refines b' a' ∧ page_no b' = page_no b.
Proof.
  revert b a. induction os as [|o os IH]; intros b a HR Hs; simpl in *.
  { simplify_eq. eauto. }
  destruct (spec_op o a) as [[ok a1]|] eqn:Ho; [|done]. simpl in Hs.
  destruct (run_op_refines o b a ok a1 HR Ho) as (b1 & -> & Hbad & HR1 & Hno).
  destruct (IH _ _ HR1 Hs) as (b' & Hrun & HR' & Hno').
  exists b'. split_and!; [|done|congruence]. cbn [mbind option_bind].
  destruct ok; [done|]. by rewrite Hbad in Hrun.
Qed.

Section opening.
Context `{HC : Crc32c} `{!Crc32cLaws}.

Lemma checksum_range b : blen b = PAGE_SIZE → is_u32 (checksum b).
Proof using All.
  intros. unfold checksum. pose proof (crc32c_range (slice b 0 36)).
  pose proof (crc_append_range (crc32c (slice b 0 36)) (slice b 40 (PAGE_SIZE - 40))). width.
Qed.

Lemma seal_refines b a gen : refines b a → refines (seal b gen) a.
Proof using All.
  intros HR. unfold seal.
  assert (refines (wr_u16 (wr_u64 b 24 gen) FORMAT_AT FORMAT_VERSION) a) as HR'.
  { assert (refines (wr_u64 b 24 gen) a) as [Hi Hf] by (apply header_write_refines; [done|lia|by len]).
    pose proof (rep_len _ _ (inv_rep _ _ Hi)). destruct Hi as [Hrep ? ? ? ?].
    split; [split|].
    - apply rep_header_write; [done|done|by len].
    - set (c := wr_u64 b 24 gen) in *. page_unfold. by rd.
    - set (c := wr_u64 b 24 gen) in *. page_unfold. by rd.
    - unfold format_version in *. set (c := wr_u64 b 24 gen) in *. page_unfold. by rd.
    - unfold kind in *. set (c := wr_u64 b 24 gen) in *. page_unfold. by rd.
    - rewrite <-Hf. set (c := wr_u64 b 24 gen) in *.
      unfold free_space, nentries, free_ptr. page_unfold. by rd. }
  by apply header_write_refines; [|lia|by len].
Qed.

Lemma seal_checksum b gen :
  blen b = PAGE_SIZE → rd_u32 (seal b gen) 36 = checksum (seal b gen).
Proof using All.
  intros Hb. unfold seal. set (b1 := wr_u16 _ FORMAT_AT FORMAT_VERSION).
  assert (blen b1 = PAGE_SIZE) as Hb1 by (unfold b1; page_unfold; by len).
  pose proof (checksum_range b1 Hb1) as Hr. set (c := checksum b1) in *.
  assert (checksum (wr_u32 b1 36 c) = c) as ->.
  { unfold checksum, c, checksum. page_unfold. by rd. }
  page_unfold. rd. rewrite Z.sub_diag, slice_le_bytes by done. by apply le_num_le_bytes_4.
Qed.
Lemma seal_fields b gen :
  blen b = PAGE_SIZE → is_u64 gen →
  page_no (seal b gen) = page_no b ∧ lsn (seal b gen) = gen.
Proof using.
  intros. unfold seal, page_no, lsn. generalize (checksum (wr_u16 (wr_u64 b 24 gen) FORMAT_AT FORMAT_VERSION)).
  intros c. page_unfold. rd. split; [done|]. rewrite Z.sub_diag, slice_le_bytes by done.
  by apply le_num_le_bytes_8.
Qed.

Lemma page_open_id b want b' : page_open b want = Ok b' → b' = b.
Proof using.
  unfold page_open, open_inner, bad. repeat (match goal with |- context [if ?c then _ else _] => destruct c end; try done).
  all: cbn zeta; repeat (match goal with |- context [if ?c then _ else _] => destruct c end; try done); by intros [= <-].
Qed.

(** What sealing and finalising leave alone. *)
Lemma finalise_identity b l :
  blen b = PAGE_SIZE → kind (finalise b l) = kind b ∧ tree_id (finalise b l) = tree_id b ∧
  nentries (finalise b l) = nentries b ∧ page_no (finalise b l) = page_no b.
Proof using.
  intros. unfold finalise, kind, tree_id, nentries, page_no. page_unfold. by rd.
Qed.
Lemma blen_seal b gen : blen (seal b gen) = blen b.
Proof using. unfold seal. page_unfold. by len. Qed.
Lemma seal_identity b gen :
  blen b = PAGE_SIZE → kind (seal b gen) = kind b ∧ tree_id (seal b gen) = tree_id b ∧
  nentries (seal b gen) = nentries b.
Proof using.
  intros. unfold seal, kind, tree_id, nentries.
  generalize (checksum (wr_u16 (wr_u64 b 24 gen) FORMAT_AT FORMAT_VERSION)). intros c. page_unfold. by rd.
Qed.

Lemma indices_in n i : i ∈ indices n ↔ 0 ≤ i < n.
Proof using. unfold indices. rewrite elem_of_seqZ. lia. Qed.
Lemma indices_lookup i (recs : list bytes) :
  0 ≤ i < blen recs → ∃ r, recs !! Z.to_nat i = Some r.
Proof using. intros. apply lookup_lt_is_Some. unfold blen in *. lia. Qed.

Lemma open_inv b recs v :
  page_inv b recs → (v = true → rd_u32 b 36 = checksum b) → open_inner b (page_no b) v = Ok b.
Proof using.
  intros [[Hlen Hn Hdir Hfree Hslots Htot] Hm Hv Hf [kd Hk]] Hc. unfold open_inner.
  rewrite Hlen, Hm, Hv, Hf, !Z.eqb_refl. cbn [negb].
  assert (v && negb (rd_u32 b 36 =? checksum b) = false) as ->.
  { destruct v; [|done]. by rewrite Hc, Z.eqb_refl. }

  rewrite bool_decide_false by (by rewrite Hk). cbn zeta. rewrite Hn.
  assert (PAGE_SIZE <? HEADER_LEN + blen recs * SLOT_LEN = false) as ->
    by (apply Z.ltb_ge; page_unfold; lia).
  assert ((free_ptr b <? HEADER_LEN + blen recs * SLOT_LEN) || (PAGE_SIZE <? free_ptr b) = false) as ->
    by (apply orb_false_iff; split; apply Z.ltb_ge; page_unfold; lia).
  replace (forallb _ _) with true; [done|]. symmetry. apply forallb_forall.
  intros i Hi%list_elem_of_In%indices_in.
  destruct (indices_lookup i recs Hi) as [r Hr]. apply Hslots in Hr.
  rewrite Z2Nat.id in Hr by lia. unfold slot_in_bounds, slot_holds in *.
  destruct (slot_bounds b i) as [off n']. destruct Hr as (? & ? & ? & _).
  apply negb_true_iff, orb_false_iff. split; apply Z.ltb_ge; lia.
Qed.

(** ** Building an image
    A page under construction by one owner: initialised, records pushed at the
    end, then finalised and sealed.  Headers, metadata slots and free pages are
    written this way. *)
Record built (b : bytes) (kd : PageKind) (tree no : Z) (recs : list bytes) (room : Z) : Prop := {
  built_inv : page_inv b recs;
  built_fields : kind b = Some kd ∧ tree_id b = tree ∧ page_no b = no;
  built_room : free_space b = room;
  built_ok : bytes_ok b;
}.
Lemma built_init kd tree no :
  is_u16 tree → is_u32 no → built (init kd tree no) kd tree no [] (PAGE_SIZE - HEADER_LEN).
Proof using.
  intros Ht Hn. destruct (init_refines kd tree no Ht Hn) as [Hi Hr].
  destruct (init_fields kd tree no Ht Hn) as (_&_&Hk&Hti&Hp&_).
  split; [exact Hi|split_and!; assumption|exact Hr|apply init_ok].
Qed.
Lemma built_push b kd tree no recs room rec :
  built b kd tree no recs room → blen rec + SLOT_LEN ≤ room → bytes_ok rec →
  ∃ b', insert_slot b (blen recs) rec = Some (Ok b') ∧
        built b' kd tree no (recs ++ [rec]) (room - (blen rec + SLOT_LEN)).
Proof using.
  intros [Hi (Hk & Ht & Hp) Hr Ho] Hfit Hb.
  pose proof (insert_slot_ok b recs (length recs) rec (inv_rep _ _ Hi) (le_n _)) as Hins.
  rewrite decide_True in Hins by lia. destruct Hins as (b' & Hins & Hrep & Hid & Hroom).
  exists b'. split; [exact Hins|]. rewrite firstn_all, drop_all in Hrep.
  destruct (identity_field _ _ Hid) as (_&_&_&Hk'&Hp'&Ht'&_).
  split; [by eapply inv_preserved|split_and!; congruence|lia|by eapply insert_slot_bytes].
Qed.
(** What was not fitting is refused and leaves the page as it was. *)
Lemma built_full b kd tree no recs room rec :
  built b kd tree no recs room → room < blen rec + SLOT_LEN → insert_slot b (blen recs) rec = Some (Err TooLarge).
Proof using.
  intros [Hi _ Hr _] Hfit.
  pose proof (insert_slot_ok b recs (length recs) rec (inv_rep _ _ Hi) (le_n _)) as Hins.
  by rewrite decide_False in Hins by lia.
Qed.
Lemma built_finalise b kd tree no recs room l :
  built b kd tree no recs room → built (finalise b l) kd tree no recs room.
Proof using.
  intros [Hi (Hk & Ht & Hp) Hr Ho]. pose proof (rep_len _ _ (inv_rep _ _ Hi)) as Hl.
  destruct (finalise_identity b l Hl) as (Hfk & Hft & Hfn & Hfp).
  assert (refines (finalise b l) (APage recs (free_space b))) as [Hinv Hroom].
  { apply header_write_refines; [by split|lia|by len]. }
  split; [exact Hinv|split_and!; congruence|cbn in Hroom; congruence|by apply wr_u64_ok].
Qed.
Lemma built_sealed b kd tree no recs room l gen :
  built b kd tree no recs room → is_u64 gen →
  let s := seal (finalise b l) gen in
  bytes_ok s ∧ blen s = PAGE_SIZE ∧ checksum s = rd_u32 s 36 ∧ format_version s = FORMAT_VERSION ∧
  rd_u16 s 4 = VERSION ∧ kind s = Some kd ∧ tree_id s = tree ∧ nentries s = blen recs ∧
  (∀ (i : nat) r, recs !! i = Some r → slot s (Z.of_nat i) = Some r) ∧ page_open s no = Ok s.
Proof using All.
  intros [Hi (Hk & Ht & Hp) Hr Ho] Hg s.
  assert (refines s (APage recs (free_space b))) as [Hinv _].
  { apply seal_refines, header_write_refines; [by split|lia|by len]. }
  cbn [a_recs] in Hinv. pose proof (rep_len _ _ (inv_rep _ _ Hi)) as Hl.
  assert (blen (finalise b l) = PAGE_SIZE) as Hlf by (unfold finalise, wr_u64; by len).
  destruct (finalise_identity b l Hl) as (Hfk & Hft & Hfn & Hfp).
  destruct (seal_identity (finalise b l) gen Hlf) as (Hsk & Hst & Hsn).
  destruct (seal_fields (finalise b l) gen Hlf Hg) as [Hsp _].
  pose proof (seal_checksum (finalise b l) gen Hlf) as Hc. fold s in Hsk, Hst, Hsn, Hsp, Hc.
  assert (page_no s = no) as Hno by congruence.
  split_and!; [by apply seal_ok, wr_u64_ok|apply Hinv|done|apply Hinv|apply Hinv|congruence|congruence|apply Hinv| |].
  - intros i r. apply rep_slot, Hinv.
  - unfold page_open. rewrite <-Hno. by apply (open_inv _ recs).
Qed.

(** C7: start from [init] and make any sequence of calls inside
    the page (insertions, removals, compactions, header updates).  No call
    panics; the page always shows exactly the records and the room of the
    abstract page, an insertion being refused exactly when the abstract room
    is too small; and the sealed page, read back from the medium under its
    own number, opens and shows the same records and the generation given. *)
Theorem page_session_opens kd tree page os a gen :
  is_u16 tree → is_u32 page → is_u64 gen → spec_ops os a_init = Some a →
  ∃ b, run_ops os (init kd tree page) = Some b ∧ free_space b = a_free a ∧
       page_open (seal b gen) page = Ok (seal b gen) ∧ lsn (seal b gen) = gen ∧
       mapM (slot (seal b gen)) (indices (nentries (seal b gen))) = Some (a_recs a).
Proof using All.
  intros Ht Hp Hg Hspec.
  destruct (run_ops_refines os _ _ _ (init_refines kd tree page Ht Hp) Hspec) as (b & Hrun & HR & Hno).
  destruct (init_fields kd tree page Ht Hp) as (_&_&_&_&Hpage&_&_&_). rewrite Hpage in Hno.
  exists b. split; [done|]. split; [by apply HR|].
  pose proof (seal_refines b a gen HR) as [Hsinv _].
  pose proof (rep_len _ _ (inv_rep _ _ (proj1 HR))) as Hlen.
  destruct (seal_fields b gen Hlen Hg) as [Hsno Hslsn].
  split_and!; [|done|by apply rep_snapshot, inv_rep].
  unfold page_open. rewrite <-Hno, <-Hsno at 1. apply open_inv with (a_recs a); [done|].
  intros _. by apply seal_checksum.
Qed.

Lemma rd_u16_range b at_ : bytes_ok b → is_u16 (rd_u16 b at_).
Proof using.
  intros Hb. pose proof (le_num_bound (slice b at_ 2) (bytes_ok_slice _ _ _ Hb)) as H2.
  pose proof (blen_slice_le b at_ 2). pose proof (blen_nonneg (slice b at_ 2)).
  pose proof (Z.pow_le_mono_r 256 (blen (slice b at_ 2)) 2). unfold rd_u16, u16_max. lia.
Qed.

End opening.

#[local] Existing Instance crc32c_reference.
#[local] Existing Instance crc32c_reference_laws.

(** Three records in, the middle one out, compacted, under the reference CRC. *)
Lemma page_session_opens_witness :
  let os := [Insert 0 [1;2;3]; Insert 0 [9]; Insert 1 [5;5]; SetNext 7; Remove 1; Compact; Finalise 0] in
  spec_ops os a_init = Some (APage [[9]; [1;2;3]] 4044) ∧
  ∃ b, run_ops os (init Leaf 3 12) = Some b ∧ free_space b = 4044 ∧
       page_open (seal b 77) 12 = Ok (seal b 77) ∧ lsn (seal b 77) = 77 ∧
       mapM (slot (seal b 77)) (indices (nentries (seal b 77))) = Some [[9]; [1;2;3]].
Proof.
  split; [reflexivity|].
  apply (page_session_opens Leaf 3 12 _ (APage [[9]; [1;2;3]] 4044) 77);
    [width|width|width|reflexivity].
Defined.

Definition sample_page : bytes := seal (init Leaf 3 12) 77.
End Page.
