(* ===== verification/Disk.v ===== *)
(** * Files ([core/kernel/src/io.rs], trait [FileIo])

    A file is its bytes and a set of byte ranges whose reads fail: the device
    error the log and the store must never take for an answer about content.
    Reads are exact ([read_exact_at]: a range past the end is an error), writes
    past the end extend with zeros, [set_len] truncates or extends with zeros.
    Writes and barriers succeed in the model; what a crash leaves of them is
    stated by the theorems of the logs. *)
From S2P Require Import Prelude.

Record File := mkFile { data : bytes; faulty : Z → Z → bool }.
Definition no_fault : Z → Z → bool := λ _ _, false.
Definition healthy (b : bytes) : File := mkFile b no_fault.
Definition file_len (f : File) : Z := blen (data f).

Definition read_at (f : File) (off n : Z) : result error bytes :=
  if faulty f off n then Err (Io "device read failed")
  else if off + n <=? file_len f then Ok (slice (data f) off n)
  else Err (Io "failed to fill whole buffer").
(** The bytes after writing [src] at [off]. *)
Definition overwrite (b : bytes) (off : Z) (src : bytes) : bytes :=
  take (Z.to_nat off) (b ++ zeros (off - blen b)) ++ src ++ drop (Z.to_nat off + length src) b.
Definition resize (b : bytes) (n : Z) : bytes :=
  take (Z.to_nat n) b ++ zeros (n - blen b).
Definition write_at (f : File) (src : bytes) (off : Z) : File := mkFile (overwrite (data f) off src) (faulty f).
Definition set_len (f : File) (n : Z) : File := mkFile (resize (data f) n) (faulty f).

Lemma zeros_neg n : n ≤ 0 → zeros n = [].
Proof. intros. unfold zeros. by replace (Z.to_nat n) with 0%nat by lia. Qed.
Lemma blen_zeros_max n : blen (zeros n) = Z.max 0 n.
Proof. unfold zeros, blen. rewrite length_replicate. lia. Qed.
Lemma zeros_plus n m : 0 ≤ n → 0 ≤ m → zeros (n + m) = zeros n ++ zeros m.
Proof. intros. unfold zeros. rewrite Z2Nat.inj_add by done. apply replicate_add. Qed.

Lemma overwrite_end b src : overwrite b (blen b) src = b ++ src.
Proof.
  unfold overwrite. rewrite Z.sub_diag, zeros_neg, app_nil_r by done.
  unfold blen. rewrite Nat2Z.id, firstn_all, drop_ge by lia. by rewrite app_nil_r.
Qed.
Lemma overwrite_inside b off src :
  0 ≤ off → off + blen src ≤ blen b → overwrite b off src = splice b off src.
Proof.
  intros. pose proof (blen_nonneg src). unfold overwrite, splice.
  rewrite zeros_neg, app_nil_r by lia. rewrite (take_ge src) by (unfold blen in *; lia). done.
Qed.
Lemma resize_shorter b n : n ≤ blen b → resize b n = take (Z.to_nat n) b.
Proof. intros. unfold resize. by rewrite zeros_neg, app_nil_r by lia. Qed.
Lemma resize_longer b n : blen b ≤ n → resize b n = b ++ zeros (n - blen b).
Proof. intros. unfold resize. rewrite take_ge by (unfold blen in *; lia). done. Qed.
Lemma resize_app a b : resize (a ++ b) (blen a) = a.
Proof.
  pose proof (blen_nonneg b). rewrite resize_shorter by (rewrite blen_app; lia).
  unfold blen. rewrite Nat2Z.id. by rewrite take_app_length.
Qed.
Lemma blen_resize b n : 0 ≤ n → blen (resize b n) = n.
Proof.
  intros. unfold resize. rewrite blen_app, blen_zeros_max. unfold blen. rewrite length_take. lia.
Qed.
(** What an append over a torn tail leaves: the tail's remains lie behind it. *)
Lemma overwrite_app a t src :
  overwrite (a ++ t) (blen a) src = a ++ src ++ drop (length src) t.
Proof.
  unfold overwrite. pose proof (blen_nonneg t).
  rewrite zeros_neg, app_nil_r by (rewrite blen_app; lia).
  unfold blen. rewrite Nat2Z.id, take_app_length. do 2 f_equal.
  by rewrite drop_app_add.
Qed.

Lemma read_at_ok f off n :
  faulty f off n = false → off + n ≤ file_len f → read_at f off n = Ok (slice (data f) off n).
Proof. intros Hf ?. unfold read_at. by rewrite Hf, (proj2 (Z.leb_le _ _)). Qed.
Lemma read_healthy b off n : off + n ≤ blen b → read_at (healthy b) off n = Ok (slice b off n).
Proof. intros. by apply read_at_ok. Qed.
Lemma read_at_Ok f off n r :
  read_at f off n = Ok r → r = slice (data f) off n ∧ off + n ≤ file_len f.
Proof.
  unfold read_at. destruct (faulty f off n); [done|].
  destruct (Z.leb_spec (off + n) (file_len f)); [|done]. naive_solver.
Qed.
(** A read that succeeds gives what a healthy device would give. *)
Lemma read_at_perfect f off n r :
  read_at f off n = Ok r → read_at (healthy (data f)) off n = Ok r.
Proof. intros [-> ?]%read_at_Ok. by apply read_healthy. Qed.
Arguments resize : simpl never.
Arguments overwrite : simpl never.
