(* ===== verification/Meta.v ===== *)
(** * The kernel's superblock and reader table
    ([core/kernel/src/meta.rs], the slot codec and scan of
    [core/kernel/src/readers.rs])

    The superblock lives in two slots, pages 0 and 1; the publication of
    generation [g] writes page [g mod 2], so it only ever replaces the slot of
    [g - 1].  The pool is read through ([get]: the page at its offset, opened
    with its checksum) and its write-back is [seal] with the pool's stamp.
    A reader slot is two identical 24-byte frames; what cannot be verified
    counts as generation zero. *)
From S2P Require Import Prelude Crc Disk Limits Page.
Import Page.

Module Meta.

Definition META_PAGE : Z := 0.
Definition META_PAGE_B : Z := 1.
Definition MAX_TREES : Z := 8.
Definition SUPPORTED_FORMAT_VERSION : Z := 2.
Definition FUTURE_FORMAT : string := "database format version 3+ is newer than this engine reads; open it with the engine version that created it".
Definition ZERO_FORMAT : string := "database format version 0 is not one this engine writes".
Definition LIMITED : Z := 32768.
Definition SALVAGED : bytes := ascii_bytes "sekejap-salvaged-v1".

Record Meta := mkMeta { m_version : Z; roots : list Z; next_lsn : Z; generation : Z }.
#[global] Instance Meta_eq_dec : EqDecision Meta.
Proof. solve_decision. Defined.

Definition corrupt {A} (no : Z) (why : string) : result error A := Err (Corrupt no why).
(** The bytes [b..b+8] of a record as an optional trailing field. *)
Definition trailing (rec : bytes) (at_ : Z) : Z := if at_ + 8 <=? blen rec then le_num (slice rec at_ 8) else 0.

Section meta.
Context `{Crc32c}.

(** [format_version | LIMITED] when the pool has a resource policy. *)
Definition stamped (v : Z) (limits : option Limits.ResourceLimits) : Z :=
  match limits with Some _ => Z.lor v LIMITED | None => v end.
Definition record (m : Meta) (limits : option Limits.ResourceLimits) : bytes :=
  le_bytes 2 (stamped (m_version m) limits) ++ concat (map (le_bytes 4) (roots m))
  ++ le_bytes 8 (next_lsn m) ++ le_bytes 8 (generation m).

(** The page [write_record] leaves, finalised whether or not the inserts
    succeeded, and its result; [None] is a panic. *)
Definition write_record (limits : option Limits.ResourceLimits) (rec : bytes) (slot_ : Z) : option (bytes * result error unit) :=
  let p := init Page.Meta 0 slot_ in
  r ← insert_slot p 0 rec;
  match r with
  | Err e => Some (finalise p 0, Err e)
  | Ok p =>
      match limits with
      | None => Some (finalise p 0, Ok tt)
      | Some l =>
          r ← insert_slot p 1 (Limits.encode l);
          match r with
          | Err e => Some (finalise p 0, Err e)
          | Ok p => Some (finalise p 0, Ok tt)
          end
      end
  end.
Definition write (m : Meta) (limits : option Limits.ResourceLimits) : option (bytes * result error unit) :=
  write_record limits (record m limits) META_PAGE.
Definition slot_of (m : Meta) : Z := if generation m mod 2 =? 0 then META_PAGE else META_PAGE_B.
Definition write_slot (m : Meta) (limits : option Limits.ResourceLimits) : option (bytes * result error unit) :=
  write_record limits (record m limits) (slot_of m).
Definition init_slot_b : bytes := finalise (init Page.Meta 0 META_PAGE_B) 0.

Definition slot_at (b : bytes) (i : Z) : bytes := default [] (slot b i).
Definition from_page (b : bytes) : result error Meta :=
  let no := page_no b in
  if nentries b =? 0 then corrupt no "meta page has no slots" else
  let rec := slot_at b 0 in
  if blen rec <? 2 then corrupt no "meta record too short for format_version" else
  let fv := le_num (slice rec 0 2) in
  let base_version := Z.ldiff fv LIMITED in
  if (base_version =? 0) || (SUPPORTED_FORMAT_VERSION <? base_version)
  then corrupt no (if base_version =? 0 then ZERO_FORMAT else FUTURE_FORMAT) else
  if (1 <? nentries b) && (negb (nentries b =? 2)
        || (negb (bool_decide (slot_at b 1 = SALVAGED)) && negb (is_ok (Limits.decode (slot_at b 1)))))
  then corrupt no "invalid meta extension" else
  let base := 2 + MAX_TREES * 4 in
  if blen rec <? base then corrupt no "meta record too short for format_version and roots" else
  let roots_ := map (λ i, le_num (slice rec (2 + i * 4) 4)) (seqZ 0 MAX_TREES) in
  let next_lsn_ := trailing rec base in
  let generation_ := trailing rec (base + 8) in
  let* _ :=
    (if negb (Z.land fv LIMITED =? 0) then
       if negb (nentries b =? 2) then corrupt no "missing resource policy"
       else rmap (λ _, tt) (Limits.decode (slot_at b 1))
     else Ok tt) in
  if (Z.land fv LIMITED =? 0) && (nentries b =? 2) && negb (bool_decide (slot_at b 1 = SALVAGED))
  then corrupt no "resource policy without required format flag"
  else Ok (mkMeta fv roots_ next_lsn_ generation_).

(** The buffer pool's read of a page, uncached. *)
Definition get (f : File) (no : Z) : result error bytes :=
  let* b := read_at f (no * PAGE_SIZE) PAGE_SIZE in page_open b no.
Definition why_is (e : error) (w : string) : bool :=
  match e with Corrupt _ why => bool_decide (why = w) | _ => false end.
Definition read_slot (f : File) (no : Z) : result error Meta :=
  let* r :=
    (match get f no with
     | Err e =>
         if why_is e "unknown format version" then
           let* b := read_at f (no * PAGE_SIZE) PAGE_SIZE in
           corrupt no (if checksum b =? rd_u32 b 36 then "unknown format version" else "checksum mismatch")
         else Err e
     | Ok b => Ok b
     end) in
  let* p := open_resident r no in
  if negb (bool_decide (kind p = Some Page.Meta)) then corrupt no "slot is not a meta page" else from_page p.
(** What refuses the whole file, whichever slot it comes from. *)
Definition refuses (r : result error Meta) : option error :=
  match r with
  | Err (UnsupportedFormat v) => Some (UnsupportedFormat v)
  | Err (Corrupt no why) =>
      if bool_decide (why = FUTURE_FORMAT) || bool_decide (why = ZERO_FORMAT) || bool_decide (why = "unknown format version"%string)
      then Some (Corrupt no why) else None
  | _ => None
  end.
Definition read_latest (f : File) : result error Meta :=
  let a := read_slot f META_PAGE in
  let b := read_slot f META_PAGE_B in
  match refuses a, refuses b with
  | Some e, _ | None, Some e => Err e
  | None, None =>
      if (match b with Err e => why_is e "slot is not a meta page" | Ok _ => false end)
      then corrupt META_PAGE_B "page 1 is not a meta slot: pre-2f file layout, rebuild via bulk load" else
      match a, b with
      | Ok a, Ok b => Ok (if generation b <=? generation a then a else b)
      | Ok a, Err _ => Ok a
      | Err _, Ok b => Ok b
      | Err e, Err _ => Err e
      end
  end.
Definition read (f : File) : result error Meta :=
  let* r := get f META_PAGE in
  let* p := open_resident r META_PAGE in from_page p.
Definition read_limits (f : File) : result error (option Limits.ResourceLimits) :=
  let* meta := read_latest f in
  if Z.land (m_version meta) LIMITED =? 0 then Ok None else
  let no := generation meta mod 2 in
  let* r := get f no in
  let* p := open_resident r no in
  rmap Some (Limits.decode (slot_at p 1)).

(** The salvaged marker is a second slot of page 0. *)
Definition mark_salvaged (b : bytes) : option (result error bytes) :=
  r ← insert_slot b 1 SALVAGED;
  match r with Err e => Some (Err e) | Ok p => Some (Ok (finalise p 0)) end.
Definition is_salvaged (f : File) : result error bool :=
  let* r := get f META_PAGE in
  let* p := open_resident r META_PAGE in
  let* m := from_page p in
  Ok ((generation m =? 0) && (nentries p =? 2) && bool_decide (slot_at p 1 = SALVAGED)).
End meta.

(** * What the slots hold *)
Record mwf (m : Meta) : Prop := {
  mwf_version : m_version m = 1 ∨ m_version m = 2;
  mwf_roots : length (roots m) = 8%nat ∧ Forall (λ x, is_u32 x) (roots m);
  mwf_lsn : is_u64 (next_lsn m);
  mwf_generation : is_u64 (generation m);
}.
Definition policy_ok (limits : option Limits.ResourceLimits) : Prop :=
  match limits with Some l => Limits.wf l ∧ Limits.sane l | None => True end.
(** The superblock as it reads back. *)
Definition as_read (m : Meta) (limits : option Limits.ResourceLimits) : Meta :=
  mkMeta (stamped (m_version m) limits) (roots m) (next_lsn m) (generation m).

Section slots.
Context `{HC : Crc32c} {HL : Crc32cLaws}.

Lemma stamped_facts v limits :
  v = 1 ∨ v = 2 → is_u16 (stamped v limits) ∧ Z.ldiff (stamped v limits) LIMITED = v ∧
    (Z.land (stamped v limits) LIMITED =? 0) = match limits with Some _ => false | None => true end.
Proof using. intros [->| ->]; destruct limits; vm_compute; split_and!; try done; split; discriminate. Qed.
Lemma blen_roots m : mwf m → blen (concat (map (le_bytes 4) (roots m))) = 32.
Proof using.
  intros [_ [Hl _] _ _]. destruct (roots m) as [|a [|b [|c [|d [|e [|f [|g [|h [|i l]]]]]]]]]; try discriminate Hl.
  cbn [map concat]. by rewrite !blen_app, !blen_le_bytes, blen_nil.
Qed.
Lemma blen_record m limits : mwf m → blen (record m limits) = 50.
Proof using. intros Hm. unfold record. rewrite !blen_app, !blen_le_bytes, blen_roots by done. lia. Qed.
Lemma concat_le_ok l : bytes_ok (concat (map (le_bytes 4) l)).
Proof using. induction l as [|x l IH]; [constructor|]. cbn [map concat]. apply bytes_ok_app. split; [auto with skj|done]. Qed.
Lemma record_ok m limits : bytes_ok (record m limits).
Proof using. unfold record. repeat (apply bytes_ok_app; split); auto using concat_le_ok with skj. Qed.
Lemma map_seqZ_succ {B} (g : Z → B) n : map g (seqZ 1 n) = map (λ i, g (1 + i)) (seqZ 0 n).
Proof using.
  change (seqZ 1 n) with (seqZ (1 + 0) n). rewrite <-(fmap_add_seqZ 1 0 n). change (g <$> (Z.add 1 <$> seqZ 0 n) = (g ∘ Z.add 1) <$> seqZ 0 n).
  by rewrite list_fmap_compose.
Qed.
Lemma roots_back l : Forall (λ x, is_u32 x) l → ∀ pre post,
  map (λ i, le_num (slice (pre ++ concat (map (le_bytes 4) l) ++ post) (blen pre + i * 4) 4)) (seqZ 0 (blen l)) = l.
Proof using.
  induction 1 as [|x l Hx _ IH]; intros pre post; [done|]. rewrite blen_cons. pose proof (blen_nonneg l).
  rewrite seqZ_cons by lia. cbn [map]. f_equal.
  - pose proof (blen_nonneg pre). rewrite slice_app_r, Z.mul_0_l, Z.add_0_r, Z.sub_diag by lia.
    cbn [concat]. rewrite <-app_assoc, slice_app_exact by by rewrite blen_le_bytes. apply le_num_le_bytes. width.
  - replace (Z.pred (1 + blen l)) with (blen l) by lia. change (Z.succ 0) with 1. rewrite map_seqZ_succ.
    specialize (IH (pre ++ le_bytes 4 x) post). rewrite <-IH at 2. apply map_ext. intros i. cbn [concat]. rewrite <-!app_assoc, blen_app, blen_le_bytes.
    do 2 f_equal. lia.
Qed.

Lemma from_page_ok b m limits ext :
  mwf m → nentries b = blen (record m limits :: ext) →
  (∀ (i : nat) r, (record m limits :: ext) !! i = Some r → slot b (Z.of_nat i) = Some r) →
  match limits with Some l => ext = [Limits.encode l] ∧ Limits.decode (Limits.encode l) = Ok l
                  | None => ext = [] ∨ ext = [SALVAGED] end →
  from_page b = Ok (as_read m limits).
Proof using.
  intros Hm Hn Hs Hext. pose proof Hm as [Hv [Hlen Hr] Hl Hg]. destruct (stamped_facts (m_version m) limits Hv) as (Hu & Hbase & Hflag).
  pose proof (Hs 0%nat _ eq_refl) as Hs0. change (Z.of_nat 0) with 0 in Hs0.
  assert (∀ c, ext = [c] → slot_at b 1 = c) as Hs1.
  { intros c ->. unfold slot_at. pose proof (Hs 1%nat c eq_refl) as E. change (Z.of_nat 1) with 1 in E. by rewrite E. }
  unfold from_page. cbn zeta. assert (slot_at b 0 = record m limits) as -> by (unfold slot_at; by rewrite Hs0).
  pose proof (blen_record m limits Hm) as Hb. rewrite Hb, Hn. cbn [Z.ltb Z.compare].
  rewrite blen_cons. pose proof (blen_nonneg ext). rewrite (proj2 (Z.eqb_neq _ _)) by lia.
  assert (le_num (slice (record m limits) 0 2) = stamped (m_version m) limits) as Hfv.
  { unfold record. rewrite slice_app_exact by by rewrite blen_le_bytes. apply le_num_le_bytes. width. }
  rewrite !Hfv, !Hbase.
  assert ((m_version m =? 0) || (SUPPORTED_FORMAT_VERSION <? m_version m) = false) as -> by (destruct Hv as [-> | ->]; done).
  change (50 <? 2) with false. change (50 <? 2 + MAX_TREES * 4) with false. cbn iota.
  assert (map (λ i, le_num (slice (record m limits) (2 + i * 4) 4)) (seqZ 0 MAX_TREES) = roots m) as ->.
  { pose proof (roots_back (roots m) Hr (le_bytes 2 (stamped (m_version m) limits)) (le_bytes 8 (next_lsn m) ++ le_bytes 8 (generation m))) as E.
    rewrite blen_le_bytes in E. unfold blen in E. rewrite Hlen in E. exact E. }
  assert (trailing (record m limits) (2 + MAX_TREES * 4) = next_lsn m) as ->.
  { unfold trailing. rewrite Hb. change (2 + MAX_TREES * 4 + 8 <=? 50) with true. cbn iota. unfold record.
    rewrite slice_app_r, blen_le_bytes by (rewrite blen_le_bytes; done).
    rewrite slice_app_r, blen_roots by (rewrite ?blen_roots by done; done).
    rewrite slice_app_exact by by rewrite blen_le_bytes. apply le_num_le_bytes. width. }
  assert (trailing (record m limits) (2 + MAX_TREES * 4 + 8) = generation m) as ->.
  { unfold trailing. rewrite Hb. change (2 + MAX_TREES * 4 + 8 + 8 <=? 50) with true. cbn iota. unfold record.
    rewrite slice_app_r, blen_le_bytes by (rewrite blen_le_bytes; done).
    rewrite slice_app_r, blen_roots by (rewrite ?blen_roots by done; done).
    rewrite slice_app_r, blen_le_bytes by (rewrite blen_le_bytes; done).
    rewrite slice_whole by (rewrite ?blen_le_bytes; done). apply le_num_le_bytes. width. }
  rewrite !Hflag. destruct limits as [l|].
  - destruct Hext as [-> Hdec]. rewrite !(Hs1 _ eq_refl), Hdec. change (1 + blen [Limits.encode l]) with 2.
    cbn [Z.ltb Z.compare Pos.compare Pos.compare_cont Z.eqb Pos.eqb negb orb andb is_ok rmap]. rewrite andb_false_r. reflexivity.
  - destruct Hext as [->| ->]; [reflexivity|]. rewrite !(Hs1 _ eq_refl), bool_decide_true by done. reflexivity.
Qed.

(** A slot page whose bytes verify and hold the superblock [m]. *)
Definition slot_image (x : bytes) (no : Z) (m : Meta) : Prop :=
  bytes_ok x ∧ blen x = PAGE_SIZE ∧ checksum x = rd_u32 x 36 ∧ page_open x no = Ok x ∧ kind x = Some Page.Meta ∧ from_page x = Ok m.

Lemma limits_decode l : Limits.wf l → Limits.sane l → Limits.decode (Limits.encode l) = Ok l.
Proof using. intros Hw Hs. by apply Limits.decode_encode. Qed.

(** The inserts always fit; with room to spare for the salvage marker. *)
Lemma write_record_ok m limits no :
  mwf m → policy_ok limits → is_u32 no →
  ∃ p ext room, write_record limits (record m limits) no = Some (finalise p 0, Ok tt) ∧
    built p Page.Meta 0 no (record m limits :: ext) room ∧ 1000 ≤ room ∧
    match limits with Some l => ext = [Limits.encode l] | None => ext = [] end.
Proof using HL.
  intros Hm Hlim Hno. unfold write_record. pose proof (built_init Page.Meta 0 no ltac:(width) Hno) as Hb0.
  assert (PAGE_SIZE = 4096 ∧ HEADER_LEN = 40 ∧ SLOT_LEN = 4) as (EP & EH & ES) by done. pose proof (blen_record m limits Hm) as Hl.
  destruct (built_push _ _ _ _ _ _ (record m limits) Hb0) as (p1 & Hi1 & Hb1); [lia|apply record_ok|].
  change (blen []) with 0 in Hi1. rewrite Hi1. cbn [mbind option_bind].
  destruct limits as [l|].
  - destruct (built_push _ _ _ _ _ _ (Limits.encode l) Hb1) as (p2 & Hi2 & Hb2);
      [rewrite Limits.blen_encode; lia|apply Limits.encode_ok|].
    cbn [app] in Hi2, Hb2. change (blen [record m (Some l)]) with 1 in Hi2. rewrite Hi2. cbn [mbind option_bind].
    eexists p2, _, _. split; [reflexivity|]. split; [exact Hb2|]. split; [rewrite Limits.blen_encode; lia|done].
  - eexists p1, _, _. split; [reflexivity|]. split; [exact Hb1|]. split; [lia|done].
Qed.
Lemma built_slot_image p no m limits ext room gen l :
  mwf m → policy_ok limits → built p Page.Meta 0 no (record m limits :: ext) room → is_u64 gen →
  match limits with Some l => ext = [Limits.encode l] | None => ext = [] ∨ ext = [SALVAGED] end →
  let s := seal (finalise p l) gen in
  slot_image s no (as_read m limits) ∧ nentries s = 1 + blen ext ∧
  (∀ c, ext = [c] → slot_at s 1 = c).
Proof using HL.
  intros Hm Hlim Hb Hg Hext s. destruct (built_sealed _ _ _ _ _ _ l gen Hb Hg) as (Hok&Hlen&Hc&_&_&Hk&_&Hn&Hs&Ho).
  fold s in Hok, Hlen, Hc, Hk, Hn, Hs, Ho. rewrite blen_cons in Hn. split_and!; [|done|].
  - split_and!; try assumption. apply (from_page_ok s m limits ext Hm); [by rewrite blen_cons|exact Hs|].
    destruct limits as [li|]; [|done]. split; [done|]. destruct Hlim. by apply limits_decode.
  - intros c ->. unfold slot_at. pose proof (Hs 1%nat c eq_refl) as E. change (Z.of_nat 1) with 1 in E. by rewrite E.
Qed.

Lemma open_resident_ok x no : page_open x no = Ok x → open_resident x no = Ok x.
Proof using.
  unfold page_open, open_resident, open_inner, Page.bad. cbn [andb].
  repeat (match goal with |- context [if ?c then _ else _] => destruct c end; try done).
Qed.

Definition slot_bytes (b : bytes) (no : Z) : bytes := slice b (no * PAGE_SIZE) PAGE_SIZE.
Lemma read_slot_at b no :
  0 ≤ no ≤ 1 → 2 * PAGE_SIZE ≤ blen b → read_at (healthy b) (no * PAGE_SIZE) PAGE_SIZE = Ok (slot_bytes b no).
Proof using. intros. apply read_healthy. unfold PAGE_SIZE in *. lia. Qed.
Lemma read_slot_image b no m :
  0 ≤ no ≤ 1 → 2 * PAGE_SIZE ≤ blen b → slot_image (slot_bytes b no) no m → read_slot (healthy b) no = Ok m.
Proof using.
  intros Hn Hb (_ & Hl & Hc & Ho & Hk & Hf). unfold read_slot, get. rewrite read_slot_at by done. cbn [rbind].
  rewrite Ho. cbn [rbind]. rewrite open_resident_ok by done. cbn [rbind]. by rewrite bool_decide_true.
Qed.
(** A slot whose write was torn fails its checksum, or does not even look like
    a page; it is never what refuses the file. *)
Definition torn (x : bytes) : Prop := blen x = PAGE_SIZE ∧ checksum x ≠ rd_u32 x 36.
Lemma read_slot_torn b no :
  0 ≤ no ≤ 1 → 2 * PAGE_SIZE ≤ blen b → torn (slot_bytes b no) →
  ∃ e, read_slot (healthy b) no = Err e ∧ refuses (Err e) = None ∧ why_is e "slot is not a meta page" = false.
Proof using.
  intros Hn Hb [Hl Hc]. unfold read_slot, get. rewrite !read_slot_at by done. cbn [rbind].
  set (x := slot_bytes b no) in *. unfold page_open, open_inner. rewrite Hl, Z.eqb_refl. cbn [negb].
  destruct (negb (rd_u32 x 0 =? PAGE_MAGIC)); [by eexists|].
  rewrite (proj2 (Z.eqb_neq (checksum x) _)) by done.
  destruct (negb (rd_u16 x 4 =? VERSION)); [by eexists|].
  rewrite (proj2 (Z.eqb_neq _ (checksum x))) by congruence. cbn [andb negb]. by eexists.
Qed.

Lemma slot_bytes_same b no x :
  0 ≤ no ≤ 1 → 2 * PAGE_SIZE ≤ blen b → blen x = PAGE_SIZE → slot_bytes (splice b (no * PAGE_SIZE) x) no = x.
Proof using.
  intros ?? Hx. unfold slot_bytes. pose proof (slice_splice_same b (no * PAGE_SIZE) x) as E. rewrite Hx in E.
  apply E; unfold PAGE_SIZE in *; lia.
Qed.
Lemma slot_bytes_other b no no' x :
  0 ≤ no ≤ 1 → 0 ≤ no' ≤ 1 → no' ≠ no → 2 * PAGE_SIZE ≤ blen b → blen x = PAGE_SIZE →
  slot_bytes (splice b (no * PAGE_SIZE) x) no' = slot_bytes b no'.
Proof using. intros. unfold slot_bytes. apply slice_splice_other; unfold PAGE_SIZE in *; lia. Qed.
(** [read_slot] looks at its own slot only. *)
Lemma read_slot_same b b' no :
  0 ≤ no ≤ 1 → 2 * PAGE_SIZE ≤ blen b → 2 * PAGE_SIZE ≤ blen b' → slot_bytes b no = slot_bytes b' no →
  read_slot (healthy b) no = read_slot (healthy b') no.
Proof using. intros Hn Hb Hb' E. unfold read_slot, get. by rewrite !read_slot_at, E by done. Qed.
Lemma slot_of_range m : 0 ≤ slot_of m ≤ 1.
Proof using. unfold slot_of, META_PAGE, META_PAGE_B. destruct (_ =? 0); lia. Qed.
Lemma slot_of_next m m' : generation m' = generation m + 1 → slot_of m' = 1 - slot_of m.
Proof using.
  intros E. unfold slot_of, META_PAGE, META_PAGE_B. rewrite E.
  pose proof (Z.mod_pos_bound (generation m) 2 ltac:(lia)). pose proof (Z.mod_pos_bound (generation m + 1) 2 ltac:(lia)).
  rewrite <-Z.add_mod_idemp_l by lia. destruct (Z.eqb_spec (generation m mod 2) 0) as [->|]; [done|].
  by replace (generation m mod 2) with 1 by lia.
Qed.

(** What [read_latest] decides, by the newest slot and its sibling. *)
Definition harmless (r : result error Meta) : Prop :=
  ∃ e, r = Err e ∧ refuses (Err e) = None ∧ why_is e "slot is not a meta page" = false.
Lemma read_latest_pick f a m :
  0 ≤ a ≤ 1 → read_slot f a = Ok m →
  harmless (read_slot f (1 - a)) ∨ (∃ o, read_slot f (1 - a) = Ok o ∧ generation o < generation m) →
  read_latest f = Ok m.
Proof using.
  intros Ha Hm Ho. unfold read_latest, META_PAGE, META_PAGE_B.
  destruct (decide (a = 0)) as [->|]; [change (1 - 0) with 1 in Ho|assert (a = 1) as -> by lia; change (1 - 1) with 0 in Ho].
  - rewrite Hm. destruct Ho as [(e & -> & Hr & Hw)|(o & -> & Hlt)]; [by rewrite Hr, Hw|].
    cbn [refuses]. by rewrite (proj2 (Z.leb_le _ _)) by lia.
  - rewrite Hm. destruct Ho as [(e & -> & Hr & Hw)|(o & -> & Hlt)]; [by rewrite Hr|].
    cbn [refuses]. by rewrite (proj2 (Z.leb_gt _ _)) by lia.
Qed.

(** C22: publishing a superblock is crash safe.  The publication of
    generation [g + 1] fits its page and writes the slot that does not hold
    generation [g].  If the write never happened or left a torn page, opening
    still finds generation [g]; once it completed, opening finds the new
    superblock, with its resource policy. *)
Theorem meta_flip_crash_safe b m m' limits gen :
  2 * PAGE_SIZE ≤ blen b → read_latest (healthy b) = Ok m → read_slot (healthy b) (slot_of m) = Ok m →
  mwf m' → policy_ok limits → generation m' = generation m + 1 → is_u64 gen →
  ∃ p, write_slot m' limits = Some (p, Ok tt) ∧
    let at_ := slot_of m' * PAGE_SIZE in
    (∀ x, torn x → read_latest (healthy (splice b at_ x)) = Ok m) ∧
    read_latest (healthy (splice b at_ (seal p gen))) = Ok (as_read m' limits) ∧
    read_limits (healthy (splice b at_ (seal p gen))) = Ok limits.
Proof using HL.
  intros Hb Hlat Hm Hm' Hlim Hgen Hu. pose proof (slot_of_range m) as Hr. pose proof (slot_of_range m') as Hr'.
  pose proof (slot_of_next m m' Hgen) as Hs.
  destruct (write_record_ok m' limits (slot_of m') Hm' Hlim ltac:(width)) as (p & ext & room & Hw & Hbuilt & _ & Hext).
  exists (finalise p 0). split; [exact Hw|]. cbn zeta.
  destruct (built_slot_image p (slot_of m') m' limits ext room gen 0 Hm' Hlim Hbuilt Hu) as (Himg & Hn & Hslot).
  { destruct limits; [exact Hext|by left]. }
  set (q := seal (finalise p 0) gen) in *. assert (blen q = PAGE_SIZE) as Hq by apply Himg.
  assert (∀ x, blen x = PAGE_SIZE → read_slot (healthy (splice b (slot_of m' * PAGE_SIZE) x)) (slot_of m) = Ok m) as Hkeep.
  { intros x Hx. rewrite <-Hm. apply read_slot_same; [done|by rewrite blen_splice|done|]. apply slot_bytes_other; first [assumption|lia]. }
  assert (read_latest (healthy (splice b (slot_of m' * PAGE_SIZE) q)) = Ok (as_read m' limits)) as Hnew.
  { apply (read_latest_pick _ (slot_of m')); [done| |].
    - apply read_slot_image; [exact Hr'|by rewrite blen_splice|]. by rewrite slot_bytes_same by assumption.
    - right. exists m. replace (1 - slot_of m') with (slot_of m) by lia. split; [by apply Hkeep|].
      cbn [as_read generation]. lia. }
  split_and!; [|exact Hnew|].
  - intros x Hx. apply (read_latest_pick _ (slot_of m)); [done|apply Hkeep, Hx|]. left. rewrite <-Hs.
    apply read_slot_torn; [done|by rewrite blen_splice|]. rewrite slot_bytes_same by first [assumption|apply Hx]. exact Hx.
  - unfold read_limits. rewrite Hnew. cbn [rbind as_read m_version generation].
    pose proof (mwf_version _ Hm') as Hv. destruct (stamped_facts (m_version m') limits Hv) as (_ & _ & ->).
    destruct limits as [l|]; [|done].
    assert (generation m' mod 2 = slot_of m') as ->.
    { unfold slot_of, META_PAGE, META_PAGE_B. pose proof (Z.mod_pos_bound (generation m') 2 ltac:(lia)).
      destruct (Z.eqb_spec (generation m' mod 2) 0); lia. }
    unfold get. rewrite read_slot_at by (rewrite ?blen_splice; done). cbn [rbind]. rewrite slot_bytes_same by assumption.
    destruct Himg as (_ & _ & _ & Ho & _). rewrite Ho. cbn [rbind]. rewrite open_resident_ok by done. cbn [rbind].
    rewrite (Hslot _ Hext). destruct Hlim. by rewrite limits_decode.
Qed.

(** C23: an intact slot this engine does not understand refuses the
    database.  A page of either slot whose magic and checksum verify, but whose
    page layout version, disk format or logical superblock version is not one
    this engine reads, makes the open fail, whatever the sibling slot holds: a
    newer publication is never mistaken for damage. *)
Theorem meta_never_hides_newer_format b no :
  0 ≤ no ≤ 1 → 2 * PAGE_SIZE ≤ blen b →
  let x := slot_bytes b no in
  rd_u32 x 0 = PAGE_MAGIC → checksum x = rd_u32 x 36 →
  rd_u16 x 4 ≠ VERSION ∨ format_version x ≠ FORMAT_VERSION ∨
    (page_open x no = Ok x ∧ kind x = Some Page.Meta ∧ nentries x ≠ 0 ∧ 2 ≤ blen (slot_at x 0) ∧
     (let v := Z.ldiff (le_num (slice (slot_at x 0) 0 2)) LIMITED in v = 0 ∨ SUPPORTED_FORMAT_VERSION < v)) →
  ∃ e, read_latest (healthy b) = Err e ∧ is_Some (refuses (Err e)).
Proof using.
  intros Hn Hb x Hmag Hc Hcase.
  assert (blen x = PAGE_SIZE) as Hlx by (apply blen_slice; unfold PAGE_SIZE in *; lia).
  assert (∃ e, read_slot (healthy b) no = Err e ∧ refuses (Err e) = Some e) as (e & Hr & He).
  { unfold read_slot, get. rewrite !read_slot_at by done. cbn [rbind]. fold x.
    destruct (decide (rd_u16 x 4 = VERSION)) as [Hv|Hv]; [destruct (decide (format_version x = FORMAT_VERSION)) as [Hf|Hf]|].
    - destruct Hcase as [|[|(Ho & Hk & Hne & Hl & Hver)]]; [done..|]. rewrite Ho. cbn [rbind].
      rewrite open_resident_ok by done. cbn [rbind]. rewrite bool_decide_true by done. cbn [negb].
      unfold from_page. rewrite (proj2 (Z.eqb_neq _ _)) by done. rewrite (proj2 (Z.ltb_ge _ _)) by done. cbn zeta in *.
      set (v := Z.ldiff _ LIMITED) in *.
      destruct Hver as [->|Hver]; [by eexists|]. rewrite (proj2 (Z.ltb_lt _ _)), orb_true_r by done.
      rewrite (proj2 (Z.eqb_neq _ _)) by (unfold SUPPORTED_FORMAT_VERSION in Hver; lia). by eexists.
    - unfold page_open, open_inner. rewrite Hlx, Z.eqb_refl, Hmag, Z.eqb_refl, Hv, Z.eqb_refl, Hc, Z.eqb_refl.
      rewrite (proj2 (Z.eqb_neq _ _) Hf). cbn [negb andb why_is rbind]. by eexists.
    - unfold page_open, open_inner. rewrite Hlx, Z.eqb_refl, Hmag, Z.eqb_refl.
      rewrite (proj2 (Z.eqb_neq _ _) Hv). cbn [negb]. unfold Page.bad. cbn [why_is].
      rewrite bool_decide_true by done. cbn [rbind]. rewrite Hc, Z.eqb_refl. by eexists. }
  unfold read_latest. destruct (decide (no = 0)) as [->|].
  - change META_PAGE with 0. rewrite Hr, He. eexists. split; [done|]. by rewrite He.
  - assert (no = 1) as -> by lia. change META_PAGE_B with 1. rewrite Hr, He.
    destruct (refuses (read_slot (healthy b) META_PAGE)) as [e0|] eqn:E0; [|eexists; split; [done|by rewrite He]].
    exists e0. split; [done|]. unfold refuses in *. destruct (read_slot _ META_PAGE) as [|[]]; try done; [|by injection E0 as <-].
    destruct (_ || _) eqn:Eo; [|done]. injection E0 as <-. by rewrite Eo.
Qed.

(** The salvage marker.  Writing a create-time superblock and
    then marking it leaves a page 0 that still reads as the same superblock and
    is recognised as salvaged; the same superblock without the mark is not. *)
Lemma salvage_marker b m gen :
  2 * PAGE_SIZE ≤ blen b → mwf m → generation m = 0 → is_u64 gen →
  ∃ p p', write m None = Some (p, Ok tt) ∧ mark_salvaged p = Some (Ok p') ∧
    let plain := healthy (splice b 0 (seal p gen)) in
    let marked := healthy (splice b 0 (seal p' gen)) in
    read plain = Ok m ∧ is_salvaged plain = Ok false ∧ read marked = Ok m ∧ is_salvaged marked = Ok true.
Proof using HL.
  intros Hb Hm Hg Hu. destruct (write_record_ok m None META_PAGE Hm I ltac:(unfold META_PAGE; width)) as (p & ext & room & Hw & Hbuilt & Hroom & ->).
  exists (finalise p 0). pose proof (built_finalise _ _ _ _ _ _ 0 Hbuilt) as Hbf.
  destruct (built_push _ _ _ _ _ _ SALVAGED Hbf) as (p2 & Hi2 & Hb2).
  { change (blen SALVAGED + SLOT_LEN) with 23. lia. }
  { refine (bool_decide_unpack _ _). vm_compute. exact I. }
  exists (finalise p2 0). split; [exact Hw|]. split.
  { unfold mark_salvaged. change (blen [record m None]) with 1 in Hi2. by rewrite Hi2. }
  cbn zeta. assert (as_read m None = m) as Has by by destruct m.
  destruct (built_slot_image _ _ m None [] _ gen 0 Hm I Hbuilt Hu ltac:(by left)) as (Hi & Hn & _).
  destruct (built_slot_image _ _ m None [SALVAGED] _ gen 0 Hm I Hb2 Hu ltac:(by right)) as (Hi' & Hn' & Hs').
  rewrite Has in Hi, Hi'. specialize (Hs' SALVAGED eq_refl).
  set (q := seal (finalise p 0) gen) in *. set (q' := seal (finalise p2 0) gen) in *.
  assert (∀ x, slot_image x 0 m → read (healthy (splice b 0 x)) = Ok m ∧
    is_salvaged (healthy (splice b 0 x)) = Ok ((nentries x =? 2) && bool_decide (slot_at x 1 = SALVAGED))) as Hgen.
  { intros x (_ & Hl & _ & Ho & _ & Hf).
    pose proof (slot_bytes_same b 0 x ltac:(lia) Hb Hl) as Hsb. change (0 * PAGE_SIZE) with 0 in Hsb.
    assert (get (healthy (splice b 0 x)) META_PAGE = Ok x) as Hget.
    { unfold get. rewrite (read_slot_at (splice b 0 x) META_PAGE); [|unfold META_PAGE; lia|by rewrite blen_splice].
      cbn [rbind]. unfold META_PAGE. rewrite Hsb. exact Ho. }
    unfold read, is_salvaged. rewrite Hget. cbn [rbind].
    rewrite (open_resident_ok x META_PAGE Ho). cbn [rbind]. rewrite Hf. cbn [rbind]. rewrite Hg. split; reflexivity. }
  destruct (Hgen q Hi) as [-> ->]. destruct (Hgen q' Hi') as [-> ->].
  rewrite Hn, Hn', Hs', (bool_decide_true (SALVAGED = SALVAGED)) by reflexivity. split_and!; reflexivity.
Qed.
End slots.

(** * Concrete instances *)
Section sample.
#[local] Existing Instance crc32c_reference.
#[local] Existing Instance crc32c_reference_laws.
Definition sample_meta (g : Z) : Meta := mkMeta 2 [7; 0; 0; 0; 0; 0; 0; 0] 4242 g.
Definition sample_limits : Limits.ResourceLimits :=
  {| Limits.data_bytes := 40960; Limits.wal_bytes := 8192; Limits.tracked_pages := 16; Limits.readers := 2;
     Limits.record_bytes := 1024; Limits.recovery_bytes := 0 |}.
Definition page_of_slot (w : option (bytes * result error unit)) : bytes :=
  match w with Some (p, _) => seal p 1 | None => [] end.
Definition sample_file : bytes := page_of_slot (write (sample_meta 4) None) ++ seal init_slot_b 1.
Lemma sample_mwf g : is_u64 g → mwf (sample_meta g).
Proof using. intros. split; [by right|split; [done|]|split; discriminate|done]. repeat constructor; discriminate. Qed.
Lemma meta_flip_crash_safe_witness :
  ∃ p, write_slot (sample_meta 5) (Some sample_limits) = Some (p, Ok tt) ∧
    read_latest (healthy (splice sample_file PAGE_SIZE (zeros PAGE_SIZE))) = Ok (sample_meta 4) ∧
    read_limits (healthy (splice sample_file PAGE_SIZE (seal p 1))) = Ok (Some sample_limits).
Proof using.
  destruct (meta_flip_crash_safe sample_file (sample_meta 4) (sample_meta 5) (Some sample_limits) 1) as (p & Hw & Ht & _ & Hl).
  - vm_compute. discriminate.
  - vm_compute. reflexivity.
  - vm_compute. reflexivity.
  - apply sample_mwf. split; discriminate.
  - refine (bool_decide_unpack _ _). vm_compute. exact I.
  - reflexivity.
  - split; discriminate.
  - exists p. split; [exact Hw|]. split; [|exact Hl]. apply Ht. split; [reflexivity|]. vm_compute. discriminate.
Defined.
(** A slot of a newer release: version 3, otherwise intact. *)
Definition sample_future : bytes :=
  page_of_slot (write_record None (record (mkMeta 3 [7; 0; 0; 0; 0; 0; 0; 0] 1 9) None) META_PAGE_B).
Lemma meta_never_hides_newer_format_witness :
  ∃ e, read_latest (healthy (page_of_slot (write (sample_meta 4) None) ++ sample_future)) = Err e.
Proof using.
  destruct (meta_never_hides_newer_format (page_of_slot (write (sample_meta 4) None) ++ sample_future) 1) as (e & He & _).
  - lia.
  - vm_compute. discriminate.
  - vm_compute. reflexivity.
  - vm_compute. reflexivity.
  - right. right. split_and!; [vm_compute; reflexivity|vm_compute; reflexivity|vm_compute; discriminate|vm_compute; discriminate|].
    right. vm_compute. reflexivity.
  - by exists e.
Defined.
Lemma salvage_marker_witness :
  ∃ p p', write (sample_meta 0) None = Some (p, Ok tt) ∧ mark_salvaged p = Some (Ok p') ∧
    is_salvaged (healthy (splice sample_file 0 (seal p' 1))) = Ok true.
Proof using.
  destruct (salvage_marker sample_file (sample_meta 0) 1) as (p & p' & Hw & Hm & _ & _ & _ & Hs).
  - vm_compute. discriminate.
  - apply sample_mwf. split; discriminate.
  - reflexivity.
  - split; discriminate.
  - exists p, p'. split; [exact Hw|]. split; [exact Hm|exact Hs].
Defined.
End sample.
End Meta.
