(* ===== verification/Readers.v ===== *)
(** * The reader table ([core/kernel/src/readers.rs])

    A snapshot reader keeps a locked file holding the generation it pins, in
    two identical framed copies.  The writer walks the directory to learn the
    oldest pinned generation; whatever it cannot verify counts as generation
    zero, which stops page recycling.  The directory is a list of entries, each
    with the answers the file system gives for it. *)
From S2P Require Import Prelude Crc.

Module Readers.

Definition SLOT_MAGIC : bytes := ascii_bytes "SEKREAD" ++ [0].
Definition SLOT_VERSION : Z := 1.
Definition FRAME_LEN : Z := 24.
Definition SLOT_LEN : Z := FRAME_LEN * 2.

(** What a directory entry answers: opening the file, trying its lock, and for
    a busy lock (a live reader) the bytes of the file, if they can be read. *)
Inductive entry_state :=
| Gone | OpenFailed | LockFailed | Unlocked | Busy (content : option bytes).
(** [None]: the directory entry itself could not be read. *)
Record dirent := mkDirent { fixed : bool; e_state : option entry_state }.
Inductive table := NoTable | Unreadable | Entries (es : list dirent).

Section readers.
Context `{Crc32c}.

Definition encode_frame (generation : Z) : bytes :=
  let frame := zeros FRAME_LEN in
  let frame := splice frame 0 SLOT_MAGIC in
  let frame := splice frame 8 (le_bytes 2 SLOT_VERSION) in
  let frame := splice frame 12 (le_bytes 8 generation) in
  let crc := crc32c (slice frame 0 20) in
  splice frame 20 (le_bytes 4 crc).
Definition decode_slot (b : bytes) : option Z :=
  if negb (blen b =? SLOT_LEN) || negb (bool_decide (slice b 0 FRAME_LEN = slice b FRAME_LEN FRAME_LEN)) then None else
  let frame := slice b 0 FRAME_LEN in
  if negb (bool_decide (slice frame 0 8 = SLOT_MAGIC)) || negb (le_num (slice frame 8 2) =? SLOT_VERSION)
     || negb (bool_decide (slice frame 10 2 = [0; 0])) || negb (le_num (slice frame 20 4) =? crc32c (slice frame 0 20))
  then None
  else Some (le_num (slice frame 12 8)).

(** The file of a registered reader, and while [set_generation] rewrites it:
    after [k] bytes of the two frames. *)
Definition slot_file (generation : Z) : bytes := encode_frame generation ++ encode_frame generation.
Definition set_generation_after (old : bytes) (generation k : Z) : bytes :=
  take (Z.to_nat k) (slot_file generation) ++ drop (Z.to_nat k) old.
Definition set_generation (old : bytes) (generation : Z) : bytes :=
  take (Z.to_nat SLOT_LEN) (set_generation_after old generation SLOT_LEN).

(** [create_fixed]: the first slot whose lock is free, [locks] being the held ones. *)
Fixpoint create_fixed (count : nat) (n : Z) (locks : list (result error bool)) : result error Z :=
  match count, locks with
  | O, _ | _, [] => Err (ResourceLimit "snapshot reader slots full")
  | S count, l :: locks =>
      let* free := l in
      if negb free then create_fixed count (n + 1) locks else Ok n
  end.

(** ** The scan *)
Fixpoint scan (es : list dirent) (generations : list Z) : option (list Z) :=
  match es with
  | [] => Some generations
  | e :: es =>
      match e_state e with
      | None => None
      | Some Gone => scan es generations
      | Some OpenFailed => None
      | Some LockFailed => None
      | Some Unlocked => scan es generations
      | Some (Busy content) =>
          match content with
          | None => None
          | Some b =>
              if negb (blen b =? SLOT_LEN) then None else
              match decode_slot b with
              | None => None
              | Some generation =>
                  if generation =? 0 then None else
                  if 4096 <=? blen generations then None else
                  scan es (generations ++ [generation])
              end
          end
      end
  end.
(** The files the scan unlinks: entries whose lock it got, fixed slots apart,
    up to the entry it gave up on. *)
Fixpoint swept (es : list dirent) (live : Z) (i : nat) : list nat :=
  match es with
  | [] => []
  | e :: es =>
      match e_state e with
      | Some Unlocked => if fixed e then swept es live (S i) else i :: swept es live (S i)
      | Some Gone => swept es live (S i)
      | Some (Busy (Some b)) =>
          if negb (blen b =? SLOT_LEN) then [] else
          match decode_slot b with
          | Some g => if (g =? 0) || (4096 <=? live) then [] else swept es (live + 1) (S i)
          | None => []
          end
      | _ => []
      end
  end.
(** [Vec::dedup] of a sorted vector. *)
Fixpoint dedup (l : list Z) : list Z :=
  match l with
  | x :: ((y :: _) as l') => if x =? y then dedup l' else x :: dedup l'
  | l => l
  end.
Definition live_generations (t : table) : option (list Z) :=
  match t with
  | NoTable => Some []
  | Unreadable => None
  | Entries es => g ← scan es []; Some (dedup (merge_sort Z.le g))
  end.
Definition oldest_live_reader (t : table) : Z :=
  match live_generations t with
  | None => 0
  | Some g => match g with x :: _ => x | [] => u64_max end
  end.
End readers.

(** * What the table promises the writer *)
Section proofs.
Context `{HC : Crc32c} {HL : Crc32cLaws}.

Lemma blen_frame_24 g : blen (encode_frame g) = FRAME_LEN.
Proof using. unfold encode_frame. by len. Qed.
Lemma frame_reads g :
  is_u64 g → let f := encode_frame g in
  slice f 0 8 = SLOT_MAGIC ∧ le_num (slice f 8 2) = SLOT_VERSION ∧ slice f 10 2 = [0; 0] ∧
  le_num (slice f 12 8) = g ∧ le_num (slice f 20 4) = crc32c (slice f 0 20).
Proof using HL.
  intros Hg. cbn zeta. unfold encode_frame. set (b0 := splice _ 12 _).
  assert (blen SLOT_MAGIC = 8) as Hm by done. assert (FRAME_LEN = 24) as HF by done.
  assert (blen (zeros FRAME_LEN) = 24) as Hz by done.
  assert (blen b0 = 24) as Hb by (unfold b0; by len).
  pose proof (crc32c_range (slice b0 0 20)) as Hc. set (c := crc32c (slice b0 0 20)) in *.
  assert (slice (splice b0 20 (le_bytes 4 c)) 0 20 = slice b0 0 20) as E0.
  { apply slice_splice_other; rewrite ?blen_le_bytes; lia. }
  assert (∀ o n, 0 ≤ o → 0 ≤ n → o + n ≤ 20 → slice (splice b0 20 (le_bytes 4 c)) o n = slice b0 o n) as E.
  { intros. apply slice_splice_other; rewrite ?blen_le_bytes; lia. }
  rewrite !E by lia. split_and!; [unfold b0..|].
  - rewrite !slice_splice_other by (rewrite ?blen_splice, ?blen_le_bytes; lia).
    pose proof (slice_splice_same (zeros FRAME_LEN) 0 SLOT_MAGIC) as X. rewrite Hm in X. apply X; lia.
  - rewrite slice_splice_other by (rewrite ?blen_splice, ?blen_le_bytes; lia).
    pose proof (slice_splice_same (splice (zeros FRAME_LEN) 0 SLOT_MAGIC) 8 (le_bytes 2 SLOT_VERSION)) as X.
    rewrite blen_le_bytes, blen_splice in X. change (Z.of_nat 2) with 2 in X. rewrite X by lia. done.
  - rewrite !slice_splice_other by (rewrite ?blen_splice, ?blen_le_bytes; lia). done.
  - pose proof (slice_splice_same (splice (splice (zeros FRAME_LEN) 0 SLOT_MAGIC) 8 (le_bytes 2 SLOT_VERSION)) 12 (le_bytes 8 g)) as X.
    rewrite blen_le_bytes, !blen_splice in X. change (Z.of_nat 8) with 8 in X. rewrite X by lia. apply le_num_le_bytes. width.
  - pose proof (slice_splice_same b0 20 (le_bytes 4 c)) as X. rewrite blen_le_bytes in X. change (Z.of_nat 4) with 4 in X.
    rewrite X by lia. by apply le_num_le_bytes.
Qed.
Lemma decode_slot_file g : is_u64 g → decode_slot (slot_file g) = Some g.
Proof using HL.
  intros Hg. destruct (frame_reads g Hg) as (H1 & H2 & H3 & H4 & H5). pose proof (blen_frame_24 g) as Hb.
  unfold decode_slot, slot_file. rewrite blen_app, Hb. change (FRAME_LEN + FRAME_LEN =? SLOT_LEN) with true.
  rewrite slice_app_exact by done. rewrite slice_app_r, slice_whole by (rewrite ?Hb; done || lia).
  rewrite bool_decide_true by done. cbn [negb orb]. rewrite H1, H2, H3, H4, H5.
  rewrite !bool_decide_true by done. by rewrite !Z.eqb_refl.
Qed.

(** While the two frames are rewritten, the file reads as the old generation,
    the new one, or nothing. *)
Lemma torn_update a g k :
  is_u64 a → is_u64 g → 0 ≤ k ≤ SLOT_LEN →
  let r := decode_slot (set_generation_after (slot_file a) g k) in r = Some a ∨ r = Some g ∨ r = None.
Proof using HL.
  intros Ha Hg Hk r. destruct r as [x|] eqn:Er; [|by auto]. subst r.
  pose proof (blen_frame_24 a) as Hfa. pose proof (blen_frame_24 g) as Hfg.
  assert (length (encode_frame a) = 24%nat) as Hla by (unfold blen in Hfa; apply Nat2Z.inj; rewrite Hfa; done).
  assert (length (encode_frame g) = 24%nat) as Hlg by (unfold blen in Hfg; apply Nat2Z.inj; rewrite Hfg; done).
  pose proof Er as Er0. unfold decode_slot in Er0. destruct (negb _ || negb _) eqn:Eh in Er0; [done|].
  apply orb_false_iff in Eh as [_ Eh%negb_false_iff%bool_decide_eq_true]. clear Er0.
  unfold set_generation_after, slot_file in *. set (n := Z.to_nat k) in *. assert (n ≤ 48)%nat as Hn by (unfold n, SLOT_LEN, FRAME_LEN in *; lia).
  unfold slice in Eh. change (Z.to_nat 0) with 0%nat in Eh. change (Z.to_nat FRAME_LEN) with 24%nat in Eh. rewrite drop_0 in Eh.
  destruct (decide (n ≤ 24)%nat) as [H24|H24].
  - left. rewrite (take_app_le _ _ n), (drop_app_le _ _ n) in * by lia.
    rewrite app_assoc in Eh. rewrite (take_app_length' (take n (encode_frame g) ++ drop n (encode_frame a))) in Eh
      by (rewrite length_app, length_take, length_drop; lia).
    rewrite (drop_app_length' (take n (encode_frame g) ++ drop n (encode_frame a))) in Eh
      by (rewrite length_app, length_take, length_drop; lia).
    rewrite (take_ge (encode_frame a)) in Eh by lia. rewrite app_assoc, Eh in Er. rewrite <-Er. by apply decode_slot_file.
  - right. left. rewrite (take_app_ge _ _ n), (drop_app_ge _ _ n) in * by lia.
    rewrite <-!app_assoc in *. rewrite (take_app_length' (encode_frame g)), (drop_app_length' (encode_frame g)) in Eh by lia.
    rewrite (take_ge (take _ _ ++ _)) in Eh by (rewrite length_app, length_take, length_drop; lia).
    rewrite <-Eh in Er. rewrite <-Er. by apply decode_slot_file.
Qed.

Lemma set_generation_done a g : set_generation (slot_file a) g = slot_file g.
Proof using.
  pose proof (blen_frame_24 a) as Hfa. pose proof (blen_frame_24 g) as Hfg. unfold blen in *.
  assert (∀ x, length (encode_frame x) = 24%nat → length (slot_file x) = 48%nat) as Hl by (intros; unfold slot_file; rewrite length_app; lia).
  assert (length (slot_file g) = 48%nat) as Hlg by (apply Hl; apply Nat2Z.inj; rewrite Hfg; done).
  assert (length (slot_file a) = 48%nat) as Hla by (apply Hl; apply Nat2Z.inj; rewrite Hfa; done).
  unfold set_generation, set_generation_after. change (Z.to_nat SLOT_LEN) with 48%nat.
  rewrite (take_ge (slot_file g)), (drop_ge (slot_file a)), app_nil_r by lia. by rewrite take_ge by lia.
Qed.

Definition live (es : list dirent) (c : option bytes) : Prop := ∃ e, e ∈ es ∧ e_state e = Some (Busy c).
Lemma scan_sound es : ∀ acc gs, scan es acc = Some gs →
  (∀ c, live es c → ∃ b g, c = Some b ∧ decode_slot b = Some g ∧ g ≠ 0 ∧ g ∈ gs) ∧
  (∀ g, g ∈ gs ↔ g ∈ acc ∨ ∃ b, live es (Some b) ∧ decode_slot b = Some g).
Proof using.
  induction es as [|e es IH]; intros acc gs Hs; cbn [scan] in Hs.
  { injection Hs as ->. split; [by intros c (e & He%elem_of_nil & _)|]. intros g. split; [by left|].
    intros [?|(b & (e & He%elem_of_nil & _) & _)]; done. }
  assert (∀ acc', scan es acc' = Some gs → (∀ c, e_state e ≠ Some (Busy c)) → acc' = acc →
    (∀ c, live (e :: es) c → ∃ b g, c = Some b ∧ decode_slot b = Some g ∧ g ≠ 0 ∧ g ∈ gs) ∧
    (∀ g, g ∈ gs ↔ g ∈ acc ∨ ∃ b, live (e :: es) (Some b) ∧ decode_slot b = Some g)) as Hskip.
  { intros acc' Hs' Hne ->. destruct (IH _ _ Hs') as [H1 H2].
    assert (∀ c, live (e :: es) c ↔ live es c) as Hl.
    { intros c. unfold live. split; intros (e' & He & Hc).
      - apply elem_of_cons in He as [->|He]; [by destruct (Hne c)|eauto].
      - exists e'. split; [by apply elem_of_cons; right|done]. }
    split; [intros c Hc%Hl; by apply H1|]. intros g. rewrite H2. by setoid_rewrite Hl. }
  destruct (e_state e) as [[| | | |[b|]]|] eqn:Est; try done; [by eapply Hskip|by eapply Hskip|].
  destruct (negb _); [done|]. destruct (decode_slot b) as [g0|] eqn:Hd; [|done].
  destruct (Z.eqb_spec g0 0); [done|]. destruct (_ <=? _); [done|].
  destruct (IH _ _ Hs) as [H1 H2]. split.
  - intros c (e' & He & Hc). apply elem_of_cons in He as [->|He].
    + rewrite Est in Hc. injection Hc as <-. exists b, g0. split_and!; try done. apply H2. left. apply elem_of_app. right. by constructor.
    + apply H1. by exists e'.
  - intros g. rewrite H2, elem_of_app, list_elem_of_singleton. split.
    + intros [[?| ->]|(b' & (e' & He & Hc) & Hg)]; [by left| |].
      * right. exists b. split; [|done]. exists e. split; [by constructor|done].
      * right. exists b'. split; [|done]. exists e'. split; [by constructor|done].
    + intros [?|(b' & (e' & He & Hc) & Hg)]; [by left; left|]. apply elem_of_cons in He as [->|He].
      * rewrite Est in Hc. injection Hc as <-. left. right. congruence.
      * right. exists b'. split; [by exists e'|done].
Qed.
Lemma dedup_cons x y l : dedup (x :: y :: l) = if x =? y then dedup (y :: l) else x :: dedup (y :: l).
Proof using. reflexivity. Qed.
Lemma dedup_elem l x : x ∈ dedup l ↔ x ∈ l.
Proof using.
  induction l as [|y l IH]; [done|]. destruct l as [|z l]; [done|]. rewrite dedup_cons.
  destruct (Z.eqb_spec y z) as [->|].
  - rewrite IH, !elem_of_cons. tauto.
  - rewrite (elem_of_cons _ x y), IH. by rewrite (elem_of_cons (z :: l) x y).
Qed.
Lemma dedup_sorted l : StronglySorted Z.le l → StronglySorted Z.lt (dedup l).
Proof using.
  induction 1 as [|x l Hl IH Hx]; [constructor|]. destruct l as [|y l]; [repeat constructor|]. rewrite dedup_cons.
  destruct (Z.eqb_spec x y) as [->|Hne]; [exact IH|]. constructor; [exact IH|].
  apply Forall_forall. intros z Hz. rewrite dedup_elem in Hz. apply Forall_cons in Hx as [Hxy Hxl].
  apply StronglySorted_inv in Hl as [_ Hyl]. rewrite Forall_forall in Hyl.
  apply elem_of_cons in Hz as [->|Hz]; [lia|]. specialize (Hyl _ Hz). lia.
Qed.
Lemma swept_sound es : ∀ n i k, k ∈ swept es n i →
  ∃ e, (i ≤ k)%nat ∧ es !! (k - i)%nat = Some e ∧ e_state e = Some Unlocked ∧ fixed e = false.
Proof using.
  induction es as [|e es IH]; intros n i k Hk; cbn [swept] in Hk; [by apply elem_of_nil in Hk|].
  assert (∀ n, k ∈ swept es n (S i) → ∃ e0, (i ≤ k)%nat ∧ (e :: es) !! (k - i)%nat = Some e0 ∧ e_state e0 = Some Unlocked ∧ fixed e0 = false) as Hrec.
  { intros n' H. destruct (IH n' (S i) k H) as (e0 & ? & Hl & ?). exists e0. split; [lia|].
    replace (k - i)%nat with (S (k - S i)) by lia. by split. }
  destruct (e_state e) as [[| | | |[b|]]|] eqn:Est; try (by apply elem_of_nil in Hk); [by eapply Hrec| |].
  - destruct (fixed e) eqn:Hf; [by eapply Hrec|]. apply elem_of_cons in Hk as [->|Hk]; [|by eapply Hrec].
    exists e. rewrite Nat.sub_diag. split_and!; done || lia.
  - destruct (negb (blen b =? SLOT_LEN)); [by apply elem_of_nil in Hk|].
    destruct (decode_slot b) as [g|]; [|by apply elem_of_nil in Hk].
    destruct ((g =? 0) || (4096 <=? n)); [by apply elem_of_nil in Hk|by eapply Hrec].
Qed.

Lemma generations_sound es gs :
  live_generations (Entries es) = Some gs →
  StronglySorted Z.lt gs ∧
  (∀ g, g ∈ gs ↔ ∃ b, live es (Some b) ∧ decode_slot b = Some g) ∧
  (∀ c, live es c → ∃ b g, c = Some b ∧ decode_slot b = Some g ∧ g ≠ 0 ∧ g ∈ gs).
Proof using.
  intros Hg. unfold live_generations in Hg. destruct (scan es []) as [l|] eqn:Hs; [|done].
  injection Hg as <-. destruct (scan_sound es [] l Hs) as [H1 H2].
  assert (∀ g, g ∈ dedup (merge_sort Z.le l) ↔ g ∈ l) as He.
  { intros g. rewrite dedup_elem. by rewrite (merge_sort_Permutation Z.le l). }
  split_and!.
  - apply dedup_sorted, Sorted_StronglySorted; [intros ???; lia|]. apply Sorted_merge_sort. intros ??; lia.
  - intros g. rewrite He, H2. split; [intros [Hn%elem_of_nil|]; done|by right].
  - intros c Hc. destruct (H1 c Hc) as (b & g & ? & ? & ? & ?). exists b, g. split_and!; try done. by apply He.
Qed.

Lemma decode_slot_nonneg b g : bytes_ok b → decode_slot b = Some g → 0 ≤ g.
Proof using.
  intros Hb. unfold decode_slot. destruct (_ || _); [done|]. destruct (_ || _); [done|]. intros [= <-].
  pose proof (le_num_bound (slice (slice b 0 FRAME_LEN) 12 8)) as H. apply H. auto with skj.
Qed.
Lemma oldest_le es b g :
  live es (Some b) → decode_slot b = Some g ∨ decode_slot b = None ∨ decode_slot b = Some 0 → 0 ≤ g →
  oldest_live_reader (Entries es) ≤ g.
Proof using.
  intros Hl Hd Hg. unfold oldest_live_reader. destruct (live_generations (Entries es)) as [gs|] eqn:Hgs; [|done].
  destruct (generations_sound es gs Hgs) as (Hs & _ & Hall).
  destruct (Hall _ Hl) as (b' & g' & [= <-] & Hd' & Hne & Hin).
  destruct Hd as [Hd|[Hd|Hd]]; rewrite Hd in Hd'; [|done|congruence]. injection Hd' as <-.
  destruct gs as [|x gs]; [by apply elem_of_nil in Hin|]. apply StronglySorted_inv in Hs as [_ Hx].
  apply elem_of_cons in Hin as [->|Hin]; [lia|]. rewrite Forall_forall in Hx. specialize (Hx _ Hin). lia.
Qed.

(** C24: the writer never recycles a page a live reader needs.  When the
    scan succeeds, its generations are strictly ascending and exactly the ones
    the live readers pin, every live reader having been read and verified; a
    reader that reserved its slot and is being moved to generation [g], after
    any number of bytes of that update, holds the oldest generation at or below
    [g]; and only unlocked entries that are not fixed slots are unlinked. *)
Theorem live_readers_protected es g k :
  is_u64 g → 0 ≤ k ≤ SLOT_LEN →
  (∀ gs, live_generations (Entries es) = Some gs →
    StronglySorted Z.lt gs ∧
    (∀ x, x ∈ gs ↔ ∃ b, live es (Some b) ∧ decode_slot b = Some x) ∧
    (∀ c, live es c → ∃ b x, c = Some b ∧ decode_slot b = Some x ∧ x ≠ 0 ∧ x ∈ gs)) ∧
  (live es (Some (set_generation_after (slot_file 0) g k)) → oldest_live_reader (Entries es) ≤ g) ∧
  (live es (Some (set_generation (slot_file 0) g)) → oldest_live_reader (Entries es) ≤ g) ∧
  (∀ i, i ∈ swept es 0 0 → ∃ e, es !! i = Some e ∧ e_state e = Some Unlocked ∧ fixed e = false).
Proof using HL.
  intros Hg Hk. split_and!.
  - apply generations_sound.
  - intros Hl. eapply oldest_le; [exact Hl| |lia].
    destruct (torn_update 0 g k ltac:(split; discriminate) Hg Hk) as [->|[->| ->]]; auto.
  - intros Hl. eapply oldest_le; [exact Hl| |lia]. left. rewrite set_generation_done. by apply decode_slot_file.
  - intros i Hi. destruct (swept_sound es 0 0 i Hi) as (e & _ & Hl & Hr). exists e. by rewrite Nat.sub_0_r in Hl.
Qed.
End proofs.

Section sample.
#[local] Existing Instance crc32c_reference.
#[local] Existing Instance crc32c_reference_laws.
(** A stale file, a reader of generation 44, and one half-way to 41. *)
Definition sample_table : list dirent :=
  [mkDirent false (Some Unlocked); mkDirent false (Some (Busy (Some (slot_file 44))));
   mkDirent true (Some (Busy (Some (set_generation_after (slot_file 0) 41 30))))].
Lemma live_readers_protected_witness : oldest_live_reader (Entries sample_table) ≤ 41 ∧ swept sample_table 0 0 = [0%nat].
Proof using.
  split; [|vm_compute; reflexivity].
  destruct (live_readers_protected sample_table 41 30) as (_ & Hupd & _); [split; discriminate|split; discriminate|].
  apply Hupd. exists (mkDirent true (Some (Busy (Some (set_generation_after (slot_file 0) 41 30))))).
  split; [|reflexivity]. unfold sample_table. do 2 (apply elem_of_cons; right). apply elem_of_cons. left. reflexivity.
Defined.
(** Once complete, 41 is the oldest. *)
Example sample_oldest :
  oldest_live_reader (Entries [mkDirent false (Some (Busy (Some (slot_file 44)))); mkDirent true (Some (Busy (Some (slot_file 41))))]) = 41.
Proof using. vm_compute. reflexivity. Qed.
End sample.
End Readers.
