(* ===== verification/Wal.v ===== *)
(** * The kernel's write-ahead log ([core/kernel/src/wal.rs])

    Frames of a 20-byte header and a payload, checksummed; the walk that says
    why it stopped; the recovery passes; the salvage of a damaged log.  The
    log is a state record, every operation is the Rust function with its
    checks in the order they run, and loops carry fuel: [scan_loop] answers
    [None] when it runs out, which [scan_total] excludes; the other loops use
    exactly the measure they consume. *)
From Stdlib Require Import Sorting.Sorted.
From S2P Require Import Prelude Crc Disk.

Module Wal.

Definition HDR : Z := 20.
Definition MAX_FRAME_BYTES : Z := u32_max.
Definition MAX_PAYLOAD_BYTES : Z := MAX_FRAME_BYTES - HDR.
Definition CRC_CHUNK : Z := 65536.
Definition WAL_BUF : Z := 262144.

Inductive Stop := End (why : string) | Damaged (offset : Z) (why : string).
Record Scan := mkScan { s_end : Z; s_next_lsn : Z; s_stop : Stop }.

Inductive RecKind := Commit | PageImage | Put | Delete | DeletePrefix | PutEmptyBatch.
#[global] Instance RecKind_eq_dec : EqDecision RecKind.
Proof. solve_decision. Defined.
(** [kind as u8]. *)
Definition kind_code (kd : RecKind) : Z :=
  match kd with Commit => 1 | PageImage => 2 | Put => 3 | Delete => 4 | DeletePrefix => 5
           | PutEmptyBatch => 6 end.
Definition from_u8 (v : Z) : option RecKind :=
  if v =? 1 then Some Commit else if v =? 2 then Some PageImage else if v =? 3 then Some Put
  else if v =? 4 then Some Delete else if v =? 5 then Some DeletePrefix
  else if v =? 6 then Some PutEmptyBatch else None.

Record Wal := mkWal {
  file : File;
  end_ : Z;
  next_lsn : Z;
  buf : bytes;
  flushed : Z;
  limit : option Z;
}.

Inductive Candidate := Valid (next : Z) (kd : RecKind) | Invalid.

(** Header fields. *)
Definition h_plen (hdr : bytes) : Z := le_num (slice hdr 0 4).
Definition h_lsn (hdr : bytes) : Z := le_num (slice hdr 4 8).
Definition h_kind (hdr : bytes) : Z := byte_at hdr 12.
Definition h_crc (hdr : bytes) : Z := le_num (slice hdr 16 4).

Definition wal_err {A} (off : Z) (why : string) : result error A := Err (CorruptWal off why).
Definition add_or {A} (a b : Z) (e : result error A) (k : Z → result error A) : result error A :=
  match checked_add_u64 a b with Some c => k c | None => e end.

Section wal.
Context `{Crc32c}.

Definition frame_crc (hdr payload : bytes) : Z :=
  crc32c_append (crc32c (splice hdr 16 (zeros 4))) payload.

Fixpoint crc_chunks (n : nat) (f : File) (at_ end_ crc : Z) : result error Z :=
  match n with
  | O => Ok crc
  | S n =>
      if at_ <? end_ then
        let m := Z.min CRC_CHUNK (end_ - at_) in
        let* b := read_at f at_ m in
        crc_chunks n f (at_ + m) end_ (crc32c_append crc b)
      else Ok crc
  end.
Definition chunks (n : Z) : nat := Z.to_nat ((n + CRC_CHUNK - 1) / CRC_CHUNK).
Definition frame_crc_from_file (f : File) (hdr : bytes) (payload_at payload_len : Z) : result error Z :=
  add_or payload_at payload_len
    (wal_err payload_at "payload boundary overflows the WAL address space") (λ e,
    crc_chunks (chunks payload_len) f payload_at e (crc32c (splice hdr 16 (zeros 4)))).

Fixpoint zero_chunks (n : nat) (f : File) (at_ len : Z) : result error bool :=
  match n with
  | O => Ok true
  | S n =>
      if at_ <? len then
        let m := Z.min CRC_CHUNK (len - at_) in
        let* b := read_at f at_ m in
        if existsb (λ x, negb (x =? 0)) b then Ok false else zero_chunks n f (at_ + m) len
      else Ok true
  end.
Definition is_all_zeros (f : File) (off len : Z) : result error bool :=
  zero_chunks (chunks (len - off)) f off len.

Definition has_writer_header_shape (hdr : bytes) : bool :=
  bool_decide (slice hdr 13 3 = [0; 0; 0]) && bool_decide (is_Some (from_u8 (h_kind hdr)))
  && bool_decide (is_Some (checked_add_u64 (h_lsn hdr) 1)).

Definition candidate_at (f : File) (off len : Z) : result error Candidate :=
  match checked_add_u64 off HDR with
  | None => Ok Invalid
  | Some header_end =>
      if len <? header_end then Ok Invalid else
      let* hdr := read_at f off HDR in
      if negb (has_writer_header_shape hdr) then Ok Invalid else
      let plen := h_plen hdr in
      if MAX_PAYLOAD_BYTES <? plen then Ok Invalid else
      match checked_add_u64 header_end plen with
      | None => Ok Invalid
      | Some next =>
          if len <? next then Ok Invalid else
          let* c := frame_crc_from_file f hdr header_end plen in
          if negb (c =? h_crc hdr) then Ok Invalid else
          match from_u8 (h_kind hdr), checked_add_u64 (h_lsn hdr) 1 with
          | Some kd, Some _ => Ok (Valid next kd)
          | _, _ => Ok Invalid
          end
      end
  end.

Fixpoint verified_after (n : nat) (f : File) (off len : Z) : result error bool :=
  match n with
  | O => Ok false
  | S n =>
      if off <? len then
        let* c := candidate_at f off len in
        match c with
        | Valid _ _ => Ok true
        | Invalid =>
            add_or off 1 (wal_err off "WAL resynchronisation offset overflow") (λ off,
            verified_after n f off len)
        end
      else Ok false
  end.
Definition has_verified_frame_after (f : File) (off len : Z) : result error bool :=
  verified_after (Z.to_nat (len - off)) f off len.

(** One turn of the walk: the frame at [off] is verified ([inl]: where it
    ends and the next lsn) or the walk stops ([inr]). *)
Definition scan_step (f : File) (len off : Z) : result error ((Z * Z) + Stop) :=
  let damaged why := Ok (inr (Damaged off why)) in
  add_or off HDR (wal_err off "header boundary overflows the WAL address space") (λ header_end,
  if len <? header_end then
    if off =? len then Ok (inr (End "the last verified frame reaches physical EOF")) else
    let* z := is_all_zeros f off len in
    if z then Ok (inr (End "nothing past the last good frame but zeros"))
    else damaged "non-zero bytes remain but there is not a complete frame header"
  else
  let* hdr := read_at f off HDR in
  let plen := h_plen hdr in
  let lsn := h_lsn hdr in
  if MAX_PAYLOAD_BYTES <? plen then damaged "frame payload length exceeds the writer maximum" else
  add_or header_end plen (wal_err off "frame boundary overflows the WAL address space") (λ frame_end,
  if len <? frame_end then
    if negb (has_writer_header_shape hdr)
    then damaged "incomplete-looking frame header was not emitted by this writer"
    else
      add_or off 1 (wal_err off "WAL resynchronisation offset overflow") (λ off1,
      let* v := has_verified_frame_after f off1 len in
      if v then damaged "incomplete-looking frame has verified log frames behind it"
      else Ok (inr (End "a bounded frame header crosses physical EOF")))
  else
  let want := h_crc hdr in
  let* c := frame_crc_from_file f hdr header_end plen in
  if negb (c =? want) then
    let* z := is_all_zeros f off len in
    if z then Ok (inr (End "nothing past the last good frame but zeros"))
    else damaged "complete frame fails its checksum"
  else
  match from_u8 (h_kind hdr) with
  | None => damaged "frame verifies but names a record kind this build does not know"
  | Some _ =>
      add_or lsn 1 (wal_err off "verified frame exhausts the log sequence number space") (λ next,
      Ok (inl (frame_end, next)))
  end)).

Fixpoint scan_loop (n : nat) (f : File) (len off next : Z) : option (result error Scan) :=
  match n with
  | O => None
  | S n =>
      let? r := scan_step f len off in
      match r with
      | inl (frame_end, next) => scan_loop n f len frame_end next
      | inr stop => Some (Ok (mkScan off next stop))
      end
  end.
Definition scan (f : File) : option (result error Scan) :=
  let len := file_len f in scan_loop (S (Z.to_nat len)) f len 0 1.

Definition open_on (f : File) : option (result error Wal) :=
  s ← scan f;
  Some (let* s := s in
        match s_stop s with
        | End _ => Ok (mkWal (set_len f (s_end s)) (s_end s) (s_next_lsn s) [] (s_end s) None)
        | Damaged offset why => wal_err offset why
        end).
Definition open_limited (f : File) (lim : option Z) : option (result error Wal) :=
  if match lim with Some cap => cap <? file_len f | None => false end
  then Some (Err (ResourceLimit "existing WAL exceeds allowance"))
  else r ← open_on f; Some (rmap (λ w, mkWal (file w) (end_ w) (next_lsn w) (buf w) (flushed w) lim) r).

Definition cut_to_committed (w : Wal) (e : Z) : Wal :=
  if e <? end_ w then mkWal (set_len (file w) e) e (next_lsn w) [] e (limit w) else w.

Definition flush (w : Wal) : Wal :=
  match buf w with
  | [] => w
  | _ => mkWal (write_at (file w) (buf w) (flushed w)) (end_ w) (next_lsn w) []
               (flushed w + blen (buf w)) (limit w)
  end.

(** The 20 bytes [append] builds. *)
Definition make_header (lsn : Z) (kd : RecKind) (payload : bytes) : bytes :=
  let hdr := zeros HDR in
  let hdr := splice hdr 0 (le_bytes 4 (blen payload)) in
  let hdr := splice hdr 4 (le_bytes 8 lsn) in
  let hdr := splice hdr 12 [kind_code kd] in
  splice hdr 16 (le_bytes 4 (frame_crc hdr payload)).

Definition append (w : Wal) (kd : RecKind) (payload : bytes) : result error (Z * Wal) :=
  if MAX_PAYLOAD_BYTES <? blen payload then Err TooLarge else
  let lsn := next_lsn w in
  add_or (next_lsn w) 1 (wal_err (end_ w) "log sequence number space is exhausted") (λ next,
  add_or HDR (blen payload) (Err TooLarge) (λ frame_len,
  if MAX_FRAME_BYTES <? frame_len then Err TooLarge else
  add_or (end_ w) frame_len (Err TooLarge) (λ new_end,
  if match limit w with Some cap => cap <? new_end | None => false end
  then Err (ResourceLimit "WAL allowance full; reduce transaction size")
  else
    let w := mkWal (file w) new_end next (buf w ++ make_header lsn kd payload ++ payload)
                   (flushed w) (limit w) in
    let w := if WAL_BUF <=? blen (buf w) then flush w else w in
    Ok (lsn, w)))).

(** [set_lsn_floor], [rotate] (and [rotate_published], which differs in its
    directory barrier alone). *)
Definition set_lsn_floor (w : Wal) (floor : Z) : Wal :=
  if next_lsn w <? floor then mkWal (file w) (end_ w) floor (buf w) (flushed w) (limit w) else w.
Definition rotate (w : Wal) : Wal :=
  mkWal (set_len (file w) 0) 0 (next_lsn w) [] 0 (limit w).

(** First recovery pass; [None] is the assertion that nothing is buffered
    (or fuel, which [committed_end_spec] excludes). *)
Fixpoint committed_loop (n : nat) (w : Wal) (off committed : Z) : option (result error Z) :=
  match n with
  | O => None
  | S n =>
      if off <? end_ w then
        let? hdr := read_at (file w) off HDR in
        let plen := h_plen hdr in
        if MAX_PAYLOAD_BYTES <? plen
        then Some (wal_err off "recovery payload exceeds the writer maximum") else
        match a ← checked_add_u64 off HDR; checked_add_u64 a plen with
        | None => Some (wal_err off "frame boundary overflow during recovery")
        | Some next =>
            if end_ w <? next
            then Some (wal_err off "frame crosses verified WAL boundary during recovery") else
            match from_u8 (h_kind hdr) with
            | None => Some (wal_err off "unknown record kind inside verified WAL")
            | Some kd => committed_loop n w next (if bool_decide (kd = Commit) then next else committed)
            end
        end
      else Some (Ok committed)
  end.
Definition committed_end (w : Wal) : option (result error Z) :=
  match buf w with
  | [] => committed_loop (S (Z.to_nat (end_ w))) w 0 0
  | _ => None
  end.

(** Second pass: one frame of the committed prefix. *)
Definition record_at (w : Wal) (off committed : Z) : result error (option (Z * RecKind * bytes * Z)) :=
  if off =? committed then Ok None
  else if (committed <? off) || (end_ w <? committed)
  then wal_err off "recovery cursor outside committed WAL boundary" else
  add_or off HDR (wal_err off "header boundary overflow during recovery") (λ header_end,
  if committed <? header_end then wal_err off "truncated header inside committed WAL boundary" else
  let* hdr := read_at (file w) off HDR in
  let plen := h_plen hdr in
  if MAX_PAYLOAD_BYTES <? plen then wal_err off "recovery payload exceeds the writer maximum" else
  add_or header_end plen (wal_err off "payload boundary overflow during recovery") (λ next,
  if committed <? next then wal_err off "frame crosses committed WAL boundary" else
  let* payload := read_at (file w) header_end plen in
  let want := h_crc hdr in
  if negb (frame_crc hdr payload =? want)
  then wal_err off "recovery frame changed after the opening CRC walk" else
  let lsn := h_lsn hdr in
  match from_u8 (h_kind hdr) with
  | None => wal_err off "unknown record kind inside committed WAL"
  | Some kd => Ok (Some (lsn, kd, payload, next))
  end)).
(** The recovery loop over [record_at], from [off] to [committed]. *)
Fixpoint replay (n : nat) (w : Wal) (off committed : Z) : option (result error (list (Z * RecKind * bytes))) :=
  match n with
  | O => None
  | S n =>
      let? r := record_at w off committed in
      match r with
      | None => Some (Ok [])
      | Some (lsn, kd, payload, next) =>
          rest ← replay n w next committed; Some (rmap (cons (lsn, kd, payload)) rest)
      end
  end.

(** ** Salvage *)
Fixpoint copy_chunks (n : nat) (f : File) (out : bytes) (at_ left_ : Z) : result error bytes :=
  match n with
  | O => Ok out
  | S n =>
      if 0 <? left_ then
        let m := Z.min left_ CRC_CHUNK in
        let* b := read_at f at_ m in
        copy_chunks n f (out ++ b) (at_ + m) (left_ - m)
      else Ok out
  end.
Definition copy_range (f : File) (out : bytes) (at_ n : Z) : result error bytes :=
  copy_chunks (chunks n) f out at_ n.

Record salvage := mkSalvage {
  src_off : Z; sv_out : bytes; out_end : Z; last_commit : Z; resynchronising : bool }.
(** One turn of [salvage_committed]'s loop. *)
Definition salvage_step (f : File) (len : Z) (s : salvage) : result error salvage :=
  let* c := candidate_at f (src_off s) len in
  match c with
  | Valid next kd =>
      if resynchronising s then
        Ok (mkSalvage next (sv_out s) (out_end s) (last_commit s) (negb (bool_decide (kd = Commit))))
      else
        let* o := copy_range f (sv_out s) (src_off s) (next - src_off s) in
        add_or (out_end s) (next - src_off s)
          (wal_err (src_off s) "salvaged WAL output length overflow") (λ oe,
        Ok (mkSalvage next o oe (if bool_decide (kd = Commit) then oe else last_commit s) false))
  | Invalid =>
      add_or (src_off s) 1 (wal_err (src_off s) "WAL resynchronisation offset overflow") (λ off,
      Ok (mkSalvage off (resize (sv_out s) (last_commit s)) (last_commit s) (last_commit s) true))
  end.
Fixpoint salvage_loop (n : nat) (f : File) (len : Z) (s : salvage) : result error salvage :=
  match n with
  | O => Ok s
  | S n => if src_off s <? len
           then let* s := salvage_step f len s in salvage_loop n f len s
           else Ok s
  end.
(** The salvaged log and the hash reported for it ([hash_prefix]). *)
Fixpoint hash_chunks (n : nat) (b : bytes) (at_ left_ hash : Z) (first : bool) : result error Z :=
  match n with
  | O => Ok hash
  | S n =>
      if 0 <? left_ then
        let want := Z.min left_ CRC_CHUNK in
        let* c := read_at (healthy b) at_ want in
        hash_chunks n b (at_ + want) (left_ - want)
          (if first then crc32c c else crc32c_append hash c) false
      else Ok hash
  end.
Definition hash_prefix (b : bytes) (n : Z) : result error Z := hash_chunks (chunks n) b 0 n 0 true.

Definition salvage_committed (f : File) : result error (bytes * Z * Z) :=
  let len := file_len f in
  let* s := salvage_loop (Z.to_nat len) f len (mkSalvage 0 [] 0 0 false) in
  let out := resize (sv_out s) (last_commit s) in
  let* hash := hash_prefix out (last_commit s) in
  Ok (out, last_commit s, hash).
End wal.

(** * The log as a list of records *)
Definition record := (Z * RecKind * bytes)%type.

Section spec.
Context `{HC : Crc32c}.

(** The frame at [off], if a complete one with a matching checksum, a known
    kind and a usable lsn is there: what every reader of the log must find. *)
Definition frame_at (b : bytes) (off : Z) : option (record * Z) :=
  let hdr := slice b off HDR in
  let payload := slice b (off + HDR) (h_plen hdr) in
  if bool_decide (0 ≤ off ∧ off + HDR ≤ blen b ∧ h_plen hdr ≤ MAX_PAYLOAD_BYTES ∧
                  off + HDR + h_plen hdr ≤ blen b ∧ frame_crc hdr payload = h_crc hdr ∧
                  h_lsn hdr + 1 ≤ u64_max)
  then match from_u8 (h_kind hdr) with
       | Some kd => Some (h_lsn hdr, kd, payload, off + HDR + h_plen hdr)
       | None => None
       end
  else None.

(** [chain b off recs e]: from [off] to [e] the bytes are the frames of [recs]. *)
Inductive chain (b : bytes) : Z → list record → Z → Prop :=
  | chain_nil off : chain b off [] off
  | chain_cons off r next recs e :
      frame_at b off = Some (r, next) → chain b next recs e → chain b off (r :: recs) e.

(** What an append of this writer puts down. *)
Definition frame (r : record) : bytes :=
  let '(lsn, kd, payload) := r in make_header lsn kd payload ++ payload.
Definition enc (recs : list record) : bytes := concat (map frame recs).
Definition writable (r : record) : Prop :=
  let '(lsn, _, payload) := r in
  0 ≤ lsn ∧ lsn + 1 ≤ u64_max ∧ blen payload ≤ MAX_PAYLOAD_BYTES ∧ bytes_ok payload.
End spec.

Lemma kind_roundtrip kd : from_u8 (kind_code kd) = Some kd.
Proof. by destruct kd. Qed.

Section lemmas.
Context `{HC : Crc32c} {HL : Crc32cLaws}.

(** ** Chunked loops are their one-pass specifications *)
Lemma chunks_step n m : 0 < n → m = Z.min CRC_CHUNK n → chunks n = S (chunks (n - m)).
Proof using.
  intros ? ->. unfold chunks, CRC_CHUNK. destruct (Z.min_spec 65536 n) as [[? ->]|[? ->]].
  - rewrite <-Z2Nat.inj_succ by (apply Z.div_pos; lia). f_equal.
    replace (n + 65536 - 1) with (n - 65536 + 65536 - 1 + 1 * 65536) by lia. rewrite Z.div_add by lia. lia.
  - rewrite Z.sub_diag. change (Z.to_nat ((0 + 65536 - 1) / 65536)) with 0%nat.
    replace ((n + 65536 - 1) / 65536) with 1; [done|]. apply Z.div_unique with (n - 1); lia.
Qed.
Lemma chunks_nonpos n : n ≤ 0 → chunks n = 0%nat.
Proof using.
  intros. unfold chunks, CRC_CHUNK. apply Nat2Z.inj.
  assert ((n + 65536 - 1) / 65536 ≤ 0); [|lia]. apply Z.lt_succ_r, Z.div_lt_upper_bound; lia.
Qed.

(** The induction every chunked loop follows: nothing left, or one chunk and
    the rest. *)
Lemma chunk_induction (P : nat → Z → Z → Prop) e :
  (∀ at_, at_ = e → P O at_ 0) →
  (∀ n at_ m, at_ < e → m = Z.min CRC_CHUNK (e - at_) → 0 < m → at_ + m ≤ e →
     P n (at_ + m) (e - (at_ + m)) → P (S n) at_ (e - at_)) →
  ∀ at_, at_ ≤ e → P (chunks (e - at_)) at_ (e - at_).
Proof using.
  intros H0 HS at_ Hle. remember (chunks (e - at_)) as n eqn:Hn. revert at_ Hle Hn.
  induction n as [|n IH]; intros at_ Hle Hn.
  - destruct (decide (at_ = e)) as [->|]; [rewrite Z.sub_diag; auto|].
    rewrite (chunks_step (e - at_) _ ltac:(lia) eq_refl) in Hn. done.
  - destruct (decide (at_ = e)) as [->|]; [by rewrite Z.sub_diag in Hn|].
    rewrite (chunks_step (e - at_) _ ltac:(lia) eq_refl) in Hn. injection Hn as Hn.
    eapply HS; [lia|done|unfold CRC_CHUNK; lia|lia|]. apply IH; [lia|]. rewrite Hn. f_equal. lia.
Qed.
Lemma slice_chunk (b : bytes) at_ m e :
  0 ≤ at_ → 0 ≤ m → at_ + m ≤ e → e ≤ blen b →
  slice b at_ (e - at_) = slice b at_ m ++ slice b (at_ + m) (e - (at_ + m)).
Proof using. intros. rewrite <-slice_split by lia. f_equal. lia. Qed.

Lemma crc_chunks_ok b e at_ crc :
  0 ≤ at_ ≤ e → e ≤ blen b → is_u32 crc →
  crc_chunks (chunks (e - at_)) (healthy b) at_ e crc = Ok (crc32c_append crc (slice b at_ (e - at_))).
Proof using All.
  intros Hat Hb Hcrc.
  apply (chunk_induction (λ n at_ k, 0 ≤ at_ → ∀ crc, is_u32 crc →
    crc_chunks n (healthy b) at_ e crc = Ok (crc32c_append crc (slice b at_ k)))); [..|lia|lia|done].
  - intros a Ha _ c Hc. by rewrite slice_0, crc_nil.
  - intros n a m ? Hm ?? IH ? c Hc. cbn [crc_chunks]. rewrite (proj2 (Z.ltb_lt _ _)) by done.
    rewrite <-Hm, read_healthy by lia. cbn [rbind].
    rewrite IH; [|lia|by apply crc_range]. rewrite crc_app by done. by rewrite <-slice_chunk by lia.
Qed.
Lemma zero_chunks_ok b e at_ :
  0 ≤ at_ ≤ e → e ≤ blen b →
  zero_chunks (chunks (e - at_)) (healthy b) at_ e = Ok (forallb (Z.eqb 0) (slice b at_ (e - at_))).
Proof using.
  intros Hat Hb.
  apply (chunk_induction (λ n at_ k, 0 ≤ at_ →
    zero_chunks n (healthy b) at_ e = Ok (forallb (Z.eqb 0) (slice b at_ k)))); [..|lia|lia].
  - intros a Ha _. by rewrite slice_0.
  - intros n a m ? Hm ?? IH ?. cbn [zero_chunks]. rewrite (proj2 (Z.ltb_lt _ _)) by done.
    rewrite <-Hm, read_healthy by lia. cbn [rbind]. rewrite IH by lia.
    rewrite (slice_chunk b a m e), forallb_app by lia.
    assert (∀ l, existsb (λ x, negb (x =? 0)) l = negb (forallb (Z.eqb 0) l)) as ->.
    { induction l as [|x l IHl]; [done|]. cbn [existsb forallb].
      rewrite IHl, negb_andb. by rewrite (Z.eqb_sym 0 x). }
    by destruct (forallb _ (slice b a m)).
Qed.
Lemma copy_chunks_ok b e at_ out :
  0 ≤ at_ ≤ e → e ≤ blen b →
  copy_chunks (chunks (e - at_)) (healthy b) out at_ (e - at_) = Ok (out ++ slice b at_ (e - at_)).
Proof using.
  intros Hat Hb.
  apply (chunk_induction (λ n at_ k, 0 ≤ at_ → ∀ out,
    copy_chunks n (healthy b) out at_ k = Ok (out ++ slice b at_ k))); [..|lia|lia].
  - intros a Ha _ o. by rewrite slice_0, app_nil_r.
  - intros n a m ? Hm ?? IH ? o. cbn [copy_chunks]. rewrite (proj2 (Z.ltb_lt _ _)) by lia.
    rewrite (Z.min_comm (e - a)), <-Hm, read_healthy by lia. cbn [rbind].
    replace (e - a - m) with (e - (a + m)) by lia. rewrite IH by lia.
    by rewrite <-app_assoc, <-slice_chunk by lia.
Qed.
Lemma hash_prefix_ok b n :
  0 ≤ n ≤ blen b → hash_prefix b n = Ok (crc32c (slice b 0 n)) ∨ n = 0 ∧ hash_prefix b n = Ok 0.
Proof using All.
  intros Hn. destruct (decide (n = 0)) as [->|]; [by right|left].
  assert (∀ k a, chunks (n - a) = k → 0 ≤ a ≤ n → ∀ h, is_u32 h →
    hash_chunks k b a (n - a) h false = Ok (crc32c_append h (slice b a (n - a)))) as Hgen.
  { intros k a <- Ha h Hh.
    apply (chunk_induction (λ k a l, 0 ≤ a → ∀ h, is_u32 h →
      hash_chunks k b a l h false = Ok (crc32c_append h (slice b a l)))); [..|lia|lia|done].
    - intros a' _ _ c Hc. by rewrite slice_0, crc_nil.
    - intros k a' m ? Hm ?? IH ? c Hc. cbn [hash_chunks]. rewrite (proj2 (Z.ltb_lt _ _)) by lia.
      rewrite (Z.min_comm (n - a')), <-Hm, read_healthy by lia. cbn [rbind].
      replace (n - a' - m) with (n - (a' + m)) by lia. rewrite IH; [|lia|by apply crc_range].
      rewrite crc_app by done. by rewrite <-slice_chunk by lia. }
  unfold hash_prefix. rewrite (chunks_step n _ ltac:(lia) eq_refl). cbn [hash_chunks].
  rewrite (proj2 (Z.ltb_lt _ _)), (Z.min_comm n) by lia.
  set (m := Z.min CRC_CHUNK n). assert (0 < m ≤ n) by (unfold m, CRC_CHUNK; lia).
  rewrite read_healthy by lia. cbn [rbind]. pose proof (crc32c_range (slice b 0 m)).
  rewrite (Hgen _ m) by (done || lia || width).
  rewrite crc32c_append_app. pose proof (slice_chunk b 0 m n) as Hs. rewrite Z.sub_0_r, Z.add_0_l in Hs.
  by rewrite <-Hs by lia.
Qed.
End lemmas.

Lemma add_or_ok {A} a b (e : result error A) k : a + b ≤ u64_max → add_or a b e k = k (a + b).
Proof. intros. unfold add_or. by rewrite checked_add_u64_ok. Qed.
Lemma add_or_over {A} a b (e : result error A) k : u64_max < a + b → add_or a b e k = e.
Proof. intros. unfold add_or. by rewrite (proj2 (checked_add_u64_None _ _)). Qed.

(** A frame whose header also has the zero padding every writer emits: the only
    frames a resynchronisation accepts. *)
Definition writer_frame_at `{Crc32c} (b : bytes) (off : Z) : option (record * Z) :=
  if has_writer_header_shape (slice b off HDR) then frame_at b off else None.
(** What may follow the end the walk reports without being damage. *)
Definition clean_tail (b : bytes) (off : Z) : Prop :=
  off = blen b ∨ Forall (eq 0) (slice b off (blen b - off)) ∨
  (off + HDR ≤ blen b ∧ h_plen (slice b off HDR) ≤ MAX_PAYLOAD_BYTES ∧
   blen b < off + HDR + h_plen (slice b off HDR)).

Section walk.
Context `{HC : Crc32c} {HL : Crc32cLaws}.
Context (b : bytes) (Hbytes : bytes_ok b) (Hsize : blen b ≤ i64_max).

Lemma field_range o n : is_u64 (le_num (slice b o n)) ∨ 8 < n.
Proof using Hbytes.
  destruct (decide (8 < n)); [by right|left].
  pose proof (le_num_bound (slice b o n) (bytes_ok_slice _ _ _ Hbytes)).
  pose proof (blen_slice_le b o n). pose proof (blen_nonneg (slice b o n)).
  pose proof (Z.pow_le_mono_r 256 (blen (slice b o n)) 8). unfold u64_max. lia.
Qed.
Lemma h_plen_slice off : 0 ≤ off → h_plen (slice b off HDR) = le_num (slice b off 4).
Proof using. intros. unfold h_plen, HDR. rewrite slice_slice by lia. by rewrite Z.add_0_r. Qed.
Lemma h_plen_range off : 0 ≤ off → 0 ≤ h_plen (slice b off HDR) ≤ u32_max.
Proof using Hbytes.
  intros. rewrite h_plen_slice by done.
  pose proof (le_num_bound (slice b off 4) (bytes_ok_slice _ _ _ Hbytes)).
  pose proof (blen_slice_le b off 4). pose proof (blen_nonneg (slice b off 4)).
  pose proof (Z.pow_le_mono_r 256 (blen (slice b off 4)) 4). unfold u32_max. lia.
Qed.
Lemma h_lsn_range off : 0 ≤ off → is_u64 (h_lsn (slice b off HDR)).
Proof using Hbytes.
  intros. unfold h_lsn, HDR. rewrite slice_slice by lia.
  destruct (field_range (off + 4) 8) as [|]; [done|lia].
Qed.

Lemma frame_at_Some off lsn kd payload next :
  frame_at b off = Some (lsn, kd, payload, next) ↔
  (0 ≤ off ∧ off + HDR ≤ blen b ∧ h_plen (slice b off HDR) ≤ MAX_PAYLOAD_BYTES ∧
   next ≤ blen b ∧ frame_crc (slice b off HDR) payload = h_crc (slice b off HDR) ∧ lsn + 1 ≤ u64_max) ∧
  lsn = h_lsn (slice b off HDR) ∧ from_u8 (h_kind (slice b off HDR)) = Some kd ∧
  payload = slice b (off + HDR) (h_plen (slice b off HDR)) ∧ next = off + HDR + h_plen (slice b off HDR).
Proof using.
  unfold frame_at. case_bool_decide as Hc; [|naive_solver].
  destruct (from_u8 _); naive_solver.
Qed.
Lemma frame_at_bounds off r next :
  frame_at b off = Some (r, next) → 0 ≤ off ∧ off + HDR ≤ next ≤ blen b.
Proof using Hbytes.
  destruct r as [[lsn kd] payload]. intros [(?&?&?&?&?&?) (?&?&?&?)]%frame_at_Some.
  pose proof (h_plen_range off). lia.
Qed.

Lemma crc_from_file_ok off :
  0 ≤ off → off + HDR ≤ blen b → off + HDR + h_plen (slice b off HDR) ≤ blen b →
  frame_crc_from_file (healthy b) (slice b off HDR) (off + HDR) (h_plen (slice b off HDR))
  = Ok (frame_crc (slice b off HDR) (slice b (off + HDR) (h_plen (slice b off HDR)))).
Proof using Hbytes Hsize HL.
  intros. pose proof (h_plen_range off). set (p := h_plen (slice b off HDR)) in *.
  unfold frame_crc_from_file. rewrite add_or_ok by width.
  pose proof (crc_chunks_ok b (off + HDR + p) (off + HDR)) as Hc.
  replace (off + HDR + p - (off + HDR)) with p in Hc by lia.
  rewrite Hc; [done|unfold HDR in *; lia|lia|].
  pose proof (crc32c_range (splice (slice b off HDR) 16 (zeros 4))). width.
Qed.

Lemma candidate_at_ok off :
  0 ≤ off ≤ blen b →
  candidate_at (healthy b) off (blen b)
  = Ok (match writer_frame_at b off with Some (_, kd, _, next) => Valid next kd | None => Invalid end).
Proof using Hbytes Hsize HL.
  intros Hoff. unfold candidate_at, writer_frame_at. rewrite checked_add_u64_ok by (unfold HDR; width).
  unfold frame_at. destruct (Z.ltb_spec (blen b) (off + HDR)).
  { rewrite bool_decide_false by lia. by destruct (has_writer_header_shape _). }
  rewrite read_healthy by done. cbn [rbind]. set (hdr := slice b off HDR).
  destruct (has_writer_header_shape hdr) eqn:Hsh; [|done]. cbn [negb].
  destruct (Z.ltb_spec MAX_PAYLOAD_BYTES (h_plen hdr)); [by rewrite bool_decide_false by lia|].
  pose proof (h_plen_range off). fold hdr in H1.
  rewrite checked_add_u64_ok by (unfold HDR in *; width).
  destruct (Z.ltb_spec (blen b) (off + HDR + h_plen hdr)); [by rewrite bool_decide_false by lia|].
  pose proof (crc_from_file_ok off) as Hcrc. fold hdr in Hcrc. rewrite Hcrc by lia. cbn [rbind].
  assert (h_lsn hdr + 1 ≤ u64_max) as Hlsn.
  { unfold has_writer_header_shape in Hsh. apply andb_prop in Hsh as [_ Hsh%bool_decide_eq_true].
    destruct Hsh as [x ?%checked_add_u64_Some]. lia. }
  destruct (Z.eqb_spec (frame_crc hdr (slice b (off + HDR) (h_plen hdr))) (h_crc hdr)) as [He|He]; cbn [negb].
  - rewrite bool_decide_true by (split_and!; done || lia).
    rewrite (checked_add_u64_ok (h_lsn hdr)) by done. by destruct (from_u8 (h_kind hdr)).
  - by rewrite bool_decide_false by naive_solver.
Qed.
Lemma verified_after_ok off :
  0 ≤ off ≤ blen b → ∃ v, has_verified_frame_after (healthy b) off (blen b) = Ok v ∧
    (v = false → ∀ o, off ≤ o → writer_frame_at b o = None) ∧
    (v = true → ∃ o r, off ≤ o ∧ writer_frame_at b o = Some r).
Proof using Hbytes Hsize HL.
  unfold has_verified_frame_after. remember (Z.to_nat (blen b - off)) as n eqn:Hn.
  revert off Hn. induction n as [|n IH]; intros off Hn Hoff; cbn [verified_after].
  - exists false. split_and!; [done| |done]. intros _ o ?. unfold writer_frame_at.
    destruct (has_writer_header_shape _); [|done].
    destruct (frame_at b o) as [[r next]|] eqn:E; [|done]. apply frame_at_bounds in E. unfold HDR in *. lia.
  - rewrite (proj2 (Z.ltb_lt _ _)) by lia. rewrite candidate_at_ok by lia. cbn [rbind].
    destruct (writer_frame_at b off) as [[[[lsn kd] p] next]|] eqn:E.
    + exists true. split_and!; [done|done|]. intros _. eexists off, _. split; [lia|done].
    + rewrite add_or_ok by width. destruct (IH (off + 1)) as (v & -> & Hf & Ht); [lia..|].
      exists v. split_and!; [done| |].
      * intros Hv o Ho. destruct (decide (o = off)) as [->|]; [done|]. apply Hf; [done|lia].
      * intros Hv. destruct (Ht Hv) as (o & r & ? & ?). exists o, r. split; [lia|done].
Qed.
Lemma is_all_zeros_ok off :
  0 ≤ off ≤ blen b →
  is_all_zeros (healthy b) off (blen b) = Ok (forallb (Z.eqb 0) (slice b off (blen b - off))).
Proof using. intros. by apply zero_chunks_ok. Qed.
Lemma forallb_zero (l : bytes) : forallb (Z.eqb 0) l = true ↔ Forall (eq 0) l.
Proof using.
  induction l as [|x l IH]; cbn [forallb]; [by split|].
  by rewrite andb_true_iff, IH, Z.eqb_eq, Forall_cons.
Qed.

Definition rec_lsn (r : record) : Z := r.1.1.

(** One turn of the walk, decided by the frame at [off]. *)
Lemma scan_step_frame off r next :
  frame_at b off = Some (r, next) →
  scan_step (healthy b) (blen b) off = Ok (inl (next, rec_lsn r + 1)).
Proof using Hbytes Hsize HL.
  intros Hf. pose proof (frame_at_bounds _ _ _ Hf). destruct r as [[lsn kd] payload].
  apply frame_at_Some in Hf as [(?&?&?&?&Hcrc&?) (->&Hk&->&->)].
  pose proof (h_plen_range off). unfold scan_step. rewrite add_or_ok by (unfold HDR in *; width).
  rewrite (proj2 (Z.ltb_ge _ _)) by lia. rewrite read_healthy by done. cbn [rbind].
  rewrite (proj2 (Z.ltb_ge _ _)) by lia. rewrite add_or_ok by width.
  rewrite (proj2 (Z.ltb_ge _ _)) by lia. rewrite crc_from_file_ok by lia. cbn [rbind].
  rewrite Hcrc, Z.eqb_refl. cbn [negb]. rewrite Hk, add_or_ok by done. done.
Qed.

Lemma zeros_no_frame off o :
  Forall (eq 0) (slice b off (blen b - off)) → 0 ≤ off → off ≤ o → writer_frame_at b o = None.
Proof using Hbytes.
  intros Hz ? Ho. unfold writer_frame_at, has_writer_header_shape.
  destruct (decide (o + HDR ≤ blen b)).
  - assert (h_kind (slice b o HDR) = 0) as ->; [|by rewrite andb_false_r].
    unfold h_kind, byte_at. apply list_lookup_total_correct.
    assert (slice b off (blen b - off) !! Z.to_nat (o + 12 - off) = b !! Z.to_nat (o + 12)) as E.
    { rewrite lookup_slice, decide_True by (unfold HDR in *; lia). f_equal. lia. }
    rewrite lookup_slice, decide_True by (unfold HDR in *; lia).
    replace (Z.to_nat o + Z.to_nat 12)%nat with (Z.to_nat (o + 12)) by lia. rewrite <-E.
    destruct (lookup_lt_is_Some_2 (slice b off (blen b - off)) (Z.to_nat (o + 12 - off))) as [x Hx].
    { assert (blen (slice b off (blen b - off)) = blen b - off) as Hl by (apply blen_slice; unfold HDR in *; lia).
      unfold blen in *. unfold HDR in *. lia. }
    rewrite Hx. f_equal. symmetry. by eapply (Forall_lookup_1 _ _ _ _ Hz).
  - destruct (_ && _); [|done]. destruct (frame_at b o) as [[r next]|] eqn:E; [|done].
    apply frame_at_bounds in E. lia.
Qed.

(** What each other answer of the turn means. *)
Lemma scan_step_stop off x :
  0 ≤ off ≤ blen b → frame_at b off = None →
  scan_step (healthy b) (blen b) off = x →
  (∃ why, x = Ok (inr (End why)) ∧ clean_tail b off ∧ ∀ o, off ≤ o → writer_frame_at b o = None) ∨
  (∃ why, x = Ok (inr (Damaged off why)) ∧ off < blen b) ∨
  (x = wal_err off "verified frame exhausts the log sequence number space" ∧ off < blen b).
Proof using Hbytes Hsize HL.
  intros Hoff Hf <-. pose proof (h_plen_range off ltac:(lia)) as Hp. pose proof (h_lsn_range off ltac:(lia)) as Hl.
  unfold scan_step. rewrite add_or_ok by (unfold HDR in *; width).
  assert (∀ why, ∃ why', @Ok error (Z * Z + Stop) (inr (Damaged off why)) = Ok (inr (Damaged off why'))) as Hd by eauto.
  destruct (Z.ltb_spec (blen b) (off + HDR)).
  { destruct (Z.eqb_spec off (blen b)) as [->|].
    - left. eexists. split_and!; [done|by left|]. intros o Ho. unfold writer_frame_at.
      destruct (has_writer_header_shape _); [|done].
      destruct (frame_at b o) as [[r next]|] eqn:E; [|done]. apply frame_at_bounds in E. unfold HDR in *; lia.
    - rewrite is_all_zeros_ok by lia. cbn [rbind]. destruct (forallb _ _) eqn:Hz.
      + apply forallb_zero in Hz. left. eexists. split_and!; [done|by right; left|].
        intros. apply (zeros_no_frame off); [done|lia|done].
      + right; left. eexists. split; [done|lia]. }
  rewrite read_healthy by done. cbn [rbind]. set (hdr := slice b off HDR) in *.
  assert (off < blen b) by (unfold HDR in *; lia).
  destruct (Z.ltb_spec MAX_PAYLOAD_BYTES (h_plen hdr)); [right; left; eauto|].
  rewrite add_or_ok by (unfold HDR in *; width).
  destruct (Z.ltb_spec (blen b) (off + HDR + h_plen hdr)).
  { destruct (negb _); [right; left; eauto|]. rewrite add_or_ok by width.
    destruct (verified_after_ok (off + 1)) as (v & -> & Hv & _); [lia|]. cbn [rbind].
    destruct v; [right; left; eauto|]. left. eexists. split_and!; [done|right; right; fold hdr; lia|].
    intros o Ho. destruct (decide (o = off)) as [->|]; [|apply Hv; [done|lia]].
    unfold writer_frame_at. by destruct (has_writer_header_shape _). }
  pose proof (crc_from_file_ok off ltac:(lia) ltac:(done) ltac:(done)) as Hcrc. fold hdr in Hcrc.
  rewrite Hcrc. cbn [rbind].
  destruct (Z.eqb_spec (frame_crc hdr (slice b (off + HDR) (h_plen hdr))) (h_crc hdr)) as [He|He]; cbn [negb].
  - unfold frame_at in Hf. fold hdr in Hf. destruct (from_u8 (h_kind hdr)); [|right; left; eauto].
    destruct (decide (h_lsn hdr + 1 ≤ u64_max)) as [|Hlt].
    + rewrite bool_decide_true in Hf by (split_and!; done || lia). done.
    + right; right. by rewrite add_or_over by lia.
  - rewrite is_all_zeros_ok by lia. cbn [rbind]. destruct (forallb _ _) eqn:Hz; [|right; left; eauto].
    apply forallb_zero in Hz. left. eexists. split_and!; [done|by right; left|].
    intros. apply (zeros_no_frame off); [done|lia|done].
Qed.
End walk.

Section chains.
Context `{HC : Crc32c}.

(** The lsn the walk hands on. *)
Definition next_of (next : Z) (recs : list record) : Z :=
  match last recs with Some r => rec_lsn r + 1 | None => next end.

Lemma chain_app b o r1 m r2 e : chain b o r1 m → chain b m r2 e → chain b o (r1 ++ r2) e.
Proof using. induction 1; intros; simpl; [done|]. econstructor; eauto. Qed.
Lemma chain_app_inv b r1 : ∀ o r2 e, chain b o (r1 ++ r2) e → ∃ m, chain b o r1 m ∧ chain b m r2 e.
Proof using.
  induction r1 as [|r r1 IH]; intros o r2 e Hc; simpl in Hc.
  - exists o. split; [constructor|done].
  - inversion Hc; subst. destruct (IH _ _ _ H4) as (m & ? & ?). exists m. split; [|done].
    by econstructor.
Qed.
Lemma chain_bounds b o recs e : bytes_ok b → chain b o recs e → 0 ≤ o ≤ blen b → o ≤ e ≤ blen b.
Proof using.
  intros Hb. induction 1 as [|o r next recs e Hf Hc IH]; [lia|].
  intros. apply frame_at_bounds in Hf; [|done]. unfold HDR in *. lia.
Qed.
Lemma chain_strict b o r recs e : bytes_ok b → chain b o (r :: recs) e → o + HDR ≤ e.
Proof using.
  intros Hb Hc. inversion Hc as [|? ? next ? ? Hf Hc']; subst.
  apply frame_at_bounds in Hf; [|done]. apply chain_bounds in Hc'; unfold HDR in *; [lia|done|lia].
Qed.

(** Appending bytes does not disturb the frames in front of them. *)
Lemma frame_at_app b c off r next :
  bytes_ok b → frame_at b off = Some (r, next) → frame_at (b ++ c) off = Some (r, next).
Proof using.
  intros Hb Hf. destruct r as [[lsn kd] payload]. pose proof (frame_at_bounds _ Hb _ _ _ Hf).
  apply frame_at_Some in Hf as [(?&?&?&?&Hcrc&?) (->&Hk&->&->)]. apply frame_at_Some.
  pose proof (h_plen_range b Hb off ltac:(lia)). pose proof (blen_nonneg c).
  assert (0 ≤ HDR) by done.
  rewrite (slice_app_l b c off HDR) by lia. rewrite blen_app, slice_app_l by lia.
  split_and!; done || lia.
Qed.
Lemma chain_app_bytes b c o recs e : bytes_ok b → chain b o recs e → chain (b ++ c) o recs e.
Proof using. intros Hb. induction 1; econstructor; eauto using frame_at_app. Qed.
(** Frames do not depend on what precedes them. *)
Lemma frame_at_shift a b off r next :
  bytes_ok b → frame_at b off = Some (r, next) → frame_at (a ++ b) (blen a + off) = Some (r, blen a + next).
Proof using.
  intros Hb Hf. destruct r as [[lsn kd] payload]. pose proof (frame_at_bounds _ Hb _ _ _ Hf).
  apply frame_at_Some in Hf as [(?&?&?&?&Hcrc&?) (->&Hk&->&->)]. apply frame_at_Some.
  pose proof (blen_nonneg a). rewrite blen_app.
  rewrite !(slice_app_r a b) by (unfold HDR; lia).
  replace (blen a + off - blen a) with off by lia.
  replace (blen a + off + HDR - blen a) with (off + HDR) by lia.
  split_and!; done || lia.
Qed.
Lemma chain_shift a b o recs e : bytes_ok b → chain b o recs e → chain (a ++ b) (blen a + o) recs (blen a + e).
Proof using. intros Hb. induction 1; econstructor; eauto using frame_at_shift. Qed.
(** A chain depends on its own bytes only. *)
Lemma chain_det b o recs e recs' e' :
  chain b o recs e → chain b o recs' e' → frame_at b e = None → frame_at b e' = None → recs = recs' ∧ e = e'.
Proof using.
  intros Hc. revert recs'. induction Hc as [o|o r next recs e Hf Hc IH]; intros recs' Hc' H1 H2;
    inversion Hc'; subst; simplify_eq; [done|]. destruct (IH recs0) as [-> ->]; done.
Qed.
End chains.

Section encoding.
Context `{HC : Crc32c} {HL : Crc32cLaws}.

Lemma blen_make_header lsn kd payload : blen (make_header lsn kd payload) = HDR.
Proof using. unfold make_header, HDR. by len. Qed.
Lemma blen_record_frame lsn kd payload : blen (frame (lsn, kd, payload)) = HDR + blen payload.
Proof using. unfold frame. by rewrite blen_app, blen_make_header. Qed.
Lemma frame_ok r : writable r → bytes_ok (frame r).
Proof using.
  destruct r as [[lsn kd] payload]. intros (_&_&_&?). unfold frame, make_header.
  apply bytes_ok_app. split; [|done]. apply bytes_ok_splice; [|auto with skj].
  apply bytes_ok_splice; [auto with skj|]. repeat constructor; by destruct kd.
Qed.
Lemma enc_ok recs : Forall writable recs → bytes_ok (enc recs).
Proof using.
  induction 1; [constructor|]. unfold enc. cbn [map concat]. apply bytes_ok_app. eauto using frame_ok.
Qed.
Lemma enc_app a b : enc (a ++ b) = enc a ++ enc b.
Proof using. unfold enc. by rewrite map_app, concat_app. Qed.
Lemma blen_enc_app a b : blen (enc (a ++ b)) = blen (enc a) + blen (enc b).
Proof using. by rewrite enc_app, blen_app. Qed.

Ltac hd := unfold HDR; repeat first
  [ rewrite slice_splice_inner by (autorewrite with skj_rw; lia)
  | rewrite slice_splice_other by (autorewrite with skj_rw; lia) ].

Lemma header_fields lsn kd payload :
  writable (lsn, kd, payload) →
  let hdr := make_header lsn kd payload in
  h_plen hdr = blen payload ∧ h_lsn hdr = lsn ∧ h_kind hdr = kind_code kd ∧
  slice hdr 13 3 = [0;0;0] ∧ frame_crc hdr payload = h_crc hdr.
Proof using HL.
  intros (?&?&?&?). cbn zeta. unfold h_plen, h_lsn, h_kind, h_crc, make_header.
  set (h0 := splice _ 12 [kind_code kd]).
  assert (blen h0 = 20) as Hh by (unfold h0; by len).
  assert (0 ≤ frame_crc h0 payload < 256 ^ Z.of_nat 4) as Hcrc.
  { unfold frame_crc. apply crc_append_range. pose proof (crc32c_range (splice h0 16 (zeros 4))). width. }
  pose proof (blen_nonneg payload). unfold MAX_PAYLOAD_BYTES, MAX_FRAME_BYTES, HDR in *.
  split_and!.
  - hd. unfold h0. hd. rewrite Z.sub_diag, slice_all by (by len). apply le_num_le_bytes. width.
  - hd. unfold h0. hd. rewrite Z.sub_diag, slice_all by (by len). apply le_num_le_bytes. width.
  - unfold byte_at. apply list_lookup_total_correct.
    rewrite lookup_splice, decide_False by (rewrite ?blen_le_bytes; lia). unfold h0.
    rewrite lookup_splice by (by len). rewrite decide_True by (by len). done.
  - hd. unfold h0. hd. done.
  - hd. rewrite Z.sub_diag, slice_all by (by len). rewrite le_num_le_bytes by done.
    unfold frame_crc. by rewrite splice_splice by (rewrite ?blen_le_bytes, ?Hh; done).
Qed.

Lemma frame_at_frame pre r post :
  writable r → frame_at (pre ++ frame r ++ post) (blen pre) = Some (r, blen pre + blen (frame r)).
Proof using HL.
  intros Hw. destruct r as [[lsn kd] payload]. destruct (header_fields _ _ _ Hw) as (Hp&Hl&Hk&_&Hc).
  destruct Hw as (?&?&?&?). pose proof (blen_nonneg pre). pose proof (blen_nonneg post).
  pose proof (blen_nonneg payload).
  assert (slice (pre ++ frame (lsn, kd, payload) ++ post) (blen pre) HDR = make_header lsn kd payload) as E.
  { rewrite slice_app_r by lia. rewrite Z.sub_diag. unfold frame. rewrite <-app_assoc.
    rewrite slice_app_exact; [done|]. by rewrite blen_make_header. }
  apply frame_at_Some. rewrite E, Hp, Hl, Hk, kind_roundtrip, !blen_app, blen_record_frame.
  split_and!; try done; try (unfold HDR in *; lia).
  rewrite slice_app_r by (unfold HDR; lia). unfold frame. rewrite <-app_assoc.
  rewrite slice_app_r by (rewrite blen_make_header; lia).
  replace (blen pre + HDR - blen pre - blen (make_header lsn kd payload)) with 0
    by (rewrite blen_make_header; lia).
  symmetry. by apply slice_app_exact.
Qed.
Lemma chain_enc pre recs post :
  Forall writable recs → chain (pre ++ enc recs ++ post) (blen pre) recs (blen pre + blen (enc recs)).
Proof using HL.
  intros Hw. revert pre. induction Hw as [|r recs Hr Hw IH]; intros pre.
  - unfold enc. simpl. rewrite Z.add_0_r. constructor.
  - unfold enc. cbn [map concat]. fold (enc recs). rewrite <-app_assoc. econstructor; [by apply frame_at_frame|].
    rewrite blen_app, Z.add_assoc, <-blen_app. rewrite app_assoc. apply IH.
Qed.
End encoding.

(** * What the walk and the open establish *)
Section opening.
Context `{HC : Crc32c} {HL : Crc32cLaws}.

Lemma next_of_cons next r recs : next_of next (r :: recs) = next_of (rec_lsn r + 1) recs.
Proof using. destruct recs using rev_ind; [done|]. unfold next_of. by rewrite app_comm_cons, !last_snoc. Qed.

Definition scan_outcome (b : bytes) (e next : Z) (x : result error Scan) : Prop :=
  (∃ why, x = Ok (mkScan e next (End why)) ∧ clean_tail b e ∧ ∀ o, e ≤ o → writer_frame_at b o = None) ∨
  (∃ why, x = Ok (mkScan e next (Damaged e why)) ∧ e < blen b) ∨
  (x = wal_err e "verified frame exhausts the log sequence number space" ∧ e < blen b).

Lemma scan_loop_cases b : bytes_ok b → blen b ≤ i64_max → ∀ n off next,
  0 ≤ off ≤ blen b → blen b - off < Z.of_nat n →
  ∃ recs e x, chain b off recs e ∧ e ≤ blen b ∧ frame_at b e = None ∧
    scan_loop n (healthy b) (blen b) off next = Some x ∧ scan_outcome b e (next_of next recs) x.
Proof using HL.
  intros Hb Hs. induction n as [|n IH]; intros off next Hoff Hn; [lia|]. cbn [scan_loop].
  destruct (frame_at b off) as [[r fe]|] eqn:Hf.
  - rewrite (scan_step_frame b Hb Hs _ _ _ Hf). pose proof (frame_at_bounds _ Hb _ _ _ Hf).
    destruct (IH fe (rec_lsn r + 1)) as (recs & e & x & ? & ? & ? & ? & ?); [unfold HDR in *; lia..|].
    exists (r :: recs), e, x. rewrite next_of_cons. split_and!; try done. by econstructor.
  - exists [], off.
    destruct (scan_step_stop b Hb Hs off _ Hoff Hf eq_refl) as [(why & -> & ?)|[(why & -> & ?)|[-> ?]]];
      eexists; (split_and!; [constructor|lia|done|reflexivity|]).
    + left. eauto.
    + right; left. eauto.
    + by right; right.
Qed.
Lemma scan_cases b : bytes_ok b → blen b ≤ i64_max →
  ∃ recs e x, chain b 0 recs e ∧ 0 ≤ e ≤ blen b ∧ frame_at b e = None ∧
    scan (healthy b) = Some x ∧ scan_outcome b e (next_of 1 recs) x.
Proof using HL.
  intros Hb Hs. pose proof (blen_nonneg b).
  destruct (scan_loop_cases b Hb Hs (S (Z.to_nat (blen b))) 0 1) as (recs & e & x & Hc & ? & ? & ? & ?); [lia..|].
  exists recs, e, x. pose proof (chain_bounds _ _ _ _ Hb Hc ltac:(lia)). split_and!; try done; lia.
Qed.

Lemma chain_take b recs e : bytes_ok b → chain b 0 recs e → e ≤ blen b →
  ∀ o, 0 ≤ o → ∀ rs, chain b o rs e → chain (take (Z.to_nat e) b) o rs e.
Proof using.
  intros Hb _ He o Ho rs Hc. revert Ho. induction Hc as [o|o [[lsn kd] payload] next rs e Hf Hc IH]; intros Ho; [constructor|].
  pose proof (frame_at_bounds _ Hb _ _ _ Hf). pose proof (chain_bounds _ _ _ _ Hb Hc ltac:(unfold HDR in *; lia)).
  econstructor; [|apply IH; unfold HDR in *; lia].
  apply frame_at_Some in Hf as [(?&?&?&?&Hcrc&?) (->&Hk&->&->)]. apply frame_at_Some.
  pose proof (h_plen_range b Hb o ltac:(lia)). assert (HDR = 20) by done. rewrite take_slice by lia.
  rewrite slice_slice by (unfold HDR in *; lia). rewrite Z.add_0_l, blen_slice by lia.
  rewrite slice_slice by (unfold HDR in *; lia). rewrite Z.add_0_l. split_and!; done || lia.
Qed.

(** A log in use: the bytes on disk are exactly the frames of the first
    [durable] records, the buffer holds the frames of the rest. *)
Record wal_rep (w : Wal) (recs : list record) (durable : nat) : Prop := {
  rep_healthy : faulty (file w) = no_fault;
  rep_bytes : bytes_ok (data (file w));
  rep_flushed : flushed w = blen (data (file w));
  rep_end : end_ w = flushed w + blen (buf w);
  rep_size : end_ w ≤ i64_max;
  rep_disk : chain (data (file w)) 0 (take durable recs) (flushed w);
  rep_buf : buf w = enc (drop durable recs);
  rep_mem : Forall writable (drop durable recs);
  rep_count : (durable ≤ length recs)%nat;
  rep_next : 0 ≤ next_lsn w;
}.

Lemma chain_lsns b o recs e :
  bytes_ok b → chain b o recs e → Forall (λ r, 0 ≤ rec_lsn r) recs.
Proof using.
  intros Hb. induction 1 as [|o [[lsn kd] p] next recs e Hf Hc IH]; constructor; [|done].
  pose proof (frame_at_bounds _ Hb _ _ _ Hf). apply frame_at_Some in Hf as [_ (-> & _)].
  apply h_lsn_range; [done|lia].
Qed.
Lemma next_of_nonneg recs : Forall (λ r, 0 ≤ rec_lsn r) recs → 0 ≤ next_of 1 recs.
Proof using.
  intros Hall. unfold next_of. destruct (last recs) eqn:E; [|lia].
  apply last_Some in E as [l ->]. apply Forall_app in Hall as [_ Hall]. inversion Hall as [|? ? Hr]. cbn in Hr. lia.
Qed.
Lemma opened_rep b recs e :
  bytes_ok b → blen b ≤ i64_max → chain b 0 recs e → 0 ≤ e ≤ blen b →
  wal_rep (mkWal (set_len (healthy b) e) e (next_of 1 recs) [] e None) recs (length recs).
Proof using.
  intros Hb Hs Hc He. split; cbn; rewrite ?firstn_all, ?drop_all; try done; try lia.
  - rewrite resize_shorter, take_slice by lia. auto with skj.
  - by rewrite blen_resize by lia.
  - rewrite blen_nil. lia.
  - rewrite resize_shorter by lia. eapply chain_take; [done|done|lia|lia|done].
  - by eapply next_of_nonneg, chain_lsns.
Qed.

(** What an open of any bytes answers. *)
Lemma open_cuts b :
  bytes_ok b → blen b ≤ i64_max →
  ∃ recs e, chain b 0 recs e ∧ 0 ≤ e ≤ blen b ∧ frame_at b e = None ∧
    ((∃ w, open_on (healthy b) = Some (Ok w) ∧ data (file w) = slice b 0 e ∧ wal_rep w recs (length recs) ∧
           next_lsn w = next_of 1 recs ∧
           clean_tail b e ∧ ∀ o, e ≤ o → writer_frame_at b o = None) ∨
     (∃ why, open_on (healthy b) = Some (wal_err e why))).
Proof using HL.
  intros Hb Hs. destruct (scan_cases b Hb Hs) as (recs & e & x & Hc & He & Hn & Hscan & Hout).
  exists recs, e. split_and!; [done|lia|lia|done|]. unfold open_on. rewrite Hscan. cbn [mbind option_bind].
  destruct Hout as [(why & -> & Ht & Hno)|[(why & -> & _)|[-> _]]]; cbn [rbind s_stop]; [left|right; eauto..].
  eexists. split; [reflexivity|]. cbn [s_end s_next_lsn file set_len data healthy next_lsn].
  split_and!; try done; [by rewrite resize_shorter by lia|]. by apply opened_rep.
Qed.
End opening.

Section steps.
Context `{HC : Crc32c} {HL : Crc32cLaws}.

(** The part of a log that recovery replays: up to the last [Commit]. *)
Fixpoint committed_prefix (recs : list record) : list record :=
  match recs with
  | [] => []
  | r :: recs =>
      match committed_prefix recs with
      | [] => if bool_decide (r.1.2 = Commit) then [r] else []
      | c => r :: c
      end
  end.
Lemma committed_prefix_spec recs :
  ∃ rest, recs = committed_prefix recs ++ rest ∧ Forall (λ r, r.1.2 ≠ Commit) rest ∧
          (committed_prefix recs = [] ∨ ∃ c pre, committed_prefix recs = pre ++ [c] ∧ c.1.2 = Commit).
Proof using.
  induction recs as [|r recs (rest & E & Hrest & Hl)]; cbn [committed_prefix]; [exists []; auto|].
  destruct (committed_prefix recs) as [|c0 cs] eqn:Hcp.
  - simpl in E. subst rest. case_bool_decide as Hr.
    + exists recs. split_and!; [done|done|]. right. by exists r, [].
    + exists (r :: recs). split_and!; [done| |by left]. by constructor.
  - exists rest. split_and!; [cbn; by f_equal|done|]. right.
    destruct Hl as [?|(c & pre & -> & Hc)]; [done|]. by exists c, (r :: pre).
Qed.

Lemma enc_nil recs : enc recs = [] → recs = [].
Proof using.
  destruct recs as [|[[lsn kd] p] rs]; [done|]. intros E%(f_equal blen).
  change (enc ((lsn, kd, p) :: rs)) with (frame (lsn, kd, p) ++ enc rs) in E.
  rewrite blen_app, blen_record_frame, blen_nil in E. change HDR with 20 in E.
  pose proof (blen_nonneg p). pose proof (blen_nonneg (enc rs)). lia.
Qed.
Lemma rep_empty_buf w recs d : wal_rep w recs d → buf w = [] → d = length recs.
Proof using.
  intros Hrep Hbuf. pose proof (rep_buf _ _ _ Hrep) as E. rewrite Hbuf in E.
  symmetry in E. apply enc_nil, (f_equal length) in E. rewrite length_drop in E. cbn in E.
  pose proof (rep_count _ _ _ Hrep). lia.
Qed.
Lemma flush_rep w recs d : wal_rep w recs d → wal_rep (flush w) recs (length recs).
Proof using HL.
  intros [Hh Hb Hf He Hs Hd Hbuf Hm Hc Hn]. unfold flush.
  destruct (buf w) as [|x l] eqn:Eb.
  - assert (drop d recs = []) as Hnil by (by apply enc_nil).
    assert (take d recs = recs) as Ht by (rewrite <-(take_drop d recs) at 2; by rewrite Hnil, app_nil_r).
    split; rewrite ?firstn_all, ?drop_all, ?Eb; try done. by rewrite <-Ht.
  - rewrite Hbuf in He |- *. clear x l Eb Hbuf. assert (Hsd : recs = take d recs ++ drop d recs) by (by rewrite take_drop).
    assert (overwrite (data (file w)) (flushed w) (enc (drop d recs)) = data (file w) ++ enc (drop d recs)) as Ho.
    { rewrite Hf. apply overwrite_end. }
    split; cbn [file write_at data faulty end_ next_lsn buf flushed];
      rewrite ?Ho, ?firstn_all, ?drop_all, ?blen_nil; try done; try lia.
    + apply bytes_ok_app. auto using enc_ok.
    + rewrite blen_app. lia.
    + rewrite Hsd at 2. eapply chain_app; [by apply chain_app_bytes|].
      pose proof (chain_enc (data (file w)) (drop d recs) [] Hm) as Hch. by rewrite app_nil_r, <-Hf in Hch.
Qed.
Lemma flush_empty w : buf (flush w) = [].
Proof using. unfold flush. by destruct (buf w) eqn:?. Qed.
Lemma flush_fields w : end_ (flush w) = end_ w ∧ next_lsn (flush w) = next_lsn w ∧ limit (flush w) = limit w.
Proof using. unfold flush. by destruct (buf w). Qed.

Lemma append_rep w recs d kd payload lsn w' :
  wal_rep w recs d → bytes_ok payload → append w kd payload = Ok (lsn, w') → end_ w' ≤ i64_max →
  lsn = next_lsn w ∧ next_lsn w' = lsn + 1 ∧ end_ w' = end_ w + HDR + blen payload ∧
  ∃ d', (d' = d ∨ d' = length recs + 1)%nat ∧ wal_rep w' (recs ++ [(lsn, kd, payload)]) d'.
Proof using HL.
  intros Hrep Hp. unfold append. pose proof (blen_nonneg payload).
  destruct (Z.ltb_spec MAX_PAYLOAD_BYTES (blen payload)) as [|Hmax]; [done|].
  destruct (decide (next_lsn w + 1 ≤ u64_max)); [rewrite add_or_ok by done|by rewrite add_or_over by lia].
  rewrite add_or_ok by (unfold MAX_PAYLOAD_BYTES, MAX_FRAME_BYTES, HDR in *; width).
  destruct (_ <? _); [done|].
  destruct (decide (end_ w + (HDR + blen payload) ≤ u64_max)); [rewrite add_or_ok by done|by rewrite add_or_over by lia].
  destruct (match limit w with Some _ => _ | None => _ end); [done|].
  set (w1 := mkWal _ _ _ _ _ _). intros [<- <-]%Ok_inj%pair_equal_spec Hend.
  assert (wal_rep w1 (recs ++ [(next_lsn w, kd, payload)]) d) as Hrep1.
  { assert (end_ w1 ≤ i64_max).
    { destruct (_ <=? _); [|done]. by rewrite (proj1 (flush_fields w1)) in Hend. }
    destruct Hrep as [Hh Hb Hf He Hs Hd Hbuf Hm Hc Hn]. split; cbn [w1 file end_ next_lsn buf flushed]; try done.
    - rewrite blen_app, blen_app, blen_make_header. lia.
    - by rewrite take_app_le by done.
    - rewrite drop_app_le by done. rewrite enc_app, Hbuf. f_equal. unfold enc. cbn. by rewrite app_nil_r.
    - rewrite drop_app_le by done. apply Forall_app. split; [done|]. constructor; [|done]. done.
    - rewrite length_app. lia.
    - lia. }
  destruct (flush_fields w1) as (Hfe & Hfn & _).
  split; [done|]. destruct (WAL_BUF <=? blen (buf w1)).
  - rewrite Hfe, Hfn. split_and!; [done|cbn; lia|]. exists (length recs + 1)%nat. split; [by right|].
    apply flush_rep in Hrep1. by rewrite length_app in Hrep1.
  - split_and!; [done|cbn; lia|]. exists d. split; [by left|done].
Qed.

Lemma rotate_rep w recs d : wal_rep w recs d → wal_rep (rotate w) [] 0.
Proof using.
  intros []. assert (resize (data (file w)) 0 = []) as Hr.
  { pose proof (blen_nonneg (data (file w))). by rewrite resize_shorter by lia. }
  split; cbn; rewrite ?Hr; try done; constructor.
Qed.
Lemma floor_rep w recs d n : wal_rep w recs d → wal_rep (set_lsn_floor w n) recs d.
Proof using.
  intros Hrep. unfold set_lsn_floor. destruct (Z.ltb_spec (next_lsn w) n); [|done].
  destruct Hrep. split; cbn; try done. lia.
Qed.

(** ** A crash *)
(** A partial frame at the end of the file is not a frame. *)
Lemma partial_frame_none pre r t more :
  writable r → frame r = t ++ more → more ≠ [] → frame_at (pre ++ t) (blen pre) = None.
Proof using HL.
  intros Hw Hf Hmore. destruct (frame_at (pre ++ t) (blen pre)) as [[r' next]|] eqn:E; [|done]. exfalso.
  destruct r as [[lsn kd] payload]. destruct r' as [[lsn' kd'] payload'].
  assert (blen more ≠ 0) by (intros ?%blen_0_nil; done). pose proof (blen_nonneg more).
  pose proof (blen_nonneg pre). pose proof (blen_record_frame lsn kd payload) as Hbf. rewrite Hf, blen_app in Hbf.
  apply frame_at_Some in E as [(?&He&?&Hn&_) (_&_&_&->)]. rewrite blen_app in *.
  assert (slice (pre ++ t) (blen pre) HDR = make_header lsn kd payload) as E.
  { rewrite slice_app_r, Z.sub_diag by lia. rewrite <-(slice_app_l t more) by (unfold HDR in *; lia).
    rewrite <-Hf. unfold frame. apply slice_app_exact. by rewrite blen_make_header. }
  rewrite E in *. rewrite (proj1 (header_fields _ _ _ Hw)) in Hn. lia.
Qed.
(** A prefix of encoded records: whole frames, then a partial one. *)
Lemma enc_prefix mem : Forall writable mem → ∀ t more, enc mem = t ++ more →
  ∃ m1 m2 p, mem = m1 ++ m2 ∧ t = enc m1 ++ p ∧
    (p = [] ∨ ∃ r m2' q, m2 = r :: m2' ∧ frame r = p ++ q ∧ q ≠ [] ∧ writable r).
Proof using.
  induction 1 as [|r mem Hr Hm IH]; intros t more E.
  { exists [], [], []. symmetry in E. apply app_eq_nil in E as [-> _]. auto. }
  change (enc (r :: mem)) with (frame r ++ enc mem) in E.
  destruct (decide (length t < length (frame r))%nat) as [Hlt|Hge].
  - exists [], (r :: mem), t. split_and!; [done|done|]. right.
    exists r, mem, (drop (length t) (frame r)). split_and!; [done| | |done].
    + rewrite <-(take_drop (length t) (frame r)) at 1. f_equal.
      apply (f_equal (take (length t))) in E. by rewrite take_app_le, take_app_length in E by lia.
    + intros E'. apply (f_equal length) in E'. rewrite length_drop in E'. simpl in E'. lia.
  - pose proof (f_equal (take (length (frame r))) E) as E1.
    rewrite take_app_length, take_app_le in E1 by lia.
    pose proof (f_equal (drop (length (frame r))) E) as E2.
    rewrite drop_app_length, drop_app_le in E2 by lia.
    destruct (IH _ _ E2) as (m1 & m2 & p & -> & Ht & Hp). exists (r :: m1), m2, p. split_and!; [done| |done].
    change (enc (r :: m1)) with (frame r ++ enc m1). rewrite <-app_assoc, <-Ht.
    rewrite <-(take_drop (length (frame r)) t) at 1. by rewrite <-E1.
Qed.

Lemma crash_chain w recs d t more :
  wal_rep w recs d → buf w = t ++ more →
  ∃ k, (d ≤ k ≤ length recs)%nat ∧ bytes_ok (data (file w) ++ t) ∧
    ∃ e, chain (data (file w) ++ t) 0 (take k recs) e ∧ flushed w ≤ e ≤ blen (data (file w) ++ t) ∧
         frame_at (data (file w) ++ t) e = None ∧ (e = blen (data (file w) ++ t) ∨ k < length recs)%nat.
Proof using HL.
  intros [Hh Hb Hf He Hs Hd Hbuf Hm Hc Hn] Ht. rewrite Hbuf in Ht.
  destruct (enc_prefix _ Hm t more Ht) as (m1 & m2 & p & Hmem & -> & Hp).
  pose proof (enc_ok _ Hm) as Hok. rewrite Ht in Hok. apply bytes_ok_app in Hok as [Hok _].
  assert (take (d + length m1) recs = take d recs ++ m1) as Htk.
  { rewrite <-(take_drop d recs) at 1. rewrite take_app_add' by (rewrite length_take; lia).
    by rewrite Hmem, take_app_length. }
  assert (length recs = d + length m1 + length m2)%nat as Hlen.
  { rewrite <-(take_drop d recs), length_app, length_take, Hmem, length_app. lia. }
  exists (d + length m1)%nat. split_and!; [lia|lia|by apply bytes_ok_app|].
  exists (blen (data (file w)) + blen (enc m1)).
  pose proof (blen_nonneg (enc m1)). pose proof (blen_nonneg p). rewrite !blen_app.
  rewrite Hmem in Hm. apply Forall_app in Hm as [Hm1 _].
  split_and!; [|lia|lia| |].
  - rewrite Htk. eapply chain_app; [by apply chain_app_bytes|]. rewrite Hf. by apply chain_enc.
  - rewrite app_assoc, <-blen_app. destruct Hp as [->|(r & m2' & q & -> & Hfr & Hq & Hw)].
    + rewrite app_nil_r. unfold frame_at. by rewrite bool_decide_false by (unfold HDR; lia).
    + by eapply partial_frame_none.
  - destruct Hp as [->|(r & m2' & q & -> & _)]; [left; rewrite blen_nil; lia|right]. simpl in Hlen. lia.
Qed.
End steps.

(** * Recovery *)
Section recovery.
Context `{HC : Crc32c} {HL : Crc32cLaws}.
Context (w : Wal) (Hh : faulty (file w) = no_fault) (Hb : bytes_ok (data (file w))).
Context (Hend : end_ w = blen (data (file w))) (Hsize : end_ w ≤ i64_max).

Lemma wal_read off n : off + n ≤ end_ w → read_at (file w) off n = Ok (slice (data (file w)) off n).
Proof using Hh Hend. intros. apply read_at_ok; [by rewrite Hh|unfold file_len; lia]. Qed.

(** What a turn of either pass needs of the frame it is on. *)
Lemma wal_frame off lsn kd payload next :
  frame_at (data (file w)) off = Some (lsn, kd, payload, next) →
  let hdr := slice (data (file w)) off 20 in
  0 ≤ off ∧ next = off + 20 + h_plen hdr ∧ off + 20 ≤ next ≤ end_ w ∧
  read_at (file w) off 20 = Ok hdr ∧ 0 ≤ h_plen hdr ≤ MAX_PAYLOAD_BYTES ∧
  from_u8 (h_kind hdr) = Some kd ∧ lsn = h_lsn hdr ∧
  read_at (file w) (off + 20) (h_plen hdr) = Ok payload ∧ frame_crc hdr payload = h_crc hdr.
Proof using All.
  intros Hf. pose proof (frame_at_bounds _ Hb _ _ _ Hf) as Hfb. cbn zeta.
  pose proof (proj1 (frame_at_Some _ _ _ _ _ _) Hf) as [(?&?&?&?&Hcrc&?) (->&Hk&->&->)].
  pose proof (h_plen_range _ Hb off ltac:(lia)). change HDR with 20 in *.
  rewrite !wal_read by lia. split_and!; done || lia.
Qed.

Lemma committed_loop_ok off recs e :
  chain (data (file w)) off recs e → e = end_ w → ∀ n c, 0 ≤ off → e - off < Z.of_nat n →
  ∃ c', committed_loop n w off c = Some (Ok c') ∧
    match committed_prefix recs with [] => c' = c | rs => chain (data (file w)) off rs c' end.
Proof using All.
  induction 1 as [off|off [[lsn kd] payload] next recs e Hf Hc IH]; intros -> n c Hoff Hn.
  - destruct n as [|n]; [lia|]. cbn [committed_loop]. rewrite Z.ltb_irrefl. by exists c.
  - destruct (wal_frame _ _ _ _ _ Hf) as (_&Hnx&?&Hrd&?&Hk&_).
    destruct n as [|n]; [lia|]. cbn [committed_loop]. change HDR with 20.
    rewrite (proj2 (Z.ltb_lt _ _)), Hrd by lia. rewrite (proj2 (Z.ltb_ge _ _)) by lia.
    rewrite (checked_add_u64_ok off) by width. cbn [mbind option_bind].
    rewrite checked_add_u64_ok by width. rewrite <-Hnx, (proj2 (Z.ltb_ge _ _)), Hk by lia.
    destruct (IH eq_refl n (if bool_decide (kd = Commit) then next else c)) as (c' & -> & Hc'); [lia..|].
    exists c'. split; [done|]. cbn [committed_prefix fst snd].
    destruct (committed_prefix recs) as [|r0 rs]; [|by econstructor].
    subst c'. case_bool_decide; [|done]. econstructor; [done|constructor].
Qed.

Lemma record_at_ok off r next c :
  frame_at (data (file w)) off = Some (r, next) → next ≤ c ≤ end_ w →
  record_at w off c = Ok (Some (r, next)).
Proof using All.
  destruct r as [[lsn kd] payload]. intros Hf Hc.
  destruct (wal_frame _ _ _ _ _ Hf) as (?&Hnx&?&Hrd&?&Hk&->&Hpay&Hcrc).
  unfold record_at. change HDR with 20.
  rewrite (proj2 (Z.eqb_neq _ _)), !(proj2 (Z.ltb_ge _ _)) by lia. cbn [orb].
  rewrite add_or_ok by width. rewrite (proj2 (Z.ltb_ge _ _)), Hrd by lia. cbn [rbind].
  rewrite (proj2 (Z.ltb_ge _ _)) by lia. rewrite add_or_ok by width. rewrite <-Hnx.
  rewrite (proj2 (Z.ltb_ge _ _)), Hpay by lia. cbn [rbind]. by rewrite Hcrc, Z.eqb_refl, Hk.
Qed.
Lemma replay_ok off recs c :
  chain (data (file w)) off recs c → c ≤ end_ w → ∀ n, 0 ≤ off → c - off < Z.of_nat n →
  replay n w off c = Some (Ok recs).
Proof using All.
  induction 1 as [off|off [[lsn kd] payload] next recs e Hf Hc IH]; intros Hce n Hoff Hn;
    (destruct n as [|n]; [|cbn [replay]]).
  - lia.
  - unfold record_at. by rewrite Z.eqb_refl.
  - pose proof (frame_at_bounds _ Hb _ _ _ Hf). change HDR with 20 in *.
    pose proof (chain_bounds _ _ _ _ Hb Hc). lia.
  - pose proof (frame_at_bounds _ Hb _ _ _ Hf). change HDR with 20 in *.
    pose proof (chain_bounds _ _ _ _ Hb Hc ltac:(lia)).
    rewrite (record_at_ok off (lsn, kd, payload) next) by (done || lia).
    rewrite IH by lia. done.
Qed.
End recovery.

Section recovered.
Context `{HC : Crc32c} {HL : Crc32cLaws}.

Lemma rep_all_on_disk w recs d :
  wal_rep w recs d → buf w = [] → chain (data (file w)) 0 recs (end_ w) ∧ end_ w = blen (data (file w)).
Proof using HL.
  intros Hrep Hbuf. pose proof (flush_rep _ _ _ Hrep) as Hrep'. unfold flush in Hrep'. rewrite Hbuf in Hrep'.
  pose proof (rep_end _ _ _ Hrep') as He. pose proof (rep_flushed _ _ _ Hrep').
  pose proof (rep_disk _ _ _ Hrep') as Hd. rewrite Hbuf, blen_nil in He. rewrite firstn_all in Hd.
  replace (end_ w) with (flushed w) by lia. split; [done|lia].
Qed.

Lemma chain_end_det b o rs e e' : chain b o rs e → chain b o rs e' → e = e'.
Proof using.
  intros Hc. induction Hc; intros Hc'; inversion Hc'; subst; simplify_eq; auto.
Qed.
Lemma committed_prefix_idem recs : committed_prefix (committed_prefix recs) = committed_prefix recs.
Proof using.
  induction recs as [|r recs IH]; [done|]. cbn [committed_prefix].
  destruct (committed_prefix recs) as [|r0 rs].
  - case_bool_decide as Hr; [|done]. cbn. by rewrite bool_decide_true.
  - cbn [committed_prefix] in *. by rewrite IH.
Qed.

Lemma wal_recovery_ok w recs d :
  wal_rep w recs d → buf w = [] →
  ∃ c, committed_end w = Some (Ok c) ∧ chain (data (file w)) 0 (committed_prefix recs) c ∧
       replay (S (Z.to_nat c)) w 0 c = Some (Ok (committed_prefix recs)) ∧
       wal_rep (cut_to_committed w c) (committed_prefix recs) (length (committed_prefix recs)) ∧
       committed_end (cut_to_committed w c) = Some (Ok c).
Proof using HL.
  intros Hrep Hbuf. destruct (rep_all_on_disk _ _ _ Hrep Hbuf) as [Hc He].
  destruct Hrep as [Hh Hb Hfl _ Hs _ _ _ _ Hn]. pose proof (blen_nonneg (data (file w))).
  destruct (committed_loop_ok w Hh Hb He Hs 0 recs _ Hc eq_refl (S (Z.to_nat (end_ w))) 0) as (c & Hrun & Hpre); [lia..|].
  assert (chain (data (file w)) 0 (committed_prefix recs) c) as Hcc.
  { destruct (committed_prefix recs); [subst c; constructor|done]. }
  pose proof (chain_bounds _ _ _ _ Hb Hcc ltac:(lia)) as Hcb.
  assert (wal_rep (cut_to_committed w c) (committed_prefix recs) (length (committed_prefix recs))) as Hcut.
  { unfold cut_to_committed. destruct (Z.ltb_spec c (end_ w)).
    - split; cbn; rewrite ?firstn_all, ?drop_all, ?resize_shorter by lia; try done; try lia.
      + rewrite take_slice by lia. auto with skj.
      + rewrite take_slice, blen_slice by lia. done.
      + rewrite blen_nil. lia.
      + eapply chain_take; [done|done|lia|lia|done].
    - assert (c = end_ w) as -> by lia.
      split; rewrite ?firstn_all, ?drop_all, ?Hbuf, ?blen_nil; try done; try lia.
      by replace (flushed w) with (end_ w) by lia. }
  exists c. split_and!; [unfold committed_end; by rewrite Hbuf|done| |done|].
  { apply replay_ok; done || lia. }
  assert (buf (cut_to_committed w c) = []) as Hbuf'.
  { unfold cut_to_committed. by destruct (_ <? _). }
  destruct (rep_all_on_disk _ _ _ Hcut Hbuf') as [Hc2 He2].
  destruct Hcut as [Hh2 Hb2 _ _ Hs2 _ _ _ _ _].
  assert (end_ (cut_to_committed w c) = c) as Hec.
  { unfold cut_to_committed. destruct (Z.ltb_spec c (end_ w)); [done|]. lia. }
  destruct (committed_loop_ok _ Hh2 Hb2 He2 Hs2 0 _ _ Hc2 eq_refl
              (S (Z.to_nat (end_ (cut_to_committed w c)))) 0) as (c2 & Hrun2 & Hpre2); [lia..|].
  unfold committed_end. rewrite Hbuf', Hrun2. do 2 f_equal.
  rewrite committed_prefix_idem in Hpre2.
  destruct (committed_prefix recs) as [|r0 rs] eqn:Ep.
  - by subst.
  - rewrite Hec in Hc2. by eapply chain_end_det.
Qed.

Lemma reopen_ok w recs d :
  wal_rep w recs d → buf w = [] →
  ∃ w', open_on (healthy (data (file w))) = Some (Ok w') ∧ wal_rep w' recs (length recs) ∧
        next_lsn w' = next_of 1 recs ∧ buf w' = [] ∧ data (file w') = data (file w).
Proof using HL.
  intros Hrep Hbuf. destruct (rep_all_on_disk _ _ _ Hrep Hbuf) as [Hc He].
  destruct Hrep as [Hh Hb _ _ Hs _ _ _ _ _]. set (b := data (file w)) in *.
  assert (frame_at b (end_ w) = None) as Hnone.
  { unfold frame_at. change HDR with 20. by rewrite bool_decide_false by lia. }
  destruct (scan_cases b Hb ltac:(lia)) as (recs' & e' & x & Hc' & He' & Hn' & Hscan & Hout).
  destruct (chain_det _ _ _ _ _ _ Hc Hc' Hnone Hn') as [<- <-].
  destruct Hout as [(why & -> & _)|[(why & -> & ?)|[-> ?]]]; [|lia..].
  eexists. split; [unfold open_on; rewrite Hscan; reflexivity|].
  split_and!; [cbn; apply opened_rep; [done|lia|done|lia]|done|done|].
  cbn. rewrite He, resize_shorter by lia. apply take_ge. unfold blen. lia.
Qed.
Lemma open_rep b w :
  bytes_ok b → blen b ≤ i64_max → open_on (healthy b) = Some (Ok w) →
  ∃ recs, chain b 0 recs (end_ w) ∧ wal_rep w recs (length recs) ∧ buf w = [].
Proof using HL.
  intros Hb Hs Hopen. destruct (scan_cases b Hb Hs) as (recs & e & x & Hc & He & Hn & Hscan & Hout).
  unfold open_on in Hopen. rewrite Hscan in Hopen. cbn [mbind option_bind] in Hopen.
  destruct Hout as [(why & -> & _)|[(why & -> & _)|[-> _]]]; [|done..].
  cbn [rbind s_stop] in Hopen. apply Some_Ok_inj in Hopen as <-.
  exists recs. split_and!; [done|by apply opened_rep|done].
Qed.

(** C6: recovery of any log file that opens never runs out of
    fuel, fails or asserts.  The first pass finds the end of the last commit,
    the second reads back exactly the records up to it, and after the cut the
    file holds those records and no others: a later start reads back the same
    records, so no later commit can adopt an uncommitted one. *)
Theorem wal_recovery_replays_committed b w :
  bytes_ok b → blen b ≤ i64_max → open_on (healthy b) = Some (Ok w) →
  ∃ recs c, chain b 0 recs (end_ w) ∧ committed_end w = Some (Ok c) ∧
    replay (S (Z.to_nat c)) w 0 c = Some (Ok (committed_prefix recs)) ∧
    ∃ w2, open_on (healthy (data (file (cut_to_committed w c)))) = Some (Ok w2) ∧
          committed_end w2 = Some (Ok c) ∧
          replay (S (Z.to_nat c)) w2 0 c = Some (Ok (committed_prefix recs)).
Proof using HL.
  intros Hb Hs Hopen. destruct (open_rep b w Hb Hs Hopen) as (recs & Hc & Hrep & Hbuf).
  destruct (wal_recovery_ok w recs _ Hrep Hbuf) as (c & Hce & Hcb & Hrp & Hcut & Hcc).
  exists recs, c. split_and!; [done|done|done|].
  assert (buf (cut_to_committed w c) = []) as Hbuf'.
  { unfold cut_to_committed. by destruct (_ <? _). }
  destruct (reopen_ok _ _ _ Hcut Hbuf') as (w2 & Hopen2 & Hrep2 & _ & Hbuf2 & Hdata).
  destruct (wal_recovery_ok w2 _ _ Hrep2 Hbuf2) as (c2 & Hce2 & Hcb2 & Hrp2 & _ & _).
  rewrite committed_prefix_idem in Hrp2, Hcb2. rewrite Hdata in Hcb2.
  destruct (wal_recovery_ok _ _ _ Hcut Hbuf') as (c3 & Hcc' & Hcb3 & _).
  rewrite Hcc in Hcc'. apply Some_Ok_inj in Hcc' as <-. rewrite committed_prefix_idem in Hcb3.
  rewrite (chain_end_det _ _ _ _ _ Hcb2 Hcb3) in *. by exists w2.
Qed.
End recovered.

(** * Sessions: what the log promises *)
Section sessions.
Context `{HC : Crc32c} {HL : Crc32cLaws}.

(** The abstract log: its records, how many of them a crash cannot take, and
    the next sequence number. *)
Record alog := ALog { a_recs : list record; a_durable : nat; a_next : Z }.
Inductive astep : alog → alog → Prop :=
  | a_append recs d n kd p d' : (d' = d ∨ d' = length recs + 1)%nat →
      astep (ALog recs d n) (ALog (recs ++ [(n, kd, p)]) d' (n + 1))
  | a_flush recs d n : astep (ALog recs d n) (ALog recs (length recs) n)
  | a_rotate recs d n : astep (ALog recs d n) (ALog [] 0 n)
  | a_floor recs d n m : astep (ALog recs d n) (ALog recs d (Z.max n m))
  | a_cut recs n : astep (ALog recs (length recs) n)
                         (ALog (committed_prefix recs) (length (committed_prefix recs)) n)
  | a_crash recs d n k : (d ≤ k ≤ length recs)%nat →
      astep (ALog recs d n) (ALog (take k recs) k (next_of 1 (take k recs))).

(** The code's steps.  A crash leaves the file with any part [t] of what the
    last write was putting down, and the next start opens what is there. *)
Inductive wal_step : Wal → Wal → Prop :=
  | s_append w kd p lsn w' : bytes_ok p → append w kd p = Ok (lsn, w') → end_ w' ≤ i64_max → wal_step w w'
  | s_flush w : wal_step w (flush w)
  | s_rotate w : wal_step w (rotate w)
  | s_floor w m : wal_step w (set_lsn_floor w m)
  | s_cut w c : buf w = [] → committed_end w = Some (Ok c) → wal_step w (cut_to_committed w c)
  | s_crash w t rest w' : buf w = t ++ rest →
      open_on (healthy (data (file w) ++ t)) = Some (Ok w') → wal_step w w'.

Definition log_rep (w : Wal) (a : alog) : Prop :=
  wal_rep w (a_recs a) (a_durable a) ∧ next_lsn w = a_next a.

Lemma open_maximal b recs e w :
  bytes_ok b → blen b ≤ i64_max → chain b 0 recs e → frame_at b e = None →
  open_on (healthy b) = Some (Ok w) → wal_rep w recs (length recs) ∧ next_lsn w = next_of 1 recs.
Proof using HL.
  intros Hb Hs Hc Hn Hopen.
  destruct (scan_cases b Hb Hs) as (recs' & e' & x & Hc' & He & Hn' & Hscan & Hout).
  destruct (chain_det _ _ _ _ _ _ Hc Hc' Hn Hn') as [-> ->].
  unfold open_on in Hopen. rewrite Hscan in Hopen. cbn [mbind option_bind] in Hopen.
  destruct Hout as [(why & -> & _)|[(why & -> & _)|[-> _]]]; [|done..].
  cbn [rbind s_stop] in Hopen. apply Some_Ok_inj in Hopen as <-. split; [by apply opened_rep|done].
Qed.

Lemma wal_step_simulates w a w' :
  log_rep w a → wal_step w w' → ∃ a', astep a a' ∧ log_rep w' a'.
Proof using HL.
  intros [Hrep Hnext] Hstep. destruct a as [recs d n]. cbn [a_recs a_durable a_next] in *.
  destruct Hstep as [w kd p lsn w' Hp Happ Hend|w|w|w m|w c Hbuf Hce|w t rest w' Hbuf Hopen].
  - destruct (append_rep _ _ _ _ _ _ _ Hrep Hp Happ Hend) as (-> & Hn' & _ & d' & Hd & Hrep').
    rewrite Hnext in *. eexists. split; [by apply a_append|]. by split.
  - eexists. split; [apply a_flush|]. split; [by eapply flush_rep|]. cbn. by rewrite (proj1 (proj2 (flush_fields w))).
  - eexists. split; [apply a_rotate|]. split; [by eapply rotate_rep|done].
  - eexists. split; [apply a_floor with (m := m)|]. split; [by apply floor_rep|].
    unfold set_lsn_floor. cbn. destruct (Z.ltb_spec (next_lsn w) m); cbn; lia.
  - pose proof (rep_empty_buf _ _ _ Hrep Hbuf) as ->.
    destruct (wal_recovery_ok w recs _ Hrep Hbuf) as (c' & Hce' & _ & _ & Hcut & _).
    rewrite Hce in Hce'. apply Some_Ok_inj in Hce' as <-.
    eexists. split; [apply a_cut|]. split; [done|]. unfold cut_to_committed. by destruct (_ <? _).
  - destruct (crash_chain _ _ _ _ _ Hrep Hbuf) as (k & Hk & Hbt & e & Hc & He & Hn & _).
    assert (blen (data (file w) ++ t) ≤ i64_max).
    { pose proof (rep_size _ _ _ Hrep). pose proof (rep_end _ _ _ Hrep). pose proof (rep_flushed _ _ _ Hrep).
      rewrite Hbuf, blen_app in *. pose proof (blen_nonneg rest). lia. }
    destruct (open_maximal _ _ _ _ Hbt ltac:(done) Hc Hn Hopen) as [Hr Hnx].
    eexists. split; [by apply a_crash|]. split; [|done]. cbn. by rewrite length_take, Nat.min_l in Hr by lia.
Qed.

(** Sequence numbers of a log: strictly increasing, all below the next. *)
Definition lsns_ok (a : alog) : Prop :=
  StronglySorted Z.lt (map rec_lsn (a_recs a)) ∧ Forall (λ r, rec_lsn r < a_next a) (a_recs a) ∧
  0 < a_next a.
Lemma sorted_prefix (l1 l2 : list Z) : StronglySorted Z.lt (l1 ++ l2) → StronglySorted Z.lt l1.
Proof using.
  induction l1 as [|x l1 IH]; intros Hs; [constructor|]. inversion Hs; subst. constructor; [by apply IH|].
  by apply Forall_app in H2 as [? _].
Qed.
Lemma sorted_snoc (l : list Z) x : StronglySorted Z.lt l → Forall (λ y, y < x) l → StronglySorted Z.lt (l ++ [x]).
Proof using.
  induction 1 as [|y l Hs IH Hy]; intros Hx; cbn; [by repeat constructor|].
  inversion Hx; subst. constructor; [by apply IH|]. apply Forall_app. split; [done|by constructor].
Qed.
Lemma sorted_below_last recs n : StronglySorted Z.lt (map rec_lsn recs) → 0 < n →
  Forall (λ r, rec_lsn r < next_of n recs) recs.
Proof using.
  intros Hs Hn. induction recs as [|r recs IH] using rev_ind; [constructor|].
  unfold next_of. rewrite last_snoc. rewrite map_app in Hs. apply Forall_app. split; [|by constructor; [lia|]].
  clear IH. induction recs as [|r0 recs IH]; [constructor|]. cbn in Hs. inversion Hs; subst.
  apply Forall_app in H2 as [_ H2]. constructor; [|by apply IH]. inversion H2; subst. lia.
Qed.
Lemma lsns_prefix recs rest d n d' :
  lsns_ok (ALog (recs ++ rest) d n) → lsns_ok (ALog recs d' n).
Proof using.
  intros (Hs & Hf & Hn). cbn in *. rewrite map_app in Hs. apply Forall_app in Hf as [? _].
  split_and!; [by eapply sorted_prefix|done|done].
Qed.
Lemma astep_lsns a a' : astep a a' → Forall (λ r, 0 ≤ rec_lsn r) (a_recs a) →
  lsns_ok a → lsns_ok a' ∧ Forall (λ r, 0 ≤ rec_lsn r) (a_recs a').
Proof using.
  intros Hstep Hpos Hok. destruct Hstep as [recs d n kd p d' Hd|recs d n|recs d n|recs d n m|recs n|recs d n k Hk];
    cbn [a_recs] in *.
  - destruct Hok as (Hs & Hf & Hn). cbn in *. split; [split_and!|].
    + cbn. rewrite map_app. apply sorted_snoc; [done|]. by apply Forall_map.
    + cbn. apply Forall_app. split; [|constructor; [cbn; lia|constructor]].
      eapply Forall_impl; [done|]. cbn. lia.
    + cbn. lia.
    + apply Forall_app. split; [done|]. constructor; [cbn; lia|constructor].
  - by destruct Hok as (?&?&?).
  - destruct Hok as (?&?&?). split; [split_and!; [constructor|constructor|done]|constructor].
  - destruct Hok as (?&Hf&?). cbn in *. split; [split_and!; cbn; [done| |lia]|done].
    eapply Forall_impl; [done|]. cbn. lia.
  - destruct (committed_prefix_spec recs) as (rest & E & _). rewrite E in Hok, Hpos.
    split; [by eapply lsns_prefix|]. by apply Forall_app in Hpos as [? _].
  - rewrite <-(take_drop k recs) in Hok, Hpos. apply lsns_prefix with (d' := k) in Hok as (Hs & _ & _).
    apply Forall_app in Hpos as [Hpos _]. split; [|done].
    split_and!; [done|by apply sorted_below_last|]. cbn.
    unfold next_of. destruct (last (take k recs)) as [r|] eqn:El; [|lia].
    apply last_Some in El as [l El]. rewrite El in Hpos. apply Forall_app in Hpos as [_ Hp].
    inversion Hp; subst. lia.
Qed.

Definition fresh : Wal := mkWal (healthy []) 0 1 [] 0 None.
Definition afresh : alog := ALog [] 0 1.

End sessions.

(** * Device errors *)
Section faults.
Context `{HC : Crc32c} {HL : Crc32cLaws}.

(** [x] answers nothing that [y] does not. *)
Definition below {A} (x y : result error A) : Prop := ∀ a, x = Ok a → y = Ok a.
Lemma below_refl {A} (x : result error A) : below x x.
Proof using. by intros a. Qed.
Lemma below_bind {A B} (x y : result error A) (k k' : A → result error B) :
  below x y → (∀ a, below (k a) (k' a)) → below (rbind x k) (rbind y k').
Proof using. intros Hxy Hk b Hb. destruct x as [a|]; [|done]. rewrite (Hxy a eq_refl). by apply Hk. Qed.
Lemma below_add_or {A} a b (e e' : result error A) k k' :
  below e e' → (∀ c, below (k c) (k' c)) → below (add_or a b e k) (add_or a b e' k').
Proof using. unfold add_or. by destruct (checked_add_u64 a b). Qed.
Lemma below_read f off n : below (read_at f off n) (read_at (healthy (data f)) off n).
Proof using. intros r. apply read_at_perfect. Qed.

(** Walks a body against itself on the healthy file. *)
Ltac below_step :=
  lazymatch goal with
  | |- below (rbind _ _) (rbind _ _) => apply below_bind; [|intros ?]
  | |- below (add_or _ _ _ _) (add_or _ _ _ _) => apply below_add_or; [apply below_refl|intros ?]
  | |- below (read_at _ _ _) (read_at _ _ _) => apply below_read
  | |- below (if ?c then _ else _) _ => destruct c
  | |- below (match ?c with _ => _ end) (match ?c with _ => _ end) => destruct c
  | |- below ?x ?x => apply below_refl
  end.
Ltac below := repeat below_step; eauto using below_refl.

Lemma below_crc_chunks f n : ∀ at_ e c, below (crc_chunks n f at_ e c) (crc_chunks n (healthy (data f)) at_ e c).
Proof using. induction n; intros; cbn [crc_chunks]; below. Qed.
Lemma below_frame_crc f hdr a n :
  below (frame_crc_from_file f hdr a n) (frame_crc_from_file (healthy (data f)) hdr a n).
Proof using. unfold frame_crc_from_file. below. apply below_crc_chunks. Qed.
Lemma below_zeros f n : ∀ at_ len, below (zero_chunks n f at_ len) (zero_chunks n (healthy (data f)) at_ len).
Proof using. induction n; intros; cbn [zero_chunks]; below. Qed.
Lemma below_candidate f off len : below (candidate_at f off len) (candidate_at (healthy (data f)) off len).
Proof using. unfold candidate_at. below; apply below_frame_crc. Qed.
Lemma below_verified f n : ∀ off len, below (verified_after n f off len) (verified_after n (healthy (data f)) off len).
Proof using. induction n; intros; cbn [verified_after]; below; apply below_candidate. Qed.
Lemma below_scan_step f len off : below (scan_step f len off) (scan_step (healthy (data f)) len off).
Proof using.
  unfold scan_step, is_all_zeros, has_verified_frame_after. below;
    try apply below_zeros; try apply below_frame_crc; apply below_verified.
Qed.
Lemma scan_loop_faults f len n : ∀ off next s,
  scan_loop n f len off next = Some (Ok s) → scan_loop n (healthy (data f)) len off next = Some (Ok s).
Proof using.
  induction n as [|n IH]; intros off next s; cbn [scan_loop]; [done|].
  destruct (scan_step f len off) as [x|] eqn:E; [|done]. rewrite (below_scan_step f len off x E).
  destruct x as [[? ?]|]; eauto.
Qed.
Lemma scan_step_inl b off fe nx :
  bytes_ok b → blen b ≤ i64_max → 0 ≤ off ≤ blen b →
  scan_step (healthy b) (blen b) off = Ok (inl (fe, nx)) → off < fe ≤ blen b.
Proof using HL.
  intros Hb Hs Hoff Hstep. destruct (frame_at b off) as [[r next]|] eqn:Hf.
  - rewrite (scan_step_frame b Hb Hs _ _ _ Hf) in Hstep. pose proof (frame_at_bounds _ Hb _ _ _ Hf).
    change HDR with 20 in *. apply Ok_inj in Hstep. injection Hstep as <- _. lia.
  - destruct (scan_step_stop b Hb Hs off _ Hoff Hf Hstep) as [(?&?&_)|[(?&?&_)|[? _]]]; done.
Qed.
Lemma scan_loop_total f n : bytes_ok (data f) → file_len f ≤ i64_max → ∀ off next,
  0 ≤ off ≤ file_len f → file_len f - off < Z.of_nat n → scan_loop n f (file_len f) off next ≠ None.
Proof using HL.
  intros Hb Hs. induction n as [|n IH]; intros off next Hoff Hn; cbn [scan_loop]; [lia|].
  destruct (scan_step f (file_len f) off) as [x|] eqn:E; [|done].
  destruct x as [[fe nx]|]; [|done]. apply below_scan_step, scan_step_inl in E; [|done..].
  unfold file_len in *. apply IH; lia.
Qed.

(** A device error is never taken for the end of the log. *)
Lemma open_device_errors f :
  bytes_ok (data f) → file_len f ≤ i64_max →
  open_on f ≠ None ∧ ∀ w, open_on f = Some (Ok w) →
    ∃ w0, open_on (healthy (data f)) = Some (Ok w0) ∧
      data (file w) = data (file w0) ∧ end_ w = end_ w0 ∧ next_lsn w = next_lsn w0.
Proof using HL.
  intros Hb Hs. pose proof (blen_nonneg (data f)) as Hl.
  pose proof (scan_loop_total f (S (Z.to_nat (file_len f))) Hb Hs 0 1) as Ht.
  unfold open_on, scan. destruct (scan_loop _ f _ _ _) as [x|] eqn:E.
  2:{ exfalso. apply Ht; [unfold file_len in *; lia..|done]. }
  cbn [mbind option_bind]. split; [done|].
  destruct x as [s|]; cbn [rbind]; [|done]. apply scan_loop_faults in E.
  change (file_len (healthy (data f))) with (file_len f). rewrite E. cbn [mbind option_bind rbind].
  destruct (s_stop s); [|done]. intros w <-%Some_Ok_inj. eexists. by split.
Qed.

(** C20: opening any log file (any bytes) terminates, and either
    - succeeds on the maximal run of verified frames from the start, having
      cut off a tail in which no frame of this writer begins at any offset,
      and which is empty, all zero, or a header declaring a payload past the
      end of the file; or
    - refuses with the offset where that run ends, changing nothing.
    On a device on which any reads fail, in any pattern, it terminates and either
    gives that answer or an error: a read that failed is never taken for the end
    of the log, so nothing is cut off because of it. *)
Theorem wal_open_cuts_only_a_clean_tail f :
  bytes_ok (data f) → file_len f ≤ i64_max →
  (∃ recs e, chain (data f) 0 recs e ∧ 0 ≤ e ≤ file_len f ∧ frame_at (data f) e = None ∧
    ((∃ w, open_on (healthy (data f)) = Some (Ok w) ∧ data (file w) = slice (data f) 0 e ∧ wal_rep w recs (length recs) ∧
           next_lsn w = next_of 1 recs ∧
           clean_tail (data f) e ∧ ∀ o, e ≤ o → writer_frame_at (data f) o = None) ∨
     (∃ why, open_on (healthy (data f)) = Some (wal_err e why)))) ∧
  open_on f ≠ None ∧ ∀ w, open_on f = Some (Ok w) →
    ∃ w0, open_on (healthy (data f)) = Some (Ok w0) ∧
      data (file w) = data (file w0) ∧ end_ w = end_ w0 ∧ next_lsn w = next_lsn w0.
Proof using HL. intros Hb Hs. split; [by apply open_cuts|by apply open_device_errors]. Qed.
End faults.

(** * Salvage *)
Section salvaging.
Context `{HC : Crc32c} {HL : Crc32cLaws}.

(** Records taken from [b] at increasing places, none overlapping the last. *)
Inductive picked (b : bytes) : Z → list record → Z → Prop :=
  | picked_nil o e : o ≤ e → picked b o [] e
  | picked_cons o o' r next recs e : o ≤ o' → writer_frame_at b o' = Some (r, next) →
      picked b next recs e → picked b o (r :: recs) e.

Lemma writer_frame_frame b off x : writer_frame_at b off = Some x → frame_at b off = Some x.
Proof using. unfold writer_frame_at. by destruct (has_writer_header_shape _). Qed.
Lemma picked_snoc b o recs e o' r next :
  picked b o recs e → e ≤ o' → writer_frame_at b o' = Some (r, next) → picked b o (recs ++ [r]) next.
Proof using.
  induction 1 as [o e Ho|o o1 r1 n1 recs e Ho Hf Hp IH]; intros; cbn.
  - eapply picked_cons with (o' := o'); [lia|done|]. by constructor.
  - eapply picked_cons; [done|done|]. by apply IH.
Qed.
Lemma picked_weaken b o recs e e' : picked b o recs e → e ≤ e' → picked b o recs e'.
Proof using. induction 1; intros; econstructor; eauto. lia. Qed.
Lemma picked_prefix b r1 : ∀ o r2 e, bytes_ok b → picked b o (r1 ++ r2) e → picked b o r1 e.
Proof using.
  induction r1 as [|r r1 IH]; intros o r2 e Hb Hp; cbn in Hp.
  - constructor. induction Hp as [|o o' r next recs e ? Hf ? IH]; [done|].
    apply writer_frame_frame, frame_at_bounds in Hf; [|done]. change HDR with 20 in *. lia.
  - inversion Hp; subst. econstructor; [done|done|]. by eapply IH.
Qed.
Lemma committed_prefix_snoc recs r :
  committed_prefix (recs ++ [r]) = if bool_decide (r.1.2 = Commit) then recs ++ [r] else committed_prefix recs.
Proof using.
  induction recs as [|r0 recs IH]; cbn [app committed_prefix]; [by case_bool_decide|].
  rewrite IH. case_bool_decide; [|done]. by destruct recs.
Qed.

Context (b : bytes) (Hb : bytes_ok b) (Hs : blen b ≤ i64_max).

Definition salvage_inv (s : salvage) (recs : list record) : Prop :=
  chain (sv_out s) 0 recs (out_end s) ∧ out_end s = blen (sv_out s) ∧ bytes_ok (sv_out s) ∧
  chain (sv_out s) 0 (committed_prefix recs) (last_commit s) ∧
  picked b 0 recs (src_off s) ∧ out_end s ≤ src_off s ≤ blen b ∧
  (resynchronising s = true → recs = committed_prefix recs).

(** What one turn does to the records collected so far. *)
Definition salvage_next (o : Z) (resync : bool) (recs : list record) : Z * bool * list record :=
  match writer_frame_at b o with
  | Some (r, next) =>
      if resync then (next, negb (bool_decide (r.1.2 = Commit)), recs)
      else (next, false, recs ++ [r])
  | None => (o + 1, true, committed_prefix recs)
  end.
Fixpoint collect (n : nat) (o : Z) (resync : bool) (recs : list record) : list record :=
  match n with
  | O => recs
  | S n => if o <? blen b then
             let '(o, m, recs) := salvage_next o resync recs in collect n o m recs
           else recs
  end.

Lemma slice_frame off r next :
  writer_frame_at b off = Some (r, next) →
  frame_at (slice b off (next - off)) 0 = Some (r, next - off).
Proof using Hb.
  intros Hf%writer_frame_frame. pose proof (frame_at_bounds _ Hb _ _ _ Hf).
  destruct r as [[lsn kd] payload].
  apply frame_at_Some in Hf as [(?&?&?&?&Hcrc&?) (->&Hk&->&->)].
  pose proof (h_plen_range b Hb off ltac:(lia)). change HDR with 20 in *. apply frame_at_Some.
  change HDR with 20. rewrite !slice_slice, !Z.add_0_r, Z.add_0_l by lia. rewrite slice_slice by lia. rewrite blen_slice by lia.
  split_and!; done || lia.
Qed.
Lemma chain_snoc_bytes out recs e r c n :
  bytes_ok out → bytes_ok c → chain out 0 recs e → e = blen out → frame_at c 0 = Some (r, n) →
  chain (out ++ c) 0 (recs ++ [r]) (e + n).
Proof using.
  intros Ho Hc Hch -> Hf. eapply chain_app; [by apply chain_app_bytes|].
  pose proof (frame_at_shift out c 0 r n Hc Hf) as Hf'. rewrite Z.add_0_r in Hf'.
  econstructor; [done|constructor].
Qed.

Lemma salvage_step_ok s recs :
  salvage_inv s recs → src_off s < blen b →
  ∃ s', salvage_step (healthy b) (blen b) s = Ok s' ∧
    let '(o, m, recs') := salvage_next (src_off s) (resynchronising s) recs in
    src_off s' = o ∧ resynchronising s' = m ∧ src_off s < o ∧ salvage_inv s' recs'.
Proof using All.
  intros (Hch & Hoe & Hob & Hlc & Hpick & Hoff & Hre) Hlt. unfold salvage_step, salvage_next.
  pose proof (blen_nonneg (sv_out s)). rewrite candidate_at_ok by (done || lia). cbn [rbind].
  pose proof (chain_bounds _ _ _ _ Hob Hlc ltac:(lia)) as Hlb.
  destruct (writer_frame_at b (src_off s)) as [[[[lsn kd] payload] next]|] eqn:Hf.
  - pose proof (writer_frame_frame _ _ _ Hf) as Hff.
    pose proof (frame_at_bounds _ Hb _ _ _ Hff) as Hfb. change HDR with 20 in Hfb.
    destruct (resynchronising s) eqn:Em.
    + eexists. split; [done|]. cbn. split_and!; [done|done|lia|].
      unfold salvage_inv. cbn. split_and!; try done; try lia.
      * eapply picked_weaken; [done|lia].
      * intros _. by apply Hre.
    + unfold copy_range. rewrite copy_chunks_ok by lia. cbn [rbind].
      replace (src_off s + (next - src_off s)) with next by lia.
      rewrite add_or_ok by width. eexists. split; [done|]. cbn. split_and!; [done|done|lia|].
      pose proof (slice_frame _ _ _ Hf) as Hsf.
      pose proof (bytes_ok_slice b (src_off s) (next - src_off s) Hb) as Hsb.
      unfold salvage_inv. cbn. rewrite committed_prefix_snoc. cbn.
      split_and!; try lia; try done.
      * by apply chain_snoc_bytes.
      * rewrite blen_app, blen_slice by lia. lia.
      * by apply bytes_ok_app.
      * case_bool_decide; [by apply chain_snoc_bytes|by apply chain_app_bytes].
      * eapply picked_snoc; [done| |done]. lia.
  - rewrite add_or_ok by width. eexists. split; [done|]. cbn. split_and!; [done|done|lia|].
    unfold salvage_inv. cbn. rewrite resize_shorter, committed_prefix_idem by lia.
    destruct (committed_prefix_spec recs) as (rest & E & _).
    assert (chain (take (Z.to_nat (last_commit s)) (sv_out s)) 0 (committed_prefix recs) (last_commit s)) as Hct.
    { eapply chain_take; [done|done|lia|lia|done]. }
    rewrite take_slice in * by lia.
    split_and!; try done; try lia.
    * by rewrite blen_slice by lia.
    * auto with skj.
    * eapply picked_weaken; [|instantiate (1 := src_off s); lia]. rewrite E in Hpick. by eapply picked_prefix.
Qed.

Lemma salvage_loop_ok n : ∀ s recs,
  salvage_inv s recs →
  ∃ s', salvage_loop n (healthy b) (blen b) s = Ok s' ∧
    salvage_inv s' (collect n (src_off s) (resynchronising s) recs).
Proof using All.
  induction n as [|n IH]; intros s recs Hinv; cbn [salvage_loop collect]; [by exists s|].
  destruct (Z.ltb_spec (src_off s) (blen b)); [|by exists s].
  destruct (salvage_step_ok s recs Hinv ltac:(done)) as (s1 & -> & Hs1). cbn [rbind].
  destruct (salvage_next _ _ _) as [[o m] recs1]. destruct Hs1 as (<- & <- & _ & Hinv1).
  by apply IH.
Qed.
Lemma salvage_ok :
  let recs := committed_prefix (collect (Z.to_nat (blen b)) 0 false []) in
  ∃ out hash, salvage_committed (healthy b) = Ok (out, blen out, hash) ∧
    bytes_ok out ∧ chain out 0 recs (blen out) ∧ blen out ≤ blen b ∧ picked b 0 recs (blen b) ∧
    (out = [] ∨ hash = crc32c out).
Proof using All.
  cbn zeta. set (recs := collect _ _ _ _). pose proof (blen_nonneg b).
  destruct (salvage_loop_ok (Z.to_nat (blen b)) (mkSalvage 0 [] 0 0 false) []) as (s & Hl & Hinv).
  { unfold salvage_inv. cbn. split_and!; try done; try constructor; lia. }
  cbn in Hinv. fold recs in Hinv. destruct Hinv as (Hch & Hoe & Hob & Hlc & Hpick & Hoff & _).
  pose proof (blen_nonneg (sv_out s)). pose proof (chain_bounds _ _ _ _ Hob Hlc ltac:(lia)).
  unfold salvage_committed. change (file_len (healthy b)) with (blen b). rewrite Hl. cbn [rbind].
  set (out := resize (sv_out s) (last_commit s)).
  assert (blen out = last_commit s) as Hbo by (apply blen_resize; lia).
  assert (out = take (Z.to_nat (last_commit s)) (sv_out s)) as Ho by (apply resize_shorter; lia).
  assert (∃ h, hash_prefix out (last_commit s) = Ok h ∧ (out = [] ∨ h = crc32c out)) as (h & -> & Hh).
  { destruct (hash_prefix_ok out (last_commit s) ltac:(lia)) as [Hp|[Hz Hp]]; rewrite Hp; eexists.
    - split; [done|right]. by rewrite slice_all.
    - split; [done|left]. apply blen_0_nil. lia. }
  exists out, h. cbn [rbind]. rewrite Hbo. split_and!; try done; try lia.
  - rewrite Ho, take_slice by lia. auto with skj.
  - rewrite Ho. eapply chain_take; [done|done|lia|lia|done].
  - destruct (committed_prefix_spec recs) as (rest & E & _). rewrite E in Hpick.
    eapply picked_weaken; [by eapply picked_prefix|lia].
Qed.

(** A log of whole committed transactions, whatever the bytes. *)
Lemma salvage_clean :
  ∃ out hash recs, salvage_committed (healthy b) = Ok (out, blen out, hash) ∧
    chain out 0 recs (blen out) ∧ committed_prefix recs = recs ∧ picked b 0 recs (blen b) ∧
    (out = [] ∨ hash = crc32c out) ∧
    ∃ w, open_on (healthy out) = Some (Ok w) ∧ committed_end w = Some (Ok (blen out)) ∧
         replay (S (Z.to_nat (blen out))) w 0 (blen out) = Some (Ok recs).
Proof using All.
  destruct salvage_ok as (out & hash & Heq & Hob & Hch & Hle & Hp & Hh). set (recs := committed_prefix _) in *.
  assert (committed_prefix recs = recs) as Hid by apply committed_prefix_idem.
  exists out, hash, recs. split_and!; try done. pose proof (blen_nonneg out).
  pose proof (opened_rep out recs (blen out) Hob ltac:(lia) Hch ltac:(lia)) as Hrep.
  destruct (reopen_ok _ _ _ Hrep eq_refl) as (w & Hw & Hrw & _ & Hbw & Hd).
  cbn in Hw, Hd. assert (resize out (blen out) = out) as Hr by (rewrite resize_shorter by lia; apply take_ge; unfold blen; lia).
  rewrite Hr in Hw, Hd. exists w. split; [done|].
  destruct (wal_recovery_ok w recs _ Hrw Hbw) as (c & Hce & Hcc & Hrp & _).
  rewrite Hid, Hd in Hcc. rewrite Hid in Hrp. rewrite (chain_end_det _ _ _ _ _ Hcc Hch) in *. done.
Qed.

(** ** What salvage keeps around damage *)
Lemma collect_fuel n m : ∀ o r recs,
  blen b - o ≤ Z.of_nat n → blen b - o ≤ Z.of_nat m → collect n o r recs = collect m o r recs.
Proof using Hb.
  revert m. induction n as [|n IH]; intros m o r recs Hn Hm.
  - destruct m; cbn [collect]; [done|]. by rewrite (proj2 (Z.ltb_ge _ _)) by lia.
  - destruct m as [|m]; cbn [collect].
    + by rewrite (proj2 (Z.ltb_ge _ _)) by lia.
    + destruct (Z.ltb_spec o (blen b)); [|done]. unfold salvage_next.
      destruct (writer_frame_at b o) as [[r0 next]|] eqn:E.
      * apply writer_frame_frame, frame_at_bounds in E; [|done]. change HDR with 20 in E.
        destruct r; apply IH; lia.
      * apply IH; lia.
Qed.
Definition collected (o : Z) (r : bool) (recs : list record) : list record :=
  collect (Z.to_nat (blen b - o)) o r recs.
Lemma collected_step o r recs : 0 ≤ o < blen b →
  collected o r recs = let '(o, m, recs) := salvage_next o r recs in collected o m recs.
Proof using Hb.
  intros Ho. unfold collected. replace (Z.to_nat (blen b - o)) with (S (Z.to_nat (blen b - o - 1))) by lia.
  cbn [collect]. rewrite (proj2 (Z.ltb_lt _ _)) by lia. unfold salvage_next.
  destruct (writer_frame_at b o) as [[r0 next]|] eqn:E.
  - apply writer_frame_frame, frame_at_bounds in E; [|done]. change HDR with 20 in E.
    destruct r; apply collect_fuel; lia.
  - apply collect_fuel; lia.
Qed.
Lemma collected_end r recs : collected (blen b) r recs = recs.
Proof using. unfold collected. by rewrite Z.sub_diag. Qed.
End salvaging.

Section damage.
Context `{HC : Crc32c} {HL : Crc32cLaws}.

(** The transactions of a log behind damage that are kept: those after the
    first commit boundary. *)
Fixpoint after_commit (recs : list record) : option (list record) :=
  match recs with
  | [] => None
  | r :: recs => if bool_decide (r.1.2 = Commit) then Some recs else after_commit recs
  end.

Lemma writer_frame_ok pre r post :
  writable r → writer_frame_at (pre ++ frame r ++ post) (blen pre) = Some (r, blen pre + blen (frame r)).
Proof using HL.
  intros Hw. unfold writer_frame_at. rewrite frame_at_frame by done.
  destruct r as [[lsn kd] payload].
  assert (slice (pre ++ frame (lsn, kd, payload) ++ post) (blen pre) HDR = make_header lsn kd payload) as ->.
  { rewrite slice_app_r, Z.sub_diag by lia. unfold frame. rewrite <-app_assoc.
    apply slice_app_exact. by rewrite blen_make_header. }
  destruct (header_fields _ _ _ Hw) as (_ & Hl & Hk & Hp & _). unfold has_writer_header_shape.
  rewrite Hl, Hk, Hp, kind_roundtrip. destruct Hw as (?&?&_).
  rewrite checked_add_u64_ok by lia. done.
Qed.
Lemma committed_prefix_app a c :
  committed_prefix (a ++ c) = match committed_prefix c with [] => committed_prefix a | c => a ++ c end.
Proof using.
  induction a as [|r a IH]; cbn [app committed_prefix]; [by destruct (committed_prefix c)|].
  rewrite IH. destruct (committed_prefix c) as [|x y]; [done|]. by destruct a.
Qed.

Lemma collected_frames b rs : ∀ pre post acc,
  bytes_ok b → Forall writable rs → b = pre ++ enc rs ++ post →
  collected b (blen pre) false acc = collected b (blen pre + blen (enc rs)) false (acc ++ rs).
Proof using HL.
  induction rs as [|r rs IH]; intros pre post acc Hb Hw ->.
  { unfold enc. cbn. by rewrite app_nil_r, Z.add_0_r. }
  inversion Hw; subst. set (b := pre ++ enc (r :: rs) ++ post) in *.
  assert (b = pre ++ frame r ++ enc rs ++ post) as Eb.
  { unfold b. change (enc (r :: rs)) with (frame r ++ enc rs). by rewrite <-!app_assoc. }
  pose proof (blen_nonneg pre). pose proof (blen_nonneg (enc rs ++ post)).
  assert (0 < blen (frame r)) as Hf.
  { destruct r as [[lsn kd] p]. rewrite blen_record_frame. change HDR with 20. pose proof (blen_nonneg p). lia. }
  assert (blen b = blen pre + blen (frame r) + blen (enc rs ++ post)) as Hl by (rewrite Eb, !blen_app; lia).
  rewrite collected_step by (done || lia). unfold salvage_next.
  rewrite Eb at 1. rewrite writer_frame_ok by done.
  rewrite <-blen_app, (IH (pre ++ frame r) post) by (done || by rewrite Eb, <-!app_assoc).
  change (enc (r :: rs)) with (frame r ++ enc rs). rewrite !blen_app, <-app_assoc. cbn. f_equal. lia.
Qed.
Lemma collected_resync b rs : ∀ pre post acc,
  bytes_ok b → Forall writable rs → b = pre ++ enc rs ++ post →
  collected b (blen pre) true acc =
    match after_commit rs with
    | None => collected b (blen pre + blen (enc rs)) true acc
    | Some rs' => collected b (blen pre + blen (enc rs)) false (acc ++ rs')
    end.
Proof using HL.
  induction rs as [|r rs IH]; intros pre post acc Hb Hw ->.
  { unfold enc. cbn. by rewrite Z.add_0_r. }
  inversion Hw; subst. set (b := pre ++ enc (r :: rs) ++ post) in *.
  assert (b = (pre ++ frame r) ++ enc rs ++ post) as Eb.
  { unfold b. change (enc (r :: rs)) with (frame r ++ enc rs). by rewrite <-!app_assoc. }
  pose proof (blen_nonneg pre). pose proof (blen_nonneg (enc rs ++ post)).
  assert (0 < blen (frame r)) as Hf.
  { destruct r as [[lsn kd] p]. rewrite blen_record_frame. change HDR with 20. pose proof (blen_nonneg p). lia. }
  assert (blen b = blen pre + blen (frame r) + blen (enc rs ++ post)) as Hl by (rewrite Eb, !blen_app; lia).
  rewrite collected_step by (done || lia). unfold salvage_next.
  rewrite Eb at 1. rewrite <-app_assoc, writer_frame_ok by done. cbn [after_commit].
  rewrite <-blen_app. change (enc (r :: rs)) with (frame r ++ enc rs).
  replace (blen pre + blen (frame r ++ enc rs)) with (blen (pre ++ frame r) + blen (enc rs)) by (rewrite !blen_app; lia).
  case_bool_decide; cbn [negb].
  - by eapply collected_frames.
  - by eapply IH.
Qed.
Lemma collected_junk b n : ∀ o m acc,
  bytes_ok b → 0 ≤ o → o + Z.of_nat (S n) ≤ blen b →
  (∀ i, o ≤ i < o + Z.of_nat (S n) → writer_frame_at b i = None) →
  collected b o m acc = collected b (o + Z.of_nat (S n)) true (committed_prefix acc).
Proof using.
  induction n as [|n IH]; intros o m acc Hb Ho Hl Hj; rewrite collected_step by (done || lia);
    unfold salvage_next; rewrite Hj by lia.
  - f_equal.
  - rewrite IH by (done || lia || (intros; apply Hj; lia)). rewrite committed_prefix_idem. f_equal. lia.
Qed.

(** Damage in one place leaves what is before it and after it. *)
Lemma salvage_around_damage pre junk post :
  Forall writable pre → Forall writable post → bytes_ok junk → 0 < blen junk →
  blen (enc pre ++ junk ++ enc post) ≤ i64_max →
  (∀ o, blen (enc pre) ≤ o < blen (enc pre) + blen junk →
        writer_frame_at (enc pre ++ junk ++ enc post) o = None) →
  ∃ out hash, salvage_committed (healthy (enc pre ++ junk ++ enc post)) = Ok (out, blen out, hash) ∧
    chain out 0 (committed_prefix pre ++ committed_prefix (default [] (after_commit post))) (blen out).
Proof using HL.
  intros Hpre Hpost Hj Hjl Hs Hno. set (b := enc pre ++ junk ++ enc post) in *.
  assert (bytes_ok b) as Hb by (apply bytes_ok_app; split; [by apply enc_ok|]; apply bytes_ok_app; split; [done|by apply enc_ok]).
  destruct (salvage_ok b Hb Hs) as (out & hash & Heq & _ & Hch & _).
  exists out, hash. split; [done|].
  assert (blen b = blen (enc pre) + blen junk + blen (enc post)) as Hlen by (unfold b; rewrite !blen_app; lia).
  pose proof (blen_nonneg (enc pre)). pose proof (blen_nonneg (enc post)).
  assert (collect b (Z.to_nat (blen b)) 0 false [] = committed_prefix pre ++ default [] (after_commit post)) as Hcol.
  { pose proof (collected_frames b pre [] (junk ++ enc post) [] Hb Hpre eq_refl) as Hc0.
    rewrite blen_nil, Z.add_0_l, app_nil_l in Hc0. unfold collected in Hc0 at 1.
    rewrite Z.sub_0_r in Hc0. rewrite Hc0.
    rewrite (collected_junk b (Z.to_nat (blen junk - 1))) by (done || lia || (intros; apply Hno; lia)).
    replace (blen (enc pre) + Z.of_nat (S (Z.to_nat (blen junk - 1)))) with (blen (enc pre ++ junk)) by (rewrite blen_app; lia).
    rewrite (collected_resync b post (enc pre ++ junk) []) by (done || (unfold b; by rewrite app_nil_r, app_assoc)).
    replace (blen (enc pre ++ junk) + blen (enc post)) with (blen b) by (rewrite blen_app; lia).
    destruct (after_commit post); rewrite collected_end; [done|]. by rewrite app_nil_r. }
  rewrite Hcol in Hch. rewrite committed_prefix_app, committed_prefix_idem in Hch.
  destruct (committed_prefix (default [] (after_commit post))); [by rewrite app_nil_r|done].
Qed.

End damage.

(** * The theorems at work on a small log *)
#[local] Existing Instance crc32c_reference.
#[local] Existing Instance crc32c_reference_laws.

Definition txn1 : list record := [(1, Put, [1; 2]); (2, Commit, [])].
Definition txn2 : list record := [(3, Delete, [9]); (4, Commit, [])].
Definition txn3 : list record := [(5, Put, [3]); (6, Commit, [])].
Definition unfinished : record := (7, Put, [5; 5; 5]).
(** Two transactions and the first 22 bytes of an unfinished frame. *)
Definition torn_log : bytes := enc (txn1 ++ txn2) ++ take 22 (frame unfinished).

Ltac decided := refine (bool_decide_unpack _ _); vm_compute; exact I.

(** The torn log opened: 83 bytes kept, the unfinished frame cut off. *)
Definition opened : Wal := mkWal (healthy (enc (txn1 ++ txn2))) 83 5 [] 83 None.
Lemma wal_recovery_replays_committed_witness :
  open_on (healthy torn_log) = Some (Ok opened) ∧
  ∃ recs c, chain torn_log 0 recs (end_ opened) ∧ committed_end opened = Some (Ok c) ∧
    replay (S (Z.to_nat c)) opened 0 c = Some (Ok (committed_prefix recs)) ∧
    ∃ w2, open_on (healthy (data (file (cut_to_committed opened c)))) = Some (Ok w2) ∧
          committed_end w2 = Some (Ok c) ∧
          replay (S (Z.to_nat c)) w2 0 c = Some (Ok (committed_prefix recs)).
Proof.
  assert (open_on (healthy torn_log) = Some (Ok opened)) as E by (vm_compute; reflexivity).
  split; [exact E|].
  apply wal_recovery_replays_committed; [decided|vm_compute; discriminate|exact E].
Defined.

(** A put and its commit, the commit torn by a crash: the put survives. *)
Definition put_done : Wal := mkWal (healthy []) 22 2 (frame (1, Put, [1; 2])) 0 None.
Definition put_flushed : Wal := mkWal (healthy (frame (1, Put, [1; 2]))) 22 2 [] 22 None.
Definition commit_pending : Wal :=
  mkWal (healthy (frame (1, Put, [1; 2]))) 42 3 (frame (2, Commit, [])) 22 None.
Lemma crash_run : rtc wal_step fresh put_flushed.
Proof.
  apply (rtc_l _ _ put_done).
  { apply (s_append _ Put [1; 2] 1); [decided|vm_compute; reflexivity|vm_compute; discriminate]. }
  apply (rtc_l _ _ put_flushed).
  { exact (s_flush put_done). }
  apply (rtc_l _ _ commit_pending).
  { apply (s_append _ Commit [] 2); [decided|vm_compute; reflexivity|vm_compute; discriminate]. }
  apply (rtc_l _ _ put_flushed); [|apply rtc_refl].
  apply (s_crash commit_pending [] (frame (2, Commit, []))); [reflexivity|vm_compute; reflexivity].
Qed.

(** A device that cannot read the second frame's header. *)
Definition failing : File := mkFile torn_log (λ off _, off =? 22).
Lemma wal_open_cuts_only_a_clean_tail_witness :
  open_on failing = Some (Err (Io "device read failed")) ∧
  (∃ recs e, chain (data failing) 0 recs e ∧ 0 ≤ e ≤ file_len failing ∧ frame_at (data failing) e = None ∧
    ((∃ w, open_on (healthy (data failing)) = Some (Ok w) ∧ data (file w) = slice (data failing) 0 e ∧ wal_rep w recs (length recs) ∧
           next_lsn w = next_of 1 recs ∧
           clean_tail (data failing) e ∧ ∀ o, e ≤ o → writer_frame_at (data failing) o = None) ∨
     (∃ why, open_on (healthy (data failing)) = Some (wal_err e why)))) ∧
  open_on failing ≠ None ∧ ∀ w, open_on failing = Some (Ok w) →
    ∃ w0, open_on (healthy (data failing)) = Some (Ok w0) ∧
      data (file w) = data (file w0) ∧ end_ w = end_ w0 ∧ next_lsn w = next_lsn w0.
Proof.
  split; [vm_compute; reflexivity|].
  apply wal_open_cuts_only_a_clean_tail; [decided|vm_compute; discriminate].
Defined.

End Wal.
