(* ===== verification/PwalFormat.v ===== *)
(** * The page-WAL recovery envelope
      ([core/engine/src/store/pagewal/format.rs], the frame and hint codecs of
      [core/engine/src/store/pagewal/mod.rs])

    The checkpoint header and its two copies, the order in which a checkpoint
    replaces them, the 4144-byte WAL frame, the torn-tail test, and the
    publication hint.  Integers are little-endian at the offsets the Rust code
    uses; [bad] and [unavailable] are its two error constructors. *)
From S2P Require Import Prelude Crc Disk Page.

Module Pwal.

Definition PAGE : Z := 4096.
Definition FRAME : Z := PAGE + 48.
Definition WAL_CAP : Z := 16 * 1024 * 1024.
Definition MAGIC : bytes := ascii_bytes "E4PWAL02".
Definition READER_SLOTS : Z := 8.
Definition HINT_BYTES : Z := 48.
Definition HINT_FILE_BYTES : Z := 2 * HINT_BYTES.
Definition HINT_MAGIC : bytes := ascii_bytes "E4PWHNT1".
Definition HEADER_BYTES : Z := 56.
Definition COMPACT_CELLS : Z := 1.
Definition SUPPORTED_FEATURES : Z := COMPACT_CELLS.

Definition bad {A} (why : string) : result error A := Err (CorruptWal 0 why).
Definition unavailable {A} (why : string) : result error A := Err (Io why).
Definition u32at (b : bytes) (p : Z) : Z := le_num (slice b p 4).
Definition u64at (b : bytes) (p : Z) : Z := le_num (slice b p 8).
(** [features & !SUPPORTED_FEATURES != 0]. *)
Definition unsupported (features : Z) : bool := negb (Z.ldiff features SUPPORTED_FEATURES =? 0).

Definition set_create_features (current features : Z) : result error (Z * Z) :=
  if unsupported features then bad "cannot create a database with an unimplemented feature"
  else Ok (current, features).

Record Header := mkHeader {
  root : Z; free : Z; cap : Z; identity : bytes; tx : Z; features : Z }.
#[global] Instance Header_eq_dec : EqDecision Header.
Proof. solve_decision. Defined.

Record Hint := mkHint {
  h_identity : bytes; checkpoint_tx : Z; published_tx : Z; published_end : Z }.

Section format.
Context `{Crc32c}.

Definition header_bytes (h : Header) : bytes :=
  MAGIC ++ le_bytes 4 (root h) ++ le_bytes 4 (free h) ++ le_bytes 8 (cap h) ++ identity h
  ++ le_bytes 8 (tx h) ++ le_bytes 8 (features h).

Definition decode_slot (b : bytes) : result error Header :=
  if negb (blen b =? HEADER_BYTES) || negb (bool_decide (slice b 0 8 = MAGIC))
  then bad "unsupported page-WAL header format" else
  let features := u64at b 48 in
  if unsupported features then bad "unsupported required page-WAL features" else
  let identity := slice b 24 16 in
  if bool_decide (identity = zeros 16) then bad "empty database identity" else
  Ok (mkHeader (u32at b 8) (u32at b 12) (u64at b 16) identity (u64at b 40) features).

Definition decode (b : bytes) (no : Z) : result error Header :=
  let* page := Page.page_open b no in
  if negb (bool_decide (Page.kind page = Some Page.Meta)) || negb (Page.tree_id page =? 0)
     || negb (Page.nentries page =? 1)
  then bad "checkpoint metadata shape"
  else decode_slot (default [] (Page.slot page 0)).

(** [Header::page]; the page image is always built ([page_of_ok]). *)
Definition page_of (h : Header) (no : Z) : result error bytes :=
  match Page.insert_slot (Page.init Page.Meta 0 no) 0 (header_bytes h) with
  | Some (Ok b) => Ok (Page.seal (Page.finalise b 0) 1)
  | Some (Err e) => Err e
  | None => bad "panic"
  end.

Definition validate_extent (h : Header) (pages : Z) : result error unit :=
  if (root h <? 2) || (pages <=? root h) then bad "pilot root extent" else
  if negb (free h =? 0) && ((free h <? 2) || (pages <=? free h)) then bad "free head outside file"
  else Ok tt.

(** One turn of [disk_header]'s loop over the two copies: the read, and what
    it does with the bytes. *)
Definition judge_copy (b : bytes) (no : Z) (selected : option Header) : result error (option Header) :=
  if negb (Page.checksum b =? u32at b 36) then Ok selected else
  let stamp := Page.format_version b in
  if negb (stamp =? Page.FORMAT_VERSION) then Err (UnsupportedFormat stamp) else
  let* header := decode b no in
  match selected with
  | None => Ok (Some header)
  | Some old =>
      if negb (bool_decide (identity old = identity header)) || negb (features old =? features header)
      then bad "checkpoint metadata identity/features disagree" else
      if (tx old =? tx header) && negb (bool_decide (old = header))
      then bad "checkpoint metadata histories disagree" else
      if tx header <? tx old then Ok selected else Ok (Some header)
  end.
Definition disk_header_step (data_ : File) (no : Z) (selected : option Header) : result error (option Header) :=
  let* b := read_at data_ (no * PAGE) PAGE in judge_copy b no selected.
Definition disk_header (data_ : File) : result error (option Header) :=
  if file_len data_ <? 2 * PAGE then bad "missing checkpoint metadata pages" else
  let* s := disk_header_step data_ 0 None in
  disk_header_step data_ 1 s.

Definition read_copy (data_ : File) (no : Z) : result error (option Header) :=
  let* b := read_at data_ (no * PAGE) PAGE in
  if Page.checksum b =? u32at b 36 then rmap Some (decode b no) else Ok None.
Definition metadata_write_order (data_ : File) : result error (Z * Z) :=
  let* c0 := read_copy data_ 0 in
  let* c1 := read_copy data_ 1 in
  Ok (match c0, c1 with
      | None, Some _ => (0, 1)
      | Some _, None => (1, 0)
      | Some a, Some b => if tx b <? tx a then (1, 0) else (0, 1)
      | _, _ => (0, 1)
      end).

(** ** Frames *)
Definition frame (kind no tx pages : Z) (payload identity : bytes) : bytes :=
  let b := zeros FRAME in
  let b := splice b 0 MAGIC in
  let b := splice b 8 (le_bytes 4 kind) in
  let b := splice b 12 (le_bytes 4 no) in
  let b := splice b 16 (le_bytes 8 tx) in
  let b := splice b 24 (le_bytes 4 pages) in
  let b := splice b 32 payload in
  let b := splice b (32 + PAGE) identity in
  let crc := crc32c b in
  splice b 28 (le_bytes 4 crc).

Definition read_frame (f : File) (off : Z) : result error bytes :=
  let* b := read_at f off FRAME in
  let want := u32at b 28 in
  let b0 := splice b 28 (zeros 4) in
  if negb (bool_decide (slice b0 0 8 = MAGIC)) || negb (crc32c b0 =? want)
  then bad "page WAL frame checksum/magic"
  else Ok (splice b0 28 (le_bytes 4 want)).

Definition SECTOR : Z := 512.
Fixpoint torn_loop (n : nat) (f : File) (at_ next len : Z) : bool :=
  match n with
  | O => true
  | S n =>
      if next + FRAME <=? len then
        match read_at f (next + (FRAME - SECTOR)) SECTOR with
        | Err _ => false
        | Ok e =>
            if existsb (λ x, negb (x =? 0)) e then false else
            if (at_ <? next) && is_ok (read_frame f next) then false
            else torn_loop n f at_ (next + FRAME) len
        end
      else true
  end.
Definition torn_tail (f : File) (at_ len : Z) : bool :=
  torn_loop (Z.to_nat ((len - at_) / FRAME)) f at_ at_ len.

Record FrameRef := mkRef { offset : Z; f_checksum : Z }.
Definition FrameRef_new (off : Z) (b : bytes) : FrameRef := mkRef off (u32at b 28).
Definition read_indexed_frame (f : File) (r : FrameRef) : result error bytes :=
  let* b := read_frame f (offset r) in
  if negb (u32at b 28 =? f_checksum r) then bad "WAL frame differs from published version"
  else Ok b.

(** ** The publication hint *)
Definition hint_encode (h : Hint) : bytes :=
  let b := zeros HINT_BYTES in
  let b := splice b 0 HINT_MAGIC in
  let b := splice b 8 (h_identity h) in
  let b := splice b 24 (le_bytes 8 (checkpoint_tx h)) in
  let b := splice b 32 (le_bytes 8 (published_tx h)) in
  let b := splice b 40 (le_bytes 4 (published_end h)) in
  let crc := crc32c (slice b 0 44) in
  splice b 44 (le_bytes 4 crc).
Definition hint_decode (b : bytes) : option Hint :=
  if negb (blen b =? HINT_BYTES) || negb (bool_decide (slice b 0 8 = HINT_MAGIC))
     || negb (crc32c (slice b 0 44) =? u32at b 44)
  then None
  else Some (mkHint (slice b 8 16) (u64at b 24) (u64at b 32) (u32at b 40)).

(** One turn of [read_hint]'s loop over the two copies. *)
Definition better_hint (identity : bytes) (best : option Hint) (copy : bytes) : option Hint :=
  match hint_decode copy with
  | Some h =>
      if bool_decide (h_identity h = identity) then
        match best with
        | None => Some h
        | Some old => if published_tx old <? published_tx h then Some h else best
        end
      else best
  | None => best
  end.
Definition read_hint (io : File) (identity : bytes) : result error Hint :=
  if file_len io <? HINT_FILE_BYTES then unavailable "no publication hint beside the live writer" else
  let* b := read_at io 0 HINT_FILE_BYTES in
  let best := better_hint identity None (slice b 0 HINT_BYTES) in
  let best := better_hint identity best (slice b HINT_BYTES HINT_BYTES) in
  ok_or best (Io "publication hint damaged or from another database").

Definition validate_hint (h : Hint) (floor wal_len : Z) : result error Z :=
  if negb ((checkpoint_tx h <=? floor) && (floor <=? published_tx h))
  then unavailable "publication hint from another checkpoint history" else
  let e := published_end h in
  if negb (e mod FRAME =? 0) || (wal_len <? e) then unavailable "publication hint exceeds the WAL" else
  if (e =? 0) && negb (floor =? published_tx h)
  then unavailable "publication hint names an unabsorbed transaction without WAL"
  else Ok e.
End format.

(** * Codec lemmas *)
Record hwf (h : Header) : Prop := {
  hwf_root : is_u32 (root h); hwf_free : is_u32 (free h); hwf_cap : is_u64 (cap h);
  hwf_tx : is_u64 (tx h); hwf_features : is_u64 (features h) ∧ unsupported (features h) = false;
  hwf_identity : blen (identity h) = 16 ∧ bytes_ok (identity h) ∧ identity h ≠ zeros 16;
}.

Section codecs.
Context `{HC : Crc32c} {HL : Crc32cLaws}.

Lemma blen_header_bytes h : blen (identity h) = 16 → blen (header_bytes h) = HEADER_BYTES.
Proof using. intros. unfold header_bytes. rewrite !blen_app, !blen_le_bytes. change (blen MAGIC) with 8. unfold HEADER_BYTES. lia. Qed.

Lemma decode_header_bytes h : hwf h → decode_slot (header_bytes h) = Ok h.
Proof using.
  intros [? ? ? ? [? Hf] (Hi & ? & Hz)]. unfold decode_slot. rewrite blen_header_bytes by done.
  rewrite Z.eqb_refl. assert (blen MAGIC = 8) as Hm by done.
  assert (slice (header_bytes h) 0 8 = MAGIC) as -> by (unfold header_bytes; by take_part).
  rewrite bool_decide_true by done. cbn [negb orb].
  assert (u64at (header_bytes h) 48 = features h) as ->.
  { unfold u64at, header_bytes. take_part. apply le_num_le_bytes. width. }
  rewrite Hf. assert (slice (header_bytes h) 24 16 = identity h) as -> by (unfold header_bytes; by take_part).
  rewrite bool_decide_false by done.
  assert (u32at (header_bytes h) 8 = root h) as ->.
  { unfold u32at, header_bytes. take_part. apply le_num_le_bytes. width. }
  assert (u32at (header_bytes h) 12 = free h) as ->.
  { unfold u32at, header_bytes. take_part. apply le_num_le_bytes. width. }
  assert (u64at (header_bytes h) 16 = cap h) as ->.
  { unfold u64at, header_bytes. take_part. apply le_num_le_bytes. width. }
  assert (u64at (header_bytes h) 40 = tx h) as ->.
  { unfold u64at, header_bytes. take_part. apply le_num_le_bytes. width. }
  by destruct h.
Qed.
Lemma header_bytes_ok h : hwf h → bytes_ok (header_bytes h).
Proof using.
  intros [? ? ? ? _ (_ & ? & _)]. unfold header_bytes.
  repeat (apply bytes_ok_app; split); auto with skj. repeat constructor; done.
Qed.

(** The page image of a header: always built, and read back as the header. *)
Definition intact (b : bytes) (no : Z) (h : Header) : Prop :=
  blen b = PAGE ∧ Page.checksum b = u32at b 36 ∧ Page.format_version b = Page.FORMAT_VERSION ∧ decode b no = Ok h.
(** A one-cell page of the kernel, sealed: the image of a header or of a free page. *)
Lemma one_cell_image kd no cell :
  is_u32 no → bytes_ok cell → blen cell ≤ 256 →
  ∃ b1, Page.insert_slot (Page.init kd 0 no) 0 cell = Some (Ok b1) ∧
    let b := Page.seal (Page.finalise b1 0) 1 in
    bytes_ok b ∧ blen b = PAGE ∧ Page.checksum b = u32at b 36 ∧ Page.format_version b = Page.FORMAT_VERSION ∧
    Page.kind b = Some kd ∧ Page.tree_id b = 0 ∧ Page.nentries b = 1 ∧ Page.slot b 0 = Some cell ∧
    Page.page_open b no = Ok b.
Proof using HL.
  intros Hno Hcb Hc. pose proof (Page.built_init kd 0 no ltac:(width) Hno) as Hb0.
  destruct (Page.built_push _ _ _ _ _ _ cell Hb0) as (b1 & Hins & Hb1).
  { unfold Page.PAGE_SIZE, Page.HEADER_LEN, Page.SLOT_LEN. lia. }
  { exact Hcb. }
  exists b1. split; [exact Hins|]. destruct (Page.built_sealed _ _ _ _ _ _ 0 1 Hb1 ltac:(width)) as (?&?&?&?&_&?&?&?&Hs&?).
  split_and!; try assumption. exact (Hs 0%nat cell eq_refl).
Qed.
Lemma page_of_ok h no : hwf h → is_u32 no → ∃ b, page_of h no = Ok b ∧ bytes_ok b ∧ intact b no h.
Proof using HL.
  intros Hh Hno. pose proof (hwf_identity _ Hh) as (Hi & _ & _).
  assert (blen (header_bytes h) ≤ 256) as Hc by (rewrite blen_header_bytes by done; done).
  destruct (one_cell_image Page.Meta no (header_bytes h) Hno (header_bytes_ok _ Hh) Hc)
    as (b1 & Hins & Hok & Hlen & Hcrc & Hfv & Hk & Ht & Hn & Hs & Ho).
  unfold page_of. rewrite Hins. eexists. split; [reflexivity|]. split; [exact Hok|].
  split; [exact Hlen|]. split; [exact Hcrc|]. split; [exact Hfv|].
  unfold decode. rewrite Ho. cbn [rbind]. rewrite bool_decide_true by done. rewrite Ht, Hn, Hs. cbn [negb orb Z.eqb Pos.eqb].
  by apply decode_header_bytes.
Qed.

(** ** The two copies *)
Definition torn (b : bytes) : Prop := blen b = PAGE ∧ Page.checksum b ≠ u32at b 36.

Lemma judge_torn b no sel : torn b → judge_copy b no sel = Ok sel.
Proof using. intros [_ Ht]. unfold judge_copy. by rewrite (proj2 (Z.eqb_neq _ _)). Qed.
Lemma judge_intact b no h sel :
  intact b no h →
  judge_copy b no sel =
    match sel with
    | None => Ok (Some h)
    | Some old =>
        if bool_decide (identity old = identity h) && (features old =? features h)
        then if (tx old =? tx h) && negb (bool_decide (old = h))
             then bad "checkpoint metadata histories disagree"
             else if tx h <? tx old then Ok sel else Ok (Some h)
        else bad "checkpoint metadata identity/features disagree"
    end.
Proof using.
  intros (_ & Hc & Hf & Hd). unfold judge_copy. rewrite Hc, Hf, Hd, !Z.eqb_refl. cbn [negb rbind].
  destruct sel; [|done]. by destruct (bool_decide _), (_ =? _).
Qed.
(** A copy that [disk_header] accepted is torn or intact. *)
Lemma judge_ok b no sel r :
  blen b = PAGE → judge_copy b no sel = Ok r → torn b ∨ ∃ h, intact b no h.
Proof using.
  intros Hb. unfold judge_copy. destruct (Z.eqb_spec (Page.checksum b) (u32at b 36)) as [Hc|]; cbn [negb].
  2:{ by left. }
  destruct (Z.eqb_spec (Page.format_version b) Page.FORMAT_VERSION); [|done]. cbn [negb].
  destruct (decode b no) as [h|] eqn:Hd; [|done]. intros _. right. by exists h.
Qed.
Lemma disk_header_copies b :
  2 * PAGE ≤ blen b →
  disk_header (healthy b) = let* s := judge_copy (slice b 0 PAGE) 0 None in judge_copy (slice b PAGE PAGE) 1 s.
Proof using.
  intros Hb. unfold disk_header, disk_header_step, file_len. cbn [data healthy]. unfold PAGE in *.
  rewrite (proj2 (Z.ltb_ge _ _)) by lia. rewrite !read_healthy by lia. done.
Qed.
Lemma read_copy_ok b no :
  0 ≤ no ≤ 1 → 2 * PAGE ≤ blen b →
  (torn (slice b (no * PAGE) PAGE) → read_copy (healthy b) no = Ok None) ∧
  (∀ h, intact (slice b (no * PAGE) PAGE) no h → read_copy (healthy b) no = Ok (Some h)).
Proof using.
  intros Hn Hb. unfold read_copy. rewrite read_healthy by (unfold PAGE in *; lia). cbn [rbind]. split.
  - intros [_ Ht]. by rewrite (proj2 (Z.eqb_neq _ _)).
  - intros h (_ & Hc & _ & Hd). by rewrite Hc, Z.eqb_refl, Hd.
Qed.

(** What a write of [new] over [old] can have left. *)
Definition write_left (old new x : bytes) : Prop := x = old ∨ x = new ∨ torn x.

Definition copy (b : bytes) (no : Z) : bytes := slice b (no * PAGE) PAGE.
Lemma copy_same b no x :
  0 ≤ no ≤ 1 → 2 * PAGE ≤ blen b → blen x = PAGE → copy (splice b (no * PAGE) x) no = x.
Proof using.
  intros ?? Hx. unfold copy. pose proof (slice_splice_same b (no * PAGE) x) as E. rewrite Hx in E.
  apply E; unfold PAGE in *; lia.
Qed.
Lemma copy_other b no x :
  0 ≤ no ≤ 1 → 2 * PAGE ≤ blen b → blen x = PAGE → copy (splice b (no * PAGE) x) (1 - no) = copy b (1 - no).
Proof using. intros. unfold copy. apply slice_splice_other; unfold PAGE in *; lia. Qed.
Lemma disk_header_by_copy b :
  2 * PAGE ≤ blen b →
  disk_header (healthy b) = let* s := judge_copy (copy b 0) 0 None in judge_copy (copy b 1) 1 s.
Proof using. intros. by rewrite disk_header_copies. Qed.

(** The state of the two copies when a header is selected, and the order. *)
Lemma order_ok b old :
  2 * PAGE ≤ blen b → disk_header (healthy b) = Ok (Some old) →
  ∃ a, 0 ≤ a ≤ 1 ∧ metadata_write_order (healthy b) = Ok (a, 1 - a) ∧ intact (copy b (1 - a)) (1 - a) old ∧
    (torn (copy b a) ∨ ∃ h, intact (copy b a) a h ∧ identity h = identity old ∧ features h = features old ∧
                            (tx h < tx old ∨ h = old)).
Proof using.
  intros Hb Hd. rewrite disk_header_by_copy in Hd by done.
  assert (blen (copy b 0) = PAGE) as Hb0 by (apply blen_slice; unfold PAGE in *; lia).
  assert (blen (copy b 1) = PAGE) as Hb1 by (apply blen_slice; unfold PAGE in *; lia).
  destruct (read_copy_ok b 0 ltac:(lia) Hb) as [Ht0 Hi0]. destruct (read_copy_ok b 1 ltac:(lia) Hb) as [Ht1 Hi1].
  change (slice b (0 * PAGE) PAGE) with (copy b 0) in *. change (slice b (1 * PAGE) PAGE) with (copy b 1) in *.
  unfold metadata_write_order.
  destruct (judge_copy (copy b 0) 0 None) as [s|] eqn:E0; [|done]. cbn [rbind] in Hd.
  destruct (judge_ok _ _ _ _ Hb0 E0) as [T0|[h0 I0]]; destruct (judge_ok _ _ _ _ Hb1 Hd) as [T1|[h1 I1]].
  - rewrite judge_torn in E0 by done. rewrite judge_torn in Hd by done. congruence.
  - rewrite judge_torn in E0 by done. apply Ok_inj in E0 as <-. rewrite (judge_intact _ _ _ _ I1) in Hd.
    apply Ok_inj in Hd as [= <-]. rewrite (Ht0 T0), (Hi1 _ I1). exists 0. split_and!; [lia|lia|done|done|by left].
  - rewrite (judge_intact _ _ _ _ I0) in E0. apply Ok_inj in E0 as <-. rewrite judge_torn in Hd by done.
    apply Ok_inj in Hd as [= <-]. rewrite (Hi0 _ I0), (Ht1 T1). exists 1. split_and!; [lia|lia|done|done|by left].
  - rewrite (judge_intact _ _ _ _ I0) in E0. apply Ok_inj in E0 as <-. rewrite (judge_intact _ _ _ _ I1) in Hd.
    rewrite (Hi0 _ I0), (Hi1 _ I1). cbn [rbind].
    destruct (bool_decide _) eqn:Hid; [|done]. apply bool_decide_eq_true in Hid. cbn [andb] in Hd.
    destruct (Z.eqb_spec (features h0) (features h1)) as [Hfe|]; [|done].
    destruct (Z.eqb_spec (tx h0) (tx h1)) as [Ht|Ht]; cbn [andb] in Hd.
    + destruct (bool_decide (h0 = h1)) eqn:He; [|done]. apply bool_decide_eq_true in He as ->.
      cbn [negb] in Hd. rewrite Z.ltb_irrefl in *. apply Ok_inj in Hd as [= <-].
      exists 0. split_and!; [lia|lia|done|done|]. right. exists h1. split_and!; try done. by right.
    + destruct (Z.ltb_spec (tx h1) (tx h0)); apply Ok_inj in Hd as [= <-].
      * exists 1. split_and!; [lia|lia|done|done|]. right. exists h1. split_and!; try done. by left.
      * exists 0. split_and!; [lia|lia|done|done|]. right. exists h0. split_and!; try done. left. lia.
Qed.

Definition older_copy (x : bytes) (no : Z) (h : Header) : Prop :=
  torn x ∨ ∃ o, intact x no o ∧ identity o = identity h ∧ features o = features h ∧ (tx o < tx h ∨ o = h).
(** An intact copy wins over a torn or older one, wherever it lies. *)
Lemma pick_newest b a h :
  2 * PAGE ≤ blen b → 0 ≤ a ≤ 1 → intact (copy b a) a h → older_copy (copy b (1 - a)) (1 - a) h →
  disk_header (healthy b) = Ok (Some h).
Proof using.
  intros Hb Ha Hi Ho. rewrite disk_header_by_copy by done.
  destruct (decide (a = 0)) as [->|]; [|assert (a = 1) as -> by lia]; cbn [Z.sub Z.add Z.opp Z.pos_sub] in Ho.
  - rewrite (judge_intact _ _ _ _ Hi). cbn [rbind].
    destruct Ho as [Ht|(o & Hio & Hid & Hfe & Htx)]; [by rewrite judge_torn|].
    rewrite (judge_intact _ _ _ _ Hio), Hid, Hfe, bool_decide_true, Z.eqb_refl by done. cbn [andb].
    destruct Htx as [Hlt| ->].
    + rewrite (proj2 (Z.eqb_neq _ _)) by lia. cbn [andb]. by rewrite (proj2 (Z.ltb_lt _ _)).
    + rewrite Z.eqb_refl, bool_decide_true by done. cbn. by rewrite Z.ltb_irrefl.
  - change (1 + -1) with 0 in Ho. destruct Ho as [Ht|(o & Hio & Hid & Hfe & Htx)].
    + rewrite judge_torn by done. cbn [rbind]. by rewrite (judge_intact _ _ _ _ Hi).
    + rewrite (judge_intact _ _ _ _ Hio). cbn [rbind]. rewrite (judge_intact _ _ _ _ Hi), Hid, Hfe.
      rewrite bool_decide_true, Z.eqb_refl by done. cbn [andb].
      destruct Htx as [Hlt| ->].
      * rewrite (proj2 (Z.eqb_neq _ _)) by lia. cbn [andb]. by rewrite (proj2 (Z.ltb_ge _ _)) by lia.
      * rewrite Z.eqb_refl, bool_decide_true by done. cbn. by rewrite Z.ltb_irrefl.
Qed.

(** C8: replacing the checkpoint header is crash safe.  The copy
    written first is never the one recovery would select, so with a write of
    either copy torn, finished or not begun at any point of the update,
    opening finds the old header or the new one, never neither and never an
    error; and from the moment the first copy is complete it finds the new. *)
Theorem metadata_update_crash_safe b old new :
  2 * PAGE ≤ blen b → disk_header (healthy b) = Ok (Some old) → hwf new →
  identity new = identity old → features new = features old → tx old < tx new →
  ∃ a p q, metadata_write_order (healthy b) = Ok (a, 1 - a) ∧
    page_of new a = Ok p ∧ page_of new (1 - a) = Ok q ∧
    (∀ x, write_left (copy b a) p x →
      disk_header (healthy (splice b (a * PAGE) x)) = Ok (Some old) ∨
      disk_header (healthy (splice b (a * PAGE) x)) = Ok (Some new)) ∧
    (∀ y, write_left (copy b (1 - a)) q y →
      disk_header (healthy (splice (splice b (a * PAGE) p) ((1 - a) * PAGE) y)) = Ok (Some new)).
Proof using HL.
  intros Hb Hd Hn Hid Hfe Htx. destruct (order_ok b old Hb Hd) as (a & Ha & Ho & Hi & Hold).
  destruct (page_of_ok new a Hn ltac:(width)) as (p & Hp & _ & Hpi).
  destruct (page_of_ok new (1 - a) Hn ltac:(width)) as (q & Hq & _ & Hqi).
  assert (blen p = PAGE) as Hlp by apply Hpi. assert (blen q = PAGE) as Hlq by apply Hqi.
  assert (∀ no, 0 ≤ no ≤ 1 → blen (copy b no) = PAGE) as Hlc.
  { intros. apply blen_slice; unfold PAGE in *; lia. }
  exists a, p, q. split_and!; [done|done|done| |].
  - intros x [->|[->|Ht]].
    + left. apply pick_newest with (a := 1 - a); rewrite ?blen_splice; [done|lia| |].
      * rewrite copy_other by auto. done.
      * replace (1 - (1 - a)) with a by lia. rewrite copy_same by auto. exact Hold.
    + right. apply pick_newest with (a := a); rewrite ?blen_splice; [done|lia| |].
      * by rewrite copy_same.
      * rewrite copy_other by done. right. exists old. split_and!; [done|done|done|by left].
    + left. destruct Ht as [Hl Hc]. apply pick_newest with (a := 1 - a); rewrite ?blen_splice; [done|lia| |].
      * by rewrite copy_other.
      * replace (1 - (1 - a)) with a by lia. rewrite copy_same by done. by left.
  - intros y Hy. set (c := splice b (a * PAGE) p).
    assert (2 * PAGE ≤ blen c) as Hlb by (unfold c; by rewrite blen_splice).
    assert (blen y = PAGE) as Hly by (destruct Hy as [->|[->|[? _]]]; [apply Hlc; lia|done|done]).
    apply pick_newest with (a := a); rewrite ?blen_splice; [done|lia| |].
    + pose proof (copy_other c (1 - a) y) as E. replace (1 - (1 - a)) with a in E by lia.
      rewrite E by (first [lia|exact Hlb|exact Hly|exact Hlc]). unfold c. by rewrite copy_same.
    + rewrite copy_same by (first [lia|exact Hlb|exact Hly|exact Hlc]). destruct Hy as [->|[->|Ht]].
      * right. exists old. split_and!; [done|done|done|by left].
      * right. exists new. split_and!; [done|done|done|by right].
      * by left.
Qed.

(** ** Frames *)
Lemma blen_frame kind no tx pages payload ident :
  blen (frame kind no tx pages payload ident) = FRAME.
Proof using. unfold frame. by len. Qed.
Ltac fr := repeat first
  [ rewrite slice_splice_inner by (autorewrite with skj_rw; lia)
  | rewrite slice_splice_other by (autorewrite with skj_rw; lia) ].

Record frame_args (kind no tx pages : Z) (payload ident : bytes) : Prop := {
  fa_kind : is_u32 kind; fa_no : is_u32 no; fa_tx : is_u64 tx; fa_pages : is_u32 pages;
  fa_payload : blen payload = PAGE ∧ bytes_ok payload; fa_ident : blen ident = 16 ∧ bytes_ok ident }.

Lemma frame_fields kind no tx_ pages payload ident :
  frame_args kind no tx_ pages payload ident →
  let b := frame kind no tx_ pages payload ident in
  bytes_ok b ∧ slice b 0 8 = MAGIC ∧ u32at b 8 = kind ∧ u32at b 12 = no ∧ u64at b 16 = tx_ ∧ u32at b 24 = pages ∧
  slice b 32 PAGE = payload ∧ slice b (32 + PAGE) 16 = ident ∧ crc32c (splice b 28 (zeros 4)) = u32at b 28.
Proof using HL.
  intros [? ? ? ? [Hp ?] [Hi ?]]. cbn zeta. unfold u32at, u64at, frame.
  set (b0 := splice _ (32 + PAGE) ident).
  assert (blen b0 = FRAME) as Hb by (unfold b0; by len).
  assert (FRAME = 4144) as HF by done. assert (PAGE = 4096) as HP by done.
  assert (blen MAGIC = 8) as Hm by done.
  pose proof (crc32c_range b0) as Hc. assert (blen (zeros FRAME) = 4144) by done.
  split_and!.
  - apply bytes_ok_splice; [|auto with skj]. unfold b0.
    repeat match goal with |- bytes_ok (splice _ _ _) => apply bytes_ok_splice end; auto with skj.
    repeat constructor; done.
  - fr. unfold b0. fr. by apply slice_whole.
  - fr. unfold b0. fr. rewrite slice_whole by (rewrite ?blen_le_bytes; done). apply le_num_le_bytes. width.
  - fr. unfold b0. fr. rewrite slice_whole by (rewrite ?blen_le_bytes; done). apply le_num_le_bytes. width.
  - fr. unfold b0. fr. rewrite slice_whole by (rewrite ?blen_le_bytes; done). apply le_num_le_bytes. width.
  - fr. unfold b0. fr. rewrite slice_whole by (rewrite ?blen_le_bytes; done). apply le_num_le_bytes. width.
  - fr. unfold b0. fr. by apply slice_whole.
  - fr. unfold b0. fr. by apply slice_whole.
  - fr. rewrite slice_whole by (rewrite ?blen_le_bytes; done). rewrite le_num_le_bytes by done.
    rewrite splice_splice by (rewrite ?blen_le_bytes, ?Hb; done). f_equal.
    apply splice_self; change (blen (zeros 4)) with 4; [lia|lia|]. unfold b0. fr. done.
Qed.
(** What [read_frame] accepts, and that it reads back what [frame] built. *)
Definition good_frame (b : bytes) : Prop :=
  slice b 0 8 = MAGIC ∧ crc32c (splice b 28 (zeros 4)) = u32at b 28.
Lemma read_frame_iff b off x :
  bytes_ok b → 0 ≤ off →
  read_frame (healthy b) off = Ok x ↔ off + FRAME ≤ blen b ∧ x = slice b off FRAME ∧ good_frame x.
Proof using.
  intros Hb Hoff. unfold read_frame, good_frame, read_at, file_len. cbn [data healthy faulty no_fault].
  destruct (Z.leb_spec (off + FRAME) (blen b)) as [Hle|]; [|split; [done|lia]]. cbn [rbind].
  set (y := slice b off FRAME). assert (FRAME = 4144) as HF by done.
  assert (blen y = FRAME) as Hy by (apply blen_slice; lia).
  assert (slice (splice y 28 (zeros 4)) 0 8 = slice y 0 8) as ->.
  { apply slice_splice_other; change (blen (zeros 4)) with 4; lia. }
  assert (splice (splice y 28 (zeros 4)) 28 (le_bytes 4 (u32at y 28)) = y) as Hback.
  { assert (le_bytes 4 (u32at y 28) = slice y 28 4) as ->.
    { unfold u32at. assert (length (slice y 28 4) = 4%nat) as Hl.
      { apply Nat2Z.inj. change (blen (slice y 28 4) = 4). apply blen_slice; lia. }
      rewrite <-Hl at 1. apply le_bytes_le_num. unfold y. auto with skj. }
    assert (blen (slice y 28 4) = 4) by (apply blen_slice; lia).
    rewrite splice_splice by (try done; change (blen (zeros 4)) with 4; lia).
    apply splice_self; [lia|lia|]. by rewrite H. }
  rewrite Hback. destruct (bool_decide (slice y 0 8 = MAGIC)) eqn:Hm; cbn [negb orb].
  - apply bool_decide_eq_true in Hm. destruct (Z.eqb_spec (crc32c (splice y 28 (zeros 4))) (u32at y 28)); cbn [negb].
    + split; [intros <-%Ok_inj; done|by intros (_ & -> & _)].
    + split; [done|]. intros (_ & -> & _ & ?). done.
  - apply bool_decide_eq_false in Hm. split; [done|]. intros (_ & -> & ? & _). done.
Qed.
Lemma read_frame_frame pre post kind no tx_ pages payload ident :
  frame_args kind no tx_ pages payload ident → bytes_ok pre → bytes_ok post →
  let f := frame kind no tx_ pages payload ident in
  read_frame (healthy (pre ++ f ++ post)) (blen pre) = Ok f.
Proof using HL.
  intros Ha Hpre Hpost f. pose proof (frame_fields _ _ _ _ _ _ Ha) as (Hok & Hm & _&_&_&_&_&_& Hc).
  fold f in Hok, Hm, Hc. pose proof (blen_nonneg pre). pose proof (blen_nonneg post).
  assert (blen f = FRAME) as Hl by apply blen_frame.
  apply read_frame_iff; [apply bytes_ok_app; split; [done|]; by apply bytes_ok_app|lia|].
  assert (slice (pre ++ f ++ post) (blen pre) FRAME = f) as Hs.
  { rewrite slice_app_r, Z.sub_diag by lia. by apply slice_app_exact. }
  rewrite Hs, !blen_app, Hl. split_and!; [lia|done|by split].
Qed.

(** ** Hints *)
Record hint_wf (h : Hint) : Prop := {
  hint_id : blen (h_identity h) = 16; hint_ct : is_u64 (checkpoint_tx h);
  hint_pt : is_u64 (published_tx h); hint_pe : is_u32 (published_end h) }.
Lemma blen_hint h : blen (hint_encode h) = HINT_BYTES.
Proof using. unfold hint_encode. by len. Qed.
Lemma hint_roundtrip h : hint_wf h → hint_decode (hint_encode h) = Some h.
Proof using HL.
  intros [Hi ? ? ?]. unfold hint_decode. rewrite blen_hint, Z.eqb_refl. cbn [negb orb].
  unfold hint_encode. set (b0 := splice _ 40 _).
  assert (HINT_BYTES = 48) as HB by done. assert (blen HINT_MAGIC = 8) as Hm by done.
  assert (blen (zeros HINT_BYTES) = 48) by done.
  assert (blen b0 = 48) as Hb by (unfold b0; by len).
  pose proof (crc32c_range (slice b0 0 44)) as Hc. set (c := crc32c (slice b0 0 44)) in *.
  assert (slice (splice b0 44 (le_bytes 4 c)) 0 44 = slice b0 0 44) as -> by (fr; done).
  fold c. assert (slice (splice b0 44 (le_bytes 4 c)) 0 8 = HINT_MAGIC) as ->.
  { fr. unfold b0. fr. by apply slice_whole. }
  rewrite bool_decide_true by done.
  assert (u32at (splice b0 44 (le_bytes 4 c)) 44 = c) as ->.
  { unfold u32at. fr. rewrite slice_whole by (rewrite ?blen_le_bytes; done). by apply le_num_le_bytes. }
  rewrite Z.eqb_refl. cbn [negb]. f_equal. unfold u32at, u64at.
  transitivity (mkHint (h_identity h) (checkpoint_tx h) (published_tx h) (published_end h)); [f_equal|by destruct h].
  - fr. unfold b0. fr. by apply slice_whole.
  - fr. unfold b0. fr. rewrite slice_whole by (rewrite ?blen_le_bytes; done). apply le_num_le_bytes. width.
  - fr. unfold b0. fr. rewrite slice_whole by (rewrite ?blen_le_bytes; done). apply le_num_le_bytes. width.
  - fr. unfold b0. fr. rewrite slice_whole by (rewrite ?blen_le_bytes; done). apply le_num_le_bytes. width.
Qed.

(** The hint file as its two copies. *)
Definition hint_file (c0 c1 : bytes) : File := healthy (c0 ++ c1).
Lemma read_hint_copies c0 c1 ident :
  blen c0 = HINT_BYTES → blen c1 = HINT_BYTES →
  read_hint (hint_file c0 c1) ident =
    ok_or (better_hint ident (better_hint ident None c0) c1) (Io "publication hint damaged or from another database").
Proof using.
  intros H0 H1. unfold read_hint, hint_file, file_len. cbn [data healthy].
  change HINT_FILE_BYTES with 96. change HINT_BYTES with 48 in *. rewrite blen_app, H0, H1.
  cbn [Z.add Pos.add Pos.succ Pos.add_carry Z.ltb Z.compare Pos.compare Pos.compare_cont].
  rewrite read_healthy by (rewrite blen_app; lia). cbn [rbind].
  assert (slice (c0 ++ c1) 0 96 = c0 ++ c1) as -> by (apply slice_all; rewrite blen_app; lia).
  rewrite slice_app_exact by done. rewrite slice_app_r, slice_whole by lia. done.
Qed.

(** Publishing through the hint file is coherent under torn
    writes.  A pair written for [old] is rewritten for a later [new], copy 0
    then copy 1; each 48-byte write may be interrupted, leaving bytes that do
    not decode.  A reader of the same database gets [old] or [new] and
    nothing else, and gets [new] as soon as copy 0 is complete; the whole pair
    reads back as [new]. *)
Lemma hint_update_coherent old new x y :
  hint_wf old → hint_wf new → h_identity new = h_identity old → published_tx old < published_tx new →
  blen x = HINT_BYTES → blen y = HINT_BYTES → hint_decode x = None → hint_decode y = None →
  let o := hint_encode old in let n := hint_encode new in let id := h_identity old in
  read_hint (hint_file o o) id = Ok old ∧
  read_hint (hint_file x o) id = Ok old ∧
  read_hint (hint_file n o) id = Ok new ∧
  read_hint (hint_file n y) id = Ok new ∧
  read_hint (hint_file n n) id = Ok new ∧
  (∀ other c0 c1, other ≠ id → c0 ∈ [o; n; x] → c1 ∈ [o; n; y] →
     ∃ e, read_hint (hint_file c0 c1) other = Err e).
Proof using HL.
  intros Ho Hn Hid Htx Hx Hy Hdx Hdy o n id. pose proof (hint_roundtrip old Ho) as Hro.
  pose proof (hint_roundtrip new Hn) as Hrn. fold o in Hro. fold n in Hrn.
  assert (blen o = HINT_BYTES) as Hlo by apply blen_hint. assert (blen n = HINT_BYTES) as Hln by apply blen_hint.
  assert (∀ best c, hint_decode c = None → better_hint id best c = best) as Hnone.
  { intros best c Hc. unfold better_hint. by rewrite Hc. }
  assert (∀ best, better_hint id best o = match best with None => Some old
            | Some b => if published_tx b <? published_tx old then Some old else best end) as Hbo.
  { intros. unfold better_hint. by rewrite Hro, bool_decide_true. }
  assert (∀ best, better_hint id best n = match best with None => Some new
            | Some b => if published_tx b <? published_tx new then Some new else best end) as Hbn.
  { intros. unfold better_hint. by rewrite Hrn, bool_decide_true. }
  split_and!; try (rewrite read_hint_copies by done; rewrite ?Hbo, ?Hbn, ?(Hnone _ _ Hdx), ?(Hnone _ _ Hdy), ?Hbo, ?Hbn;
                   rewrite ?Z.ltb_irrefl, ?(proj2 (Z.ltb_ge _ _)) by lia; done).
  intros other c0 c1 Hne Hc0 Hc1.
  assert (∀ best c, c ∈ [o; n; x] ∨ c ∈ [o; n; y] → better_hint other best c = best) as Hskip.
  { intros best c Hc. unfold better_hint.
    assert (hint_decode c = Some old ∨ hint_decode c = Some new ∨ hint_decode c = None) as [->|[->| ->]].
    { rewrite !elem_of_cons, !elem_of_nil in Hc. destruct Hc as [[->|[->|[->|[]]]]|[->|[->|[->|[]]]]]; auto. }
    - by rewrite bool_decide_false.
    - rewrite bool_decide_false; [done|]. rewrite Hid. intros E. by apply Hne.
    - done. }
  rewrite read_hint_copies by set_solver. rewrite !Hskip by auto. by eexists.
Qed.
End codecs.

(** * Concrete instances *)
Section sample.
#[local] Existing Instance crc32c_reference.
#[local] Existing Instance crc32c_reference_laws.
Definition sample_old : Header := mkHeader 2 0 (2 ^ 40) (repeat 7 16) 5 1.
Definition sample_new : Header := mkHeader 3 0 (2 ^ 40) (repeat 7 16) 6 1.
Definition sample_copies : bytes :=
  match page_of sample_old 0, page_of sample_old 1 with Ok p, Ok q => p ++ q | _, _ => [] end.
Lemma sample_new_hwf : hwf sample_new.
Proof using.
  split; cbn; try (split; discriminate); [split; [split; discriminate|reflexivity]|].
  split_and!; [reflexivity| |discriminate]. refine (bool_decide_unpack _ _). vm_compute. exact I.
Qed.
Lemma sample_copies_len : 2 * PAGE ≤ blen sample_copies.
Proof using. vm_compute. discriminate. Qed.
Lemma sample_copies_header : disk_header (healthy sample_copies) = Ok (Some sample_old).
Proof using. vm_compute. reflexivity. Qed.
Lemma metadata_update_crash_safe_witness :
  ∃ a p q, metadata_write_order (healthy sample_copies) = Ok (a, 1 - a) ∧
    disk_header (healthy (splice (splice sample_copies (a * PAGE) p) ((1 - a) * PAGE) q)) = Ok (Some sample_new).
Proof using.
  destruct (metadata_update_crash_safe sample_copies sample_old sample_new sample_copies_len sample_copies_header
    sample_new_hwf eq_refl eq_refl eq_refl) as (a & p & q & Ho & _ & _ & _ & Hn).
  exists a, p, q. split; [exact Ho|]. apply Hn. right. by left.
Defined.
Definition sample_hint (t e : Z) : Hint := mkHint (repeat 7 16) 4 t e.
Lemma hint_update_coherent_witness :
  read_hint (hint_file (hint_encode (sample_hint 6 4144)) (zeros HINT_BYTES)) (repeat 7 16) = Ok (sample_hint 6 4144).
Proof using.
  refine (proj1 (proj2 (proj2 (proj2 (hint_update_coherent (sample_hint 5 0) (sample_hint 6 4144) (zeros HINT_BYTES) (zeros HINT_BYTES)
    _ _ _ _ _ _ _ _))))); try reflexivity; split; try reflexivity; split; discriminate.
Defined.
End sample.
End Pwal.
