(* ===== verification/Pager.v ===== *)
(** * The page-WAL pager ([core/engine/src/store/pagewal/mod.rs])

    The state of a writer's pager, strict inspection of the files at open, the
    appends of a transaction, its publication, the free list, the page reads,
    and the checkpoint with the crash points of the fault harness.  Every
    operation that changes state is a function from the pager to the pager and
    a [Result]: an early [Err] keeps the changes made before it, as in Rust. *)
From S2P Require Import Prelude Crc Disk Page PwalFormat.
Import Pwal.

Module Pager.

Abbreviation Index := (gmap Z FrameRef).

Record State := mkState {
  latest : Index; committed : Index; end_ : Z; last_commit : Z;
  pages : Z; committed_pages : Z; s_tx : Z; tx_crc : Z; s_cap : Z; free_head : Z;
  s_identity : bytes; s_features : Z; floor : Z; hint_current : bool; hint_published : bool;
  data_limit : Z; wal_limit : Z; tracked_limit : Z }.

(** The pager's files and its state; [hint_io] is set by [finish_open]. *)
Record Pager := mkPager {
  p_data : File; p_wal : File; p_hint : option File; st : State; readers : Z }.

(** Which write of the two-copy hint fails, if one does. *)
Inductive hint_fault := NoFault | FailCopy0 | FailCopy1.

(** ** Inspection *)
Record Loop := mkLoop {
  l_committed : Index; l_pending : Index; l_pages : Z; l_at : Z; l_last : Z; l_tx : Z; l_crc : Z;
  l_first : option Z; l_header : option Header; l_pending_header : option Header; l_proven : bool }.

(** The largest [usize]: no limit installed. *)
Definition usize_max : Z := u64_max.

Definition by_page (x y : Z * FrameRef) : Prop := x.1 ≤ y.1.
#[global] Instance by_page_dec : RelDecision by_page.
Proof. intros x y. unfold by_page. apply _. Defined.

Section pager.
Context `{Crc32c}.

(** The body of the inspection loop for a verified frame [b]. *)
Definition inspect_page (identity_ : bytes) (features_ : Z) (b : bytes) (l : Loop) : result error Loop :=
  let p := u32at b 12 in
  if p =? 1 then bad "WAL image targets checkpoint-only metadata copy" else
  let* _ := Page.page_open (slice b 32 PAGE) p in
  let* ph :=
    (if p =? 0 then
       let* h := decode (slice b 32 PAGE) 0 in
       if negb (bool_decide (identity h = identity_)) || negb (features h =? features_) || negb (tx h =? l_tx l)
       then bad "WAL metadata identity/history mismatch"
       else Ok (Some h)
     else Ok (l_pending_header l)) in
  Ok (mkLoop (l_committed l) (<[p := FrameRef_new (l_at l) b]> (l_pending l)) (l_pages l) (l_at l) (l_last l)
        (l_tx l) (crc32c_append (l_crc l) b) (l_first l) (l_header l) ph (l_proven l)).
Definition inspect_commit (disk : option Header) (floor_ : Z) (b : bytes) (l : Loop) : result error Loop :=
  if negb (u32at b 32 =? l_crc l) then bad "WAL transaction checksum" else
  let pages := u32at b 24 in
  if bool_decide (map_Forall (λ p _, p < pages) (l_pending l)) then
    match l_pending_header l with
    | None => bad "commit lacks transaction metadata"
    | Some h =>
        let* _ := validate_extent h pages in
        let* proven :=
          (if l_tx l =? floor_ then
             if negb (bool_decide (Some h = disk)) then bad "WAL conflicts with checkpoint history" else Ok true
           else Ok (l_proven l)) in
        let* tx := ok_or (checked_add_u64 (l_tx l) 1) TooLarge in
        Ok (mkLoop (l_pending l ∪ l_committed l) ∅ pages (l_at l) (l_at l + FRAME) tx 0
              (l_first l) (Some h) None proven)
    end
  else bad "page beyond committed extent".
Definition inspect_frame (disk : option Header) (identity_ : bytes) (features_ floor_ : Z) (b : bytes) (l : Loop)
    : result error Loop :=
  if negb (bool_decide (slice b (32 + PAGE) 16 = identity_)) then bad "WAL belongs to another database" else
  let* l :=
    (if l_at l =? 0 then
       let tx := u64at b 16 in
       let* next := ok_or (checked_add_u64 floor_ 1) TooLarge in
       if (tx =? 0) || (next <? tx) then bad "WAL starts beyond checkpoint history" else
       Ok (mkLoop (l_committed l) (l_pending l) (l_pages l) (l_at l) (l_last l) tx (l_crc l) (Some tx)
             (l_header l) (l_pending_header l) (l_proven l))
     else Ok l) in
  if negb (u64at b 16 =? l_tx l) then bad "WAL transaction sequence" else
  let* l :=
    (let kind := u32at b 8 in
     if kind =? 1 then inspect_page identity_ features_ b l
     else if kind =? 2 then inspect_commit disk floor_ b l
     else bad "unknown WAL frame kind") in
  Ok (mkLoop (l_committed l) (l_pending l) (l_pages l) (l_at l + FRAME) (l_last l) (l_tx l) (l_crc l)
        (l_first l) (l_header l) (l_pending_header l) (l_proven l)).

Fixpoint inspect_loop (n : nat) (disk : option Header) (identity_ : bytes) (features_ floor_ : Z)
    (wal : File) (len : Z) (bounded : bool) (l : Loop) : result error Loop :=
  match n with
  | O => Ok l
  | S n =>
      if l_at l + FRAME <=? len then
        match read_frame wal (l_at l) with
        | Err e => if negb bounded && torn_tail wal (l_at l) len then Ok l else Err e
        | Ok b =>
            let* l := inspect_frame disk identity_ features_ floor_ b l in
            inspect_loop n disk identity_ features_ floor_ wal len bounded l
        end
      else Ok l
  end.

Definition opt_map_or {A B} (o : option A) (d : B) (f : A → B) : B :=
  match o with Some a => f a | None => d end.

(** [create_features] is the process-wide default for new databases. *)
Definition inspect_bounded (create_features : Z) (data_ wal : File) (bound : option Z) : result error State :=
  let* disk := disk_header data_ in
  let len := match bound with Some b => b | None => file_len wal end in
  if WAL_CAP <? len then bad "WAL exceeds pilot bounded lookup allowance" else
  if bool_decide (disk = None) && negb (len =? 0) then bad "WAL ownership/history lacks checkpoint metadata" else
  let data_len := file_len data_ in
  let data_pages := data_len / PAGE in
  if u32_max <? data_pages then Err TooLarge else
  let floor_ := opt_map_or disk 0 tx in
  let identity_ := opt_map_or disk (zeros 16) identity in
  let features_ := opt_map_or disk create_features features in
  let* tx0 := ok_or (checked_add_u64 floor_ 1) TooLarge in
  let* l := inspect_loop (Z.to_nat (len / FRAME)) disk identity_ features_ floor_ wal len
              (match bound with Some _ => true | None => false end)
              (mkLoop ∅ ∅ data_pages 0 0 tx0 0 None None None false) in
  if (match l_first l with Some first => first <=? floor_ | None => false end) && negb (l_proven l)
  then bad "WAL predates the durable checkpoint" else
  let pages := l_pages l in
  if (negb (data_len mod PAGE =? 0) || (data_pages <? pages)) &&
     ((l_last l =? 0) || (pages <=? data_pages) || (Z.of_nat (size (l_committed l)) <? pages - data_pages)
      || negb (forallb (λ p, bool_decide (is_Some (l_committed l !! p))) (seqZ data_pages (pages - data_pages))))
  then bad "incomplete data extent without committed WAL coverage" else
  let h := match l_header l with Some h => Some h | None => disk end in
  let* next := ok_or (checked_add_u64 (opt_map_or h 0 tx) 1) TooLarge in
  let cap_ := opt_map_or h u64_max cap in
  if cap_ <? l_last l + pages * PAGE then Err (ResourceLimit "persisted page-WAL cap exceeded") else
  Ok (mkState (l_committed l) (l_committed l) (l_last l) (l_last l) pages pages next 0 cap_
        (opt_map_or h 0 free) identity_ features_ floor_ false false u64_max u64_max usize_max).

(** ** Transactions *)
Definition with_state (pg : Pager) (s : State) : Pager :=
  mkPager (p_data pg) (p_wal pg) (p_hint pg) s (readers pg).
Definition set_end (s : State) (e : Z) : State :=
  mkState (latest s) (committed s) e (last_commit s) (pages s) (committed_pages s) (s_tx s) (tx_crc s)
    (s_cap s) (free_head s) (s_identity s) (s_features s) (floor s) (hint_current s) (hint_published s)
    (data_limit s) (wal_limit s) (tracked_limit s).
Definition set_pages (s : State) (n : Z) : State :=
  mkState (latest s) (committed s) (end_ s) (last_commit s) n (committed_pages s) (s_tx s) (tx_crc s)
    (s_cap s) (free_head s) (s_identity s) (s_features s) (floor s) (hint_current s) (hint_published s)
    (data_limit s) (wal_limit s) (tracked_limit s).
(** The bookkeeping after a page frame [f] landed at [at_]. *)
Definition note_page (s : State) (p at_ : Z) (f : bytes) : State :=
  mkState (<[p := FrameRef_new at_ f]> (latest s)) (committed s) (end_ s) (last_commit s) (pages s)
    (committed_pages s) (s_tx s) (crc32c_append (tx_crc s) f) (s_cap s) (free_head s) (s_identity s)
    (s_features s) (floor s) (hint_current s) (hint_published s) (data_limit s) (wal_limit s) (tracked_limit s).
Definition set_free (s : State) (p : Z) : State :=
  mkState (latest s) (committed s) (end_ s) (last_commit s) (pages s) (committed_pages s) (s_tx s) (tx_crc s)
    (s_cap s) p (s_identity s) (s_features s) (floor s) (hint_current s) (hint_published s)
    (data_limit s) (wal_limit s) (tracked_limit s).
Definition set_cap_of (s : State) (c : Z) : State :=
  mkState (latest s) (committed s) (end_ s) (last_commit s) (pages s) (committed_pages s) (s_tx s) (tx_crc s)
    c (free_head s) (s_identity s) (s_features s) (floor s) (hint_current s) (hint_published s)
    (data_limit s) (wal_limit s) (tracked_limit s).
Definition set_limits (s : State) (d w t : Z) : State :=
  mkState (latest s) (committed s) (end_ s) (last_commit s) (pages s) (committed_pages s) (s_tx s) (tx_crc s)
    (s_cap s) (free_head s) (s_identity s) (s_features s) (floor s) (hint_current s) (hint_published s) d w t.
Definition set_hint (s : State) (current published : bool) : State :=
  mkState (latest s) (committed s) (end_ s) (last_commit s) (pages s) (committed_pages s) (s_tx s) (tx_crc s)
    (s_cap s) (free_head s) (s_identity s) (s_features s) (floor s) current published
    (data_limit s) (wal_limit s) (tracked_limit s).

Definition append (pg : Pager) (b : bytes) : Pager * result error unit :=
  let s := st pg in
  match checked_add_u64 (end_ s) (blen b) with
  | None => (pg, Err TooLarge)
  | Some e =>
      if (WAL_CAP <? e) || (s_cap s <? e + pages s * PAGE)
      then (pg, Err (ResourceLimit "page-WAL managed-byte allowance"))
      else if wal_limit s <? e then (pg, Err (ResourceLimit "page-WAL wal_bytes allowance"))
      else (mkPager (p_data pg) (write_at (p_wal pg) b (end_ s)) (p_hint pg) (set_end s e) (readers pg), Ok tt)
  end.
Definition grow (s : State) (p : Z) : result error State :=
  let* p1 := ok_or (checked_add_u32 p 1) TooLarge in
  let n := Z.max (pages s) p1 in
  if data_limit s <? n * PAGE then Err (ResourceLimit "page-WAL data_bytes allowance") else
  Ok (set_pages s n).
Definition track (s : State) (p : Z) : result error unit :=
  if bool_decide (latest s !! p = None) && (tracked_limit s <=? Z.of_nat (size (latest s)))
  then Err (ResourceLimit "page-WAL tracked_pages allowance") else Ok tt.

(** Frame a page and index it: the common tail of the page writers. *)
Definition log_page (pg : Pager) (p : Z) (b : bytes) : Pager * result error unit :=
  let s := st pg in
  let f := frame 1 p (s_tx s) 0 b (s_identity s) in
  let at_ := end_ s in
  match append pg f with
  | (pg, Err e) => (pg, Err e)
  | (pg, Ok _) => (with_state pg (note_page (st pg) p at_ f), Ok tt)
  end.
Definition page_write_at (pg : Pager) (b : bytes) (off : Z) : Pager * result error unit :=
  if negb (off mod PAGE =? 0) || negb (blen b =? PAGE) then (pg, bad "unaligned page write") else
  let p := off / PAGE in
  if u32_max <? p then (pg, Err TooLarge) else
  match (let* _ := Page.page_open b p in let* _ := track (st pg) p in grow (st pg) p) with
  | Err e => (pg, Err e)
  | Ok s => log_page (with_state pg s) p b
  end.

Definition write_hint (pg : Pager) (fault : hint_fault) (published_tx published_end : Z) : Pager * result error unit :=
  match p_hint pg with
  | None => (pg, bad "publication hint file unavailable")
  | Some io =>
      let s := st pg in
      let b := hint_encode (mkHint (s_identity s) (floor s) published_tx (published_end mod (u32_max + 1))) in
      match fault with
      | FailCopy0 => (with_state pg (set_hint s false false), Err (Io "hint write failed"))
      | FailCopy1 =>
          (mkPager (p_data pg) (p_wal pg) (Some (write_at io b 0)) (set_hint s false true) (readers pg),
           Err (Io "hint write failed"))
      | NoFault =>
          (mkPager (p_data pg) (p_wal pg) (Some (write_at (write_at io b 0) b HINT_BYTES)) (set_hint s true true)
             (readers pg), Ok tt)
      end
  end.
Definition swap (s : State) (next : Z) : State :=
  mkState (latest s) (latest s) (end_ s) (end_ s) (pages s) (pages s) next 0
    (s_cap s) (free_head s) (s_identity s) (s_features s) (floor s) (hint_current s) (hint_published s)
    (data_limit s) (wal_limit s) (tracked_limit s).
Definition publish (pg : Pager) (fault : hint_fault) : Pager * result error unit :=
  let s := st pg in
  let body := splice (zeros PAGE) 0 (le_bytes 4 (tx_crc s)) in
  match checked_add_u64 (s_tx s) 1 with
  | None => (pg, Err TooLarge)
  | Some next =>
      let b := frame 2 u32_max (s_tx s) (pages s) body (s_identity s) in
      match append pg b with
      | (pg, Err e) => (pg, Err e)
      | (pg, Ok _) =>
          let '(pg, r) := write_hint pg fault (s_tx (st pg)) (end_ (st pg)) in
          (if hint_published (st pg) then with_state pg (swap (st pg) next) else pg, r)
      end
  end.

(** [PageWalStore::commit]: the header as page 0, then the publication. *)
Definition commit (pg : Pager) (root_ : Z) (fault : hint_fault) : Pager * result error unit :=
  let s := st pg in
  match page_of (mkHeader root_ (free_head s) (s_cap s) (s_identity s) (s_tx s) (s_features s)) 0 with
  | Err e => (pg, Err e)
  | Ok b =>
      match page_write_at pg b 0 with
      | (pg, Err e) => (pg, Err e)
      | (pg, Ok _) => publish pg fault
      end
  end.

(** ** Reads and the free list *)
Definition read_page (data_ wal : File) (index : Index) (p : Z) : result error bytes :=
  let* b :=
    match index !! p with
    | Some r =>
        let* b := read_indexed_frame wal r in
        if negb (u32at b 12 =? p) then bad "WAL page identity" else Ok (slice b 32 PAGE)
    | None =>
        if p =? 0 then
          let* h := disk_header data_ in
          match h with
          | None => bad "both checkpoint metadata copies damaged"
          | Some h => page_of h 0
          end
        else read_at data_ (p * PAGE) PAGE
    end in
  Page.page_open b p.
(** [View::read_at] for one page: what a snapshot handle sees. *)
Definition view_read (pg : Pager) (p : Z) : result error bytes :=
  if committed_pages (st pg) <=? p then bad "snapshot page extent"
  else read_page (p_data pg) (p_wal pg) (committed (st pg)) p.

Definition free_page_image (p : Z) (slot0 : bytes) : result error bytes :=
  match Page.insert_slot (Page.init Page.Free 0 p) 0 slot0 with
  | Some (Ok b) => Ok (Page.seal (Page.finalise b 0) 1)
  | Some (Err e) => Err e
  | None => bad "panic"
  end.
Definition pop_free_page (pg : Pager) : Pager * result error (option Z) :=
  let s := st pg in
  let p := free_head s in
  if p =? 0 then (pg, Ok None) else
  if (p <? 2) || (pages s <=? p) then (pg, bad "free head extent") else
  match (let* _ := track s p in
         let* page := read_page (p_data pg) (p_wal pg) (latest s) p in
         if negb (bool_decide (Page.kind page = Some Page.Free)) || negb (Page.nentries page =? 1)
            || negb (blen (default [] (Page.slot page 0)) =? 4)
         then bad "free page state" else
         let next := u32at (default [] (Page.slot page 0)) 0 in
         if (next =? p) || (negb (next =? 0) && ((next <? 2) || (pages s <=? next)))
         then bad "free next extent/cycle" else
         let* b := free_page_image p (ascii_bytes "taken") in
         Ok (next, b)) with
  | Err e => (pg, Err e)
  | Ok (next, b) =>
      match log_page pg p b with
      | (pg, Err e) => (pg, Err e)
      | (pg, Ok _) => (with_state pg (set_free (st pg) next), Ok (Some p))
      end
  end.
Definition push_free_page (pg : Pager) (p : Z) : Pager * result error unit :=
  if p <? 2 then (pg, bad "free page extent") else
  match (let* _ := track (st pg) p in grow (st pg) p) with
  | Err e => (pg, Err e)
  | Ok s =>
      let pg := with_state pg s in
      match free_page_image p (le_bytes 4 (free_head s)) with
      | Err e => (pg, Err e)
      | Ok b =>
          match log_page pg p b with
          | (pg, Err e) => (pg, Err e)
          | (pg, Ok _) => (with_state pg (set_free (st pg) p), Ok tt)
          end
      end
  end.

(** ** Checkpoint *)
(** A [BTreeMap]'s entries in key order. *)
Definition entries (m : Index) : list (Z * FrameRef) := merge_sort by_page (map_to_list m).

(** One page of the copy-in; a failure keeps the pages already written. *)
Definition copy_back (wal data_ : File) (p : Z) (off : FrameRef) : result error File :=
  let* b := read_indexed_frame wal off in
  if negb (u32at b 12 =? p) then bad "WAL lookup identity" else
  let* _ := Page.page_open (slice b 32 PAGE) p in
  Ok (write_at data_ (slice b 32 PAGE) (p * PAGE)).
Fixpoint copy_all (wal data_ : File) (es : list (Z * FrameRef)) : File * result error unit :=
  match es with
  | [] => (data_, Ok tt)
  | (p, off) :: es =>
      if p =? 0 then copy_all wal data_ es else
      match copy_back wal data_ p off with
      | Err e => (data_, Err e)
      | Ok data_ => copy_all wal data_ es
      end
  end.
Fixpoint verify_all (wal data_ : File) (es : list (Z * FrameRef)) : result error unit :=
  match es with
  | [] => Ok tt
  | (p, off) :: es =>
      if p =? 0 then verify_all wal data_ es else
      let* d := read_at data_ (p * PAGE) PAGE in
      let* b := read_indexed_frame wal off in
      if negb (bool_decide (d = slice b 32 PAGE)) then bad "checkpoint read-back mismatch" else
      let* _ := Page.page_open d p in
      verify_all wal data_ es
  end.
Definition write_header_copy (data_ : File) (header : Header) (no : Z) : result error File :=
  let* page := page_of header no in
  let data_ := write_at data_ page (no * PAGE) in
  let* actual := read_at data_ (no * PAGE) PAGE in
  if negb (bool_decide (actual = page)) then bad "checkpoint metadata read-back mismatch" else
  let* _ := decode actual no in
  Ok data_.

(** How far [checkpoint_with_crash] gets before the process exits: the fault
    harness's stages, [Complete] being no fault. *)
Inductive stage := Complete | AfterPage | AfterData | AfterMeta1 | AfterMeta2 | BeforeReset | AfterReset | LostReset.
#[global] Instance stage_eq_dec : EqDecision stage.
Proof. solve_decision. Defined.

Definition reset (s : State) (header : Header) : State :=
  mkState ∅ ∅ 0 0 (pages s) (committed_pages s) (s_tx s) 0
    (s_cap s) (free_head s) (s_identity s) (s_features s) (tx header) (hint_current s) (hint_published s)
    (data_limit s) (wal_limit s) (tracked_limit s).
Definition with_data (pg : Pager) (d : File) : Pager := mkPager d (p_wal pg) (p_hint pg) (st pg) (readers pg).
Definition with_wal (pg : Pager) (w : File) : Pager := mkPager (p_data pg) w (p_hint pg) (st pg) (readers pg).

(** [inl]: the process exited with these files; [inr]: the call returned. *)
Definition checkpoint_with_crash (pg : Pager) (fault : stage) : Pager + (Pager * result error bool) :=
  let s := st pg in
  if negb (readers pg =? 0) then inr (pg, Ok false) else
  if negb (end_ s =? last_commit s) then inr (pg, bad "checkpoint with unpublished pages") else
  if negb (hint_current s) then inr (pg, bad "checkpoint requires a current publication hint; rollback or reopen") else
  if end_ s =? 0 then inr (pg, Ok true) else
  let es := entries (latest s) in
  let body := filter (λ e, e.1 ≠ 0) es in
  if bool_decide (fault = AfterPage ∧ body ≠ []) then
    match copy_all (p_wal pg) (p_data pg) (take 1 body) with
    | (d, Ok _) => inl (with_data pg d)
    | (d, Err e) => inr (with_data pg d, Err e)
    end
  else
  match copy_all (p_wal pg) (p_data pg) es with
  | (d, Err e) => inr (with_data pg d, Err e)
  | (d, Ok _) =>
  let d := set_len d (pages s * PAGE) in
  if bool_decide (fault = AfterData) then inl (with_data pg d) else
  match (let* _ := verify_all (p_wal pg) d es in
         let* r := ok_or (latest s !! 0) (CorruptWal 0 "checkpoint lacks metadata") in
         let* b := read_indexed_frame (p_wal pg) r in
         let* header := decode (slice b 32 PAGE) 0 in
         let* order := metadata_write_order d in
         Ok (header, order)) with
  | Err e => inr (with_data pg d, Err e)
  | Ok (header, (n1, n2)) =>
      match page_of header n1 with
      | Err e => inr (with_data pg d, Err e)
      | Ok p1 =>
      if bool_decide (fault = AfterMeta1) then inl (with_data pg (write_at d p1 (n1 * PAGE))) else
      match write_header_copy d header n1 with
      | Err e => inr (with_data pg (write_at d p1 (n1 * PAGE)), Err e)
      | Ok d =>
      match page_of header n2 with
      | Err e => inr (with_data pg d, Err e)
      | Ok p2 =>
      if bool_decide (fault = AfterMeta2) then inl (with_data pg (write_at d p2 (n2 * PAGE))) else
      match write_header_copy d header n2 with
      | Err e => inr (with_data pg (write_at d p2 (n2 * PAGE)), Err e)
      | Ok d =>
          let pg := with_data pg d in
          if bool_decide (fault = BeforeReset ∨ fault = LostReset) then inl pg else
          let pg := with_wal pg (set_len (p_wal pg) 0) in
          if bool_decide (fault = AfterReset) then inl pg else
          let pg := with_state pg (reset s header) in
          let '(pg, r) := write_hint pg NoFault (s_tx (st pg) - 1) 0 in
          inr (pg, match r with Ok _ => Ok true | Err e => Err e end)
      end end end end end
  end.

Definition checkpoint_due (s : State) : bool :=
  let allowance := saturating_sub (s_cap s) (pages s * PAGE) in
  Z.max (Z.min (Z.min (4 * 1024 * 1024) (allowance / 2)) (wal_limit s / 2)) FRAME <=? end_ s.

(** [finish_open] after inspection: drop the tail, write the hint. *)
Definition finish_open (pg : Pager) (hint_io : File) (fault : hint_fault) : Pager * result error unit :=
  let e := last_commit (st pg) in
  let wal := if file_len (p_wal pg) =? e then p_wal pg else set_len (p_wal pg) e in
  let pg := mkPager (p_data pg) wal (Some hint_io) (st pg) (readers pg) in
  write_hint pg fault (s_tx (st pg) - 1) e.

(** [admit_live]: what a reader beside a live writer inspects. *)
Definition admit_live (create_features : Z) (data_ wal hint_io : File) : result error State :=
  let* disk := disk_header data_ in
  let* disk := ok_or disk (Io "checkpoint metadata unreadable during admission") in
  let* hint := read_hint hint_io (identity disk) in
  let* e := validate_hint hint (tx disk) (file_len wal) in
  let* s := inspect_bounded create_features data_ wal (Some e) in
  if negb (last_commit s =? e) || negb (s_tx s - 1 =? published_tx hint)
  then unavailable "publication hint does not name a commit at its bound"
  else Ok s.

(** ** The store's calls ([PageWalStore]) *)
(** [load_header]: the tree root, and the pager's free head and cap, from page 0. *)
Definition load_header (pg : Pager) : Pager * result error Z :=
  match (let* b := read_page (p_data pg) (p_wal pg) (latest (st pg)) 0 in
         if negb (bool_decide (Page.kind b = Some Page.Meta)) || negb (Page.nentries b =? 1)
         then bad "pilot header shape" else
         let* h := decode_slot (default [] (Page.slot b 0)) in
         let* _ := validate_extent h (pages (st pg)) in Ok h) with
  | Err e => (pg, Err e)
  | Ok h =>
      let s := set_cap_of (set_free (st pg) (free h)) (cap h) in
      (with_state pg s,
       if s_cap s <? end_ s + pages s * PAGE then Err (ResourceLimit "persisted page-WAL cap exceeded")
       else Ok (root h))
  end.
(** The opening of an existing store ([open_inner]): inspection, header, and
    only then the truncation of the tail and the publication of the hint. *)
Definition open_writer (create_features : Z) (data_ wal hint_io : File) (fault : hint_fault) : result error Pager :=
  let* s := inspect_bounded create_features data_ wal None in
  let '(pg, r) := load_header (mkPager data_ wal None s 0) in
  let* _ := r in
  let '(pg, r) := finish_open pg hint_io fault in
  let* _ := r in Ok pg.
(** [rollback]; [create_features] is the process default [inspect] reads. *)
Definition rollback (create_features : Z) (pg : Pager) (hint_io : File) (fault : hint_fault) : Pager * result error Z :=
  match inspect_bounded create_features (p_data pg) (p_wal pg) None with
  | Err e => (pg, Err e)
  | Ok fresh =>
      let s := st pg in
      let fresh := set_limits fresh (data_limit s) (wal_limit s) (tracked_limit s) in
      if negb (bool_decide (s_identity fresh = s_identity s)) || negb (s_features fresh =? s_features s)
      then (pg, bad "rollback identity/features changed")
      else match finish_open (with_state pg fresh) hint_io fault with
           | (pg, Err e) => (pg, Err e)
           | (pg, Ok _) => load_header pg
           end
  end.
Definition set_runtime_limits (pg : Pager) (data_bytes wal_bytes tracked_pages : Z) : Pager * result error unit :=
  let s := st pg in
  if (data_bytes <? pages s * PAGE) || (wal_bytes <? end_ s) || (tracked_pages <? Z.of_nat (size (latest s)))
  then (pg, Err (ResourceLimit "existing extent exceeds the requested allowance"))
  else (with_state pg (set_limits s data_bytes wal_bytes tracked_pages), Ok tt).
(** [set_cap] of a clean handle: the new cap is published by a commit. *)
Definition set_cap (pg : Pager) (root_ bytes_ : Z) (fault : hint_fault) : Pager * result error unit :=
  let s := st pg in
  if bytes_ <? end_ s + pages s * PAGE + 2 * FRAME
  then (pg, Err (ResourceLimit "cap lacks policy commit headroom"))
  else commit (with_state pg (set_cap_of s bytes_)) root_ fault.

(** A writer handle: its pager, and whether an error has poisoned it. *)
Inductive call :=
| CWrite (p : Z) (b : bytes) | CPop | CPush (p : Z)
| CCommit (root_ : Z) (fault : hint_fault) | CSetCap (root_ cap_ : Z) (fault : hint_fault)
| CLimits (data_bytes wal_bytes tracked_pages : Z) | CRollback (hint_io : File) (fault : hint_fault).
Definition poison {A} (r : Pager * result error A) : Pager * bool := (r.1, negb (is_ok r.2)).
Definition run_call (create_features : Z) (h : Pager * bool) (c : call) : Pager * bool :=
  let '(pg, poisoned) := h in
  match c with
  | CRollback io fault =>
      match rollback create_features pg io fault with
      | (pg, Ok _) => (pg, false)
      | (pg, Err _) => (pg, true)
      end
  | CLimits d w t => ((set_runtime_limits pg d w t).1, poisoned)
  | _ =>
      if poisoned then h else
      match c with
      | CWrite p b => poison (page_write_at pg b (p * PAGE))
      | CPop => poison (pop_free_page pg)
      | CPush p => poison (push_free_page pg p)
      | CCommit root_ fault => poison (commit pg root_ fault)
      | CSetCap root_ cap_ fault => poison (set_cap pg root_ cap_ fault)
      | _ => h
      end
  end.
End pager.

(** * What the log of a writer holds *)
(** Computes the fields of an explicit pager or state, and nothing else. *)
Ltac fields :=
  cbn [p_data p_wal p_hint st readers latest committed end_ last_commit pages committed_pages s_tx tx_crc s_cap
       free_head s_identity s_features floor hint_current hint_published data_limit wal_limit tracked_limit
       with_state set_end set_pages note_page set_free set_cap_of set_limits set_hint swap with_data with_wal reset].

#[local] Opaque frame.
Section replaying.
Context `{HC : Crc32c} {HL : Crc32cLaws}.

Definition frame_ok (f : bytes) : Prop := blen f = FRAME ∧ bytes_ok f ∧ good_frame f.
(** The inspection of a list of frames. *)
Fixpoint replay (disk : option Header) (id : bytes) (fe fl : Z) (fs : list bytes) (l : Loop) : result error Loop :=
  match fs with
  | [] => Ok l
  | f :: fs => let* l := inspect_frame disk id fe fl f l in replay disk id fe fl fs l
  end.
Lemma replay_app disk id fe fl fs gs l :
  replay disk id fe fl (fs ++ gs) l = rbind (replay disk id fe fl fs l) (replay disk id fe fl gs).
Proof using. revert l. induction fs as [|f fs IH]; intros l; cbn; [done|]. destruct (inspect_frame _ _ _ _ _ _); [apply IH|done]. Qed.

Lemma inspect_frame_at disk id fe fl f l l' :
  inspect_frame disk id fe fl f l = Ok l' → l_at l' = l_at l + FRAME.
Proof using.
  unfold inspect_frame. destruct (negb _); [done|]. intros Hr.
  apply rbind_ok in Hr as (l0 & H0 & Hr). destruct (negb _); [done|].
  apply rbind_ok in Hr as (l1 & H1 & Hr). apply Ok_inj in Hr as <-. cbn. f_equal.
  transitivity (l_at l0).
  - destruct (_ =? 1); [|destruct (_ =? 2); [|done]].
    + unfold inspect_page in H1. destruct (_ =? 1); [done|].
      apply rbind_ok in H1 as (? & _ & H1). apply rbind_ok in H1 as (? & _ & H1). by apply Ok_inj in H1 as <-.
    + unfold inspect_commit in H1. destruct (negb _); [done|]. destruct (bool_decide _); [|done].
      destruct (l_pending_header l0); [|done].
      apply rbind_ok in H1 as (? & _ & H1). apply rbind_ok in H1 as (? & _ & H1).
      apply rbind_ok in H1 as (? & _ & H1). by apply Ok_inj in H1 as <-.
  - destruct (_ =? 0); [|by apply Ok_inj in H0 as ->]. apply rbind_ok in H0 as (? & _ & H0).
    destruct (_ || _); [done|]. by apply Ok_inj in H0 as <-.
Qed.

Lemma concat_frames_len fs : Forall frame_ok fs → blen (concat fs) = FRAME * Z.of_nat (length fs).
Proof using.
  induction 1 as [|f fs [Hf _] _ IH]; [done|]. cbn [concat length]. rewrite blen_app, Hf, IH.
  rewrite Nat2Z.inj_succ. lia.
Qed.
Lemma concat_frames_ok fs : Forall frame_ok fs → bytes_ok (concat fs).
Proof using. induction 1 as [|f fs (_ & Hf & _) _ IH]; [constructor|]. cbn. by apply bytes_ok_app. Qed.

(** The loop over a log is the inspection of its frames. *)
Lemma inspect_loop_frames disk id fe fl fs : ∀ n pre post len bounded l l',
  Forall frame_ok fs → bytes_ok pre → bytes_ok post → l_at l = blen pre →
  blen pre + blen (concat fs) ≤ len → replay disk id fe fl fs l = Ok l' → (length fs ≤ n)%nat →
  inspect_loop n disk id fe fl (healthy (pre ++ concat fs ++ post)) len bounded l
  = inspect_loop (n - length fs) disk id fe fl (healthy (pre ++ concat fs ++ post)) len bounded l'.
Proof using.
  induction fs as [|f fs IH]; intros n pre post len bounded l l' Hfs Hpre Hpost Hat Hlen Hr Hn.
  { cbn in Hr. apply Ok_inj in Hr as ->. by rewrite Nat.sub_0_r. }
  inversion Hfs as [|? ? [Hf [Hfb Hfg]] Hfs']; subst. cbn [concat] in *.
  destruct n as [|n]; [cbn in Hn; lia|]. cbn [inspect_loop length Nat.sub replay] in *. rewrite blen_app, Hf in Hlen.
  pose proof (blen_nonneg (concat fs)). pose proof (blen_nonneg pre). pose proof (blen_nonneg post).
  rewrite (proj2 (Z.leb_le _ _)) by lia.
  assert (read_frame (healthy (pre ++ (f ++ concat fs) ++ post)) (l_at l) = Ok f) as ->.
  { apply read_frame_iff; [|lia|].
    - apply bytes_ok_app. split; [done|]. apply bytes_ok_app. split; [|done]. apply bytes_ok_app. split; [done|].
      by apply concat_frames_ok.
    - rewrite !blen_app, Hf, Hat. assert (slice (pre ++ (f ++ concat fs) ++ post) (blen pre) FRAME = f) as Hs.
      { rewrite slice_app_r, Z.sub_diag by lia. rewrite <-app_assoc. by apply slice_app_exact. }
      rewrite Hs. split; [lia|]. by split. }
  destruct (inspect_frame disk id fe fl f l) as [l1|] eqn:E; [|done]. cbn [rbind] in *.
  pose proof (inspect_frame_at _ _ _ _ _ _ _ E) as Hat1.
  specialize (IH n (pre ++ f) post len bounded l1 l' Hfs').
  rewrite <-!app_assoc in *. apply IH; try done.
  - by apply bytes_ok_app.
  - rewrite blen_app. lia.
  - rewrite blen_app. lia.
  - lia.
Qed.
(** After its frames the loop stops at a short or torn tail. *)
Definition discardable (b : bytes) (at_ : Z) : Prop :=
  blen b - at_ < FRAME ∨ (is_ok (read_frame (healthy b) at_) = false ∧ torn_tail (healthy b) at_ (blen b) = true).
Lemma inspect_loop_stops n disk id fe fl b l :
  discardable b (l_at l) → inspect_loop n disk id fe fl (healthy b) (blen b) false l = Ok l.
Proof using.
  intros Hd. destruct n; cbn [inspect_loop]; [done|]. destruct (Z.leb_spec (l_at l + FRAME) (blen b)); [|done].
  destruct Hd as [|[Hr Ht]]; [lia|]. destruct (read_frame _ _); [done|]. by rewrite Ht.
Qed.

(** ** A transaction's frames *)
(** A page a transaction may log: what [page_write_at] checks, plus what the
    inspection asks of a header page. *)
Definition write_ok (id : bytes) (fe tx_ : Z) (w : Z * bytes) : Prop :=
  is_u32 (w.1) ∧ w.1 ≠ 1 ∧ blen (w.2) = PAGE ∧ bytes_ok (w.2) ∧ Page.page_open (w.2) (w.1) = Ok (w.2) ∧
  (w.1 = 0 → ∃ h, decode (w.2) 0 = Ok h ∧ identity h = id ∧ features h = fe ∧ tx h = tx_).
Definition wframe (id : bytes) (tx_ : Z) (w : Z * bytes) : bytes := frame 1 (w.1) tx_ 0 (w.2) id.
Fixpoint log_writes (id : bytes) (tx_ : Z) (ws : list (Z * bytes)) (at_ : Z) (m : Index) : Index :=
  match ws with
  | [] => m
  | w :: ws => log_writes id tx_ ws (at_ + FRAME) (<[w.1 := FrameRef_new at_ (wframe id tx_ w)]> m)
  end.
Definition header_of (w : Z * bytes) : option Header :=
  if w.1 =? 0 then match decode (w.2) 0 with Ok h => Some h | Err _ => None end else None.
Definition last_header (ws : list (Z * bytes)) (d : option Header) : option Header :=
  foldl (λ d w, match header_of w with Some h => Some h | None => d end) d ws.
Definition tx_fits (fl tx_ : Z) (l : Loop) : Prop :=
  if l_at l =? 0 then 0 < tx_ ≤ fl + 1 else l_tx l = tx_.
Definition ids_ok (id : bytes) (tx_ : Z) : Prop := blen id = 16 ∧ bytes_ok id ∧ is_u64 tx_.

Lemma blen_wframe id tx_ w : blen (wframe id tx_ w) = FRAME.
Proof using. unfold wframe. apply blen_frame. Qed.
Lemma wframe_ok id fe tx_ w : ids_ok id tx_ → write_ok id fe tx_ w → frame_ok (wframe id tx_ w).
Proof using HL.
  intros (?&?&?) (?&_&?&?&_). unfold wframe.
  assert (frame_args 1 (w.1) tx_ 0 (w.2) id) as Ha by (split; try done; try (split; done); width).
  destruct (frame_fields _ _ _ _ _ _ Ha) as (?&?&_&_&_&_&_&_&?). split; [apply blen_frame|]. split; [done|by split].
Qed.

Lemma inspect_write disk id fe fl tx_ w l :
  ids_ok id tx_ → fl + 1 ≤ u64_max → write_ok id fe tx_ w → tx_fits fl tx_ l → 0 ≤ l_at l →
  let f := wframe id tx_ w in
  inspect_frame disk id fe fl f l = Ok (mkLoop (l_committed l) (<[w.1 := FrameRef_new (l_at l) f]> (l_pending l))
    (l_pages l) (l_at l + FRAME) (l_last l) tx_ (crc32c_append (l_crc l) f)
    (if l_at l =? 0 then Some tx_ else l_first l) (l_header l)
    (match header_of w with Some h => Some h | None => l_pending_header l end) (l_proven l)).
Proof using HL.
  intros (Hi&Hib&Htx) Hfl (Hp&Hp1&Hb&Hbb&Hopen&Hhdr) Hfit Hat f. destruct w as [p b]; cbn [fst snd] in *.
  assert (frame_args 1 p tx_ 0 b id) as Ha by (split; try done; try (split; done); width).
  destruct (frame_fields _ _ _ _ _ _ Ha) as (_&_&Hk&Hno&Htxf&_&Hpay&Hid&_).
  subst f. unfold inspect_frame, wframe. cbn [fst snd]. set (f := frame 1 p tx_ 0 b id) in *.
  rewrite Hid, bool_decide_true by done. cbn [negb].
  assert (∀ l0, l_tx l0 = tx_ → (if negb (u64at f 16 =? l_tx l0) then bad "WAL transaction sequence" else
     let* l := (let kind := u32at f 8 in if kind =? 1 then inspect_page id fe f l0
       else if kind =? 2 then inspect_commit disk fl f l0 else bad "unknown WAL frame kind") in
     Ok (mkLoop (l_committed l) (l_pending l) (l_pages l) (l_at l + FRAME) (l_last l) (l_tx l) (l_crc l)
        (l_first l) (l_header l) (l_pending_header l) (l_proven l)))
    = Ok (mkLoop (l_committed l0) (<[p := FrameRef_new (l_at l0) f]> (l_pending l0)) (l_pages l0) (l_at l0 + FRAME)
        (l_last l0) tx_ (crc32c_append (l_crc l0) f) (l_first l0) (l_header l0)
        (match header_of (p, b) with Some h => Some h | None => l_pending_header l0 end) (l_proven l0))) as Hmain.
  { intros l0 Hl0. rewrite Htxf, Hl0, Z.eqb_refl, Hk. cbn [negb]. cbn [Z.eqb Pos.eqb].
    unfold inspect_page. rewrite Hno, Hpay, (proj2 (Z.eqb_neq _ _) Hp1), Hopen. cbn [rbind].
    unfold header_of. cbn [fst snd]. destruct (Z.eqb_spec p 0) as [->|]; cbn [rbind]; [|by rewrite Hl0].
    destruct (Hhdr eq_refl) as (h & Hd & Hih & Hfh & Hth). rewrite Hd. cbn [rbind].
    rewrite Hih, Hfh, bool_decide_true, Z.eqb_refl, Hth, Hl0, Z.eqb_refl by done. cbn [negb orb rbind].
    done. }
  unfold tx_fits in Hfit. destruct (l_at l =? 0).
  - rewrite checked_add_u64_ok by done. cbn [ok_or rbind]. rewrite Htxf.
    rewrite (proj2 (Z.eqb_neq _ _)), (proj2 (Z.ltb_ge _ _)) by lia. cbn [orb rbind].
    rewrite Htxf in Hmain. rewrite Hmain by done. done.
  - cbn [rbind]. rewrite Hmain by done. done.
Qed.
Lemma replay_writes disk id fe fl tx_ ws : ∀ l,
  ids_ok id tx_ → fl + 1 ≤ u64_max → Forall (write_ok id fe tx_) ws → tx_fits fl tx_ l → 0 ≤ l_at l → l_tx l = tx_ →
  replay disk id fe fl (map (wframe id tx_) ws) l = Ok (mkLoop (l_committed l)
    (log_writes id tx_ ws (l_at l) (l_pending l)) (l_pages l) (l_at l + FRAME * Z.of_nat (length ws)) (l_last l) tx_
    (foldl crc32c_append (l_crc l) (map (wframe id tx_) ws))
    (match ws with [] => l_first l | _ => if l_at l =? 0 then Some tx_ else l_first l end) (l_header l)
    (last_header ws (l_pending_header l)) (l_proven l)).
Proof using HL.
  intros l Hids Hfl Hws. revert l. induction Hws as [|w ws Hw Hws IH]; intros l Hfit Hat Htx.
  { cbn. rewrite Z.add_0_r, <-Htx. by destruct l. }
  cbn [map replay]. rewrite (inspect_write _ _ fe) by done. cbn [rbind]. assert (0 < FRAME) by done.
  rewrite IH; cbn [l_at l_tx l_committed l_pending l_pages l_last l_crc l_first l_header l_pending_header l_proven].
  - cbn [length log_writes foldl last_header]. rewrite Nat2Z.inj_succ. f_equal. f_equal; [lia|].
    destruct ws; [done|]. by rewrite (proj2 (Z.eqb_neq (l_at l + FRAME) 0)) by lia.
  - unfold tx_fits. cbn. by rewrite (proj2 (Z.eqb_neq (l_at l + FRAME) 0)) by lia.
  - lia.
  - done.
Qed.

Lemma inspect_commit_frame disk id fe fl tx_ pages_ h l :
  let f := frame 2 u32_max tx_ pages_ (splice (zeros PAGE) 0 (le_bytes 4 (l_crc l))) id in
  ids_ok id tx_ → l_tx l = tx_ → 0 < l_at l → tx_ ≠ fl → tx_ + 1 ≤ u64_max → is_u32 pages_ → is_u32 (l_crc l) →
  map_Forall (λ p _, p < pages_) (l_pending l) → l_pending_header l = Some h → validate_extent h pages_ = Ok tt →
  frame_ok f ∧
  inspect_frame disk id fe fl f l = Ok (mkLoop (l_pending l ∪ l_committed l) ∅ pages_ (l_at l + FRAME)
    (l_at l + FRAME) (tx_ + 1) 0 (l_first l) (Some h) None (l_proven l)).
Proof using HL.
  intros f (Hi&Hib&Htx) Hlt Hat Hfl Hov Hpg Hcrc Hpend Hph Hval.
  set (body := splice (zeros PAGE) 0 (le_bytes 4 (l_crc l))) in *.
  assert (blen (zeros PAGE) = PAGE) as Hz by done. assert (PAGE = 4096) as HP by done.
  assert (blen body = PAGE) as Hbl by (unfold body; by rewrite blen_splice).
  assert (frame_args 2 u32_max tx_ pages_ body id) as Ha.
  { split; try done; [split; [done|]|done..]. unfold body. auto with skj. }
  destruct (frame_fields _ _ _ _ _ _ Ha) as (Hfb&Hm&Hk&_&Htxf&Hpgf&Hpay&Hid&Hc).
  fold f in Hfb, Hm, Hk, Htxf, Hpgf, Hpay, Hid, Hc.
  split; [split; [apply blen_frame|]; split; [done|by split]|].
  assert (u32at f 32 = l_crc l) as Hcr.
  { assert (u32at f 32 = le_num (slice (slice f 32 PAGE) 0 4)) as -> by (unfold u32at; rewrite slice_slice by lia; done).
    rewrite Hpay. unfold body. pose proof (le_num_slice_splice (zeros PAGE) 0 4 (l_crc l)) as E.
    apply E; [lia|lia|width]. }
  unfold inspect_frame. rewrite Hid, bool_decide_true by done. cbn [negb].
  rewrite (proj2 (Z.eqb_neq (l_at l) 0)) by lia. cbn [rbind]. rewrite Htxf, Hlt, Z.eqb_refl, Hk. cbn [negb Z.eqb Pos.eqb].
  unfold inspect_commit. rewrite Hcr, Z.eqb_refl, Hpgf. cbn [negb]. rewrite bool_decide_true by done.
  rewrite Hph, Hval. cbn [rbind]. rewrite Hlt, (proj2 (Z.eqb_neq _ _) Hfl). cbn [rbind].
  rewrite checked_add_u64_ok by done. cbn [ok_or rbind]. done.
Qed.

(** An index entry names a frame of the log, of its page. *)
Definition entry_ok (fs : list bytes) (p : Z) (r : FrameRef) : Prop :=
  ∃ i f, fs !! i = Some f ∧ r = FrameRef_new (FRAME * Z.of_nat i) f ∧ u32at f 12 = p.
Lemma entry_ok_app fs gs p r : entry_ok fs p r → entry_ok (fs ++ gs) p r.
Proof using. intros (i & f & Hi & Hr). exists i, f. split; [by apply lookup_app_l_Some|done]. Qed.
Lemma frame_at fs i f post :
  Forall frame_ok fs → bytes_ok post → fs !! i = Some f →
  read_indexed_frame (healthy (concat fs ++ post)) (FrameRef_new (FRAME * Z.of_nat i) f) = Ok f.
Proof using.
  intros Hfs Hpost Hi. pose proof (concat_frames_ok _ Hfs) as Hcb.
  apply list_elem_of_split_length in Hi as (l1 & l2 & -> & ->).
  apply Forall_app in Hfs as [H1 H2]. inversion H2 as [|? ? (Hl & Hb & Hg) H2']; subst.
  pose proof (concat_frames_len _ H1) as Hc1. pose proof (concat_frames_len _ H2') as Hc2.
  unfold read_indexed_frame, FrameRef_new. cbn [offset f_checksum].
  assert (read_frame (healthy (concat (l1 ++ f :: l2) ++ post)) (FRAME * Z.of_nat (length l1)) = Ok f) as ->.
  { assert (0 < FRAME) by done. rewrite concat_app in *. cbn [concat] in *. pose proof (blen_nonneg post).
    apply read_frame_iff; [by apply bytes_ok_app|lia|]. rewrite <-Hc1, <-!app_assoc.
    assert (slice (concat l1 ++ f ++ concat l2 ++ post) (blen (concat l1)) FRAME = f) as Hs.
    { rewrite slice_app_r, Z.sub_diag by lia. by apply slice_app_exact. }
    rewrite Hs, !blen_app, Hl, Hc2. split_and!; [lia|done|done]. }
  cbn [rbind]. by rewrite Z.eqb_refl.
Qed.
(** What an index reads depends on the frames it names only. *)
Lemma read_page_entry data_ fs idx p r i f post :
  Forall frame_ok fs → bytes_ok post → fs !! i = Some f → u32at f 12 = p →
  idx !! p = Some (FrameRef_new (FRAME * Z.of_nat i) f) → r = Page.page_open (slice f 32 PAGE) p →
  read_page data_ (healthy (concat fs ++ post)) idx p = r.
Proof using.
  intros Hfs Hpost Hi Hp Hidx ->. unfold read_page. rewrite Hidx, frame_at by done. cbn [rbind].
  by rewrite Hp, Z.eqb_refl.
Qed.
Lemma read_page_prefix data_ fs idx p post1 post2 :
  Forall frame_ok fs → bytes_ok post1 → bytes_ok post2 → map_Forall (entry_ok fs) idx →
  read_page data_ (healthy (concat fs ++ post1)) idx p = read_page data_ (healthy (concat fs ++ post2)) idx p.
Proof using.
  intros Hfs H1 H2 Hidx. destruct (idx !! p) as [r|] eqn:E.
  - destruct (Hidx p r E) as (i & f & Hi & -> & Hp).
    rewrite (read_page_entry _ _ _ _ _ i f _ Hfs H1 Hi Hp E eq_refl).
    by rewrite (read_page_entry _ _ _ _ _ i f _ Hfs H2 Hi Hp E eq_refl).
  - unfold read_page. by rewrite E.
Qed.

(** A published prefix: the inspection of its frames, and the facts the
    recovered state is read from. *)
Record published (disk : Header) (data_pages : Z) (fc : list bytes) (lc : Loop) : Prop := {
  pub_ok : Forall frame_ok fc;
  pub_replay : replay (Some disk) (identity disk) (features disk) (tx disk) fc
                 (mkLoop ∅ ∅ data_pages 0 0 (tx disk + 1) 0 None None None false) = Ok lc;
  pub_pending : l_pending lc = ∅ ∧ l_pending_header lc = None ∧ l_crc lc = 0;
  pub_at : l_at lc = l_last lc ∧ l_last lc = FRAME * Z.of_nat (length fc);
  pub_first : ∀ n, l_first lc = Some n → n ≤ tx disk → l_proven lc = true;
  pub_tx : l_tx lc = tx (default disk (l_header lc)) + 1 ∧ tx disk < l_tx lc ≤ u64_max;
  pub_extent : ∀ p, data_pages ≤ p < l_pages lc → is_Some (l_committed lc !! p);
  pub_pages : is_u32 (l_pages lc);
  pub_cap : l_last lc + l_pages lc * PAGE ≤ cap (default disk (l_header lc));
  pub_size : l_last lc ≤ WAL_CAP;
  pub_hwf : hwf (default disk (l_header lc));
  pub_valid : validate_extent (default disk (l_header lc)) (l_pages lc) = Ok tt;
  pub_entries : map_Forall (entry_ok fc) (l_committed lc);
  pub_meta : match l_header lc with
    | None => l_committed lc = ∅
    | Some h => ∃ i f, fc !! i = Some f ∧ u32at f 12 = 0 ∧ decode (slice f 32 PAGE) 0 = Ok h ∧
                l_committed lc !! 0 = Some (FrameRef_new (FRAME * Z.of_nat i) f)
    end;
}.

Definition recovered (disk : Header) (lc : Loop) : State :=
  let h := default disk (l_header lc) in
  mkState (l_committed lc) (l_committed lc) (l_last lc) (l_last lc) (l_pages lc) (l_pages lc) (l_tx lc) 0
    (cap h) (free h) (identity disk) (features disk) (tx disk) false false u64_max u64_max usize_max.

Lemma recovered_state disk lc :
  l_tx lc = tx (default disk (l_header lc)) + 1 → l_tx lc ≤ u64_max →
  l_last lc + l_pages lc * PAGE ≤ cap (default disk (l_header lc)) →
  (let h := match l_header lc with Some h => Some h | None => Some disk end in
   let* next := ok_or (checked_add_u64 (opt_map_or h 0 tx) 1) TooLarge in
   let cap_ := opt_map_or h u64_max cap in
   if cap_ <? l_last lc + l_pages lc * PAGE then Err (ResourceLimit "persisted page-WAL cap exceeded") else
   Ok (mkState (l_committed lc) (l_committed lc) (l_last lc) (l_last lc) (l_pages lc) (l_pages lc) next 0 cap_
        (opt_map_or h 0 free) (identity disk) (features disk) (tx disk) false false u64_max u64_max usize_max))
  = Ok (recovered disk lc).
Proof using.
  intros Htx Hle Hcap. cbn zeta. unfold recovered.
  assert (match l_header lc with Some h => Some h | None => Some disk end = Some (default disk (l_header lc))) as ->
    by by destruct (l_header lc).
  cbn [opt_map_or]. rewrite checked_add_u64_ok by lia. cbn [ok_or rbind].
  rewrite (proj2 (Z.ltb_ge _ _)) by done. by rewrite <-Htx.
Qed.

(** The data file behind a log: checkpointed pages, whole, and readable metadata. *)
Record base (data_ : bytes) (disk : Header) : Prop := {
  base_ok : bytes_ok data_;
  base_disk : disk_header (healthy data_) = Ok (Some disk);
  base_hwf : hwf disk;
  base_len : blen data_ = blen data_ / PAGE * PAGE;
  base_pages : blen data_ / PAGE ≤ u32_max;
}.

(** From the end of the loop to the recovered state. *)
Lemma inspect_final cf data_ wal bound disk fc lc lk :
  let len := match bound with Some b => b | None => file_len wal end in
  base data_ disk → published disk (blen data_ / PAGE) fc lc → 0 ≤ len ≤ WAL_CAP →
  inspect_loop (Z.to_nat (len / FRAME)) (Some disk) (identity disk) (features disk) (tx disk) wal len
    (match bound with Some _ => true | None => false end)
    (mkLoop ∅ ∅ (blen data_ / PAGE) 0 0 (tx disk + 1) 0 None None None false) = Ok lk →
  l_committed lk = l_committed lc → l_pages lk = l_pages lc → l_last lk = l_last lc → l_header lk = l_header lc →
  l_proven lk = l_proven lc → (∀ n, l_first lk = Some n → n ≤ tx disk → l_proven lc = true) →
  inspect_bounded cf (healthy data_) wal bound = Ok (recovered disk lc).
Proof using HL.
  intros len [Hdb Hdisk Hhwf Hdl Hdp] [Hfc Hrep (Hp1&Hp2&Hp3) (Hat&Hlast) _ (Htx&Htxr) Hext Hpg Hcap Hsz _ _ _ _] Hlen Hloop Ec Ep El Eh Epr Hf.
  unfold inspect_bounded. rewrite Hdisk. cbn [rbind]. change (file_len (healthy data_)) with (blen data_).
  fold len. rewrite (proj2 (Z.ltb_ge _ _)) by lia. rewrite bool_decide_false by done. cbn [andb].
  rewrite (proj2 (Z.ltb_ge u32_max _)) by lia. cbn [opt_map_or].
  rewrite checked_add_u64_ok by lia. cbn [ok_or rbind]. rewrite Hloop. cbn [rbind].
  rewrite Ec, Ep, El, Eh, Epr.
  assert ((match l_first lk with Some first => first <=? tx disk | None => false end) && negb (l_proven lc) = false) as ->.
  { destruct (l_first lk) as [n|]; [|done]. destruct (Z.leb_spec n (tx disk)); [|done]. by rewrite (Hf n). }
  rewrite Hdl at 1. rewrite Z_mod_mult, Z.eqb_refl. cbn [negb orb].
  assert ((blen data_ / PAGE <? l_pages lc) &&
    ((l_last lc =? 0) || (l_pages lc <=? blen data_ / PAGE) ||
     (Z.of_nat (size (l_committed lc)) <? l_pages lc - blen data_ / PAGE) ||
      negb (forallb (λ p, bool_decide (is_Some (l_committed lc !! p))) (seqZ (blen data_ / PAGE) (l_pages lc - blen data_ / PAGE)))) = false) as ->;
    [|apply recovered_state; [done|lia|done]].
  destruct (Z.ltb_spec (blen data_ / PAGE) (l_pages lc)) as [Hlt|]; [|done]. cbn [andb].
  rewrite (proj2 (Z.leb_gt _ _)) by lia.
  assert (l_last lc ≠ 0) as Hl0.
  { intros E. destruct fc; [|cbn [length] in Hlast; assert (0 < FRAME) by done; lia].
    cbn in Hrep. apply Ok_inj in Hrep as <-. cbn in Hlt. lia. }
  rewrite (proj2 (Z.eqb_neq _ _)) by done. cbn [orb]. apply orb_false_iff. split.
  - apply Z.ltb_ge.
    assert (list_to_set (seqZ (blen data_ / PAGE) (l_pages lc - blen data_ / PAGE)) ⊆ dom (l_committed lc)) as Hsub.
    { intros p Hp%elem_of_list_to_set%elem_of_seqZ. apply elem_of_dom, Hext. lia. }
    apply subseteq_size in Hsub. rewrite size_list_to_set, length_seqZ, size_dom in Hsub by apply NoDup_seqZ. lia.
  - apply negb_false_iff, forallb_forall.
    intros p Hp%list_elem_of_In%elem_of_seqZ. apply bool_decide_eq_true. apply Hext. lia.
Qed.

(** Inspecting a published prefix followed by pages of an unfinished
    transaction and a tail that can be discarded. *)
Lemma inspect_recovers cf data_ disk fc lc ws tail :
  base data_ disk → published disk (blen data_ / PAGE) fc lc →
  Forall (write_ok (identity disk) (features disk) (l_tx lc)) ws → bytes_ok tail →
  discardable (concat (fc ++ map (wframe (identity disk) (l_tx lc)) ws) ++ tail)
              (blen (concat (fc ++ map (wframe (identity disk) (l_tx lc)) ws))) →
  blen (concat (fc ++ map (wframe (identity disk) (l_tx lc)) ws) ++ tail) ≤ WAL_CAP →
  inspect_bounded cf (healthy data_) (healthy (concat (fc ++ map (wframe (identity disk) (l_tx lc)) ws) ++ tail)) None
  = Ok (recovered disk lc).
Proof using HL.
  intros Hbase Hpub Hws Htl Hdis Hlen. pose proof Hbase as [Hdb Hdisk Hhwf Hdl Hdp].
  pose proof Hpub as [Hfc Hrep (Hp1&Hp2&Hp3) (Hat&Hlast) Hfirst (Htx&Htxr) _ _ _ _ _ _ _ _].
  set (id := identity disk) in *. set (fs := map (wframe id (l_tx lc)) ws) in *.
  set (b := concat (fc ++ fs) ++ tail) in *.
  assert (ids_ok id (l_tx lc)) as Hids.
  { pose proof (hwf_identity _ Hhwf) as (?&?&_). pose proof (hwf_tx _ Hhwf). split_and!; try done; lia. }
  assert (Forall frame_ok (fc ++ fs)) as Hall.
  { apply Forall_app. split; [done|]. apply Forall_map. eapply Forall_impl; [exact Hws|]. intros w Hw. by eapply wframe_ok. }
  pose proof (hwf_tx _ Hhwf) as Hdtx. assert (0 < FRAME) as HF0 by done.
  pose proof (concat_frames_len _ Hall) as Hcl. pose proof (blen_nonneg b). pose proof (blen_nonneg tail).
  assert (tx_fits (tx disk) (l_tx lc) lc) as Hfit.
  { unfold tx_fits. destruct (Z.eqb_spec (l_at lc) 0) as [E|]; [|done].
    destruct fc; [|cbn [length] in Hlast; lia]. cbn in Hrep. apply Ok_inj in Hrep as <-. cbn in *. lia. }
  pose proof (replay_writes (Some disk) id (features disk) (tx disk) (l_tx lc) ws lc Hids ltac:(lia) Hws Hfit ltac:(lia) eq_refl) as Hrw.
  fold fs in Hrw. set (lk := mkLoop _ _ _ _ _ _ _ _ _ _ _) in Hrw.
  assert (replay (Some disk) id (features disk) (tx disk) (fc ++ fs)
            (mkLoop ∅ ∅ (blen data_ / PAGE) 0 0 (tx disk + 1) 0 None None None false) = Ok lk) as Hfull.
  { rewrite replay_app, Hrep. exact Hrw. }
  eapply inspect_final with (lk := lk); try done.
  - change (file_len (healthy b)) with (blen b). fold id.
    pose proof (inspect_loop_frames (Some disk) id (features disk) (tx disk) (fc ++ fs) (Z.to_nat (blen b / FRAME))
                [] tail (blen b) false (mkLoop ∅ ∅ (blen data_ / PAGE) 0 0 (tx disk + 1) 0 None None None false)
                lk Hall ltac:(constructor) Htl) as Hloop.
    cbn [app] in Hloop. fold b in Hloop. rewrite Hloop; clear Hloop; try done.
    2:{ unfold b. rewrite blen_app, blen_nil. lia. }
    2:{ apply Nat2Z.inj_le. rewrite Z2Nat.id by (apply Z.div_pos; done).
        apply Z.div_le_lower_bound; [done|]. unfold b. rewrite blen_app, Hcl. lia. }
    apply inspect_loop_stops. cbn [lk l_at]. rewrite Hat, Hlast. rewrite Hcl, length_app in Hdis.
    assert (length fs = length ws) as Hlf by (unfold fs; by rewrite length_map). rewrite Hlf in Hdis.
    by replace (FRAME * Z.of_nat (length fc) + FRAME * Z.of_nat (length ws))
        with (FRAME * Z.of_nat (length fc + length ws)) by lia.
  - cbn [lk l_first l_proven]. intros n. destruct ws; [by apply Hfirst|].
    destruct (l_at lc =? 0); [|by apply Hfirst]. intros [= <-]. lia.
Qed.
(** A reader bounded to the published prefix sees the same, whatever lies
    behind it. *)
Lemma inspect_bounded_published cf data_ disk fc lc rest :
  base data_ disk → published disk (blen data_ / PAGE) fc lc → bytes_ok rest →
  inspect_bounded cf (healthy data_) (healthy (concat fc ++ rest)) (Some (l_last lc)) = Ok (recovered disk lc).
Proof using HL.
  intros Hbase Hpub Hrest. pose proof Hpub as [Hfc Hrep _ (Hat&Hlast) Hfirst _ _ _ _ Hsz _ _ _ _].
  assert (0 < FRAME) as HF0 by done. pose proof (concat_frames_len _ Hfc) as Hcl.
  eapply inspect_final with (lk := lc); try done; [lia|].
  assert (Z.to_nat (l_last lc / FRAME) = length fc) as Hn.
  { rewrite Hlast, Z.mul_comm, Z.div_mul by lia. lia. }
  rewrite Hn. pose proof (inspect_loop_frames (Some disk) (identity disk) (features disk) (tx disk) fc (length fc)
    [] rest (l_last lc) true (mkLoop ∅ ∅ (blen data_ / PAGE) 0 0 (tx disk + 1) 0 None None None false)
    lc Hfc ltac:(constructor) Hrest) as Hloop.
  cbn [app] in Hloop. rewrite Hloop; try done; [by rewrite Nat.sub_diag|].
  rewrite blen_nil. lia.
Qed.

Lemma log_writes_app id tx_ ws w : ∀ at_ m,
  log_writes id tx_ (ws ++ [w]) at_ m =
    <[w.1 := FrameRef_new (at_ + FRAME * Z.of_nat (length ws)) (wframe id tx_ w)]> (log_writes id tx_ ws at_ m).
Proof using.
  induction ws as [|w0 ws IH]; intros at_ m; cbn [app log_writes length]; [by rewrite Z.add_0_r|].
  rewrite IH, Nat2Z.inj_succ.
  by replace (at_ + FRAME + FRAME * Z.of_nat (length ws)) with (at_ + FRAME * Z.succ (Z.of_nat (length ws))) by lia.
Qed.
Lemma log_writes_dom id tx_ ws p : ∀ at_ m,
  is_Some (log_writes id tx_ ws at_ m !! p) ↔ p ∈ ws.*1 ∨ is_Some (m !! p).
Proof using.
  induction ws as [|w ws IH]; intros at_ m; cbn [log_writes fmap list_fmap].
  - rewrite elem_of_nil. tauto.
  - rewrite IH, elem_of_cons. destruct (decide (p = w.1)) as [->|].
    + rewrite lookup_insert_eq. split; [by auto|]. intros _. right. by eexists.
    + rewrite lookup_insert_ne by done. tauto.
Qed.
Lemma log_writes_lookup id tx_ ws at_ m p r :
  log_writes id tx_ ws at_ ∅ !! p = Some r → log_writes id tx_ ws at_ m !! p = Some r.
Proof using.
  induction ws as [|w ws IH] using rev_ind; [done|]. rewrite !log_writes_app.
  destruct (decide (p = w.1)) as [->|]; [by rewrite !lookup_insert_eq|].
  rewrite !lookup_insert_ne by done. apply IH.
Qed.
Lemma log_writes_miss id tx_ ws at_ m p :
  log_writes id tx_ ws at_ ∅ !! p = None → log_writes id tx_ ws at_ m !! p = m !! p.
Proof using.
  induction ws as [|w ws IH] using rev_ind; [done|]. rewrite !log_writes_app.
  destruct (decide (p = w.1)) as [->|]; [by rewrite lookup_insert_eq|].
  rewrite !lookup_insert_ne by done. apply IH.
Qed.
Lemma log_writes_union id tx_ ws at_ m :
  log_writes id tx_ ws at_ m = log_writes id tx_ ws at_ ∅ ∪ m.
Proof using.
  apply map_eq. intros p. destruct (log_writes id tx_ ws at_ ∅ !! p) as [r|] eqn:E.
  - rewrite (log_writes_lookup _ _ _ _ m _ _ E). symmetry. by apply lookup_union_Some_l.
  - rewrite (log_writes_miss _ _ _ _ m _ E). symmetry. by rewrite lookup_union_r.
Qed.

(** ** The writer's state and its files *)
Record rep (pg : Pager) (disk : Header) (fc : list bytes) (lc : Loop) (ws : list (Z * bytes)) : Prop := {
  rep_data : p_data pg = healthy (data (p_data pg)) ∧ base (data (p_data pg)) disk;
  rep_pub : published disk (blen (data (p_data pg)) / PAGE) fc lc;
  rep_wal : p_wal pg = healthy (concat (fc ++ map (wframe (identity disk) (l_tx lc)) ws));
  rep_ws : Forall (write_ok (identity disk) (features disk) (l_tx lc)) ws;
  rep_committed : committed (st pg) = l_committed lc ∧ last_commit (st pg) = l_last lc ∧
    committed_pages (st pg) = l_pages lc;
  rep_header : s_tx (st pg) = l_tx lc ∧ is_u64 (s_cap (st pg)) ∧
    s_identity (st pg) = identity disk ∧ s_features (st pg) = features disk ∧ floor (st pg) = tx disk;
  rep_work : latest (st pg) = log_writes (identity disk) (l_tx lc) ws (l_last lc) (l_committed lc) ∧
    end_ (st pg) = l_last lc + FRAME * Z.of_nat (length ws) ∧
    tx_crc (st pg) = foldl crc32c_append 0 (map (wframe (identity disk) (l_tx lc)) ws);
  rep_pages : l_pages lc ≤ pages (st pg) ≤ u32_max ∧ Forall (λ w, w.1 < pages (st pg)) ws;
  rep_free : free_head (st pg) = 0 ∨ 2 ≤ free_head (st pg) < pages (st pg);
  rep_end : end_ (st pg) ≤ WAL_CAP;
}.

Lemma append_cases pg b pg' r :
  append pg b = (pg', r) →
  (r = Ok tt ∧ pg' = mkPager (p_data pg) (write_at (p_wal pg) b (end_ (st pg))) (p_hint pg)
                      (set_end (st pg) (end_ (st pg) + blen b)) (readers pg) ∧
   end_ (st pg) + blen b ≤ WAL_CAP ∧ end_ (st pg) + blen b + pages (st pg) * PAGE ≤ s_cap (st pg)) ∨
  ((∃ e, r = Err e) ∧ pg' = pg).
Proof using.
  unfold append. destruct (checked_add_u64 _ _) as [e|] eqn:E; [|intros [= <- <-]; eauto].
  apply checked_add_u64_Some in E as [-> _].
  destruct (Z.ltb_spec WAL_CAP (end_ (st pg) + blen b)); [intros [= <- <-]; eauto|].
  destruct (Z.ltb_spec (s_cap (st pg)) (end_ (st pg) + blen b + pages (st pg) * PAGE)); [intros [= <- <-]; eauto|].
  cbn [orb]. destruct (_ <? _); intros [= <- <-]; eauto 10.
Qed.

Lemma rep_ids pg disk fc lc ws : rep pg disk fc lc ws → ids_ok (identity disk) (l_tx lc).
Proof using.
  intros Hr. pose proof (base_hwf _ _ (proj2 (rep_data _ _ _ _ _ Hr))) as Hh.
  pose proof (hwf_identity _ Hh) as (?&?&_). pose proof (hwf_tx _ Hh).
  pose proof (pub_tx _ _ _ _ (rep_pub _ _ _ _ _ Hr)) as [_ ?]. split_and!; try done; lia.
Qed.
Lemma rep_wal_len pg disk fc lc ws :
  rep pg disk fc lc ws → blen (concat (fc ++ map (wframe (identity disk) (l_tx lc)) ws)) = end_ (st pg) ∧
    Forall frame_ok (fc ++ map (wframe (identity disk) (l_tx lc)) ws).
Proof using HL.
  intros Hr. pose proof (rep_ids _ _ _ _ _ Hr) as Hids.
  assert (Forall frame_ok (fc ++ map (wframe (identity disk) (l_tx lc)) ws)) as Hall.
  { apply Forall_app. split; [apply Hr|]. apply Forall_map. eapply Forall_impl; [apply Hr|].
    intros w Hw. by eapply wframe_ok. }
  split; [|done]. rewrite concat_frames_len by done. rewrite length_app, length_map.
  pose proof (pub_at _ _ _ _ (rep_pub _ _ _ _ _ Hr)) as [_ ?].
  pose proof (rep_work _ _ _ _ _ Hr) as (_ & ? & _). lia.
Qed.

Lemma concat_snoc {A} (g : A → bytes) fc ws w :
  concat (fc ++ map g (ws ++ [w])) = concat (fc ++ map g ws) ++ g w.
Proof using. rewrite map_app, app_assoc, concat_app. cbn [map concat]. by rewrite app_nil_r. Qed.
Lemma log_page_rep pg disk fc lc ws p b pg' r :
  rep pg disk fc lc ws → write_ok (identity disk) (features disk) (l_tx lc) (p, b) → p < pages (st pg) →
  log_page pg p b = (pg', r) →
  (r = Ok tt ∧ rep pg' disk fc lc (ws ++ [(p, b)]) ∧ free_head (st pg') = free_head (st pg) ∧
   pages (st pg') = pages (st pg)) ∨
  ((∃ e, r = Err e) ∧ pg' = pg).
Proof using HL.
  intros Hr Hw Hp. unfold log_page.
  destruct (rep_header _ _ _ _ _ Hr) as (Htx & Hcap & Hid & Hfe & Hfl). rewrite Htx, Hid.
  change (frame 1 p (l_tx lc) 0 b (identity disk)) with (wframe (identity disk) (l_tx lc) (p, b)).
  set (f := wframe _ _ _). destruct (append pg f) as [pg1 r1] eqn:Ha.
  apply append_cases in Ha as [(-> & -> & Hcapw & Hcapp)|[[e ->] ->]]; [|intros [= <- <-]; eauto].
  intros [= <- <-]. left. split; [done|]. cbn [with_state st set_end note_page free_head pages].
  split; [|done]. destruct (rep_wal_len _ _ _ _ _ Hr) as [Hlen _].
  destruct Hr as [Hd Hpub Hwal Hws Hcom Hhdr (Hl & He & Hcrc) (Hpg & Hpgs) Hfree Hend].
  pose proof (blen_wframe (identity disk) (l_tx lc) (p, b)) as Hbf. fold f in Hbf.
  split; fields; [exact Hd|exact Hpub| | |exact Hcom|exact Hhdr| | |exact Hfree|].
  - rewrite Hwal. unfold write_at. cbn [data healthy faulty]. rewrite <-Hlen, overwrite_end.
    rewrite concat_snoc. reflexivity.
  - apply Forall_app. split; [exact Hws|]. constructor; [exact Hw|constructor].
  - rewrite log_writes_app, <-Hl, He, map_app, foldl_app, Hcrc, length_app. cbn [length map foldl].
    fold f. rewrite Hbf. split_and!; [reflexivity|lia|reflexivity].
  - split; [exact Hpg|]. apply Forall_app. split; [exact Hpgs|]. constructor; [exact Hp|constructor].
  - lia.
Qed.
End replaying.
End Pager.
