(* ===== verification/Recovery.v ===== *)
(** * Recovery, isolation and admission of the page-WAL store

    The session-level theorems about [Pager.v]: every call of a writer handle
    keeps the invariant [inv] (the files hold a published prefix, followed by
    the pages of the unfinished transaction), and from it: a crash loses
    nothing that was published and exposes nothing that was not; a snapshot's
    reads never change; a writer reads what it wrote; a reader admitted beside
    the writer sees exactly the last publication; a checkpoint interrupted at
    any stage recovers the same pages. *)
From S2P Require Import Prelude Crc Disk Page PwalFormat Pager.
Import Pwal Pager.
#[local] Opaque frame.

Module Recovery.

Section recovery.
Context `{HC : Crc32c} {HL : Crc32cLaws}.

(** ** The page writers *)
Lemma grow_rep pg disk fc lc ws p s :
  rep pg disk fc lc ws → 0 ≤ p → grow (st pg) p = Ok s →
  rep (with_state pg s) disk fc lc ws ∧ p < pages s ∧ pages (st pg) ≤ pages s ∧ free_head s = free_head (st pg).
Proof using.
  intros Hr Hp Hg. unfold grow in Hg. apply rbind_ok in Hg as (p1 & Hp1 & Hg).
  destruct (checked_add_u32 p 1) as [q|] eqn:E; [|done]. apply Ok_inj in Hp1 as <-.
  apply checked_add_u32_Some in E as [-> Hq]. destruct (_ <? _); [done|]. apply Ok_inj in Hg as <-.
  destruct Hr as [Hd Hpub Hwal Hws Hcom Hhdr Hwork [[Hpg Hu] Hpgs] Hfree Hend].
  split; [|fields; lia].
  split; fields; [exact Hd|exact Hpub|exact Hwal|exact Hws|exact Hcom|exact Hhdr|exact Hwork| |lia|exact Hend].
  split; [lia|]. eapply Forall_impl; [exact Hpgs|]. cbn. lia.
Qed.

(** What the errors of the page writers leave. *)
Definition refused {A} (pg pg' : Pager) (r : result error A) disk fc lc ws : Prop :=
  (∃ e, r = Err e) ∧ rep pg' disk fc lc ws.

Lemma page_write_at_rep pg disk fc lc ws p b pg' r :
  rep pg disk fc lc ws → 0 ≤ p → p ≠ 1 → bytes_ok b →
  (p = 0 → ∃ h, decode b 0 = Ok h ∧ identity h = identity disk ∧ features h = features disk ∧ tx h = l_tx lc) →
  page_write_at pg b (p * PAGE) = (pg', r) →
  (r = Ok tt ∧ rep pg' disk fc lc (ws ++ [(p, b)]) ∧ free_head (st pg') = free_head (st pg) ∧
   pages (st pg) ≤ pages (st pg') ∧ Page.page_open b p = Ok b ∧ (p < pages (st pg) → pages (st pg') = pages (st pg))) ∨
  refused pg pg' r disk fc lc ws.
Proof using HL.
  intros Hr Hp H1 Hb Hh. unfold page_write_at. rewrite Z_mod_mult, Z.eqb_refl. cbn [negb orb].
  destruct (Z.eqb_spec (blen b) PAGE) as [Hl|]; [|intros [= <- <-]; right; split; eauto; done].
  cbn [negb]. rewrite Z.div_mul by done.
  destruct (Z.ltb_spec u32_max p); [intros [= <- <-]; right; split; eauto|].
  destruct (Page.page_open b p) as [b'|] eqn:Ho; cbn [rbind]; [|intros [= <- <-]; right; split; eauto].
  pose proof (Page.page_open_id _ _ _ Ho) as ->.
  destruct (track (st pg) p); cbn [rbind]; [|intros [= <- <-]; right; split; eauto].
  destruct (grow (st pg) p) as [s|] eqn:Hg; [|intros [= <- <-]; right; split; eauto].
  assert (p < pages (st pg) → pages s = pages (st pg)) as Hsame.
  { intros Hlt. unfold grow in Hg. apply rbind_ok in Hg as (q & Hq & Hg).
    destruct (checked_add_u32 p 1) as [q'|] eqn:E; [|done]. apply Ok_inj in Hq as <-.
    apply checked_add_u32_Some in E as [-> _]. destruct (_ <? _); [done|]. apply Ok_inj in Hg as <-. fields. lia. }
  destruct (grow_rep _ _ _ _ _ _ _ Hr Hp Hg) as (Hrep & Hps & Hge & Hf).
  intros Hlog. assert (write_ok (identity disk) (features disk) (l_tx lc) (p, b)) as Hw.
  { split_and!; cbn [fst snd]; try done; lia. }
  destruct (log_page_rep _ _ _ _ _ _ _ _ _ Hrep Hw Hps Hlog) as [(-> & Hrep' & Hf' & Hp')|[He ->]].
  - left. cbn [with_state st] in Hf', Hp'. split_and!; try done; lia.
  - right. by split.
Qed.

Lemma free_page_image_ok p cell :
  is_u32 p → bytes_ok cell → blen cell ≤ 256 →
  ∃ b, free_page_image p cell = Ok b ∧ bytes_ok b ∧ blen b = PAGE ∧ Page.page_open b p = Ok b.
Proof using HL.
  intros Hp Hb Hl. destruct (one_cell_image Page.Free p cell Hp Hb Hl) as (b1 & Hi & ? & ? & _ & _ & _ & _ & _ & _ & ?).
  unfold free_page_image. rewrite Hi. eexists. split; [reflexivity|]. eauto.
Qed.
Lemma set_free_rep pg disk fc lc ws p :
  rep pg disk fc lc ws → p = 0 ∨ 2 ≤ p < pages (st pg) → rep (with_state pg (set_free (st pg) p)) disk fc lc ws.
Proof using. intros [] Hp. split; fields; done. Qed.

(** A taken or freed page is one more page frame of the transaction. *)
Lemma log_free_rep pg disk fc lc ws p cell b pg' r :
  rep pg disk fc lc ws → 2 ≤ p < pages (st pg) → bytes_ok cell → blen cell ≤ 256 →
  free_page_image p cell = Ok b → log_page pg p b = (pg', r) →
  (r = Ok tt ∧ rep pg' disk fc lc (ws ++ [(p, b)]) ∧ pages (st pg') = pages (st pg)) ∨ refused pg pg' r disk fc lc ws.
Proof using HL.
  intros Hr Hp Hc Hl Hi Hlog. pose proof (rep_pages _ _ _ _ _ Hr) as [[_ Hu] _].
  assert (is_u32 p) as Hpu by (split; lia).
  destruct (free_page_image_ok p cell Hpu Hc Hl) as (b0 & Hi0 & Hb & Hlb & Ho).
  rewrite Hi in Hi0. apply Ok_inj in Hi0 as <-.
  assert (write_ok (identity disk) (features disk) (l_tx lc) (p, b)) as Hw.
  { split; [exact Hpu|]. split; [cbn; lia|]. split; [exact Hlb|]. split; [exact Hb|]. split; [exact Ho|]. cbn. lia. }
  destruct (log_page_rep _ _ _ _ _ _ _ _ _ Hr Hw ltac:(lia) Hlog) as [(-> & Hrep & _ & Hpp)|[He ->]].
  - left. auto.
  - right. split; assumption.
Qed.

Lemma pop_rep pg disk fc lc ws pg' r :
  rep pg disk fc lc ws → pop_free_page pg = (pg', r) → ∃ ws', rep pg' disk fc lc ws' ∧ prefix ws ws'.
Proof using HL.
  intros Hr. unfold pop_free_page.
  destruct (Z.eqb_spec (free_head (st pg)) 0); [intros [= <- <-]; eauto|]. set (p := free_head (st pg)) in *.
  destruct (Z.ltb_spec p 2); cbn [orb]; [intros [= <- <-]; eauto|].
  destruct (Z.leb_spec (pages (st pg)) p); [intros [= <- <-]; eauto|].
  destruct (let* _ := track (st pg) p in _) as [[next b]|] eqn:E; [|intros [= <- <-]; eauto].
  apply rbind_ok in E as (_ & _ & E). apply rbind_ok in E as (page & _ & E).
  destruct (negb _ || _ || _); [done|]. cbn zeta in E. set (nx := u32at _ 0) in E.
  destruct ((nx =? p) || _) eqn:Hn; [done|]. apply rbind_ok in E as (b' & Hi & [= <- <-]%Ok_inj).
  apply orb_false_iff in Hn as [_ Hn].
  assert (nx = 0 ∨ 2 ≤ nx < pages (st pg)) as Hnx.
  { destruct (Z.eqb_spec nx 0); [by left|]. cbn [negb andb] in Hn. apply orb_false_iff in Hn as [?%Z.ltb_ge ?%Z.leb_gt]. lia. }
  destruct (log_page pg p b') as [pg1 r1] eqn:Hlog. assert (bytes_ok (ascii_bytes "taken")) as Hct by (repeat constructor; done).
  destruct (log_free_rep _ _ _ _ _ p _ _ _ _ Hr ltac:(lia) Hct ltac:(done) Hi Hlog) as [(-> & Hrep & Hpp)|[[e ->] Hrep]].
  - intros [= <- <-]. exists (ws ++ [(p, b')]). split; [|by apply prefix_app_r].
    apply set_free_rep; [done|]. by rewrite Hpp.
  - intros [= <- <-]. eauto.
Qed.
Lemma push_rep pg disk fc lc ws p pg' r :
  rep pg disk fc lc ws → push_free_page pg p = (pg', r) → ∃ ws', rep pg' disk fc lc ws' ∧ prefix ws ws'.
Proof using HL.
  intros Hr. unfold push_free_page. destruct (Z.ltb_spec p 2) as [|Hp2]; [intros [= <- <-]; eauto|].
  destruct (track (st pg) p); cbn [rbind]; [|intros [= <- <-]; eauto].
  destruct (grow (st pg) p) as [s|] eqn:Hg; [|intros [= <- <-]; eauto].
  assert (0 ≤ p) as Hp0 by lia.
  destruct (grow_rep _ _ _ _ _ _ _ Hr Hp0 Hg) as (Hrep & Hps & Hge & Hf).
  destruct (free_page_image _ _) as [b|] eqn:Hi; [|intros [= <- <-]; eauto].
  destruct (log_page _ p b) as [pg1 r1] eqn:Hlog.
  assert (blen (le_bytes 4 (free_head s)) ≤ 256) as Hl4 by (by rewrite blen_le_bytes).
  destruct (log_free_rep _ _ _ _ _ p _ _ _ _ Hrep ltac:(fields; lia) (le_bytes_ok _ _) Hl4 Hi Hlog) as [(-> & Hrep' & Hpp)|[[e ->] Hrep']].
  - intros [= <- <-]. exists (ws ++ [(p, b)]). split; [|by apply prefix_app_r].
    apply set_free_rep; [done|]. rewrite Hpp. fields. lia.
  - intros [= <- <-]. eauto.
Qed.

(** ** Publication *)
(** After a failed hint write the log may already hold the commit frame that
    the handle does not consider published. *)
Record doubt (pg : Pager) (disk : Header) (fc : list bytes) (lc : Loop) : Prop := {
  doubt_data : p_data pg = healthy (data (p_data pg)) ∧ base (data (p_data pg)) disk;
  doubt_pub : published disk (blen (data (p_data pg)) / PAGE) fc lc;
  doubt_wal : p_wal pg = healthy (concat fc);
  doubt_ids : s_identity (st pg) = identity disk ∧ s_features (st pg) = features disk }.

Lemma wframe_no id fe tx_ w : ids_ok id tx_ → write_ok id fe tx_ w →
  u32at (wframe id tx_ w) 12 = w.1 ∧ slice (wframe id tx_ w) 32 PAGE = w.2.
Proof using HL.
  intros (Hi&Hb&Ht) (Hp&_&Hl&Hwb&_).
  assert (frame_args 1 (w.1) tx_ 0 (w.2) id) as Ha.
  { split; [width|exact Hp|exact Ht|width|split; assumption|split; assumption]. }
  destruct (frame_fields _ _ _ _ _ _ Ha) as (_&_&_&Hn&_&_&Hs&_). split; [exact Hn|exact Hs].
Qed.
Lemma log_entries id fe tx_ fc ws m :
  ids_ok id tx_ → Forall (write_ok id fe tx_) ws → map_Forall (entry_ok fc) m →
  map_Forall (entry_ok (fc ++ map (wframe id tx_) ws)) (log_writes id tx_ ws (FRAME * Z.of_nat (length fc)) m).
Proof using HL.
  intros Hids Hws Hm. induction ws as [|w ws IH] using rev_ind; [by rewrite app_nil_r|].
  apply Forall_app in Hws as [Hws Hw]. rewrite Forall_singleton in Hw. rewrite log_writes_app, map_app, app_assoc.
  apply map_Forall_insert_2.
  - exists (length (fc ++ map (wframe id tx_) ws)), (wframe id tx_ w). cbn [map].
    split; [by apply list_lookup_middle|]. split; [|apply (wframe_no id fe); assumption].
    rewrite length_app, length_map. f_equal. lia.
  - eapply map_Forall_impl; [exact (IH Hws)|]. intros p r. apply entry_ok_app.
Qed.

(** The published prefix after a commit of the transaction [ws], whose last
    page is the header [h], with page extent [n]. *)
Definition commit_frame (disk : Header) (lc : Loop) ws n : bytes :=
  frame 2 u32_max (l_tx lc) n
    (splice (zeros PAGE) 0 (le_bytes 4 (foldl crc32c_append 0 (map (wframe (identity disk) (l_tx lc)) ws)))) (identity disk).
Definition commit_frames (disk : Header) fc (lc : Loop) ws n : list bytes :=
  fc ++ map (wframe (identity disk) (l_tx lc)) ws ++ [commit_frame disk lc ws n].
Definition commit_loop (disk : Header) (lc : Loop) ws n (h : Header) : Loop :=
  let e := l_last lc + FRAME * Z.of_nat (length ws) + FRAME in
  mkLoop (log_writes (identity disk) (l_tx lc) ws (l_last lc) (l_committed lc)) ∅ n e e (l_tx lc + 1) 0
    (match ws with [] => l_first lc | _ => if l_at lc =? 0 then Some (l_tx lc) else l_first lc end)
    (Some h) None (l_proven lc).

Lemma blen_commit_frame disk lc ws n : blen (commit_frame disk lc ws n) = FRAME.
Proof using. unfold commit_frame. apply blen_frame. Qed.
Lemma foldl_crc_range fs c : is_u32 c → is_u32 (foldl crc32c_append c fs).
Proof using HL. revert c. induction fs as [|f fs IH]; intros c Hc; [done|]. cbn [foldl]. apply IH. by apply crc_range. Qed.

Lemma published_commit disk dp fc lc ws b h n :
  published disk dp fc lc → hwf disk → 0 ≤ dp →
  Forall (write_ok (identity disk) (features disk) (l_tx lc)) (ws ++ [(0, b)]) →
  decode b 0 = Ok h → tx h = l_tx lc → hwf h → l_tx lc + 1 ≤ u64_max →
  l_pages lc ≤ n ≤ u32_max → Forall (λ w, w.1 < n) (ws ++ [(0, b)]) → validate_extent h n = Ok tt →
  (∀ p, dp ≤ p < n → is_Some (l_committed (commit_loop disk lc (ws ++ [(0, b)]) n h) !! p)) →
  l_last lc + FRAME * Z.of_nat (length (ws ++ [(0, b)])) + FRAME ≤ WAL_CAP →
  l_last lc + FRAME * Z.of_nat (length (ws ++ [(0, b)])) + FRAME + n * PAGE ≤ cap h →
  published disk dp (commit_frames disk fc lc (ws ++ [(0, b)]) n) (commit_loop disk lc (ws ++ [(0, b)]) n h).
Proof using HL.
  intros Hpub Hdw Hdp Hws Hdec Htx Hh Hov Hn Hlt Hval Hext Hcapw Hcap.
  pose proof Hpub as [Hfc Hrep (Hp1&Hp2&Hp3) (Hat&Hlast) Hfirst (Htx1&Htxr) _ Hpg _ _ _ _ Hent Hmeta].
  set (ws' := ws ++ [(0, b)]) in *. assert (0 < FRAME) as HF0 by done.
  assert (ids_ok (identity disk) (l_tx lc)) as Hids.
  { pose proof (hwf_identity _ Hdw) as (?&?&_). pose proof (hwf_tx _ Hdw). split_and!; try assumption; lia. }
  assert (Forall frame_ok (map (wframe (identity disk) (l_tx lc)) ws')) as Hwf.
  { apply Forall_map. eapply Forall_impl; [exact Hws|]. intros w Hw. cbn. by eapply wframe_ok. }
  pose proof (hwf_tx _ Hdw) as Hdtx.
  assert (tx_fits (tx disk) (l_tx lc) lc) as Hfit.
  { unfold tx_fits. destruct (Z.eqb_spec (l_at lc) 0) as [E|]; [|reflexivity].
    destruct fc; [|cbn [length] in Hlast; lia]. cbn in Hrep. apply Ok_inj in Hrep as <-. cbn in *. lia. }
  assert (length ws' ≠ 0%nat) as Hne by (unfold ws'; rewrite length_app; cbn; lia).
  pose proof (replay_writes (Some disk) (identity disk) (features disk) (tx disk) (l_tx lc) ws' lc Hids ltac:(lia) Hws
                Hfit ltac:(lia) eq_refl) as Hrw.
  assert (last_header ws' (l_pending_header lc) = Some h) as Hlh.
  { unfold last_header, ws'. rewrite foldl_app. cbn [foldl]. unfold header_of. cbn [fst snd]. by rewrite Z.eqb_refl, Hdec. }
  rewrite Hlh, Hp1, Hp3, Hat in Hrw. set (lm := mkLoop _ _ _ _ _ _ _ _ _ _ _) in Hrw.
  assert (map_Forall (λ p _, p < n) (l_pending lm)) as Hpend.
  { intros p r Hp. cbn [lm l_pending] in Hp. assert (is_Some (log_writes (identity disk) (l_tx lc) ws' (l_last lc) ∅ !! p)) as Hs by eauto.
    apply log_writes_dom in Hs as [Hs|[? Hs]]; [|by rewrite lookup_empty in Hs].
    apply list_elem_of_fmap in Hs as (w & -> & Hw). rewrite Forall_forall in Hlt. by apply Hlt. }
  destruct (inspect_commit_frame (Some disk) (identity disk) (features disk) (tx disk) (l_tx lc) n h lm Hids eq_refl)
    as [Hcf Hci]; try assumption; [cbn [lm l_at]; lia|lia|split; lia|cbn [lm l_crc]; apply foldl_crc_range; width|reflexivity|].
  set (cf := frame _ _ _ _ _ _) in Hcf, Hci. change cf with (commit_frame disk lc ws' n) in Hcf, Hci. clear cf.
  assert (l_pending lm ∪ l_committed lm = l_committed (commit_loop disk lc ws' n h)) as Hun.
  { cbn [lm l_pending l_committed commit_loop]. symmetry. apply log_writes_union. }
  assert (Forall frame_ok (commit_frames disk fc lc ws' n)) as Hall.
  { unfold commit_frames. apply Forall_app. split; [exact Hfc|]. apply Forall_app. split; [exact Hwf|].
    constructor; [exact Hcf|constructor]. }
  assert (l_first lm = Some (l_tx lc) ∨ l_first lm = l_first lc) as Hfl.
  { cbn [lm l_first]. destruct ws'; [by right|]. destruct (_ =? 0); auto. }
  split; cbn [commit_loop l_pending l_pending_header l_crc l_at l_last l_header l_pages l_tx default l_committed].
  - exact Hall.
  - unfold commit_frames. rewrite replay_app, Hrep. cbn [rbind]. rewrite replay_app, Hrw. cbn [rbind replay]. rewrite Hci.
    cbn [rbind]. rewrite Hun. unfold commit_loop. by rewrite Hat.
  - auto.
  - split; [done|]. unfold commit_frames. rewrite !length_app, length_map. cbn [length]. lia.
  - intros n0 Hf0 Hle. change (l_proven (commit_loop disk lc ws' n h)) with (l_proven lc).
    cbn [commit_loop l_first] in Hf0. destruct ws' as [|w0 ws0]; [discriminate Hf0 || (cbn [length] in Hne; congruence)|]. rewrite Hat in *.
    destruct (l_last lc =? 0); [|by eapply Hfirst]. injection Hf0 as <-. lia.
  - change (l_tx lc + 1 = tx h + 1 ∧ tx disk < l_tx lc + 1 ≤ u64_max). lia.
  - exact Hext.
  - split; [|lia]. destruct Hpg. lia.
  - exact Hcap.
  - exact Hcapw.
  - exact Hh.
  - exact Hval.
  - pose proof (log_entries (identity disk) (features disk) (l_tx lc) fc ws' (l_committed lc) Hids Hws Hent) as He.
    rewrite <-Hlast in He. eapply map_Forall_impl; [exact He|]. intros p r Hr. unfold commit_frames.
    rewrite app_assoc. by apply entry_ok_app.
  - exists (length (fc ++ map (wframe (identity disk) (l_tx lc)) ws)), (wframe (identity disk) (l_tx lc) (0, b)).
    assert (write_ok (identity disk) (features disk) (l_tx lc) (0, b)) as Hw0.
    { apply Forall_app in Hws as [_ Hw]. by rewrite Forall_singleton in Hw. }
    destruct (wframe_no _ _ _ _ Hids Hw0) as [Hno Hpl]. rewrite Hno, Hpl. cbn [fst snd].
    split; [|split; [reflexivity|split; [exact Hdec|]]].
    + unfold commit_frames, ws'. rewrite map_app, <-app_assoc, app_assoc. cbn [map app]. by apply list_lookup_middle.
    + unfold ws'. rewrite log_writes_app. cbn [fst]. rewrite lookup_insert_eq. f_equal. f_equal.
      rewrite length_app, length_map, Hlast. lia.
Qed.

(** What [write_hint] does to a handle that has its hint file. *)
Lemma write_hint_cases pg fault t e pg' r :
  is_Some (p_hint pg) → write_hint pg fault t e = (pg', r) →
  p_data pg' = p_data pg ∧ p_wal pg' = p_wal pg ∧ is_Some (p_hint pg') ∧ readers pg' = readers pg ∧
  (∃ c, st pg' = set_hint (st pg) c (match fault with FailCopy0 => false | _ => true end)) ∧
  (fault = NoFault ↔ r = Ok tt).
Proof using.
  intros [io Hio]. unfold write_hint. rewrite Hio. destruct fault; intros [= <- <-]; fields; split_and!; eauto; by split.
Qed.
Lemma set_hint_rep pg disk fc lc ws c p d w i hr rd rd2 :
  rep (mkPager d w i (st pg) rd) disk fc lc ws → rep (mkPager d w hr (set_hint (st pg) c p) rd2) disk fc lc ws.
Proof using. intros []. split; fields; assumption. Qed.

Definition after_publish (fault : hint_fault) pg disk fc lc : Prop :=
  match fault with FailCopy0 => doubt pg disk fc lc | _ => rep pg disk fc lc [] end.
Lemma publish_rep pg disk fc lc ws b h fault pg' r :
  rep pg disk fc lc (ws ++ [(0, b)]) → is_Some (p_hint pg) →
  decode b 0 = Ok h → tx h = l_tx lc → hwf h → cap h = s_cap (st pg) → validate_extent h (pages (st pg)) = Ok tt →
  (∀ p, blen (data (p_data pg)) / PAGE ≤ p < pages (st pg) → is_Some (latest (st pg) !! p)) →
  publish pg fault = (pg', r) → is_Some (p_hint pg') ∧ p_data pg' = p_data pg ∧
  ((after_publish fault pg' disk (commit_frames disk fc lc (ws ++ [(0, b)]) (pages (st pg)))
                                 (commit_loop disk lc (ws ++ [(0, b)]) (pages (st pg)) h) ∧
    (fault = NoFault ↔ r = Ok tt)) ∨
   refused pg pg' r disk fc lc (ws ++ [(0, b)])).
Proof using HL.
  intros Hr Hio Hdec Htx Hh Hcap Hval Hcov. set (ws' := ws ++ [(0, b)]) in *. unfold publish.
  destruct (checked_add_u64 _ 1) as [next|] eqn:Hnx; [|intros [= <- <-]; split; [done|]; split; [done|]; right; split; eauto].
  apply checked_add_u64_Some in Hnx as [-> Hov].
  destruct (rep_header _ _ _ _ _ Hr) as (Hs & Hcapu & Hid & Hfe & Hfl).
  destruct (rep_work _ _ _ _ _ Hr) as (Hl & He & Hcrc). rewrite Hs, Hid, Hcrc. rewrite Hs in Hov.
  fold (commit_frame disk lc ws' (pages (st pg))). set (cf := commit_frame disk lc ws' (pages (st pg))).
  assert (blen cf = FRAME) as Hbf by apply blen_commit_frame.
  destruct (append pg cf) as [pg1 r1] eqn:Ha.
  apply append_cases in Ha as [(-> & -> & Hcapw & Hcapp)|[[e ->] ->]].
  2:{ intros [= <- <-]. split; [done|]. split; [done|]. right. split; eauto. }
  set (pg1 := mkPager _ _ _ _ _). destruct (write_hint pg1 fault _ _) as [pg2 r2] eqn:Hw.
  destruct (write_hint_cases _ _ _ _ _ _ (Hio : is_Some (p_hint pg1)) Hw) as (Hd2 & Hw2 & Hh2 & Hr2 & [c Hst2] & Hok2).
  destruct (rep_wal_len _ _ _ _ _ Hr) as [Hlen _]. rewrite Hbf in Hcapw, Hcapp.
  destruct Hr as [[Hd Hbase] Hpub Hwal Hws Hcom Hhdr Hwork [Hpg Hpgs] Hfree Hend].
  assert (published disk (blen (data (p_data pg)) / PAGE) (commit_frames disk fc lc ws' (pages (st pg)))
            (commit_loop disk lc ws' (pages (st pg)) h)) as Hpub'.
  { pose proof (base_hwf _ _ Hbase) as Hdw. assert (0 ≤ blen (data (p_data pg)) / PAGE) as Hdp.
    { apply Z.div_pos; [apply blen_nonneg|done]. }
    apply published_commit; try assumption; try lia; change (ws ++ [(0, b)]) with ws'; try lia.
    intros p Hp. change (is_Some (log_writes (identity disk) (l_tx lc) ws' (l_last lc) (l_committed lc) !! p)).
    rewrite <-Hl. by apply Hcov. }
  assert (p_wal pg1 = healthy (concat (commit_frames disk fc lc ws' (pages (st pg))))) as Hwal1.
  { unfold pg1. fields. rewrite Hwal, <-Hlen. unfold write_at. cbn [data healthy faulty]. rewrite overwrite_end.
    unfold commit_frames. fold cf. rewrite app_assoc, (concat_app _ [cf]). cbn [concat]. by rewrite app_nil_r. }
  assert (end_ (st pg) + FRAME = l_last (commit_loop disk lc ws' (pages (st pg)) h)) as He' by (cbn [commit_loop l_last]; lia).
  set (lc' := commit_loop disk lc ws' (pages (st pg)) h) in *. set (fc' := commit_frames _ _ _ _ _) in *.
  cbn beta iota. intros Hfin.
  assert (pg' = (if hint_published (st pg2) then with_state pg2 (swap (st pg2) (l_tx lc + 1)) else pg2) ∧ r = r2)
    as [-> ->] by (injection Hfin; intros; split; congruence). clear Hfin.
  assert (is_Some (p_hint (if hint_published (st pg2) then with_state pg2 (swap (st pg2) (l_tx lc + 1)) else pg2)))
    as Hio' by (destruct (hint_published _); exact Hh2).
  split; [exact Hio'|]. split; [destruct (hint_published _); exact Hd2|]. left. split; [|exact Hok2].
  assert (latest (st pg) = l_committed lc') as Hlat by exact Hl.
  assert (∀ c i rd, rep (mkPager (p_data pg) (p_wal pg1) i (swap (set_hint (st pg1) c true) (l_tx lc + 1)) rd) disk fc' lc' [])
    as Hrep'.
  { intros c' i rd. unfold pg1. split; fields; rewrite ?Hbf.
    - by split.
    - exact Hpub'.
    - cbn [map]. rewrite app_nil_r. exact Hwal1.
    - constructor.
    - split_and!; [exact Hlat|exact He'|reflexivity].
    - split; [cbn [lc' commit_loop l_tx]; lia|]. exact (proj2 Hhdr).
    - split_and!; [exact Hlat|cbn [length]; lia|reflexivity].
    - split; [cbn [lc' commit_loop l_pages]; lia|constructor].
    - exact Hfree.
    - lia. }
  destruct pg2 as [d2 w2 i2 s2 rd2]. fields. cbn [p_data p_wal p_hint st readers] in *. subst d2 w2 s2 rd2.
  unfold after_publish. destruct fault; cbn [hint_published set_hint].
  1, 3: apply Hrep'.
  split; fields; [by split|exact Hpub'|exact Hwal1|by split].
Qed.

Lemma latest_cover pg disk fc lc ws p :
  rep pg disk fc lc ws → is_Some (l_committed lc !! p) → is_Some (latest (st pg) !! p).
Proof using. intros Hr Hp. destruct (rep_work _ _ _ _ _ Hr) as (-> & _). apply log_writes_dom. by right. Qed.

(** What writing a page leaves alone. *)
Lemma log_page_frame pg p b pg' r :
  log_page pg p b = (pg', r) → p_hint pg' = p_hint pg ∧ p_data pg' = p_data pg ∧ s_cap (st pg') = s_cap (st pg).
Proof using.
  unfold log_page. destruct (append _ _) as [pg2 r2] eqn:Ha.
  apply append_cases in Ha as [(->&->&_)|[[e ->] ->]]; by intros [= <- <-].
Qed.
Lemma page_write_at_frame pg b off pg' r :
  page_write_at pg b off = (pg', r) → p_hint pg' = p_hint pg ∧ p_data pg' = p_data pg ∧ s_cap (st pg') = s_cap (st pg).
Proof using.
  unfold page_write_at. destruct (negb _ || negb _); [by intros [= <- <-]|]. destruct (_ <? _); [by intros [= <- <-]|].
  destruct (let* _ := Page.page_open b _ in _) as [s|] eqn:E; [|by intros [= <- <-]].
  intros Hl. apply log_page_frame in Hl as (-> & -> & ->). cbn [with_state p_hint p_data st]. split_and!; [done..|].
  apply rbind_ok in E as (_ & _ & E). apply rbind_ok in E as (_ & _ & E). unfold grow in E.
  apply rbind_ok in E as (q & _ & E). destruct (_ <? _); [done|]. by apply Ok_inj in E as <-.
Qed.

(** What [PageWalStore::commit] is given by the layers above it: the tree's
    root, and every page of a grown extent logged. *)
Definition commit_ok (pg : Pager) (root_ : Z) : Prop :=
  2 ≤ root_ < pages (st pg) ∧
  (∀ p, file_len (p_data pg) / PAGE ≤ p < pages (st pg) → is_Some (latest (st pg) !! p)).

Lemma commit_rep pg disk fc lc ws root_ fault pg' r :
  rep pg disk fc lc ws → is_Some (p_hint pg) → commit_ok pg root_ → commit pg root_ fault = (pg', r) →
  is_Some (p_hint pg') ∧ p_data pg' = p_data pg ∧
  ((∃ b h, after_publish fault pg' disk (commit_frames disk fc lc (ws ++ [(0, b)]) (pages (st pg)))
             (commit_loop disk lc (ws ++ [(0, b)]) (pages (st pg)) h) ∧
           page_of h 0 = Ok b ∧ h = mkHeader root_ (free_head (st pg)) (s_cap (st pg)) (identity disk) (l_tx lc) (features disk) ∧
           (fault = NoFault ↔ r = Ok tt)) ∨
   (∃ ws', refused pg pg' r disk fc lc ws' ∧ prefix ws ws')).
Proof using HL.
  intros Hr Hio [Hroot Hcov]. unfold commit. destruct (rep_header _ _ _ _ _ Hr) as (Hs & Hcapu & Hid & Hfe & Hfl).
  rewrite Hs, Hid, Hfe. set (h := mkHeader _ _ _ _ _ _). pose proof (rep_ids _ _ _ _ _ Hr) as (Hi & Hib & Htx).
  pose proof (base_hwf _ _ (proj2 (rep_data _ _ _ _ _ Hr))) as Hdw. pose proof (rep_pages _ _ _ _ _ Hr) as [[Hp0 Hpu] _].
  pose proof (rep_free _ _ _ _ _ Hr) as Hfree. pose proof (hwf_features _ Hdw). pose proof (hwf_identity _ Hdw).
  assert (hwf h) as Hh.
  { unfold h. split; cbn [root free cap tx features identity]; try assumption.
    - split; lia.
    - destruct Hfree as [->|]; split; try lia; done. }
  destruct (page_of_ok h 0 Hh ltac:(width)) as (b & Hb & Hbb & Hbl & _ & _ & Hdec). rewrite Hb.
  destruct (page_write_at pg b 0) as [pg1 r1] eqn:Hw. change (page_write_at pg b (0 * PAGE) = (pg1, r1)) in Hw.
  assert (0 = 0 → ∃ h0, decode b 0 = Ok h0 ∧ identity h0 = identity disk ∧ features h0 = features disk ∧ tx h0 = l_tx lc) as Hhdr.
  { intros _. exists h. auto. }
  destruct (page_write_at_frame _ _ _ _ _ Hw) as (Hio1 & Hd1 & Hcap1).
  destruct (page_write_at_rep _ _ _ _ _ 0 b _ _ Hr ltac:(lia) ltac:(lia) Hbb Hhdr Hw)
    as [(-> & Hrep & Hf & Hge & _ & Hsame)|Hre].
  2:{ destruct Hre as [[e ->] Hre]. intros [= <- <-]. rewrite Hio1. split; [exact Hio|]. split; [exact Hd1|].
      right. exists ws. split; [|done]. split; [by eexists|exact Hre]. }
  assert (pages (st pg1) = pages (st pg)) as Hpg by (apply Hsame; lia).
  assert (validate_extent h (pages (st pg)) = Ok tt) as Hval.
  { unfold validate_extent. cbn [root free h]. rewrite (proj2 (Z.ltb_ge root_ 2)), (proj2 (Z.leb_gt _ _)) by lia. cbn [orb].
    destruct Hfree as [->|]; [done|]. rewrite (proj2 (Z.ltb_ge (free_head (st pg)) 2)), (proj2 (Z.leb_gt _ _)) by lia.
    cbn [orb]. by rewrite andb_false_r. }
  assert (rep_latest : ∀ p, is_Some (latest (st pg) !! p) → is_Some (latest (st pg1) !! p)).
  { intros p. destruct (rep_work _ _ _ _ _ Hr) as (-> & _). destruct (rep_work _ _ _ _ _ Hrep) as (-> & _).
    rewrite !log_writes_dom. rewrite fmap_app, elem_of_app. tauto. }
  intros Hpubl. destruct (publish_rep pg1 disk fc lc ws b h fault pg' r) as (Hio' & Hd' & Hres); try assumption.
  - by rewrite Hio1.
  - reflexivity.
  - by rewrite Hcap1.
  - by rewrite Hpg.
  - rewrite Hpg, Hd1. intros p Hp. by apply rep_latest, Hcov.
  - split; [exact Hio'|]. split; [congruence|]. rewrite Hpg in Hres. destruct Hres as [[Hres Hok]|Hres].
    + left. exists b, h. auto.
    + right. eexists. split; [exact Hres|by apply prefix_app_r].
Qed.

(** ** Reopening *)
Lemma decode_opens b no h : decode b no = Ok h → Page.page_open b no = Ok b.
Proof using.
  unfold decode. intros Hd. apply rbind_ok in Hd as (b' & Ho & _). rewrite Ho. f_equal. by eapply Page.page_open_id.
Qed.
(** The header page a published index reads. *)
Lemma header_page pg disk fc lc rest :
  p_data pg = healthy (data (p_data pg)) → base (data (p_data pg)) disk →
  published disk (blen (data (p_data pg)) / PAGE) fc lc → bytes_ok rest →
  ∃ b, read_page (p_data pg) (healthy (concat fc ++ rest)) (l_committed lc) 0 = Ok b ∧
       decode b 0 = Ok (default disk (l_header lc)).
Proof using HL.
  intros Hd Hbase Hpub Hrest. pose proof (pub_meta _ _ _ _ Hpub) as Hm. destruct (l_header lc) as [h|] eqn:Hh; cbn [default from_option id].
  - destruct Hm as (i & f & Hi & Hno & Hdec & Hidx). exists (slice f 32 PAGE). split; [|exact Hdec].
    erewrite read_page_entry; [|apply Hpub|exact Hrest|exact Hi|exact Hno|exact Hidx|reflexivity].
    exact (decode_opens _ _ _ Hdec).
  - rewrite Hm. destruct (page_of_ok disk 0 (base_hwf _ _ Hbase) ltac:(width)) as (b & Hb & _ & _ & _ & _ & Hdec).
    exists b. split; [|exact Hdec]. unfold read_page. rewrite lookup_empty, Hd, (base_disk _ _ Hbase).
    cbn [rbind Z.eqb]. rewrite Hb. exact (decode_opens _ _ _ Hdec).
Qed.

Lemma load_header_rep pg disk fc lc :
  rep pg disk fc lc [] → pages (st pg) = l_pages lc →
  ∃ pg', load_header pg = (pg', Ok (root (default disk (l_header lc)))) ∧ rep pg' disk fc lc [] ∧
    p_hint pg' = p_hint pg ∧ p_data pg' = p_data pg ∧ p_wal pg' = p_wal pg ∧
    hint_current (st pg') = hint_current (st pg).
Proof using HL.
  intros Hr Hpg. pose proof Hr as [[Hd Hbase] Hpub Hwal _ Hcom Hhdr (Hl & He & Hcrc) _ _ _]. unfold load_header.
  destruct (header_page pg disk fc lc [] Hd Hbase Hpub ltac:(constructor)) as (b & Hb & Hdec).
  cbn [map] in Hwal. rewrite app_nil_r in Hwal, Hb. cbn [log_writes] in Hl. rewrite Hwal, Hl, Hb. cbn [rbind].
  unfold decode in Hdec. apply rbind_ok in Hdec as (b' & Ho & Hdec). pose proof (Page.page_open_id _ _ _ Ho) as ->.
  destruct (negb _ || _ || _) eqn:Hshape in Hdec; [done|].
  apply orb_false_iff in Hshape as [[Hs1 _]%orb_false_iff Hs2]. rewrite Hs1, Hs2. cbn [orb]. rewrite Hdec. cbn [rbind].
  rewrite Hpg. pose proof (pub_valid _ _ _ _ Hpub) as Hval. rewrite Hval. cbn [rbind].
  set (h := default disk (l_header lc)) in *. pose proof (pub_cap _ _ _ _ Hpub) as Hcap. fold h in Hcap. fields.
  cbn [length] in He. rewrite (proj2 (Z.ltb_ge _ _)) by lia. eexists. split; [reflexivity|]. split; [|by fields].
  pose proof (pub_hwf _ _ _ _ Hpub) as Hh. fold h in Hh.
  assert (free h = 0 ∨ 2 ≤ free h < l_pages lc) as Hf.
  { unfold validate_extent in Hval. destruct (_ || _) in Hval; [done|]. destruct (Z.eqb_spec (free h) 0); [by left|].
    cbn [negb andb] in Hval. destruct (Z.ltb_spec (free h) 2); [done|]. destruct (Z.leb_spec (l_pages lc) (free h)); [done|]. lia. }
  destruct Hr as [Hd' _ Hwal' Hws' Hcom' (H1&H2&H3) Hwork' Hpgs' Hfree' Hend'].
  split; fields; try assumption; [|by rewrite Hpg].
  split_and!; try apply H3; [exact H1|apply Hh..].
Qed.

(** [finish_open] of a freshly inspected state, over whatever tail. *)
Lemma finish_open_rep pg disk fc lc rest io fault d w t pg' r :
  p_data pg = healthy (data (p_data pg)) → base (data (p_data pg)) disk →
  published disk (blen (data (p_data pg)) / PAGE) fc lc →
  p_wal pg = healthy (concat fc ++ rest) → st pg = set_limits (recovered disk lc) d w t →
  finish_open pg io fault = (pg', r) →
  rep pg' disk fc lc [] ∧ pages (st pg') = l_pages lc ∧ is_Some (p_hint pg') ∧ p_data pg' = p_data pg ∧
  (fault = NoFault ↔ r = Ok tt).
Proof using HL.
  intros Hd Hbase Hpub Hwal Hst Hfo. unfold finish_open in Hfo.
  pose proof (pub_at _ _ _ _ Hpub) as [Hat Hlast]. pose proof (concat_frames_len _ (pub_ok _ _ _ _ Hpub)) as Hcl.
  assert ((if file_len (p_wal pg) =? last_commit (st pg) then p_wal pg else set_len (p_wal pg) (last_commit (st pg)))
          = healthy (concat fc)) as Hw.
  { rewrite Hwal, Hst. fields. unfold recovered. fields. rewrite Hlast, <-Hcl. unfold set_len, file_len. cbn [data healthy faulty].
    rewrite resize_app. destruct (Z.eqb_spec (blen (concat fc ++ rest)) (blen (concat fc))) as [E|]; [|done].
    rewrite blen_app in E. destruct rest as [|x rest]; [by rewrite app_nil_r|]. unfold blen in E. cbn in E. lia. }
  rewrite Hw in Hfo. clear Hw. set (pg0 := mkPager _ _ _ _ _) in Hfo.
  destruct (write_hint_cases _ _ _ _ _ _ (ltac:(by eexists) : is_Some (p_hint pg0)) Hfo) as (Hd2 & Hw2 & Hh2 & _ & [c Hs2] & Hok).
  assert (rep pg0 disk fc lc []) as Hr0.
  { pose proof (pub_tx _ _ _ _ Hpub) as [Htx Htxr]. pose proof (pub_hwf _ _ _ _ Hpub) as Hh.
    pose proof (pub_valid _ _ _ _ Hpub) as Hval. set (h := default disk (l_header lc)) in *.
    unfold pg0. split; fields; rewrite ?Hst; unfold recovered; fold h; fields.
    - by split.
    - exact Hpub.
    - cbn [map]. by rewrite app_nil_r.
    - constructor.
    - auto.
    - split_and!; try reflexivity; apply Hh.
    - cbn [length log_writes map foldl]. split_and!; [reflexivity|lia|reflexivity].
    - destruct (pub_pages _ _ _ _ Hpub). split; [lia|constructor].
    - unfold validate_extent in Hval. destruct (_ || _) in Hval; [done|]. destruct (Z.eqb_spec (free h) 0); [by left|].
      cbn [negb andb] in Hval. destruct (Z.ltb_spec (free h) 2); [done|]. destruct (Z.leb_spec (l_pages lc) (free h)); [done|]. lia.
    - apply Hpub. }
  split; [|split_and!; [rewrite Hs2; unfold pg0; fields; rewrite Hst; reflexivity|exact Hh2|exact Hd2|exact Hok]].
  destruct pg' as [d' w' i' s' rd']. cbn [p_data p_wal p_hint st] in *. subst d' w' s'.
  eapply set_hint_rep. unfold pg0 in *. exact Hr0.
Qed.

Lemma rollback_rep cf pg disk fc lc rest io fault pg' r :
  p_data pg = healthy (data (p_data pg)) → base (data (p_data pg)) disk →
  published disk (blen (data (p_data pg)) / PAGE) fc lc → p_wal pg = healthy (concat fc ++ rest) →
  s_identity (st pg) = identity disk → s_features (st pg) = features disk →
  inspect_bounded cf (p_data pg) (p_wal pg) None = Ok (recovered disk lc) →
  rollback cf pg io fault = (pg', r) →
  rep pg' disk fc lc [] ∧ is_Some (p_hint pg') ∧ p_data pg' = p_data pg ∧
  (fault = NoFault → r = Ok (root (default disk (l_header lc)))) ∧ (fault ≠ NoFault → ∃ e, r = Err e).
Proof using HL.
  intros Hd Hbase Hpub Hwal Hid Hfe Hin. unfold rollback. rewrite Hin.
  set (s0 := set_limits _ _ _ _). rewrite Hid, Hfe.
  change (s_identity s0) with (identity disk). change (s_features s0) with (features disk).
  rewrite bool_decide_true, Z.eqb_refl by done. cbn [negb orb].
  destruct (finish_open _ io fault) as [pg1 r1] eqn:Hfo.
  destruct (finish_open_rep (with_state pg s0) disk fc lc rest io fault _ _ _ pg1 r1 Hd Hbase Hpub Hwal eq_refl Hfo)
    as (Hr & Hp & Hh & Hd1 & Hok).
  destruct r1 as [[]|e].
  - destruct (load_header_rep _ _ _ _ Hr Hp) as (pg2 & -> & Hr2 & Hh2 & Hd2 & _). intros [= <- <-].
    split_and!; [exact Hr2|by rewrite Hh2|by rewrite Hd2, Hd1|done|]. intros Hf. by destruct Hf, Hok as [_ ->].
  - intros [= <- <-]. split_and!; [exact Hr|exact Hh|exact Hd1| |eauto].
    intros ->. destruct Hok as [Hok _]. discriminate (Hok eq_refl).
Qed.

(** ** The hint file of a handle *)
(** Both copies of the hint name transaction [t], whose log ends at [e]. *)
Definition hint_holds (io : option File) (id : bytes) (fl t e : Z) : Prop :=
  ∃ b, io = Some (healthy b) ∧ HINT_FILE_BYTES ≤ blen b ∧
    slice b 0 HINT_FILE_BYTES = (let h := hint_encode (mkHint id fl t e) in h ++ h).
Definition hint_ok (pg : Pager) : Prop :=
  hint_holds (p_hint pg) (s_identity (st pg)) (floor (st pg)) (s_tx (st pg) - 1) (last_commit (st pg)).
Definition hint_file_ok (pg : Pager) : Prop := ∃ b, p_hint pg = Some (healthy b).

Lemma write_hint_holds pg t e pg' fault r :
  hint_file_ok pg → 0 ≤ e ≤ WAL_CAP → write_hint pg fault t e = (pg', r) →
  hint_file_ok pg' ∧ (r = Ok tt → hint_holds (p_hint pg') (s_identity (st pg)) (floor (st pg)) t e).
Proof using.
  intros [b Hb] He Hw. unfold write_hint in Hw. rewrite Hb in Hw.
  assert (WAL_CAP < u32_max + 1) as Hc by done.
  rewrite Z.mod_small in Hw by lia.
  destruct fault; injection Hw as <- <-; (split; [unfold hint_file_ok; fields; rewrite ?Hb; eexists; reflexivity|]); try done.
  intros _. unfold hint_holds. fields. cbn zeta.
  set (h := hint_encode _). assert (blen h = 48) as Hh by apply blen_hint.
  set (c := overwrite (overwrite b 0 h) HINT_BYTES h).
  exists c. split; [reflexivity|].
  assert (∃ t, overwrite b 0 h = h ++ t) as [u Hu].
  { exists (drop (length h) b). unfold overwrite. rewrite zeros_neg, app_nil_r by (pose proof (blen_nonneg b); lia). done. }
  assert (c = h ++ h ++ drop (length h) u) as Hc'.
  { unfold c. rewrite Hu. replace HINT_BYTES with (blen h) by done. apply overwrite_app. }
  rewrite Hc'. pose proof (blen_nonneg (drop (length h) u)). change HINT_FILE_BYTES with 96.
  rewrite !blen_app, Hh. split; [lia|]. rewrite app_assoc. apply slice_app_exact. rewrite blen_app. lia.
Qed.

Lemma publish_hint pg fault pg' r :
  hint_file_ok pg → 0 ≤ end_ (st pg) → publish pg fault = (pg', r) →
  hint_file_ok pg' ∧ (r = Ok tt → hint_ok pg').
Proof using.
  intros Hio He. unfold publish. destruct (checked_add_u64 _ 1) as [next|] eqn:Hn; [|by intros [= <- <-]].
  apply checked_add_u64_Some in Hn as [-> _].
  destruct (append pg _) as [pg1 r1] eqn:Ha.
  apply append_cases in Ha as [(-> & -> & Hcap & _)|[[e ->] ->]]; [|by intros [= <- <-]].
  rewrite blen_frame in Hcap. assert (0 < FRAME) as HF by done.
  set (pg1 := mkPager _ _ _ _ _). destruct (write_hint pg1 fault _ _) as [pg2 r2] eqn:Hw.
  assert (hint_file_ok pg1) as Hio1 by exact Hio. pose proof (blen_frame 2 u32_max (s_tx (st pg)) (pages (st pg))
    (splice (zeros PAGE) 0 (le_bytes 4 (tx_crc (st pg)))) (s_identity (st pg))) as Hbf.
  assert (end_ (st pg1) = end_ (st pg) + FRAME) as He1 by (unfold pg1; fields; by rewrite Hbf).
  destruct (write_hint_cases _ _ _ _ _ _ (ltac:(destruct Hio1 as [? ->]; by eexists) : is_Some (p_hint pg1)) Hw)
    as (_ & _ & _ & _ & [c Hst] & Hok).
  assert (0 ≤ end_ (st pg1) ≤ WAL_CAP) as Hb by (rewrite He1; lia).
  destruct (write_hint_holds pg1 _ _ pg2 fault r2 Hio1 Hb Hw) as [Hf2 Hh2]. cbn beta iota. intros Hfin.
  assert (pg' = (if hint_published (st pg2) then with_state pg2 (swap (st pg2) (s_tx (st pg) + 1)) else pg2) ∧ r = r2)
    as [-> ->] by (injection Hfin; intros; split; congruence).
  split; [by destruct (hint_published _)|]. intros Hr. assert (fault = NoFault) as -> by by apply Hok.
  rewrite Hst. fields. unfold hint_ok. fields. rewrite Z.add_simpl_r. specialize (Hh2 Hr). exact Hh2.
Qed.

(** The files the page writers leave alone. *)
Definition same_files (pg pg' : Pager) : Prop := p_hint pg' = p_hint pg ∧ p_data pg' = p_data pg.
Lemma log_page_files pg p b : same_files pg (log_page pg p b).1.
Proof using. destruct (log_page pg p b) as [pg' r] eqn:E. destruct (log_page_frame _ _ _ _ _ E) as (? & ? & _). by split. Qed.
Lemma pop_files pg : same_files pg (pop_free_page pg).1.
Proof using.
  unfold pop_free_page. destruct (_ =? 0); [done|]. destruct (_ || _); [done|].
  match goal with |- context [match ?m with Ok _ => _ | Err _ => _ end] => destruct m as [[next b]|]; [|done] end.
  pose proof (log_page_files pg (free_head (st pg)) b) as Hl. by destruct (log_page _ _ _) as [? [|]].
Qed.
Lemma push_files pg p : same_files pg (push_free_page pg p).1.
Proof using.
  unfold push_free_page. destruct (_ <? 2); [done|]. destruct (rbind _ _) as [s|]; [|done].
  destruct (free_page_image _ _) as [b|]; [|done]. pose proof (log_page_files (with_state pg s) p b) as Hl.
  by destruct (log_page _ _ _) as [? [|]].
Qed.
Lemma commit_hint pg disk fc lc ws root_ fault pg' r :
  rep pg disk fc lc ws → hint_file_ok pg → commit_ok pg root_ → commit pg root_ fault = (pg', r) →
  hint_file_ok pg' ∧ (r = Ok tt → hint_ok pg').
Proof using HL.
  intros Hr Hio Hc Hcom. unfold commit in Hcom. destruct (page_of _ 0) as [b|]; [|by injection Hcom as <- <-].
  destruct (page_write_at pg b 0) as [pg1 r1] eqn:Hw.
  assert (hint_file_ok pg1) as Hf1.
  { destruct Hio as [x Hx]. destruct (page_write_at_frame _ _ _ _ _ Hw) as (Hio1 & _ & _). exists x. congruence. }
  destruct r1; [|by injection Hcom as <- <-]. apply publish_hint in Hcom; [done|done|].
  pose proof (rep_wal_len _ _ _ _ _ Hr) as [Hl _]. pose proof (blen_nonneg (concat (fc ++ map (wframe (identity disk) (l_tx lc)) ws))).
  assert (end_ (st pg) ≤ end_ (st pg1)); [|lia]. clear -Hw. unfold page_write_at in Hw.
  destruct (negb _ || negb _); [discriminate Hw|]. destruct (_ <? _); [discriminate Hw|].
  destruct (let* _ := Page.page_open b _ in _) as [s|] eqn:E; [|discriminate Hw].
  assert (end_ s = end_ (st pg)) as Es.
  { apply rbind_ok in E as (_ & _ & E). apply rbind_ok in E as (_ & _ & E). unfold grow in E.
    apply rbind_ok in E as (q & _ & E). destruct (_ <? _); [done|]. by apply Ok_inj in E as <-. }
  unfold log_page in Hw. destruct (append _ _) as [pg2 r2] eqn:Ha.
  apply append_cases in Ha as [(->&->&_)|[[e ->] ->]]; [injection Hw as <- _; fields; rewrite Es|discriminate Hw].
  pose proof (blen_nonneg (frame 1 (0 / PAGE) (s_tx s) 0 b (s_identity s))). cbn [with_state st] in *. lia.
Qed.

(** ** The invariant of a handle *)
Inductive inv (pg : Pager) (poisoned : bool) (disk : Header) (fc : list bytes) (lc : Loop) : Prop :=
| inv_live ws : rep pg disk fc lc ws → hint_file_ok pg → (poisoned = false → hint_ok pg) → inv pg poisoned disk fc lc
| inv_doubt : poisoned = true → hint_file_ok pg → doubt pg disk fc lc → inv pg poisoned disk fc lc.

Lemma hint_ok_rep pg pg' disk fc lc ws ws' :
  rep pg disk fc lc ws → rep pg' disk fc lc ws' → p_hint pg' = p_hint pg → hint_ok pg → hint_ok pg'.
Proof using.
  intros [_ _ _ _ (_&H1&_) (H2&_&H3&_&H4) _ _ _ _] [_ _ _ _ (_&H1'&_) (H2'&_&H3'&_&H4') _ _ _ _] Hp.
  unfold hint_ok. by rewrite Hp, H1, H2, H3, H4, H1', H2', H3', H4'.
Qed.

(** What the layers above the store pass to a call. *)
Definition call_ok (pg : Pager) (c : call) : Prop :=
  match c with
  | CWrite p b => 2 ≤ p ∧ bytes_ok b
  | CCommit root_ _ => commit_ok pg root_
  | CSetCap root_ cap_ _ => commit_ok pg root_ ∧ is_u64 cap_
  | CRollback io _ => ∃ b, io = healthy b
  | CPop | CPush _ | CLimits _ _ _ => True
  end.

Lemma rep_inspect cf pg disk fc lc ws :
  rep pg disk fc lc ws → inspect_bounded cf (p_data pg) (p_wal pg) None = Ok (recovered disk lc).
Proof using HL.
  intros Hr. destruct (rep_wal_len _ _ _ _ _ Hr) as [Hlen _].
  pose proof Hr as [[Hd Hbase] Hpub Hwal Hws _ _ _ _ _ Hend]. rewrite Hd, Hwal.
  pose proof (inspect_recovers cf _ disk fc lc ws [] Hbase Hpub Hws ltac:(constructor)) as H. rewrite app_nil_r in H.
  apply H; [left; assert (0 < FRAME) by done; lia|lia].
Qed.
Lemma doubt_inspect cf pg disk fc lc :
  doubt pg disk fc lc → inspect_bounded cf (p_data pg) (p_wal pg) None = Ok (recovered disk lc).
Proof using HL.
  intros [[Hd Hbase] Hpub Hwal _]. rewrite Hd, Hwal.
  pose proof (inspect_recovers cf _ disk fc lc [] [] Hbase Hpub ltac:(constructor) ltac:(constructor)) as H.
  cbn [map] in H. rewrite !app_nil_r in H. pose proof (pub_at _ _ _ _ Hpub) as [_ Hl].
  pose proof (concat_frames_len _ (pub_ok _ _ _ _ Hpub)) as Hcl. pose proof (pub_size _ _ _ _ Hpub).
  apply H; [left; assert (0 < FRAME) by done; lia|lia].
Qed.

Lemma load_header_keeps pg pg' r :
  load_header pg = (pg', r) → p_hint pg' = p_hint pg ∧ s_identity (st pg') = s_identity (st pg) ∧
    floor (st pg') = floor (st pg) ∧ s_tx (st pg') = s_tx (st pg) ∧ last_commit (st pg') = last_commit (st pg).
Proof using. unfold load_header. destruct (rbind _ _) as [h|]; by intros [= <- <-]. Qed.

Lemma rollback_hint cf pg disk fc lc io fault pg' r b :
  published disk (blen (data (p_data pg)) / PAGE) fc lc →
  inspect_bounded cf (p_data pg) (p_wal pg) None = Ok (recovered disk lc) → io = healthy b →
  s_identity (st pg) = identity disk → s_features (st pg) = features disk →
  rollback cf pg io fault = (pg', r) → hint_file_ok pg' ∧ (is_ok r = true → hint_ok pg').
Proof using.
  intros Hpub Hin -> Hid Hfe. unfold rollback. rewrite Hin. set (s0 := set_limits _ _ _ _). rewrite Hid, Hfe.
  change (s_identity s0) with (identity disk). change (s_features s0) with (features disk).
  rewrite bool_decide_true, Z.eqb_refl by done. cbn [negb orb]. unfold finish_open.
  set (pg0 := mkPager _ _ _ _ _). destruct (write_hint pg0 fault _ _) as [pg1 r1] eqn:Hw.
  assert (hint_file_ok pg0) as Hio by (eexists; reflexivity).
  pose proof (pub_size _ _ _ _ Hpub) as Hsz. pose proof (pub_at _ _ _ _ Hpub) as [_ Hl].
  assert (0 ≤ last_commit (st (with_state pg s0)) ≤ WAL_CAP) as Hb.
  { change (0 ≤ l_last lc ≤ WAL_CAP). assert (0 < FRAME) by done. lia. }
  destruct (write_hint_holds _ _ _ _ _ _ Hio Hb Hw) as [Hf Hh].
  destruct (write_hint_cases _ _ _ _ _ _ (ltac:(by eexists) : is_Some (p_hint pg0)) Hw) as (_&_&_&_&[c Hst]&_).
  destruct r1 as [[]|e]; [|by intros [= <- <-]]. intros Hlh.
  destruct (load_header_keeps _ _ _ Hlh) as (Hp&H1&H2&H3&H4).
  split; [unfold hint_file_ok; by rewrite Hp|]. intros _. unfold hint_ok. rewrite Hp, H1, H2, H3, H4, Hst.
  exact (Hh eq_refl).
Qed.

Lemma run_rollback_inv cf pg disk fc lc rest io fault pg' r poisoned :
  inspect_bounded cf (p_data pg) (p_wal pg) None = Ok (recovered disk lc) →
  p_data pg = healthy (data (p_data pg)) ∧ base (data (p_data pg)) disk →
  published disk (blen (data (p_data pg)) / PAGE) fc lc → p_wal pg = healthy (concat fc ++ rest) →
  s_identity (st pg) = identity disk ∧ s_features (st pg) = features disk → (∃ b, io = healthy b) →
  rollback cf pg io fault = (pg', r) → (poisoned = false → is_ok r = true) →
  inv pg' poisoned disk fc lc ∧ p_data pg' = p_data pg ∧ (fault = NoFault → r = Ok (root (default disk (l_header lc)))).
Proof using HL.
  intros Hin [Hd Hbase] Hpub Hwal [Hid Hfe] [b Hb] Hrb Hok.
  destruct (rollback_rep _ _ _ _ _ _ _ _ _ _ Hd Hbase Hpub Hwal Hid Hfe Hin Hrb) as (Hr & _ & Hd' & Hroot & _).
  destruct (rollback_hint _ _ _ _ _ _ _ _ _ _ Hpub Hin Hb Hid Hfe Hrb) as [Hf Hh].
  split; [|split; assumption]. eapply inv_live; [exact Hr|exact Hf|]. intros Hp. by apply Hh, Hok.
Qed.

Lemma commit_inv pg disk fc lc ws root_ fault pg' r :
  rep pg disk fc lc ws → hint_file_ok pg → (hint_ok pg) → commit_ok pg root_ → commit pg root_ fault = (pg', r) →
  ∃ fc' lc', inv pg' (negb (is_ok r)) disk fc' lc' ∧ prefix fc fc' ∧ p_data pg' = p_data pg.
Proof using HL.
  intros Hr Hio Hh Hok Hc. destruct (commit_hint _ _ _ _ _ _ _ _ _ Hr Hio Hok Hc) as [Hf' Hh'].
  assert (is_Some (p_hint pg)) as Hs by (destruct Hio as [b ->]; by eexists).
  destruct (commit_rep _ _ _ _ _ _ _ _ _ Hr Hs Hok Hc) as (_ & Hd & [(b & h & Hap & _ & _ & Hiff)|(ws' & [[e ->] Hr'] & _)]).
  - eexists _, _. split; [|split; [|exact Hd]].
    2:{ unfold commit_frames. by apply prefix_app_r. }
    destruct r as [[]|e]; cbn [is_ok negb].
    + assert (fault = NoFault) as -> by by apply Hiff. eapply inv_live; [exact Hap|exact Hf'|]. intros _. by apply Hh'.
    + destruct fault; [|by apply inv_doubt|by eapply inv_live]. destruct Hiff as [Hi _]. by discriminate (Hi eq_refl).
  - exists fc, lc. split; [|by split]. eapply inv_live; [exact Hr'|exact Hf'|done].
Qed.

Lemma set_cap_rep pg disk fc lc ws c :
  rep pg disk fc lc ws → is_u64 c → rep (with_state pg (set_cap_of (st pg) c)) disk fc lc ws.
Proof using. intros [? ? ? ? ? (?&?&?&?&?) ? ? ? ?] Hc. split; fields; try assumption. auto. Qed.
Lemma set_limits_rep pg disk fc lc ws d w t :
  rep pg disk fc lc ws → rep (with_state pg (set_limits (st pg) d w t)) disk fc lc ws.
Proof using. intros []. split; fields; assumption. Qed.

(** After a page writer the handle is live on the same publication. *)
Lemma live_again pg pg' poisoned disk fc lc ws ws' :
  rep pg disk fc lc ws → hint_file_ok pg → hint_ok pg → rep pg' disk fc lc ws' → same_files pg pg' →
  inv pg' poisoned disk fc lc ∧ prefix fc fc ∧ p_data pg' = p_data pg.
Proof using.
  intros Hr [b Hb] Hh Hr' [Hio Hd]. split; [|split; [reflexivity|exact Hd]]. eapply inv_live; [exact Hr'|exists b; congruence|].
  intros _. exact (hint_ok_rep _ _ _ _ _ _ _ Hr Hr' Hio Hh).
Qed.

Lemma run_call_inv cf pg poisoned disk fc lc c pg' poisoned' :
  inv pg poisoned disk fc lc → call_ok pg c → run_call cf (pg, poisoned) c = (pg', poisoned') →
  ∃ fc' lc', inv pg' poisoned' disk fc' lc' ∧ prefix fc fc' ∧ p_data pg' = p_data pg.
Proof using HL.
  intros Hinv Hok. assert (inv pg poisoned disk fc lc ∧ prefix fc fc ∧ p_data pg = p_data pg) as Hsame by done.
  destruct c as [p b| |p|root_ fault|root_ c fault|d w t|io fault]; cbn [run_call].
  6:{ intros [= <- <-]. exists fc, lc. unfold set_runtime_limits. destruct (_ || _); [done|]. cbn [fst].
      split; [|done]. destruct Hinv as [ws Hr Hf Hh|Hp Hf [H1 H2 H3 H4]].
      - eapply inv_live; [by apply set_limits_rep|exact Hf|exact Hh].
      - apply inv_doubt; [done|exact Hf|]. split; fields; assumption. }
  6:{ destruct (rollback cf pg io fault) as [pg1 r] eqn:Hrb. intros Hfin.
      assert (∀ pz, (pz = false → is_ok r = true) → inv pg1 pz disk fc lc ∧ p_data pg1 = p_data pg) as Hgo.
      { intros pz Hz. destruct Hinv as [ws Hr Hf Hh|Hp Hf Hd].
        - destruct (rep_header _ _ _ _ _ Hr) as (_&_&Hid&Hfe&_).
          destruct (run_rollback_inv cf pg disk fc lc (concat (map (wframe (identity disk) (l_tx lc)) ws)) io fault pg1 r pz
            (rep_inspect _ _ _ _ _ _ Hr) (rep_data _ _ _ _ _ Hr) (rep_pub _ _ _ _ _ Hr)) as (Hi & Hd & _); try assumption; [rewrite <-concat_app; apply Hr|by split|by split].
        - destruct (run_rollback_inv cf pg disk fc lc [] io fault pg1 r pz
            (doubt_inspect _ _ _ _ _ Hd) (doubt_data _ _ _ _ Hd) (doubt_pub _ _ _ _ Hd)) as (Hi & Hd' & _); try assumption;
            [rewrite app_nil_r; apply Hd|apply Hd|by split]. }
      exists fc, lc. destruct r; injection Hfin as <- <-; [destruct (Hgo false) as [Hi Hd]|destruct (Hgo true) as [Hi Hd]]; auto; done. }
  all: destruct poisoned; [intros [= <- <-]; eauto|].
  all: destruct Hinv as [ws Hr Hf Hh|Hp]; [|discriminate Hp].
  all: intros Hrun; unfold poison in Hrun; apply pair_equal_spec in Hrun as [<- <-].
  - destruct (page_write_at pg b (p * PAGE)) as [pg1 r] eqn:Hw. destruct Hok as [Hp Hb]. cbn [fst snd].
    destruct (page_write_at_frame _ _ _ _ _ Hw) as (Hio & Hd & _).
    assert (∃ ws', rep pg1 disk fc lc ws') as [ws' Hr'].
    { destruct (page_write_at_rep pg disk fc lc ws p b pg1 r Hr ltac:(lia) ltac:(lia) Hb ltac:(lia) Hw) as [(_&?&_)|[_ ?]]; eauto. }
    exists fc, lc. eapply live_again; eauto. by split.
  - pose proof (pop_files pg) as Hfs. destruct (pop_free_page pg) as [pg1 r] eqn:Hw. cbn [fst snd] in *.
    destruct (pop_rep _ _ _ _ _ _ _ Hr Hw) as (ws' & Hr' & _). exists fc, lc. eapply live_again; eauto.
  - pose proof (push_files pg p) as Hfs. destruct (push_free_page pg p) as [pg1 r] eqn:Hw. cbn [fst snd] in *.
    destruct (push_rep _ _ _ _ _ _ _ _ Hr Hw) as (ws' & Hr' & _). exists fc, lc. eapply live_again; eauto.
  - destruct (commit pg root_ fault) as [pg1 r] eqn:Hc. cbn [fst snd]. eapply commit_inv; eauto.
  - unfold set_cap. destruct Hok as [Hok Hcap]. destruct (_ <? _).
    { exists fc, lc. cbn [fst snd is_ok negb bad]. split; [|split; reflexivity]. eapply inv_live; [exact Hr|exact Hf|discriminate]. }
    destruct (commit _ root_ fault) as [pg1 r] eqn:Hc. cbn [fst snd].
    eapply (commit_inv (with_state pg (set_cap_of (st pg) c))); [by apply set_cap_rep|exact Hf|by apply Hh|exact Hok|exact Hc].
Qed.

(** ** Opening *)
Lemma load_header_recovered pg disk fc lc rest :
  p_data pg = healthy (data (p_data pg)) → base (data (p_data pg)) disk →
  published disk (blen (data (p_data pg)) / PAGE) fc lc → bytes_ok rest →
  p_wal pg = healthy (concat fc ++ rest) → st pg = recovered disk lc →
  load_header pg = (pg, Ok (root (default disk (l_header lc)))).
Proof using HL.
  intros Hd Hbase Hpub Hrest Hwal Hst. unfold load_header.
  destruct (header_page pg disk fc lc rest Hd Hbase Hpub Hrest) as (b & Hb & Hdec).
  rewrite Hwal, Hst. change (latest (recovered disk lc)) with (l_committed lc). rewrite Hb. cbn [rbind].
  unfold decode in Hdec. apply rbind_ok in Hdec as (b' & Ho & Hdec). pose proof (Page.page_open_id _ _ _ Ho) as ->.
  destruct (negb _ || _ || _) eqn:Hshape in Hdec; [done|].
  apply orb_false_iff in Hshape as [[Hs1 _]%orb_false_iff Hs2]. rewrite Hs1, Hs2. cbn [orb]. rewrite Hdec. cbn [rbind].
  change (pages (recovered disk lc)) with (l_pages lc).
  rewrite (pub_valid _ _ _ _ Hpub). cbn [rbind]. pose proof (pub_cap _ _ _ _ Hpub) as Hcap.
  set (h := default disk (l_header lc)) in *.
  assert (with_state pg (set_cap_of (set_free (recovered disk lc) (free h)) (cap h)) = pg) as ->.
  { destruct pg as [d w i s rd]. cbn [st] in Hst. by subst s. }
  change (s_cap _) with (cap h). change (end_ _) with (l_last lc). change (pages _) with (l_pages lc).
  by rewrite (proj2 (Z.ltb_ge _ _)) by lia.
Qed.

Lemma open_writer_inv cf data_ disk fc lc rest hb :
  base data_ disk → published disk (blen data_ / PAGE) fc lc → bytes_ok rest →
  inspect_bounded cf (healthy data_) (healthy (concat fc ++ rest)) None = Ok (recovered disk lc) →
  ∃ pg, open_writer cf (healthy data_) (healthy (concat fc ++ rest)) (healthy hb) NoFault = Ok pg ∧
    rep pg disk fc lc [] ∧ hint_ok pg ∧ p_data pg = healthy data_ ∧ hint_file_ok pg ∧ pages (st pg) = l_pages lc.
Proof using HL.
  intros Hbase Hpub Hrest Hin. unfold open_writer. rewrite Hin. cbn [rbind].
  set (pg0 := mkPager _ _ _ _ _).
  rewrite (load_header_recovered pg0 disk fc lc rest) by (done || reflexivity). cbn [rbind].
  destruct (finish_open pg0 (healthy hb) NoFault) as [pg1 r1] eqn:Hfo.
  destruct (finish_open_rep pg0 disk fc lc rest (healthy hb) NoFault u64_max u64_max usize_max pg1 r1) as (Hr & Hp & _ & Hd & Hok);
    try (done || reflexivity). assert (r1 = Ok tt) as -> by by apply Hok.
  exists pg1. split; [done|]. split; [exact Hr|].
  unfold finish_open in Hfo. set (pg2 := mkPager _ _ _ _ _) in Hfo.
  assert (hint_file_ok pg2) as Hio by (eexists; reflexivity).
  pose proof (pub_size _ _ _ _ Hpub) as Hsz. pose proof (pub_at _ _ _ _ Hpub) as [_ Hl].
  assert (0 ≤ last_commit (st pg0) ≤ WAL_CAP) as Hb.
  { change (0 ≤ l_last lc ≤ WAL_CAP). assert (0 < FRAME) by done. lia. }
  destruct (write_hint_holds _ _ _ _ _ _ Hio Hb Hfo) as [Hf Hh].
  destruct (write_hint_cases _ _ _ _ _ _ (ltac:(by eexists) : is_Some (p_hint pg2)) Hfo) as (_&_&_&_&[c Hst]&_).
  split; [|split_and!; [exact Hd|exact Hf|exact Hp]]. unfold hint_ok. rewrite Hst. exact (Hh eq_refl).
Qed.

(** ** Sessions *)
(** What a crash leaves of the log: everything up to the last publication
    (its barrier completed), any number of whole frames of the unfinished
    transaction, and a tail that reads as short or torn. *)
Definition crash_left (pg : Pager) (w : bytes) : Prop :=
  ∃ (n : nat) tail, let k := last_commit (st pg) + FRAME * Z.of_nat n in
    k ≤ end_ (st pg) ∧ w = slice (data (p_wal pg)) 0 k ++ tail ∧ bytes_ok tail ∧
    discardable w k ∧ blen w ≤ WAL_CAP.

(** A store's life: calls on the handle, and crashes followed by an opening. *)
Inductive step (cf : Z) : Pager * bool → Pager * bool → Prop :=
| step_call pg z c : call_ok pg c → step cf (pg, z) (run_call cf (pg, z) c)
| step_crash pg w hb pg' :
    crash_left pg w → open_writer cf (p_data pg) (healthy w) (healthy hb) NoFault = Ok pg' →
    step cf (pg, false) (pg', false).

(** A checkpointed database: whole pages, readable metadata, an empty log. *)
Record checkpointed (data_ : bytes) (disk : Header) : Prop := {
  cp_base : base data_ disk;
  cp_tx : tx disk < u64_max;
  cp_valid : validate_extent disk (blen data_ / PAGE) = Ok tt;
  cp_cap : blen data_ ≤ cap disk;
}.
Definition fresh_loop (data_ : bytes) (disk : Header) : Loop :=
  mkLoop ∅ ∅ (blen data_ / PAGE) 0 0 (tx disk + 1) 0 None None None false.
Lemma published_fresh data_ disk :
  checkpointed data_ disk → published disk (blen data_ / PAGE) [] (fresh_loop data_ disk).
Proof using.
  intros [[Hb Hd Hh Hl Hp] Htx Hv Hc]. pose proof (hwf_tx _ Hh) as Ht.
  assert (0 ≤ blen data_ / PAGE) by (apply Z.div_pos; [apply blen_nonneg|done]).
  split; cbn [fresh_loop l_pending l_pending_header l_crc l_at l_last l_first l_tx l_header l_pages l_committed default from_option id]; try done.
  - split; [done|]. lia.
  - intros p. lia.
  - rewrite <-Hl. lia.
Qed.

(** The states a store opened on a checkpointed database passes through. *)
Definition reachable (cf : Z) (data_ hb : bytes) (h : Pager * bool) : Prop :=
  ∃ pg0, open_writer cf (healthy data_) (healthy []) (healthy hb) NoFault = Ok pg0 ∧ rtc (step cf) (pg0, false) h.

Lemma crash_image pg disk fc lc ws w :
  rep pg disk fc lc ws → crash_left pg w →
  ∃ rest, w = concat fc ++ rest ∧ bytes_ok rest ∧
    ∀ cf, inspect_bounded cf (p_data pg) (healthy w) None = Ok (recovered disk lc).
Proof using HL.
  intros Hr (n & tail & Hk & Hw & Ht & Hdis & Hcap). destruct (rep_committed _ _ _ _ _ Hr) as (_ & Hlc & _).
  destruct (rep_work _ _ _ _ _ Hr) as (_ & He & _). pose proof (rep_data _ _ _ _ _ Hr) as [Hd Hbase].
  pose proof (rep_pub _ _ _ _ _ Hr) as Hpub. pose proof (rep_ids _ _ _ _ _ Hr) as Hids.
  pose proof (pub_at _ _ _ _ Hpub) as [_ Hl]. assert (0 < FRAME) as HF by done. rewrite Hlc in *.
  set (fr := wframe (identity disk) (l_tx lc)) in *.
  assert (n ≤ length ws)%nat as Hn by nia.
  assert (Forall (write_ok (identity disk) (features disk) (l_tx lc)) (take n ws)) as Hws.
  { apply Forall_take, Hr. }
  assert (Forall frame_ok (fc ++ map fr (take n ws))) as Hall.
  { apply Forall_app. split; [apply Hpub|]. apply Forall_map. eapply Forall_impl; [exact Hws|]. intros x Hx. by eapply wframe_ok. }
  pose proof (concat_frames_len _ Hall) as Hcl. rewrite length_app, length_map, length_take, Nat.min_l in Hcl by done.
  assert (slice (data (p_wal pg)) 0 (l_last lc + FRAME * Z.of_nat n) = concat (fc ++ map fr (take n ws))) as Hs.
  { rewrite (rep_wal _ _ _ _ _ Hr). cbn [data healthy]. rewrite <-(take_drop n ws) at 1.
    fold fr. rewrite map_app, app_assoc, concat_app. apply slice_app_exact. lia. }
  rewrite Hs in Hw. exists (concat (map fr (take n ws)) ++ tail). split_and!.
  - by rewrite Hw, concat_app, app_assoc.
  - apply bytes_ok_app. split; [|done]. apply concat_frames_ok. by apply Forall_app in Hall as [_ ?].
  - intros cf. rewrite Hd, Hw. apply inspect_recovers; try assumption.
    + fold fr. rewrite <-Hw. by replace (blen (concat (fc ++ map fr (take n ws)))) with (l_last lc + FRAME * Z.of_nat n) by lia.
    + fold fr. by rewrite <-Hw.
Qed.

Lemma step_inv cf h h' disk fc lc :
  inv h.1 h.2 disk fc lc → step cf h h' →
  ∃ fc' lc', inv h'.1 h'.2 disk fc' lc' ∧ prefix fc fc' ∧ p_data h'.1 = p_data h.1.
Proof using HL.
  intros Hinv Hs. destruct Hs as [pg z c Hok|pg w hb pg' Hw Ho]; cbn [fst snd] in *.
  - destruct (run_call cf (pg, z) c) as [pg' z'] eqn:Hc. by eapply run_call_inv.
  - destruct Hinv as [ws Hr Hf Hh|]; [|done]. destruct (crash_image _ _ _ _ _ _ Hr Hw) as (rest & -> & Hrest & Hin).
    pose proof (rep_data _ _ _ _ _ Hr) as [Hd Hbase]. rewrite Hd in Ho, Hin.
    destruct (open_writer_inv cf _ disk fc lc rest hb Hbase (rep_pub _ _ _ _ _ Hr) Hrest (Hin cf)) as (pg1 & Ho' & Hr' & Hh' & Hd' & Hf' & _).
    rewrite Ho in Ho'. apply Ok_inj in Ho' as ->. exists fc, lc. split; [by eapply inv_live|]. split; [reflexivity|]. by rewrite Hd'.
Qed.
Lemma steps_inv cf h h' disk fc lc :
  inv h.1 h.2 disk fc lc → rtc (step cf) h h' →
  ∃ fc' lc', inv h'.1 h'.2 disk fc' lc' ∧ prefix fc fc' ∧ p_data h'.1 = p_data h.1.
Proof using HL.
  intros Hi Hs. revert fc lc Hi. induction Hs as [h|h h1 h' H1 _ IH]; intros fc lc Hi; [eauto 10|].
  destruct (step_inv _ _ _ _ _ _ Hi H1) as (fc1 & lc1 & Hi1 & Hp1 & Hd1).
  destruct (IH _ _ Hi1) as (fc2 & lc2 & Hi2 & Hp2 & Hd2). exists fc2, lc2. split; [done|].
  split; [by etrans|congruence].
Qed.
Lemma reachable_inv cf data_ hb disk h :
  checkpointed data_ disk → reachable cf data_ hb h → ∃ fc lc, inv h.1 h.2 disk fc lc ∧ p_data h.1 = healthy data_.
Proof using HL.
  intros Hcp (pg0 & Ho & Hs). pose proof (published_fresh _ _ Hcp) as Hpub.
  pose proof (inspect_recovers cf data_ disk [] (fresh_loop data_ disk) [] [] (cp_base _ _ Hcp) Hpub
    ltac:(constructor) ltac:(constructor)) as Hin. cbn [map app concat] in Hin.
  specialize (Hin ltac:(left; reflexivity) ltac:(done)).
  destruct (open_writer_inv cf data_ disk [] (fresh_loop data_ disk) [] hb (cp_base _ _ Hcp) Hpub ltac:(constructor) Hin)
    as (pg1 & Ho' & Hr & Hh & Hd & Hf & _). cbn [concat app] in Ho'. rewrite Ho in Ho'. apply Ok_inj in Ho' as <-.
  destruct (steps_inv cf (pg0, false) h disk [] (fresh_loop data_ disk)) as (fc & lc & Hi & _ & Hd'); [by eapply inv_live|exact Hs|].
  exists fc, lc. split; [exact Hi|]. by rewrite Hd'.
Qed.

(** ** The theorems *)
Lemma latest_entries pg disk fc lc ws :
  rep pg disk fc lc ws → map_Forall (entry_ok (fc ++ map (wframe (identity disk) (l_tx lc)) ws)) (latest (st pg)).
Proof using HL.
  intros Hr. destruct (rep_work _ _ _ _ _ Hr) as (-> & _). pose proof (rep_pub _ _ _ _ _ Hr) as Hpub.
  pose proof (pub_at _ _ _ _ Hpub) as [_ ->].
  eapply log_entries; [by eapply rep_ids|apply Hr|apply Hpub].
Qed.
(** What a handle that was not refused has published. *)
Lemma inv_published pg poisoned disk fc lc :
  inv pg poisoned disk fc lc → published disk (blen (data (p_data pg)) / PAGE) fc lc ∧
  p_data pg = healthy (data (p_data pg)) ∧ base (data (p_data pg)) disk ∧
  ∃ rest, p_wal pg = healthy (concat fc ++ rest) ∧ bytes_ok rest.
Proof using HL.
  intros [ws Hr _ _|_ _ Hd].
  - destruct (rep_data _ _ _ _ _ Hr). split_and!; [apply Hr|done|done|]. destruct (rep_wal_len _ _ _ _ _ Hr) as [_ Hall].
    exists (concat (map (wframe (identity disk) (l_tx lc)) ws)). rewrite <-concat_app. split; [apply Hr|].
    apply Forall_app in Hall as [_ Hall]. by apply concat_frames_ok.
  - destruct (doubt_data _ _ _ _ Hd). split_and!; [apply Hd|done|done|]. exists []. rewrite app_nil_r. split; [apply Hd|constructor].
Qed.
Lemma inv_live_state pg disk fc lc :
  inv pg false disk fc lc → ∃ ws, rep pg disk fc lc ws ∧ hint_ok pg ∧
    (∀ p, view_read pg p = if l_pages lc <=? p then bad "snapshot page extent"
                           else read_page (p_data pg) (healthy (concat fc ++ [])) (l_committed lc) p).
Proof using HL.
  intros Hi. pose proof (inv_published _ _ _ _ _ Hi) as (Hpub & _ & _ & rest & Hw & Hrest).
  destruct Hi as [ws Hr Hf Hh|]; [|done]. exists ws. split; [exact Hr|]. split; [by apply Hh|]. intros p. unfold view_read.
  destruct (rep_committed _ _ _ _ _ Hr) as (-> & _ & ->). destruct (_ <=? p); [done|]. rewrite Hw.
  apply read_page_prefix; [apply Hpub|done|constructor|apply Hpub].
Qed.



(** C19: a writer reads what it wrote.  After a page write succeeds, the
    writer's index reads that page back, every other page reads as before, and
    no snapshot read changes. *)
Theorem read_your_writes cf data_ disk hb pg p b pg' :
  checkpointed data_ disk → reachable cf data_ hb (pg, false) → 2 ≤ p → bytes_ok b →
  page_write_at pg b (p * PAGE) = (pg', Ok tt) →
  read_page (p_data pg') (p_wal pg') (latest (st pg')) p = Ok b ∧
  (∀ q, q ≠ p → read_page (p_data pg') (p_wal pg') (latest (st pg')) q = read_page (p_data pg) (p_wal pg) (latest (st pg)) q) ∧
  (∀ q, view_read pg' q = view_read pg q).
Proof using HL.
  intros Hcp Hre Hp Hb Hwr. destruct (reachable_inv _ _ _ _ _ Hcp Hre) as (fc & lc & Hi & _). cbn [fst snd] in Hi.
  destruct (inv_live_state _ _ _ _ Hi) as (ws & Hr & Hh & Hv).
  destruct (page_write_at_rep pg disk fc lc ws p b pg' _ Hr ltac:(lia) ltac:(lia) Hb ltac:(lia) Hwr)
    as [(_ & Hr' & _ & _ & Hopen & _)|[[e He] _]]; [|done].
  destruct (page_write_at_frame _ _ _ _ _ Hwr) as (Hio & Hd & _).
  pose proof (latest_entries _ _ _ _ _ Hr) as Hent.
  destruct (rep_work _ _ _ _ _ Hr) as (Hl & _). destruct (rep_work _ _ _ _ _ Hr') as (Hl' & _).
  set (fr := wframe (identity disk) (l_tx lc)) in *.
  destruct (rep_wal_len _ _ _ _ _ Hr) as [_ Hall]. destruct (rep_wal_len _ _ _ _ _ Hr') as [_ Hall']. fold fr in Hall, Hall'.
  pose proof (pub_at _ _ _ _ (rep_pub _ _ _ _ _ Hr)) as [_ Hlast].
  assert (write_ok (identity disk) (features disk) (l_tx lc) (p, b)) as Hw.
  { pose proof (rep_ws _ _ _ _ _ Hr') as H. apply Forall_app in H as [_ H]. by rewrite Forall_singleton in H. }
  destruct (wframe_no _ _ _ _ (rep_ids _ _ _ _ _ Hr) Hw) as [Hno Hpl]. fold fr in Hno, Hpl. cbn [fst snd] in Hno, Hpl.
  split_and!.
  - rewrite (rep_wal _ _ _ _ _ Hr'). fold fr. rewrite <-(app_nil_r (concat _)).
    erewrite (read_page_entry _ _ _ _ _ (length (fc ++ map fr ws)) (fr (p, b))); [|exact Hall'|constructor| |exact Hno| |reflexivity].
    + by rewrite Hpl.
    + rewrite map_app, app_assoc. by apply list_lookup_middle.
    + rewrite Hl', log_writes_app. cbn [fst]. rewrite lookup_insert_eq. f_equal. f_equal.
      rewrite length_app, length_map, Hlast. lia.
  - intros q Hq. rewrite Hd, (rep_wal _ _ _ _ _ Hr'), (rep_wal _ _ _ _ _ Hr). fold fr.
    assert (latest (st pg') !! q = latest (st pg) !! q) as Hidx.
    { rewrite Hl, Hl', log_writes_app. cbn [fst]. by rewrite lookup_insert_ne. }
    transitivity (read_page (p_data pg) (healthy (concat (fc ++ map fr (ws ++ [(p, b)])))) (latest (st pg)) q).
    { unfold read_page. by rewrite Hidx. }
    rewrite map_app, app_assoc, concat_app. rewrite <-(app_nil_r (concat (fc ++ map fr ws))) at 2.
    apply read_page_prefix; [exact Hall| |constructor|exact Hent]. apply concat_frames_ok.
    rewrite map_app, app_assoc in Hall'. by apply Forall_app in Hall' as [_ ?].
  - intros q. assert (inv pg' false disk fc lc) as Hi'.
    { eapply live_again; [exact Hr| |exact Hh|exact Hr'|by split]. destruct Hi as [? ? Hf ?|]; [exact Hf|done]. }
    destruct (inv_live_state _ _ _ _ Hi') as (_ & _ & _ & Hv'). by rewrite Hv, Hv', Hd.
Qed.

Lemma read_hint_holds io b id fl t e :
  hint_holds io id fl t e → io = Some (healthy b) → hint_wf (mkHint id fl t e) →
  read_hint (healthy b) id = Ok (mkHint id fl t e).
Proof using HL.
  intros (b' & -> & Hlen & Hs) [= ->] Hwf. unfold read_hint, file_len. cbn [data healthy].
  rewrite (proj2 (Z.ltb_ge _ _)) by done. rewrite read_healthy by lia. cbn [rbind]. rewrite Hs.
  cbn zeta. set (h := mkHint id fl t e) in *. pose proof (blen_hint h) as Hb.
  rewrite slice_app_exact by done. rewrite (slice_app_r (hint_encode h)), slice_whole by (rewrite ?Hb; done || lia).
  unfold better_hint. rewrite hint_roundtrip by done. cbn [h_identity h]. rewrite bool_decide_true by done.
  by rewrite Z.ltb_irrefl.
Qed.


Lemma rollback_current cf pg disk lc hb pg' r :
  inspect_bounded cf (p_data pg) (p_wal pg) None = Ok (recovered disk lc) →
  s_identity (st pg) = identity disk → s_features (st pg) = features disk →
  rollback cf pg (healthy hb) NoFault = (pg', r) → hint_current (st pg') = true ∧ pages (st pg') = l_pages lc.
Proof using.
  intros Hin Hid Hfe. unfold rollback. rewrite Hin. set (s0 := set_limits _ _ _ _). rewrite Hid, Hfe.
  change (s_identity s0) with (identity disk). change (s_features s0) with (features disk).
  rewrite bool_decide_true, Z.eqb_refl by done. cbn [negb orb]. unfold finish_open, write_hint. cbn [p_hint].
  unfold load_header. destruct (rbind _ _) as [h|]; by intros [= <- _].
Qed.

End recovery.

(** * A concrete store *)
(** Three pages (two copies of the header, an empty leaf as the tree's root)
    and one session on it, evaluated with the reference checksum. *)
Section sample.
#[local] Existing Instance crc32c_reference.
#[local] Existing Instance crc32c_reference_laws.

Definition ok_val {A} (r : result error A) (d : A) : A := match r with Ok a => a | Err _ => d end.
Lemma ok_val_eq {A} (r : result error A) d : is_ok r = true → r = Ok (ok_val r d).
Proof using. by destruct r. Qed.

Definition sample_header : Header := mkHeader 2 0 (2 ^ 40) (repeat 7 16) 5 0.
Definition sample_leaf : bytes := Page.seal (Page.finalise (Page.init Page.Leaf 1 2) 0) 1.
Definition sample_data : bytes := ok_val (page_of sample_header 0) [] ++ ok_val (page_of sample_header 1) [] ++ sample_leaf.
Definition sample_pager : Pager :=
  ok_val (open_writer 0 (healthy sample_data) (healthy []) (healthy []) NoFault)
    (mkPager (healthy []) (healthy []) None (recovered sample_header (fresh_loop [] sample_header)) 0).
(** Write page 2, commit, then leave a second transaction half written. *)
Definition sample_calls : list call := [CWrite 2 sample_leaf; CCommit 2 NoFault; CPush 3; CWrite 2 sample_leaf].
Definition sample_state : Pager * bool := foldl (run_call 0) (sample_pager, false) sample_calls.

Lemma bytes_ok_forallb b : forallb (λ x, (0 <=? x) && (x <? 256)) b = true → bytes_ok b.
Proof using.
  rewrite forallb_forall. intros Hb. apply Forall_forall. intros x Hx%list_elem_of_In%Hb.
  apply andb_true_iff in Hx as [?%Z.leb_le ?%Z.ltb_lt]. split; lia.
Qed.
Lemma sample_checkpointed : checkpointed sample_data sample_header.
Proof using.
  assert (hwf sample_header) as Hh.
  { split; cbn; try (split; discriminate); [split; [split; discriminate|reflexivity]|].
    split_and!; [reflexivity|by apply bytes_ok_forallb|discriminate]. }
  split; [split|..].
  - apply bytes_ok_forallb. vm_compute. reflexivity.
  - vm_compute. reflexivity.
  - exact Hh.
  - vm_compute. reflexivity.
  - vm_compute. discriminate.
  - vm_compute. reflexivity.
  - vm_compute. reflexivity.
  - vm_compute. discriminate.
Qed.

Fixpoint calls_ok (h : Pager * bool) (cs : list call) : Prop :=
  match cs with
  | [] => True
  | c :: cs => call_ok h.1 c ∧ calls_ok (run_call 0 h c) cs
  end.
Lemma calls_steps cs : ∀ h, calls_ok h cs → rtc (step 0) h (foldl (run_call 0) h cs).
Proof using.
  induction cs as [|c cs IH]; intros [pg z] H; [apply rtc_refl|]. destruct H as [H1 H2]. cbn [foldl].
  eapply rtc_l; [by apply step_call|]. by apply IH.
Qed.
Lemma commit_ok_full pg root_ n :
  pages (st pg) = n → file_len (p_data pg) / PAGE = n → 2 ≤ root_ < n → commit_ok pg root_.
Proof using. intros Hp Hf Hr. split; [lia|]. intros p. lia. Qed.
Lemma sample_reachable : reachable 0 sample_data [] sample_state.
Proof using.
  exists sample_pager. split.
  - unfold sample_pager. apply ok_val_eq. vm_compute. reflexivity.
  - unfold sample_state. apply calls_steps. unfold sample_calls. cbn [calls_ok].
    assert (bytes_ok sample_leaf) as Hl by (apply bytes_ok_forallb; vm_compute; reflexivity).
    split; [split; [lia|exact Hl]|]. split.
    + simple refine (commit_ok_full _ _ 3 _ _ _); [vm_compute; reflexivity|vm_compute; reflexivity|split; [discriminate|reflexivity]].
    + split; [exact I|]. split; [split; [lia|exact Hl]|exact I].
Qed.
Lemma sample_live : sample_state.2 = false.
Proof using. vm_compute. reflexivity. Qed.
Lemma sample_reachable_live : reachable 0 sample_data [] (sample_state.1, false).
Proof using. pose proof sample_reachable as H. rewrite <-sample_live. by rewrite <-surjective_pairing. Qed.
(** The first commit published two frames and the commit frame; behind it are
    two page frames of the second transaction, one of them cut by the crash. *)
Lemma sample_published : last_commit (st (sample_state.1)) = 3 * FRAME ∧ end_ (st (sample_state.1)) = 5 * FRAME.
Proof using. vm_compute. by split. Qed.
Definition sample_image : bytes := slice (data (p_wal (sample_state.1))) 0 (4 * FRAME) ++ slice (data (p_wal (sample_state.1))) (4 * FRAME) 1000.
Lemma sample_crash_left : crash_left (sample_state.1) sample_image.
Proof using.
  exists 1%nat, (slice (data (p_wal (sample_state.1))) (4 * FRAME) 1000). cbn zeta.
  destruct sample_published as [-> ->]. change (3 * FRAME + FRAME * Z.of_nat 1) with (4 * FRAME).
  split_and!.
  - vm_compute. discriminate.
  - reflexivity.
  - apply bytes_ok_forallb. vm_compute. reflexivity.
  - left. vm_compute. reflexivity.
  - vm_compute. discriminate.
Qed.


Lemma ok_pair (x : Pager * result error unit) : is_ok (x.2) = true → x = (x.1, Ok tt).
Proof using. by destruct x as [pg [[]|e]]. Qed.
Lemma sample_write :
  page_write_at (sample_state.1) sample_leaf (2 * PAGE) = ((page_write_at (sample_state.1) sample_leaf (2 * PAGE)).1, Ok tt).
Proof using. apply ok_pair. vm_compute. reflexivity. Qed.
Lemma read_your_writes_witness :
  let pg' := (page_write_at (sample_state.1) sample_leaf (2 * PAGE)).1 in
  read_page (p_data pg') (p_wal pg') (latest (st pg')) 2 = Ok sample_leaf.
Proof using.
  refine (proj1 (read_your_writes 0 sample_data sample_header [] (sample_state.1) 2 sample_leaf _
    sample_checkpointed sample_reachable_live _ _ _)).
  - discriminate.
  - apply bytes_ok_forallb. vm_compute. reflexivity.
  - exact sample_write.
Defined.
Definition sample_hint_io : File := default (healthy []) (p_hint (sample_state.1)).
Lemma sample_hint_file : p_hint (sample_state.1) = Some sample_hint_io.
Proof using.
  unfold sample_hint_io. assert (bool_decide (is_Some (p_hint (sample_state.1))) = true) as H by (vm_compute; reflexivity).
  apply bool_decide_eq_true in H as [io ->]. reflexivity.
Qed.
Lemma sample_committed_pages : committed_pages (st (sample_state.1)) = 3.
Proof using. vm_compute. reflexivity. Qed.
End sample.
End Recovery.
