(* ===== verification/PgWire.v ===== *)
(** * The PostgreSQL wire ([dist/src/pg/frames.rs], and the framing and message
    bodies of [dist/src/pg/connection.rs])

    [Frames]: the messages the server writes and the reader of message bodies.
    [Connection]: the loop that cuts the client's bytes into frames, and what
    [Parse], [Bind], [Describe] and [Close] read.  A [String] is its characters;
    replacing what is not UTF-8 ([String::from_utf8_lossy]) is a parameter. *)
From S2P Require Import Prelude Utf8.
Import Utf8.

Module Frames.

Definition PROTOCOL_V3 : Z := 196608.
Definition SSL_REQUEST : Z := 80877103.
Definition GSSAPI_REQUEST : Z := 80877104.
Definition CANCEL_REQUEST : Z := 80877102.
Definition MAX_STARTUP_LEN : Z := Z.shiftl 1 20.
Definition MAX_MSG_LEN : Z := Z.shiftl 1 28.

Definition AUTHENTICATION : Z := 82.
Definition BACKEND_KEY_DATA : Z := 75.
Definition BIND_COMPLETE : Z := 50.
Definition CLOSE_COMPLETE : Z := 51.
Definition COMMAND_COMPLETE : Z := 67.
Definition DATA_ROW : Z := 68.
Definition EMPTY_QUERY_RESPONSE : Z := 73.
Definition ERROR_RESPONSE : Z := 69.
Definition NO_DATA : Z := 110.
Definition NOTICE_RESPONSE : Z := 78.
Definition NOTIFICATION_RESPONSE : Z := 65.
Definition PARAMETER_DESCRIPTION : Z := 116.
Definition PARAMETER_STATUS : Z := 83.
Definition PARSE_COMPLETE : Z := 49.
Definition PORTAL_SUSPENDED : Z := 115.
Definition READY_FOR_QUERY : Z := 90.
Definition ROW_DESCRIPTION : Z := 84.

Inductive TransactionStatus := Idle | InBlock | Failed.
Definition byte (s : TransactionStatus) : Z := match s with Idle => 73 | InBlock => 84 | Failed => 69 end.

(** ** Writers *)
Definition msg (out : bytes) (typ : Z) (body : bytes) : bytes := out ++ [typ] ++ be_bytes 4 (blen body + 4) ++ body.
Definition cstr (out : bytes) (text : list Z) : bytes := out ++ encode text ++ [0].
Definition authentication_ok (out : bytes) : bytes := msg out AUTHENTICATION (be_bytes 4 0).
Definition parameter_status (out : bytes) (key value : list Z) : bytes := msg out PARAMETER_STATUS (cstr (cstr [] key) value).
Definition backend_key_data (out : bytes) (pid secret : Z) : bytes := msg out BACKEND_KEY_DATA (be_bytes 4 pid ++ be_bytes 4 secret).
Definition ready_for_query (out : bytes) (status : TransactionStatus) : bytes := msg out READY_FOR_QUERY [byte status].
Definition command_complete (out : bytes) (tag : list Z) : bytes := msg out COMMAND_COMPLETE (cstr [] tag).
Definition empty_query_response (out : bytes) : bytes := msg out EMPTY_QUERY_RESPONSE [].
Definition no_data (out : bytes) : bytes := msg out NO_DATA [].
Definition parse_complete (out : bytes) : bytes := msg out PARSE_COMPLETE [].
Definition bind_complete (out : bytes) : bytes := msg out BIND_COMPLETE [].
Definition close_complete (out : bytes) : bytes := msg out CLOSE_COMPLETE [].
Definition portal_suspended (out : bytes) : bytes := msg out PORTAL_SUSPENDED [].
Record FieldDescription := mkField { name : list Z; type_oid : Z; type_size : Z; format : Z }.
Definition field_bytes (body : bytes) (f : FieldDescription) : bytes :=
  cstr body (name f) ++ be_bytes 4 0 ++ be_bytes 2 0 ++ be_bytes 4 (type_oid f) ++ be_bytes 2 (type_size f) ++ be_bytes 4 (-1) ++ be_bytes 2 (format f).
Definition row_description (out : bytes) (fields : list FieldDescription) : bytes :=
  msg out ROW_DESCRIPTION (foldl field_bytes (be_bytes 2 (blen fields)) fields).
Definition parameter_description (out : bytes) (oids : list Z) : bytes :=
  msg out PARAMETER_DESCRIPTION (foldl (λ body oid, body ++ be_bytes 4 oid) (be_bytes 2 (blen oids)) oids).
Definition cell_bytes (body : bytes) (cell : option bytes) : bytes :=
  match cell with None => body ++ be_bytes 4 (-1) | Some b => body ++ be_bytes 4 (blen b) ++ b end.
Definition data_row (out : bytes) (cells : list (option bytes)) : bytes :=
  msg out DATA_ROW (foldl cell_bytes (be_bytes 2 (blen cells)) cells).
Definition severity_response (out : bytes) (typ : Z) (severity sqlstate message : list Z) : bytes :=
  let body := cstr [83] severity in
  let body := cstr (body ++ [86]) severity in
  let body := cstr (body ++ [67]) sqlstate in
  let body := cstr (body ++ [77]) message in
  msg out typ (body ++ [0]).
Definition error_response (out : bytes) (sqlstate message : list Z) : bytes :=
  severity_response out ERROR_RESPONSE (ascii_bytes "ERROR") sqlstate message.
Definition notice_response (out : bytes) (sqlstate message : list Z) : bytes :=
  severity_response out NOTICE_RESPONSE (ascii_bytes "NOTICE") sqlstate message.
Definition notification_response (out : bytes) (pid : Z) (channel payload : list Z) : bytes :=
  msg out NOTIFICATION_RESPONSE (cstr (cstr (be_bytes 4 pid) channel) payload).

(** ** The reader *)
Class Lossy := { from_utf8_lossy : bytes → list Z }.
Class LossyLaws `{Lossy} := { lossy_valid s : scalars s → from_utf8_lossy (encode s) = s }.
Record Reader := mkReader { rbytes : bytes; at_ : Z; overran : bool }.
Definition new (b : bytes) : Reader := mkReader b 0 false.
Definition remaining (r : Reader) : Z := saturating_sub (blen (rbytes r)) (at_ r).
Definition read_byte (r : Reader) : Z * Reader :=
  match rbytes r !! Z.to_nat (at_ r) with
  | Some value => (value, mkReader (rbytes r) (at_ r + 1) (overran r))
  | None => (0, mkReader (rbytes r) (at_ r) true)
  end.
(** [from_be_bytes] of a signed integer. *)
Definition signed (n : nat) (x : Z) : Z := if x <? 2 ^ (8 * Z.of_nat n - 1) then x else x - 2 ^ (8 * Z.of_nat n).
Fixpoint read_buf (n : nat) (r : Reader) : bytes * Reader :=
  match n with
  | O => ([], r)
  | S n => let '(b, r) := read_byte r in let '(buf, r) := read_buf n r in (b :: buf, r)
  end.
Definition read_int (n : nat) (r : Reader) : Z * Reader := let '(buf, r) := read_buf n r in (signed n (be_num buf), r).
Definition i16 : Reader → Z * Reader := read_int 2.
Definition i32 : Reader → Z * Reader := read_int 4.
Definition read_bytes (n : Z) (r : Reader) : bytes * Reader :=
  let end_ := Z.min (saturating_add_u64 (at_ r) n) (blen (rbytes r)) in
  let from := Z.min (at_ r) (blen (rbytes r)) in
  (slice (rbytes r) from (end_ - from), mkReader (rbytes r) end_ (overran r)).
(** Up to the next NUL, or to the end. *)
Fixpoint until_nul (b : bytes) : bytes := match b with [] => [] | x :: b => if x =? 0 then [] else x :: until_nul b end.
Section cstr.
Context `{Lossy}.
Definition read_cstr (r : Reader) : list Z * Reader :=
  let text := until_nul (drop (Z.to_nat (at_ r)) (rbytes r)) in
  let at_ := at_ r + blen text in
  (from_utf8_lossy text, if at_ <? blen (rbytes r) then mkReader (rbytes r) (at_ + 1) (overran r) else mkReader (rbytes r) at_ true).
Definition cstr_at_front (body : bytes) : list Z := from_utf8_lossy (until_nul body).
End cstr.
End Frames.

Module Connection.
Import Frames.

Definition text (s : string) : list Z := ascii_bytes s.
Definition PROTOCOL_VIOLATION : list Z := text "08P01".
Record WireError := mkError { sqlstate : list Z; message : list Z }.

(** ** Message bodies *)
Section bodies.
Context `{Lossy}.
Fixpoint read_many {A} (read : Reader → A * Reader) (n : nat) (r : Reader) : list A * Reader :=
  match n with O => ([], r) | S n => let '(x, r) := read r in let '(xs, r) := read_many read n r in (x :: xs, r) end.
(** A count is believed only as far as the body can hold. *)
Definition believed (count size : Z) (r : Reader) : bool := negb ((count <? 0) || (remaining r <? Z.min (count * size) u64_max)).
Definition read_counted (size : Z) (read : Reader → Z * Reader) (why : string) (r : Reader) : result WireError (list Z * Reader) :=
  let '(count, r) := i16 r in
  guard believed count size r else mkError PROTOCOL_VIOLATION (text why);
  Ok (read_many read (Z.to_nat count) r).
(** [Parse]: the statement's name, its text, the declared parameter types. *)
Definition parse_body (body : bytes) : result WireError (list Z * list Z * list Z) :=
  let '(name, r) := read_cstr (new body) in
  let '(sql, r) := read_cstr r in
  let* (param_oids, _) := read_counted 4 i32 "invalid parameter type count in Parse" r in
  Ok (name, sql, param_oids).
Definition format_at (formats : list Z) (at_ : nat) : Z :=
  match formats with [] => 0 | [f] => f | _ => default 0 (formats !! at_) end.

Section bind.
(** [types::decode_param] and the prepared statements. *)
Context {Param : Type} (decode_param : option bytes → Z → Z → result WireError Param) (statements : list Z → option (list Z)).
Definition read_param (r : Reader) : option bytes * Reader :=
  let '(len, r) := i32 r in
  if len <? 0 then (None, r) else let '(b, r) := read_bytes len r in (Some b, r).
Fixpoint read_params (count at_ : nat) (formats oids : list Z) (r : Reader) : result WireError (list Param * Reader) :=
  match count with
  | O => Ok ([], r)
  | S count =>
      let '(b, r) := read_param r in
      let* param := decode_param b (default 0 (oids !! at_)) (format_at formats at_) in
      let* (params, r) := read_params count (S at_) formats oids r in
      Ok (param :: params, r)
  end.
Definition no_statement (name : list Z) : WireError :=
  mkError (text "26000") (text "prepared statement " ++ [34] ++ name ++ [34] ++ text " does not exist").
(** [Bind]: the portal's name, its parameters, the result formats. *)
Definition bind_body (body : bytes) : result WireError (list Z * list Param * list Z) :=
  let '(portal_name, r) := read_cstr (new body) in
  let '(statement_name, r) := read_cstr r in
  let* oids := ok_or (statements statement_name) (no_statement statement_name) in
  let* (param_formats, r) := read_counted 2 i16 "invalid parameter format code count in Bind" r in
  let '(params_count, r) := i16 r in
  guard believed params_count 4 r else mkError PROTOCOL_VIOLATION (text "invalid parameter count in Bind");
  let* (params, r) := read_params (Z.to_nat params_count) 0 param_formats oids r in
  let* (result_formats, _) := read_counted 2 i16 "invalid result format code count in Bind" r in
  Ok (portal_name, params, result_formats).
End bind.
(** [Describe] and [Close]: what kind of thing, and its name. *)
Definition target_body (body : bytes) : result WireError (Z * list Z) :=
  let '(kind, r) := read_byte (new body) in
  let '(name, r) := read_cstr r in
  guard negb (overran r) else mkError PROTOCOL_VIOLATION (text "a Describe or Close message shorter than its type byte and name");
  Ok (kind, name).
End bodies.

(** ** The framing loop

    What a startup packet and a message do is the session's. *)
Section feed.
Context {S : Type} (closed started : S → bool) (close : S → S).
Context (startup : bytes → S → S * bytes) (message_ : Z → bytes → S → S * bytes) (idle : S → S).
(** [i32 as usize]: a negative length is larger than any buffer. *)
Definition as_usize (x : Z) : Z := x mod 2 ^ 64.
Definition length_at (buf : bytes) (off : Z) : Z := as_usize (signed 4 (be_num (slice buf off 4))).
Inductive frame := Startup (len : Z) | Message (len : Z) | Invalid (why : string) | Wait.
Definition next_frame (s : S) (buf : bytes) : frame :=
  if negb (started s) then
    if blen buf <? 4 then Wait else
    let len := length_at buf 0 in
    if (len <? 8) || (MAX_STARTUP_LEN <? len) then Invalid "invalid startup packet" else
    if blen buf <? len then Wait else Startup len
  else
    if blen buf <? 5 then Wait else
    let len := length_at buf 1 in
    if (len <? 4) || (MAX_MSG_LEN <? len) then Invalid "invalid message length" else
    if blen buf <? 1 + len then Wait else Message (1 + len).
(** Every frame takes bytes, so the buffer's length is fuel enough. *)
Fixpoint feed_loop (fuel : nat) (s : S) (buf out : bytes) : S * bytes * bytes :=
  match fuel with
  | O => (s, buf, out)
  | Datatypes.S fuel =>
      if closed s then (s, buf, out) else
      match next_frame s buf with
      | Wait => (s, buf, out)
      | Invalid why => (close s, buf, error_response out PROTOCOL_VIOLATION (text why))
      | Startup len =>
          let '(s, reply) := startup (slice buf 0 len) s in
          feed_loop fuel s (drop (Z.to_nat len) buf) (out ++ reply)
      | Message total =>
          let '(s, reply) := message_ (byte_at buf 0) (slice buf 5 (total - 5)) s in
          feed_loop fuel s (drop (Z.to_nat total) buf) (out ++ reply)
      end
  end.
(** The state is the session and the bytes not yet a frame. *)
Definition feed (state : S * bytes) (data : bytes) : S * bytes * bytes :=
  let buf := state.2 ++ data in
  let '(s, rest, out) := feed_loop (Datatypes.S (length buf)) state.1 buf [] in
  (idle s, rest, out).
Fixpoint feed_all (state : S * bytes) (chunks : list bytes) : S * bytes * bytes :=
  match chunks with
  | [] => (state.1, state.2, [])
  | c :: chunks =>
      let '(s, rest, out) := feed state c in
      let '(s, rest, out') := feed_all (s, rest) chunks in (s, rest, out ++ out')
  end.
End feed.

(** * Framing *)
Section framing.
Context {S : Type} (closed started : S → bool) (close : S → S).
Context (startup : bytes → S → S * bytes) (message_ : Z → bytes → S → S * bytes).
Hypothesis closed_close : ∀ s, closed (close s) = true.
#[local] Abbreviation loop := (feed_loop closed started close startup message_).
#[local] Abbreviation next := (next_frame started).

Lemma next_frame_len s buf :
  match next s buf with
  | Startup len => 8 ≤ len ≤ blen buf
  | Message total => 5 ≤ total ≤ blen buf
  | _ => True
  end.
Proof using.
  unfold next_frame. destruct (negb (started s)).
  - destruct (blen buf <? 4); [done|]. cbv zeta. destruct (_ || _) eqn:Ho; [done|]. destruct (Z.ltb_spec (blen buf) (length_at buf 0)); [done|].
    apply orb_false_iff in Ho as [?%Z.ltb_ge _]. lia.
  - destruct (blen buf <? 5); [done|]. cbv zeta. destruct (_ || _) eqn:Ho; [done|]. destruct (Z.ltb_spec (blen buf) (1 + length_at buf 1)); [done|].
    apply orb_false_iff in Ho as [?%Z.ltb_ge _]. lia.
Qed.
(** More bytes do not change a frame that is there. *)
Lemma next_frame_app s buf b : next s buf ≠ Wait → next s (buf ++ b) = next s buf.
Proof using.
  unfold next_frame. rewrite blen_app. pose proof (blen_nonneg b). destruct (negb (started s)).
  - destruct (Z.ltb_spec (blen buf) 4); [done|]. rewrite (proj2 (Z.ltb_ge (blen buf + blen b) 4)) by lia.
    assert (length_at (buf ++ b) 0 = length_at buf 0) as -> by (unfold length_at; by rewrite slice_app_l by lia). cbv zeta.
    destruct (_ || _); [done|]. destruct (Z.ltb_spec (blen buf) (length_at buf 0)); [done|]. by rewrite (proj2 (Z.ltb_ge _ _)) by lia.
  - destruct (Z.ltb_spec (blen buf) 5); [done|]. rewrite (proj2 (Z.ltb_ge (blen buf + blen b) 5)) by lia.
    assert (length_at (buf ++ b) 1 = length_at buf 1) as -> by (unfold length_at; by rewrite slice_app_l by lia). cbv zeta.
    destruct (_ || _); [done|]. destruct (Z.ltb_spec (blen buf) (1 + length_at buf 1)); [done|]. by rewrite (proj2 (Z.ltb_ge _ _)) by lia.
Qed.
Lemma error_response_app out state why : error_response out state why = out ++ error_response [] state why.
Proof using. done. Qed.
Lemma loop_out fuel : ∀ s buf out, loop fuel s buf out = let '(s', rest, o) := loop fuel s buf [] in (s', rest, out ++ o).
Proof using.
  induction fuel as [|fuel IH]; intros s buf out; cbn [feed_loop]; [by rewrite app_nil_r|].
  destruct (closed s); [by rewrite app_nil_r|]. destruct (next s buf).
  - destruct (startup _ s) as [s1 reply]. rewrite (IH _ _ (out ++ reply)), (IH _ _ ([] ++ reply)).
    destruct (loop fuel s1 _ []) as [[s2 rest] o]. by rewrite <-!app_assoc.
  - destruct (message_ _ _ s) as [s1 reply]. rewrite (IH _ _ (out ++ reply)), (IH _ _ ([] ++ reply)).
    destruct (loop fuel s1 _ []) as [[s2 rest] o]. by rewrite <-!app_assoc.
  - done.
  - by rewrite app_nil_r.
Qed.
Lemma loop_fuel n : ∀ m s buf out, (length buf < n)%nat → (length buf < m)%nat → loop n s buf out = loop m s buf out.
Proof using.
  induction n as [|n IH]; intros m s buf out Hn Hm; [lia|]. destruct m as [|m]; [lia|]. cbn [feed_loop]. destruct (closed s); [done|].
  pose proof (next_frame_len s buf) as Hl. unfold blen in Hl. destruct (next s buf); [| |done..].
  - destruct (startup _ s) as [s1 reply]. apply IH; rewrite length_drop; lia.
  - destruct (message_ _ _ s) as [s1 reply]. apply IH; rewrite length_drop; lia.
Qed.
(** What is left holds no frame. *)
Lemma loop_settled n : ∀ s buf out s1 rest o, (length buf < n)%nat → loop n s buf out = (s1, rest, o) →
  loop (Datatypes.S (length rest)) s1 rest [] = (s1, rest, []).
Proof using closed_close.
  induction n as [|n IH]; intros s buf out s1 rest o Hn Hl; [lia|]. cbn [feed_loop] in Hl. destruct (closed s) eqn:Hc.
  { injection Hl as <- <- _. cbn [feed_loop]. by rewrite Hc. }
  pose proof (next_frame_len s buf) as Hlen. unfold blen in Hlen. destruct (next s buf) as [len|total|why|] eqn:Hf.
  - destruct (startup _ s) as [s2 reply]. eapply IH, Hl. rewrite length_drop. lia.
  - destruct (message_ _ _ s) as [s2 reply]. eapply IH, Hl. rewrite length_drop. lia.
  - injection Hl as <- <- _. cbn [feed_loop]. by rewrite closed_close.
  - injection Hl as <- <- _. cbn [feed_loop]. by rewrite Hc, Hf.
Qed.
(** Bytes that arrive in two pieces are framed as one. *)
Lemma loop_app n : ∀ s buf b out (fuel : bytes → nat),
  (length buf < n)%nat → (∀ x, (length x < fuel x)%nat) →
  loop (fuel (buf ++ b)) s (buf ++ b) out = let '(s1, rest, out1) := loop n s buf out in loop (fuel (rest ++ b)) s1 (rest ++ b) out1.
Proof using closed_close.
  induction n as [|n IH]; intros s buf b out fuel Hn Hfuel; [lia|].
  assert (∀ s1 rest out1, (length rest < length buf)%nat → loop (length (buf ++ b)) s1 (rest ++ b) out1 =
    let '(s2, rest2, out2) := loop n s1 rest out1 in loop (fuel (rest2 ++ b)) s2 (rest2 ++ b) out2) as Hrest.
  { intros s1 rest out1 Hr. rewrite <-IH by (done || lia). apply loop_fuel; [rewrite !length_app; lia|apply Hfuel]. }
  rewrite (loop_fuel _ (Datatypes.S (length (buf ++ b)))) by (apply Hfuel || lia).
  pose proof (next_frame_len s buf) as Hl. pose proof (next_frame_app s buf b) as Ha. unfold blen in Hl.
  destruct (closed s) eqn:Hc; [|destruct (next s buf) as [len|total|why|] eqn:Hf].
  - cbn [feed_loop]. rewrite Hc. destruct (fuel (buf ++ b)) eqn:Hfu; [specialize (Hfuel (buf ++ b)); lia|]. cbn [feed_loop]. by rewrite Hc.
  - cbn [feed_loop]. rewrite Hc, Ha, Hf by done. rewrite slice_app_l by (unfold blen; lia). destruct (startup _ s) as [s1 reply].
    rewrite drop_app_le by lia. apply Hrest. rewrite length_drop. lia.
  - cbn [feed_loop]. rewrite Hc, Ha, Hf by done. rewrite slice_app_l by (unfold blen; lia).
    replace (byte_at (buf ++ b) 0) with (byte_at buf 0) by (unfold byte_at; rewrite !list_lookup_total_alt, lookup_app_l by lia; done).
    destruct (message_ _ _ s) as [s1 reply]. rewrite drop_app_le by lia. apply Hrest. rewrite length_drop. lia.
  - cbn [feed_loop]. rewrite Hc, Ha, Hf by done. destruct (fuel (buf ++ b)) eqn:Hfu; [specialize (Hfuel (buf ++ b)); lia|].
    cbn [feed_loop]. by rewrite closed_close.
  - rewrite (loop_fuel _ (fuel (buf ++ b))) by (apply Hfuel || lia). cbn [feed_loop]. by rewrite Hc, Hf.
Qed.

End framing.

(** * Bodies *)
Section reading.
Context `{LL : LossyLaws}.
(** The reader of a frame's body, with [b] still unread. *)
Definition unread (r : Reader) (b : bytes) : Prop :=
  overran r = false ∧ ∃ pre, rbytes r = pre ++ b ∧ at_ r = blen pre ∧ blen (rbytes r) ≤ MAX_MSG_LEN.
Lemma unread_new b : blen b ≤ MAX_MSG_LEN → unread (new b) b.
Proof using. intros. split; [done|]. by exists []. Qed.
Lemma unread_advance bs pre u b n :
  bs = pre ++ u ++ b → blen bs ≤ MAX_MSG_LEN → n = blen pre + blen u → unread (mkReader bs n false) b.
Proof using. intros -> Hb ->. split; [done|]. exists (pre ++ u). cbn. by rewrite <-app_assoc, blen_app. Qed.
Lemma unread_remaining r b : unread r b → remaining r = blen b.
Proof using.
  intros [_ (pre & Hr & Ha & _)]. unfold remaining, saturating_sub. rewrite Hr, Ha, blen_app. pose proof (blen_nonneg b). lia.
Qed.
Lemma unread_byte r x b : unread r (x :: b) → ∃ r', read_byte r = (x, r') ∧ unread r' b.
Proof using.
  intros [Ho (pre & Hr & Ha & Hb)]. unfold read_byte. rewrite Hr, Ha, list_lookup_middle by (unfold blen; lia). rewrite <-Hr, Ho.
  eexists. split; [done|]. by apply (unread_advance _ pre [x]).
Qed.
Lemma unread_buf u r b : unread r (u ++ b) → ∃ r', read_buf (length u) r = (u, r') ∧ unread r' b.
Proof using.
  revert r. induction u as [|x u IH]; intros r Hr; [by eexists|]. destruct (unread_byte r x (u ++ b) Hr) as (r1 & H1 & Hr1).
  destruct (IH r1 Hr1) as (r2 & H2 & Hr2). cbn [length read_buf]. rewrite H1, H2. eauto.
Qed.
Definition fits_signed (n : nat) (x : Z) : Prop := - 2 ^ (8 * Z.of_nat n - 1) ≤ x < 2 ^ (8 * Z.of_nat n - 1).
Lemma signed_be_bytes n x : (0 < n)%nat → fits_signed n x → signed n (be_num (be_bytes n x)) = x.
Proof using.
  intros Hn Hx. rewrite be_num_be_bytes. unfold signed, fits_signed in *. change 256 with (2 ^ 8). rewrite <-Z.pow_mul_r by lia.
  set (m := 8 * Z.of_nat n) in *. assert (2 ^ m = 2 * 2 ^ (m - 1)) as Hm by (rewrite <-Z.pow_succ_r by lia; f_equal; lia).
  rewrite Hm. set (h := 2 ^ (m - 1)) in *. destruct (Z_le_dec 0 x).
  - rewrite Z.mod_small by lia. by rewrite (proj2 (Z.ltb_lt _ _)) by lia.
  - assert (x mod (2 * h) = x + 2 * h) as -> by (symmetry; apply (Z.mod_unique_pos x (2 * h) (-1)); lia).
    rewrite (proj2 (Z.ltb_ge _ _)) by lia. lia.
Qed.
Lemma unread_int n x r b : (0 < n)%nat → fits_signed n x → unread r (be_bytes n x ++ b) → ∃ r', read_int n r = (x, r') ∧ unread r' b.
Proof using.
  intros Hn Hx Hr. destruct (unread_buf _ _ _ Hr) as (r' & Hb & Hr'). rewrite length_be_bytes in Hb.
  exists r'. unfold read_int. rewrite Hb, signed_be_bytes by done. done.
Qed.
Lemma unread_bytes u r b : unread r (u ++ b) → ∃ r', read_bytes (blen u) r = (u, r') ∧ unread r' b.
Proof using.
  intros [Ho (pre & Hr & Ha & Hb)]. pose proof (blen_nonneg pre). pose proof (blen_nonneg u). pose proof (blen_nonneg b).
  assert (blen (rbytes r) = blen pre + (blen u + blen b)) as Hl by (by rewrite Hr, !blen_app).
  assert (saturating_add_u64 (at_ r) (blen u) = blen pre + blen u) as Hs.
  { unfold saturating_add_u64. rewrite Ha. unfold MAX_MSG_LEN, u64_max in *. change (Z.shiftl 1 28) with 268435456 in Hb. lia. }
  unfold read_bytes. rewrite Hs, Ho, Hl, Ha, !Z.min_l by lia.
  exists (mkReader (rbytes r) (blen pre + blen u) false). split; [|by apply (unread_advance _ pre u)].
  f_equal. rewrite Hr. replace (blen pre + blen u - blen pre) with (blen u) by lia.
  rewrite slice_app_r, Z.sub_diag by lia. by apply slice_app_exact.
Qed.
Definition c_string (t : list Z) : Prop := scalars t ∧ 0 ∉ t.
Lemma encode_no_nul t : c_string t → 0 ∉ encode t.
Proof using.
  intros [Ht H0]. induction Ht as [|c t Hc Ht IH]; [by intros ?%elem_of_nil|]. rewrite encode_cons, elem_of_app.
  apply not_elem_of_cons in H0 as [Hc0 H0]. intros [Hin|Hin]; [|by apply IH]. apply is_scalar_spec in Hc.
  unfold encode_char in Hin. repeat case_match; rewrite ?elem_of_cons, ?elem_of_nil in Hin; Z.to_euclidean_division_equations; lia.
Qed.
Lemma until_nul_app u b : 0 ∉ u → until_nul (u ++ 0 :: b) = u.
Proof using.
  induction u as [|x u IH]; intros Hu; [done|]. apply not_elem_of_cons in Hu as [Hx Hu]. simpl. rewrite (proj2 (Z.eqb_neq x 0)) by done. by rewrite IH.
Qed.
Lemma unread_cstr t r b : c_string t → unread r (encode t ++ [0] ++ b) → ∃ r', read_cstr r = (t, r') ∧ unread r' b.
Proof using LL.
  intros Ht [Ho (pre & Hr & Ha & Hb)]. pose proof (encode_no_nul t Ht) as Hn. destruct Ht as [Ht _]. simpl app in Hr. unfold read_cstr.
  rewrite Ha, Hr. replace (Z.to_nat (blen pre)) with (length pre) by (unfold blen; lia). rewrite drop_app_length.
  rewrite until_nul_app, lossy_valid by done. rewrite <-Hr, Ho.
  assert (blen (rbytes r) = blen pre + (blen (encode t) + (1 + blen b))) as Hl by (by rewrite Hr, !blen_app, blen_cons).
  pose proof (blen_nonneg b). rewrite (proj2 (Z.ltb_lt _ _)) by lia. eexists. split; [done|].
  apply (unread_advance _ pre (encode t ++ [0])); [by rewrite Hr, <-app_assoc|done|]. rewrite blen_app. change (blen [0]) with 1. lia.
Qed.

(** ** Packed messages *)
Definition ints (n : nat) (l : list Z) : bytes := concat (map (be_bytes n) l).
Definition counted (n : nat) (l : list Z) : bytes := be_bytes 2 (blen l) ++ ints n l.
Definition parse_message (name sql : list Z) (oids : list Z) : bytes := cstr (cstr [] name) sql ++ counted 4 oids.
Definition bind_message (portal statement : list Z) (formats : list Z) (params : list (option bytes)) (results : list Z) : bytes :=
  cstr (cstr [] portal) statement ++ counted 2 formats ++ be_bytes 2 (blen params) ++ concat (map (cell_bytes []) params) ++ counted 2 results.
Definition count_ok {A} (l : list A) : Prop := blen l < 2 ^ 15.
Lemma count_fits {A} (l : list A) : count_ok l → fits_signed 2 (blen l).
Proof using. unfold count_ok, fits_signed. pose proof (blen_nonneg l). change (2 ^ (8 * Z.of_nat 2 - 1)) with (2 ^ 15). lia. Qed.
Lemma unread_many n l r b :
  (0 < n)%nat → Forall (fits_signed n) l → unread r (ints n l ++ b) →
  ∃ r', read_many (read_int n) (length l) r = (l, r') ∧ unread r' b.
Proof using.
  intros Hn Hl. revert r. induction Hl as [|x l Hx _ IH]; intros r Hr; [by eexists|].
  change (ints n (x :: l)) with (be_bytes n x ++ ints n l) in Hr. rewrite <-app_assoc in Hr.
  destruct (unread_int n x r _ Hn Hx Hr) as (r1 & H1 & Hr1). destruct (IH r1 Hr1) as (r2 & H2 & Hr2).
  cbn [length read_many]. rewrite H1, H2. eauto.
Qed.
Lemma blen_ints n l : blen (ints n l) = Z.of_nat n * blen l.
Proof using.
  induction l as [|x l IH]; [unfold blen; simpl; lia|]. change (ints n (x :: l)) with (be_bytes n x ++ ints n l).
  rewrite blen_app, IH, blen_be_bytes, blen_cons. lia.
Qed.
Lemma believed_ok {A} (l : list A) n r b : unread r b → blen l * n ≤ blen b → believed (blen l) n r = true.
Proof using.
  intros Hr Hn. unfold believed. rewrite (unread_remaining r b Hr). pose proof (blen_nonneg l).
  rewrite (proj2 (Z.ltb_ge (blen l) 0)), (proj2 (Z.ltb_ge (blen b) _)) by lia. done.
Qed.
Lemma unread_counted n l why r b :
  (0 < n)%nat → count_ok l → Forall (fits_signed n) l → unread r (counted n l ++ b) →
  ∃ r', read_counted (Z.of_nat n) (read_int n) why r = Ok (l, r') ∧ unread r' b.
Proof using.
  intros Hn Hc Hl Hr. unfold counted in Hr. rewrite <-app_assoc in Hr.
  destruct (unread_int 2 (blen l) r _ ltac:(lia) (count_fits l Hc) Hr) as (r1 & H1 & Hr1).
  destruct (unread_many n l r1 b Hn Hl Hr1) as (r2 & H2 & Hr2). exists r2. split; [|done].
  unfold read_counted, i16. rewrite H1. rewrite (believed_ok l _ r1 _ Hr1) by (rewrite blen_app, blen_ints; pose proof (blen_nonneg b); lia).
  cbn [negb refuse_if rbind]. replace (Z.to_nat (blen l)) with (length l) by (unfold blen; lia). by rewrite H2.
Qed.
Lemma cstr_app out t : cstr out t = out ++ encode t ++ [0].
Proof using. done. Qed.
Lemma unread_cstrs t u r b :
  c_string t → c_string u → unread r (cstr (cstr [] t) u ++ b) →
  ∃ r1 r2, read_cstr r = (t, r1) ∧ read_cstr r1 = (u, r2) ∧ unread r2 b.
Proof using LL.
  intros Ht Hu Hr. rewrite !cstr_app, app_nil_l, <-!app_assoc in Hr.
  destruct (unread_cstr t r _ Ht Hr) as (r1 & H1 & Hr1). destruct (unread_cstr u r1 _ Hu Hr1) as (r2 & H2 & Hr2). eauto 6.
Qed.

Section bind_reading.
Context {Param : Type} (decode_param : option bytes → Z → Z → result WireError Param) (statements : list Z → option (list Z)).
(** The parameters decoded one by one, each by its own type and format. *)
Fixpoint decode_all (params : list (option bytes)) (at_ : nat) (formats oids : list Z) : result WireError (list Param) :=
  match params with
  | [] => Ok []
  | b :: params =>
      let* param := decode_param b (default 0 (oids !! at_)) (format_at formats at_) in
      let* rest := decode_all params (S at_) formats oids in
      Ok (param :: rest)
  end.
Definition cell_ok (cell : option bytes) : Prop := match cell with None => True | Some b => blen b < 2 ^ 31 end.
Lemma unread_param cell r b : cell_ok cell → unread r (cell_bytes [] cell ++ b) → ∃ r', read_param r = (cell, r') ∧ unread r' b.
Proof using.
  intros Hc Hr. unfold read_param, i32. destruct cell as [u|]; unfold cell_bytes in Hr; rewrite app_nil_l in Hr.
  - rewrite <-app_assoc in Hr. cbn in Hc. pose proof (blen_nonneg u).
    destruct (unread_int 4 (blen u) r _ ltac:(lia) ltac:(unfold fits_signed; change (2 ^ (8 * Z.of_nat 4 - 1)) with (2 ^ 31); lia) Hr) as (r1 & -> & Hr1).
    rewrite (proj2 (Z.ltb_ge _ _)) by lia. destruct (unread_bytes u r1 b Hr1) as (r2 & -> & Hr2). eauto.
  - destruct (unread_int 4 (-1) r _ ltac:(lia) ltac:(unfold fits_signed; change (2 ^ (8 * Z.of_nat 4 - 1)) with (2 ^ 31); lia) Hr) as (r1 & -> & Hr1). eauto.
Qed.
Lemma unread_params params formats oids b : ∀ at_ r,
  Forall cell_ok params → unread r (concat (map (cell_bytes []) params) ++ b) →
  match decode_all params at_ formats oids with
  | Ok vals => ∃ r', read_params decode_param (length params) at_ formats oids r = Ok (vals, r') ∧ unread r' b
  | Err e => read_params decode_param (length params) at_ formats oids r = Err e
  end.
Proof using.
  induction params as [|p params IH]; intros at_ r Hp Hr; [by eexists|]. apply Forall_cons in Hp as [Hc Hp].
  cbn [map concat] in Hr. rewrite <-app_assoc in Hr. destruct (unread_param p r _ Hc Hr) as (r1 & H1 & Hr1).
  cbn [decode_all length read_params]. rewrite H1. destruct (decode_param _ _ _) as [v|e]; [|done]. cbn [rbind].
  specialize (IH (S at_) r1 Hp Hr1). destruct (decode_all params _ _ _) as [vals|e]; cbn [rbind].
  - destruct IH as (r2 & -> & Hr2). eauto.
  - by rewrite IH.
Qed.
Lemma blen_cells params : 4 * blen params ≤ blen (concat (map (cell_bytes []) params)).
Proof using.
  induction params as [|p params IH]; [done|]. cbn [map concat]. rewrite blen_app, blen_cons.
  assert (4 ≤ blen (cell_bytes [] p)); [|lia]. destruct p as [u|]; unfold cell_bytes; rewrite ?blen_app, blen_be_bytes; [pose proof (blen_nonneg u)|]; change (blen (@nil Z)) with 0; lia.
Qed.

(** C36: what a client packs is what the server reads.  A [Parse] body gives
    back its name, text and parameter types; a [Bind] body, its portal, its
    result formats and each parameter decoded from its own bytes, null or not,
    by its declared type and its format, the first failure reported; and a [Bind]
    of an unknown statement is refused by name. *)
Theorem pg_messages_read_back name sql types portal statement formats params results :
  c_string name → c_string sql → c_string portal → c_string statement →
  count_ok types → count_ok formats → count_ok params → count_ok results →
  Forall (fits_signed 4) types → Forall (fits_signed 2) formats → Forall (fits_signed 2) results → Forall cell_ok params →
  blen (parse_message name sql types) ≤ MAX_MSG_LEN → blen (bind_message portal statement formats params results) ≤ MAX_MSG_LEN →
  parse_body (parse_message name sql types) = Ok (name, sql, types) ∧
  bind_body decode_param statements (bind_message portal statement formats params results) =
    let* oids := ok_or (statements statement) (no_statement statement) in
    let* vals := decode_all params 0 formats oids in
    Ok (portal, vals, results).
Proof using LL.
  intros Hname Hsql Hportal Hst Hct Hcf Hcp Hcr Ht Hf Hr Hp Hlp Hlb. split.
  - unfold parse_body. pose proof (unread_new _ Hlp) as Hn. destruct (unread_cstrs name sql _ _ Hname Hsql Hn) as (r1 & r2 & -> & -> & Hr2).
    rewrite <-(app_nil_r (counted 4 types)) in Hr2.
    destruct (unread_counted 4 types "invalid parameter type count in Parse" r2 [] ltac:(lia) Hct Ht Hr2) as (r3 & H3 & _).
    unfold i32. change 4 with (Z.of_nat 4) at 1. by rewrite H3.
  - unfold bind_body. pose proof (unread_new _ Hlb) as Hn. destruct (unread_cstrs portal statement _ _ Hportal Hst Hn) as (r1 & r2 & -> & -> & Hr2).
    destruct (ok_or _ _) as [oids|e]; [|done]. cbn [rbind].
    destruct (unread_counted 2 formats "invalid parameter format code count in Bind" r2 _ ltac:(lia) Hcf Hf Hr2) as (r3 & H3 & Hr3).
    unfold i16 at 1. change 2 with (Z.of_nat 2) at 1. rewrite H3. cbn [rbind].
    destruct (unread_int 2 (blen params) r3 _ ltac:(lia) (count_fits params Hcp) Hr3) as (r4 & H4 & Hr4).
    unfold i16 at 1. rewrite H4.
    rewrite (believed_ok params 4 r4 _ Hr4) by (rewrite blen_app; pose proof (blen_cells params); pose proof (blen_nonneg (counted 2 results)); lia).
    cbn [negb refuse_if rbind]. replace (Z.to_nat (blen params)) with (length params) by (unfold blen; lia).
    pose proof (unread_params params formats oids (counted 2 results) 0 r4 Hp Hr4) as H5. destruct (decode_all _ _ _ _) as [vals|e]; [|by rewrite H5].
    destruct H5 as (r5 & -> & Hr5). cbn [rbind]. rewrite <-(app_nil_r (counted 2 results)) in Hr5.
    destruct (unread_counted 2 results "invalid result format code count in Bind" r5 [] ltac:(lia) Hcr Hr Hr5) as (r6 & H6 & _).
    unfold i16. change 2 with (Z.of_nat 2) at 1. by rewrite H6.
Qed.
End bind_reading.
End reading.

(** * Samples *)
Section sample.
#[local] Instance sample_lossy : Lossy := {| from_utf8_lossy b := default [65533] (decode b) |}.
#[local] Instance sample_lossy_laws : LossyLaws.
Proof. split. intros s Hs. cbn. by rewrite utf8_decode_encode. Qed.
(** A session that answers what it is sent, and ends at [Terminate]. *)
Definition echo_startup (frame : bytes) (s : bool * bool) : bool * bool * bytes := ((true, s.2), authentication_ok []).
Definition echo_message (typ : Z) (body : bytes) (s : bool * bool) : bool * bool * bytes := ((s.1, s.2 || (typ =? 88)), msg [] typ body).
Definition echo_feed (s : bool * bool) (chunks : list bytes) :=
  feed_all snd fst (λ s, (s.1, true)) echo_startup echo_message (λ s, s) (s, []) chunks.
Definition raw_param (b : option bytes) (oid format : Z) : result WireError (option bytes) := Ok b.
Definition one_statement (name : list Z) : option (list Z) := if bool_decide (name = [115]) then Some [23] else None.
Lemma pg_messages_read_back_witness :
  parse_body (parse_message [115] [233; 49] [23; -1]) = Ok ([115], [233; 49], [23; -1]) ∧
  bind_body raw_param one_statement (bind_message [112] [115] [1] [Some [0; 7]; None] [0]) =
    let* oids := ok_or (one_statement [115]) (no_statement [115]) in
    let* vals := decode_all raw_param [Some [0; 7]; None] 0 [1] oids in
    Ok ([112], vals, [0]).
Proof.
  apply (pg_messages_read_back raw_param one_statement [115] [233; 49] [23; -1] [112] [115] [1] [Some [0; 7]; None] [0]);
    first [by repeat constructor|by split; [repeat constructor|set_solver]|by vm_compute].
Defined.
(** A [Bind] that declares a parameter of a hundred bytes and holds one: the
    parameter is cut short, the missing result count reads as zero, and the
    message is accepted. *)
Definition short_bind : bytes := [112; 0; 115; 0; 0; 0; 0; 1; 0; 0; 0; 100; 7].
Example short_bind_accepted : bind_body raw_param one_statement short_bind = Ok ([112], [Some [7]], []).
Proof. vm_compute. reflexivity. Qed.
End sample.
End Connection.
