(* ===== verification/Cells.v ===== *)
(** * Records of tree pages ([core/kernel/src/btree.rs], [decode_record] of
    [core/kernel/src/verify.rs])

    A leaf slot holds a key and a value in one of three encodings, or a key and
    the marker of a value spilled to overflow pages; an interior slot a key and a
    child page.  Disk bytes enter through the fallible [decode_record]; what it
    accepted is then read by the [validated_] helpers, which index without
    checks.  An index out of range is [None]. *)
From S2P Require Import Prelude Page.
Import Page.

Module Cells.

Definition OVERFLOW_VLEN : Z := 65535.

Inductive DecodedRecord :=
  | DLeaf (key value : bytes) (overflow : bool)
  | DInterior (key : bytes) (child : Z).

Definition corrupt {A} (no : Z) (why : string) : result error A := Err (Corrupt no why).
(** [rec.get(from..to)]. *)
Definition get_range (rec : bytes) (from to : Z) : option bytes :=
  if (from <=? to) && (to <=? blen rec) then Some (slice rec from (to - from)) else None.
(** [&rec[from..]] for a position inside. *)
Definition rest (rec : bytes) (from : Z) : bytes := slice rec from (blen rec - from).
(** [(0x81..=0x88).contains(b)]: the width tag of an integer key. *)
Definition int_tag (b : Z) : bool := (129 <=? b) && (b <=? 136).
(** [b & 0xf0 == 0x40]: the high byte of a compact key length. *)
Definition compact_tag (b : Z) : bool := Z.land b 240 =? 64.

(** ** The decoder *)
Definition decode_record (rec : bytes) (page_no : Z) (kd : PageKind) : result error DecodedRecord :=
  let second p := match rec !! 1%nat with Some b => p b | None => false end in
  let leaf := bool_decide (kd = Leaf) in
  if leaf && bool_decide (rec !! 0%nat = Some 255) && second int_tag then
    let end_ := 2 + (byte_at rec 1 - 128) in
    let* key := ok_or (get_range rec 1 end_) (Corrupt page_no "compact integer key crosses its slot") in
    Ok (DLeaf key (rest rec end_) false)
  else if leaf && second compact_tag then
    let end_ := 2 + Z.land (rd_u16 rec 0) 4095 in
    let* key := ok_or (get_range rec 2 end_) (Corrupt page_no "compact key crosses its slot") in
    Ok (DLeaf key (rest rec end_) false)
  else
    let* klen_bytes := ok_or (get_range rec 0 2) (Corrupt page_no "record has no key length") in
    let key_end := 2 + le_num klen_bytes in
    let* key := ok_or (get_range rec 2 key_end) (Corrupt page_no "record key crosses its slot") in
    match kd with
    | Interior =>
        let end_ := key_end + 4 in
        guard end_ =? blen rec else Corrupt page_no "interior record length does not match its slot";
        Ok (DInterior key (le_num (slice rec key_end 4)))
    | Leaf =>
        let vlen_end := key_end + 2 in
        let* vlen_bytes := ok_or (get_range rec key_end vlen_end) (Corrupt page_no "leaf record has no value length") in
        let vlen := le_num vlen_bytes in
        if vlen =? OVERFLOW_VLEN then
          let end_ := vlen_end + 12 in
          let* marker := ok_or (get_range rec vlen_end end_) (Corrupt page_no "overflow marker crosses its slot") in
          guard end_ =? blen rec else Corrupt page_no "overflow marker has trailing bytes";
          Ok (DLeaf key marker true)
        else
          let end_ := vlen_end + vlen in
          guard end_ =? blen rec else Corrupt page_no "leaf value length does not match its slot";
          Ok (DLeaf key (slice rec vlen_end (end_ - vlen_end)) false)
    | _ => corrupt page_no "non-tree page contains a tree record"
    end.

(** ** The encoders *)
Definition enc_marker (total head crc : Z) : bytes := le_bytes 4 total ++ le_bytes 4 head ++ le_bytes 4 crc.
Definition enc_leaf_marker (key marker : bytes) : bytes :=
  le_bytes 2 (blen key) ++ key ++ le_bytes 2 OVERFLOW_VLEN ++ marker.
Definition enc_leaf (key val : bytes) (compact : bool) : bytes :=
  let int_key := match key with b :: _ => int_tag b && (blen key =? 1 + (b - 128)) | [] => false end in
  if compact && int_key then 255 :: key ++ val
  else if compact && (blen key <=? 4095) then le_bytes 2 (Z.lor 16384 (blen key mod 65536)) ++ key ++ val
  else le_bytes 2 (blen key) ++ key ++ le_bytes 2 (blen val) ++ val.
Definition enc_interior (key : bytes) (child : Z) : bytes := le_bytes 2 (blen key) ++ key ++ le_bytes 4 child.

(** ** The unchecked helpers *)
(** The test of the integer family, with its short circuit. *)
Definition int_family (rec : bytes) : option bool :=
  b0 ← rec !! 0%nat; if b0 =? 255 then int_tag <$> rec !! 1%nat else Some false.
Definition validated_key (rec : bytes) : option bytes :=
  int ← int_family rec; b1 ← rec !! 1%nat;
  if int : bool then get_at rec 1 (1 + (b1 - 128))
  else
    let n := byte_at rec 0 + 256 * b1 in
    if compact_tag b1 then get_at rec 2 (Z.land n 4095) else get_at rec 2 n.
Definition validated_leaf (rec : bytes) : option (bytes * bytes * bool) :=
  let from i := get_at rec i (blen rec - i) in
  int ← int_family rec; b1 ← rec !! 1%nat;
  if int : bool then
    let end_ := 2 + (b1 - 128) in key ← get_at rec 1 (end_ - 1); val ← from end_; Some (key, val, false)
  else
    let n := byte_at rec 0 + 256 * b1 in
    if compact_tag b1 then
      let end_ := 2 + Z.land n 4095 in key ← get_at rec 2 (end_ - 2); val ← from end_; Some (key, val, false)
    else
      vb ← get_at rec (2 + n) 2;
      let v := le_num vb in
      let value_len := if v =? OVERFLOW_VLEN then 12 else v in
      key ← get_at rec 2 n; val ← get_at rec (4 + n) value_len; Some (key, val, v =? OVERFLOW_VLEN).
Definition validated_child (rec : bytes) : option Z :=
  kb ← get_at rec 0 2; c ← get_at rec (2 + le_num kb) 4; Some (le_num c).

(** ** Lemmas *)
Lemma get_range_Some rec from to s : 0 ≤ from →
  get_range rec from to = Some s ↔ s = slice rec from (to - from) ∧ from ≤ to ≤ blen rec.
Proof.
  unfold get_range. intros. destruct (Z.leb_spec from to), (Z.leb_spec to (blen rec)); naive_solver lia.
Qed.
Lemma get_at_range rec from n : 0 ≤ from → get_at rec from n = get_range rec from (from + n).
Proof.
  unfold get_at, get_range. intros. replace (from + n - from) with n by lia.
  destruct (Z.leb_spec 0 from), (Z.leb_spec 0 n), (Z.leb_spec (from + n) (blen rec)), (Z.leb_spec from (from + n)); done || lia.
Qed.
(** A range of a record that is its middle part, and conversely. *)
Lemma get_range_mid (a k c : bytes) from to :
  from = blen a → to = blen a + blen k → get_range (a ++ k ++ c) from to = Some k.
Proof.
  intros -> ->. pose proof (blen_nonneg a). pose proof (blen_nonneg k). pose proof (blen_nonneg c).
  apply get_range_Some; [lia|]. rewrite !blen_app. split; [|lia].
  rewrite slice_app_r by lia. replace (blen a - blen a) with 0 by lia.
  by rewrite slice_app_exact by lia.
Qed.
Lemma get_range_end (a k : bytes) from to :
  from = blen a → to = blen a + blen k → get_range (a ++ k) from to = Some k.
Proof. intros. pose proof (get_range_mid a k [] from to) as Hm. rewrite app_nil_r in Hm. auto. Qed.
Lemma rest_app (a v : bytes) from : from = blen a → rest (a ++ v) from = v.
Proof.
  intros ->. unfold rest. rewrite blen_app, slice_app_r by lia.
  replace (blen a - blen a) with 0 by lia. apply slice_all. lia.
Qed.
Lemma rest_split rec from : 0 ≤ from ≤ blen rec → slice rec 0 from ++ rest rec from = rec.
Proof.
  intros. unfold rest. rewrite <-(drop_slice rec from), <-(take_slice rec from) by lia. apply take_drop.
Qed.
Lemma get_range_split rec from to k :
  0 ≤ from → get_range rec from to = Some k →
  rec = slice rec 0 from ++ k ++ rest rec to ∧ blen k = to - from ∧ from ≤ to ≤ blen rec.
Proof.
  intros Hf [-> Hto]%get_range_Some; [|done]. split; [|split; [rewrite blen_slice by lia; lia|lia]].
  rewrite <-(rest_split rec from) at 1 by lia. f_equal. unfold rest at 1.
  replace (blen rec - from) with ((to - from) + (blen rec - to)) by lia.
  rewrite slice_split by lia. f_equal. unfold rest. f_equal. lia.
Qed.

(** ** The shapes of a leaf record *)
Inductive leaf_shape : bytes → bytes → bytes → bool → Prop :=
  | shape_int b key val :
      int_tag b = true → blen key = b - 128 →
      leaf_shape ([255] ++ (b :: key) ++ val) (b :: key) val false
  | shape_compact b0 b1 key val :
      compact_tag b1 = true → blen key = Z.land (b0 + 256 * b1) 4095 →
      leaf_shape ([b0; b1] ++ key ++ val) key val false
  | shape_plain b0 b1 v0 v1 key val :
      compact_tag b1 = false → (b0 = 255 → int_tag b1 = false) → blen key = b0 + 256 * b1 →
      blen val = v0 + 256 * v1 → blen val ≠ OVERFLOW_VLEN →
      leaf_shape ([b0; b1] ++ key ++ [v0; v1] ++ val) key val false
  | shape_marker b0 b1 key marker :
      compact_tag b1 = false → (b0 = 255 → int_tag b1 = false) → blen key = b0 + 256 * b1 →
      blen marker = 12 →
      leaf_shape ([b0; b1] ++ key ++ [255; 255] ++ marker) key marker true.

Lemma compact_not_int b : compact_tag b = true → int_tag b = false.
Proof.
  unfold compact_tag, int_tag. intros H%Z.eqb_eq. destruct (Z.leb_spec 129 b), (Z.leb_spec b 136); try done.
  exfalso. assert (b = 129 ∨ b = 130 ∨ b = 131 ∨ b = 132 ∨ b = 133 ∨ b = 134 ∨ b = 135 ∨ b = 136) as Hb by lia.
  destruct_or! Hb; by subst.
Qed.
Lemma int_tag_bounds b : int_tag b = true → 129 ≤ b ≤ 136.
Proof. unfold int_tag. rewrite andb_true_iff, !Z.leb_le. lia. Qed.
Lemma le_num_two b0 b1 : le_num [b0; b1] = b0 + 256 * b1.
Proof. simpl. lia. Qed.
Lemma rd_u16_head b0 b1 r : rd_u16 (b0 :: b1 :: r) 0 = b0 + 256 * b1.
Proof. apply le_num_two. Qed.
Lemma bool_decide_head (b : Z) : bool_decide (Some b = Some 255) = (b =? 255).
Proof. destruct (Z.eqb_spec b 255); [by apply bool_decide_true; subst|apply bool_decide_false; congruence]. Qed.

Lemma decode_to_shape rec no k v o :
  bytes_ok rec → decode_record rec no Leaf = Ok (DLeaf k v o) → leaf_shape rec k v o.
Proof.
  intros Hb. unfold decode_record. rewrite bool_decide_true by done. cbn [andb]. cbv zeta.
  destruct rec as [|b0 [|b1 r]]; [done|by destruct (bool_decide _)|].
  cbn [lookup list_lookup]. rewrite bool_decide_head, rd_u16_head. change (byte_at (b0 :: b1 :: r) 1) with b1.
  pose proof Hb as [H0 [H1 Hr]%bytes_ok_cons]%bytes_ok_cons. unfold byte_ok in *. pose proof (blen_nonneg r).
  destruct ((b0 =? 255) && int_tag b1) eqn:Ei; [|destruct (compact_tag b1) eqn:Ec].
  - apply andb_true_iff in Ei as [->%Z.eqb_eq Hi]. pose proof (int_tag_bounds _ Hi).
    destruct (get_range _ 1 _) as [key|] eqn:Hk; [|done]. cbn [ok_or rbind]. intros [= <- <- <-].
    destruct (get_range_split (255 :: b1 :: r) 1 (2 + (b1 - 128)) key) as (E & Hlen & Hle); [lia|done|].
    change (slice (255 :: b1 :: r) 0 1) with [255] in E. destruct key as [|b key]; [rewrite blen_nil in Hlen; lia|].
    rewrite blen_cons in Hlen. rewrite E at 1.
    assert (b = b1) as -> by (cbn in E; congruence). apply shape_int; [done|lia].
  - destruct (get_range _ 2 _) as [key|] eqn:Hk; [|done]. cbn [ok_or rbind]. intros [= <- <- <-].
    destruct (get_range_split (b0 :: b1 :: r) 2 _ key ltac:(lia) Hk) as (E & Hlen & Hle).
    rewrite E at 1. apply shape_compact; [done|lia].
  - assert (get_range (b0 :: b1 :: r) 0 2 = Some [b0; b1]) as -> by by apply (get_range_mid [] [b0; b1] r).
    cbn [ok_or rbind]. rewrite le_num_two.
    destruct (get_range _ 2 _) as [key|] eqn:Hk; [|done]. cbn [ok_or rbind].
    destruct (get_range_split (b0 :: b1 :: r) 2 _ key ltac:(lia) Hk) as (E & Hlen & Hle).
    set (n := b0 + 256 * b1) in *.
    destruct (get_range _ (2 + n) _) as [vb|] eqn:Hv; [|done]. cbn [ok_or rbind].
    assert (0 ≤ 2 + n) as Hn by lia.
    destruct (get_range_split (b0 :: b1 :: r) _ _ vb Hn Hv) as (E' & Hlen' & Hle').
    assert (b0 = 255 → int_tag b1 = false) as Hint by (intros ->; done).
    assert (slice (b0 :: b1 :: r) 0 (2 + n) = [b0; b1] ++ key) as Ep.
    { rewrite E at 1. rewrite app_assoc. apply slice_app_exact. rewrite blen_app, !blen_cons, blen_nil. lia. }
    rewrite Ep in E'. destruct vb as [|v0 [|v1 [|]]]; rewrite ?blen_cons, ?blen_nil in Hlen'; try lia.
    2: { match type of Hlen' with context [blen ?l] => pose proof (blen_nonneg l) end. lia. }
    assert (bytes_ok [v0; v1]) as [Hv0 [Hv1 _]%bytes_ok_cons]%bytes_ok_cons.
    { rewrite E' in Hb. apply bytes_ok_app in Hb as [_ Hb]. by apply bytes_ok_app in Hb as [? _]. }
    unfold byte_ok in *. rewrite le_num_two.
    destruct (Z.eqb_spec (v0 + 256 * v1) OVERFLOW_VLEN) as [Ev|Ev].
    + destruct (get_range _ (2 + n + 2) _) as [m|] eqn:Hm; [|done]. cbn [ok_or rbind].
      destruct (Z.eqb_spec (2 + n + 2 + 12) (blen (b0 :: b1 :: r))) as [El|]; [|done]. cbn [negb refuse_if rbind].
      intros [= <- <- <-].
      apply get_range_Some in Hm as [-> _]; [|lia].
      replace (2 + n + 2 + 12 - (2 + n + 2)) with (blen (b0 :: b1 :: r) - (2 + n + 2)) by lia.
      fold (rest (b0 :: b1 :: r) (2 + n + 2)).
      assert (blen (rest (b0 :: b1 :: r) (2 + n + 2)) = 12) as Ht by (unfold rest; rewrite blen_slice by lia; lia).
      revert E' Ht. generalize (rest (b0 :: b1 :: r) (2 + n + 2)). intros t E' Ht. rewrite E', <-!app_assoc.
      assert (v0 = 255 ∧ v1 = 255) as [-> ->] by (unfold OVERFLOW_VLEN in Ev; lia).
      by apply shape_marker; [| |lia|].
    + destruct (Z.eqb_spec (2 + n + 2 + (v0 + 256 * v1)) (blen (b0 :: b1 :: r))) as [El|]; [|done]. cbn [negb refuse_if rbind].
      intros [= <- <- <-]. rewrite El. fold (rest (b0 :: b1 :: r) (2 + n + 2)).
      assert (blen (rest (b0 :: b1 :: r) (2 + n + 2)) = v0 + 256 * v1) as Ht by (unfold rest; rewrite blen_slice by lia; lia).
      revert E' Ht. generalize (rest (b0 :: b1 :: r) (2 + n + 2)). intros t E' Ht. rewrite E', <-!app_assoc.
      apply shape_plain; [done..|lia|lia|lia].
Qed.
Lemma get_at_mid (a k c : bytes) from n :
  from = blen a → n = blen k → get_at (a ++ k ++ c) from n = Some k.
Proof.
  intros -> ->. pose proof (blen_nonneg a). rewrite get_at_range by lia. by apply get_range_mid.
Qed.
Lemma get_at_end (a k : bytes) from n :
  from = blen a → n = blen k → get_at (a ++ k) from n = Some k.
Proof. intros. pose proof (get_at_mid a k [] from n) as Hm. rewrite app_nil_r in Hm. auto. Qed.
Ltac blens := rewrite ?blen_app, ?blen_cons, ?blen_nil, ?blen_le_bytes.

(** The unchecked helpers read a shaped record without leaving it. *)
Lemma shape_helpers rec k v o :
  leaf_shape rec k v o → validated_key rec = Some k ∧ validated_leaf rec = Some (k, v, o).
Proof.
  intros Hs. unfold validated_key, validated_leaf, int_family.
  destruct Hs as [b key val Hi Hl|b0 b1 key val Hc Hl|b0 b1 v0 v1 key val Hc Hi Hl Hv Hn|b0 b1 key marker Hc Hi Hl Hm].
  - cbn [app lookup list_lookup mbind option_bind Z.eqb Pos.eqb fmap option_fmap option_map].
    pose proof (int_tag_bounds _ Hi). rewrite Hi. cbn [mbind option_bind].
    change (255 :: b :: key ++ val) with ([255] ++ (b :: key) ++ val).
    rewrite (get_at_mid [255] (b :: key) val 1) by (blens; lia).
    rewrite (get_at_mid [255] (b :: key) val 1) by (blens; lia). cbn [mbind option_bind].
    rewrite app_assoc, (get_at_end ([255] ++ b :: key) val) by (blens; lia). done.
  - cbn [app lookup list_lookup mbind option_bind]. change (byte_at (b0 :: b1 :: key ++ val) 0) with b0.
    assert ((if b0 =? 255 then int_tag <$> Some b1 else Some false) = Some false) as ->.
    { destruct (b0 =? 255); [|done]. cbn. by rewrite compact_not_int. }
    cbn [mbind option_bind]. rewrite Hc. change (b0 :: b1 :: key ++ val) with ([b0; b1] ++ key ++ val).
    rewrite (get_at_mid [b0; b1] key val 2) by (blens; lia).
    rewrite (get_at_mid [b0; b1] key val 2) by (blens; lia). cbn [mbind option_bind].
    rewrite app_assoc, (get_at_end ([b0; b1] ++ key) val) by (blens; lia). done.
  - cbn [app lookup list_lookup mbind option_bind]. change (byte_at (b0 :: b1 :: key ++ v0 :: v1 :: val) 0) with b0.
    assert ((if b0 =? 255 then int_tag <$> Some b1 else Some false) = Some false) as ->.
    { destruct (Z.eqb_spec b0 255); [|done]. cbn. by rewrite Hi. }
    cbn [mbind option_bind]. rewrite Hc.
    change (b0 :: b1 :: key ++ v0 :: v1 :: val) with ([b0; b1] ++ key ++ [v0; v1] ++ val).
    rewrite (get_at_mid [b0; b1] key ([v0; v1] ++ val) 2) by (blens; lia).
    rewrite app_assoc, (get_at_mid ([b0; b1] ++ key) [v0; v1] val) by (blens; lia). cbn [mbind option_bind].
    rewrite le_num_two, <-Hv, (proj2 (Z.eqb_neq _ _)) by done. cbn [mbind option_bind].
    rewrite !app_assoc, (get_at_end _ val) by (blens; lia). done.
  - cbn [app lookup list_lookup mbind option_bind]. change (byte_at (b0 :: b1 :: key ++ 255 :: 255 :: marker) 0) with b0.
    assert ((if b0 =? 255 then int_tag <$> Some b1 else Some false) = Some false) as ->.
    { destruct (Z.eqb_spec b0 255); [|done]. cbn. by rewrite Hi. }
    cbn [mbind option_bind]. rewrite Hc.
    change (b0 :: b1 :: key ++ 255 :: 255 :: marker) with ([b0; b1] ++ key ++ [255; 255] ++ marker).
    rewrite (get_at_mid [b0; b1] key ([255; 255] ++ marker) 2) by (blens; lia).
    rewrite app_assoc, (get_at_mid ([b0; b1] ++ key) [255; 255] marker) by (blens; lia). cbn [mbind option_bind].
    rewrite le_num_two. change (255 + 256 * 255 =? OVERFLOW_VLEN) with true. cbn iota. cbn [mbind option_bind].
    rewrite !app_assoc, (get_at_end _ marker) by (blens; lia). done.
Qed.
Lemma get_range_two b0 b1 r : get_range (b0 :: b1 :: r) 0 2 = Some [b0; b1].
Proof. by apply (get_range_mid [] [b0; b1] r). Qed.
Lemma shape_decode rec k v o no : leaf_shape rec k v o → decode_record rec no Leaf = Ok (DLeaf k v o).
Proof.
  intros Hs. unfold decode_record. rewrite bool_decide_true by done. cbn [andb].
  destruct Hs as [b key val Hi Hl|b0 b1 key val Hc Hl|b0 b1 v0 v1 key val Hc Hi Hl Hv Hn|b0 b1 key marker Hc Hi Hl Hm];
    cbn [app lookup list_lookup]; rewrite bool_decide_head, rd_u16_head.
  - pose proof (int_tag_bounds _ Hi). rewrite Hi. cbn [Z.eqb Pos.eqb andb]. cbv zeta.
    change (byte_at (255 :: b :: key ++ val) 1) with b.
    change (255 :: b :: key ++ val) with ([255] ++ (b :: key) ++ val).
    rewrite (get_range_mid [255] (b :: key) val) by (blens; lia). cbn [ok_or rbind].
    by rewrite app_assoc, (rest_app _ val) by (blens; lia).
  - rewrite (compact_not_int b1), andb_false_r, Hc by done. cbv zeta.
    change (b0 :: b1 :: key ++ val) with ([b0; b1] ++ key ++ val).
    rewrite (get_range_mid [b0; b1] key val) by (blens; lia). cbn [ok_or rbind].
    by rewrite app_assoc, (rest_app _ val) by (blens; lia).
  - assert ((b0 =? 255) && int_tag b1 = false) as -> by (destruct (Z.eqb_spec b0 255); [by apply Hi|done]).
    rewrite Hc. cbv zeta. rewrite get_range_two. cbn [ok_or rbind]. rewrite le_num_two.
    change (b0 :: b1 :: key ++ v0 :: v1 :: val) with ([b0; b1] ++ key ++ [v0; v1] ++ val).
    rewrite (get_range_mid [b0; b1] key ([v0; v1] ++ val)) by (blens; lia). cbn [ok_or rbind].
    rewrite app_assoc, (get_range_mid ([b0; b1] ++ key) [v0; v1] val) by (blens; lia). cbn [ok_or rbind].
    rewrite le_num_two, <-Hv, (proj2 (Z.eqb_neq _ _)) by done.
    rewrite (proj2 (Z.eqb_eq _ _)) by (blens; lia). cbn [negb refuse_if rbind].
    by rewrite app_assoc, slice_app_r, slice_whole by (blens; lia).
  - assert ((b0 =? 255) && int_tag b1 = false) as -> by (destruct (Z.eqb_spec b0 255); [by apply Hi|done]).
    rewrite Hc. cbv zeta. rewrite get_range_two. cbn [ok_or rbind]. rewrite le_num_two.
    change (b0 :: b1 :: key ++ 255 :: 255 :: marker) with ([b0; b1] ++ key ++ [255; 255] ++ marker).
    rewrite (get_range_mid [b0; b1] key ([255; 255] ++ marker)) by (blens; lia). cbn [ok_or rbind].
    rewrite app_assoc, (get_range_mid ([b0; b1] ++ key) [255; 255] marker) by (blens; lia). cbn [ok_or rbind].
    rewrite le_num_two. change (255 + 256 * 255 =? OVERFLOW_VLEN) with true. cbn iota.
    rewrite app_assoc, (get_range_end _ marker) by (blens; lia). cbn [ok_or rbind].
    by rewrite (proj2 (Z.eqb_eq _ _)) by (blens; lia).
Qed.

(** ** What the encoders write *)
Lemma le_bytes_two x : le_bytes 2 x = [x mod 256; x / 256 mod 256].
Proof. done. Qed.
Lemma short_high n : 0 ≤ n < 4096 → 0 ≤ n / 256 mod 256 < 16 ∧ n mod 256 + 256 * (n / 256 mod 256) = n.
Proof.
  intros. pose proof (Z.div_mod n 256). pose proof (Z.mod_pos_bound n 256).
  rewrite (Z.mod_small (n / 256)) by lia. lia.
Qed.
Lemma low_not_compact b : 0 ≤ b < 16 → compact_tag b = false ∧ int_tag b = false.
Proof.
  intros. assert (b = 0 ∨ b = 1 ∨ b = 2 ∨ b = 3 ∨ b = 4 ∨ b = 5 ∨ b = 6 ∨ b = 7 ∨ b = 8 ∨ b = 9 ∨
    b = 10 ∨ b = 11 ∨ b = 12 ∨ b = 13 ∨ b = 14 ∨ b = 15) as Hb by lia.
  by destruct_or! Hb; subst.
Qed.

Lemma high_compact b : 0 ≤ b < 16 → compact_tag (64 + b) = true.
Proof.
  intros. assert (b = 0 ∨ b = 1 ∨ b = 2 ∨ b = 3 ∨ b = 4 ∨ b = 5 ∨ b = 6 ∨ b = 7 ∨ b = 8 ∨ b = 9 ∨
    b = 10 ∨ b = 11 ∨ b = 12 ∨ b = 13 ∨ b = 14 ∨ b = 15) as Hb by lia.
  by destruct_or! Hb; subst.
Qed.
Lemma lor_compact n : 0 ≤ n < 4096 → Z.lor 16384 (n mod 65536) = 16384 + n.
Proof.
  intros. rewrite Z.mod_small by lia. assert (Z.land 16384 n = 0) as Hd.
  { apply Z.bits_inj'. intros i ?. rewrite Z.land_spec, Z.bits_0. change 16384 with (2 ^ 14).
    rewrite Z.pow2_bits_eqb by lia. destruct (Z.eqb_spec 14 i) as [<-|]; [|done]. cbn [andb].
    destruct (decide (n = 0)) as [->|]; [done|]. apply Z.bits_above_log2; [lia|].
    apply Z.log2_lt_pow2; lia. }
  by rewrite Z.add_nocarry_lxor, Z.lxor_lor.
Qed.
Lemma compact_len n : 0 ≤ n < 4096 →
  compact_tag ((16384 + n) / 256 mod 256) = true ∧
  n = Z.land ((16384 + n) mod 256 + 256 * ((16384 + n) / 256 mod 256)) 4095.
Proof.
  intros. pose proof (Z.div_mod n 256 ltac:(lia)). pose proof (Z.mod_pos_bound n 256 ltac:(lia)).
  assert ((16384 + n) / 256 mod 256 = 64 + n / 256) as ->.
  { replace (16384 + n) with (n + 64 * 256) by lia. rewrite Z.div_add, Z.mod_small by lia. lia. }
  assert (0 ≤ n / 256 < 16) as Hq by lia. split; [by apply high_compact|].
  replace ((16384 + n) mod 256) with (n mod 256).
  2: { replace (16384 + n) with (n + 64 * 256) by lia. by rewrite Z.mod_add by lia. }
  change 4095 with (Z.ones 12). rewrite Z.land_ones by lia. change (2 ^ 12) with 4096.
  replace (n mod 256 + 256 * (64 + n / 256)) with (n + 4 * 4096) by lia. rewrite Z.mod_add by lia.
  by rewrite Z.mod_small.
Qed.

Lemma enc_leaf_shape key val compact :
  bytes_ok key → bytes_ok val → 4 + blen key + blen val ≤ MAX_RECORD_LEN →
  leaf_shape (enc_leaf key val compact) key val false.
Proof.
  intros Hk Hv Hl. pose proof (blen_nonneg key). pose proof (blen_nonneg val).
  unfold MAX_RECORD_LEN, PAGE_SIZE, HEADER_LEN, SLOT_LEN in Hl. unfold enc_leaf.
  destruct (compact && _) eqn:Ei.
  { apply andb_true_iff in Ei as [_ Ei]. destruct key as [|b key]; [done|].
    apply andb_true_iff in Ei as [Hi Hb%Z.eqb_eq]. rewrite blen_cons in Hb.
    apply (shape_int b key val); [done|lia]. }
  destruct (short_high (blen key)) as [Hh Hn]; [lia|]. destruct (low_not_compact _ Hh) as [Hc Hi].
  destruct (compact && (blen key <=? 4095)).
  - rewrite lor_compact, le_bytes_two by lia. destruct (compact_len (blen key)) as [Hc' Hl']; [lia|].
    by apply shape_compact.
  - rewrite le_bytes_two. apply (shape_plain _ _ (blen val mod 256) (blen val / 256 mod 256)); [done|done|lia| |].
    + destruct (short_high (blen val)); lia.
    + unfold OVERFLOW_VLEN. lia.
Qed.
Lemma enc_leaf_marker_shape key marker :
  16 + blen key ≤ MAX_RECORD_LEN → blen marker = 12 → leaf_shape (enc_leaf_marker key marker) key marker true.
Proof.
  intros Hl Hm. pose proof (blen_nonneg key). unfold MAX_RECORD_LEN, PAGE_SIZE, HEADER_LEN, SLOT_LEN in Hl.
  unfold enc_leaf_marker. destruct (short_high (blen key)) as [Hh Hn]; [lia|].
  destruct (low_not_compact _ Hh) as [Hc Hi]. rewrite le_bytes_two.
  change (le_bytes 2 OVERFLOW_VLEN) with [255; 255]. by apply shape_marker.
Qed.

Lemma enc_interior_decode key child no :
  10 + blen key ≤ MAX_RECORD_LEN → is_u32 child →
  decode_record (enc_interior key child) no Interior = Ok (DInterior key child).
Proof.
  intros Hl Hc. pose proof (blen_nonneg key). unfold MAX_RECORD_LEN, PAGE_SIZE, HEADER_LEN, SLOT_LEN in Hl.
  unfold decode_record, enc_interior. rewrite bool_decide_false by done. cbn [andb]. cbv zeta.
  destruct (short_high (blen key)) as [Hh Hn]; [lia|]. rewrite le_bytes_two.
  change ([?a; ?b] ++ ?r) with (a :: b :: r). rewrite get_range_two. cbn [ok_or rbind]. rewrite le_num_two, Hn.
  set (b0 := blen key mod 256). set (b1 := blen key / 256 mod 256).
  change (b0 :: b1 :: key ++ le_bytes 4 child) with ([b0; b1] ++ key ++ le_bytes 4 child).
  rewrite (get_range_mid [b0; b1] key _ 2) by (blens; lia). cbn [ok_or rbind].
  rewrite (proj2 (Z.eqb_eq _ _)) by (blens; lia). cbn [negb refuse_if rbind].
  rewrite app_assoc, slice_app_r, slice_whole by (blens; lia). by rewrite le_num_le_bytes_4.
Qed.

(** What the decoder accepts as an interior record of a page is read the same. *)
Lemma decoded_interior_helpers rec no k c :
  bytes_ok rec → blen rec ≤ PAGE_SIZE → decode_record rec no Interior = Ok (DInterior k c) →
  validated_key rec = Some k ∧ validated_child rec = Some c.
Proof.
  intros Hb Hl. unfold decode_record. rewrite bool_decide_false by done. cbn [andb]. cbv zeta.
  destruct rec as [|b0 [|b1 r]]; [done|done|]. rewrite get_range_two. cbn [ok_or rbind]. rewrite le_num_two.
  pose proof Hb as [H0 [H1 Hr]%bytes_ok_cons]%bytes_ok_cons. unfold byte_ok in *.
  set (n := b0 + 256 * b1). destruct (get_range _ 2 _) as [key|] eqn:Hk; [|done]. cbn [ok_or rbind].
  destruct (Z.eqb_spec (2 + n + 4) (blen (b0 :: b1 :: r))) as [El|]; [|done]. cbn [negb refuse_if rbind].
  intros [= <- <-]. unfold PAGE_SIZE in Hl. destruct (low_not_compact b1) as [Hc Hi]; [lia|].
  unfold validated_key, validated_child, int_family. cbn [lookup list_lookup mbind option_bind].
  change (byte_at (b0 :: b1 :: r) 0) with b0. fold n.
  assert ((if b0 =? 255 then int_tag <$> Some b1 else Some false) = Some false) as ->.
  { destruct (b0 =? 255); [|done]. cbn. by rewrite Hi. }
  cbn [mbind option_bind]. rewrite Hc, !get_at_range by lia. rewrite Hk. split; [done|].
  change (0 + 2) with 2. rewrite get_range_two. cbn [mbind option_bind]. rewrite le_num_two. fold n.
  rewrite get_at_range by lia. unfold get_range. rewrite (proj2 (Z.leb_le _ _)), (proj2 (Z.leb_le _ _)) by lia.
  cbn [andb mbind option_bind]. do 2 f_equal. f_equal. lia.
Qed.

Lemma marker_fields total head crc : is_u32 total → is_u32 head → is_u32 crc →
  let m := enc_marker total head crc in
  blen m = 12 ∧ rd_u32 m 0 = total ∧ rd_u32 m 4 = head ∧ rd_u32 m 8 = crc.
Proof.
  intros Ht Hh Hc. unfold enc_marker, rd_u32. split_and!.
  - by rewrite !blen_app, !blen_le_bytes.
  - rewrite slice_app_l by (rewrite ?blen_le_bytes; lia). rewrite slice_le_bytes by done. by apply le_num_le_bytes_4.
  - rewrite slice_app_r, slice_app_l by (rewrite ?blen_le_bytes; lia).
    rewrite blen_le_bytes, slice_le_bytes by done. by apply le_num_le_bytes_4.
  - rewrite slice_app_r, slice_app_r by (rewrite ?blen_le_bytes; lia).
    rewrite !blen_le_bytes, slice_le_bytes by done. by apply le_num_le_bytes_4.
Qed.

(** C14: the records of the tree read back.  A leaf record in any of its
    three spellings decodes to its key and value, a spilled one to its key and the
    marker's three numbers, an interior one to its separator and child; and
    whatever bytes the decoder accepts, the unchecked helpers that run on
    validated pages do not panic on them and read the same key, value, flag and
    child. *)
Theorem record_codec key val compact total head crc child no : bytes_ok key → bytes_ok val → 4 + blen key + blen val ≤ MAX_RECORD_LEN →
  16 + blen key ≤ MAX_RECORD_LEN → is_u32 total → is_u32 head → is_u32 crc → is_u32 child →
  let marker := enc_marker total head crc in
  decode_record (enc_leaf key val compact) no Leaf = Ok (DLeaf key val false) ∧
  decode_record (enc_leaf_marker key marker) no Leaf = Ok (DLeaf key marker true) ∧
  (rd_u32 marker 0 = total ∧ rd_u32 marker 4 = head ∧ rd_u32 marker 8 = crc) ∧
  decode_record (enc_interior key child) no Interior = Ok (DInterior key child) ∧
  (∀ rec k v o, bytes_ok rec → decode_record rec no Leaf = Ok (DLeaf k v o) →
     validated_key rec = Some k ∧ validated_leaf rec = Some (k, v, o)) ∧
  (∀ rec k c, bytes_ok rec → blen rec ≤ PAGE_SIZE → decode_record rec no Interior = Ok (DInterior k c) →
     validated_key rec = Some k ∧ validated_child rec = Some c).
Proof.
  intros Hk Hv H1 H2 Ht Hh Hc Hch marker. assert (blen marker = 12) as Hm by done.
  split; [by apply shape_decode, enc_leaf_shape|]. split; [by apply shape_decode, enc_leaf_marker_shape|].
  split; [|split; [apply enc_interior_decode; [lia|done]|split]].
  - by apply marker_fields.
  - intros rec k v o Hb Hd. by apply shape_helpers, (decode_to_shape rec no).
  - intros rec k c. apply decoded_interior_helpers.
Qed.
Lemma record_codec_witness :
  let marker := enc_marker 5000 7 9 in
  decode_record (enc_leaf [129; 5] [1; 2] true) 3 Leaf = Ok (DLeaf [129; 5] [1; 2] false) ∧
  decode_record (enc_leaf_marker [129; 5] marker) 3 Leaf = Ok (DLeaf [129; 5] marker true) ∧
  (rd_u32 marker 0 = 5000 ∧ rd_u32 marker 4 = 7 ∧ rd_u32 marker 8 = 9) ∧
  decode_record (enc_interior [129; 5] 8) 3 Interior = Ok (DInterior [129; 5] 8) ∧
  (∀ rec k v o, bytes_ok rec → decode_record rec 3 Leaf = Ok (DLeaf k v o) →
     validated_key rec = Some k ∧ validated_leaf rec = Some (k, v, o)) ∧
  (∀ rec k c, bytes_ok rec → blen rec ≤ PAGE_SIZE → decode_record rec 3 Interior = Ok (DInterior k c) →
     validated_key rec = Some k ∧ validated_child rec = Some c).
Proof.
  apply (record_codec [129; 5] [1; 2] true 5000 7 9 8 3); try (vm_compute; done); unfold bytes_ok, byte_ok; repeat constructor; lia.
Defined.
End Cells.
