(* ===== verification/Order.v ===== *)
(** * The order of keys

    Keys compare as byte strings ([Ord for [u8]]).  The total order, the
    Standard Library's decision tactic for it, and sorted lists of keys with the
    position a key belongs at. *)
From Stdlib Require Import Orders OrdersTac.
From S2P Require Import Prelude.

Module Order.

Module Bytes <: EqLtLe.
Definition t := list Z.
Definition eq := @Logic.eq (list Z).
Definition lt (a b : list Z) : Prop := bytes_compare a b = Lt.
Definition le (a b : list Z) : Prop := lt a b ∨ a = b.
End Bytes.

Notation "a ≺ b" := (Bytes.lt a b) (at level 70).
Notation "a ≼ b" := (Bytes.le a b) (at level 70).

Lemma compare_spec a b : CompareSpec (a = b) (a ≺ b) (b ≺ a) (bytes_compare a b).
Proof.
  destruct (bytes_compare a b) eqn:E; constructor.
  - by apply bytes_compare_eq.
  - done.
  - unfold Bytes.lt. by rewrite bytes_compare_antisym, E.
Qed.

Module BytesTotal <: IsTotalOrder Bytes.
Lemma eq_equiv : Equivalence Bytes.eq.
Proof. apply eq_equivalence. Qed.
Lemma lt_strorder : StrictOrder Bytes.lt.
Proof. split; [apply bytes_lt_irrefl|apply bytes_lt_trans]. Qed.
Lemma lt_compat : Proper (Bytes.eq ==> Bytes.eq ==> iff) Bytes.lt.
Proof. intros ? ? -> ? ? ->. done. Qed.
Lemma le_lteq : ∀ x y, x ≼ y ↔ x ≺ y ∨ Bytes.eq x y.
Proof. done. Qed.
Lemma lt_total : ∀ x y, x ≺ y ∨ Bytes.eq x y ∨ y ≺ x.
Proof. intros x y. destruct (compare_spec x y); auto. Qed.
End BytesTotal.

Module BytesTac := !MakeOrderTac Bytes BytesTotal.
(** Decides goals about [=], [≺] and [≼] between keys. *)
Ltac order :=
  change (@Logic.eq (list Z)) with Bytes.eq in *; BytesTac.order.

#[export] Instance lt_dec a b : Decision (a ≺ b).
Proof. unfold Bytes.lt. apply _. Defined.
#[export] Instance le_dec a b : Decision (a ≼ b).
Proof. unfold Bytes.le. apply _. Defined.

Lemma ltb_lt a b : bytes_ltb a b = true ↔ a ≺ b.
Proof. unfold bytes_ltb, Bytes.lt. destruct (bytes_compare a b); split; congruence. Qed.
Lemma ltb_ge a b : bytes_ltb a b = false ↔ b ≼ a.
Proof.
  unfold bytes_ltb. destruct (compare_spec a b); split; intros; try done; try order.
Qed.

(** ** Sorted keys *)
Abbreviation sorted := (StronglySorted Bytes.lt).
Lemma sorted_app l1 l2 :
  sorted (l1 ++ l2) ↔ sorted l1 ∧ sorted l2 ∧ ∀ a b, a ∈ l1 → b ∈ l2 → a ≺ b.
Proof.
  induction l1 as [|x l1 IH]; simpl.
  - split; [|naive_solver]. intros H. split; [apply SSorted_nil|]. split; [done|]. intros a b Ha. by apply not_elem_of_nil in Ha.
  - split.
    + intros [H1 H2]%StronglySorted_inv. apply IH in H1 as (? & ? & Hx). apply Forall_app in H2 as [H2 H3].
      split_and!; [by constructor|done|]. intros a b [->|Ha]%elem_of_cons Hb; [|by apply Hx].
      by eapply (proj1 (Forall_forall _ _) H3).
    + intros ([H1 H2]%StronglySorted_inv & H3 & Hx). constructor.
      * apply IH. split_and!; [done|done|]. intros a b Ha Hb. apply Hx; [by right|done].
      * apply Forall_app. split; [done|]. apply Forall_forall. intros b Hb. apply Hx; [left|done].
Qed.
Lemma sorted_lookup l (i j : nat) a b :
  sorted l → l !! i = Some a → l !! j = Some b → (i < j)%nat → a ≺ b.
Proof.
  intros Hs Hi Hj Hij. rewrite <-(take_drop j l) in Hs. apply sorted_app in Hs as (_ & _ & Hs).
  apply Hs; [apply list_elem_of_lookup; exists i; by rewrite lookup_take_lt|].
  apply list_elem_of_lookup. exists 0%nat. rewrite lookup_drop. by rewrite Nat.add_0_r.
Qed.

(** Position [i] cuts [l] where [p] stops holding. *)
Definition cuts {A} (p : A → bool) (l : list A) (i : nat) : Prop :=
  (i ≤ length l)%nat ∧ Forall (λ x, p x = true) (take i l) ∧ Forall (λ x, p x = false) (drop i l).
Lemma cuts_unique {A} (p : A → bool) l i j : cuts p l i → cuts p l j → i = j.
Proof.
  assert (∀ i j, cuts p l i → cuts p l j → (i ≤ j)%nat) as H; [|intros; apply Nat.le_antisymm; eauto].
  clear. intros i j (Hi & Hit & _) (Hj & _ & Hjd). destruct (decide (i ≤ j)%nat); [done|].
  destruct (lookup_lt_is_Some_2 l j) as [x Hx]; [lia|].
  assert (p x = true); [|assert (p x = false); [|congruence]].
  - apply (Forall_lookup_1 _ _ j _ Hit). by rewrite lookup_take_lt by lia.
  - apply (Forall_lookup_1 _ _ 0%nat _ Hjd). by rewrite lookup_drop, Nat.add_0_r.
Qed.

End Order.
