(* ===== verification/Node.v ===== *)
(** * Tree pages ([core/kernel/src/btree.rs], the page-local functions)

    A leaf or interior page seen as its list of records: what a reader checks
    once per residency, the binary searches, building a page from records, and
    where a full page is cut in two.  [node_at] is the view of one page the tree's
    theorems are stated over. *)
From S2P Require Import Prelude Crc Page Cells Order.
Import Page Cells Order.

Module Node.

Definition USABLE : Z := PAGE_SIZE - HEADER_LEN.
Definition bytes_leb (a b : bytes) : bool := negb (bytes_ltb b a).

Section node.
Context `{HC : Crc32c}.

(** [validate_records]: the loop over the slots. *)
Fixpoint validate_loop (b : bytes) (kd : PageKind) (is_ : list Z) : option (result error unit) :=
  match is_ with
  | [] => Some (Ok tt)
  | i :: is_ =>
      rec ← slot b i;
      let? _ := decode_record rec (page_no b) kd in validate_loop b kd is_
  end.
Definition validate_records (b : bytes) : option (result error unit) :=
  match kind b with
  | Some Leaf => validate_loop b Leaf (indices (nentries b))
  | Some Interior => validate_loop b Interior (indices (nentries b))
  | Some _ => Some (Ok tt)
  | None => None
  end.
(** The first open of a residency, [open_cached]; a later one skips both loops. *)
Definition open_checked (b : bytes) (no : Z) : option (result error unit) :=
  let? _ := open_resident b no in validate_records b.

(** The loop of [lower_bound] and [upper_bound], which differ in the test. *)
Fixpoint search (fuel : nat) (b : bytes) (below : bytes → bool) (lo hi : Z) : option Z :=
  if lo <? hi then
    match fuel with
    | O => None
    | S fuel =>
        let mid := (lo + hi) / 2 in
        rec ← slot b mid; key ← validated_key rec;
        if below key : bool then search fuel b below (mid + 1) hi else search fuel b below lo mid
    end
  else Some lo.
Definition lower_bound (b key : bytes) : option Z :=
  search (Z.to_nat (nentries b)) b (λ k, bytes_ltb k key) 0 (nentries b).
Definition upper_bound (b key : bytes) : option Z :=
  search (Z.to_nat (nentries b)) b (λ k, bytes_leb k key) 0 (nentries b).

(** [child_at], with the page count of the file. *)
Definition child_at (page_count : Z) (b : bytes) (index : Z) : option (result error Z) :=
  child ← (if index =? 0 then Some (child0 b) else rec ← slot b (index - 1); validated_child rec);
  Some (if (child =? 0) || (page_count <=? child)
        then corrupt (page_no b) "interior child pointer is outside the data file" else Ok child).

(** [build_page_into]: the records pushed one by one, then the link. *)
Fixpoint build_loop (b : bytes) (recs : list bytes) : option (result error bytes) :=
  match recs with
  | [] => Some (Ok b)
  | r :: recs =>
      res ← insert_slot b (nentries b) r;
      let? b := res in build_loop b recs
  end.
Definition build_page (kd : PageKind) (tree no : Z) (recs : list bytes) (link : Z) : option (result error bytes) :=
  res ← build_loop (init kd tree no) recs;
  let? b := res in Some (Ok (finalise (set_next_leaf b link) 0)).

(** [split_point]. *)
Definition sizes (recs : list bytes) : list Z := (λ r, blen r + 4) <$> recs.
Definition total (l : list Z) : Z := foldr Z.add 0 l.
Fixpoint split_loop (usable tot : Z) (rest_ : list Z) (j acc : Z) (best : option (Z * Z)) : option (Z * Z) :=
  match rest_ with
  | [] => best
  | size :: rest_ =>
      let acc := acc + size in
      let left := acc in let right := tot - acc in
      let best :=
        if (left <=? usable) && (right <=? usable) then
          let imbalance := Z.abs (left - right) in
          match best with
          | Some (b, _) => if imbalance <? b then Some (imbalance, j + 1) else best
          | None => Some (imbalance, j + 1)
          end
        else best in
      split_loop usable tot rest_ (j + 1) acc best
  end.
Definition split_point (recs : list bytes) (usable : Z) : option Z :=
  snd <$> split_loop usable (total (sizes recs)) (take (length recs - 1) (sizes recs)) 0 0 None.

(** ** The view of a page *)
Definition rec_ok (kd : PageKind) (rec : bytes) : Prop :=
  bytes_ok rec ∧
  match kd with
  | Leaf => ∃ k v o, leaf_shape rec k v o
  | Interior => ∃ k c, rec = enc_interior k c ∧ is_u32 c ∧ 10 + blen k ≤ MAX_RECORD_LEN
  | _ => False
  end.
Definition key_of (rec : bytes) : bytes := default [] (validated_key rec).
Definition child_of (rec : bytes) : Z := default 0 (validated_child rec).

Record node_at (b : bytes) (kd : PageKind) (tree no link : Z) (recs : list bytes) : Prop := {
  node_inv : page_inv b recs;
  node_kind : kind b = Some kd;
  node_tree : tree_id b = tree;
  node_no : page_no b = no;
  node_link : next_leaf b = link;
  node_recs : Forall (rec_ok kd) recs;
}.

Lemma rec_ok_decode kd rec no :
  rec_ok kd rec → blen rec ≤ PAGE_SIZE →
  is_Some (validated_key rec) ∧ ∃ d, decode_record rec no kd = Ok d.
Proof using.
  intros [Hb Hr] Hl. destruct kd; try done.
  - destruct Hr as (k & v & o & Hs). destruct (shape_helpers _ _ _ _ Hs) as [-> _].
    split; [done|]. eexists. by apply shape_decode.
  - destruct Hr as (k & c & -> & Hc & Hk). pose proof (enc_interior_decode k c no Hk Hc) as Hd.
    destruct (decoded_interior_helpers _ _ _ _ Hb Hl Hd) as [-> _]. split; [done|by eexists].
Qed.

Section view.
Context (b : bytes) (kd : PageKind) (tree no link : Z) (recs : list bytes).
Context (Hn : node_at b kd tree no link recs).

Lemma node_slot (i : nat) rec : recs !! i = Some rec → slot b (Z.of_nat i) = Some rec.
Proof using Hn. apply rep_slot, Hn. Qed.
Lemma node_rec_len (i : nat) rec : recs !! i = Some rec → blen rec ≤ PAGE_SIZE.
Proof using Hn.
  intros Hi. pose proof (inv_rep _ _ (node_inv _ _ _ _ _ _ Hn)) as Hrep.
  pose proof (rep_slots _ _ Hrep i rec Hi) as Hs. unfold slot_holds in Hs.
  pose proof (rep_dir _ _ Hrep). pose proof (blen_nonneg recs). page_unfold. destruct (slot_bounds _ _). lia.
Qed.
Lemma node_key (i : nat) rec : recs !! i = Some rec → validated_key rec = Some (key_of rec).
Proof using Hn.
  intros Hi. destruct (rec_ok_decode kd rec 0) as [[k Hk] _].
  - eapply Forall_lookup_1; [apply Hn|done].
  - by eapply node_rec_len.
  - unfold key_of. by rewrite Hk.
Qed.
Lemma node_count : nentries b = Z.of_nat (length recs).
Proof using Hn. apply (rep_n b recs), Hn. Qed.

(** Every open of the page succeeds. *)
Lemma validate_loop_ok (is_ : list Z) :
  (∀ i, i ∈ is_ → 0 ≤ i < Z.of_nat (length recs)) → validate_loop b kd is_ = Some (Ok tt).
Proof using Hn.
  induction is_ as [|i is_ IH]; intros Hin; [done|]. cbn [validate_loop].
  pose proof (Hin i ltac:(left)) as Hi. destruct (lookup_lt_is_Some_2 recs (Z.to_nat i)) as [rec Hr]; [lia|].
  pose proof (node_slot _ _ Hr) as Hs. rewrite Z2Nat.id in Hs by lia. rewrite Hs. cbn [mbind option_bind].
  destruct (rec_ok_decode kd rec (page_no b)) as [_ [d ->]].
  - eapply Forall_lookup_1; [apply Hn|done].
  - by eapply node_rec_len.
  - apply IH. intros. apply Hin. by right.
Qed.
Lemma node_open : open_checked b no = Some (Ok tt).
Proof using Hn.
  unfold open_checked. assert (open_resident b no = Ok b) as ->.
  { unfold open_resident. rewrite <-(node_no _ _ _ _ _ _ Hn). apply (open_inv b recs); [apply Hn|done]. }
  unfold validate_records. rewrite (node_kind _ _ _ _ _ _ Hn).
  assert (validate_loop b kd (indices (nentries b)) = Some (Ok tt)) as Hv.
  { apply validate_loop_ok. intros i Hi%indices_in. by rewrite node_count in Hi. }
  destruct kd; try done.
Qed.

(** *** The binary searches *)
Definition keys : list bytes := key_of <$> recs.
Lemma search_ok (below : bytes → bool) :
  (∀ (i j : nat) x y, keys !! i = Some x → keys !! j = Some y → (i < j)%nat → below y = true → below x = true) →
  ∀ fuel (lo hi : nat),
    (hi - lo ≤ fuel)%nat → (lo ≤ hi ≤ length recs)%nat →
    Forall (λ k, below k = true) (take lo keys) → Forall (λ k, below k = false) (drop hi keys) →
    ∃ i : nat, search fuel b below (Z.of_nat lo) (Z.of_nat hi) = Some (Z.of_nat i) ∧ cuts below keys i.
Proof using Hn.
  intros Hmono. assert (length keys = length recs) as Hlen by apply length_fmap.
  induction fuel as [|fuel IH]; intros lo hi Hf Hle Hlo Hhi; cbn [search];
    destruct (Z.ltb_spec (Z.of_nat lo) (Z.of_nat hi)) as [Hlt|Hge].
  - lia.
  - replace hi with lo in Hhi by lia. exists lo. split; [done|]. split; [lia|done].
  - set (mid := ((lo + hi) / 2)%nat).
    assert ((Z.of_nat lo + Z.of_nat hi) / 2 = Z.of_nat mid) as ->
      by (unfold mid; rewrite Nat2Z.inj_div, Nat2Z.inj_add; done).
    assert (lo ≤ mid < hi)%nat as Hmid.
    { unfold mid. split; [apply Nat.div_le_lower_bound; lia|apply Nat.div_lt_upper_bound; lia]. }
    destruct (lookup_lt_is_Some_2 recs mid) as [rec Hr]; [lia|].
    rewrite (node_slot _ _ Hr). cbn [mbind option_bind]. rewrite (node_key _ _ Hr). cbn [mbind option_bind].
    assert (keys !! mid = Some (key_of rec)) as Hk by (unfold keys; by rewrite list_lookup_fmap, Hr).
    destruct (below (key_of rec)) eqn:Eb.
    + replace (Z.of_nat mid + 1) with (Z.of_nat (S mid)) by lia. apply IH; [lia|lia| |done].
      apply Forall_lookup_2. intros i x Hx. apply lookup_take_Some in Hx as [Hx Hi].
      destruct (decide (i = mid)) as [->|]; [congruence|]. eapply Hmono; [exact Hx|exact Hk|lia|done].
    + apply IH; [lia|lia|done|]. apply Forall_lookup_2. intros i x Hx. rewrite lookup_drop in Hx.
      destruct (below x) eqn:Ex; [|done]. destruct (decide (i = 0)%nat) as [->|].
      * rewrite Nat.add_0_r in Hx. congruence.
      * rewrite <-Eb. symmetry. eapply (Hmono mid (mid + i)%nat); [exact Hk|exact Hx|lia|done].
  - replace hi with lo in Hhi by lia. exists lo. split; [done|]. split; [lia|done].
Qed.

Lemma bound_ok (below : bytes → bool) :
  (∀ (i j : nat) x y, keys !! i = Some x → keys !! j = Some y → (i < j)%nat → below y = true → below x = true) →
  ∃ i : nat, search (Z.to_nat (nentries b)) b below 0 (nentries b) = Some (Z.of_nat i) ∧ cuts below keys i.
Proof using Hn.
  intros Hmono. rewrite node_count. apply (search_ok below Hmono _ 0 (length recs)); [lia|lia|constructor|].
  rewrite drop_ge by (unfold keys; rewrite length_fmap; done). constructor.
Qed.
Lemma leb_le x y : bytes_leb x y = true ↔ x ≼ y.
Proof using. unfold bytes_leb. rewrite negb_true_iff. apply ltb_ge. Qed.
Lemma leb_gt x y : bytes_leb x y = false ↔ y ≺ x.
Proof using. unfold bytes_leb. rewrite negb_false_iff. apply ltb_lt. Qed.

Lemma lower_bound_ok key : sorted keys →
  ∃ i : nat, lower_bound b key = Some (Z.of_nat i) ∧ cuts (λ k, bytes_ltb k key) keys i.
Proof using Hn.
  intros Hs. apply bound_ok. intros i j x y Hx Hy Hij. rewrite !ltb_lt.
  pose proof (sorted_lookup _ _ _ _ _ Hs Hx Hy Hij). intros. order.
Qed.
Lemma upper_bound_ok key : sorted keys →
  ∃ i : nat, upper_bound b key = Some (Z.of_nat i) ∧ cuts (λ k, bytes_leb k key) keys i.
Proof using Hn.
  intros Hs. apply bound_ok. intros i j x y Hx Hy Hij. rewrite !leb_le.
  pose proof (sorted_lookup _ _ _ _ _ Hs Hx Hy Hij). intros. order.
Qed.
End view.

(** *** Mutations *)
Lemma node_same b b' kd tree no link recs recs' :
  node_at b kd tree no link recs → page_rep b' recs' → same_identity b b' → Forall (rec_ok kd) recs' →
  node_at b' kd tree no link recs'.
Proof using.
  intros [Hi Hk Ht Hno Hl _] Hrep Hs Hr. destruct (identity_field _ _ Hs) as (_&_&_&E4&E5&E6&E7).
  split; [by eapply inv_preserved|congruence..|done].
Qed.
Lemma node_insert b kd tree no link recs (k : nat) rec :
  node_at b kd tree no link recs → (k ≤ length recs)%nat → rec_ok kd rec →
  if decide (blen rec + SLOT_LEN ≤ free_space b)
  then ∃ b', insert_slot b (Z.of_nat k) rec = Some (Ok b') ∧
             node_at b' kd tree no link (take k recs ++ rec :: drop k recs) ∧
             free_space b' = free_space b - (blen rec + SLOT_LEN)
  else insert_slot b (Z.of_nat k) rec = Some (Err TooLarge).
Proof using.
  intros Hn Hk Hr. pose proof (insert_slot_ok b recs k rec (inv_rep _ _ (node_inv _ _ _ _ _ _ Hn)) Hk) as Hi.
  destruct (decide _); [|done]. destruct Hi as (b' & Hi & Hrep & Hs & Hroom). exists b'. split; [done|]. split; [|done].
  eapply node_same; [done..|]. pose proof (node_recs _ _ _ _ _ _ Hn) as Hf. apply Forall_app. split.
  - by apply Forall_take.
  - constructor; [done|by apply Forall_drop].
Qed.
Lemma node_remove b kd tree no link recs (k : nat) :
  node_at b kd tree no link recs → (k < length recs)%nat →
  ∃ b', remove_slot b (Z.of_nat k) = Some b' ∧ node_at b' kd tree no link (delete k recs).
Proof using.
  intros Hn Hk. destruct (remove_slot_ok b recs k (inv_rep _ _ (node_inv _ _ _ _ _ _ Hn)) Hk) as (b' & Hr & Hrep & Hs & _).
  exists b'. split; [done|]. eapply node_same; [done..|]. apply Forall_delete, Hn.
Qed.
Lemma total_sizes recs : total (sizes recs) = 4 * blen recs + total_len recs.
Proof using.
  unfold total, sizes, total_len. induction recs as [|r recs IH]; [done|].
  cbn [fmap list_fmap foldr] in *. rewrite IH, blen_cons. lia.
Qed.
Lemma node_compact b kd tree no link recs :
  node_at b kd tree no link recs →
  ∃ b', compact b = Some b' ∧ node_at b' kd tree no link recs ∧ free_space b' = USABLE - total (sizes recs).
Proof using.
  intros Hn. destruct (compact_ok b recs (inv_rep _ _ (node_inv _ _ _ _ _ _ Hn))) as (b' & Hc & Hrep & Hs & Hf).
  exists b'. split; [done|]. split; [eapply node_same; [done..|]; apply Hn|]. rewrite Hf.
  rewrite total_sizes. unfold USABLE. page_unfold. lia.
Qed.
Lemma node_finalise b kd tree no link recs l :
  node_at b kd tree no link recs → node_at (finalise b l) kd tree no link recs ∧ free_space (finalise b l) = free_space b.
Proof using.
  intros [Hi Hk Ht Hno Hl Hr]. pose proof (rep_len _ _ (inv_rep _ _ Hi)) as Hb.
  destruct (finalise_identity b l Hb) as (E1 & E2 & _ & E4).
  assert (refines (finalise b l) (APage recs (free_space b))) as [Hi' Hf'].
  { apply header_write_refines; [by split|lia|by len]. }
  split; [|done]. split; [done|congruence..| |done]. rewrite <-Hl.
  unfold next_leaf, finalise. page_unfold. by rd.
Qed.
Lemma node_set_link b kd tree no link recs link' :
  node_at b kd tree no link recs → is_u32 link' → node_at (set_next_leaf b link') kd tree no link' recs.
Proof using.
  intros [Hi Hk Ht Hno Hl Hr] Hu. pose proof (rep_len _ _ (inv_rep _ _ Hi)) as Hb. split; [|..|done].
  - apply header_write_inv; [done|lia|by len].
  - rewrite <-Hk. unfold kind, set_next_leaf. page_unfold. by rd.
  - rewrite <-Ht. unfold tree_id, set_next_leaf. page_unfold. by rd.
  - rewrite <-Hno. unfold page_no, set_next_leaf. page_unfold. by rd.
  - unfold next_leaf, set_next_leaf. page_unfold. rd.
    rewrite Z.sub_diag, slice_le_bytes by done. by apply le_num_le_bytes_4.
Qed.

(** *** Building a page *)
Lemma slice_zeros n o m : 0 ≤ o → 0 ≤ m → o + m ≤ n → slice (zeros n) o m = zeros m.
Proof using.
  intros. unfold zeros. apply list_eq. intros i. rewrite lookup_slice by lia.
  destruct (decide _); [rewrite !lookup_replicate_2 by lia; done|].
  symmetry. apply lookup_ge_None. rewrite length_replicate. lia.
Qed.
Lemma node_init kd tree no :
  is_u16 tree → is_u32 no →
  node_at (init kd tree no) kd tree no 0 [] ∧ free_space (init kd tree no) = USABLE.
Proof using.
  intros Ht Hn. destruct (built_init kd tree no Ht Hn) as [Hi (Hk & Htr & Hp) Hr _]. split; [|done].
  split; [done..| |constructor]. unfold next_leaf, init. page_unfold. rd.
  rewrite slice_zeros by lia. done.
Qed.
Lemma total_app l1 l2 : total (l1 ++ l2) = total l1 + total l2.
Proof using. induction l1 as [|x l1 IH]; simpl; [done|]. lia. Qed.
Lemma total_nonneg recs : 0 ≤ total (sizes recs).
Proof using. induction recs as [|r recs IH]; [done|].
  change (0 ≤ blen r + 4 + total (sizes recs)). pose proof (blen_nonneg r). lia. Qed.

Lemma free_space_nonneg b : 0 ≤ free_space b.
Proof using. unfold free_space, saturating_sub. lia. Qed.
Lemma build_loop_ok kd tree no link recs : ∀ b before,
  node_at b kd tree no link before → Forall (rec_ok kd) recs →
  if decide (total (sizes recs) ≤ free_space b)
  then ∃ b', build_loop b recs = Some (Ok b') ∧ node_at b' kd tree no link (before ++ recs) ∧
             free_space b' = free_space b - total (sizes recs)
  else build_loop b recs = Some (Err TooLarge).
Proof using.
  induction recs as [|r recs IH]; intros b before Hn Hr; cbn [build_loop sizes fmap list_fmap total foldr].
  - assert (0 ≤ free_space b) by apply free_space_nonneg. change (foldr Z.add 0 []) with 0.
    rewrite decide_True by done. exists b. rewrite app_nil_r, Z.sub_0_r. done.
  - apply Forall_cons in Hr as [Hr Hrs]. fold (sizes recs). fold (total (sizes recs)).
    pose proof (total_nonneg recs). rewrite (node_count _ _ _ _ _ _ Hn).
    pose proof (node_insert _ _ _ _ _ _ (length before) r Hn (le_n _) Hr) as Hi.
    change SLOT_LEN with 4 in Hi. destruct (decide (blen r + 4 ≤ free_space b)).
    + destruct Hi as (b1 & Hi & Hn1 & Hf1). rewrite firstn_all, drop_all in Hn1.
      rewrite Hi. cbn [mbind option_bind]. specialize (IH b1 _ Hn1 Hrs). rewrite Hf1 in IH.
      destruct (decide (total (sizes recs) ≤ free_space b - (blen r + 4))).
      * rewrite decide_True by lia. destruct IH as (b' & Hb & Hn' & Hf'). exists b'.
        split; [done|]. split; [by rewrite <-app_assoc in Hn'|]. lia.
      * rewrite decide_False by lia. done.
    + rewrite decide_False by lia. rewrite Hi. done.
Qed.
Lemma build_page_ok kd tree no recs link :
  is_u16 tree → is_u32 no → is_u32 link → Forall (rec_ok kd) recs →
  if decide (total (sizes recs) ≤ USABLE)
  then ∃ b, build_page kd tree no recs link = Some (Ok b) ∧ node_at b kd tree no link recs
  else build_page kd tree no recs link = Some (Err TooLarge).
Proof using.
  intros Ht Hno Hl Hr. destruct (node_init kd tree no Ht Hno) as [Hn Hf].
  pose proof (build_loop_ok kd tree no 0 recs _ _ Hn Hr) as Hb. rewrite Hf in Hb. unfold build_page.
  destruct (decide _).
  - destruct Hb as (b & -> & Hb & _). cbn [mbind option_bind]. eexists. split; [done|].
    apply node_finalise, (node_set_link _ _ _ _ 0); done.
  - by rewrite Hb.
Qed.

(** *** Where a full page is cut *)
(** Both parts of a cut at [mid] fit. *)
Definition cut_fits (usable : Z) (recs : list bytes) (mid : nat) : Prop :=
  (1 ≤ mid < length recs)%nat ∧ total (sizes (take mid recs)) ≤ usable ∧ total (sizes (drop mid recs)) ≤ usable.
Definition imbalance (recs : list bytes) (mid : nat) : Z :=
  Z.abs (total (sizes (take mid recs)) - total (sizes (drop mid recs))).
Lemma total_cut recs mid :
  total (sizes recs) = total (sizes (take mid recs)) + total (sizes (drop mid recs)).
Proof using. rewrite <-(take_drop mid recs) at 1. unfold sizes. by rewrite fmap_app, total_app. Qed.

(** The loop after the first [j] positions: the best cut of them. *)
Definition best_of (usable : Z) (recs : list bytes) (j : nat) (best : option (Z * Z)) : Prop :=
  match best with
  | Some (d, m) => ∃ mid : nat, m = Z.of_nat mid ∧ (mid ≤ j)%nat ∧ cut_fits usable recs mid ∧ d = imbalance recs mid ∧
      ∀ mid', (mid' ≤ j)%nat → cut_fits usable recs mid' →
        d ≤ imbalance recs mid' ∧ ((mid' < mid)%nat → d < imbalance recs mid')
  | None => ∀ mid', (mid' ≤ j)%nat → ¬ cut_fits usable recs mid'
  end.
Lemma split_loop_best usable recs tail : ∀ (j : nat) acc best,
  sizes (take (length recs - 1) recs) = sizes (take j recs) ++ tail → (j ≤ length recs - 1)%nat →
  acc = total (sizes (take j recs)) → best_of usable recs j best →
  best_of usable recs (length recs - 1)
    (split_loop usable (total (sizes recs)) tail (Z.of_nat j) acc best).
Proof using.
  induction tail as [|size tail IH]; intros j acc best Ht Hj Hacc Hb; cbn [split_loop].
  - rewrite app_nil_r in Ht. apply (f_equal length) in Ht. unfold sizes in Ht.
    rewrite !length_fmap, !length_take in Ht. by replace (length recs - 1)%nat with j by lia.
  - assert (j < length recs - 1)%nat as Hj'.
    { apply (f_equal length) in Ht. unfold sizes in Ht.
      rewrite length_app, !length_fmap, !length_take in Ht. simpl in Ht. lia. }
    assert (sizes (take (S j) recs) = sizes (take j recs) ++ [size]) as HS.
    { assert (take (S j) (sizes (take (length recs - 1) recs)) = sizes (take (S j) recs)) as <-.
      { unfold sizes. rewrite <-fmap_take, take_take. do 2 f_equal. lia. }
      rewrite Ht, take_app_ge by (unfold sizes; rewrite length_fmap, length_take; lia).
      unfold sizes at 2. rewrite length_fmap, length_take.
      by replace (S j - j `min` length recs)%nat with 1%nat by lia. }
    assert (acc + size = total (sizes (take (S j) recs))) as Ha by (rewrite HS, total_app; simpl; lia).
    pose proof (total_cut recs (S j)) as Hcut.
    replace (total (sizes recs) - (acc + size)) with (total (sizes (drop (S j) recs))) by lia. rewrite Ha.
    replace (Z.of_nat j + 1) with (Z.of_nat (S j)) by lia.
    apply IH; [by rewrite Ht, HS, <-app_assoc|lia|done|].
    destruct (Z.leb_spec (total (sizes (take (S j) recs))) usable) as [Hl|Hl], (Z.leb_spec (total (sizes (drop (S j) recs))) usable) as [Hr|Hr];
      cbn [andb].
    2,3,4: assert (¬ cut_fits usable recs (S j)) as Hno by (intros (_ & ? & ?); lia);
      destruct best as [[d m]|]; cbn [best_of] in *;
      [destruct Hb as (mid & -> & ? & ? & ? & Hmin); exists mid; split_and!; [done|lia|done|done|]; intros mid' Hm' Hf';
       apply Hmin; [|done]; destruct (decide (mid' = S j)) as [->|]; [done|lia]
      |intros mid' Hm'; destruct (decide (mid' = S j)) as [->|]; [done|apply Hb; lia]].
    assert (cut_fits usable recs (S j)) as Hyes by (split_and!; [lia|lia|done|done]).
    fold (imbalance recs (S j)). destruct best as [[d m]|]; cbn [best_of] in *.
    + destruct Hb as (mid & -> & Hmj & Hfit & -> & Hmin).
      destruct (Z.ltb_spec (imbalance recs (S j)) (imbalance recs mid)).
      * exists (S j). split_and!; [done|lia|done|done|]. intros mid' Hm' Hf'.
        destruct (decide (mid' = S j)) as [->|]; [lia|]. destruct (Hmin mid') as [? _]; [lia|done|]. lia.
      * exists mid. split_and!; [done|lia|done|done|]. intros mid' Hm' Hf'.
        destruct (decide (mid' = S j)) as [->|]; [lia|]. apply Hmin; [lia|done].
    + exists (S j). split_and!; [done|lia|done|done|]. intros mid' Hm' Hf'.
      destruct (decide (mid' = S j)) as [->|]; [lia|]. exfalso. apply (Hb mid'); [lia|done].
Qed.
Lemma split_point_spec recs usable :
  match split_point recs usable with
  | Some m => ∃ mid : nat, m = Z.of_nat mid ∧ cut_fits usable recs mid ∧
      ∀ mid', cut_fits usable recs mid' → imbalance recs mid ≤ imbalance recs mid' ∧
        ((mid' < mid)%nat → imbalance recs mid < imbalance recs mid')
  | None => ∀ mid, ¬ cut_fits usable recs mid
  end.
Proof using.
  pose proof (split_loop_best usable recs (take (length recs - 1) (sizes recs)) 0 0 None) as Hb.
  unfold split_point. change (Z.of_nat 0) with 0 in Hb.
  assert (best_of usable recs (length recs - 1)
    (split_loop usable (total (sizes recs)) (take (length recs - 1) (sizes recs)) 0 0 None)) as H.
  { apply Hb; [by rewrite take_0; unfold sizes; rewrite fmap_take|lia|done|]. intros mid' Hm (? & _). lia. }
  destruct (split_loop _ _ _ _ _ _) as [[d m]|]; cbn [fmap option_fmap option_map snd best_of] in *.
  - destruct H as (mid & -> & _ & Hf & -> & Hmin). exists mid. split_and!; [done|done|].
    intros mid' Hf'. apply Hmin; [|done]. destruct Hf' as [? _]. lia.
  - intros mid Hf. apply (H mid); [|done]. destruct Hf as [? _]. lia.
Qed.
(** Records of at most half a page always leave room for a cut. *)
Lemma split_point_exists recs :
  (2 ≤ length recs)%nat → Forall (λ r, blen r + 4 ≤ USABLE / 2) recs → total (sizes recs) ≤ USABLE + USABLE / 2 →
  ∃ mid, cut_fits USABLE recs mid.
Proof using.
  intros Hl Hs Ht. assert (USABLE = 4056) as EU by done. assert (USABLE / 2 = 2028) as EH by done.
  assert (∀ n, (n < length recs)%nat → total (sizes (take (S n) recs)) ≤ total (sizes (take n recs)) + USABLE / 2) as Hstep.
  { intros n Hn. destruct (lookup_lt_is_Some_2 recs n Hn) as [r Hr]. rewrite (take_S_r _ _ _ Hr).
    unfold sizes. rewrite fmap_app, total_app. simpl. pose proof (Forall_lookup_1 _ _ _ _ Hs Hr) as Hr'. simpl in Hr'. lia. }
  assert (∀ n, (n ≤ length recs - 1)%nat →
    (∃ mid, cut_fits USABLE recs mid) ∨ total (sizes (take n recs)) ≤ USABLE / 2) as Hgrow.
  { induction n as [|n IH]; intros Hn; [by right|].
    destruct IH as [?|Hle]; [lia|by left|]. pose proof (Hstep n ltac:(lia)) as Hst.
    destruct (decide (total (sizes (take (S n) recs)) ≤ USABLE / 2)); [by right|]. left. exists (S n).
    pose proof (total_cut recs (S n)). split_and!; lia. }
  destruct (Hgrow (length recs - 1)%nat (le_n _)) as [?|Hle]; [done|]. exists (length recs - 1)%nat.
  pose proof (Hstep (length recs - 1)%nat ltac:(lia)) as Hst. pose proof (total_cut recs (length recs - 1)).
  rewrite (take_ge recs (S _)) in Hst by lia.
  split_and!; lia.
Qed.
End node.

End Node.
