(* ===== verification/Interior.v ===== *)
(** * Pages changed in place ([core/kernel/src/btree.rs], [core/kernel/src/page.rs])

    The tree grows an interior page record by record and rewrites a child pointer
    inside a record ([patch_child]), and a copied page gets a new number
    ([shadow_page]).  [interior_at] is the view of an interior page those
    operations keep: no two records overlap and no room is lost between them. *)
From S2P Require Import Prelude Crc Page Cells Order Node.
Import Page Cells Order Node.

Module Interior.

(** Two spans of a page, offset and length, that do not overlap. *)
Definition clear_of (x y : Z * Z) : Prop := x.1 + x.2 ≤ y.1 ∨ y.1 + y.2 ≤ x.1.
Definition apart (b : bytes) (n : nat) : Prop :=
  ∀ i j : nat, (i < n)%nat → (j < n)%nat → i ≠ j → clear_of (slot_bounds b (Z.of_nat i)) (slot_bounds b (Z.of_nat j)).
Record interior_at (b : bytes) (tree no link : Z) (recs : list bytes) : Prop := {
  int_node : node_at b Interior tree no link recs;
  int_tight : free_space b = USABLE - total (sizes recs);
  int_apart : apart b (length recs);
}.

Lemma bounds_of_slice b b' i j : 0 ≤ i → 0 ≤ j →
  slice b' (slot_base j) 4 = slice b (slot_base i) 4 → slot_bounds b' j = slot_bounds b i.
Proof.
  intros Hi Hj Hs. unfold slot_bounds, rd_u16.
  assert (∀ d, 0 ≤ d → d + 2 ≤ 4 → slice b' (slot_base j + d) 2 = slice b (slot_base i + d) 2) as Hd.
  { intros d ??. rewrite <-(slice_slice b' _ 4 d 2), <-(slice_slice b _ 4 d 2) by (page_unfold; lia). by rewrite Hs. }
  pose proof (Hd 0) as H0. rewrite !Z.add_0_r in H0. by rewrite H0, (Hd 2) by lia.
Qed.
Lemma clear_of_sym x y : clear_of x y → clear_of y x.
Proof. unfold clear_of. tauto. Qed.
Lemma apart_same b b' n : (∀ i : nat, (i < n)%nat → slot_bounds b' (Z.of_nat i) = slot_bounds b (Z.of_nat i)) →
  apart b n → apart b' n.
Proof. intros Hb Ha i j Hi Hj Hij. rewrite !Hb by done. by apply Ha. Qed.
(** A write to the header leaves the directory. *)
Lemma bounds_splice b off src i : 0 ≤ i → 0 ≤ off → off + blen src ≤ HEADER_LEN → blen b = PAGE_SIZE →
  slot_bounds (splice b off src) i = slot_bounds b i.
Proof.
  intros. apply bounds_of_slice; [done|done|]. pose proof (blen_nonneg src). page_unfold.
  destruct (decide (i < 1014)).
  - by rd.
  - rewrite slice_splice_other; [done|lia|lia|lia|right; lia].
Qed.

Section insert.
Context (b : bytes) (recs : list bytes) (k : nat) (rec : bytes).
Context (Hrep : page_rep b recs) (Hk : (k ≤ length recs)%nat) (Hfit : blen rec + SLOT_LEN ≤ free_space b).
Lemma apart_inserted : apart b (length recs) → apart (inserted b (blen recs) (Z.of_nat k) rec) (S (length recs)).
Proof using All.
  intros Ha. pose proof (rep_len _ _ Hrep). pose proof (rep_n _ _ Hrep) as Hn. pose proof (rep_free _ _ Hrep).
  assert (slot_base (blen recs) + blen rec + SLOT_LEN ≤ free_ptr b) as Hf.
  { pose proof (rep_dir _ _ Hrep). pose proof (blen_nonneg rec).
    unfold free_space, saturating_sub in Hfit. rewrite Hn in Hfit. page_unfold. lia. }
  assert (blen recs = Z.of_nat (length recs)) as Hb by done.
  assert (∀ i : nat, (i < length recs)%nat → free_ptr b ≤ (slot_bounds b (Z.of_nat i)).1) as Hold.
  { intros i Hi. destruct (lookup_lt_is_Some_2 recs i Hi) as [r Hr]. pose proof (rep_slots _ _ Hrep i r Hr) as Hs.
    unfold slot_holds in Hs. destruct (slot_bounds b (Z.of_nat i)). cbn. lia. }
  set (c := inserted b (blen recs) (Z.of_nat k) rec).
  assert (∀ i : nat, (i < k)%nat → slot_bounds c (Z.of_nat i) = slot_bounds b (Z.of_nat i)) as E1.
  { intros i Hi. apply bounds_of_slice; [lia|lia|]. apply inserted_before; (done || lia). }
  assert (slot_bounds c (Z.of_nat k) = (free_ptr b - blen rec, blen rec)) as E2 by (apply inserted_at; (done || lia)).
  assert (∀ i : nat, (k < i < S (length recs))%nat → slot_bounds c (Z.of_nat i) = slot_bounds b (Z.of_nat (i - 1))) as E3.
  { intros i Hi. apply bounds_of_slice; [lia|lia|]. replace (Z.of_nat i) with (Z.of_nat (i - 1) + 1) by lia.
    apply inserted_after; (done || lia). }
  assert (∀ i : nat, (i < length recs)%nat → clear_of (slot_bounds c (Z.of_nat k)) (slot_bounds b (Z.of_nat i))) as Hnew.
  { intros i Hi. left. rewrite E2. cbn [fst snd]. specialize (Hold i Hi). lia. }
  intros i j Hi Hj Hij.
  destruct (lt_eq_lt_dec i k) as [[Hik|Hik]|Hik], (lt_eq_lt_dec j k) as [[Hjk|Hjk]|Hjk];
    subst; try lia; rewrite ?(E1 i), ?(E1 j), ?(E3 i), ?(E3 j) by lia;
    try (apply Ha; lia); first [apply Hnew; lia | apply clear_of_sym, Hnew; lia].
Qed.
End insert.

Section pages.
Context `{HC : Crc32c}.

Lemma interior_insert b tree no link recs (k : nat) rec :
  interior_at b tree no link recs → (k ≤ length recs)%nat → rec_ok Interior rec → blen rec + 4 ≤ free_space b →
  ∃ b', insert_slot b (Z.of_nat k) rec = Some (Ok b') ∧ interior_at b' tree no link (take k recs ++ rec :: drop k recs).
Proof using.
  intros [Hn Ht Ha] Hk Hr Hf. pose proof (node_insert _ _ _ _ _ _ k rec Hn Hk Hr) as Hi. change SLOT_LEN with 4 in Hi.
  rewrite decide_True in Hi by done. destruct Hi as (b' & Hi & Hn' & Hf'). exists b'. split; [done|].
  pose proof (inv_rep _ _ (node_inv _ _ _ _ _ _ Hn)) as Hrep. split; [done| |].
  - rewrite Hf', Ht. pose proof (total_cut recs k) as Hc. unfold sizes in *. rewrite fmap_app, total_app.
    csimpl. cbn [total foldr] in *. unfold total in *. lia.
  - assert (length (take k recs ++ rec :: drop k recs) = S (length recs)) as ->.
    { rewrite length_app, length_take. cbn [length]. rewrite length_drop. lia. }
    pose proof (rep_len _ _ Hrep). pose proof (rep_n _ _ Hrep). pose proof (rep_free _ _ Hrep).
    assert (slot_base (blen recs) + blen rec + SLOT_LEN ≤ free_ptr b).
    { pose proof (rep_dir _ _ Hrep). pose proof (blen_nonneg rec).
      unfold free_space, saturating_sub in Hf. rewrite (rep_n _ _ Hrep) in Hf. page_unfold. lia. }
    rewrite insert_slot_eq with (n := blen recs) in Hi by (unfold blen in *; (done || lia)).
    apply Some_Ok_inj in Hi as <-. by apply apart_inserted.
Qed.
Lemma interior_finalise b tree no link recs l :
  interior_at b tree no link recs → interior_at (finalise b l) tree no link recs.
Proof using.
  intros [Hn Ht Ha]. destruct (node_finalise _ _ _ _ _ _ l Hn) as [Hn' Hf]. split; [done|by rewrite Hf|].
  eapply apart_same; [|exact Ha]. intros. apply bounds_splice; [lia|lia|by rewrite blen_le_bytes|].
  by apply (rep_len _ recs), (inv_rep _ _ (node_inv _ _ _ _ _ _ Hn)).
Qed.
Lemma free_space_splice b off src : blen b = PAGE_SIZE → 18 ≤ off → off + blen src ≤ HEADER_LEN →
  free_space (splice b off src) = free_space b.
Proof using. intros. pose proof (blen_nonneg src). unfold free_space, nentries, free_ptr. page_unfold. by rd. Qed.
Lemma interior_set_link b tree no link recs link' :
  interior_at b tree no link recs → is_u32 link' → interior_at (set_child0 b link') tree no link' recs.
Proof using.
  intros [Hn Ht Ha] Hu. pose proof (rep_len _ _ (inv_rep _ _ (node_inv _ _ _ _ _ _ Hn))) as Hb. split.
  - by eapply node_set_link.
  - rewrite <-Ht. apply free_space_splice; [done|lia|by rewrite blen_le_bytes].
  - eapply apart_same; [|exact Ha]. intros. apply bounds_splice; [lia|lia|by rewrite blen_le_bytes|done].
Qed.
Lemma interior_init tree no : is_u16 tree → is_u32 no → interior_at (init Interior tree no) tree no 0 [].
Proof using. intros Ht Hn. destruct (node_init Interior tree no Ht Hn) as [Hi Hf]. split; [done|done|]. intros i j Hi'. cbn in Hi'. lia. Qed.
Lemma interior_build_loop tree no link recs : ∀ b before,
  interior_at b tree no link before → Forall (rec_ok Interior) recs → total (sizes (before ++ recs)) ≤ USABLE →
  ∃ b', build_loop b recs = Some (Ok b') ∧ interior_at b' tree no link (before ++ recs).
Proof using.
  induction recs as [|r recs IH]; intros b before Hb Hr Ht; cbn [build_loop].
  - exists b. by rewrite app_nil_r.
  - apply Forall_cons in Hr as [Hr Hrs]. rewrite (node_count _ _ _ _ _ _ (int_node _ _ _ _ _ Hb)).
    destruct (interior_insert b tree no link before (length before) r Hb (le_n _) Hr) as (b1 & Hi & Hb1).
    { rewrite (int_tight _ _ _ _ _ Hb). unfold sizes in *. rewrite fmap_app, total_app in Ht. csimpl in Ht.
      pose proof (total_nonneg recs) as Hnn. unfold sizes in Hnn. change (total (blen r + 4 :: ((λ r, blen r + 4) <$> recs)))
        with (blen r + 4 + total ((λ r, blen r + 4) <$> recs)) in Ht. lia. }
    rewrite firstn_all, drop_all in Hb1. rewrite Hi. cbn [mbind option_bind].
    destruct (IH b1 (before ++ [r]) Hb1 Hrs) as (b' & Hl & Hb'); [by rewrite <-app_assoc|].
    exists b'. split; [done|]. by rewrite <-app_assoc in Hb'.
Qed.
Lemma interior_build tree no recs link :
  is_u16 tree → is_u32 no → is_u32 link → Forall (rec_ok Interior) recs → total (sizes recs) ≤ USABLE →
  ∃ b, build_page Interior tree no recs link = Some (Ok b) ∧ interior_at b tree no link recs.
Proof using.
  intros Ht Hn Hl Hr Hs. destruct (interior_build_loop tree no 0 recs _ [] (interior_init tree no Ht Hn) Hr Hs) as (b & Hb & Hi).
  exists (finalise (set_next_leaf b link) 0). unfold build_page. rewrite Hb. split; [done|].
  by apply interior_finalise, (interior_set_link _ _ _ 0).
Qed.

(** *** A child pointer rewritten in its record *)
Lemma total_len_insert recs (k : nat) r r' : recs !! k = Some r → blen r' = blen r → total_len (<[k := r']> recs) = total_len recs.
Proof using.
  revert k. induction recs as [|x recs IH]; intros [|k] Hk Hl; try done.
  - cbn in Hk. simplify_eq. cbn. lia.
  - change (blen x + total_len (<[k := r']> recs) = blen x + total_len recs). by rewrite (IH k).
Qed.
Lemma patch_rep b recs (k : nat) pre old src : page_rep b recs → apart b (length recs) →
  recs !! k = Some (pre ++ old) → blen src = blen old →
  let '(off, n) := slot_bounds b (Z.of_nat k) in
  0 ≤ off + n - blen old ∧ off + n ≤ PAGE_SIZE ∧
  page_rep (splice b (off + n - blen old) src) (<[k := pre ++ src]> recs) ∧
  same_identity b (splice b (off + n - blen old) src) ∧
  free_space (splice b (off + n - blen old) src) = free_space b ∧
  apart (splice b (off + n - blen old) src) (length recs).
Proof using.
  intros Hrep Ha Hk Hl. pose proof (rep_slots _ _ Hrep k _ Hk) as Hs. unfold slot_holds in Hs.
  destruct (slot_bounds b (Z.of_nat k)) as [off n] eqn:Eb. destruct Hs as (En & Hoff & Hend & Hsl).
  pose proof (rep_dir _ _ Hrep) as Hdir. pose proof (rep_len _ _ Hrep) as Hlen. rewrite blen_app in En.
  pose proof (blen_nonneg pre). pose proof (blen_nonneg old). pose proof (blen_nonneg recs). pose proof (lookup_lt_Some _ _ _ Hk).
  assert (blen recs = Z.of_nat (length recs)) as Hb by done.
  assert (40 ≤ off) by (page_unfold; lia).
  set (b' := splice b (off + n - blen old) src).
  assert (∀ o m, 0 ≤ o → 0 ≤ m → o + m ≤ off + n - blen old ∨ off + n ≤ o → slice b' o m = slice b o m) as Hout.
  { intros o m ? ? ?. unfold b'. apply slice_splice_other; [lia|lia|done|lia]. }
  assert (∀ i : nat, (i < length recs)%nat → slot_bounds b' (Z.of_nat i) = slot_bounds b (Z.of_nat i)) as Hbd.
  { intros i Hi. apply bounds_of_slice; [lia|lia|]. apply Hout; page_unfold; lia. }
  assert (free_ptr b' = free_ptr b) as Ef by (unfold free_ptr; page_unfold; rewrite Hout; (done || lia)).
  assert (nentries b' = nentries b) as Ene by (unfold nentries; page_unfold; rewrite Hout; (done || lia)).
  assert (length (<[k := pre ++ src]> recs) = length recs) as Elen by apply length_insert.
  split_and!; [lia|lia| | |unfold free_space; by rewrite Ef, Ene|by apply (apart_same b)].
  2: { unfold same_identity. rewrite !Hout by (page_unfold; lia). done. }
  split; rewrite ?Ef, ?Ene.
  - unfold b'. by rewrite blen_splice.
  - rewrite (rep_n _ _ Hrep). unfold blen. by rewrite Elen.
  - unfold blen. rewrite Elen. exact Hdir.
  - apply Hrep.
  - intros i r Hi. unfold slot_holds. destruct (decide (i = k)) as [->|Hik].
    + rewrite list_lookup_insert_eq in Hi by lia. injection Hi as <-.
      rewrite Hbd by lia. rewrite Eb, Ef, blen_app. split_and!; [lia|done|done|].
      replace n with (blen pre + blen src) by lia. rewrite slice_split by (unfold b'; rewrite ?blen_splice; lia).
      rewrite Hout by lia. f_equal.
      * rewrite <-(Z.add_0_r off), <-(slice_slice b off n 0 (blen pre)), Hsl by lia. by rewrite slice_app_exact.
      * unfold b'. rewrite slice_splice_inner by lia. apply slice_whole; lia.
    + rewrite list_lookup_insert_ne in Hi by done. pose proof (rep_slots _ _ Hrep i r Hi) as Hs.
      pose proof (lookup_lt_Some _ _ _ Hi) as Hil. pose proof (Ha i k Hil ltac:(lia) Hik) as Hc.
      unfold slot_holds in Hs. rewrite Hbd, Ef by lia. rewrite Eb in Hc.
      destruct (slot_bounds b (Z.of_nat i)) as [o m]. destruct Hs as (-> & Ho & He & Hr). split_and!; [done|done|done|].
      pose proof (blen_nonneg r). unfold clear_of in Hc. cbn [fst snd] in Hc. rewrite Hout; [done|page_unfold; lia|lia|lia].
  - rewrite (total_len_insert recs k (pre ++ old)); [apply Hrep|done|rewrite !blen_app; lia].
Qed.
Lemma interior_patch b tree no link recs (k : nat) key c c' :
  interior_at b tree no link recs → recs !! k = Some (enc_interior key c) → rec_ok Interior (enc_interior key c') →
  ∃ b', (let '(off, n) := slot_bounds b (Z.of_nat k) in put_at b (off + n - 4) (le_bytes 4 c')) = Some b' ∧
    interior_at b' tree no link (<[k := enc_interior key c']> recs).
Proof using.
  intros [Hn Ht Ha] Hk Hr. pose proof (inv_rep _ _ (node_inv _ _ _ _ _ _ Hn)) as Hrep.
  unfold enc_interior in *. rewrite app_assoc in Hk, Hr |- *.
  pose proof (patch_rep b recs k _ (le_bytes 4 c) (le_bytes 4 c') Hrep Ha Hk) as Hp.
  rewrite !blen_le_bytes in Hp. specialize (Hp eq_refl). change (Z.of_nat 4) with 4 in Hp.
  destruct (slot_bounds b (Z.of_nat k)) as [off n]. destruct Hp as (H0 & H1 & Hrep' & Hs & Hf & Ha').
  exists (splice b (off + n - 4) (le_bytes 4 c')). pose proof (rep_len _ _ Hrep). split.
  { apply put_at_ok; [lia|]. rewrite blen_le_bytes. lia. }
  split.
  - eapply node_same; [done|done|done|]. apply Forall_insert; [apply Hn|done].
  - rewrite Hf, Ht, !total_sizes. rewrite (total_len_insert _ _ _ _ Hk) by (by rewrite !blen_app, !blen_le_bytes).
    unfold blen. by rewrite length_insert.
  - rewrite length_insert. done.
Qed.

(** *** A copied page renumbered *)
Lemma renumber_ok b kd tree no link recs no' : node_at b kd tree no link recs → is_u32 no' →
  ∃ b', put_at b 12 (le_bytes 4 no') = Some b' ∧ node_at b' kd tree no' link recs ∧ free_space b' = free_space b ∧
    ∀ i : nat, slot_bounds b' (Z.of_nat i) = slot_bounds b (Z.of_nat i).
Proof using.
  intros [[Hrep Hm Hv Hfo Hki] Hk Ht Hno Hl Hr] Hu. pose proof (rep_len _ _ Hrep) as Hlen.
  exists (splice b 12 (le_bytes 4 no')). split; [apply put_at_ok; rewrite ?blen_le_bytes; page_unfold; lia|].
  set (b' := splice b 12 (le_bytes 4 no')).
  assert (∀ o m, 0 ≤ o → o + m ≤ 12 ∨ 16 ≤ o → slice b' o m = slice b o m) as Hout.
  { intros. unfold b'. apply slice_splice_other; rewrite ?blen_le_bytes; page_unfold; lia. }
  assert (∀ i : nat, slot_bounds b' (Z.of_nat i) = slot_bounds b (Z.of_nat i)) as Hbd.
  { intros i. apply bounds_of_slice; [lia|lia|]. apply Hout; page_unfold; lia. }
  assert (nentries b' = nentries b ∧ free_ptr b' = free_ptr b) as [En Ef].
  { unfold nentries, free_ptr. page_unfold. by rewrite !Hout by lia. }
  split; [|split; [unfold free_space; by rewrite En, Ef|done]].
  split; [split|..|done].
  - destruct Hrep as [_ Hn Hdir Hfree Hslots Htot]. split; rewrite ?En, ?Ef; try done.
    + unfold b'. by rewrite blen_splice.
    + intros i r Hi. specialize (Hslots i r Hi). unfold slot_holds in *. rewrite Hbd, Ef.
      pose proof (blen_nonneg recs). destruct (slot_bounds b (Z.of_nat i)) as [o m]. destruct Hslots as (-> & ? & ? & Hs).
      split_and!; [done|done|done|]. rewrite Hout; [done|page_unfold; lia|page_unfold; lia].
  - rewrite <-Hm. unfold rd_u32. by rewrite Hout by lia.
  - rewrite <-Hv. unfold rd_u16. by rewrite Hout by lia.
  - rewrite <-Hfo. unfold format_version. page_unfold. by rewrite Hout by lia.
  - destruct Hki as [kd' Hkd']. exists kd'. rewrite <-Hkd'. unfold kind. page_unfold. by rewrite Hout by lia.
  - rewrite <-Hk. unfold kind. page_unfold. by rewrite Hout by lia.
  - rewrite <-Ht. unfold tree_id. page_unfold. by rewrite Hout by lia.
  - unfold page_no, b'. page_unfold. rewrite slice_splice_inner by (rewrite ?blen_le_bytes; lia).
    rewrite Z.sub_diag, slice_le_bytes by done. by apply le_num_le_bytes_4.
  - rewrite <-Hl. unfold next_leaf. page_unfold. by rewrite Hout by lia.
Qed.
Lemma interior_renumber b tree no link recs no' : interior_at b tree no link recs → is_u32 no' →
  ∃ b', put_at b 12 (le_bytes 4 no') = Some b' ∧ interior_at b' tree no' link recs.
Proof using.
  intros [Hn Ht Ha] Hu. destruct (renumber_ok _ _ _ _ _ _ no' Hn Hu) as (b' & Hp & Hn' & Hf & Hb).
  exists b'. split; [done|]. split; [done|by rewrite Hf|]. apply (apart_same b); [intros; apply Hb|done].
Qed.
End pages.
End Interior.
