(* ===== verification/Pool.v ===== *)
(** * Pages of the kernel store ([core/kernel/src/pool.rs])

    What the tree asks of the buffer pool, as a class: read a page, write the page
    it holds a guard on, reserve a page number, retire one.  [Pool] is the
    bookkeeping of [BufferPool] that decides the answers: the free list by
    retirement generation, the pages thawed for this epoch, the boundary below
    which pages are published, the resource limits.  Frames, pins and eviction
    are not in it: a page is its current contents wherever they are, and the
    refusals of a pool with every frame pinned are left out. *)
From S2P Require Import Prelude Page Limits.
Import Page.

(** ** The interface *)
Class PagePool (P : Type) := {
  get : P → Z → result error bytes;
  put : P → Z → bytes → P;
  allocate : P → P * result error Z;
  free_shadow_page : P → Z → Z → P * result error unit;
  is_frozen : P → Z → bool;
  page_count : P → Z;
  (** [set_frozen_boundary]: what is written so far becomes immutable. *)
  publish : P → P;
  stamp_generation : P → Z;
  record_limit : P → option Z;
  compact_cells : P → bool;
  (** [read_run_uncached] where it answers [Ok(true)]. *)
  read_run : P → Z → Z → option bytes;
  (** The number may be handed out by this or a later allocation. *)
  available : P → Z → Prop;
  (** The page is published and no allocation of this epoch hands it out. *)
  kept : P → Z → Prop;
  pool_ok : P → Prop;
}.
(** What no operation on pages changes. *)
Definition same_settings `{PagePool P} (p p' : P) : Prop :=
  stamp_generation p' = stamp_generation p ∧ record_limit p' = record_limit p ∧ compact_cells p' = compact_cells p.
(** Every page but [no] reads the same and is as frozen as before. *)
Definition same_but `{PagePool P} (no : option Z) (p p' : P) : Prop :=
  ∀ x, Some x ≠ no → get p' x = get p x ∧ is_frozen p' x = is_frozen p x.

Class PagePoolLaws (P : Type) `{PagePool P} := {
  get_put p no b x : get (put p no b) x = if decide (x = no) then Ok b else get p x;
  put_frame p no b : pool_ok p →
    pool_ok (put p no b) ∧ same_settings p (put p no b) ∧ page_count (put p no b) = page_count p ∧
    (∀ x, is_frozen (put p no b) x = is_frozen p x) ∧ (∀ x, available (put p no b) x ↔ available p x) ∧
    (∀ x, kept p x → kept (put p no b) x);
  kept_frozen p x : kept p x → is_frozen p x = true;
  allocate_ok p p' no : pool_ok p → allocate p = (p', Ok no) →
    pool_ok p' ∧ same_settings p p' ∧ same_but (Some no) p p' ∧
    available p no ∧ 2 ≤ no < page_count p' ∧ is_u32 no ∧ page_count p ≤ page_count p' ∧
    get p' no = Ok (finalise (init Free 0 no) 0) ∧ is_frozen p' no = false ∧
    (∀ x, available p' x → available p x ∧ x ≠ no) ∧ ¬ kept p no ∧ (∀ x, kept p x → kept p' x);
  allocate_err p p' e : pool_ok p → allocate p = (p', Err e) →
    pool_ok p' ∧ same_settings p p' ∧ same_but None p p' ∧ page_count p' = page_count p ∧
    (∀ x, available p' x → available p x) ∧ (∀ x, kept p x → kept p' x);
  free_ok p no birth p' r : pool_ok p → free_shadow_page p no birth = (p', r) →
    ¬ available p no → 2 ≤ no < page_count p →
    pool_ok p' ∧ same_settings p p' ∧ same_but None p p' ∧ page_count p' = page_count p ∧
    (∀ x, available p' x → available p x ∨ x = no) ∧ (∀ x, kept p x → kept p' x);
  publish_ok p : pool_ok p →
    pool_ok (publish p) ∧ same_settings p (publish p) ∧ page_count (publish p) = page_count p ∧
    (∀ x, get (publish p) x = get p x) ∧ (∀ x, available (publish p) x ↔ available p x) ∧
    (∀ x, kept p x → kept (publish p) x) ∧ (∀ x, 2 ≤ x < page_count p → ¬ available p x → kept (publish p) x) ∧
    (∀ x, is_frozen p x = true → is_frozen (publish p) x = true);
  read_run_get p start n buf : 0 ≤ n → read_run p start n = Some buf →
    blen buf = n * PAGE_SIZE ∧ ∀ i, 0 ≤ i < n → get p (start + i) = Ok (slice buf (i * PAGE_SIZE) PAGE_SIZE);
}.

(** ** The pool's bookkeeping *)
Module Pool.

Record Pool := mkPool {
  contents : gmap Z bytes;
  resident : gset Z;
  next_page : Z;
  limits : option Limits.ResourceLimits;
  free : list (Z * list Z);         (* BTreeMap<u64, Vec<u32>> *)
  free_count : Z;
  free_birth : gmap Z Z;
  epoch_allocated_pages : Z;
  stamp_gen : Z;
  reuse_limit : Z;
  thawed : gset Z;
  frozen_boundary : Z;
  compact : bool;
}.
Definition with_free (p : Pool) free count birth : Pool :=
  mkPool (contents p) (resident p) (next_page p) (limits p) free count birth (epoch_allocated_pages p)
    (stamp_gen p) (reuse_limit p) (thawed p) (frozen_boundary p) (compact p).

(** [entry(g).or_default().push(page)]. *)
Fixpoint push_free (g page : Z) (l : list (Z * list Z)) : list (Z * list Z) :=
  match l with
  | [] => [(g, [page])]
  | (h, v) :: l' =>
      if g <? h then (g, [page]) :: l else if g =? h then (h, v ++ [page]) :: l' else (h, v) :: push_free g page l'
  end.

Definition free_page (p : Pool) (page : Z) : Pool * result error unit :=
  if page <? 2 then (p, Ok tt)
  else if match limits p with Some l => Limits.tracked_pages l <=? free_count p | None => false end
  then (p, Err (ResourceLimit "retired-page bookkeeping full"))
  else (with_free p (push_free (stamp_gen p) page (free p)) (free_count p + 1) (free_birth p), Ok tt).
Definition free_shadow (p : Pool) (page birth : Z) : Pool * result error unit :=
  match free_page p page with
  | (p, Ok _) =>
      ((if (0 <? birth) && (birth <=? stamp_gen p)
        then with_free p (free p) (free_count p) (<[page := birth]> (free_birth p)) else p), Ok tt)
  | (p, Err e) => (p, Err e)
  end.

(** [pop_free]: the last page of the oldest eligible generation. *)
Definition pop_free (p : Pool) : option (Z * Pool) :=
  match free p with
  | (g, v) :: l =>
      if g <=? reuse_limit p then
        match reverse v with
        | page :: v' =>
            Some (page, with_free p (match v' with [] => l | _ => (g, reverse v') :: l end)
                          (free_count p - 1) (base.delete page (free_birth p)))
        | [] => None
        end
      else None
  | [] => None
  end.

Definition admit_allocation (p : Pool) : result error unit :=
  match limits p with
  | Some l =>
      let reuse := match free p with (g, _) :: _ => g <=? reuse_limit p | [] => false end in
      if reuse && (Limits.tracked_pages l <=? Z.of_nat (size (thawed p)))
      then Err (ResourceLimit "recycled-page bookkeeping full")
      else if negb reuse && (Limits.data_bytes l / PAGE_SIZE <=? next_page p)
      then Err (ResourceLimit "data extent full; snapshots or fallback roots may pin pages")
      else Ok tt
  | None => Ok tt
  end.
Definition with_page (p : Pool) (next : Z) (thaw : gset Z) (no : Z) : Pool :=
  mkPool (<[no := finalise (init Free 0 no) 0]> (contents p)) ({[no]} ∪ resident p) next (limits p) (free p)
    (free_count p) (free_birth p) (epoch_allocated_pages p) (stamp_gen p) (reuse_limit p) thaw
    (frozen_boundary p) (compact p).
Definition count_allocation (p : Pool) : Pool :=
  mkPool (contents p) (resident p) (next_page p) (limits p) (free p) (free_count p) (free_birth p)
    (epoch_allocated_pages p + 1) (stamp_gen p) (reuse_limit p) (thawed p) (frozen_boundary p) (compact p).
Definition allocate_page (p : Pool) : Pool * result error Z :=
  match admit_allocation p with
  | Err e => (p, Err e)
  | Ok _ =>
      let p := count_allocation p in
      match pop_free p with
      | Some (no, p) => (with_page p (next_page p) ({[no]} ∪ thawed p) no, Ok no)
      | None =>
          let no := next_page p in
          match checked_add_u32 no 1 with
          | Some next => (with_page p next (thawed p) no, Ok no)
          | None => (p, Err TooLarge)
          end
      end
  end.

Definition frozen (p : Pool) (page : Z) : bool :=
  (2 <=? page) && (page <? frozen_boundary p) && negb (bool_decide (page ∈ thawed p)).
(** Publication: everything written so far is immutable from now on. *)
Definition set_frozen_boundary (p : Pool) : Pool :=
  mkPool (contents p) (resident p) (next_page p) (limits p) (free p) (free_count p) (free_birth p) 0
    (stamp_gen p) (reuse_limit p) ∅ (next_page p) (compact p).

Definition load (p : Pool) (no : Z) : result error bytes :=
  ok_or (contents p !! no) (Io "failed to fill whole buffer").
Definition store (p : Pool) (no : Z) (b : bytes) : Pool :=
  mkPool (<[no := b]> (contents p)) ({[no]} ∪ resident p) (next_page p) (limits p) (free p) (free_count p)
    (free_birth p) (epoch_allocated_pages p) (stamp_gen p) (reuse_limit p) (thawed p) (frozen_boundary p) (compact p).
(** A run of pages none of which is resident, checked page by page. *)
Definition run_uncached (p : Pool) (start n : Z) : option bytes :=
  if (n =? 0) || (next_page p <? start + n) then None
  else if forallb (λ i, negb (bool_decide (start + i ∈ resident p))) (seqZ 0 n) then
    bs ← mapM (λ i, contents p !! (start + i)) (seqZ 0 n);
    if forallb (λ b, blen b =? PAGE_SIZE) bs then Some (concat bs) else None
  else None.

Definition free_pages (p : Pool) : list Z := concat (snd <$> free p).
(** The free pages that this epoch may hand out. *)
Definition eligible (p : Pool) : list Z := concat (snd <$> List.filter (λ gv, gv.1 <=? reuse_limit p) (free p)).
#[export] Instance pool_pages : PagePool Pool := {
  get := load;
  put := store;
  allocate := allocate_page;
  free_shadow_page := free_shadow;
  is_frozen := frozen;
  page_count := next_page;
  publish := set_frozen_boundary;
  stamp_generation := stamp_gen;
  record_limit p := Limits.record_bytes <$> limits p;
  compact_cells := compact;
  read_run := run_uncached;
  available p no := no ∈ free_pages p ∨ next_page p ≤ no;
  kept p no := frozen p no = true ∧ no ∉ eligible p;
  pool_ok p := 2 ≤ next_page p ≤ u32_max ∧ reuse_limit p < stamp_gen p ∧ frozen_boundary p ≤ next_page p ∧ NoDup (free_pages p) ∧ Forall (λ no, 2 ≤ no < next_page p) (free_pages p);
}.
(** ** The bookkeeping keeps the interface's laws *)
Lemma push_free_pages g page l : concat (snd <$> push_free g page l) ≡ₚ page :: concat (snd <$> l).
Proof.
  induction l as [|[h v] l IH]; [done|]. cbn [push_free]. destruct (g <? h); [done|]. destruct (g =? h); csimpl.
  - rewrite <-app_assoc. simpl. by rewrite Permutation_middle.
  - rewrite IH. by rewrite Permutation_middle.
Qed.
Lemma pop_free_pages p no p' : pop_free p = Some (no, p') →
  free_pages p ≡ₚ no :: free_pages p' ∧ no ∈ eligible p ∧ (∀ x, x ∈ eligible p' → x ∈ eligible p) ∧
  contents p' = contents p ∧ next_page p' = next_page p ∧ thawed p' = thawed p ∧ frozen_boundary p' = frozen_boundary p ∧
  stamp_gen p' = stamp_gen p ∧ reuse_limit p' = reuse_limit p ∧ limits p' = limits p ∧ compact p' = compact p.
Proof.
  unfold pop_free, free_pages, eligible. destruct (free p) as [|[g v] l] eqn:Ef; [done|].
  destruct (g <=? reuse_limit p) eqn:Eg; [|done]. destruct (reverse v) as [|q v'] eqn:E; [done|].
  intros [= <- <-]. cbn [free with_free reuse_limit].
  assert (v = reverse v' ++ [q]) as -> by (rewrite <-(reverse_involutive v), E, reverse_cons; done).
  assert (∀ f : list (Z * list Z) → list (Z * list Z), (∀ l, f ((g, reverse v') :: l) = (g, reverse v') :: f l) →
    concat (snd <$> f match v' with [] => l | _ => (g, reverse v') :: l end) = reverse v' ++ concat (snd <$> f l)) as Hcat.
  { intros f Hf. destruct v'; [done|]. rewrite Hf. by csimpl. }
  split_and!; try done.
  - pose proof (Hcat id) as Hid. unfold id in Hid. rewrite Hid by done. csimpl. rewrite <-app_assoc. simpl. by rewrite Permutation_middle.
  - cbn [List.filter fst]. rewrite Eg. csimpl. rewrite !elem_of_app. left. right. by left.
  - intros x. rewrite (Hcat (List.filter (λ gv, gv.1 <=? reuse_limit p))) by (intros; cbn [List.filter fst]; by rewrite Eg).
    cbn [List.filter fst]. rewrite Eg. csimpl. rewrite !elem_of_app. tauto.
Qed.
Lemma push_free_eligible lim g page l : lim < g →
  List.filter (λ gv, gv.1 <=? lim) (push_free g page l) = List.filter (λ gv, gv.1 <=? lim) l.
Proof.
  intros Hg. assert (g <=? lim = false) as Eg by (apply Z.leb_gt; lia).
  induction l as [|[h v] l IH]; cbn [push_free List.filter fst]; [by rewrite Eg|].
  destruct (g <? h); [cbn [List.filter fst]; by rewrite Eg|]. destruct (Z.eqb_spec g h) as [<-|]; cbn [List.filter fst].
  - by rewrite Eg.
  - by rewrite IH.
Qed.

Lemma mapM_lookup_Some (f : Z → option bytes) l k i x : mapM f l = Some k → l !! i = Some x → ∃ y, f x = Some y ∧ k !! i = Some y.
Proof.
  intros HF Hi. apply mapM_Some in HF. destruct (Forall2_lookup_l _ _ _ _ _ HF Hi) as (y & ? & ?). eauto.
Qed.
Lemma concat_slices (bs : list bytes) n (i : nat) b :
  Forall (λ b, blen b = n) bs → bs !! i = Some b → slice (concat bs) (Z.of_nat i * n) n = b.
Proof.
  intros Hall. revert i. induction Hall as [|c bs Hc Hall IH]; intros [|i] Hi; simplify_eq/=.
  - by rewrite slice_app_exact.
  - pose proof (blen_nonneg c). rewrite slice_app_r by lia. rewrite <-(IH i Hi). f_equal. lia.
Qed.
Lemma blen_concat (bs : list bytes) n : Forall (λ b, blen b = n) bs → blen (concat bs) = Z.of_nat (length bs) * n.
Proof.
  induction 1 as [|c bs Hc Hall IH]; [done|]. cbn [concat length]. rewrite blen_app, IH, Hc. lia.
Qed.

Lemma put_keeps p no b : pool_ok p →
  pool_ok (put p no b) ∧ same_settings p (put p no b) ∧ page_count (put p no b) = page_count p ∧
  (∀ x, is_frozen (put p no b) x = is_frozen p x) ∧ (∀ x, available (put p no b) x ↔ available p x) ∧
  (∀ x, kept p x → kept (put p no b) x).
Proof. done. Qed.
Lemma frozen_new p p' no : frozen_boundary p' = frozen_boundary p → thawed p' = {[no]} ∪ thawed p →
  frozen p' no = false ∧ ∀ x, x ≠ no → frozen p' x = frozen p x.
Proof.
  intros Hf Ht. unfold frozen. rewrite Hf, Ht. split.
  - rewrite bool_decide_true by set_solver. by rewrite andb_false_r.
  - intros x Hx. do 2 f_equal. apply bool_decide_ext. set_solver.
Qed.
Lemma allocate_recycled p q p1 : pool_ok p → pop_free (count_allocation p) = Some (q, p1) →
  let p' := with_page p1 (next_page p1) ({[q]} ∪ thawed p1) q in
  pool_ok p' ∧ same_settings p p' ∧ same_but (Some q) p p' ∧
  available p q ∧ 2 ≤ q < page_count p' ∧ is_u32 q ∧ page_count p ≤ page_count p' ∧
  get p' q = Ok (finalise (init Free 0 q) 0) ∧ is_frozen p' q = false ∧
  (∀ x, available p' x → available p x ∧ x ≠ q) ∧ ¬ kept p q ∧ (∀ x, kept p x → kept p' x).
Proof.
  intros (Hn & Hgen & Hfb & Hnd & Hall) Hpop p'.
  apply pop_free_pages in Hpop as (Hperm & Hel & Hsub & Hc & Hnx & Ht & Hf & Hs & Hr & Hl & Hco).
  change (free_pages (count_allocation p)) with (free_pages p) in Hperm.
  change (eligible (count_allocation p)) with (eligible p) in Hel, Hsub.
  assert (contents p' = <[q := finalise (init Free 0 q) 0]> (contents p)) as Ec by (cbn; by rewrite Hc).
  assert (next_page p' = next_page p) as En by (cbn; by rewrite Hnx).
  destruct (frozen_new p p' q) as [Hfq Hfx]; [done|cbn; by rewrite Ht|].
  rewrite Hperm in Hnd. apply NoDup_cons in Hnd as [Hq Hnd]. rewrite Hperm in Hall. apply Forall_cons in Hall as [Hq2 Hall].
  unfold pool_ok, same_settings, same_but, available, page_count, is_frozen, kept, stamp_generation, record_limit, compact_cells, get.
  cbn [pool_pages]. rewrite En. change (free_pages p') with (free_pages p1). change (eligible p') with (eligible p1).
  split_and!; try done; try lia; try width.
  - change (reuse_limit p1 < stamp_gen p1). by rewrite Hr, Hs.
  - change (frozen_boundary p1 ≤ next_page p). by rewrite Hf.
  - cbn. by rewrite Hl.
  - intros x Hx. assert (x ≠ q) by congruence. unfold load. rewrite Ec, lookup_insert_ne by done. by rewrite Hfx.
  - left. rewrite Hperm. left.
  - unfold load. by rewrite Ec, lookup_insert_eq.
  - intros x [Hx|Hx]; [|split; [by right|lia]]. split; [left; rewrite Hperm; by right|by intros ->].
  - tauto.
  - intros x [Hx Hxe]. rewrite Hfx by (by intros ->). split; [done|]. eauto.
Qed.
Lemma allocate_fresh p : pool_ok p → next_page p + 1 ≤ u32_max →
  let no := next_page p in let p' := with_page (count_allocation p) (no + 1) (thawed p) no in
  pool_ok p' ∧ same_settings p p' ∧ same_but (Some no) p p' ∧
  available p no ∧ 2 ≤ no < page_count p' ∧ is_u32 no ∧ page_count p ≤ page_count p' ∧
  get p' no = Ok (finalise (init Free 0 no) 0) ∧ is_frozen p' no = false ∧
  (∀ x, available p' x → available p x ∧ x ≠ no) ∧ ¬ kept p no ∧ (∀ x, kept p x → kept p' x).
Proof.
  intros (Hn & Hgen & Hfb & Hnd & Hall) Hle no p'.
  assert (frozen p no = false) as Hfn by (unfold frozen; by rewrite (proj2 (Z.ltb_ge no _)), andb_false_r).
  unfold pool_ok, same_settings, same_but, available, page_count, is_frozen, kept, get. cbn [pool_pages].
  change (free_pages p') with (free_pages p). change (next_page p') with (no + 1). change (eligible p') with (eligible p).
  unfold no in *. split_and!; try done; try lia; try width.
  - change (frozen_boundary p ≤ next_page p + 1). lia.
  - eapply Forall_impl; [exact Hall|]. cbn. lia.
  - intros x Hx. assert (x ≠ next_page p) by congruence. unfold load. split; [|done]. cbn. by rewrite lookup_insert_ne.
  - unfold load. cbn. by rewrite lookup_insert_eq.
  - intros x [Hx|Hx]; [|split; [right; lia|lia]]. split; [by left|]. rewrite Forall_forall in Hall. specialize (Hall x Hx). lia.
  - intros [Hx _]. congruence.
Qed.
Lemma allocate_page_ok p p' no : pool_ok p → allocate p = (p', Ok no) →
  pool_ok p' ∧ same_settings p p' ∧ same_but (Some no) p p' ∧
  available p no ∧ 2 ≤ no < page_count p' ∧ is_u32 no ∧ page_count p ≤ page_count p' ∧
  get p' no = Ok (finalise (init Free 0 no) 0) ∧ is_frozen p' no = false ∧
  (∀ x, available p' x → available p x ∧ x ≠ no) ∧ ¬ kept p no ∧ (∀ x, kept p x → kept p' x).
Proof.
  intros Hok. change (allocate p) with (allocate_page p). unfold allocate_page.
  destruct (admit_allocation p); [|done]. cbv zeta.
  destruct (pop_free (count_allocation p)) as [[q p1]|] eqn:Hpop.
  - intros [= <- <-]. by apply allocate_recycled.
  - change (next_page (count_allocation p)) with (next_page p). change (thawed (count_allocation p)) with (thawed p).
    destruct (checked_add_u32 (next_page p) 1) as [nx|] eqn:Hnx; [|done]. apply checked_add_u32_Some in Hnx as [-> Hle].
    intros [= <- <-]. by apply allocate_fresh.
Qed.
Lemma allocate_page_err p p' e : pool_ok p → allocate p = (p', Err e) →
  pool_ok p' ∧ same_settings p p' ∧ same_but None p p' ∧ page_count p' = page_count p ∧
  (∀ x, available p' x → available p x) ∧ (∀ x, kept p x → kept p' x).
Proof.
  intros Hp. change (allocate p) with (allocate_page p). unfold allocate_page.
  destruct (admit_allocation p) as [u|e']; [|by intros [= <- <-]].
  cbv zeta. destruct (pop_free (count_allocation p)) as [[q p1]|]; [done|].
  destruct (checked_add_u32 _ _); [done|]. by intros [= <- <-].
Qed.
Lemma free_shadow_ok p no birth p' r : pool_ok p → free_shadow_page p no birth = (p', r) →
  ¬ available p no → 2 ≤ no < page_count p →
  pool_ok p' ∧ same_settings p p' ∧ same_but None p p' ∧ page_count p' = page_count p ∧
  (∀ x, available p' x → available p x ∨ x = no) ∧ (∀ x, kept p x → kept p' x).
Proof.
  intros (Hn & Hgen & Hfb & Hnd & Hall) Hfree Hav Hno. cbn in *. unfold free_shadow, free_page in Hfree.
  rewrite (proj2 (Z.ltb_ge no 2)) in Hfree by lia.
  assert (no ∉ free_pages p) as Hnin by tauto.
  destruct (match limits p with Some l => _ | None => _ end).
  { injection Hfree as <- <-. split_and!; try done; try lia. intros x Hx. by left. }
  set (q := with_free p _ _ _) in Hfree. assert (free_pages q ≡ₚ no :: free_pages p) as Hperm by apply push_free_pages.
  assert (eligible q = eligible p) as Hel by (unfold eligible; cbn [free q with_free]; by rewrite push_free_eligible).
  assert (p' = q ∨ p' = with_free q (free q) (free_count q) (<[no := birth]> (free_birth q))) as Hp'.
  { injection Hfree as <- <-. destruct (_ && _); auto. }
  assert (free_pages p' = free_pages q ∧ eligible p' = eligible q ∧ contents p' = contents p ∧ next_page p' = next_page p ∧
    thawed p' = thawed p ∧ frozen_boundary p' = frozen_boundary p ∧ stamp_gen p' = stamp_gen p ∧
    reuse_limit p' = reuse_limit p ∧ limits p' = limits p ∧ compact p' = compact p)
    as (Ef & Ee & Ec & En & Et & Eb & Es & Er & El & Eco) by (destruct Hp' as [-> | ->]; done).
  unfold load, frozen. rewrite Ef, Ee, Hel, En, Eb, Es, Er, Hperm. split_and!; try done; try lia.
  - by apply NoDup_cons.
  - by apply Forall_cons.
  - unfold same_settings, stamp_generation, record_limit, compact_cells. cbn [pool_pages]. by rewrite Es, El, Eco.
  - intros x Hx. cbn. unfold load, frozen. by rewrite Ec, Et, Eb.
  - intros x [Hx|Hx]; [|left; right; done]. rewrite Hperm in Hx.
    apply elem_of_cons in Hx as [->|Hx]; [by right|left; left; done].
  - intros x. by rewrite Et.
Qed.
Lemma eligible_free p x : x ∈ eligible p → x ∈ free_pages p.
Proof.
  unfold eligible, free_pages. induction (free p) as [|[g v] l IH]; [done|]. csimpl. destruct (g <=? reuse_limit p); csimpl;
    rewrite !elem_of_app; [intros [?|?]|intros ?]; auto.
Qed.
Lemma set_frozen_boundary_ok p : pool_ok p →
  pool_ok (publish p) ∧ same_settings p (publish p) ∧ page_count (publish p) = page_count p ∧
  (∀ x, get (publish p) x = get p x) ∧ (∀ x, available (publish p) x ↔ available p x) ∧
  (∀ x, kept p x → kept (publish p) x) ∧ (∀ x, 2 ≤ x < page_count p → ¬ available p x → kept (publish p) x) ∧
  (∀ x, is_frozen p x = true → is_frozen (publish p) x = true).
Proof.
  intros (Hn & Hr & Hb & Hnd & Hf).
  assert (∀ x, 2 ≤ x < next_page p → frozen (set_frozen_boundary p) x = true) as Hfr.
  { intros x Hx. unfold frozen. cbn. rewrite !andb_true_iff, Z.leb_le, Z.ltb_lt, bool_decide_false by set_solver. done. }
  assert (∀ x, frozen p x = true → frozen (set_frozen_boundary p) x = true) as Hstay.
  { intros x Hx. apply Hfr. unfold frozen in Hx. rewrite !andb_true_iff, Z.leb_le, Z.ltb_lt in Hx. lia. }
  split; [cbn; lia || (refine (conj Hn (conj Hr (conj _ (conj Hnd Hf)))); cbn; lia)|]. do 4 (split; [done|]). split; [|split; [|done]].
  - intros x [Hx He]. split; [by apply Hstay|done].
  - intros x Hx Ha. split; [by apply Hfr|]. intros He. apply Ha. left. by apply eligible_free.
Qed.
Lemma run_uncached_ok p start n buf : 0 ≤ n → read_run p start n = Some buf →
  blen buf = n * PAGE_SIZE ∧ ∀ i, 0 ≤ i < n → get p (start + i) = Ok (slice buf (i * PAGE_SIZE) PAGE_SIZE).
Proof.
  intros Hn. cbn. unfold run_uncached, load. destruct ((n =? 0) || _) eqn:En; [done|].
  apply orb_false_iff in En as [Hn0%Z.eqb_neq _]. destruct (forallb _ _); [|done].
  destruct (mapM _ _) as [bs|] eqn:Hm; [|done]. cbn [mbind option_bind].
  destruct (forallb (λ b, blen b =? PAGE_SIZE) bs) eqn:Hl; [|done]. intros [= <-].
  assert (Forall (λ b, blen b = PAGE_SIZE) bs) as Hbl.
  { apply Forall_forall. intros b Hb. apply (proj1 (forallb_forall _ _)) with (x := b) in Hl; [lia|by apply list_elem_of_In]. }
  pose proof (length_mapM _ _ _ Hm) as Hlen. rewrite length_seqZ in Hlen.
  split; [rewrite (blen_concat _ _ Hbl), <-Hlen; lia|]. intros i Hi.
  destruct (mapM_lookup_Some _ _ _ (Z.to_nat i) i Hm) as (b & Hb & Hk); [apply lookup_seqZ; lia|].
  rewrite Hb. cbn. f_equal. rewrite <-(concat_slices bs PAGE_SIZE (Z.to_nat i) b Hbl Hk). by rewrite Z2Nat.id by lia.
Qed.
Lemma load_store p no b x : get (put p no b) x = if decide (x = no) then Ok b else get p x.
Proof. cbn. unfold load, store. cbn. destruct (decide (x = no)) as [->|]; by simplify_map_eq. Qed.
#[export] Instance pool_laws : PagePoolLaws Pool := {
  get_put := load_store;
  publish_ok := set_frozen_boundary_ok;
  put_frame := put_keeps;
  kept_frozen := λ p x H, proj1 H;
  allocate_ok := allocate_page_ok;
  allocate_err := allocate_page_err;
  free_ok := free_shadow_ok;
  read_run_get := run_uncached_ok;
}.

(** ** A caller's discipline *)
(** The pages a caller holds: it frees only what it holds and writes only what it
    holds and nothing froze since. *)
Inductive call := Alloc | Free (no birth : Z) | Write (no : Z) (b : bytes) | Freeze.
Definition run_call (st : Pool * list Z) (c : call) : Pool * list Z :=
  let '(p, held) := st in
  match c with
  | Alloc => match allocate_page p with (p, Ok no) => (p, no :: held) | (p, Err _) => (p, held) end
  | Free no birth =>
      if bool_decide (no ∈ held) then ((free_shadow p no birth).1, List.filter (λ x, negb (x =? no)) held) else st
  | Write no b => if bool_decide (no ∈ held) && negb (frozen p no) then (store p no b, held) else st
  | Freeze => (set_frozen_boundary p, held)
  end.
Definition held_ok (p : Pool) (held : list Z) : Prop :=
  NoDup held ∧ Forall (λ x, 2 ≤ x < next_page p ∧ ¬ available p x) held.
(** What nothing in an epoch disturbs: a published page that no allocation may hand out. *)
Definition undisturbed (p p' : Pool) : Prop := ∀ x, kept p x → kept p' x ∧ load p' x = load p x.
Lemma undisturbed_but p p' no : same_but no p p' → (∀ x, kept p x → kept p' x) → (∀ x, kept p x → Some x ≠ no) → undisturbed p p'.
Proof. intros Hs Hk Hn x Hx. split; [by apply Hk|]. by apply Hs, Hn. Qed.
Lemma held_frame p p' held : held_ok p held → next_page p ≤ next_page p' → (∀ x, x ∈ held → available p' x → available p x) → held_ok p' held.
Proof.
  intros [Hnd Hf] Hn Ha. split; [done|]. rewrite Forall_forall in Hf |- *. intros x Hx. destruct (Hf x Hx) as [Hr Hv].
  split; [lia|]. intros Hv'. by apply Hv, Ha.
Qed.
Lemma run_call_ok p held c : pool_ok p → held_ok p held →
  let '(p', held') := run_call (p, held) c in pool_ok p' ∧ held_ok p' held' ∧ undisturbed p p'.
Proof.
  intros Hp Hh. destruct c as [|no birth|no b|]; cbn [run_call].
  - destruct (allocate_page p) as [p' [no|e]] eqn:E.
    + destruct (allocate_page_ok _ _ _ Hp E) as (Hp' & _ & Hs & Hav & Hr & _ & Hc & _ & _ & Ha & Hnk & Hk).
      split; [done|]. split; [|apply (undisturbed_but _ _ (Some no)); [done|done|intros x Hx [= ->]; done]].
      assert (no ∉ held) as Hno by (intros Hin; destruct Hh as [_ Hf]; rewrite Forall_forall in Hf; by apply (Hf no Hin)).
      assert (held_ok p' held) as [Hnd Hf] by (eapply held_frame; [done|done|]; intros x _ Hx; by apply Ha).
      split; [by apply NoDup_cons|]. apply Forall_cons. split; [|done]. split; [done|]. intros Hx. by apply Ha in Hx as [_ ?].
    + destruct (allocate_page_err _ _ _ Hp E) as (Hp' & _ & Hs & Hc & Ha & Hk).
      split; [done|]. split; [eapply held_frame; [done|cbn in Hc; lia|]; intros x _; apply Ha|].
      by apply (undisturbed_but _ _ None).
  - case_bool_decide as Hin; [|split; [done|split; [done|by intros x]]]. destruct (free_shadow p no birth) as [p' r] eqn:E. cbn [fst].
    destruct Hh as [Hnd Hf]. pose proof (proj1 (Forall_forall _ _) Hf no Hin) as [Hr Hav].
    destruct (free_shadow_ok _ _ _ _ _ Hp E Hav Hr) as (Hp' & _ & Hs & Hc & Ha & Hk).
    split; [done|]. split; [|by apply (undisturbed_but _ _ None)]. apply (held_frame p).
    + split; [by apply NoDup_ListNoDup, List.NoDup_filter, NoDup_ListNoDup|]. rewrite Forall_forall in Hf |- *. intros x Hx.
      apply list_elem_of_In, filter_In in Hx as [Hx _]. by apply Hf, list_elem_of_In.
    + cbn in Hc. lia.
    + intros x Hx Hx'. apply list_elem_of_In, filter_In in Hx as [_ Hx]. apply Ha in Hx' as [?| ->]; [done|]. by rewrite Z.eqb_refl in Hx.
  - destruct (_ && _) eqn:E; [|split; [done|split; [done|by intros x]]]. apply andb_true_iff in E as [_ Hfz%negb_true_iff].
    destruct (put_keeps p no b Hp) as (Hp' & _ & Hc & _ & Ha & Hk). split; [done|]. split.
    + eapply held_frame; [done|cbn in Hc; cbn; lia|]. intros x _. apply Ha.
    + intros x Hx. split; [by apply Hk|]. change (load (store p no b) x) with (get (put p no b) x). rewrite load_store, decide_False; [done|].
      intros ->. destruct Hx as [Hx _]. cbn in Hx. congruence.
  - destruct (set_frozen_boundary_ok p Hp) as (Hp' & _ & Hc & Hg & Ha & Hk & _). split; [done|]. split.
    + eapply held_frame; [done|cbn; lia|]. intros x _. apply Ha.
    + intros x Hx. split; [by apply Hk|apply Hg].
Qed.
(** A file of six pages, all published, one of them free again. *)
Definition used_pool : Pool := mkPool (list_to_map [(4, [1]); (5, [2])]) ∅ 6 None [(1, [3])] 1 ∅ 0 4 2 ∅ 6 false.
Definition some_calls : list call := [Alloc; Alloc; Write 6 [7]; Freeze; Write 6 [8]; Free 6 4; Alloc].
End Pool.
