(* ===== verification/BTree.v ===== *)
(** * The tree ([core/kernel/src/btree.rs])

    The state of a handle and the operations that read and grow the tree: descent,
    lookup, values spilled to overflow pages, scans, insertion with its splits.
    An operation is a function from the handle to the handle and an answer; an
    early error keeps what was changed before it, and [None] is a panic or a loop
    that ran out of fuel.  A handle here has no per-keyspace hints attached
    ([BTree::open] without [with_tags]): the fences a descent reports serve only
    them.  Pins and trace counters are left out, and so are the cargo features
    that are off by default. *)
From S2P Require Import Prelude Crc Page Cells Order Node Pool.
Import Page Cells Order Node.

Module BTree.

Record BTree (P : Type) := mkBTree {
  pool : P;
  root : Z;
  last_leaf : option Z;
  fast_path_hits : Z;
  fast_path_attempts : Z;
}.
Arguments mkBTree {P}.
Arguments pool {P}.
Arguments root {P}.
Arguments last_leaf {P}.
Arguments fast_path_hits {P}.
Arguments fast_path_attempts {P}.

(** ** State, errors, panics *)
Definition M (P A : Type) : Type := BTree P → BTree P * option (result error A).
Section monad.
Context {P : Type} `{PagePool P}.

Definition ret {A} (a : A) : M P A := λ s, (s, Some (Ok a)).
Definition fail {A} (e : error) : M P A := λ s, (s, Some (Err e)).
Definition bind {A B} (m : M P A) (k : A → M P B) : M P B := λ s,
  match m s with
  | (s, Some (Ok a)) => k a s
  | (s, Some (Err e)) => (s, Some (Err e))
  | (s, None) => (s, None)
  end.
(** A page function that can fail and panic; one that can only panic. *)
Definition lift {A} (o : option (result error A)) : M P A := λ s, (s, o).
Definition sure {A} (o : option A) : M P A := λ s, (s, Ok <$> o).
(** A loop that ran out of fuel. *)
Definition diverge {A} : M P A := λ s, (s, None).

Definition set_pool (p : P) (s : BTree P) : BTree P :=
  mkBTree p (root s) (last_leaf s) (fast_path_hits s) (fast_path_attempts s).
Definition set_root (no : Z) : M P unit := λ s,
  (mkBTree (pool s) no (last_leaf s) (fast_path_hits s) (fast_path_attempts s), Some (Ok tt)).
Definition set_last_leaf (h : option Z) : M P unit := λ s,
  (mkBTree (pool s) (root s) h (fast_path_hits s) (fast_path_attempts s), Some (Ok tt)).
Definition add_hit : M P unit := λ s,
  (mkBTree (pool s) (root s) (last_leaf s) (fast_path_hits s + 1) (fast_path_attempts s), Some (Ok tt)).
Definition add_attempt : M P unit := λ s,
  (mkBTree (pool s) (root s) (last_leaf s) (fast_path_hits s) (fast_path_attempts s + 1), Some (Ok tt)).
Definition ask {A} (f : BTree P → A) : M P A := λ s, (s, Some (Ok (f s))).

(** The pool's calls.  A write guard on a frozen page is an assertion failure. *)
Definition get_page (no : Z) : M P bytes := λ s, (s, Some (get (pool s) no)).
Definition get_mut (no : Z) : M P bytes := λ s,
  (s, if is_frozen (pool s) no then None else Some (get (pool s) no)).
Definition write (no : Z) (b : bytes) : M P unit := λ s, (set_pool (put (pool s) no b) s, Some (Ok tt)).
Definition alloc : M P Z := λ s, let '(p, r) := allocate (pool s) in (set_pool p s, Some r).
Definition retire (no birth : Z) : M P unit := λ s,
  let '(p, r) := free_shadow_page (pool s) no birth in (set_pool p s, Some r).
End monad.
Notation "'let+' x ':=' m 'in' k" := (bind m (fun x => k))
  (at level 10, x pattern, m at level 100, k at level 200) : skj_scope.
Notation "m ';;+' k" := (bind m (fun _ => k)) (at level 100, right associativity) : skj_scope.

(** ** Overflow pages *)
Definition OV_NEXT : Z := HEADER_LEN.
Definition OV_USED : Z := OV_NEXT + 4.
Definition OV_DATA : Z := OV_USED + 2.
Definition OV_CAP : Z := PAGE_SIZE - OV_DATA.

(** [chunks(OV_CAP)], and one empty chunk for an empty value. *)
Fixpoint chunks_of (fuel : nat) (val : bytes) : list bytes :=
  match fuel with
  | O => []
  | S fuel =>
      match val with
      | [] => []
      | _ => take (Z.to_nat OV_CAP) val :: chunks_of fuel (drop (Z.to_nat OV_CAP) val)
      end
  end.
Definition chunks (val : bytes) : list bytes :=
  match chunks_of (length val) val with [] => [[]] | l => l end.
Definition n_pages (total : Z) : Z := Z.max 1 ((total + OV_CAP - 1) / OV_CAP).

Section tree.
Context `{HC : Crc32c} {P : Type} `{PagePool P} (tree : Z).

Fixpoint alloc_chunks (n : nat) : M P (list Z) :=
  match n with
  | O => ret []
  | S n => let+ no := alloc in let+ nos := alloc_chunks n in ret (no :: nos)
  end.
Fixpoint write_chain (pages : list Z) (chunks : list bytes) : M P unit :=
  match pages, chunks with
  | no :: pages, chunk :: chunks =>
      let+ _ := get_mut no in
      let b := finalise (init Overflow 0 no) 0 in
      let+ b := sure (put_at b OV_NEXT (le_bytes 4 (match pages with next :: _ => next | [] => 0 end))) in
      let+ b := sure (put_at b OV_USED (le_bytes 2 (blen chunk mod 65536))) in
      let+ b := sure (put_at b OV_DATA chunk) in
      write no b ;;+ write_chain pages chunks
  | _, _ => ret tt
  end.
Definition over_limit (len : Z) : M P bool := ask (λ s, match record_limit (pool s) with Some l => l <? len | None => false end).
Definition write_overflow (val : bytes) : M P (Z * Z) :=
  let+ over := over_limit (blen val) in
  if over : bool then fail (ResourceLimit "overflow value exceeds record allowance") else
  let crc := crc32c val in
  let+ pages := alloc_chunks (length (chunks val)) in
  write_chain pages (chunks val) ;;+
  let+ head := sure (pages !! 0%nat) in ret (head, crc).

(** The run read in one piece, when it is exactly the chain the marker promised. *)
Fixpoint run_pages (buf : bytes) (no : Z) (total n : Z) (is_ : list Z) (out : bytes) : option bytes :=
  match is_ with
  | [] => Some out
  | i :: is_ =>
      let b := slice buf (i * PAGE_SIZE) PAGE_SIZE in
      let page_no := no + i in
      if negb (is_ok (open_resident b page_no)) then None
      else if negb (bool_decide (kind b = Some Overflow)) then None
      else if negb (rd_u32 b OV_NEXT =? (if i + 1 <? n then page_no + 1 else 0)) then None
      else
        let used := rd_u16 b OV_USED in
        if (OV_CAP <? used) || (total <? blen out + used) then None
        else run_pages buf no total n is_ (out ++ slice b OV_DATA used)
  end.
(** The walk over the chain; more hops than pages is a cycle. *)
Fixpoint chain_loop (fuel : nat) (total cap page hops : Z) (out : bytes) : M P bytes :=
  if page =? 0 then ret out else
  match fuel with
  | O => diverge
  | S fuel =>
      let hops := hops + 1 in
      if cap <? hops then fail (Corrupt page "overflow chain cycles") else
      let+ b := get_page page in
      let+ _ := lift (Some (open_resident b page)) in
      if negb (bool_decide (kind b = Some Overflow)) then fail (Corrupt page "chain points at a non-overflow page") else
      let next := rd_u32 b OV_NEXT in
      let used := rd_u16 b OV_USED in
      if (OV_CAP <? used) || (total <? blen out + used) then fail (Corrupt page "overflow length out of bounds") else
      let+ data := sure (get_at b OV_DATA used) in
      chain_loop fuel total cap next hops (out ++ data)
  end.
Definition read_overflow (marker : bytes) : M P bytes :=
  if negb (blen marker =? 12) then fail (Corrupt 0 "overflow marker wrong size") else
  let total := rd_u32 marker 0 in
  let+ over := over_limit total in
  if over : bool then fail (ResourceLimit "stored overflow value exceeds record allowance") else
  let head := rd_u32 marker 4 in
  let want_crc := rd_u32 marker 8 in
  let n := n_pages total in
  let+ fast := ask (λ s,
    if n <=? u32_max then
      buf ← read_run (pool s) head n;
      out ← run_pages buf head total n (indices n) [];
      if (blen out =? total) && (crc32c out =? want_crc) then Some out else None
    else None) in
  match fast with
  | Some out => ret out
  | None =>
      let+ cap := ask (λ s, page_count (pool s)) in
      let+ out := chain_loop (S (Z.to_nat cap)) total cap head 0 [] in
      if negb (blen out =? total) || negb (crc32c out =? want_crc)
      then fail (Corrupt 0 "overflow value fails its checksum") else ret out
  end.

(** [replaced_overflow_pages]: the whole chain is checked before any of it is retired. *)
Fixpoint retired_loop (fuel : nat) (total want bound no bytes_ crc : Z) (pages : list (Z * Z)) : M P (list (Z * Z)) :=
  if no =? 0 then
    if negb (blen pages =? bound) || negb (bytes_ =? total) || negb (crc =? want)
    then fail (Corrupt 0 "retired overflow whole-value checksum or length") else ret pages
  else
  match fuel with
  | O => diverge
  | S fuel =>
      let+ cap := ask (λ s, page_count (pool s)) in
      if (no <? 2) || (cap <=? no) || (bound <=? blen pages) then fail (Corrupt no "retired overflow chain bounds") else
      let+ b := get_page no in
      let+ _ := lift (Some (open_resident b no)) in
      if negb (bool_decide (kind b = Some Overflow)) || negb (tree_id b =? 0)
      then fail (Corrupt no "retired overflow page kind") else
      let used := rd_u16 b OV_USED in
      if negb (used =? Z.min (total - bytes_) OV_CAP) then fail (Corrupt no "retired overflow length") else
      let+ data := sure (get_at b OV_DATA used) in
      let+ birth := ask (λ s, if is_frozen (pool s) no then lsn b else stamp_generation (pool s)) in
      retired_loop fuel total want bound (rd_u32 b OV_NEXT) (bytes_ + used) (crc32c_append crc data) (pages ++ [(no, birth)])
  end.
Definition replaced_overflow_pages (rec : bytes) : M P (list (Z * Z)) :=
  let+ (_, marker, overflow) := sure (validated_leaf rec) in
  if negb overflow then ret [] else
  let total := rd_u32 marker 0 in
  let+ over := over_limit total in
  if over : bool then fail (ResourceLimit "stored overflow value exceeds record allowance") else
  retired_loop (S (Z.to_nat (n_pages total))) total (rd_u32 marker 8) (n_pages total) (rd_u32 marker 4) 0 0 [].
Fixpoint retire_all (pages : list (Z * Z)) : M P unit :=
  match pages with
  | [] => ret tt
  | (no, birth) :: pages => retire no birth ;;+ retire_all pages
  end.

(** ** Reading *)
Definition open_cached (no : Z) : M P bytes :=
  let+ b := get_page no in lift (open_checked b no) ;;+ ret b.
Definition pages_held : M P Z := ask (λ s, page_count (pool s)).
(** Every loop over the levels of the tree has this fuel; no path is longer than
    the pages there are. *)
Definition levels : M P nat := let+ n := pages_held in ret (Z.to_nat n).

(** The loop of [descend], [descend_positioned] and [descend_with_path]: the leaf
    and the path to it, innermost first. *)
Fixpoint descend_loop (fuel : nat) (key : bytes) (cur : Z) (path : list (Z * Z)) : M P (Z * bytes * list (Z * Z)) :=
  match fuel with
  | O => diverge
  | S fuel =>
      let+ b := open_cached cur in
      if negb (tree_id b =? tree) then fail (Corrupt cur "page belongs to another tree") else
      if bool_decide (kind b = Some Leaf) then ret (cur, b, path) else
      let+ i := sure (upper_bound b key) in
      let+ n := pages_held in
      let+ child := lift (child_at n b i) in
      descend_loop fuel key child ((cur, i) :: path)
  end.
Definition descend_with_path (key : bytes) : M P (Z * list (Z * Z)) :=
  let+ no := ask root in let+ fuel := levels in
  let+ (leaf, _, path) := descend_loop fuel key no [] in ret (leaf, path).
Definition descend_positioned (key : bytes) : M P (Z * Z * list (Z * Z)) :=
  let+ no := ask root in let+ fuel := levels in
  let+ (leaf, b, path) := descend_loop fuel key no [] in
  let+ i := sure (lower_bound b key) in ret (leaf, i, path).
Definition descend (key : bytes) : M P (Z * list Z) :=
  let+ (leaf, path) := descend_with_path key in ret (leaf, path.*1).

Definition btree_get (key : bytes) : M P (option bytes) :=
  let+ (leaf, _) := descend key in
  let+ b := open_cached leaf in
  let+ i := sure (lower_bound b key) in
  if i <? nentries b then
    let+ rec := sure (slot b i) in
    let+ (stored_key, value, overflow) := sure (validated_leaf rec) in
    if negb (bool_decide (stored_key = key)) then ret None
    else if overflow : bool then let+ v := read_overflow value in ret (Some v)
    else ret (Some value)
  else ret None.

(** *** Scanning forward: [RangeIter] *)
Record RangeIter := mkIter {
  it_page : Z;
  it_idx : Z;
  it_done : bool;
  it_path : list (Z * Z);
  it_leaves : Z;
  it_max_leaves : Z;
}.
Definition range (from : bytes) : M P RangeIter :=
  let+ (leaf, idx, path) := descend_positioned from in
  let+ n := pages_held in ret (mkIter leaf idx false path 1 n).

(** The two loops of [advance]: up to an ancestor with a child to the right, then
    down the leftmost spine. *)
Fixpoint climb (path : list (Z * Z)) : M P (option (Z * Z * list (Z * Z))) :=
  match path with
  | [] => ret None
  | (page, i) :: path =>
      let+ b := open_cached page in
      if i <? nentries b then ret (Some (page, i + 1, path)) else climb path
  end.
Fixpoint spine (fuel : nat) (cur idx : Z) (path : list (Z * Z)) : M P (Z * list (Z * Z)) :=
  match fuel with
  | O => diverge
  | S fuel =>
      let+ b := open_cached cur in
      if negb (tree_id b =? tree) then fail (Corrupt cur "page belongs to another tree") else
      if bool_decide (kind b = Some Leaf) then ret (cur, path) else
      let+ n := pages_held in
      let+ child := lift (child_at n b idx) in
      spine fuel child 0 ((cur, idx) :: path)
  end.
Definition advance (it : RangeIter) : M P (bool * RangeIter) :=
  let+ up := climb (it_path it) in
  match up with
  | None => ret (false, it)
  | Some (cur, idx, path) =>
      let+ fuel := levels in
      let+ (page, path) := spine fuel cur idx path in
      let leaves := it_leaves it + 1 in
      if it_max_leaves it <? leaves then fail (Corrupt page "scan visits more leaves than the file holds")
      else ret (true, mkIter page 0 (it_done it) path leaves (it_max_leaves it))
  end.

(** [for_each_ref]: the callback is a fold that says whether to go on.  From the
    first spilled value of a leaf the records wait until the leaf is released. *)
Section visit.
Context {S : Type} (f : S → bytes → bytes → S * bool).
Fixpoint visit_slots (b : bytes) (is_ : list Z) (deferred : list (bytes * bytes * bool)) (acc : S) :
    M P (S * bool * list (bytes * bytes * bool)) :=
  match is_ with
  | [] => ret (acc, true, deferred)
  | i :: is_ =>
      let+ rec := sure (slot b i) in
      let+ (key, value, flag) := sure (validated_leaf rec) in
      if flag || negb (bool_decide (deferred = [])) then visit_slots b is_ (deferred ++ [(key, value, flag)]) acc
      else let '(acc, go) := f acc key value in
           if go : bool then visit_slots b is_ deferred acc else ret (acc, false, deferred)
  end.
Fixpoint visit_deferred (deferred : list (bytes * bytes * bool)) (acc : S) : M P (S * bool) :=
  match deferred with
  | [] => ret (acc, true)
  | (key, value, flag) :: deferred =>
      let+ v := (if flag : bool then read_overflow value else ret value) in
      let '(acc, go) := f acc key v in
      if go : bool then visit_deferred deferred acc else ret (acc, false)
  end.
Fixpoint for_each_loop (fuel : nat) (it : RangeIter) (acc : S) : M P S :=
  match fuel with
  | O => diverge
  | Datatypes.S fuel =>
      if it_done it then ret acc else
      let+ b := open_cached (it_page it) in
      if negb (tree_id b =? tree) then fail (Corrupt (it_page it) "sibling page belongs to another tree") else
      let+ (acc, go, deferred) := visit_slots b (seqZ (it_idx it) (nentries b - it_idx it)) [] acc in
      if negb go then ret acc else
      let+ (acc, go) := visit_deferred deferred acc in
      if negb go then ret acc else
      let+ (more, it) := advance it in
      if more : bool then for_each_loop fuel it acc else ret acc
  end.
Definition for_each_ref (it : RangeIter) (acc : S) : M P S :=
  for_each_loop (Datatypes.S (Z.to_nat (it_max_leaves it))) it acc.
End visit.

(** ** Writing *)
Definition create : M P unit :=
  let+ no := alloc in
  (if no =? 0 then diverge else ret tt) ;;+      (* assert_ne!(no, META_PAGE) *)
  write no (finalise (init Leaf tree no) 0) ;;+
  set_root no.

(** Copy-on-write of a published page: the copy, and the original retired. *)
Definition shadow_page (page : Z) : M P Z :=
  let+ content := get_page page in
  let+ no := alloc in
  let+ b := sure (put_at content 12 (le_bytes 4 no)) in
  write no (finalise b 0) ;;+
  retire page (lsn content) ;;+
  ret no.
Definition patch_child (page i new_child : Z) : M P unit :=
  let+ b := get_mut page in
  if i =? 0 then
    lift (open_checked b page) ;;+
    (if negb (bool_decide (kind b = Some Interior)) then fail (Corrupt page "child patch reached a non-interior page") else
     write page (finalise (set_child0 b new_child) 0))
  else
    lift (open_checked b page) ;;+
    (if negb (bool_decide (kind b = Some Interior)) || (nentries b <? i)
     then fail (Corrupt page "child patch slot is out of bounds") else
     let+ rec := sure (slot b (i - 1)) in
     let+ _ := sure (validated_child rec) in
     let '(off, len) := slot_bounds b (i - 1) in
     let+ b := sure (put_at b (off + len - 4) (le_bytes 4 new_child)) in
     write page (finalise b 0)).

(** [descend_for_write]: every published page on the way is replaced by its copy
    first.  The leaf it ends on may be written. *)
Fixpoint descend_for_write_loop (fuel : nat) (key : bytes) (cur : Z) (path : list Z) : M P (Z * list Z) :=
  match fuel with
  | O => diverge
  | S fuel =>
      let+ b := open_cached cur in
      if negb (tree_id b =? tree) then fail (Corrupt cur "page belongs to another tree") else
      if bool_decide (kind b = Some Leaf) then let+ _ := get_mut cur in ret (cur, path) else
      let+ i := sure (upper_bound b key) in
      let+ n := pages_held in
      let+ child := lift (child_at n b i) in
      let+ frozen := ask (λ s, is_frozen (pool s) child) in
      if frozen : bool then
        let+ fresh := shadow_page child in
        patch_child cur i fresh ;;+
        descend_for_write_loop fuel key fresh (cur :: path)
      else descend_for_write_loop fuel key child (cur :: path)
  end.
Definition descend_for_write (key : bytes) : M P (Z * list Z) :=
  let+ no := ask root in
  let+ frozen := ask (λ s, is_frozen (pool s) no) in
  (if frozen : bool then let+ fresh := shadow_page no in set_root fresh else ret tt) ;;+
  let+ no := ask root in let+ fuel := levels in
  descend_for_write_loop fuel key no [].

(** Where a full leaf needs three pages: greedy packing. *)
Fixpoint greedy (usable i used : Z) (recs : list bytes) : list Z :=
  match recs with
  | [] => []
  | r :: recs =>
      if usable <? used + blen r + 4 then i :: greedy usable (i + 1) (blen r + 4) recs
      else greedy usable (i + 1) (used + blen r + 4) recs
  end.

(** All records of a page. *)
Definition slots (b : bytes) : option (list bytes) := mapM (slot b) (indices (nentries b)).
Definition build (kd : PageKind) (no : Z) (recs : list bytes) (link : Z) : M P bytes :=
  lift (build_page kd tree no recs link).
Definition key_at (recs : list bytes) (i : Z) : M P bytes :=
  let+ rec := sure (recs !! Z.to_nat i) in sure (validated_key rec).
Definition insert_at {A} (i : Z) (x : A) (l : list A) : list A := take (Z.to_nat i) l ++ x :: drop (Z.to_nat i) l.

Fixpoint insert_separator (path : list Z) (sep : bytes) (right : Z) : M P unit :=
  match path with
  | [] =>
      (* The root split: build a new root above the old one. *)
      let+ old_root := ask root in
      let+ no := alloc in
      let b := set_child0 (init Interior tree no) old_root in
      let+ b := lift (insert_slot b 0 (enc_interior sep right)) in
      write no (finalise b 0) ;;+
      set_root no
  | parent :: path =>
      let rec := enc_interior sep right in
      let+ b := get_page parent in
      lift (open_checked b parent) ;;+
      let+ i := sure (upper_bound b sep) in
      if blen rec + 4 <=? free_space b then
        let+ b := get_mut parent in
        let+ b := lift (insert_slot b i rec) in
        write parent (finalise b 0)
      else
        let+ recs := sure (slots b) in
        let recs := insert_at i rec recs in
        let old_child0 := child0 b in
        let+ sp := lift (Some (ok_or (split_point recs USABLE) TooLarge)) in
        let left_recs := take (Z.to_nat sp) recs in
        let right_recs := drop (Z.to_nat sp) recs in
        let+ up := key_at right_recs 0 in
        let+ first := sure (right_recs !! 0%nat) in
        let+ right_child0 := sure (validated_child first) in
        let+ right_no := alloc in
        let+ page := build Interior right_no (drop 1 right_recs) right_child0 in
        write right_no page ;;+
        let+ page := build Interior parent left_recs old_child0 in
        let+ _ := get_mut parent in
        write parent page ;;+
        insert_separator path up right_no
  end.

Definition split_three (leaf : Z) (path : list Z) (recs : list bytes) (old_next : Z) : M P unit :=
  let cuts := 0 :: greedy USABLE 0 0 recs ++ [blen recs] in
  match cuts with
  | [_; c1; c2; c3] =>
      if (0 =? c1) || (c1 =? c2) || (c2 =? c3) then fail TooLarge else
      let+ mid_no := alloc in
      let+ right_no := alloc in
      let+ left_image := build Leaf leaf (slice recs 0 c1) mid_no in
      let+ mid_image := build Leaf mid_no (slice recs c1 (c2 - c1)) right_no in
      let+ right_image := build Leaf right_no (slice recs c2 (c3 - c2)) old_next in
      let+ mid_sep := key_at recs c1 in
      let+ right_sep := key_at recs c2 in
      write mid_no mid_image ;;+ write right_no right_image ;;+ write leaf left_image ;;+
      set_last_leaf None ;;+
      insert_separator path mid_sep mid_no ;;+
      let+ (_, new_path) := descend_for_write right_sep in
      insert_separator new_path right_sep right_no ;;+
      (if old_next =? 0 then set_last_leaf (Some right_no) else ret tt)
  | _ => fail TooLarge
  end.
Definition split_leaf_and_insert (leaf : Z) (path : list Z) (at_ : Z) (rec : bytes) : M P unit :=
  let+ b := get_mut leaf in
  lift (open_checked b leaf) ;;+
  let+ recs := sure (slots b) in
  let old_next := next_leaf b in
  let recs := insert_at at_ rec recs in
  let left_bytes := total (sizes (take (Z.to_nat at_) recs)) in
  let at_tail := (0 <? at_) && (at_ =? blen recs - 1) && (left_bytes <=? USABLE)
    && (total (sizes (drop (Z.to_nat at_) recs)) <=? USABLE) in
  let at_point := at_tail && (old_next =? 0) in
  match (if at_point then Some at_ else split_point recs USABLE) with
  | None => split_three leaf path recs old_next
  | Some sp =>
      let left_recs := take (Z.to_nat sp) recs in
      let right_recs := drop (Z.to_nat sp) recs in
      let+ sep := key_at right_recs 0 in
      let+ right_no := alloc in
      let+ page := build Leaf right_no right_recs old_next in
      write right_no page ;;+
      let+ page := build Leaf leaf left_recs right_no in
      write leaf page ;;+
      (if old_next =? 0 then set_last_leaf (Some right_no) else ret tt) ;;+
      insert_separator path sep right_no
  end.

Definition insert_into_leaf (leaf : Z) (path : list Z) (key rec : bytes) : M P unit :=
  let+ b := get_mut leaf in
  lift (open_checked b leaf) ;;+
  let+ i := sure (lower_bound b key) in
  let+ old := sure (if i <? nentries b
                    then r ← slot b i; k ← validated_key r; Some (if bool_decide (k = key) then Some r else None)
                    else Some None) in
  let is_next := next_leaf b in
  let+ retired := match old with Some r => replaced_overflow_pages r | None => ret [] end in
  (* The old record goes first, as a step of its own. *)
  match old with
  | Some _ =>
      let+ b := sure (remove_slot b i) in
      let+ b := sure (compact b) in
      write leaf (finalise b 0) ;;+ retire_all retired
  | None => ret tt
  end ;;+
  (* Room by the page's real free space, after reclaiming it if need be. *)
  let+ b := get_mut leaf in
  (if blen rec + 4 <=? free_space b then ret tt else let+ b := sure (compact b) in write leaf (finalise b 0)) ;;+
  let+ b := get_mut leaf in
  if blen rec + 4 <=? free_space b then
    let+ b := lift (insert_slot b i rec) in
    write leaf (finalise b 0) ;;+
    (if is_next =? 0 then set_last_leaf (Some leaf) else ret tt)
  else split_leaf_and_insert leaf path i rec.

(** The append fast path: the cached last leaf, if it is certainly the place. *)
Definition fast_path_leaf (hint : Z) (key rec : bytes) : M P bool :=
  let+ frozen := ask (λ s, is_frozen (pool s) hint) in
  if frozen : bool then ret false else
  let+ b := get_mut hint in
  lift (open_checked b hint) ;;+
  if bool_decide (kind b = Some Leaf) && (tree_id b =? tree) && (next_leaf b =? 0)
     && (blen rec + 4 <=? free_space b) && (0 <? nentries b) then
    let+ last := sure (slot b (nentries b - 1)) in
    let+ k := sure (validated_key last) in
    ret (bytes_ltb k key)
  else ret false.
Definition insert_fast (leaf : Z) (rec : bytes) : M P unit :=
  let+ b := get_mut leaf in
  let+ b := lift (insert_slot b (nentries b) rec) in
  write leaf (finalise b 0) ;;+
  set_last_leaf (Some leaf).
Definition insert_slow (key rec : bytes) : M P unit :=
  let+ (leaf, path) := descend_for_write key in insert_into_leaf leaf path key rec.
Definition insert (key val : bytes) : M P unit :=
  let+ rec :=
    (if MAX_RECORD_LEN <? 4 + blen key + blen val then
       let+ (head, crc) := write_overflow val in
       ret (enc_leaf_marker key (enc_marker (blen val mod 4294967296) head crc))
     else
       let+ compact := ask (λ s, compact_cells (pool s)) in ret (enc_leaf key val compact)) in
  if MAX_RECORD_LEN <? blen rec then fail TooLarge else
  let+ hint := ask last_leaf in
  match hint with
  | Some hint =>
      add_attempt ;;+
      let+ fits := fast_path_leaf hint key rec in
      if fits : bool then add_hit ;;+ insert_fast hint rec
      else set_last_leaf None ;;+ insert_slow key rec
  | None => insert_slow key rec
  end.
End tree.
End BTree.
