(* ===== verification/BTreeDelete.v ===== *)
(** * Deletion from the tree ([core/kernel/src/btree.rs])

    [delete] takes one record out and [rebalance_after_delete] goes up the path
    from its leaf: an underfull node is merged with a sibling where both fit on
    one page, else the two are evened out, and a root left with one child gives
    way to it.  An attempt that does not apply answers [None], the code's
    [continue]. *)
From S2P Require Import Prelude Crc Page Cells Order Node Pool BTree.
Import Page Cells Order Node BTree.

Module BTreeDelete.

(** [Vec::remove], an assignment to an element, [Iterator::position]. *)
Definition remove_at {A} (i : Z) (l : list A) : option (list A) :=
  if i <? blen l then Some (delete (Z.to_nat i) l) else None.
Definition set_at {A} (i : Z) (x : A) (l : list A) : option (list A) :=
  if i <? blen l then Some (<[Z.to_nat i := x]> l) else None.
Fixpoint position (x : Z) (l : list Z) (i : Z) : option Z :=
  match l with
  | [] => None
  | y :: l => if y =? x then Some i else position x l (i + 1)
  end.

(** Where two interior pages that do not fit on one are cut: at a record both of
    whose sides fit, the most even of them, the first one on a tie. *)
Fixpoint best_cut (usable tot prefix i : Z) (recs : list bytes) (best : option (Z * Z)) : option (Z * Z) :=
  match recs with
  | [] => best
  | rec :: recs =>
      let suffix := tot - prefix - blen rec - 4 in
      let best :=
        if (prefix <=? usable) && (suffix <=? usable) then
          let delta := Z.abs (prefix - suffix) in
          match best with
          | Some (_, old) => if delta <? old then Some (i, delta) else best
          | None => Some (i, delta)
          end
        else best in
      best_cut usable tot (prefix + blen rec + 4) (i + 1) recs best
  end.

(** What a pair of siblings becomes: the records and children of the parent, the
    records of the two pages and the link of the right one. *)
Record plan := Plan {
  pl_recs : list bytes;
  pl_ids : list Z;
  pl_left : list bytes;
  pl_right : list bytes;
  pl_link : Z;
}.
Definition plan_pair (kd : PageKind) (precs : list bytes) (ids : list Z) (start right right_link : Z)
    (all : list bytes) (merge : bool) : option (option plan) :=
  if merge then
    pr ← remove_at start precs;
    children ← remove_at (start + 1) ids;
    Some (Some (Plan pr children all [] 0))
  else if bool_decide (kd = Leaf) then
    match split_point all USABLE with
    | None => Some None
    | Some mid =>
        rec ← all !! Z.to_nat mid; sep ← validated_key rec;
        pr ← set_at start (enc_interior sep right) precs;
        Some (Some (Plan pr ids (take (Z.to_nat mid) all) (drop (Z.to_nat mid) all) right_link))
    end
  else
    match best_cut USABLE (total (sizes all)) 0 0 all None with
    | None => Some None
    | Some (mid, _) =>
        rec ← all !! Z.to_nat mid; sep ← validated_key rec;
        pr ← set_at start (enc_interior sep right) precs;
        link ← validated_child rec;
        Some (Some (Plan pr ids (take (Z.to_nat mid) all) (drop (Z.to_nat (mid + 1)) all) link))
    end.
(** Each record of a parent written again with the child it has by now. *)
Fixpoint repoint (precs : list bytes) (ids : list Z) : option (list bytes) :=
  match ids, precs with
  | [], _ => Some precs
  | id :: ids, rec :: precs =>
      key ← validated_key rec; precs ← repoint precs ids; Some (enc_interior key id :: precs)
  | _ :: _, [] => None
  end.

Section delete.
Context `{HC : Crc32c} {P : Type} `{PagePool P} (tree : Z).

(** The page to write in place of [page]: a copy of it if it is published. *)
Definition writable_page (page : Z) : M P Z :=
  let+ frozen := ask (λ s, is_frozen (pool s) page) in
  if frozen : bool then shadow_page page else ret page.

Definition install_pair (kd : PageKind) (parent start lno rno left_link right_link right_lsn : Z)
    (merge : bool) (pl : plan) : M P (option bool) :=
  let+ first := sure (pl_ids pl !! 0%nat) in
  let+ trial := sure (build_page Interior tree parent (pl_recs pl) first) in
  match trial with
  | Err TooLarge => ret None
  | Err e => fail e
  | Ok _ =>
      let leaf := bool_decide (kd = Leaf) in
      let left_next := if negb leaf then left_link else if merge then right_link else rno in
      let+ left_image := build tree kd lno (pl_left pl) left_next in
      let+ right_image :=
        (if merge then ret None else let+ b := build tree kd rno (pl_right pl) (pl_link pl) in ret (Some b)) in
      let+ fresh_left := writable_page lno in
      let+ fresh_right := (if merge then ret rno else writable_page rno) in
      let+ ids := sure (set_at start fresh_left (pl_ids pl)) in
      let+ ids := sure (if merge then Some ids else set_at (start + 1) fresh_right ids) in
      let+ precs := sure (repoint (pl_recs pl) (drop 1 ids)) in
      let+ left_image := sure (put_at left_image 12 (le_bytes 4 fresh_left)) in
      let+ left_image :=
        sure (if leaf && negb merge then put_at left_image 20 (le_bytes 4 fresh_right) else Some left_image) in
      let+ right_image :=
        sure (match right_image with Some b => Some <$> put_at b 12 (le_bytes 4 fresh_right) | None => Some None end) in
      let+ first := sure (ids !! 0%nat) in
      let+ parent_image := build tree Interior parent precs first in
      (* Every guard before the first write. *)
      let+ _ := get_mut fresh_left in
      let+ _ := (if merge then ret [] else get_mut fresh_right) in
      let+ _ := get_mut parent in
      (if merge then
         let+ birth := ask (λ s, if is_frozen (pool s) rno then right_lsn else stamp_generation (pool s)) in
         retire rno birth
       else ret tt) ;;+
      write fresh_left left_image ;;+
      match right_image with Some b => write fresh_right b | None => ret tt end ;;+
      write parent parent_image ;;+
      set_last_leaf None ;;+
      ret (Some merge)
  end.

(** One attempt: the pair of children at [start].  Two of different kinds are left
    as they are, and so is a pair that would merge when it may not, or the other
    way round. *)
Definition try_pair (kd : PageKind) (parent : Z) (precs : list bytes) (ids : list Z) (merge_only : bool) (start : Z) :
    M P (option bool) :=
  let+ lno := sure (ids !! Z.to_nat start) in
  let+ rno := sure (ids !! Z.to_nat (start + 1)) in
  let+ lb := open_cached lno in
  if negb (tree_id lb =? tree) then fail (Corrupt lno "delete left sibling identity") else
  if negb (bool_decide (kind lb = Some kd)) then ret None else
  let+ lrecs := sure (slots lb) in
  let+ rb := open_cached rno in
  if negb (tree_id rb =? tree) then fail (Corrupt rno "delete right sibling identity") else
  if negb (bool_decide (kind rb = Some kd)) then ret None else
  let+ down :=
    (if bool_decide (kd = Interior) then let+ sep := key_at precs start in ret [enc_interior sep (child0 rb)]
     else ret []) in
  let+ rrecs := sure (slots rb) in
  let all := lrecs ++ down ++ rrecs in
  let merge := total (sizes all) <=? USABLE in
  if negb (eqb merge_only merge) then ret None else
  let+ pl := sure (plan_pair kd precs ids start rno (next_leaf rb) all merge) in
  match pl with
  | None => ret None
  | Some pl => install_pair kd parent start lno rno (next_leaf lb) (next_leaf rb) (lsn rb) merge pl
  end.
Fixpoint try_pairs (kd : PageKind) (parent : Z) (precs : list bytes) (ids : list Z) (merge_only : bool) (starts : list Z) :
    M P (option bool) :=
  match starts with
  | [] => ret None
  | start :: starts =>
      let+ r := try_pair kd parent precs ids merge_only start in
      match r with
      | Some merged => ret (Some merged)
      | None => try_pairs kd parent precs ids merge_only starts
      end
  end.

Fixpoint children_at (b : bytes) (is_ : list Z) : M P (list Z) :=
  match is_ with
  | [] => ret []
  | i :: is_ =>
      let+ n := pages_held in
      let+ id := lift (child_at n b i) in
      let+ ids := children_at b is_ in ret (id :: ids)
  end.
Definition is_node (b : bytes) : bool := bool_decide (kind b = Some Leaf) || bool_decide (kind b = Some Interior).

Fixpoint rebalance_loop (fuel : nat) (node : Z) (path : list Z) : M P unit :=
  match fuel with
  | O => diverge
  | S fuel =>
      let+ b := open_cached node in
      if negb (tree_id b =? tree) || negb (is_node b) then fail (Corrupt node "delete maintenance node identity") else
      let+ recs := sure (slots b) in
      let used := total (sizes recs) in
      let+ top := ask root in
      if node =? top then
        if bool_decide (kind b = Some Interior) && (nentries b =? 0) then
          let only_child := child0 b in
          let+ c := open_cached only_child in
          if negb (tree_id c =? tree) || negb (is_node c) then fail (Corrupt only_child "collapsed root child identity") else
          let+ birth := ask (λ s, if is_frozen (pool s) node then lsn b else stamp_generation (pool s)) in
          retire node birth ;;+
          set_root only_child ;;+
          set_last_leaf None ;;+
          rebalance_loop fuel only_child path
        else ret tt
      else if USABLE / 3 <=? used then ret tt else
      match path with
      | [] => fail (Corrupt node "delete maintenance missing parent")
      | parent :: path =>
          let+ p := open_cached parent in
          if negb (bool_decide (kind p = Some Interior)) || negb (tree_id p =? tree)
          then fail (Corrupt parent "delete maintenance parent identity") else
          let+ precs := sure (slots p) in
          let+ ids := children_at p (seqZ 0 (nentries p + 1)) in
          let+ pos := lift (Some (ok_or (position node ids 0) (Corrupt parent "delete maintenance child missing"))) in
          if blen ids =? 1 then rebalance_loop fuel parent path else
          let starts := (if 0 <? pos then [pos - 1] else []) ++ (if pos + 1 <? blen ids then [pos] else []) in
          let+ kd := sure (kind b) in
          let+ done := try_pairs kd parent precs ids true starts in
          let+ done :=
            match done with Some _ => ret done | None => try_pairs kd parent precs ids false starts end in
          match done with
          | Some true => rebalance_loop fuel parent path
          | _ => ret tt
          end
      end
  end.
(** A round either goes up the path or takes a level off the tree. *)
Definition rebalance_after_delete (node : Z) (path : list Z) : M P unit :=
  let+ fuel := levels in rebalance_loop (2 * fuel) node path.

Definition btree_delete (key : bytes) : M P bool :=
  let+ (leaf, _) := descend tree key in
  let+ b := open_cached leaf in
  let+ i := sure (lower_bound b key) in
  let+ old := sure (if i <? nentries b
                    then r ← slot b i; k ← validated_key r; Some (if bool_decide (k = key) then Some r else None)
                    else Some None) in
  match old with
  | None => ret false
  | Some rec =>
      let+ retired := replaced_overflow_pages rec in
      let+ (leaf, path) := descend_for_write tree key in
      let+ b := get_mut leaf in
      let+ _ := lift (Some (open_resident_validated b leaf)) in
      let+ i := sure (lower_bound b key) in
      let+ b := sure (remove_slot b i) in
      write leaf (finalise b 0) ;;+
      retire_all retired ;;+
      rebalance_after_delete leaf path ;;+
      ret true
  end.
End delete.
End BTreeDelete.
