(* ===== verification/Cursor.v ===== *)
(** * The pull cursor of a range ([core/kernel/src/btree.rs])

    [RangeIter] as its callers hold it: [next] serves the first records one by one
    and then a leaf at a time out of a buffer, [peek_at_or_after] and [peek_ref]
    stand on a record of a leaf they keep pinned, and [step] goes past it.  A pin is
    the bytes read when it was taken.  A cursor whose call failed is not looked at
    again; [next] alone answers its error and lives on, as [fail] leaves it. *)
From S2P Require Import Prelude Crc Page Cells Order Node Pool BTree.
Import Page Cells Order Node BTree.

Module Cursor.

(** [RangeIter]: the position ([BTree.RangeIter]) and the fields of the pull side. *)
Record Cursor := mkCursor {
  cu_it : RangeIter;
  cu_buf : list (bytes * bytes * bool);
  cu_served : Z;
  cu_pin : option bytes;
  cu_entries : Z;
  cu_markers : bool;
  cu_seeks : Z;
}.
Definition with_it (it : RangeIter) (c : Cursor) : Cursor :=
  mkCursor it (cu_buf c) (cu_served c) (cu_pin c) (cu_entries c) (cu_markers c) (cu_seeks c).
Definition with_buf (buf : list (bytes * bytes * bool)) (c : Cursor) : Cursor :=
  mkCursor (cu_it c) buf (cu_served c) (cu_pin c) (cu_entries c) (cu_markers c) (cu_seeks c).
Definition with_served (n : Z) (c : Cursor) : Cursor :=
  mkCursor (cu_it c) (cu_buf c) n (cu_pin c) (cu_entries c) (cu_markers c) (cu_seeks c).
Definition with_pin (pin : option bytes) (c : Cursor) : Cursor :=
  mkCursor (cu_it c) (cu_buf c) (cu_served c) pin (cu_entries c) (cu_markers c) (cu_seeks c).
(** A leaf pinned, and the two facts of it recorded. *)
Definition pinned (b : bytes) (markers : bool) (c : Cursor) : Cursor :=
  mkCursor (cu_it c) (cu_buf c) (cu_served c) (Some b) (nentries b) markers (cu_seeks c).
Definition with_seeks (n : Z) (c : Cursor) : Cursor :=
  mkCursor (cu_it c) (cu_buf c) (cu_served c) (cu_pin c) (cu_entries c) (cu_markers c) n.
Definition at_idx (i : Z) (it : RangeIter) : RangeIter :=
  mkIter (it_page it) i (it_done it) (it_path it) (it_leaves it) (it_max_leaves it).
Definition finished (it : RangeIter) : RangeIter :=
  mkIter (it_page it) (it_idx it) true (it_path it) (it_leaves it) (it_max_leaves it).
Definition SHORT_SCAN : Z := 8.

(** Whether a record of a leaf is an overflow marker, by its length fields alone. *)
Definition is_marker (rec : bytes) : option bool :=
  b0 ← rec !! 0%nat; b1 ← rec !! 1%nat;
  if (b0 =? 255) && int_tag b1 then Some false
  else if compact_tag b1 then Some false
  else
    let k := b0 + 256 * b1 in
    vb ← get_at rec (2 + k) 2; Some (le_num vb =? OVERFLOW_VLEN).
Fixpoint any_marker (b : bytes) (is_ : list Z) : option bool :=
  match is_ with
  | [] => Some false
  | i :: is_ => rec ← slot b i; m ← is_marker rec; if m : bool then Some true else any_marker b is_
  end.
Definition leaf_has_marker (b : bytes) : option bool := any_marker b (indices (nentries b)).

Section cursor.
Context `{HC : Crc32c} {P : Type} `{PagePool P} (tree : Z).

(** The answer of a call, looked at instead of passed on. *)
Definition attempt {A} (m : M P A) : M P (result error A) := λ s,
  match m s with
  | (s, Some r) => (s, Some (Ok r))
  | (s, None) => (s, None)
  end.

Definition open_range (from : bytes) : M P Cursor :=
  let+ it := range tree from in ret (mkCursor it [] 0 None 0 true 0).

(** [advance] keeps the leaf it lands on pinned. *)
Definition advance_pin (c : Cursor) : M P (bool * Cursor) :=
  let+ (more, it) := advance tree (cu_it c) in
  if more : bool then
    let+ b := get_page (it_page it) in
    let+ markers := sure (leaf_has_marker b) in
    ret (true, pinned b markers (with_it it c))
  else ret (false, c).

(** The records of a leaf from a slot on, copied out with their flags. *)
Fixpoint leaf_rest (b : bytes) (is_ : list Z) : option (list (bytes * bytes * bool)) :=
  match is_ with
  | [] => Some []
  | i :: is_ => rec ← slot b i; r ← validated_leaf rec; l ← leaf_rest b is_; Some (r :: l)
  end.
(** [Iterator::next]. *)
Definition answer : Type := option (result error (bytes * bytes)).
Definition fuse (c : Cursor) (e : error) : answer * Cursor := (Some (Err e), with_it (finished (cu_it c)) c).
Definition served_value (c : Cursor) (k v : bytes) (marker : bool) : M P (answer * Cursor) :=
  if marker then
    let+ r := attempt (read_overflow v) in
    match r with Ok v => ret (Some (Ok (k, v)), c) | Err e => ret (fuse c e) end
  else ret (Some (Ok (k, v)), c).
Fixpoint next_loop (fuel : nat) (c : Cursor) : M P (answer * Cursor) :=
  match fuel with
  | O => diverge
  | S fuel =>
      let c := with_pin None c in
      match cu_buf c with
      | (k, v, marker) :: buf => served_value (with_buf buf c) k v marker
      | [] =>
          let it := cu_it c in
          if it_done it then ret (None, c) else
          let+ r := attempt (open_cached (it_page it)) in
          match r with
          | Err e => ret (fuse c e)
          | Ok b =>
              if negb (tree_id b =? tree) then ret (fuse c (Corrupt (it_page it) "sibling page belongs to another tree")) else
              let n := nentries b in
              let onward c :=
                let+ r := attempt (advance_pin c) in
                match r with
                | Ok (true, c) => next_loop fuel c
                | Ok (false, c) => next_loop fuel (with_it (finished (cu_it c)) c)
                | Err e => ret (fuse c e)
                end in
              if cu_served c <? SHORT_SCAN then
                if it_idx it <? n then
                  let+ rec := sure (slot b (it_idx it)) in
                  let+ (k, v, marker) := sure (validated_leaf rec) in
                  served_value (with_served (cu_served c + 1) (with_it (at_idx (it_idx it + 1) it) c)) k v marker
                else onward c
              else
                let+ buf := sure (leaf_rest b (seqZ (it_idx it) (n - it_idx it))) in
                onward (with_buf buf (with_it (at_idx (Z.max (it_idx it) n) it) c))
          end
      end
  end.
(** A leaf a round, and a round to see that there is no more. *)
Definition rounds (c : Cursor) : nat := S (S (S (Z.to_nat (it_max_leaves (cu_it c))))).
Definition next (c : Cursor) : M P (answer * Cursor) := next_loop (rounds c) c.

(** [position_at_or_after]: what is buffered first, then the leaves. *)
Fixpoint skip_buf (target : bytes) (buf : list (bytes * bytes * bool)) : list (bytes * bytes * bool) :=
  match buf with
  | (k, v, marker) :: rest => if bytes_ltb k target then skip_buf target rest else buf
  | [] => []
  end.
Fixpoint position_loop (fuel : nat) (target : bytes) (c : Cursor) : M P Cursor :=
  match fuel with
  | O => diverge
  | S fuel =>
      if it_done (cu_it c) then ret (with_pin None c) else
      let+ c :=
        match cu_pin c with
        | Some _ => ret c
        | None =>
            let+ b := open_cached (it_page (cu_it c)) in
            let+ markers := sure (leaf_has_marker b) in
            ret (pinned b markers c)
        end in
      let it := cu_it c in
      let+ b := sure (cu_pin c) in
      lift (open_checked b (it_page it)) ;;+
      if negb (tree_id b =? tree) then fail (Corrupt (it_page it) "sibling page belongs to another tree") else
      let n := nentries b in
      let+ idx :=
        (if negb (bool_decide (target = [])) && (it_idx it <? n) then
           let+ rec := sure (slot b (it_idx it)) in
           let+ (key0, _, _) := sure (validated_leaf rec) in
           if bytes_ltb key0 target then let+ i := sure (lower_bound b target) in ret (Z.max i (it_idx it))
           else ret (it_idx it)
         else ret (it_idx it)) in
      if idx <? n then
        let+ rec := sure (slot b idx) in
        let+ (key, value, marker) := sure (validated_leaf rec) in
        if marker : bool then
          let c := with_pin None (with_it (at_idx (idx + 1) it) c) in
          let+ v := read_overflow value in
          ret (with_buf ((key, v, false) :: cu_buf c) c)
        else ret (with_it (at_idx idx it) c)
      else
        let+ (more, c) := advance_pin (with_pin None c) in
        position_loop fuel target (if more : bool then c else with_it (finished (cu_it c)) c)
  end.
Definition position_at_or_after (target : bytes) (c : Cursor) : M P Cursor :=
  let c := with_seeks (cu_seeks c + 1) c in
  let c := with_buf (skip_buf target (cu_buf c)) c in
  match cu_buf c with
  | (k, v, true) :: buf => let+ v := read_overflow v in ret (with_buf ((k, v, false) :: buf) c)
  | (_, _, false) :: _ => ret c
  | [] => position_loop (rounds c) target c
  end.
(** The record the cursor stands on. *)
Definition current_ref (c : Cursor) : M P (option (bytes * bytes)) :=
  match cu_buf c with
  | (k, v, _) :: _ => ret (Some (k, v))
  | [] =>
      if it_done (cu_it c) then ret None else
      match cu_pin c with
      | None => ret None
      | Some b =>
          let+ _ := lift (Some (open_resident_validated b (it_page (cu_it c)))) in
          if nentries b <=? it_idx (cu_it c) then ret None else
          let+ rec := sure (slot b (it_idx (cu_it c))) in
          let+ (k, v, _) := sure (validated_leaf rec) in ret (Some (k, v))
      end
  end.
Definition peek_at_or_after (target : bytes) (c : Cursor) : M P (option (bytes * bytes) * Cursor) :=
  let+ c := position_at_or_after target c in
  let+ r := current_ref c in ret (r, c).
Definition parked (c : Cursor) : bool :=
  bool_decide (cu_buf c = []) && negb (it_done (cu_it c)) && bool_decide (is_Some (cu_pin c)) && negb (cu_markers c)
  && (it_idx (cu_it c) <? cu_entries c).
Definition peek_ref (c : Cursor) : M P (option (bytes * bytes) * Cursor) :=
  let+ c := (if parked c then ret c else position_at_or_after [] c) in
  let+ r := current_ref c in ret (r, c).
Definition step (c : Cursor) : Cursor :=
  match cu_buf c with
  | _ :: buf => with_buf buf c
  | [] => with_it (at_idx (it_idx (cu_it c) + 1) (cu_it c)) c
  end.

(** [for_each_ref] of a cursor already in use: what is buffered, then the leaves,
    the first from the bytes it was pinned with. *)
Section rest.
Context {S : Type} (f : S → bytes → bytes → S * bool).
Fixpoint rest_loop (fuel : nat) (c : Cursor) (acc : S) : M P S :=
  match fuel with
  | O => diverge
  | Datatypes.S fuel =>
      let it := cu_it c in
      if it_done it then ret acc else
      let+ b := (match cu_pin c with Some b => ret b | None => get_page (it_page it) end) in
      lift (open_checked b (it_page it)) ;;+
      if negb (tree_id b =? tree) then fail (Corrupt (it_page it) "sibling page belongs to another tree") else
      let n := nentries b in
      let+ (acc, go, deferred) := visit_slots f b (seqZ (it_idx it) (n - it_idx it)) [] acc in
      if negb go then ret acc else
      let+ (acc, go) := visit_deferred f deferred acc in
      if negb go then ret acc else
      let+ (more, c) := advance_pin (with_pin None (with_it (at_idx (Z.max (it_idx it) n) it) c)) in
      if more : bool then rest_loop fuel c acc else ret acc
  end.
Definition for_each_rest (c : Cursor) (acc : S) : M P S :=
  let+ (acc, go) := visit_deferred f (cu_buf c) acc in
  if negb go then ret acc else rest_loop (rounds c) (with_buf [] c) acc.
End rest.
End cursor.
End Cursor.
