(* ===== verification/Reverse.v ===== *)
(** * Descending ranges ([core/kernel/src/btree.rs])

    [range_reverse] and [ReverseRangeIter]: the records below a key in descending
    order, a leaf at a time, through the parents.  [for_each_ref] opens its leaf
    again behind every spilled value, whose chain is read with the leaf released. *)
From S2P Require Import Prelude Crc Page Cells Order Node Pool BTree Cursor.
Import Page Cells Order Node BTree Cursor.

Module Reverse.

(** [ReverseRangeIter]; [rv_idx] is the slot bound in the leaf, [rv_pin] the bytes of
    the leaf when it was pinned. *)
Record ReverseRangeIter := mkReverse {
  rv_page : Z;
  rv_idx : Z;
  rv_done : bool;
  rv_path : list (Z * Z);
  rv_leaves : Z;
  rv_max_leaves : Z;
  rv_pin : option bytes;
  rv_pending : option (bytes * bytes);
}.
Definition rv_at (i : Z) (it : ReverseRangeIter) : ReverseRangeIter :=
  mkReverse (rv_page it) i (rv_done it) (rv_path it) (rv_leaves it) (rv_max_leaves it) (rv_pin it) (rv_pending it).
Definition rv_finished (it : ReverseRangeIter) : ReverseRangeIter :=
  mkReverse (rv_page it) (rv_idx it) true (rv_path it) (rv_leaves it) (rv_max_leaves it) (rv_pin it) (rv_pending it).
Definition rv_pinned (pin : option bytes) (it : ReverseRangeIter) : ReverseRangeIter :=
  mkReverse (rv_page it) (rv_idx it) (rv_done it) (rv_path it) (rv_leaves it) (rv_max_leaves it) pin (rv_pending it).
Definition rv_with (pending : option (bytes * bytes)) (it : ReverseRangeIter) : ReverseRangeIter :=
  mkReverse (rv_page it) (rv_idx it) (rv_done it) (rv_path it) (rv_leaves it) (rv_max_leaves it) (rv_pin it) pending.

Section reverse.
Context `{HC : Crc32c} {P : Type} `{PagePool P} (tree : Z).

Definition range_reverse (to : bytes) : M P ReverseRangeIter :=
  let+ (leaf, path) := descend_with_path tree to in
  let+ b := open_cached leaf in
  let+ idx := sure (lower_bound b to) in
  let+ n := pages_held in ret (mkReverse leaf idx false path 1 n None None).

(** The two loops of [retreat]: up to an ancestor with a child to the left, then
    down the rightmost spine, by [usize::MAX]. *)
Fixpoint climb_left (path : list (Z * Z)) : option (Z * Z * list (Z * Z)) :=
  match path with
  | [] => None
  | (page, i) :: path => if 0 <? i then Some (page, i - 1, path) else climb_left path
  end.
Fixpoint right_spine (fuel : nat) (cur idx : Z) (path : list (Z * Z)) : M P (Z * Z * list (Z * Z)) :=
  match fuel with
  | O => diverge
  | S fuel =>
      let+ b := open_cached cur in
      if negb (tree_id b =? tree) then fail (Corrupt cur "page belongs to another tree") else
      if bool_decide (kind b = Some Leaf) then ret (cur, nentries b, path) else
      let n := nentries b in
      let child_i := if n <? idx then n else idx in
      let+ held := pages_held in
      let+ child := lift (child_at held b child_i) in
      right_spine fuel child u64_max ((cur, child_i) :: path)
  end.
Definition retreat (it : ReverseRangeIter) : M P (bool * ReverseRangeIter) :=
  match climb_left (rv_path it) with
  | None => ret (false, mkReverse (rv_page it) (rv_idx it) (rv_done it) [] (rv_leaves it) (rv_max_leaves it) (rv_pin it) (rv_pending it))
  | Some (cur, idx, path) =>
      let+ fuel := levels in
      let+ (page, n, path) := right_spine fuel cur idx path in
      let leaves := rv_leaves it + 1 in
      if rv_max_leaves it <? leaves then fail (Corrupt page "reverse scan visits more leaves than the file holds")
      else ret (true, mkReverse page n (rv_done it) path leaves (rv_max_leaves it) (rv_pin it) (rv_pending it))
  end.
Definition open_leaf (page : Z) : M P bytes :=
  let+ b := open_cached page in
  if negb (tree_id b =? tree) then fail (Corrupt page "reverse-scan page belongs to another tree") else ret b.

(** *** By callback: [for_each_ref] *)
Section visit.
Context {S : Type} (f : S → bytes → bytes → S * bool).
(** The slots below [n], from the top. *)
Fixpoint visit_down (page : Z) (n : nat) (b : bytes) (acc : S) : M P (S * bool) :=
  match n with
  | O => ret (acc, true)
  | Datatypes.S i =>
      let+ rec := sure (slot b (Z.of_nat i)) in
      let+ (key, value, marker) := sure (validated_leaf rec) in
      if marker : bool then
        let+ v := read_overflow value in
        let '(acc, go) := f acc key v in
        if go : bool then let+ b := open_leaf page in visit_down page i b acc else ret (acc, false)
      else
        let '(acc, go) := f acc key value in
        if go : bool then visit_down page i b acc else ret (acc, false)
  end.
Fixpoint reverse_loop (fuel : nat) (it : ReverseRangeIter) (acc : S) : M P S :=
  match fuel with
  | O => diverge
  | Datatypes.S fuel =>
      if rv_done it then ret acc else
      let+ b := open_leaf (rv_page it) in
      let+ (acc, go) := visit_down (rv_page it) (Z.to_nat (rv_idx it)) b acc in
      if negb go then ret acc else
      let+ (more, it) := retreat (rv_at 0 it) in
      reverse_loop fuel (if more : bool then it else rv_finished it) acc
  end.
Definition reverse_rounds (it : ReverseRangeIter) : nat := Datatypes.S (Datatypes.S (Z.to_nat (rv_max_leaves it))).
Definition for_each_reverse (it : ReverseRangeIter) (acc : S) : M P S :=
  let it := rv_pinned None it in
  match rv_pending it with
  | Some (key, value) =>
      let '(acc, go) := f acc key value in
      if go : bool then reverse_loop (reverse_rounds it) (rv_with None it) acc else ret acc
  | None => reverse_loop (reverse_rounds it) it acc
  end.
End visit.

(** *** By pulling: [peek_ref] and [step] *)
Fixpoint reverse_position (fuel : nat) (it : ReverseRangeIter) : M P ReverseRangeIter :=
  match fuel with
  | O => diverge
  | S fuel =>
      if bool_decide (is_Some (rv_pending it)) || rv_done it then ret it else
      let+ b := (match rv_pin it with Some b => ret b | None => get_page (rv_page it) end) in
      let it := rv_pinned (Some b) it in
      lift (open_checked b (rv_page it)) ;;+
      if negb (tree_id b =? tree) then fail (Corrupt (rv_page it) "reverse-scan page belongs to another tree") else
      if 0 <? rv_idx it then
        let+ rec := sure (slot b (rv_idx it - 1)) in
        let+ (key, value, marker) := sure (validated_leaf rec) in
        if marker : bool then
          let+ v := read_overflow value in
          ret (rv_with (Some (key, v)) (rv_pinned None (rv_at (rv_idx it - 1) it)))
        else ret it
      else
        let+ (more, it) := retreat (rv_pinned None it) in
        reverse_position fuel (if more : bool then it else rv_finished it)
  end.
Definition reverse_current (it : ReverseRangeIter) : M P (option (bytes * bytes)) :=
  match rv_pending it with
  | Some kv => ret (Some kv)
  | None =>
      if rv_done it then ret None else
      match rv_pin it with
      | None => ret None
      | Some b =>
          lift (open_checked b (rv_page it)) ;;+
          if rv_idx it =? 0 then ret None else
          let+ rec := sure (slot b (rv_idx it - 1)) in
          let+ (key, value, _) := sure (validated_leaf rec) in ret (Some (key, value))
      end
  end.
Definition reverse_peek (it : ReverseRangeIter) : M P (option (bytes * bytes) * ReverseRangeIter) :=
  let+ it := reverse_position (reverse_rounds it) it in
  let+ r := reverse_current it in ret (r, it).
Definition reverse_step (it : ReverseRangeIter) : ReverseRangeIter :=
  match rv_pending it with
  | Some _ => rv_with None it
  | None => rv_at (saturating_sub (rv_idx it) 1) it
  end.
End reverse.
End Reverse.
