(* ===== verification/Tree.v ===== *)
(** * The shape of a tree and its order

    The tree behind the pages: leaves of cells, interior nodes of children and
    separators, one-hole contexts for a path, and the order invariant: every key
    lies between the separators around it.  Nothing here is about bytes or pages. *)
From S2P Require Import Prelude Order.
Import Order.

Module Tree.

(** A record of a leaf: its key, the value it stands for, its bytes, and the
    overflow pages of a spilled value. *)
Record cell := Cell { c_key : bytes; c_val : bytes; c_rec : bytes; c_chain : list Z }.
Inductive tree :=
  | TLeaf (no next : Z) (cs : list cell)
  | TNode (no : Z) (cs : list tree) (ks : list bytes).

Section tree_ind.
Context (Q : tree → Prop) (QL : ∀ no next cs, Q (TLeaf no next cs)) (QN : ∀ no cs ks, Forall Q cs → Q (TNode no cs ks)).
Fixpoint tree_nested_ind (t : tree) : Q t :=
  match t with
  | TLeaf no next cs => QL no next cs
  | TNode no cs ks => QN no cs ks
      ((fix go (l : list tree) : Forall Q l :=
          match l with [] => Forall_nil_2 _ | t :: l => Forall_cons_2 _ _ _ (tree_nested_ind t) (go l) end) cs)
  end.
End tree_ind.

Definition no_of (t : tree) : Z := match t with TLeaf no _ _ | TNode no _ _ => no end.
Definition is_leaf (t : tree) : Prop := match t with TLeaf _ _ _ => True | _ => False end.
(** The cells in order, the pages a tree owns, its leaves' pages. *)
Fixpoint cells (t : tree) : list cell :=
  match t with TLeaf _ _ cs => cs | TNode _ cs _ => flat_map cells cs end.
Fixpoint owned (t : tree) : list Z :=
  match t with
  | TLeaf no _ cs => no :: flat_map c_chain cs
  | TNode no cs _ => no :: flat_map owned cs
  end.
Fixpoint leaf_nos (t : tree) : list Z :=
  match t with TLeaf no _ _ => [no] | TNode _ cs _ => flat_map leaf_nos cs end.
(** The pages of its nodes. *)
Fixpoint node_nos (t : tree) : list Z :=
  match t with TLeaf no _ _ => [no] | TNode no cs _ => no :: flat_map node_nos cs end.
(** Only the last leaf has no sibling. *)
Fixpoint links (last : bool) (t : tree) : Prop :=
  match t with
  | TLeaf _ next _ => (next = 0 ↔ last = true) ∧ is_u32 next
  | TNode _ cs _ =>
      (fix go cs := match cs with [] => False | [c] => links last c | c :: cs => links false c ∧ go cs end) cs
  end.

(** ** Order *)
Definition above (lo : option bytes) (k : bytes) : Prop := match lo with Some l => l ≼ k | None => True end.
Definition strictly_above (lo : option bytes) (k : bytes) : Prop := match lo with Some l => l ≺ k | None => True end.
Definition below (k : bytes) (hi : option bytes) : Prop := match hi with Some h => k ≺ h | None => True end.
Definition within (lo hi : option bytes) (k : bytes) : Prop := above lo k ∧ below k hi.
Definition inside (lo hi : option bytes) (k : bytes) : Prop := strictly_above lo k ∧ below k hi.

Fixpoint ord (lo hi : option bytes) (t : tree) {struct t} : Prop :=
  match t with
  | TLeaf _ _ cs => sorted (c_key <$> cs) ∧ Forall (λ c, within lo hi (c_key c)) cs
  | TNode _ cs ks =>
      (fix go lo cs ks {struct cs} :=
         match cs, ks with
         | [c], [] => ord lo hi c
         | c :: cs, k :: ks => ord lo (Some k) c ∧ inside lo hi k ∧ go (Some k) cs ks
         | _, _ => False
         end) lo cs ks
  end.
(** The order of the children of a node. *)
Definition ords (hi : option bytes) : option bytes → list tree → list bytes → Prop :=
  fix go lo cs ks {struct cs} :=
    match cs, ks with
    | [c], [] => ord lo hi c
    | c :: cs, k :: ks => ord lo (Some k) c ∧ inside lo hi k ∧ go (Some k) cs ks
    | _, _ => False
    end.
Definition all_links (last : bool) : list tree → Prop :=
  fix go cs := match cs with [] => False | [c] => links last c | c :: cs => links false c ∧ go cs end.

(** ** Contexts *)
(** A node with one child missing: the children before it, each with the
    separator that follows it, and those after, each with the one before it. *)
Record frame := Frame { f_no : Z; f_l : list (tree * bytes); f_r : list (bytes * tree) }.
Definition plug1 (f : frame) (t : tree) : tree :=
  TNode (f_no f) ((f_l f).*1 ++ t :: (f_r f).*2) ((f_l f).*2 ++ (f_r f).*1).
(** A context is a path, innermost frame first. *)
Fixpoint plug (ctx : list frame) (t : tree) : tree :=
  match ctx with [] => t | f :: ctx => plug ctx (plug1 f t) end.

Definition end_l (lo : option bytes) (l : list (tree * bytes)) : option bytes :=
  match last l with Some (_, k) => Some k | None => lo end.
Definition start_r (hi : option bytes) (r : list (bytes * tree)) : option bytes :=
  match r with (k, _) :: _ => Some k | [] => hi end.
(** The bounds of the hole, inside bounds given for the whole. *)
Definition lo_of (lo : option bytes) (ctx : list frame) : option bytes := foldr (λ f lo, end_l lo (f_l f)) lo ctx.
Definition hi_of (hi : option bytes) (ctx : list frame) : option bytes := foldr (λ f hi, start_r hi (f_r f)) hi ctx.

Fixpoint ord_l (lo hi : option bytes) (l : list (tree * bytes)) : Prop :=
  match l with
  | [] => True
  | (c, k) :: l => ord lo (Some k) c ∧ inside lo hi k ∧ ord_l (Some k) hi l
  end.
Fixpoint ord_r (lo hi : option bytes) (r : list (bytes * tree)) : Prop :=
  match r with
  | [] => True
  | (k, c) :: r => inside lo hi k ∧ ord (Some k) (start_r hi r) c ∧ ord_r (Some k) hi r
  end.
Definition ord_frame (lo hi : option bytes) (f : frame) : Prop :=
  ord_l lo hi (f_l f) ∧ ord_r (end_l lo (f_l f)) hi (f_r f).
Fixpoint ord_ctx (lo hi : option bytes) (ctx : list frame) : Prop :=
  match ctx with
  | [] => True
  | f :: ctx => ord_frame (lo_of lo ctx) (hi_of hi ctx) f ∧ ord_ctx lo hi ctx
  end.

Lemma end_l_cons lo c k l : end_l lo ((c, k) :: l) = end_l (Some k) l.
Proof. unfold end_l. rewrite last_cons. destruct (last l) as [[? ?]|]; done. Qed.

Lemma ords_right hi r : ∀ lo t,
  ords hi lo (t :: r.*2) r.*1 ↔ ord_r lo hi r ∧ ord lo (start_r hi r) t.
Proof.
  induction r as [|[k c] r IH]; intros lo t; [cbn; naive_solver|].
  change (((k, c) :: r).*2) with (c :: r.*2). change (((k, c) :: r).*1) with (k :: r.*1).
  change (ords hi lo (t :: c :: r.*2) (k :: r.*1)) with (ord lo (Some k) t ∧ inside lo hi k ∧ ords hi (Some k) (c :: r.*2) r.*1).
  rewrite IH. cbn [ord_r start_r]. naive_solver.
Qed.
Lemma ords_app hi l r t : ∀ lo,
  ords hi lo (l.*1 ++ t :: r.*2) (l.*2 ++ r.*1) ↔
  ord_l lo hi l ∧ ord_r (end_l lo l) hi r ∧ ord (end_l lo l) (start_r hi r) t.
Proof.
  induction l as [|[c k] l IH]; intros lo.
  - change (([] : list (tree * bytes)).*1 ++ t :: r.*2) with (t :: r.*2).
    change (([] : list (tree * bytes)).*2 ++ r.*1) with (r.*1). rewrite ords_right.
    change (end_l lo []) with lo. cbn [ord_l]. naive_solver.
  - rewrite end_l_cons. change (((c, k) :: l).*1 ++ t :: r.*2) with (c :: (l.*1 ++ t :: r.*2)).
    change (((c, k) :: l).*2 ++ r.*1) with (k :: (l.*2 ++ r.*1)).
    assert (ords hi lo (c :: (l.*1 ++ t :: r.*2)) (k :: (l.*2 ++ r.*1)) ↔
      ord lo (Some k) c ∧ inside lo hi k ∧ ords hi (Some k) (l.*1 ++ t :: r.*2) (l.*2 ++ r.*1)) as ->.
    { by destruct (l.*1 ++ t :: r.*2). }
    rewrite IH. cbn [ord_l]. naive_solver.
Qed.
Lemma ord_plug1 lo hi f t :
  ord lo hi (plug1 f t) ↔ ord_frame lo hi f ∧ ord (end_l lo (f_l f)) (start_r hi (f_r f)) t.
Proof. change (ord lo hi (plug1 f t)) with (ords hi lo ((f_l f).*1 ++ t :: (f_r f).*2) ((f_l f).*2 ++ (f_r f).*1)).
  rewrite ords_app. unfold ord_frame. naive_solver.
Qed.
Lemma ord_plug lo hi ctx : ∀ t,
  ord lo hi (plug ctx t) ↔ ord_ctx lo hi ctx ∧ ord (lo_of lo ctx) (hi_of hi ctx) t.
Proof.
  induction ctx as [|f ctx IH]; intros t; cbn [plug ord_ctx lo_of hi_of foldr]; [naive_solver|].
  rewrite IH, ord_plug1. fold (lo_of lo ctx) (hi_of hi ctx). naive_solver.
Qed.

(** ** Keys *)
Definition keys (t : tree) : list bytes := c_key <$> cells t.
Definition child_keys (cs : list tree) : list bytes := flat_map keys cs.
Lemma keys_node no cs ks : keys (TNode no cs ks) = child_keys cs.
Proof.
  unfold keys, child_keys. cbn [cells]. induction cs as [|c cs IH]; [done|]. cbn [flat_map].
  by rewrite fmap_app, IH.
Qed.

Lemma below_weaken k k' hi : k ≼ k' → below k' hi → below k hi.
Proof. destruct hi; cbn; [|done]. intros. order. Qed.
Lemma above_weaken k k' lo : k ≼ k' → above lo k → above lo k'.
Proof. destruct lo; cbn; [|done]. intros. order. Qed.
Lemma strictly_above_above lo k : strictly_above lo k → above lo k.
Proof. destruct lo; cbn; [|done]. intros. order. Qed.
Lemma strictly_above_trans lo k k' : strictly_above lo k → k ≺ k' → strictly_above lo k'.
Proof. destruct lo; cbn; [|done]. intros. order. Qed.
Lemma inside_within lo hi k : inside lo hi k → within lo hi k.
Proof. intros [? ?]. split; [by apply strictly_above_above|done]. Qed.
(** Keys of an inner interval are keys of the outer one. *)
Lemma within_lower lo hi l k : strictly_above lo l → within (Some l) hi k → within lo hi k.
Proof. intros Hl [Ha Hb]. split; [|done]. cbn in Ha. destruct lo; cbn in *; [|done]. order. Qed.
Lemma within_upper lo hi h k : below h hi → within lo (Some h) k → within lo hi k.
Proof. intros Hh [Ha Hb]. split; [done|]. cbn in Hb. destruct hi; cbn in *; [|done]. order. Qed.

Definition keys_ok (lo hi : option bytes) (l : list bytes) : Prop := sorted l ∧ Forall (within lo hi) l.
Lemma keys_ok_app lo hi k l1 l2 :
  inside lo hi k → keys_ok lo (Some k) l1 → keys_ok (Some k) hi l2 → keys_ok lo hi (l1 ++ l2).
Proof.
  intros [Hl Hh] [S1 W1] [S2 W2]. split.
  - apply sorted_app. split_and!; [done..|]. intros a b Ha Hb.
    rewrite Forall_forall in W1, W2. destruct (W1 a Ha) as [_ Ha']. destruct (W2 b Hb) as [Hb' _]. cbn in *. order.
  - apply Forall_app. split; eapply Forall_impl; [exact W1| |exact W2|]; cbn; intros.
    + by eapply within_upper.
    + by eapply within_lower.
Qed.
Lemma ords_keys lo hi cs ks :
  Forall (λ c, ∀ lo hi, ord lo hi c → keys_ok lo hi (keys c)) cs → ords hi lo cs ks → keys_ok lo hi (child_keys cs).
Proof.
  intros Hc. revert lo ks. induction Hc as [|c cs Hc Hcs IH]; intros lo ks Ho; [done|].
  unfold child_keys in *. cbn [flat_map].
  destruct cs as [|c2 cs], ks as [|k ks]; try done.
  - cbn [flat_map]. rewrite app_nil_r. by apply Hc.
  - by destruct Ho as (_ & _ & ?).
  - destruct Ho as (Ho & Hk & Hr). eapply keys_ok_app; [exact Hk|by apply Hc|by eapply IH].
Qed.
Lemma ord_keys t : ∀ lo hi, ord lo hi t → keys_ok lo hi (keys t).
Proof.
  induction t as [no next cs|no cs ks Hcs] using tree_nested_ind; intros lo hi Ho.
  - destruct Ho as [Hs Hw]. split; [exact Hs|]. unfold keys. by apply Forall_fmap.
  - rewrite keys_node. by eapply ords_keys.
Qed.
Lemma ord_l_keys lo hi l k : ord_l lo hi l → above (end_l lo l) k → Forall (λ x, x ≺ k) (child_keys l.*1) ∧ above lo k.
Proof.
  revert lo. induction l as [|[c s] l IH]; intros lo Ho Hk; [by split; [constructor|]|].
  rewrite end_l_cons in Hk. destruct Ho as (Hc & Hs & Hl). destruct (IH _ Hl Hk) as [Hf Ha]. split.
  - change (child_keys ((c, s) :: l).*1) with (keys c ++ child_keys l.*1). apply Forall_app. split; [|done].
    apply ord_keys in Hc as [_ Hw]. eapply Forall_impl; [exact Hw|]. intros x [_ Hx]. cbn in *. order.
  - destruct lo; cbn in *; [|done]. destruct Hs as [Hs _]. cbn in *. order.
Qed.
Lemma ord_r_keys lo hi r k : ord_r lo hi r → below k (start_r hi r) → Forall (λ x, k ≺ x) (child_keys r.*2) ∧ below k hi.
Proof.
  revert lo k. induction r as [|[s c] r IH]; intros lo k Ho Hk; [by split; [constructor|]|].
  destruct Ho as (Hs & Hc & Hr). cbn [start_r below] in Hk. split.
  - change (child_keys ((s, c) :: r).*2) with (keys c ++ child_keys r.*2).
    pose proof (ord_keys _ _ _ Hc) as [_ Hw]. apply Forall_app. split.
    + eapply Forall_impl; [exact Hw|]. intros x [Hx _]. cbn in *. order.
    + destruct r as [|[s' c'] r]; [constructor|]. apply (IH _ k Hr). cbn in *. destruct Hr as [[Hr _] _]. cbn in *. order.
  - destruct Hs as [_ Hs]. destruct hi; cbn in *; [|done]. order.
Qed.

(** *** The cells around a hole *)
Definition child_cells (cs : list tree) : list cell := flat_map cells cs.
Fixpoint before (ctx : list frame) : list cell :=
  match ctx with [] => [] | f :: ctx => before ctx ++ child_cells (f_l f).*1 end.
Fixpoint after (ctx : list frame) : list cell :=
  match ctx with [] => [] | f :: ctx => child_cells (f_r f).*2 ++ after ctx end.
Lemma cells_plug ctx : ∀ t, cells (plug ctx t) = before ctx ++ cells t ++ after ctx.
Proof.
  induction ctx as [|f ctx IH]; intros t; cbn [plug before after]; [by rewrite app_nil_r|].
  rewrite IH. unfold plug1. cbn [cells]. rewrite flat_map_app. cbn [flat_map]. unfold child_cells.
  by rewrite <-!app_assoc.
Qed.
Lemma child_keys_cells cs : child_keys cs = c_key <$> child_cells cs.
Proof.
  unfold child_keys, child_cells. induction cs as [|c cs IH]; [done|]. cbn [flat_map]. by rewrite fmap_app, IH.
Qed.
Lemma hole_bounds lo hi ctx k :
  ord_ctx lo hi ctx → within (lo_of lo ctx) (hi_of hi ctx) k →
  Forall (λ c, c_key c ≺ k) (before ctx) ∧ Forall (λ c, k ≺ c_key c) (after ctx) ∧ within lo hi k.
Proof.
  induction ctx as [|f ctx IH]; cbn [ord_ctx lo_of hi_of foldr before after]; intros Ho Hk.
  - split_and!; [constructor|constructor|exact Hk].
  - destruct Ho as [[Hl Hr] Hc]. fold (lo_of lo ctx) (hi_of hi ctx) in *. destruct Hk as [Ha Hb].
    destruct (ord_l_keys _ _ _ _ Hl Ha) as [Fl Ha']. destruct (ord_r_keys _ _ _ _ Hr Hb) as [Fr Hb'].
    destruct (IH Hc (conj Ha' Hb')) as (Fb & Fa & Hw). rewrite child_keys_cells, Forall_fmap in Fl, Fr.
    split_and!; [by apply Forall_app|by apply Forall_app|done].
Qed.

(** ** Finding a leaf *)
Lemma plug_app c1 c2 t : plug (c1 ++ c2) t = plug c2 (plug c1 t).
Proof. revert t. induction c1 as [|f c1 IH]; intros t; [done|]. cbn. apply IH. Qed.
Lemma lo_of_app lo c1 c2 : lo_of lo (c1 ++ c2) = lo_of (lo_of lo c2) c1.
Proof. unfold lo_of. apply foldr_app. Qed.
Lemma hi_of_app hi c1 c2 : hi_of hi (c1 ++ c2) = hi_of (hi_of hi c2) c1.
Proof. unfold hi_of. apply foldr_app. Qed.
Lemma ord_ctx_app lo hi c1 c2 : ord_ctx lo hi (c1 ++ c2) ↔ ord_ctx (lo_of lo c2) (hi_of hi c2) c1 ∧ ord_ctx lo hi c2.
Proof.
  induction c1 as [|f c1 IH]; cbn [app ord_ctx]; [naive_solver|]. rewrite IH, lo_of_app, hi_of_app. naive_solver.
Qed.

Lemma ords_length hi lo cs ks : ords hi lo cs ks → length cs = S (length ks).
Proof.
  revert lo ks. induction cs as [|c cs IH]; intros lo ks Ho; [done|].
  destruct cs as [|c2 cs], ks as [|k ks]; try done.
  - by destruct Ho as (_ & _ & ?).
  - destruct Ho as (_ & _ & Ho). apply IH in Ho. cbn in *. lia.
Qed.
Lemma split_children (cs : list tree) (ks : list bytes) (i : nat) :
  length cs = S (length ks) → (i ≤ length ks)%nat →
  ∃ l t r, cs = l.*1 ++ t :: r.*2 ∧ ks = l.*2 ++ r.*1 ∧ length l = i.
Proof.
  revert cs ks. induction i as [|i IH]; intros cs ks Hl Hi.
  - destruct cs as [|t cs]; [done|]. exists [], t, (zip ks cs). cbn in Hl.
    rewrite fst_zip, snd_zip by lia. done.
  - destruct cs as [|c cs], ks as [|k ks]; cbn in *; try lia.
    destruct (IH cs ks) as (l & t & r & -> & -> & <-); [lia|lia|]. by exists ((c, k) :: l), t, r.
Qed.
Lemma ords_find hi lo cs ks key : ords hi lo cs ks → within lo hi key →
  ∃ l t r, cs = l.*1 ++ t :: r.*2 ∧ ks = l.*2 ++ r.*1 ∧ within (end_l lo l) (start_r hi r) key.
Proof.
  revert lo ks. induction cs as [|c cs IH]; intros lo ks Ho Hk; [done|].
  destruct cs as [|c2 cs], ks as [|k ks]; try done.
  - by exists [], c, [].
  - by destruct Ho as (_ & _ & ?).
  - destruct Ho as (Hc & Hi & Ho). destruct (decide (key ≺ k)).
    + pose proof (ords_length _ _ _ _ Ho) as Hlen. cbn in Hlen.
      exists [], c, ((k, c2) :: zip ks cs). csimpl. rewrite fst_zip, snd_zip by lia.
      split; [done|]. split; [done|]. split; [apply Hk|done].
    + destruct (IH (Some k) ks Ho) as (l & t & r & Ec & Ek & Hw).
      { split; [cbn; order|apply Hk]. }
      exists ((c, k) :: l), t, r. rewrite end_l_cons. csimpl. by rewrite Ec, Ek.
Qed.
Lemma find_leaf t : ∀ lo hi key, ord lo hi t → within lo hi key →
  ∃ ctx l, t = plug ctx l ∧ is_leaf l ∧ within (lo_of lo ctx) (hi_of hi ctx) key.
Proof.
  induction t as [no next cs|no cs ks Hcs] using tree_nested_ind; intros lo hi key Ho Hk.
  - by exists [], (TLeaf no next cs).
  - destruct (ords_find hi lo cs ks key Ho Hk) as (l & t & r & -> & -> & Hw).
    apply Forall_app in Hcs as [_ [Ht _]%Forall_cons].
    change (ord lo hi (plug1 (Frame no l r) t)) in Ho. apply ord_plug1 in Ho as [_ Ho]. cbn [f_l f_r] in Ho.
    destruct (Ht _ _ _ Ho Hw) as (ctx & lf & -> & Hlf & Hw').
    exists (ctx ++ [Frame no l r]), lf. rewrite plug_app, lo_of_app, hi_of_app. done.
Qed.
(** The separators on either side of the hole. *)
Lemma ord_l_seps hi l : ∀ lo, ord_l lo hi l →
  sorted l.*2 ∧ Forall (strictly_above lo) l.*2 ∧ ∀ k, above (end_l lo l) k → Forall (λ x, x ≼ k) l.*2.
Proof.
  induction l as [|[c k] l IH]; intros lo; [intros _; split_and!; [apply SSorted_nil|constructor|intros; constructor]|].
  intros (_ & [Hk _] & Hl). destruct (IH _ Hl) as (Hs & Hf & Hall). rewrite end_l_cons. csimpl. split_and!.
  - by constructor.
  - constructor; [done|]. eapply Forall_impl; [exact Hf|]. intros x Hx. cbn in Hx. destruct lo; cbn in *; [|done]. order.
  - intros x Hx. constructor; [|by apply Hall]. destruct l as [|[c' k'] l']; [done|].
    specialize (Hall _ Hx). apply Forall_cons in Hall as [Hall _]. apply Forall_cons in Hf as [Hf _]. cbn in *. order.
Qed.
Lemma ord_r_seps hi r : ∀ lo, ord_r lo hi r →
  sorted r.*1 ∧ Forall (strictly_above lo) r.*1 ∧ ∀ k, below k (start_r hi r) → Forall (λ x, k ≺ x) r.*1.
Proof.
  induction r as [|[k c] r IH]; intros lo; [intros _; split_and!; [apply SSorted_nil|constructor|intros; constructor]|].
  intros ([Hk _] & _ & Hr). destruct (IH _ Hr) as (Hs & Hf & Hall). csimpl. split_and!.
  - by constructor.
  - constructor; [done|]. eapply Forall_impl; [exact Hf|]. intros x Hx. cbn in Hx. destruct lo; cbn in *; [|done]. order.
  - intros x Hx. constructor; [done|]. eapply Forall_impl; [exact Hf|]. intros y Hy. cbn in *. order.
Qed.
Lemma end_l_in lo l : end_l lo l = lo ∧ l = [] ∨ ∃ k, end_l lo l = Some k ∧ k ∈ l.*2.
Proof.
  unfold end_l. destruct (last l) as [[c k]|] eqn:E.
  - right. exists k. split; [done|]. apply last_Some in E as [l' ->]. rewrite fmap_app. apply elem_of_app. right. left.
  - left. by apply last_None in E.
Qed.
(** The position of the hole among the separators, for a key that belongs there. *)
Lemma frame_sorted lo hi f : ord_frame lo hi f → sorted ((f_l f).*2 ++ (f_r f).*1).
Proof.
  intros [Hl Hr]. destruct (ord_l_seps _ _ _ Hl) as (S1 & _ & F1). destruct (ord_r_seps _ _ _ Hr) as (S2 & A2 & _).
  apply sorted_app. split_and!; [done..|]. intros a b Ha Hb. rewrite Forall_forall in A2. specialize (A2 b Hb).
  destruct (end_l_in lo (f_l f)) as [[_ E]|(k & E & _)]; [rewrite E in Ha; by apply not_elem_of_nil in Ha|].
  rewrite E in *. specialize (F1 k). rewrite Forall_forall in F1. assert (a ≼ k) by (apply F1; [cbn; order|done]).
  cbn in A2. order.
Qed.
Lemma hole_position lo hi f key : ord_frame lo hi f → within (end_l lo (f_l f)) (start_r hi (f_r f)) key →
  cuts (λ k, negb (bytes_ltb key k)) ((f_l f).*2 ++ (f_r f).*1) (length (f_l f)).
Proof.
  intros [Hl Hr] [Ha Hb].
  destruct (ord_l_seps _ _ _ Hl) as (_ & _ & F1). destruct (ord_r_seps _ _ _ Hr) as (_ & _ & F2).
  assert (length (f_l f).*2 = length (f_l f)) as Elen by by rewrite length_fmap.
  split; [rewrite length_app; lia|]. rewrite take_app_le, take_ge, drop_app_ge, Elen, Nat.sub_diag, drop_0 by lia. split.
  - eapply Forall_impl; [apply (F1 key Ha)|]. intros x Hx. apply negb_true_iff, ltb_ge. done.
  - eapply Forall_impl; [apply (F2 key Hb)|]. intros x Hx. apply negb_false_iff, ltb_lt. done.
Qed.

(** ** Cutting a node in two *)
Lemma ords_cut hi lo cs ks (i : nat) up : ords hi lo cs ks → ks !! i = Some up →
  ords (Some up) lo (take (S i) cs) (take i ks) ∧ inside lo hi up ∧ ords hi (Some up) (drop (S i) cs) (drop (S i) ks).
Proof.
  revert lo cs ks. induction i as [|i IH]; intros lo cs ks Ho Hi.
  - destruct cs as [|c [|c2 cs]], ks as [|k ks]; try done.
    + by destruct Ho as (_ & _ & ?).
    + injection Hi as ->. destruct Ho as (Hc & Hk & Hr). split; [done|]. split; [apply Hk|done].
  - destruct cs as [|c [|c2 cs]], ks as [|k ks]; try done.
    + by destruct Ho as (_ & _ & ?).
    + destruct Ho as (Hc & Hk & Hr). cbn in Hi. destruct (IH _ _ _ Hr Hi) as (H1 & [H2a H2b] & H3).
      split_and!.
      * change (ord lo (Some k) c ∧ inside lo (Some up) k ∧ ords (Some up) (Some k) (take (S i) (c2 :: cs)) (take i ks)).
        split; [done|]. split; [|done]. split; [apply Hk|exact H2a].
      * split; [eapply strictly_above_trans; [apply Hk|exact H2a]|done].
      * done.
Qed.

(** ** Pages and links around a hole *)
Definition owned_frame (f : frame) : list Z := f_no f :: flat_map owned (f_l f).*1 ++ flat_map owned (f_r f).*2.
Definition owned_ctx (ctx : list frame) : list Z := flat_map owned_frame ctx.
Lemma owned_plug ctx : ∀ t, owned (plug ctx t) ≡ₚ owned_ctx ctx ++ owned t.
Proof.
  induction ctx as [|f ctx IH]; intros t; [done|]. cbn [plug]. rewrite IH. unfold plug1. cbn [owned owned_ctx flat_map].
  fold (owned_ctx ctx). rewrite flat_map_app. cbn [flat_map]. unfold owned_frame. solve_Permutation.
Qed.
Fixpoint leaves_before (ctx : list frame) : list Z :=
  match ctx with [] => [] | f :: ctx => leaves_before ctx ++ flat_map leaf_nos (f_l f).*1 end.
Fixpoint leaves_after (ctx : list frame) : list Z :=
  match ctx with [] => [] | f :: ctx => flat_map leaf_nos (f_r f).*2 ++ leaves_after ctx end.
Lemma leaf_nos_plug ctx : ∀ t, leaf_nos (plug ctx t) = leaves_before ctx ++ leaf_nos t ++ leaves_after ctx.
Proof.
  induction ctx as [|f ctx IH]; intros t; cbn [plug leaves_before leaves_after]; [by rewrite app_nil_r|].
  rewrite IH. unfold plug1. cbn [leaf_nos]. rewrite flat_map_app. cbn [flat_map]. by rewrite <-!app_assoc.
Qed.

Definition nodes_ctx (ctx : list frame) : list Z :=
  flat_map (λ f, f_no f :: flat_map node_nos (f_l f).*1 ++ flat_map node_nos (f_r f).*2) ctx.
Lemma node_nos_plug ctx : ∀ t, node_nos (plug ctx t) ≡ₚ nodes_ctx ctx ++ node_nos t.
Proof.
  induction ctx as [|f ctx IH]; intros t; [done|]. cbn [plug]. rewrite IH. unfold plug1. cbn [node_nos nodes_ctx flat_map].
  fold (nodes_ctx ctx). rewrite flat_map_app. cbn [flat_map]. solve_Permutation.
Qed.
Lemma leaf_node_nos t : ∀ h, h ∈ leaf_nos t → h ∈ node_nos t.
Proof.
  induction t as [no next cs|no cs ks Hcs] using tree_nested_ind; intros h Hh; [done|]. cbn [leaf_nos node_nos] in *.
  right. rewrite list_elem_of_In, in_flat_map in Hh |- *. destruct Hh as (c & Hc & Hh). exists c. split; [done|].
  rewrite Forall_forall in Hcs. apply list_elem_of_In, Hcs; by apply list_elem_of_In.
Qed.

Definition last_of (last : bool) (ctx : list frame) : bool :=
  foldr (λ f last, match f_r f with [] => last | _ => false end) last ctx.
Definition links_frame (last : bool) (f : frame) : Prop :=
  Forall (links false) (f_l f).*1 ∧ match f_r f with [] => True | _ => all_links last (f_r f).*2 end.
Fixpoint links_ctx (last : bool) (ctx : list frame) : Prop :=
  match ctx with [] => True | f :: ctx => links_frame (last_of last ctx) f ∧ links_ctx last ctx end.
Lemma all_links_cons last c cs : cs ≠ [] → all_links last (c :: cs) ↔ links false c ∧ all_links last cs.
Proof. by destruct cs. Qed.
Lemma all_links_app last l t r :
  all_links last (l ++ t :: r) ↔
  Forall (links false) l ∧ match r with [] => links last t | _ => links false t ∧ all_links last r end.
Proof.
  induction l as [|c l IH]; cbn [app].
  - destruct r; [naive_solver|]. rewrite all_links_cons by done. naive_solver.
  - rewrite all_links_cons by (by destruct l). rewrite IH, Forall_cons. naive_solver.
Qed.
Lemma links_plug1 last f t :
  links last (plug1 f t) ↔ links_frame last f ∧ links (match f_r f with [] => last | _ => false end) t.
Proof.
  change (links last (plug1 f t)) with (all_links last ((f_l f).*1 ++ t :: (f_r f).*2)).
  rewrite all_links_app. unfold links_frame. destruct (f_r f); csimpl; naive_solver.
Qed.
Lemma links_plug last ctx : ∀ t, links last (plug ctx t) ↔ links_ctx last ctx ∧ links (last_of last ctx) t.
Proof.
  induction ctx as [|f ctx IH]; intros t; cbn [plug links_ctx last_of foldr]; [naive_solver|].
  rewrite IH, links_plug1. fold (last_of last ctx). naive_solver.
Qed.
Lemma all_links_take last cs i : all_links last cs → (0 < i < length cs)%nat → all_links false (take i cs).
Proof.
  intros Hl Hi. destruct (lookup_lt_is_Some_2 cs (i - 1)) as [t Ht]; [lia|].
  rewrite <-(take_drop_middle _ _ _ Ht) in Hl. replace (S (i - 1)) with i in Hl by lia.
  replace i with (S (i - 1)) at 1 by lia. rewrite (take_S_r _ _ _ Ht).
  apply all_links_app in Hl as [Hf Hr]. apply all_links_app. split; [done|].
  destruct (drop i cs) eqn:E; [|apply Hr]. apply (f_equal length) in E. rewrite length_drop in E. cbn in E. lia.
Qed.
Lemma all_links_drop last cs i : all_links last cs → (i < length cs)%nat → all_links last (drop i cs).
Proof.
  revert cs. induction i as [|i IH]; intros cs Hl Hi; [done|]. destruct cs as [|c cs]; [done|]. cbn in *.
  destruct cs as [|c2 cs]; [cbn in *; lia|]. apply IH; [apply Hl|lia].
Qed.
End Tree.
