(* ===== verification/TreeRep.v ===== *)
(** * Trees on pages

    When a handle's pages hold a tree of [Tree.v]: each node on its own page in the
    encodings of [Cells.v], each spilled value on its chain, no page owned twice,
    none published, none that the allocator may hand out. *)
From S2P Require Import Prelude Crc Page Cells Order Node Interior Pool Tree BTree.
Import Page Cells Order Node Interior Tree BTree.

Module TreeRep.

(** The number of the tree, on each of its pages. *)
Class TreeId := tree_no : Z.

Section rep.
Context `{HC : Crc32c} `{HL : !Crc32cLaws} {P : Type} `{HP : PagePool P} `{HPL : !PagePoolLaws P}.
Context {tid : TreeId}.
Implicit Types (p : P) (s : BTree P) (t : tree).

(** ** Pages *)
Definition node_page p (no : Z) (kd : PageKind) (link : Z) (recs : list bytes) : Prop :=
  ∃ b, get p no = Ok b ∧ node_at b kd tid no link recs.
(** Keys of at most half a page: a full interior page of such separators can
    always be cut in two. *)
Definition KEY_CAP : Z := USABLE / 2 - 10.
Definition sep_ok (k : bytes) : Prop := bytes_ok k ∧ blen k ≤ KEY_CAP.
Lemma sep_record k : sep_ok k → 10 + blen k ≤ MAX_RECORD_LEN ∧ 16 + blen k ≤ MAX_RECORD_LEN.
Proof using. intros [_ Hk]. change KEY_CAP with 2018 in Hk. change MAX_RECORD_LEN with 4052. lia. Qed.
Definition interior_page p (no : Z) (nos : list Z) (ks : list bytes) : Prop :=
  match nos with
  | [] => False
  | h :: nos =>
      (∃ b, get p no = Ok b ∧ interior_at b tid no h (zip_with enc_interior ks nos)) ∧ length nos = length ks ∧
      Forall sep_ok ks ∧ Forall (λ no, is_u32 no) (h :: nos)
  end.

(** ** Spilled values *)
Record ov_page (b : bytes) (no next : Z) (chunk : bytes) : Prop := {
  ov_inv : page_inv b [];
  ov_kind : kind b = Some Overflow;
  ov_tree : tree_id b = 0;
  ov_no : page_no b = no;
  ov_next : rd_u32 b OV_NEXT = next;
  ov_used : rd_u16 b OV_USED = blen chunk;
  ov_cap : blen chunk ≤ OV_CAP;
  ov_data : slice b OV_DATA (blen chunk) = chunk;
}.
Fixpoint chain_at p (pages : list Z) (cs : list bytes) : Prop :=
  match pages, cs with
  | [], [] => True
  | no :: pages, c :: cs =>
      (∃ b, get p no = Ok b ∧ ov_page b no (match pages with n :: _ => n | [] => 0 end) c) ∧ chain_at p pages cs
  | _, _ => False
  end.
Definition within_limit p (len : Z) : Prop := match record_limit p with Some l => len ≤ l | None => True end.
Definition cell_ok p (c : cell) : Prop :=
  bytes_ok (c_rec c) ∧ sep_ok (c_key c) ∧
  ((leaf_shape (c_rec c) (c_key c) (c_val c) false ∧ c_chain c = []) ∨
   (∃ head, leaf_shape (c_rec c) (c_key c) (enc_marker (blen (c_val c)) head (crc32c (c_val c))) true ∧
      head :: tail (c_chain c) = c_chain c ∧ is_u32 head ∧
      blen (c_val c) ≤ u32_max ∧ within_limit p (blen (c_val c)) ∧ chain_at p (c_chain c) (chunks (c_val c)))).

(** ** Trees *)
Fixpoint holds p (t : tree) : Prop :=
  match t with
  | TLeaf no next cs => node_page p no Leaf next (c_rec <$> cs) ∧ Forall (cell_ok p) cs
  | TNode no cs ks =>
      interior_page p no (no_of <$> cs) ks ∧
      (fix go cs := match cs with [] => True | c :: cs => holds p c ∧ go cs end) cs
  end.
Definition holds_all p (cs : list tree) : Prop := Forall (holds p) cs.
Lemma holds_node p no cs ks : holds p (TNode no cs ks) ↔ interior_page p no (no_of <$> cs) ks ∧ holds_all p cs.
Proof using.
  cbn [holds]. assert (∀ l, (fix go cs := match cs with [] => True | c :: cs => holds p c ∧ go cs end) l ↔ holds_all p l) as Hgo.
  { unfold holds_all. induction l as [|c l IH]; [split; [constructor|done]|]. rewrite Forall_cons, IH. done. }
  by rewrite Hgo.
Qed.
(** A frame's page, with the page number of what fills the hole, and its other children. *)
Definition frame_holds p (f : frame) (h : Z) : Prop :=
  interior_page p (f_no f) ((no_of <$> (f_l f).*1) ++ h :: (no_of <$> (f_r f).*2)) ((f_l f).*2 ++ (f_r f).*1) ∧
  holds_all p (f_l f).*1 ∧ holds_all p (f_r f).*2.
Fixpoint holds_ctx p (ctx : list frame) (h : Z) : Prop :=
  match ctx with [] => True | f :: ctx => frame_holds p f h ∧ holds_ctx p ctx (f_no f) end.
Lemma holds_plug1 p f t : holds p (plug1 f t) ↔ frame_holds p f (no_of t) ∧ holds p t.
Proof using.
  unfold plug1. rewrite holds_node. unfold frame_holds, holds_all. rewrite fmap_app, fmap_cons, Forall_app, Forall_cons. naive_solver.
Qed.
Lemma holds_plug p ctx : ∀ t, holds p (plug ctx t) ↔ holds_ctx p ctx (no_of t) ∧ holds p t.
Proof using.
  induction ctx as [|f ctx IH]; intros t; cbn [plug holds_ctx]; [naive_solver|].
  rewrite IH, holds_plug1. cbn [plug1 no_of]. naive_solver.
Qed.

Definition owned_ok p (l : list Z) : Prop :=
  NoDup l ∧ Forall (λ no, 2 ≤ no < page_count p ∧ is_u32 no ∧ ¬ available p no) l.
(** The invariant of a handle whose tree is [t], with the pages [R] set aside for
    what is being built. *)
Record inv s (t : tree) (R : list Z) : Prop := {
  inv_pool : pool_ok (pool s);
  inv_tid : is_u16 tid;
  inv_holds : holds (pool s) t;
  inv_all : owned_ok (pool s) (owned t ++ R);
  inv_ord : ord None None t;
  inv_root : no_of t = root s;
}.
(** What the fast path may find behind a hint: a node of the tree, or a page that is
    published and so turned down. *)
Definition hint_ok p (t : tree) (h : Z) : Prop := is_frozen p h = true ∨ h ∈ node_nos t.
(** Between operations: only the last leaf has no right sibling. *)
Record tree_of s (t : tree) : Prop := {
  of_inv : inv s t [];
  of_links : links true t;
  of_hint : match last_leaf s with Some h => hint_ok (pool s) t h | None => True end;
}.

Lemma owned_ok_app p l1 l2 : owned_ok p (l1 ++ l2) → owned_ok p l1 ∧ owned_ok p l2.
Proof using.
  intros [(H1 & _ & H2)%NoDup_app [F1 F2]%Forall_app]. exact (conj (conj H1 F1) (conj H2 F2)).
Qed.
#[export] Instance owned_ok_perm p : Proper ((≡ₚ) ==> iff) (owned_ok p).
Proof using. intros l1 l2 Hl. unfold owned_ok. by rewrite Hl. Qed.
Lemma inv_owned s t R : inv s t R → owned_ok (pool s) (owned t).
Proof using. intros Hi. pose proof (inv_all _ _ _ Hi) as Ha. by apply owned_ok_app in Ha as [? _]. Qed.

(** ** Opening a page *)
Lemma bind_ok {A B} (m : M P A) (k : A → M P B) s s' a : m s = (s', Some (Ok a)) → bind m k s = k a s'.
Proof using. unfold bind. by intros ->. Qed.
Lemma open_cached_ok p no kd link recs s : pool s = p → node_page p no kd link recs →
  ∃ b, get p no = Ok b ∧ node_at b kd tid no link recs ∧ open_cached no s = (s, Some (Ok b)).
Proof using.
  intros Hp (b & Hg & Hn). exists b. split_and!; [done|done|]. unfold open_cached.
  erewrite bind_ok by (unfold get_page; rewrite Hp, Hg; done).
  erewrite bind_ok by (unfold lift; rewrite (node_open _ _ _ _ _ _ Hn); done). done.
Qed.

(** The keys and children an interior page shows. *)
Lemma enc_interior_ok k no : sep_ok k → is_u32 no → rec_ok Interior (enc_interior k no).
Proof using.
  intros Hk Hn. pose proof (sep_record k Hk) as [Hr _]. split; [|by exists k, no]. destruct Hk as [Hb _]. unfold enc_interior.
  rewrite !bytes_ok_app. split_and!; [apply le_bytes_ok|done|apply le_bytes_ok].
Qed.
Lemma enc_interior_read k no : sep_ok k → is_u32 no →
  validated_key (enc_interior k no) = Some k ∧ validated_child (enc_interior k no) = Some no.
Proof using.
  intros Hk Hn. destruct (enc_interior_ok k no Hk Hn) as [Hb _]. pose proof (sep_record k Hk) as [Hr _].
  apply (decoded_interior_helpers (enc_interior k no) 0 k no); [done| |by apply enc_interior_decode].
  unfold enc_interior. rewrite !blen_app, !blen_le_bytes. unfold MAX_RECORD_LEN, PAGE_SIZE, HEADER_LEN, SLOT_LEN in *. lia.
Qed.
Lemma enc_interior_parts k no : sep_ok k → is_u32 no →
  key_of (enc_interior k no) = k ∧ validated_child (enc_interior k no) = Some no.
Proof using. intros Hk Hn. destruct (enc_interior_read k no Hk Hn) as [E1 E2]. unfold key_of. by rewrite E1. Qed.
Lemma interior_keys nos ks : Forall sep_ok ks → Forall (λ no, is_u32 no) nos → length nos = length ks →
  Node.keys (zip_with enc_interior ks nos) = ks.
Proof using.
  intros Hk. revert nos. induction Hk as [|k ks Hk Hks IH]; intros [|no nos] Hn Hl; try done.
  apply Forall_cons in Hn as [Hn Hns]. cbn [zip_with]. unfold Node.keys in *. cbn [fmap list_fmap].
  rewrite (proj1 (enc_interior_parts k no Hk Hn)). f_equal. apply IH; [done|]. cbn in Hl. lia.
Qed.
Lemma interior_child p no nos ks b i x : interior_page p no nos ks → get p no = Ok b →
  nos !! i = Some x → 2 ≤ x < page_count p → child_at (page_count p) b (Z.of_nat i) = Some (Ok x).
Proof using.
  intros Hp Hg Hi Hx. destruct nos as [|h nos]; [done|]. destruct Hp as ((b' & Hg' & Hn%int_node) & Hl & Hk & Hu).
  rewrite Hg in Hg'. injection Hg' as <-. unfold child_at.
  assert ((if Z.of_nat i =? 0 then Some (child0 b) else rec ← slot b (Z.of_nat i - 1); validated_child rec) = Some x) as ->.
  { destruct i as [|i]; [change (Some h = Some x) in Hi|change (nos !! i = Some x) in Hi].
    - injection Hi as ->. cbn. by rewrite <-(node_link _ _ _ _ _ _ Hn).
    - rewrite (proj2 (Z.eqb_neq _ _)) by lia. replace (Z.of_nat (S i) - 1) with (Z.of_nat i) by lia.
      destruct (lookup_lt_is_Some_2 ks i) as [k Hki]; [apply lookup_lt_Some in Hi; lia|].
      rewrite (node_slot _ _ _ _ _ _ Hn i (enc_interior k x)).
      + cbn [mbind option_bind]. apply enc_interior_parts.
        * by eapply (Forall_lookup_1 _ _ _ _ Hk).
        * apply Forall_cons in Hu as [_ Hu]. by eapply (Forall_lookup_1 _ _ _ _ Hu).
      + by rewrite lookup_zip_with, Hki, Hi. }
  cbn [mbind option_bind]. rewrite (proj2 (Z.eqb_neq x 0)), (proj2 (Z.leb_gt _ _)) by lia. done.
Qed.
End rep.
End TreeRep.
