(* ===== verification/TreeRead.v ===== *)
(** * Reading a tree

    Under the invariant of [TreeRep.v] every open succeeds, a descent follows the
    order, a lookup is a lookup in the sorted list of cells, and a scan visits them
    in order. *)
From S2P Require Import Prelude Crc Page Cells Order Node Interior Pool Tree BTree TreeRep.
Import Page Cells Order Node Interior Tree BTree TreeRep.

Module TreeRead.

Section read.
Context `{HC : Crc32c} `{HL : !Crc32cLaws} {P : Type} `{HP : PagePool P} `{HPL : !PagePoolLaws P}.
Context {tid : TreeId}.
Implicit Types (p : P) (s : BTree P) (t : tree).

(** ** Descending *)
Lemma no_in_owned t : no_of t ∈ owned t.
Proof using. destruct t; left. Qed.
Definition in_range p (l : list Z) : Prop := Forall (λ no, 2 ≤ no < page_count p) l.
Lemma owned_range p l : owned_ok p l → in_range p l.
Proof using. intros [_ Hl]. eapply Forall_impl; [exact Hl|]. cbn. tauto. Qed.
Lemma range_plug1 p f t : in_range p (owned (plug1 f t)) → in_range p (owned t).
Proof using.
  intros Hr. pose proof (owned_plug [f] t) as Hp. cbn [plug] in Hp. unfold in_range in *. rewrite Hp in Hr.
  by apply Forall_app in Hr as [_ Hr].
Qed.
Definition path_of (ctx : list frame) : list (Z * Z) := (λ f, (f_no f, Z.of_nat (length (f_l f)))) <$> ctx.

Lemma interior_view p no nos ks : interior_page p no nos ks →
  ∃ h ns b, nos = h :: ns ∧ get p no = Ok b ∧ node_at b Interior tid no h (zip_with enc_interior ks ns) ∧
    Node.keys (zip_with enc_interior ks ns) = ks ∧ length ns = length ks.
Proof using.
  destruct nos as [|h ns]; [done|]. intros ((b & Hg & Hn%int_node) & Hl & Hk & Hu). exists h, ns, b. split_and!; try done.
  apply Forall_cons in Hu as [_ Hu]. by apply interior_keys.
Qed.
Lemma upper_position b no h recs ks i key : node_at b Interior tid no h recs → Node.keys recs = ks → sorted ks →
  cuts (λ k, negb (bytes_ltb key k)) ks i → upper_bound b key = Some (Z.of_nat i).
Proof using.
  intros Hn Hk Hs Hc. subst ks. destruct (upper_bound_ok _ _ _ _ _ _ Hn key Hs) as (j & -> & Hj).
  by rewrite (cuts_unique _ _ _ _ Hj Hc).
Qed.
Lemma frame_step p f h lo hi key s :
  pool s = p → frame_holds p f h → ord_frame lo hi f → within (end_l lo (f_l f)) (start_r hi (f_r f)) key →
  2 ≤ h < page_count p →
  ∃ b, open_cached (f_no f) s = (s, Some (Ok b)) ∧ tree_id b = tid ∧ kind b = Some Interior ∧
    upper_bound b key = Some (Z.of_nat (length (f_l f))) ∧
    child_at (page_count p) b (Z.of_nat (length (f_l f))) = Some (Ok h).
Proof using.
  intros Hp (Hpage & _) Ho Hk Hh. destruct (interior_view _ _ _ _ Hpage) as (h0 & ns & b & E & Hg & Hn & Hks & Hl).
  destruct (open_cached_ok p (f_no f) Interior h0 (zip_with enc_interior ((f_l f).*2 ++ (f_r f).*1) ns) s Hp) as (b' & Hg' & _ & Hop); [by exists b|].
  rewrite Hg in Hg'. injection Hg' as <-. exists b. split_and!; [done|apply Hn|apply Hn| |].
  - eapply upper_position; [done|exact Hks|by eapply frame_sorted|by eapply hole_position].
  - eapply interior_child; [exact Hpage|done| |done].
    rewrite lookup_app_r, !length_fmap, Nat.sub_diag by (rewrite !length_fmap; lia). done.
Qed.

Lemma descend_ok key s ctx : ∀ fuel lo hi l path,
  is_leaf l → holds (pool s) (plug ctx l) → ord lo hi (plug ctx l) → in_range (pool s) (owned (plug ctx l)) →
  within (lo_of lo ctx) (hi_of hi ctx) key → (length ctx < fuel)%nat →
  ∃ b, get (pool s) (no_of l) = Ok b ∧
    descend_loop tid fuel key (no_of (plug ctx l)) path s = (s, Some (Ok (no_of l, b, path_of ctx ++ path))).
Proof using.
  induction ctx as [|f ctx IH] using rev_ind; intros fuel lo hi l path Hlf Hh Ho Hr Hk Hf.
  - destruct l as [no next cs|]; [|done]. destruct Hh as [Hpage _]. destruct fuel; [cbn in Hf; lia|].
    destruct (open_cached_ok (pool s) no Leaf next (c_rec <$> cs) s eq_refl Hpage) as (b & Hg & Hn & Hop).
    exists b. split; [done|]. cbn [plug no_of descend_loop]. erewrite bind_ok by exact Hop.
    rewrite (node_tree _ _ _ _ _ _ Hn), Z.eqb_refl, bool_decide_true by apply Hn. done.
  - rewrite plug_app in Hh, Ho, Hr |- *. cbn [plug] in Hh, Ho, Hr |- *. rewrite lo_of_app, hi_of_app in Hk.
    apply holds_plug1 in Hh as [Hf1 Hh]. apply ord_plug1 in Ho as [Hof Ho]. apply range_plug1 in Hr as Hr'.
    pose proof (proj1 (ord_plug _ _ _ _) Ho) as [Hoc _].
    destruct (hole_bounds _ _ _ _ Hoc Hk) as (_ & _ & Hkf).
    destruct fuel; [cbn in Hf; lia|]. rewrite length_app in Hf. cbn [length] in Hf.
    assert (2 ≤ no_of (plug ctx l) < page_count (pool s)) as Hno.
    { unfold in_range in Hr'. rewrite Forall_forall in Hr'. apply Hr', no_in_owned. }
    destruct (frame_step (pool s) f _ lo hi key s eq_refl Hf1 Hof Hkf Hno) as (b & Hop & Ht & Hkd & Hub & Hch).
    cbn [descend_loop no_of plug1]. erewrite bind_ok by exact Hop. rewrite Ht, Z.eqb_refl.
    rewrite bool_decide_false by (rewrite Hkd; done). cbn [negb].
    erewrite bind_ok by (unfold sure; rewrite Hub; done). erewrite bind_ok by done.
    erewrite bind_ok by (unfold lift; rewrite Hch; done).
    destruct (IH fuel _ _ l ((f_no f, Z.of_nat (length (f_l f))) :: path) Hlf Hh Ho Hr' Hk ltac:(lia)) as (b' & Hg & Hd).
    exists b'. split; [done|]. rewrite Hd. unfold path_of. rewrite fmap_app, <-app_assoc. done.
Qed.

(** ** Chains of overflow pages *)
(** [cs] cuts [v] into full pages and a last one that is not empty unless [v] is. *)
Fixpoint chunked (v : bytes) (cs : list bytes) : Prop :=
  match cs with
  | [] => False
  | c :: cs =>
      blen c = Z.min (blen v) OV_CAP ∧
      ∃ w, v = c ++ w ∧ match cs with [] => w = [] | _ => w ≠ [] ∧ chunked w cs end
  end.
Lemma chunks_of_chunked fuel : ∀ v, v ≠ [] → (length v ≤ fuel)%nat → chunked v (chunks_of fuel v).
Proof using.
  induction fuel as [|fuel IH]; intros v Hv Hf; [destruct v; [done|cbn in Hf; lia]|]. cbn [chunks_of].
  destruct v as [|x v]; [done|]. set (u := x :: v) in *. cbn [chunked].
  assert (blen (take (Z.to_nat OV_CAP) u) = Z.min (blen u) OV_CAP) as Hb.
  { unfold blen. rewrite length_take. unfold OV_CAP, OV_DATA, OV_USED, OV_NEXT, PAGE_SIZE, HEADER_LEN. lia. }
  split; [exact Hb|]. exists (drop (Z.to_nat OV_CAP) u). split; [by rewrite take_drop|].
  destruct (drop (Z.to_nat OV_CAP) u) as [|y w] eqn:E.
  - destruct fuel; done.
  - assert (chunked (y :: w) (chunks_of fuel (y :: w))) as Hc.
    { apply IH; [done|]. apply (f_equal length) in E. rewrite length_drop in E. unfold u in *. cbn in E, Hf |- *.
      unfold OV_CAP, OV_DATA, OV_USED, OV_NEXT, PAGE_SIZE, HEADER_LEN in E. lia. }
    destruct (chunks_of fuel (y :: w)); [done|]. by split.
Qed.
Lemma chunks_chunked v : chunked v (chunks v).
Proof using.
  unfold chunks. destruct v as [|x v].
  - cbn. split; [done|]. by exists [].
  - pose proof (chunks_of_chunked (length (x :: v)) (x :: v) ltac:(done) (le_n _)) as Hc.
    by destruct (chunks_of _ _).
Qed.
Lemma chunked_concat cs : ∀ v, chunked v cs → concat cs = v.
Proof using.
  induction cs as [|c cs IH]; intros v; [done|]. intros (_ & w & -> & Hw). cbn [concat]. f_equal.
  destruct cs; [by subst|]. apply IH, Hw.
Qed.
Lemma chunked_pages cs : ∀ v, chunked v cs → Z.of_nat (length cs) = n_pages (blen v).
Proof using.
  unfold n_pages. change OV_CAP with 4050. induction cs as [|c cs IH]; intros v; [done|]. intros (Hc & w & -> & Hw).
  change OV_CAP with 4050 in Hc. rewrite blen_app in *. pose proof (blen_nonneg w). pose proof (blen_nonneg c). destruct cs as [|c2 cs].
  - subst w. rewrite blen_nil in *. cbn [length].
    destruct (decide (blen c = 0)) as [->|]; [done|].
    replace ((blen c + 0 + 4050 - 1) / 4050) with 1; [done|].
    apply Z.div_unique with (blen c - 1); lia.
  - destruct Hw as [Hw0 Hw]. specialize (IH w Hw). cbn [length] in *.
    assert (0 < blen w) by (destruct w; [done|rewrite blen_cons; pose proof (blen_nonneg w); lia]).
    assert (blen c = 4050) as -> by lia.
    replace (4050 + blen w + 4050 - 1) with (blen w + 4050 - 1 + 1 * 4050) by lia. rewrite Z.div_add by lia.
    assert (1 ≤ (blen w + 4050 - 1) / 4050) by (apply Z.div_le_lower_bound; lia). lia.
Qed.
Lemma chain_lengths p pages cs : chain_at p pages cs → length pages = length cs.
Proof using. revert cs. induction pages as [|no pages IH]; intros [|c cs]; try done. intros [_ Hc]. cbn. f_equal. by apply IH. Qed.

Lemma ov_open b no next c : ov_page b no next c → open_resident b no = Ok b.
Proof using. intros Hb. unfold open_resident. rewrite <-(ov_no _ _ _ _ Hb). apply (open_inv b []); [apply Hb|done]. Qed.
Lemma ov_get b no next c : ov_page b no next c → get_at b OV_DATA (blen c) = Some c.
Proof using.
  intros Hb. pose proof (ov_cap _ _ _ _ Hb). pose proof (blen_nonneg c).
  pose proof (rep_len _ _ (inv_rep _ _ (ov_inv _ _ _ _ Hb))) as Hl.
  rewrite get_at_ok; [by rewrite (ov_data _ _ _ _ Hb)|done|done|].
  rewrite Hl. unfold OV_CAP, OV_DATA, OV_USED, OV_NEXT, PAGE_SIZE, HEADER_LEN in *. lia.
Qed.

(** The walk gathers the chunks. *)
Lemma chain_loop_ok total cap cs : ∀ fuel pages hops out s,
  chain_at (pool s) pages cs → Forall (λ no, no ≠ 0) pages →
  blen out + blen (concat cs) ≤ total → hops + Z.of_nat (length pages) ≤ cap → (length pages < fuel)%nat →
  chain_loop fuel total cap (match pages with n :: _ => n | [] => 0 end) hops out s = (s, Some (Ok (out ++ concat cs))).
Proof using.
  induction cs as [|c cs IH]; intros fuel pages hops out s Hc H0 Ht Hh Hf.
  - destruct pages; [|done]. destruct fuel; cbn; by rewrite app_nil_r.
  - destruct pages as [|no pages]; [done|]. destruct Hc as [(b & Hg & Hb) Hc]. apply Forall_cons in H0 as [H0 H0s].
    destruct fuel as [|fuel]; [cbn in Hf; lia|]. cbn [chain_loop length concat] in *.
    rewrite (proj2 (Z.eqb_neq _ _)), (proj2 (Z.ltb_ge cap _)) by lia.
    erewrite bind_ok by (unfold get_page; rewrite Hg; done).
    erewrite bind_ok by (unfold lift; rewrite (ov_open _ _ _ _ Hb); done).
    rewrite bool_decide_true by apply Hb. cbn [negb]. cbv zeta.
    rewrite (ov_used _ _ _ _ Hb), (ov_next _ _ _ _ Hb). pose proof (ov_cap _ _ _ _ Hb).
    rewrite blen_app in Ht. pose proof (blen_nonneg (concat cs)).
    rewrite (proj2 (Z.ltb_ge OV_CAP _)), (proj2 (Z.ltb_ge total _)) by lia. cbn [orb].
    erewrite bind_ok by (unfold sure; rewrite (ov_get _ _ _ _ Hb); done).
    rewrite IH; [by rewrite app_assoc|done|done|rewrite blen_app; lia|lia|lia].
Qed.
(** What the run in one piece answers is the chunks too. *)
Lemma run_pages_ok p buf head total n cs : ∀ (i : Z) pages is_ out r,
  (∀ j, 0 ≤ j < n → get p (head + j) = Ok (slice buf (j * PAGE_SIZE) PAGE_SIZE)) →
  chain_at p pages cs → pages ≠ [] → hd 0 pages = head + i → 0 ≤ i → i + Z.of_nat (length pages) = n →
  is_ = seqZ i (Z.of_nat (length pages)) →
  run_pages buf head total n is_ out = Some r → r = out ++ concat cs.
Proof using.
  induction cs as [|c cs IH]; intros i pages is_ out r Hbuf Hc Hne Hhd Hi Hlen -> Hr; [by destruct pages|].
  destruct pages as [|no pages]; [done|]. destruct Hc as [(b & Hg & Hb) Hc]. cbn [length] in *.
  rewrite seqZ_cons in Hr by lia. cbn [run_pages] in Hr. cbv zeta in Hr. cbn [hd] in Hhd. subst no.
  rewrite (Hbuf i) in Hg by lia. injection Hg as Hg. rewrite Hg in Hr.
  rewrite (ov_open _ _ _ _ Hb) in Hr. cbn [is_ok negb] in Hr.
  rewrite bool_decide_true in Hr by apply Hb. cbn [negb] in Hr.
  rewrite (ov_next _ _ _ _ Hb), (ov_used _ _ _ _ Hb), (ov_data _ _ _ _ Hb) in Hr.
  destruct (Z.eqb_spec (match pages with n :: _ => n | [] => 0 end) (if i + 1 <? n then head + i + 1 else 0)) as [En|]; [|done].
  cbn [negb] in Hr. destruct (_ || _); [done|]. cbn [concat].
  destruct pages as [|no2 pages].
  - destruct cs as [|]; [|done]. replace (Z.pred (Z.of_nat 1)) with 0 in Hr by lia. cbn in Hr. injection Hr as <-. by rewrite app_nil_r.
  - rewrite (proj2 (Z.ltb_lt _ _)) in En by (cbn in Hlen; lia).
    replace (Z.succ i) with (i + 1) in Hr by lia. replace (Z.pred (Z.of_nat (S (length (no2 :: pages))))) with (Z.of_nat (length (no2 :: pages))) in Hr by lia.
    specialize (IH (i + 1) (no2 :: pages) _ (out ++ c) r Hbuf Hc ltac:(done) ltac:(cbn; lia) ltac:(lia) ltac:(lia) eq_refl Hr).
    by rewrite IH, app_assoc.
Qed.

(** Distinct pages of the file are at most as many as its pages. *)
Lemma distinct_pages p l : NoDup l → in_range p l → Z.of_nat (length l) + 2 ≤ Z.max 2 (page_count p).
Proof using.
  intros Hnd Hr. assert (l ⊆+ seqZ 2 (page_count p - 2)) as Hs%submseteq_length.
  { apply NoDup_submseteq; [done|]. intros x Hx. apply elem_of_seqZ.
    unfold in_range in Hr. rewrite Forall_forall in Hr. specialize (Hr x Hx). lia. }
  rewrite length_seqZ in Hs. lia.
Qed.
Lemma over_limit_ok s len : within_limit (pool s) len → over_limit len s = (s, Some (Ok false)).
Proof using.
  unfold over_limit, ask, within_limit. intros Hw. destruct (record_limit (pool s)); [|done].
  by rewrite (proj2 (Z.ltb_ge _ _)).
Qed.
Lemma read_overflow_ok s v chain head :
  head :: tail chain = chain → is_u32 head → blen v ≤ u32_max → within_limit (pool s) (blen v) →
  chain_at (pool s) chain (chunks v) → NoDup chain → in_range (pool s) chain →
  read_overflow (enc_marker (blen v) head (crc32c v)) s = (s, Some (Ok v)).
Proof using HL HPL.
  intros Hhd Hu Hv Hw Hc Hnd Hr. pose proof (blen_nonneg v).
  destruct (marker_fields (blen v) head (crc32c v)) as (Hl & E0 & E4 & E8); [width|done|pose proof (crc32c_range v); width|].
  pose proof (chunked_concat _ _ (chunks_chunked v)) as Hcat. pose proof (chunked_pages _ _ (chunks_chunked v)) as Hlen.
  pose proof (chain_lengths _ _ _ Hc) as Hcl. unfold read_overflow. rewrite Hl, E0, E4, E8. cbn [Z.eqb Pos.eqb negb]. cbv zeta.
  erewrite bind_ok by (by apply over_limit_ok). cbn iota.
  assert (∀ fast, (fast = None ∨ fast = Some v) →
    match fast with Some out => ret out | None =>
      let+ cap := ask (λ s, page_count (pool s)) in
      let+ out := chain_loop (S (Z.to_nat cap)) (blen v) cap head 0 [] in
      if negb (blen out =? blen v) || negb (crc32c out =? crc32c v)
      then fail (Corrupt 0 "overflow value fails its checksum") else ret out end s = (s, Some (Ok v))) as Hgo.
  { intros fast [->| ->]; [|done]. erewrite bind_ok by done. pose proof (distinct_pages _ _ Hnd Hr).
    assert (0 < page_count (pool s)).
    { rewrite <-Hhd in Hr. apply Forall_cons in Hr as [Hr _]. lia. }
    assert (head = match chain with n :: _ => n | [] => 0 end) as Eh by by rewrite <-Hhd.
    erewrite bind_ok.
    2: { rewrite Eh. apply (chain_loop_ok (blen v) (page_count (pool s)) (chunks v)); [done| |by rewrite Hcat|lia|lia].
         eapply Forall_impl; [exact Hr|]. cbn. lia. }
    cbn [app]. rewrite Hcat, !Z.eqb_refl. done. }
  unfold bind at 1. unfold ask at 1. apply Hgo.
  destruct (n_pages (blen v) <=? u32_max); [|by left].
  destruct (read_run (pool s) head (n_pages (blen v))) as [buf|] eqn:Hrun; [|by left]. cbn [mbind option_bind].
  destruct (run_pages _ _ _ _ _ _) as [out|] eqn:Hout; [|by left]. cbn [mbind option_bind].
  destruct (_ && _); [|by left]. right. f_equal.
  apply read_run_get in Hrun as [_ Hbuf]; [|unfold n_pages; lia].
  rewrite <-Hcat. change (concat (chunks v)) with ([] ++ concat (chunks v)).
  eapply (run_pages_ok (pool s) buf head (blen v) (n_pages (blen v)) (chunks v) 0 chain); [exact Hbuf|done|by rewrite <-Hhd| |done| |reflexivity|].
  - rewrite <-Hhd. cbn. lia.
  - lia.
  - rewrite <-Hout. unfold indices. by rewrite Hcl, Hlen.
Qed.

(** ** Lookup *)
Definition entries (l : list cell) : list (bytes * bytes) := (λ c, (c_key c, c_val c)) <$> l.
Fixpoint assoc (key : bytes) (l : list (bytes * bytes)) : option bytes :=
  match l with [] => None | (k, v) :: l => if bool_decide (k = key) then Some v else assoc key l end.
Lemma assoc_app key l1 l2 : assoc key (l1 ++ l2) = match assoc key l1 with Some v => Some v | None => assoc key l2 end.
Proof using. induction l1 as [|[k v] l1 IH]; [done|]. cbn [app assoc]. by case_bool_decide. Qed.
Lemma assoc_none key l : Forall (λ c, c_key c ≠ key) l → assoc key (entries l) = None.
Proof using. induction 1 as [|c l Hc Hl IH]; [done|]. cbn. by rewrite bool_decide_false. Qed.
Lemma entries_app l1 l2 : entries (l1 ++ l2) = entries l1 ++ entries l2.
Proof using. apply fmap_app. Qed.
(** Cut a sorted list of cells at a key. *)
Lemma cut_cells key cs (i : nat) : sorted (c_key <$> cs) → cuts (λ k, bytes_ltb k key) (c_key <$> cs) i →
  Forall (λ c, c_key c ≺ key) (take i cs) ∧
  match cs !! i with
  | Some c => key ≼ c_key c ∧ Forall (λ d, c_key c ≺ c_key d) (drop (S i) cs)
  | None => drop i cs = []
  end.
Proof using.
  intros Hs (Hi & Ht & Hd). rewrite length_fmap in Hi. rewrite <-fmap_take, Forall_fmap in Ht. split.
  - eapply Forall_impl; [exact Ht|]. intros c Hc. by apply ltb_lt.
  - destruct (cs !! i) as [c|] eqn:E; [|by apply drop_ge, lookup_ge_None].
    rewrite <-fmap_drop, (drop_S _ _ _ E) in Hd. apply Forall_cons in Hd as [Hc _]. apply ltb_ge in Hc. split; [done|].
    rewrite <-(take_drop_middle _ _ _ E), fmap_app, fmap_cons in Hs. apply sorted_app in Hs as (_ & Hs & _).
    apply StronglySorted_inv in Hs as [_ Hs]. by rewrite Forall_fmap in Hs.
Qed.
Lemma assoc_cut key cs (i : nat) : sorted (c_key <$> cs) → cuts (λ k, bytes_ltb k key) (c_key <$> cs) i →
  assoc key (entries cs) = match cs !! i with Some c => if bool_decide (c_key c = key) then Some (c_val c) else None | None => None end.
Proof using.
  intros Hs Hc. destruct (cut_cells key cs i Hs Hc) as [Ht Hi].
  assert (assoc key (entries (take i cs)) = None) as Hn.
  { apply assoc_none. eapply Forall_impl; [exact Ht|]. cbn. intros c Hlt Heq. rewrite Heq in Hlt. order. }
  rewrite <-(take_drop i cs) at 1. unfold entries in *. rewrite fmap_app, assoc_app, Hn.
  destruct (cs !! i) as [c|] eqn:E; [|by rewrite Hi]. rewrite (drop_S _ _ _ E). csimpl. cbn [assoc].
  case_bool_decide; [done|]. destruct Hi as [Hk Hd]. apply assoc_none.
  eapply Forall_impl; [exact Hd|]. cbn. intros d Hlt Heq. rewrite Heq in Hlt. order.
Qed.

(** What the helpers read of a cell's record. *)
Definition cell_value (c : cell) : bytes * bool :=
  match c_chain c with
  | [] => (c_val c, false)
  | head :: _ => (enc_marker (blen (c_val c)) head (crc32c (c_val c)), true)
  end.
Lemma cell_shape p c : cell_ok p c → leaf_shape (c_rec c) (c_key c) (cell_value c).1 (cell_value c).2.
Proof using.
  intros (_ & _ & [[Hs Hc]|(head & Hs & Hc & _)]); unfold cell_value.
  - by rewrite Hc.
  - by rewrite <-Hc.
Qed.
Lemma cell_helpers p c : cell_ok p c →
  key_of (c_rec c) = c_key c ∧ validated_leaf (c_rec c) = Some (c_key c, (cell_value c).1, (cell_value c).2).
Proof using.
  intros Hc. apply cell_shape in Hc. destruct (shape_helpers _ _ _ _ Hc) as [E1 E2]. split; [|done].
  unfold key_of. by rewrite E1.
Qed.
Lemma cells_keys p cs : Forall (cell_ok p) cs → Node.keys (c_rec <$> cs) = c_key <$> cs.
Proof using.
  induction 1 as [|c cs Hc Hcs IH]; [done|]. unfold Node.keys in *. csimpl. rewrite IH. f_equal. by eapply cell_helpers.
Qed.
Lemma cell_rec_ok p c : cell_ok p c → rec_ok Leaf (c_rec c).
Proof using. intros Hc. split; [apply Hc|]. eexists _, _, _. by eapply cell_shape. Qed.
(** Reading the value of a cell. *)
Lemma read_cell s c : cell_ok (pool s) c → NoDup (c_chain c) → in_range (pool s) (c_chain c) →
  (if (cell_value c).2 then read_overflow (cell_value c).1 else ret (cell_value c).1) s = (s, Some (Ok (c_val c))).
Proof using HL HPL.
  intros (_ & _ & [[Hs Hc]|(head & Hs & Hc & Hu & Hl & Hw & Hch)]) Hnd Hr; unfold cell_value.
  - by rewrite Hc.
  - rewrite <-Hc. cbn [fst snd]. by eapply read_overflow_ok.
Qed.

Lemma node_validated b kd no link recs : node_at b kd tid no link recs → open_resident_validated b no = Ok b.
Proof using.
  intros [[Hrep Hm Hv Hfo [kd' Hki]] _ _ Hno _ _]. unfold open_resident_validated. unfold page_no in Hno.
  rewrite (rep_len _ _ Hrep), Hm, Hv, Hfo, Hno, Hki, !Z.eqb_refl. by rewrite bool_decide_false.
Qed.
Lemma lower_position b no next cs key p : node_at b Leaf tid no next (c_rec <$> cs) → Forall (cell_ok p) cs →
  sorted (c_key <$> cs) →
  ∃ i, lower_bound b key = Some (Z.of_nat i) ∧ cuts (λ k, bytes_ltb k key) (c_key <$> cs) i ∧ nentries b = Z.of_nat (length cs).
Proof using.
  intros Hn Hc Hs. rewrite <-(cells_keys _ _ Hc) in Hs |- *.
  destruct (lower_bound_ok _ _ _ _ _ _ Hn key Hs) as (i & Hi & Hcut). exists i. split_and!; [done|done|].
  by rewrite (node_count _ _ _ _ _ _ Hn), length_fmap.
Qed.

(** What reading relies on: the part of the invariant that a handle on an old root
    keeps while another one writes. *)
Record view s (t : tree) : Prop := {
  view_holds : holds (pool s) t;
  view_nodup : NoDup (owned t);
  view_range : in_range (pool s) (owned t);
  view_ord : ord None None t;
  view_root : no_of t = root s;
}.
Lemma inv_view s t R : inv s t R → view s t.
Proof using.
  intros Hi. pose proof (inv_owned _ _ _ Hi) as Ho. split; [apply Hi|apply Ho|by apply owned_range|apply Hi|apply Hi].
Qed.
Lemma path_fuel s ctx l : view s (plug ctx l) → (length ctx < Z.to_nat (page_count (pool s)))%nat.
Proof using.
  intros Hi. pose proof (view_nodup _ _ Hi) as Hnd. pose proof (view_range _ _ Hi) as Hr.
  pose proof (distinct_pages _ _ Hnd Hr) as Hd. rewrite (Permutation_length (owned_plug ctx l)), length_app in Hd.
  assert (length ctx ≤ length (owned_ctx ctx))%nat.
  { unfold owned_ctx. clear. induction ctx as [|f ctx IH]; [done|]. cbn. rewrite length_app. lia. }
  pose proof (no_in_owned l) as Hl. destruct (owned l); [by apply not_elem_of_nil in Hl|]. cbn [length] in *. lia.
Qed.

(** The leaf of a key, and the descent to it. *)
Lemma descend_to_leaf s t key : view s t → ∃ ctx no next cs b,
  t = plug ctx (TLeaf no next cs) ∧ within (lo_of None ctx) (hi_of None ctx) key ∧
  ord_ctx None None ctx ∧ sorted (c_key <$> cs) ∧ Forall (cell_ok (pool s)) cs ∧
  get (pool s) no = Ok b ∧ node_at b Leaf tid no next (c_rec <$> cs) ∧
  ∀ path, descend_loop tid (Z.to_nat (page_count (pool s))) key (root s) path s = (s, Some (Ok (no, b, path_of ctx ++ path))).
Proof using.
  intros Hi. destruct (find_leaf t None None key (view_ord _ _ Hi)) as (ctx & l & -> & Hl & Hw); [done|].
  destruct l as [no next cs|]; [|done].
  pose proof (proj1 (ord_plug _ _ _ _) (view_ord _ _ Hi)) as [Hoc [Hs _]].
  pose proof (proj1 (holds_plug _ _ _) (view_holds _ _ Hi)) as [_ [(b & Hg & Hn) Hcs]].
  exists ctx, no, next, cs, b. split_and!; try done.
  intros path. rewrite <-(view_root _ _ Hi).
  destruct (descend_ok key s ctx (Z.to_nat (page_count (pool s))) None None (TLeaf no next cs) path Hl
    (view_holds _ _ Hi) (view_ord _ _ Hi) (view_range _ _ Hi) Hw (path_fuel _ _ _ Hi)) as (b' & Hg' & Hd).
  cbn [no_of] in *. rewrite Hd. rewrite Hg in Hg'. by injection Hg' as <-.
Qed.
Lemma assoc_leaf ctx no next cs key : ord_ctx None None ctx → within (lo_of None ctx) (hi_of None ctx) key →
  assoc key (entries (cells (plug ctx (TLeaf no next cs)))) = assoc key (entries cs).
Proof using.
  intros Ho Hw. destruct (hole_bounds _ _ _ _ Ho Hw) as (Hb & Ha & _).
  rewrite cells_plug, !entries_app, !assoc_app. cbn [cells].
  rewrite (assoc_none key (before ctx)).
  2: { eapply Forall_impl; [exact Hb|]. cbn. intros c Hlt Heq. rewrite Heq in Hlt. order. }
  rewrite (assoc_none key (after ctx)); [by destruct (assoc _ _)|].
  eapply Forall_impl; [exact Ha|]. cbn. intros c Hlt Heq. rewrite Heq in Hlt. order.
Qed.
Lemma owned_cell ctx no next cs i c p : NoDup (owned (plug ctx (TLeaf no next cs))) → in_range p (owned (plug ctx (TLeaf no next cs))) →
  cs !! i = Some c → NoDup (c_chain c) ∧ in_range p (c_chain c).
Proof using.
  intros Hnd Hf Hi. unfold in_range in *. rewrite owned_plug in Hnd. rewrite owned_plug in Hf. cbn [owned] in *.
  apply NoDup_app in Hnd as (_ & _ & Hnd). apply Forall_app in Hf as [_ Hf].
  apply NoDup_cons in Hnd as [_ Hnd]. apply Forall_cons in Hf as [_ Hf].
  rewrite <-(take_drop_middle _ _ _ Hi), flat_map_app in Hnd, Hf. cbn [flat_map] in Hnd, Hf.
  apply NoDup_app in Hnd as (_ & _ & Hnd). apply NoDup_app in Hnd as (Hnd & _ & _).
  apply Forall_app in Hf as [_ Hf]. apply Forall_app in Hf as [Hf _]. done.
Qed.

Lemma levels_ok s : levels s = (s, Some (Ok (Z.to_nat (page_count (pool s))))).
Proof using. done. Qed.
Lemma descend_path_ok key s no b path :
  descend_loop tid (Z.to_nat (page_count (pool s))) key (root s) [] s = (s, Some (Ok (no, b, path))) →
  descend tid key s = (s, Some (Ok (no, path.*1))).
Proof using.
  intros Hd. assert (descend_with_path tid key s = (s, Some (Ok (no, path)))) as Hw.
  { unfold descend_with_path. erewrite bind_ok by reflexivity. erewrite bind_ok by apply levels_ok.
    by erewrite bind_ok by exact Hd. }
  unfold descend. by rewrite (bind_ok _ _ _ _ _ Hw).
Qed.

Lemma btree_get_ok s t key : view s t → btree_get tid key s = (s, Some (Ok (assoc key (entries (cells t))))).
Proof using HL HPL.
  intros Hi. destruct (descend_to_leaf s t key Hi) as (ctx & no & next & cs & b & -> & Hw & Ho & Hs & Hcs & Hg & Hn & Hd).
  rewrite assoc_leaf by done. unfold btree_get. erewrite bind_ok by (apply (descend_path_ok key s no b), Hd).
  destruct (open_cached_ok (pool s) no Leaf next (c_rec <$> cs) s eq_refl) as (b' & Hg' & _ & Hop); [by exists b|].
  rewrite Hg in Hg'. injection Hg' as <-. erewrite bind_ok by exact Hop.
  destruct (lower_position b no next cs key (pool s) Hn Hcs Hs) as (i & Hlb & Hcut & Hne).
  erewrite bind_ok by (unfold sure; rewrite Hlb; done). rewrite Hne, (assoc_cut key cs i Hs Hcut).
  destruct (cs !! i) as [c|] eqn:Ec.
  - pose proof (lookup_lt_Some _ _ _ Ec). rewrite (proj2 (Z.ltb_lt _ _)) by lia.
    erewrite bind_ok by (unfold sure; rewrite (node_slot _ _ _ _ _ _ Hn i (c_rec c)) by (by rewrite list_lookup_fmap, Ec); done).
    pose proof (Forall_lookup_1 _ _ _ _ Hcs Ec) as Hc. destruct (cell_helpers _ _ Hc) as [_ Hv].
    erewrite bind_ok by (unfold sure; rewrite Hv; done).
    destruct (decide (c_key c = key)) as [E|E].
    + rewrite !(bool_decide_true (c_key c = key)) by done. cbn [negb].
      destruct (owned_cell _ _ _ _ _ _ _ (view_nodup _ _ Hi) (view_range _ _ Hi) Ec) as [Hnd Hr].
      pose proof (read_cell s c Hc Hnd Hr) as Hrd. destruct (cell_value c) as [v [|]]; cbn [fst snd] in *.
      * by erewrite bind_ok by exact Hrd.
      * by injection Hrd as ->.
    + by rewrite !bool_decide_false.
  - apply lookup_ge_None in Ec. by rewrite (proj2 (Z.ltb_ge _ _)) by lia.
Qed.

(** ** Scanning *)
(** Opening the page of a frame, and stepping to one of its children. *)
Lemma frame_open s f h : frame_holds (pool s) f h → ∃ b,
  open_cached (f_no f) s = (s, Some (Ok b)) ∧ tree_id b = tid ∧ kind b = Some Interior ∧
  nentries b = Z.of_nat (length (f_l f) + length (f_r f)) ∧
  ∀ i x, ((no_of <$> (f_l f).*1) ++ h :: (no_of <$> (f_r f).*2)) !! i = Some x → 2 ≤ x < page_count (pool s) →
    child_at (page_count (pool s)) b (Z.of_nat i) = Some (Ok x).
Proof using.
  intros (Hpage & _). destruct (interior_view _ _ _ _ Hpage) as (h0 & ns & b & E & Hg & Hn & Hks & Hl).
  destruct (open_cached_ok (pool s) (f_no f) Interior h0 (zip_with enc_interior ((f_l f).*2 ++ (f_r f).*1) ns) s eq_refl) as (b' & Hg' & _ & Hop); [by exists b|].
  rewrite Hg in Hg'. injection Hg' as <-. exists b. split_and!; [done|apply Hn|apply Hn| |].
  - rewrite (node_count _ _ _ _ _ _ Hn), length_zip_with, Hl, length_app, !length_fmap. lia.
  - intros i x Hi Hx. by eapply interior_child.
Qed.
Lemma path_of_cons f ctx : path_of (f :: ctx) = (f_no f, Z.of_nat (length (f_l f))) :: path_of ctx.
Proof using. done. Qed.
Lemma path_of_app c1 c2 : path_of (c1 ++ c2) = path_of c1 ++ path_of c2.
Proof using. apply fmap_app. Qed.
Lemma climb_ok s ctx : ∀ t, holds (pool s) (plug ctx t) →
  (Forall (λ f, f_r f = []) ctx ∧ climb (path_of ctx) s = (s, Some (Ok None))) ∨
  (∃ c1 f k u r ctx', ctx = c1 ++ f :: ctx' ∧ Forall (λ f, f_r f = []) c1 ∧ f_r f = (k, u) :: r ∧
     climb (path_of ctx) s = (s, Some (Ok (Some (f_no f, Z.of_nat (length (f_l f)) + 1, path_of ctx'))))).
Proof using.
  induction ctx as [|f ctx IH]; intros t Hh; [by left|]. cbn [plug] in Hh. rewrite path_of_cons.
  pose proof (proj1 (holds_plug _ _ _) Hh) as [_ [Hf _]%holds_plug1]. destruct (frame_open s f _ Hf) as (b & Hop & _ & _ & Hne & _).
  cbn [climb]. destruct (f_r f) as [|[k u] r] eqn:Er.
  - assert (Hcl : climb ((f_no f, Z.of_nat (length (f_l f))) :: path_of ctx) s = climb (path_of ctx) s).
    { cbn [climb]. erewrite bind_ok by exact Hop. rewrite Hne. cbn [length]. by rewrite (proj2 (Z.ltb_ge _ _)) by lia. }
    cbn [climb] in Hcl. rewrite Hcl.
    destruct (IH _ Hh) as [[Hall E]|(c1 & g & k & u & r & ctx' & -> & Hall & Eg & E)].
    + left. split; [by constructor|done].
    + right. exists (f :: c1), g, k, u, r, ctx'. split_and!; [done|by constructor|done|done].
  - right. exists [], f, k, u, r, ctx. split_and!; [done|constructor|done|].
    erewrite bind_ok by exact Hop. rewrite Hne. cbn [length]. by rewrite (proj2 (Z.ltb_lt _ _)) by lia.
Qed.
Lemma spine_ok s ctx : ∀ fuel l path,
  is_leaf l → holds (pool s) (plug ctx l) → in_range (pool s) (owned (plug ctx l)) →
  Forall (λ f, f_l f = []) ctx → (length ctx < fuel)%nat →
  spine tid fuel (no_of (plug ctx l)) 0 path s = (s, Some (Ok (no_of l, path_of ctx ++ path))).
Proof using.
  induction ctx as [|f ctx IH] using rev_ind; intros fuel l path Hlf Hh Hr Hall Hf.
  - destruct l as [no next cs|]; [|done]. destruct Hh as [Hpage _]. destruct fuel; [cbn in Hf; lia|].
    destruct (open_cached_ok (pool s) no Leaf next (c_rec <$> cs) s eq_refl Hpage) as (b & Hg & Hn & Hop).
    cbn [plug no_of spine]. erewrite bind_ok by exact Hop.
    rewrite (node_tree _ _ _ _ _ _ Hn), Z.eqb_refl, bool_decide_true by apply Hn. done.
  - rewrite plug_app in Hh, Hr |- *. cbn [plug] in Hh, Hr |- *.
    apply Forall_app in Hall as [Hall [Hfl _]%Forall_cons].
    apply holds_plug1 in Hh as [Hf1 Hh]. apply range_plug1 in Hr as Hr'.
    destruct fuel; [cbn in Hf; lia|]. rewrite length_app in Hf. cbn [length] in Hf.
    assert (2 ≤ no_of (plug ctx l) < page_count (pool s)) as Hno.
    { unfold in_range in Hr'. rewrite Forall_forall in Hr'. apply Hr', no_in_owned. }
    destruct (frame_open s f _ Hf1) as (b & Hop & Ht & Hkd & _ & Hch).
    cbn [spine no_of plug1]. erewrite bind_ok by exact Hop. rewrite Ht, Z.eqb_refl.
    rewrite bool_decide_false by (rewrite Hkd; done). cbn [negb]. erewrite bind_ok by done.
    rewrite Hfl in Hch. specialize (Hch 0%nat (no_of (plug ctx l)) eq_refl Hno). change (Z.of_nat 0) with 0 in Hch.
    erewrite bind_ok by (unfold lift; rewrite Hch; done).
    rewrite IH by (done || lia). unfold path_of. rewrite fmap_app, <-app_assoc. csimpl. by rewrite Hfl.
Qed.
Lemma leftmost t : ∀ lo hi, ord lo hi t → ∃ ctx l, t = plug ctx l ∧ is_leaf l ∧ Forall (λ f, f_l f = []) ctx.
Proof using.
  induction t as [no next cs|no cs ks Hcs] using tree_nested_ind; intros lo hi Ho.
  - by exists [], (TLeaf no next cs).
  - change (ords hi lo cs ks) in Ho. pose proof (ords_length _ _ _ _ Ho) as Hl.
    destruct (split_children cs ks 0 Hl) as (l & u & r & -> & -> & E); [lia|]. destruct l; [|done].
    apply Forall_app in Hcs as [_ [Hu _]%Forall_cons].
    change (ord lo hi (plug1 (Frame no [] r) u)) in Ho. apply ord_plug1 in Ho as [_ Ho].
    destruct (Hu _ _ Ho) as (ctx & lf & -> & Hlf & Hall). exists (ctx ++ [Frame no [] r]), lf.
    rewrite plug_app. split_and!; [done|done|]. apply Forall_app. by repeat constructor.
Qed.

(** The step to the next leaf. *)
Lemma after_nil ctx : Forall (λ f, f_r f = []) ctx → after ctx = [] ∧ leaves_after ctx = [].
Proof using. induction 1 as [|f ctx Hf Hc [IH1 IH2]]; [done|]. cbn. by rewrite Hf, IH1, IH2. Qed.
Lemma after_app c1 c2 : after (c1 ++ c2) = after c1 ++ after c2 ∧ leaves_after (c1 ++ c2) = leaves_after c1 ++ leaves_after c2.
Proof using.
  induction c1 as [|f c1 [IH1 IH2]]; [done|]. cbn [app after leaves_after]. by rewrite IH1, IH2, !app_assoc.
Qed.
Lemma cells_leftmost ctx l : Forall (λ f, f_l f = []) ctx →
  cells (plug ctx l) = cells l ++ after ctx ∧ leaf_nos (plug ctx l) = leaf_nos l ++ leaves_after ctx.
Proof using.
  intros Hall. rewrite cells_plug, leaf_nos_plug.
  assert (before ctx = [] ∧ leaves_before ctx = []) as [-> ->]; [|done].
  induction Hall as [|f ctx Hf Hc [IH1 IH2]]; [done|]. cbn [before leaves_before]. by rewrite Hf, IH1, IH2.
Qed.
Lemma advance_ok s t ctx l it : view s t → t = plug ctx l → it_path it = path_of ctx →
  (leaves_after ctx = [] ∧ after ctx = [] ∧ advance tid it s = (s, Some (Ok (false, it)))) ∨
  (∃ ctx2 l2, t = plug ctx2 l2 ∧ is_leaf l2 ∧ after ctx = cells l2 ++ after ctx2 ∧
     leaves_after ctx = leaf_nos l2 ++ leaves_after ctx2 ∧
     (it_leaves it + 1 ≤ it_max_leaves it →
      advance tid it s = (s, Some (Ok (true, mkIter (no_of l2) 0 (it_done it) (path_of ctx2) (it_leaves it + 1) (it_max_leaves it)))))).
Proof using HPL.
  intros Hi -> Hp. unfold advance. rewrite Hp.
  destruct (climb_ok s ctx l (view_holds _ _ Hi)) as [[Hall Hc]|(c1 & f & k & u & r & ctx' & -> & Hall & Er & Hc)].
  - left. destruct (after_nil _ Hall) as [-> ->]. split_and!; [done|done|]. by erewrite bind_ok by exact Hc.
  - right. set (f2 := Frame (f_no f) (f_l f ++ [(plug c1 l, k)]) r).
    assert (plug (c1 ++ f :: ctx') l = plug (f2 :: ctx') u) as Et.
    { rewrite plug_app. cbn [plug]. f_equal. unfold plug1, f2. cbn [f_no f_l f_r]. rewrite Er, !fmap_app. csimpl.
      by rewrite <-!app_assoc. }
    rewrite Et in Hi |- *. pose proof (proj1 (ord_plug _ _ _ _) (view_ord _ _ Hi)) as [_ Hou].
    destruct (leftmost u _ _ Hou) as (c2 & l2 & -> & Hl2 & Hleft).
    exists (c2 ++ f2 :: ctx'), l2. destruct (cells_leftmost c2 l2 Hleft) as [Ec El].
    destruct (after_app c1 (f :: ctx')) as [-> ->]. destruct (after_nil c1 Hall) as [-> ->].
    destruct (after_app c2 (f2 :: ctx')) as [-> ->]. cbn [after leaves_after app]. rewrite Er. unfold f2. cbn [f_r].
    change ((((k, plug c2 l2) :: r) : list (bytes * tree)).*2) with (plug c2 l2 :: r.*2).
    unfold child_cells. cbn [flat_map]. rewrite Ec, El. split_and!; [by rewrite plug_app|done|by rewrite <-!app_assoc|by rewrite <-!app_assoc|].
    intros Hmax. erewrite bind_ok by exact Hc. cbn iota. erewrite bind_ok by apply levels_ok.
    change (plug (f2 :: ctx') (plug c2 l2)) with (plug ctx' (plug1 f2 (plug c2 l2))) in Hi.
    pose proof (path_fuel s (c2 ++ f2 :: ctx') l2) as Hfuel. rewrite plug_app in Hfuel. specialize (Hfuel Hi).
    rewrite length_app in Hfuel. cbn [length] in Hfuel.
    pose proof (proj1 (holds_plug _ _ _) (view_holds _ _ Hi)) as [_ [Hf2 Hh2]%holds_plug1].
    assert (in_range (pool s) (owned (plug c2 l2))) as Hr.
    { eapply range_plug1. pose proof (view_range _ _ Hi) as Hr. unfold in_range in *. rewrite owned_plug in Hr.
      apply Forall_app in Hr as [_ Hr]. exact Hr. }
    assert (2 ≤ no_of (plug c2 l2) < page_count (pool s)) as Hno.
    { unfold in_range in Hr. rewrite Forall_forall in Hr. apply Hr, no_in_owned. }
    destruct (frame_open s f2 _ Hf2) as (b & Hop & Ht & Hkd & _ & Hch).
    assert (spine tid (Z.to_nat (page_count (pool s))) (f_no f) (Z.of_nat (length (f_l f)) + 1) (path_of ctx') s =
      (s, Some (Ok (no_of l2, path_of (c2 ++ f2 :: ctx'))))) as Hsp.
    { destruct (Z.to_nat (page_count (pool s))) as [|fuel]; [lia|]. cbn [spine]. erewrite bind_ok by exact Hop.
      rewrite Ht, Z.eqb_refl, bool_decide_false by (rewrite Hkd; done). cbn [negb]. erewrite bind_ok by done.
      replace (Z.of_nat (length (f_l f)) + 1) with (Z.of_nat (S (length (f_l f)))) by lia.
      erewrite bind_ok.
      2: { unfold lift. rewrite (Hch (S (length (f_l f))) (no_of (plug c2 l2))); [done| |done].
           unfold f2. cbn [f_l f_r]. rewrite lookup_app_r by (rewrite !length_fmap, length_app; cbn; lia).
           rewrite !length_fmap, length_app. cbn [length]. by replace (S (length (f_l f)) - (length (f_l f) + 1))%nat with 0%nat by lia. }
      assert (length (f_l f2) = S (length (f_l f))) as El2.
      { unfold f2. cbn [f_l]. rewrite length_app. cbn [length]. lia. }
      rewrite spine_ok by (done || lia). by rewrite path_of_app, path_of_cons, El2. }
    erewrite bind_ok by exact Hsp. by rewrite (proj2 (Z.ltb_ge _ _)) by lia.
Qed.

(** A fold that may stop early. *)
Fixpoint fold_while {S} (f : S → bytes → bytes → S * bool) (acc : S) (l : list (bytes * bytes)) : S * bool :=
  match l with
  | [] => (acc, true)
  | (k, v) :: l => let '(acc, go) := f acc k v in if go then fold_while f acc l else (acc, false)
  end.
Lemma fold_while_app {S} (f : S → bytes → bytes → S * bool) l1 l2 : ∀ acc,
  fold_while f acc (l1 ++ l2) = let '(acc, go) := fold_while f acc l1 in if go then fold_while f acc l2 else (acc, false).
Proof using.
  induction l1 as [|[k v] l1 IH]; intros acc; [done|]. cbn [app fold_while]. destruct (f acc k v) as [acc' []]; [apply IH|done].
Qed.
Section visit.
Context {S : Type} (f : S → bytes → bytes → S * bool).
Definition waiting (c : cell) : bytes * bytes * bool := (c_key c, (cell_value c).1, (cell_value c).2).
Lemma visit_slots_ok b no next cs s : node_at b Leaf tid no next (c_rec <$> cs) → Forall (cell_ok (pool s)) cs →
  ∀ l (i : nat) d acc, l = drop i cs → ∃ acc' go d',
    visit_slots f b (seqZ (Z.of_nat i) (Z.of_nat (length l))) d acc s = (s, Some (Ok (acc', go, d'))) ∧
    match d with
    | _ :: _ => acc' = acc ∧ go = true ∧ d' = d ++ (waiting <$> l)
    | [] => if go then ∃ l1 l2, l = l1 ++ l2 ∧ fold_while f acc (entries l1) = (acc', true) ∧ d' = waiting <$> l2
            else fold_while f acc (entries l) = (acc', false)
    end.
Proof using.
  intros Hn Hcs l. induction l as [|c l IH]; intros i d acc Hl.
  - exists acc, true, d. split; [done|]. destruct d; [by exists [], []|]. by rewrite app_nil_r.
  - assert (cs !! i = Some c) as Hi by (rewrite <-(Nat.add_0_r i), <-lookup_drop, <-Hl; done).
    assert (l = drop (Datatypes.S i) cs) as Hl' by (rewrite (drop_S _ _ _ Hi) in Hl; congruence).
    rewrite seqZ_cons by (cbn; lia). replace (Z.succ (Z.of_nat i)) with (Z.of_nat (Datatypes.S i)) by lia.
    replace (Z.pred (Z.of_nat (length (c :: l)))) with (Z.of_nat (length l)) by (cbn; lia).
    cbn [visit_slots].
    assert (slot b (Z.of_nat i) = Some (c_rec c)) as Hsl by (apply (node_slot _ _ _ _ _ _ Hn); by rewrite list_lookup_fmap, Hi).
    pose proof (Forall_lookup_1 _ _ _ _ Hcs Hi) as Hc. destruct (cell_helpers _ _ Hc) as [_ Hv].
    assert (∀ d acc, bind (sure (slot b (Z.of_nat i))) (λ rec, bind (sure (validated_leaf rec)) (λ '(key, value, flag),
       if flag || negb (bool_decide (d = [])) then visit_slots f b (seqZ (Z.of_nat (Datatypes.S i)) (Z.of_nat (length l))) (d ++ [(key, value, flag)]) acc
       else let '(acc, go) := f acc key value in
         if go : bool then visit_slots f b (seqZ (Z.of_nat (Datatypes.S i)) (Z.of_nat (length l))) d acc else ret (acc, false, d))) s =
       (if (cell_value c).2 || negb (bool_decide (d = [])) then visit_slots f b (seqZ (Z.of_nat (Datatypes.S i)) (Z.of_nat (length l))) (d ++ [waiting c]) acc
       else let '(acc, go) := f acc (c_key c) (cell_value c).1 in
         if go : bool then visit_slots f b (seqZ (Z.of_nat (Datatypes.S i)) (Z.of_nat (length l))) d acc else ret (acc, false, d)) s) as Heq.
    { intros d' acc'. erewrite bind_ok by (unfold sure; rewrite Hsl; done). by erewrite bind_ok by (unfold sure; rewrite Hv; done). }
    rewrite Heq. clear Heq. destruct d as [|x d].
    + rewrite bool_decide_true by done. rewrite orb_false_r.
      destruct (cell_value c) as [v flag] eqn:Ecv. cbn [fst snd]. destruct flag.
      * destruct (IH (Datatypes.S i) ([] ++ [waiting c]) acc Hl') as (acc' & go & d' & -> & -> & -> & ->).
        exists acc, true, (waiting <$> c :: l). split; [done|]. by exists [], (c :: l).
      * assert (v = c_val c) as -> by (unfold cell_value in Ecv; destruct (c_chain c); congruence).
        unfold entries in *. csimpl. cbn [fold_while]. destruct (f acc (c_key c) (c_val c)) as [acc1 []] eqn:Ef; [|by exists acc1, false, []].
        destruct (IH (Datatypes.S i) [] acc1 Hl') as (acc' & go & d' & -> & Hd). exists acc', go, d'. split; [done|].
        destruct go; [|done]. destruct Hd as (l1 & l2 & -> & Hf & ->). exists (c :: l1), l2. split; [done|]. csimpl.
        cbn [fold_while]. by rewrite Ef.
    + rewrite bool_decide_false by done. rewrite orb_true_r.
      destruct (IH (Datatypes.S i) ((x :: d) ++ [waiting c]) acc Hl') as (acc' & go & d' & -> & -> & -> & ->).
      exists acc, true, ((x :: d) ++ [waiting c] ++ (waiting <$> l)). split_and!; [|done|done|done].
      by rewrite <-app_assoc.
Qed.
Lemma visit_deferred_ok s l : ∀ acc, Forall (λ c, cell_ok (pool s) c ∧ NoDup (c_chain c) ∧ in_range (pool s) (c_chain c)) l →
  visit_deferred f (waiting <$> l) acc s = (s, Some (Ok (fold_while f acc (entries l)))).
Proof using HL HPL.
  induction l as [|c l IH]; intros acc Hall; [done|]. apply Forall_cons in Hall as [(Hc & Hnd & Hr) Hall].
  csimpl. cbn [visit_deferred waiting entries]. unfold waiting at 1. erewrite bind_ok by (by apply read_cell).
  unfold entries. csimpl. cbn [fold_while]. destruct (f acc (c_key c) (c_val c)) as [acc1 []]; [by apply IH|done].
Qed.
Lemma cells_chains s t : view s t → ∀ ctx no next cs, t = plug ctx (TLeaf no next cs) →
  Forall (λ c, NoDup (c_chain c) ∧ in_range (pool s) (c_chain c)) cs.
Proof using.
  intros Hi ctx no next cs ->. apply Forall_lookup_2. intros i c Hc. eapply owned_cell; [apply Hi|apply Hi|done].
Qed.
(** The loop, from position [idx] of a leaf: a fold over the cells from there on. *)
Lemma for_each_loop_ok s t : view s t → ∀ fuel ctx no next cs (idx : nat) leaves acc,
  t = plug ctx (TLeaf no next cs) → (idx ≤ length cs)%nat → (length (leaves_after ctx) < fuel)%nat →
  leaves + Z.of_nat (length (leaves_after ctx)) ≤ page_count (pool s) →
  for_each_loop tid f fuel (mkIter no (Z.of_nat idx) false (path_of ctx) leaves (page_count (pool s))) acc s =
    (s, Some (Ok (fold_while f acc (entries (drop idx cs ++ after ctx))).1)).
Proof using HL HPL.
  intros Hi fuel. induction fuel as [|fuel IH]; intros ctx no next cs idx leaves acc Ht Hidx Hf Hl; [lia|].
  pose proof Ht as Ht'. pose proof (view_holds _ _ Hi) as Hh. rewrite Ht in Hh. apply holds_plug in Hh as [_ [Hpage Hcs]].
  destruct (open_cached_ok (pool s) no Leaf next (c_rec <$> cs) s eq_refl Hpage) as (b & Hg & Hn & Hop).
  cbn [for_each_loop it_done it_page it_idx]. erewrite bind_ok by exact Hop.
  rewrite (node_tree _ _ _ _ _ _ Hn), Z.eqb_refl. cbn [negb]. rewrite (node_count _ _ _ _ _ _ Hn), length_fmap.
  destruct (visit_slots_ok b no next cs s Hn Hcs (drop idx cs) idx [] acc eq_refl) as (acc1 & go & d & Hv & Hd).
  rewrite length_drop, Nat2Z.inj_sub in Hv by done. erewrite bind_ok by exact Hv.
  rewrite entries_app, fold_while_app. destruct go; cbn [negb].
  2: { by rewrite Hd. }
  destruct Hd as (l1 & l2 & El & Ef & ->). rewrite El, entries_app, fold_while_app, Ef.
  erewrite bind_ok.
  2: { apply visit_deferred_ok. assert (Forall (λ c, cell_ok (pool s) c ∧ NoDup (c_chain c) ∧ in_range (pool s) (c_chain c)) (drop idx cs)) as Hall.
       - apply Forall_drop, Forall_and. split; [done|]. by eapply cells_chains.
       - rewrite El in Hall. by apply Forall_app in Hall as [_ Hall]. }
  destruct (fold_while f acc1 (entries l2)) as [acc2 []]; cbn [negb]; [|done].
  destruct (advance_ok s t ctx (TLeaf no next cs) (mkIter no (Z.of_nat idx) false (path_of ctx) leaves (page_count (pool s))) Hi Ht' eq_refl)
    as [(_ & Ea & Had)|(ctx2 & l2' & Ht2 & Hl2 & Ea & Ela & Had)].
  - erewrite bind_ok by exact Had. by rewrite Ea.
  - cbn [it_leaves it_max_leaves it_done] in Had. rewrite Ela, length_app in Hl, Hf. destruct l2' as [no2 next2 cs2|]; [|done].
    cbn [leaf_nos length] in Hl, Hf. erewrite bind_ok by (apply Had; lia). cbn iota.
    rewrite Ea. change 0 with (Z.of_nat 0). cbn [no_of]. rewrite (IH ctx2 no2 next2 cs2 0%nat (leaves + 1) acc2 Ht2); [|lia..].
    by rewrite drop_0.
Qed.
End visit.
Lemma leaf_nos_owned t : leaf_nos t ⊆+ owned t.
Proof using.
  induction t as [no next cs|no cs ks Hcs] using tree_nested_ind; cbn [leaf_nos owned].
  - by apply submseteq_skip, submseteq_nil_l.
  - apply submseteq_cons. induction Hcs as [|c cs Hc Hcs IH]; [done|]. cbn [flat_map]. by apply submseteq_app.
Qed.
Lemma leaves_fuel s t ctx no next cs : view s t → t = plug ctx (TLeaf no next cs) →
  1 + Z.of_nat (length (leaves_after ctx)) ≤ page_count (pool s).
Proof using.
  intros Hi ->. pose proof (submseteq_length _ _ (leaf_nos_owned (plug ctx (TLeaf no next cs)))) as Hlen.
  pose proof (distinct_pages _ _ (view_nodup _ _ Hi) (view_range _ _ Hi)).
  rewrite leaf_nos_plug, !length_app in Hlen. cbn [leaf_nos length] in Hlen. lia.
Qed.
(** The entries from a key on. *)
Definition from_key (from : bytes) (l : list (bytes * bytes)) : list (bytes * bytes) :=
  List.filter (λ kv, negb (bytes_ltb kv.1 from)) l.
Lemma from_key_app from l1 l2 : from_key from (l1 ++ l2) = from_key from l1 ++ from_key from l2.
Proof using. apply List.filter_app. Qed.
Lemma from_key_none from l : Forall (λ c, c_key c ≺ from) l → from_key from (entries l) = [].
Proof using.
  induction 1 as [|c l Hc Hl IH]; [done|]. unfold from_key, entries in *. cbn. by rewrite (proj2 (ltb_lt _ _) Hc).
Qed.
Lemma from_key_all from l : Forall (λ c, from ≼ c_key c) l → from_key from (entries l) = entries l.
Proof using.
  induction 1 as [|c l Hc Hl IH]; [done|]. unfold from_key, entries in *. cbn. rewrite (proj2 (ltb_ge _ _) Hc). cbn. by rewrite IH.
Qed.
(** Where a range opens: at the first entry from the key on. *)
Lemma range_ok s t from : view s t → ∃ ctx no next cs (i : nat),
  range tid from s = (s, Some (Ok (mkIter no (Z.of_nat i) false (path_of ctx) 1 (page_count (pool s))))) ∧
  t = plug ctx (TLeaf no next cs) ∧ (i ≤ length cs)%nat ∧ from_key from (entries (cells t)) = entries (drop i cs ++ after ctx) ∧
  1 + Z.of_nat (length (leaves_after ctx)) ≤ page_count (pool s).
Proof using HL HPL.
  intros Hi. destruct (descend_to_leaf s t from Hi) as (ctx & no & next & cs & b & Ht & Hw & Ho & Hs & Hcs & Hg & Hn & Hd).
  destruct (lower_position b no next cs from (pool s) Hn Hcs Hs) as (i & Hlb & Hcut & Hne). exists ctx, no, next, cs, i. split.
  { assert (descend_positioned tid from s = (s, Some (Ok (no, Z.of_nat i, path_of ctx)))) as Hp.
    - unfold descend_positioned. erewrite bind_ok by reflexivity. erewrite bind_ok by apply levels_ok.
      erewrite bind_ok by exact (Hd []). cbn beta iota. erewrite bind_ok by (unfold sure; rewrite Hlb; done). by rewrite app_nil_r.
    - unfold range. by erewrite bind_ok by exact Hp. }
  split; [done|]. destruct Hcut as (Hi' & Hct & Hcd). split; [by rewrite length_fmap in Hi'|]. split; [|by eapply leaves_fuel].
  destruct (hole_bounds _ _ _ _ Ho Hw) as (Hb & Ha & _). rewrite Ht, cells_plug. cbn [cells].
  rewrite <-(take_drop i cs) at 1. rewrite !entries_app, !from_key_app.
  rewrite (from_key_none from (before ctx)) by done.
  rewrite (from_key_none from (take i cs)).
  2: { rewrite <-fmap_take, Forall_fmap in Hct. eapply Forall_impl; [exact Hct|]. intros c. apply ltb_lt. }
  rewrite (from_key_all from (drop i cs)).
  2: { rewrite <-fmap_drop, Forall_fmap in Hcd. eapply Forall_impl; [exact Hcd|]. intros c. apply ltb_ge. }
  rewrite (from_key_all from (after ctx)); [done|]. eapply Forall_impl; [exact Ha|]. cbn. intros. order.
Qed.
Lemma scan_ok {S} (f : S → bytes → bytes → S * bool) s t from acc : view s t →
  (let+ it := range tid from in for_each_ref tid f it acc) s =
    (s, Some (Ok (fold_while f acc (from_key from (entries (cells t)))).1)).
Proof using HL HPL.
  intros Hi. destruct (range_ok s t from Hi) as (ctx & no & next & cs & i & Hr & Ht & Hle & -> & Hl).
  erewrite bind_ok by exact Hr. unfold for_each_ref. cbn [it_max_leaves]. eapply for_each_loop_ok; [exact Hi|exact Ht|done|lia|lia].
Qed.
End read.
End TreeRead.
