(* ===== verification/TreeCursor.v ===== *)
(** * The pull cursor over a tree ([Cursor.v])

    A cursor in the middle of its range stands for the list of entries still to
    come: the buffered ones, then those of its leaf from its slot on, then those of
    the leaves to the right.  Every call does to the cursor what its counterpart
    does to the list. *)
From S2P Require Import Prelude Crc Page Cells Order Node Pool Tree BTree Cursor TreeRep TreeRead.
Import Page Cells Order Node Tree BTree Cursor TreeRep TreeRead.

Module TreeCursor.

Section cursor.
Context `{HC : Crc32c} `{HL : !Crc32cLaws} {P : Type} `{HP : PagePool P} `{HPL : !PagePoolLaws P}.
Context {tid : TreeId}.
Implicit Types (p : P) (s : BTree P) (t : tree) (c : Cursor).

(** ** Markers *)
Lemma is_marker_shape rec k v o : leaf_shape rec k v o → is_marker rec = Some o.
Proof using.
  intros Hs. unfold is_marker. destruct Hs as [b key val Hi Hl|b0 b1 key val Hc Hl|b0 b1 v0 v1 key val Hc Hi Hl Hv Ho|b0 b1 key marker Hc Hi Hl Hm];
    cbn [app lookup list_lookup mbind option_bind].
  - by rewrite Hi.
  - rewrite (compact_not_int _ Hc), andb_false_r. by rewrite Hc.
  - assert ((b0 =? 255) && int_tag b1 = false) as -> by (destruct (Z.eqb_spec b0 255); [by apply Hi|done]). rewrite Hc.
    change (b0 :: b1 :: key ++ v0 :: v1 :: val) with ([b0; b1] ++ key ++ [v0; v1] ++ val).
    rewrite app_assoc, (get_at_mid ([b0; b1] ++ key) [v0; v1] val) by (blens; lia). cbn [mbind option_bind].
    by rewrite le_num_two, <-Hv, (proj2 (Z.eqb_neq _ _)).
  - assert ((b0 =? 255) && int_tag b1 = false) as -> by (destruct (Z.eqb_spec b0 255); [by apply Hi|done]). rewrite Hc.
    change (b0 :: b1 :: key ++ 255 :: 255 :: marker) with ([b0; b1] ++ key ++ [255; 255] ++ marker).
    rewrite app_assoc, (get_at_mid ([b0; b1] ++ key) [255; 255] marker) by (blens; lia). cbn [mbind option_bind]. by rewrite le_num_two.
Qed.
Definition has_marker (cs : list cell) : bool := existsb (λ x, (cell_value x).2) cs.

(** ** The leaf a cursor is on *)
Definition leaf_bytes s no next (cs : list cell) (b : bytes) : Prop :=
  get (pool s) no = Ok b ∧ node_at b Leaf tid no next (c_rec <$> cs) ∧ open_checked b no = Some (Ok tt) ∧
  open_cached no s = (s, Some (Ok b)) ∧ open_resident_validated b no = Ok b ∧ nentries b = Z.of_nat (length cs) ∧ leaf_has_marker b = Some (has_marker cs) ∧
  (∀ i x, cs !! i = Some x → slot b (Z.of_nat i) = Some (c_rec x) ∧ validated_leaf (c_rec x) = Some (waiting x)).
Lemma any_marker_ok b cs : (∀ i x, cs !! i = Some x → slot b (Z.of_nat i) = Some (c_rec x)) → Forall (λ x, is_marker (c_rec x) = Some (cell_value x).2) cs →
  ∀ l i, l = drop i cs → any_marker b (seqZ (Z.of_nat i) (Z.of_nat (length l))) = Some (has_marker l).
Proof using.
  intros Hsl Hm l. induction l as [|x l IH]; intros i Hl; [done|].
  assert (cs !! i = Some x) as Hi by (rewrite <-(Nat.add_0_r i), <-lookup_drop, <-Hl; done).
  rewrite seqZ_cons by (cbn; lia). replace (Z.succ (Z.of_nat i)) with (Z.of_nat (S i)) by lia.
  replace (Z.pred (Z.of_nat (length (x :: l)))) with (Z.of_nat (length l)) by (cbn; lia).
  cbn [any_marker]. rewrite (Hsl i x Hi). cbn [mbind option_bind]. rewrite (Forall_lookup_1 _ _ _ _ Hm Hi). cbn [mbind option_bind has_marker existsb].
  destruct (cell_value x).2; [done|]. apply IH. by rewrite (drop_S _ _ _ Hi) in Hl; injection Hl.
Qed.
Lemma leaf_view s ctx no next cs : view s (plug ctx (TLeaf no next cs)) → ∃ b, leaf_bytes s no next cs b.
Proof using HL HPL.
  intros Hv. pose proof (proj2 (proj1 (holds_plug _ _ _) (view_holds _ _ Hv))) as [Hpage Hcs].
  destruct (open_cached_ok (pool s) no Leaf next (c_rec <$> cs) s eq_refl Hpage) as (b & Hg & Hn & Hop). exists b.
  assert (∀ i x, cs !! i = Some x → slot b (Z.of_nat i) = Some (c_rec x)) as Hsl by (intros i x Hx; apply (node_slot _ _ _ _ _ _ Hn); by rewrite list_lookup_fmap, Hx).
  assert (nentries b = Z.of_nat (length cs)) as Hne by (by rewrite (node_count _ _ _ _ _ _ Hn), length_fmap).
  split; [done|]. split; [done|]. split; [|split; [done|]].
  { revert Hop. unfold open_cached, bind, get_page, lift. rewrite Hg. by destruct (open_checked b no) as [[[]|?]|]. }
  split; [by apply (node_validated b Leaf no next (c_rec <$> cs))|]. split; [done|]. split.
  - unfold leaf_has_marker, indices. rewrite Hne. apply (any_marker_ok b cs Hsl) with (i := 0%nat); [|done].
    eapply Forall_impl; [exact Hcs|]. intros x Hx. eapply is_marker_shape, cell_shape, Hx.
  - intros i x Hx. split; [by apply Hsl|]. by destruct (cell_helpers _ _ (Forall_lookup_1 _ _ _ _ Hcs Hx)).
Qed.
(** ** What a cursor stands for *)
(** A buffered record and the entry it is. *)
Definition item_ok s (x : bytes * bytes * bool) (kv : bytes * bytes) : Prop :=
  x.1.1 = kv.1 ∧ (if x.2 then read_overflow x.1.2 s = (s, Some (Ok kv.2)) else x.1.2 = kv.2).
(** The entries beyond the buffer, with [m] leaves to the right. *)
Definition place s t c (rest : list (bytes * bytes)) (m : nat) : Prop :=
  it_max_leaves (cu_it c) = page_count (pool s) ∧
  if it_done (cu_it c) then rest = [] ∧ m = 0%nat else
  ∃ ctx no next cs (idx : nat) leaves, t = plug ctx (TLeaf no next cs) ∧
    cu_it c = mkIter no (Z.of_nat idx) false (path_of ctx) leaves (page_count (pool s)) ∧
    (idx ≤ length cs)%nat ∧ m = length (leaves_after ctx) ∧ 1 ≤ leaves ∧ leaves + Z.of_nat m ≤ page_count (pool s) ∧
    rest = entries (drop idx cs ++ after ctx) ∧
    match cu_pin c with
    | Some b => leaf_bytes s no next cs b ∧ cu_entries c = Z.of_nat (length cs) ∧ cu_markers c = has_marker cs
    | None => True
    end.
Definition stands s t c (l : list (bytes * bytes)) : Prop :=
  ∃ buffered rest m, Forall2 (item_ok s) (cu_buf c) buffered ∧ l = buffered ++ rest ∧ place s t c rest m.
Lemma place_rounds s t c rest m : place s t c rest m → (m + 3 ≤ rounds c)%nat.
Proof using. intros [Hm Hp]. unfold rounds. rewrite Hm. destruct (it_done _); [lia|]. destruct Hp as (? & ? & ? & ? & ? & ? & _ & _ & _ & _ & ? & ? & _). lia. Qed.
Lemma stands_nil s t c rest m : cu_buf c = [] → place s t c rest m → stands s t c rest.
Proof using. intros Hb Hp. exists [], rest, m. rewrite Hb. split; [constructor|by split]. Qed.
Lemma stands_buf s t c x buf kv buffered rest m : cu_buf c = x :: buf → Forall2 (item_ok s) (cu_buf c) (kv :: buffered) → place s t c rest m →
  item_ok s x kv ∧ stands s t (with_buf buf c) (buffered ++ rest).
Proof using. intros -> Hf Hp. apply Forall2_cons in Hf as [Hx Hf]. split; [done|]. by exists buffered, rest, m. Qed.
Lemma place_unpinned s t c rest m : place s t c rest m → place s t (with_pin None c) rest m.
Proof using.
  intros [Hm Hp]. split; [done|]. cbn [with_pin cu_it cu_pin] in *. destruct (it_done (cu_it c)); [done|].
  destruct Hp as (ctx & no & next & cs & idx & leaves & H1 & H2 & H3 & H4 & H5 & H6 & H7 & _). by exists ctx, no, next, cs, idx, leaves.
Qed.
Lemma place_finished s t c : it_max_leaves (cu_it c) = page_count (pool s) → place s t (with_it (finished (cu_it c)) c) [] 0.
Proof using. intros Hm. by split. Qed.

(** To the next leaf, pinned. *)
Lemma onward_ok s t c ctx no next cs i leaves : view s t → t = plug ctx (TLeaf no next cs) →
  cu_it c = mkIter no i false (path_of ctx) leaves (page_count (pool s)) → 1 ≤ leaves → leaves + Z.of_nat (length (leaves_after ctx)) ≤ page_count (pool s) →
  (after ctx = [] ∧ advance_pin tid c s = (s, Some (Ok (false, c)))) ∨
  ∃ c2 m2, advance_pin tid c s = (s, Some (Ok (true, c2))) ∧ place s t c2 (entries (after ctx)) m2 ∧ (m2 < length (leaves_after ctx))%nat ∧
    cu_buf c2 = cu_buf c ∧ it_done (cu_it c2) = false.
Proof using HL HPL.
  intros Hv Ht Hit Hl1 Hl2. unfold advance_pin.
  destruct (advance_ok s t ctx (TLeaf no next cs) (cu_it c) Hv Ht) as [(_ & Ha & Had)|(ctx2 & l2 & Ht2 & Hlf & Ha & Hla & Had)]; [by rewrite Hit| |].
  - left. split; [done|]. by erewrite bind_ok by exact Had.
  - right. destruct l2 as [no2 next2 cs2|]; [|done]. rewrite Hla in *. cbn [leaf_nos app length] in *. rewrite Hit in Had. cbn [it_leaves it_max_leaves it_done no_of] in Had.
    rewrite Ht2 in Hv. destruct (leaf_view _ _ _ _ _ Hv) as (b & Hb).
    exists (pinned b (has_marker cs2) (with_it (mkIter no2 0 false (path_of ctx2) (leaves + 1) (page_count (pool s))) c)), (length (leaves_after ctx2)).
    split; [|split; [|split; [lia|done]]].
    + rewrite Hit. erewrite bind_ok by (apply Had; lia). cbn beta iota. cbn [it_page]. erewrite bind_ok by (unfold get_page; rewrite (proj1 Hb); done).
      destruct Hb as (_ & _ & _ & _ & _ & _ & Hmk & _). by erewrite bind_ok by (unfold sure; rewrite Hmk; done).
    + split; [done|]. exists ctx2, no2, next2, cs2, 0%nat, (leaves + 1). cbn [pinned with_it cu_it cu_pin cu_entries cu_markers]. rewrite drop_0.
      split; [done|]. split; [done|]. split; [lia|]. split; [done|]. split; [lia|]. split; [lia|]. split; [by rewrite Ha|]. split; [done|]. split; [apply Hb|done].
Qed.
(** ** [next] *)
Lemma attempt_ok {A} (m : M P A) s a : m s = (s, Some (Ok a)) → attempt m s = (s, Some (Ok (Ok a))).
Proof using. intros H. unfold attempt. by rewrite H. Qed.
Lemma cell_item s ctx no next cs i x : view s (plug ctx (TLeaf no next cs)) → cs !! i = Some x → item_ok s (waiting x) (c_key x, c_val x).
Proof using HL HPL.
  intros Hv Hx. pose proof (proj2 (proj1 (holds_plug _ _ _) (view_holds _ _ Hv))) as [_ Hcs].
  pose proof (Forall_lookup_1 _ _ _ _ (cells_chains s _ Hv _ _ _ _ eq_refl) Hx) as [Hnd Hr].
  pose proof (read_cell s x (Forall_lookup_1 _ _ _ _ Hcs Hx) Hnd Hr) as H. split; [done|]. cbn [waiting fst snd]. destruct (cell_value x) as [v []]; cbn [fst snd] in *; [done|].
  by injection H.
Qed.
Lemma leaf_items s ctx no next cs : view s (plug ctx (TLeaf no next cs)) → ∀ l i, l = drop i cs → Forall2 (item_ok s) (waiting <$> l) (entries l).
Proof using HL HPL.
  intros Hv l. induction l as [|x l IH]; intros i Hl; [constructor|].
  assert (cs !! i = Some x) as Hi by (rewrite <-(Nat.add_0_r i), <-lookup_drop, <-Hl; done).
  constructor; [by eapply cell_item|]. apply (IH (S i)). rewrite (drop_S _ _ _ Hi) in Hl. by injection Hl.
Qed.
Lemma leaf_rest_ok b cs : (∀ i x, cs !! i = Some x → slot b (Z.of_nat i) = Some (c_rec x) ∧ validated_leaf (c_rec x) = Some (waiting x)) →
  ∀ l i, l = drop i cs → leaf_rest b (seqZ (Z.of_nat i) (Z.of_nat (length l))) = Some (waiting <$> l).
Proof using.
  intros Hsl l. induction l as [|x l IH]; intros i Hl; [done|].
  assert (cs !! i = Some x) as Hi by (rewrite <-(Nat.add_0_r i), <-lookup_drop, <-Hl; done).
  rewrite seqZ_cons by (cbn; lia). replace (Z.succ (Z.of_nat i)) with (Z.of_nat (S i)) by lia.
  replace (Z.pred (Z.of_nat (length (x :: l)))) with (Z.of_nat (length l)) by (cbn; lia).
  cbn [leaf_rest]. destruct (Hsl i x Hi) as [-> Hv]. cbn [mbind option_bind]. rewrite Hv. cbn [mbind option_bind]. rewrite (IH (S i)); [done|].
  rewrite (drop_S _ _ _ Hi) in Hl. by injection Hl.
Qed.
Lemma served_ok s c k v m kv : item_ok s (k, v, m) kv → served_value c k v m s = (s, Some (Ok (Some (Ok kv), c))).
Proof using.
  intros [Hk Hv]. unfold served_value. destruct kv as [k' v']. cbn [fst snd] in *. subst k'. destruct m; [|by subst v'].
  by erewrite bind_ok by (by apply attempt_ok).
Qed.
(** What the loop owes before it answers. *)
Definition owes (c : Cursor) (m : nat) : nat := match cu_buf c with _ :: _ => 1 | [] => if it_done (cu_it c) then 1 else m + 2 end.
Lemma next_loop_ok s t : view s t → ∀ fuel c buffered rest m, Forall2 (item_ok s) (cu_buf c) buffered → place s t c rest m → (owes c m ≤ fuel)%nat →
  ∃ c', next_loop tid fuel c s = (s, Some (Ok (Ok <$> head (buffered ++ rest), c'))) ∧ stands s t c' (tail (buffered ++ rest)).
Proof using HL HPL.
  intros Hv fuel. induction fuel as [|fuel IH]; intros c buffered rest m Hf Hp Ho.
  { unfold owes in Ho. destruct (cu_buf c); [destruct (it_done _)|]; lia. }
  apply place_unpinned in Hp as Hp'. cbn [next_loop]. change (cu_buf (with_pin None c)) with (cu_buf c). unfold owes in Ho.
  destruct (cu_buf c) as [|[[k v] mk] buf] eqn:Eb.
  2: { destruct buffered as [|kv buffered]; [by apply Forall2_length in Hf|]. apply Forall2_cons in Hf as [Hx Hf].
       exists (with_buf buf (with_pin None c)). rewrite (served_ok _ _ _ _ _ kv) by done. split; [done|]. by exists buffered, rest, m. }
  apply Forall2_nil_inv_l in Hf as ->. cbn [app]. cbn [with_pin cu_it cu_served]. pose proof Hp as [Hmax Hpl].
  destruct (it_done (cu_it c)) eqn:Ed.
  { destruct Hpl as [-> _]. exists (with_pin None c). split; [done|]. by apply (stands_nil _ _ _ _ m). }
  destruct Hpl as (ctx & no & next & cs & idx & leaves & Ht & Hit & Hidx & Hm & Hl1 & Hl2 & Hrest & _).
  rewrite Ht in Hv. destruct (leaf_view _ _ _ _ _ Hv) as (b & Hb). pose proof Hb as (_ & Hn & _ & Hop & _ & Hne & _ & Hsl). rewrite <-Ht in Hv.
  set (c1 := with_pin None c) in *. rewrite Hit. cbn [it_page it_idx it_done it_path it_leaves it_max_leaves].
  erewrite bind_ok by (by apply attempt_ok). cbn beta iota. rewrite (node_tree _ _ _ _ _ _ Hn), Z.eqb_refl. cbn [negb]. rewrite Hne.
  (* to the next leaf with [i] the slot and [buf] the buffer so far *)
  assert (∀ buf i, entries (drop idx cs) = [] ∨ buf ≠ [] → Forall2 (item_ok s) buf (entries (drop idx cs)) → ∃ c',
    (let+ r := attempt (advance_pin tid (with_buf buf (with_it (at_idx i (cu_it c)) c1))) in
     match r with
     | Ok (true, c) => next_loop tid fuel c
     | Ok (false, c) => next_loop tid fuel (with_it (finished (cu_it c)) c)
     | Err e => ret (fuse (with_buf buf (with_it (at_idx i (cu_it c)) c1)) e)
     end) s = (s, Some (Ok (Ok <$> head rest, c'))) ∧ stands s t c' (tail rest)) as Honward.
  { intros buf i _ Hbuf. set (c2 := with_buf buf (with_it (at_idx i (cu_it c)) c1)). rewrite Hrest, entries_app.
    destruct (onward_ok s t c2 ctx no next cs i leaves Hv Ht) as [[Ha Had]|(c3 & m3 & Had & Hp3 & Hm3 & Hb3 & Hd3)]; [unfold c2; cbn [with_buf with_it cu_it]; unfold at_idx; by rewrite Hit|done|lia| |].
    - erewrite bind_ok by (by apply attempt_ok). rewrite Ha. cbn beta iota. apply (IH _ _ [] 0%nat); [done|by apply place_finished|].
      unfold owes. cbn [with_it cu_buf cu_it finished it_done]. destruct (cu_buf c2); lia.
    - erewrite bind_ok by (by apply attempt_ok). cbn beta iota. apply (IH c3 _ _ m3); [by rewrite Hb3|done|].
      unfold owes. rewrite Hd3. destruct (cu_buf c3); lia. }
  destruct (Z.ltb_spec (cu_served c) SHORT_SCAN).
  - destruct (Z.ltb_spec (Z.of_nat idx) (Z.of_nat (length cs))) as [Hlt|Hge].
    + destruct (lookup_lt_is_Some_2 cs idx ltac:(lia)) as [x Hx]. destruct (Hsl idx x Hx) as [Hs1 Hs2].
      erewrite bind_ok by (unfold sure; rewrite Hs1; done). erewrite bind_ok by (unfold sure; rewrite Hs2; done). cbn beta iota.
      rewrite Ht in Hv. pose proof (cell_item _ _ _ _ _ _ _ Hv Hx) as Hitem. eexists. unfold waiting in *. rewrite (served_ok _ _ _ _ _ _ Hitem).
      rewrite Hrest, (drop_S _ _ _ Hx). split; [done|]. eapply (stands_nil _ _ _ _ m); [done|]. split; [done|]. cbn [with_served with_it cu_it at_idx it_done].
      exists ctx, no, next, cs, (S idx), leaves. split; [done|]. rewrite <-Ht in *. cbn [it_page it_idx it_path it_leaves it_max_leaves it_done].
      split; [unfold at_idx; cbn [it_page it_idx it_path it_leaves it_max_leaves it_done]; f_equal; lia|]. split; [lia|]. split; [done|]. split; [done|]. split; [done|]. split; done.
    + assert (drop idx cs = []) as Ed0 by (apply drop_ge; lia). destruct (Honward [] (Z.of_nat idx)) as (c' & Hc' & Hst); [left; by rewrite Ed0|by rewrite Ed0|].
      exists c'. split; [|done]. rewrite <-Hc'. assert (with_buf [] (with_it (at_idx (Z.of_nat idx) (cu_it c)) c1) = c1) as ->; [|done].
      unfold c1. destruct c. cbn in *. by subst.
  - replace (Z.of_nat (length cs) - Z.of_nat idx) with (Z.of_nat (length (drop idx cs))) by (rewrite length_drop; lia).
    erewrite bind_ok by (unfold sure; rewrite (leaf_rest_ok b cs Hsl _ idx eq_refl); done). rewrite <-Hit. apply (Honward (waiting <$> drop idx cs) (Z.max (Z.of_nat idx) (Z.of_nat (length cs)))).
    + destruct (drop idx cs); [by left|by right].
    + rewrite Ht in Hv. by eapply leaf_items.
Qed.
Lemma next_ok s t c l : view s t → stands s t c l →
  ∃ c', next tid c s = (s, Some (Ok (Ok <$> head l, c'))) ∧ stands s t c' (tail l).
Proof using HL HPL.
  intros Hv (buffered & rest & m & Hf & -> & Hp). unfold next. apply (next_loop_ok s t Hv _ _ _ _ m); [done|done|].
  pose proof (place_rounds _ _ _ _ _ Hp). unfold owes. destruct (cu_buf c); [|lia]. destruct (it_done _); lia.
Qed.
(** ** Standing on a record *)
(** The entries from the first one that is not below the target. *)
Fixpoint skip_to (target : bytes) (l : list (bytes * bytes)) : list (bytes * bytes) :=
  match l with kv :: r => if bytes_ltb kv.1 target then skip_to target r else l | [] => [] end.
Lemma skip_to_below target l r : Forall (λ kv, bytes_ltb kv.1 target = true) l → skip_to target (l ++ r) = skip_to target r.
Proof using. induction 1 as [|kv l Hkv _ IH]; [done|]. cbn. by rewrite Hkv. Qed.
Lemma skip_to_here target kv r : bytes_ltb kv.1 target = false → skip_to target (kv :: r) = kv :: r.
Proof using. intros H. cbn. by rewrite H. Qed.
Lemma skip_to_empty l : skip_to [] l = l.
Proof using. destruct l as [|kv l]; [done|]. apply skip_to_here. by destruct kv as [[|? ?] ?]. Qed.
Lemma skip_buf_ok s target buf buffered : Forall2 (item_ok s) buf buffered →
  Forall2 (item_ok s) (skip_buf target buf) (skip_to target buffered) ∧
  ∀ rest, skip_to target (buffered ++ rest) = match skip_buf target buf with [] => skip_to target rest | _ :: _ => skip_to target buffered ++ rest end.
Proof using.
  induction 1 as [|[[k v] m] kv buf buffered [Hk Hv] Hf [IH1 IH2]]; [by split|]. cbn [fst snd] in *. subst k. cbn [skip_buf skip_to app].
  destruct (bytes_ltb kv.1 target); [by split|]. split; [by constructor|done].
Qed.
(** The cursor, what it shows, and where a step leaves it. *)
Definition standing s t c (l : list (bytes * bytes)) : Prop :=
  stands s t c l ∧ current_ref c s = (s, Some (Ok (head l))) ∧ stands s t (step c) (tail l).
Lemma standing_buf s t c k v buf l rest m : cu_buf c = (k, v, false) :: buf → Forall2 (item_ok s) (cu_buf c) l → place s t c rest m → standing s t c (l ++ rest).
Proof using.
  intros Hb Hf Hp. pose proof Hf as Hf'. rewrite Hb in Hf. destruct l as [|[k' v'] l]; [by apply Forall2_length in Hf|].
  apply Forall2_cons in Hf as [[Hk Hv] Hf]. cbn [fst snd] in *. subst k' v'.
  split; [by exists ((k, v) :: l), rest, m|]. unfold current_ref, step. rewrite Hb. split; [done|]. by exists l, rest, m.
Qed.
Lemma standing_end s t c : cu_buf c = [] → it_done (cu_it c) = true → it_max_leaves (cu_it c) = page_count (pool s) → standing s t c [].
Proof using.
  intros Hb Hd Hm. assert (∀ c, cu_buf c = [] → it_done (cu_it c) = true → it_max_leaves (cu_it c) = page_count (pool s) → stands s t c []) as Hst.
  { intros c' Hb' Hd' Hm'. apply (stands_nil _ _ _ _ 0%nat); [done|]. split; [done|]. by rewrite Hd'. }
  split; [by apply Hst|]. unfold current_ref, step. rewrite Hb, Hd. split; [done|]. by apply Hst.
Qed.
Lemma standing_leaf s t c ctx no next cs (i : nat) leaves b x : view s t → t = plug ctx (TLeaf no next cs) → cu_buf c = [] →
  cu_it c = mkIter no (Z.of_nat i) false (path_of ctx) leaves (page_count (pool s)) → 1 ≤ leaves → leaves + Z.of_nat (length (leaves_after ctx)) ≤ page_count (pool s) →
  cu_pin c = Some b → leaf_bytes s no next cs b → cu_entries c = Z.of_nat (length cs) → cu_markers c = has_marker cs →
  cs !! i = Some x → (cell_value x).2 = false → standing s t c (entries (drop i cs ++ after ctx)).
Proof using HL HPL.
  intros Hv Ht Hb Hit Hl1 Hl2 Hpin Hlb Hce Hcm Hx Hf. pose proof (lookup_lt_Some _ _ _ Hx). split; [|split].
  - apply (stands_nil _ _ _ _ (length (leaves_after ctx))); [done|]. split; [by rewrite Hit|]. rewrite Hit. cbn [it_done]. rewrite Hpin.
    exists ctx, no, next, cs, i, leaves. split; [done|]. split; [done|]. split; [lia|]. split; [done|]. split; [done|]. split; [done|]. by split.
  - unfold current_ref. rewrite Hb, Hit, Hpin. cbn [it_done it_page it_idx]. destruct Hlb as (_ & _ & _ & _ & Hrv & Hne & _ & Hsl). destruct (Hsl i x Hx) as [Hs1 Hs2].
    erewrite bind_ok by (unfold lift; by rewrite Hrv). rewrite Hne, (proj2 (Z.leb_gt _ _)) by lia.
    erewrite bind_ok by (unfold sure; rewrite Hs1; done). erewrite bind_ok by (unfold sure; rewrite Hs2; done). unfold waiting. cbn beta iota.
    rewrite Ht in Hv. pose proof (cell_item _ _ _ _ _ _ _ Hv Hx) as [_ Hval]. cbn [waiting fst snd] in Hval. rewrite Hf in Hval. rewrite Hval.
    by rewrite (drop_S _ _ _ Hx).
  - unfold step. rewrite Hb. apply (stands_nil _ _ _ _ (length (leaves_after ctx))); [done|]. rewrite Hit. split; [done|]. cbn [with_it cu_it it_done cu_pin].
    rewrite Hpin. exists ctx, no, next, cs, (S i), leaves. split; [done|]. split; [unfold at_idx; cbn [it_page it_idx it_path it_leaves it_max_leaves it_done]; f_equal; lia|]. split; [lia|]. split; [done|]. split; [done|]. split; [done|].
    split; [by rewrite (drop_S _ _ _ Hx)|by split].
Qed.

(** ** Positioning *)
Lemma leaf_sorted s ctx no next cs : view s (plug ctx (TLeaf no next cs)) → sorted (c_key <$> cs) ∧ Forall (cell_ok (pool s)) cs.
Proof using.
  intros Hv. pose proof (proj1 (ord_plug _ _ _ _) (view_ord _ _ Hv)) as [_ [Hs _]]. split; [done|].
  pose proof (proj2 (proj1 (holds_plug _ _ _) (view_holds _ _ Hv))) as [_ Hcs]. done.
Qed.
Definition seek (b : bytes) (target : bytes) (idx : Z) : M P Z :=
  if negb (bool_decide (target = [])) && (idx <? nentries b) then
    let+ rec := sure (slot b idx) in
    let+ (key0, _, _) := sure (validated_leaf rec) in
    if bytes_ltb key0 target then let+ i := sure (lower_bound b target) in ret (Z.max i idx) else ret idx
  else ret idx.
Lemma seek_ok s ctx no next cs b target (idx : nat) : view s (plug ctx (TLeaf no next cs)) → leaf_bytes s no next cs b → (idx ≤ length cs)%nat →
  ∃ j : nat, (idx ≤ j ≤ length cs)%nat ∧ seek b target (Z.of_nat idx) s = (s, Some (Ok (Z.of_nat j))) ∧
    ∀ r, skip_to target (entries (drop idx cs) ++ r) = if bool_decide (j = length cs) then skip_to target r else entries (drop j cs) ++ r.
Proof using HL HPL.
  intros Hv Hb Hidx. destruct (leaf_sorted _ _ _ _ _ Hv) as [Hs Hcs]. destruct Hb as (_ & Hn & _ & _ & _ & Hne & _ & Hsl). unfold seek. rewrite Hne.
  assert (∀ j, (j ≤ length cs)%nat → (∀ x, cs !! j = Some x → bytes_ltb (c_key x) target = false) → ∀ r,
    skip_to target (entries (drop j cs) ++ r) = if bool_decide (j = length cs) then skip_to target r else entries (drop j cs) ++ r) as Hhere.
  { intros j Hj Hx r. destruct (cs !! j) as [x|] eqn:Ex.
    - pose proof (lookup_lt_Some _ _ _ Ex). rewrite bool_decide_false by lia. rewrite (drop_S _ _ _ Ex). unfold entries. csimpl. by rewrite (Hx x eq_refl).
    - apply lookup_ge_None in Ex. rewrite bool_decide_true by lia. by rewrite drop_ge. }
  assert (∀ x, cs !! idx = Some x → bytes_ltb (c_key x) target = false → (∀ r,
    skip_to target (entries (drop idx cs) ++ r) = if bool_decide (idx = length cs) then skip_to target r else entries (drop idx cs) ++ r)) as Hstay.
  { intros x Hx Hlt. apply Hhere; [done|]. intros y Hy. congruence. }
  destruct (bool_decide (target = [])) eqn:Et; cbn [negb andb].
  { apply bool_decide_eq_true in Et as ->. exists idx. split; [lia|]. split; [done|]. apply Hhere; [done|]. intros x _. by destruct (c_key x). }
  destruct (Z.ltb_spec (Z.of_nat idx) (Z.of_nat (length cs))) as [Hlt|Hge].
  2: { exists idx. split; [lia|]. split; [done|]. apply Hhere; [done|]. intros x Hx. apply lookup_lt_Some in Hx. lia. }
  destruct (lookup_lt_is_Some_2 cs idx ltac:(lia)) as [x Hx]. destruct (Hsl idx x Hx) as [Hs1 Hs2].
  erewrite bind_ok by (unfold sure; rewrite Hs1; done). erewrite bind_ok by (unfold sure; rewrite Hs2; done). unfold waiting. cbn beta iota.
  destruct (bytes_ltb (c_key x) target) eqn:El.
  2: { exists idx. split; [lia|]. split; [done|]. by apply (Hstay x). }
  destruct (lower_position b no next cs target (pool s) Hn Hcs Hs) as (lb & Hlb & (Hl1 & Hl2 & Hl3) & _). rewrite length_fmap in Hl1.
  exists (lb `max` idx)%nat. split; [lia|]. erewrite bind_ok by (unfold sure; rewrite Hlb; done). split; [unfold ret; do 3 f_equal; lia|].
  intros r. rewrite <-(take_drop (lb - idx) (drop idx cs)), entries_app, <-app_assoc, skip_to_below.
  - rewrite drop_drop. replace (idx + (lb - idx))%nat with (lb `max` idx)%nat by lia. apply Hhere; [lia|]. intros y Hy.
    assert (lb ≤ lb `max` idx)%nat as Hle by lia. apply (Forall_lookup_1 (λ k, bytes_ltb k target = false) (drop lb (c_key <$> cs)) (lb `max` idx - lb)%nat); [done|].
    rewrite lookup_drop, list_lookup_fmap. by replace (lb + (lb `max` idx - lb))%nat with (lb `max` idx)%nat by lia; rewrite Hy.
  - apply Forall_fmap, Forall_lookup_2. intros i y Hy. cbn. apply lookup_take_Some in Hy as [Hy Hi]. rewrite lookup_drop in Hy.
    apply (Forall_lookup_1 (λ k, bytes_ltb k target = true) (take lb (c_key <$> cs)) (idx + i)%nat); [done|].
    rewrite lookup_take_lt by lia. by rewrite list_lookup_fmap, Hy.
Qed.
Lemma position_loop_ok s t target : view s t → ∀ fuel c rest m, cu_buf c = [] → place s t c rest m →
  ((if it_done (cu_it c) then 1 else m + 2) ≤ fuel)%nat →
  ∃ c', position_loop tid fuel target c s = (s, Some (Ok c')) ∧ standing s t c' (skip_to target rest).
Proof using HL HPL.
  intros Hv fuel. induction fuel as [|fuel IH]; intros c rest m Hb Hp Hf; [destruct (it_done _); lia|]. cbn [position_loop]. pose proof Hp as [Hmax Hpl].
  destruct (it_done (cu_it c)) eqn:Ed.
  { destruct Hpl as [-> _]. exists (with_pin None c). split; [done|]. by apply standing_end. }
  destruct Hpl as (ctx & no & next & cs & idx & leaves & Ht & Hit & Hidx & Hm & Hl1 & Hl2 & Hrest & Hpin).
  pose proof Hv as Hvl. rewrite Ht in Hvl.
  assert (∃ c1 b, (match cu_pin c with Some _ => ret c | None =>
      let+ b := open_cached (it_page (cu_it c)) in let+ markers := sure (leaf_has_marker b) in ret (pinned b markers c) end) s = (s, Some (Ok c1)) ∧
    cu_pin c1 = Some b ∧ leaf_bytes s no next cs b ∧ cu_entries c1 = Z.of_nat (length cs) ∧ cu_markers c1 = has_marker cs ∧ cu_it c1 = cu_it c ∧ cu_buf c1 = [])
    as (c1 & b & Hc1 & Hpin1 & Hlb & Hce & Hcm & Hit1 & Hb1).
  { destruct (cu_pin c) as [b|] eqn:Epin; [exists c, b; destruct Hpin as (H1 & H2 & H3); exact (conj eq_refl (conj Epin (conj H1 (conj H2 (conj H3 (conj eq_refl Hb))))))|].
    destruct (leaf_view _ _ _ _ _ Hvl) as (b & Hlb). exists (pinned b (has_marker cs) c), b. pose proof Hlb as (_ & _ & _ & Hop & _ & Hne & Hmk & _).
    rewrite Hit. cbn [it_page]. erewrite bind_ok by exact Hop. erewrite bind_ok by (unfold sure; rewrite Hmk; done).
    exact (conj eq_refl (conj eq_refl (conj Hlb (conj Hne (conj eq_refl (conj Hit Hb)))))). }
  erewrite bind_ok by exact Hc1. cbn beta iota. rewrite Hit1, Hit, Hpin1. cbn [it_page it_idx]. erewrite bind_ok by done.
  pose proof Hlb as (_ & Hn & Hoc & _ & _ & Hne & _ & Hsl). erewrite bind_ok by (unfold lift; by rewrite Hoc). rewrite (node_tree _ _ _ _ _ _ Hn), Z.eqb_refl. cbn [negb].
  destruct (seek_ok s ctx no next cs b target idx Hvl Hlb Hidx) as (j & Hj & Hseek & Hskip).
  erewrite bind_ok by exact Hseek. rewrite Hne, Hrest, entries_app, Hskip.
  destruct (Z.ltb_spec (Z.of_nat j) (Z.of_nat (length cs))) as [Hlt|Hge].
  - rewrite bool_decide_false by lia. destruct (lookup_lt_is_Some_2 cs j ltac:(lia)) as [x Hx]. destruct (Hsl j x Hx) as [Hs1 Hs2].
    erewrite bind_ok by (unfold sure; rewrite Hs1; done). erewrite bind_ok by (unfold sure; rewrite Hs2; done). unfold waiting. cbn beta iota.
    rewrite <-entries_app. destruct (cell_value x).2 eqn:Ef.
    + pose proof (cell_item _ _ _ _ _ _ _ Hvl Hx) as [_ Hval]. cbn [waiting fst snd] in Hval. rewrite Ef in Hval. erewrite bind_ok by exact Hval.
      eexists. split; [done|]. rewrite (drop_S _ _ _ Hx). change (entries ((x :: drop (S j) cs) ++ after ctx)) with ([(c_key x, c_val x)] ++ entries (drop (S j) cs ++ after ctx)).
      eapply (standing_buf _ _ _ _ _ (cu_buf c1) _ _ m); [done| |].
      * cbn [with_buf with_pin with_it cu_buf]. rewrite Hb1. by repeat constructor.
      * split; [done|]. cbn [with_buf with_pin with_it cu_it it_done cu_pin]. exists ctx, no, next, cs, (S j), leaves.
        split; [done|]. split; [unfold at_idx; cbn [it_page it_idx it_path it_leaves it_max_leaves it_done]; f_equal; lia|]. split; [lia|]. by split_and!.
    + eexists. split; [done|]. eapply (standing_leaf _ _ _ ctx no next cs j leaves b x); try done; lia.
  - rewrite bool_decide_true by lia.
    destruct (onward_ok s t (with_pin None c1) ctx no next cs (Z.of_nat idx) leaves Hv Ht) as [[Ha Had]|(c3 & m3 & Had & Hp3 & Hm3 & Hb3 & Hd3)]; [cbn [with_pin cu_it]; by rewrite Hit1, Hit|done|lia| |].
    + erewrite bind_ok by exact Had. rewrite Ha. cbn beta iota. apply (IH _ [] 0%nat); [done|apply place_finished; cbn [with_pin cu_it]; by rewrite Hit1|]. cbn. lia.
    + erewrite bind_ok by exact Had. cbn beta iota. apply (IH c3 _ m3); [by rewrite Hb3|done|]. rewrite Hd3. lia.
Qed.
Lemma cursor_position_ok s t target c l : view s t → stands s t c l →
  ∃ c', position_at_or_after tid target c s = (s, Some (Ok c')) ∧ standing s t c' (skip_to target l).
Proof using HL HPL.
  intros Hv (buffered & rest & m & Hf & -> & Hp). unfold position_at_or_after. cbn [with_buf cu_buf with_seeks].
  destruct (skip_buf_ok s target _ _ Hf) as [Hf' ->]. set (c1 := with_buf (skip_buf target (cu_buf c)) (with_seeks (cu_seeks c + 1) c)).
  assert (place s t c1 rest m) as Hp1 by exact Hp. assert (cu_buf c1 = skip_buf target (cu_buf c)) as Hb1 by done. rewrite <-Hb1 in *.
  destruct (cu_buf c1) as [|[[k v] [|]] buf] eqn:Eb.
  - apply (position_loop_ok s t target Hv _ _ _ m); [done|done|]. pose proof (place_rounds _ _ _ _ _ Hp1). destruct (it_done _); lia.
  - pose proof (Forall2_length _ _ _ Hf') as Hlen. destruct (skip_to target buffered) as [|kv l]; [done|]. apply Forall2_cons in Hf' as [[Hk Hval] Hf']. cbn [fst snd] in *.
    erewrite bind_ok by exact Hval. eexists. split; [done|]. eapply (standing_buf _ _ _ _ _ buf _ _ m); [done| |exact Hp1]. constructor; [by split|done].
  - exists c1. split; [done|]. eapply (standing_buf _ _ _ k v buf _ _ m); [done|by rewrite Eb|exact Hp1].
Qed.
Lemma peek_at_ok s t target c l : view s t → stands s t c l →
  ∃ c', peek_at_or_after tid target c s = (s, Some (Ok (head (skip_to target l), c'))) ∧ standing s t c' (skip_to target l).
Proof using HL HPL.
  intros Hv Hst. destruct (cursor_position_ok s t target c l Hv Hst) as (c' & Hpos & Hsd). exists c'. split; [|done]. unfold peek_at_or_after.
  erewrite bind_ok by exact Hpos. by erewrite bind_ok by apply Hsd.
Qed.
Lemma no_marker cs i x : has_marker cs = false → cs !! i = Some x → (cell_value x).2 = false.
Proof using.
  intros Hm Hx. destruct (cell_value x).2 eqn:E; [|done]. assert (has_marker cs = true); [|congruence].
  apply existsb_exists. exists x. split; [|done]. apply list_elem_of_In. by eapply list_elem_of_lookup_2.
Qed.
Lemma peek_ok s t c l : view s t → stands s t c l → ∃ c', peek_ref tid c s = (s, Some (Ok (head l, c'))) ∧ standing s t c' l.
Proof using HL HPL.
  intros Hv Hst. unfold peek_ref. destruct (parked c) eqn:E.
  - exists c. assert (standing s t c l) as Hsd; [|split; [|done]; erewrite bind_ok by done; by erewrite bind_ok by apply Hsd].
    unfold parked in E. rewrite !andb_true_iff, !negb_true_iff in E. destruct E as ((((Eb%bool_decide_eq_true & Ed) & Ep%bool_decide_eq_true) & Em) & Ei%Z.ltb_lt).
    destruct Hst as (buffered & rest & m & Hf & -> & [Hmax Hpl]). rewrite Eb in Hf. apply Forall2_nil_inv_l in Hf as ->. cbn [app]. rewrite Ed in Hpl.
    destruct Hpl as (ctx & no & next & cs & idx & leaves & Ht & Hit & Hidx & Hm & Hl1 & Hl2 & -> & Hpin). destruct Ep as [b Epin]. rewrite Epin in Hpin.
    destruct Hpin as (Hlb & Hce & Hcm). rewrite Hit, Hce in Ei. cbn [it_idx] in Ei. rewrite Hcm in Em.
    destruct (lookup_lt_is_Some_2 cs idx ltac:(lia)) as [x Hx]. eapply (standing_leaf _ _ _ ctx no next cs idx leaves b x); try done; [lia|by eapply no_marker].
  - destruct (cursor_position_ok s t [] c l Hv Hst) as (c' & Hpos & Hsd). rewrite skip_to_empty in Hsd. exists c'. split; [|done].
    erewrite bind_ok by exact Hpos. by erewrite bind_ok by apply Hsd.
Qed.
Lemma open_range_ok s t from : view s t → ∃ c, open_range tid from s = (s, Some (Ok c)) ∧ stands s t c (from_key from (entries (cells t))).
Proof using HL HPL.
  intros Hv. destruct (range_ok s t from Hv) as (ctx & no & next & cs & i & Hr & Ht & Hi & -> & Hl). eexists. split; [unfold open_range; by erewrite bind_ok by exact Hr|].
  apply (stands_nil _ _ _ _ (length (leaves_after ctx))); [done|]. split; [done|]. exists ctx, no, next, cs, i, 1. by split_and!.
Qed.

(** ** By callback, from where it stands *)
Lemma items_visited {S} (f : S → bytes → bytes → S * bool) s buf l : Forall2 (item_ok s) buf l → ∀ acc,
  visit_deferred f buf acc s = (s, Some (Ok (fold_while f acc l))).
Proof using.
  induction 1 as [|[[k v] flag] [k' v'] buf l [Hk Hv] Hf IH]; intros acc; [done|]. cbn [fst snd] in *. subst k'. cbn [visit_deferred fold_while].
  assert ((if flag then read_overflow v else ret v) s = (s, Some (Ok v'))) as Hr by (destruct flag; [done|by rewrite Hv]).
  erewrite bind_ok by exact Hr. destruct (f acc k v') as [acc' []]; [apply IH|done].
Qed.
Lemma rest_loop_ok {S} (f : S → bytes → bytes → S * bool) s t : view s t → ∀ fuel c rest m acc, place s t c rest m → (m + 1 ≤ fuel)%nat →
  rest_loop tid f fuel c acc s = (s, Some (Ok (fold_while f acc rest).1)).
Proof using HL HPL.
  intros Hv fuel. induction fuel as [|fuel IH]; intros c rest m acc [Hm Hp] Hf; [lia|]. cbn [rest_loop]. destruct (it_done (cu_it c)) eqn:Ed; [by destruct Hp as [-> _]|].
  destruct Hp as (ctx & no & next & cs & idx & leaves & Ht & Hit & Hidx & -> & Hl1 & Hl2 & -> & Hpin). pose proof Hv as Hvl. rewrite Ht in Hvl.
  assert (∃ b, (match cu_pin c with Some b => ret b | None => get_page (it_page (cu_it c)) end) s = (s, Some (Ok b)) ∧ leaf_bytes s no next cs b) as (b & Hget & Hb).
  { destruct (cu_pin c) as [b|]; [exists b; split; [done|apply Hpin]|]. destruct (leaf_view _ _ _ _ _ Hvl) as (b & Hb). exists b. split; [|done]. rewrite Hit. unfold get_page. cbn [it_page]. by rewrite (proj1 Hb). }
  erewrite bind_ok by exact Hget. pose proof Hb as (_ & Hn & Hoc & _ & _ & Hne & _ & Hsl). rewrite Hit. cbn [it_page it_idx]. erewrite bind_ok by (unfold lift; by rewrite Hoc).
  rewrite (node_tree _ _ _ _ _ _ Hn), Z.eqb_refl, Hne. cbn [negb].
  pose proof (proj2 (leaf_sorted _ _ _ _ _ Hvl)) as Hcs.
  destruct (visit_slots_ok f b no next cs s Hn Hcs (drop idx cs) idx [] acc eq_refl) as (acc1 & go & d & Hvs & Hd).
  rewrite length_drop, Nat2Z.inj_sub in Hvs by done. erewrite bind_ok by exact Hvs. rewrite entries_app, fold_while_app. destruct go; cbn [negb]; [|by rewrite Hd].
  destruct Hd as (l1 & l2 & El & Ef & ->). rewrite El, entries_app, fold_while_app, Ef.
  assert (l2 = drop (idx + length l1) cs) as El2 by (by rewrite <-drop_drop, El, drop_app_length).
  erewrite bind_ok by (apply items_visited, (leaf_items s ctx no next cs Hvl _ _ El2)).
  destruct (fold_while f acc1 (entries l2)) as [acc2 []]; cbn [negb]; [|done].
  set (c1 := with_pin None (with_it _ c)).
  destruct (onward_ok s t c1 ctx no next cs (Z.max (Z.of_nat idx) (Z.of_nat (length cs))) leaves Hv Ht) as [[-> Had]|(c2 & m2 & Had & Hp2 & Hm2 & _)]; [done|done|lia| |].
  - by erewrite bind_ok by exact Had.
  - erewrite bind_ok by exact Had. cbn beta iota. apply (IH c2 _ m2); [done|lia].
Qed.
Lemma for_each_rest_ok {S} (f : S → bytes → bytes → S * bool) s t c l acc : view s t → stands s t c l →
  for_each_rest tid f c acc s = (s, Some (Ok (fold_while f acc l).1)).
Proof using HL HPL.
  intros Hv (buffered & rest & m & Hf & -> & Hp). unfold for_each_rest. erewrite bind_ok by (by apply items_visited). rewrite fold_while_app.
  destruct (fold_while f acc buffered) as [acc' []]; [|done]. cbn [negb]. pose proof (place_rounds _ _ _ _ _ Hp). by apply (rest_loop_ok f s t Hv _ _ _ m); [|lia].
Qed.

(** ** Sessions *)
(** What an executor does with a cursor, and the same on the list. *)
Inductive call := Next | Peek | PeekAt (target : bytes) | Step.
Fixpoint run_calls (calls : list call) (c : Cursor) : M P (list answer * Cursor) :=
  match calls with
  | [] => ret ([], c)
  | Next :: calls => let+ (a, c) := next tid c in let+ (l, c) := run_calls calls c in ret (a :: l, c)
  | Peek :: calls => let+ (r, c) := peek_ref tid c in let+ (l, c) := run_calls calls c in ret ((Ok <$> r) :: l, c)
  | PeekAt target :: calls => let+ (r, c) := peek_at_or_after tid target c in let+ (l, c) := run_calls calls c in ret ((Ok <$> r) :: l, c)
  | Step :: calls => run_calls calls (step c)
  end.
Fixpoint list_calls (calls : list call) (l : list (bytes * bytes)) : list answer :=
  match calls with
  | [] => []
  | Next :: calls => (Ok <$> head l) :: list_calls calls (tail l)
  | Peek :: calls => (Ok <$> head l) :: list_calls calls l
  | PeekAt target :: calls => let l := skip_to target l in (Ok <$> head l) :: list_calls calls l
  | Step :: calls => list_calls calls (tail l)
  end.
(** The entries left behind them. *)
Fixpoint list_left (calls : list call) (l : list (bytes * bytes)) : list (bytes * bytes) :=
  match calls with
  | [] => l
  | (Next | Step) :: calls => list_left calls (tail l)
  | Peek :: calls => list_left calls l
  | PeekAt target :: calls => list_left calls (skip_to target l)
  end.
(** A step goes past what the call before it has shown. *)
Fixpoint in_turn (shown : bool) (calls : list call) : bool :=
  match calls with
  | [] => true
  | Next :: calls => in_turn false calls
  | Step :: calls => shown && in_turn false calls
  | _ :: calls => in_turn true calls
  end.
Lemma run_calls_ok s t calls : view s t → ∀ c l (shown : bool), (if shown then standing s t c l else stands s t c l) → in_turn shown calls = true →
  ∃ c', run_calls calls c s = (s, Some (Ok (list_calls calls l, c'))) ∧ stands s t c' (list_left calls l).
Proof using HL HPL.
  intros Hv. induction calls as [|a calls IH]; intros c l shown Hst Hin; (assert (stands s t c l) as Hs by (destruct shown; [apply Hst|done])); [by exists c|].
  destruct a as [| |target|]; cbn [run_calls list_calls list_left in_turn] in *.
  - destruct (next_ok s t c l Hv Hs) as (c1 & Hn & Hs1). destruct (IH c1 (tail l) false Hs1 Hin) as (c2 & Hr & Hs2). exists c2.
    erewrite bind_ok by exact Hn. cbn beta iota. by erewrite bind_ok by exact Hr.
  - destruct (peek_ok s t c l Hv Hs) as (c1 & Hn & Hs1). destruct (IH c1 l true Hs1 Hin) as (c2 & Hr & Hs2). exists c2.
    erewrite bind_ok by exact Hn. cbn beta iota. by erewrite bind_ok by exact Hr.
  - destruct (peek_at_ok s t target c l Hv Hs) as (c1 & Hn & Hs1). destruct (IH c1 (skip_to target l) true Hs1 Hin) as (c2 & Hr & Hs2). exists c2.
    erewrite bind_ok by exact Hn. cbn beta iota. by erewrite bind_ok by exact Hr.
  - apply andb_true_iff in Hin as [-> Hin]. apply (IH (step c) (tail l) false); [apply Hst|done].
Qed.
Lemma session_ok {S} (f : S → bytes → bytes → S * bool) s t from calls acc : view s t → in_turn false calls = true →
  let l := from_key from (entries (cells t)) in
  (let+ c := open_range tid from in let+ (answers, c) := run_calls calls c in let+ acc := for_each_rest tid f c acc in ret (answers, acc)) s =
    (s, Some (Ok (list_calls calls l, (fold_while f acc (list_left calls l)).1))).
Proof using HL HPL.
  intros Hv Hin l. destruct (open_range_ok s t from Hv) as (c & Ho & Hst). destruct (run_calls_ok s t calls Hv c l false Hst Hin) as (c' & Hr & Hst').
  erewrite bind_ok by exact Ho. erewrite bind_ok by exact Hr. cbn beta iota. by erewrite bind_ok by (by eapply for_each_rest_ok).
Qed.
End cursor.
End TreeCursor.
