(* ===== verification/TreeReverse.v ===== *)
(** * Descending ranges over a tree ([Reverse.v])

    A descending cursor stands for the list of entries still to come, last first:
    the spilled one it has read, then those of its leaf below its slot, then those
    of the leaves to the left. *)
From S2P Require Import Prelude Crc Page Cells Order Node Pool Tree BTree Cursor Reverse TreeRep TreeRead TreeCursor.
Import Page Cells Order Node Tree BTree Cursor Reverse TreeRep TreeRead TreeCursor.

Module TreeReverse.

Section reverse.
Context `{HC : Crc32c} `{HL : !Crc32cLaws} {P : Type} `{HP : PagePool P} `{HPL : !PagePoolLaws P}.
Context {tid : TreeId}.
Implicit Types (p : P) (s : BTree P) (t : tree) (it : ReverseRangeIter).

(** ** To the left *)
Lemma frame_small p f h : frame_holds p f h → Z.of_nat (length (f_l f) + length (f_r f)) ≤ u64_max.
Proof using.
  intros (Hpage & _). destruct (interior_view _ _ _ _ Hpage) as (h0 & ns & b & E & _ & Hn & _ & Hl).
  pose proof (inv_rep _ _ (node_inv _ _ _ _ _ _ Hn)) as Hrep. pose proof (rep_dir _ _ Hrep) as Hd. pose proof (rep_free _ _ Hrep).
  unfold blen in Hd. rewrite length_zip_with, Hl, length_app, !length_fmap in Hd.
  unfold slot_base, HEADER_LEN, SLOT_LEN, PAGE_SIZE, u64_max in *. lia.
Qed.
Lemma snoc_case {A} (l : list A) : l = [] ∨ ∃ l' x, l = l' ++ [x].
Proof using. induction l as [|x l _] using rev_ind; [by left|right; by exists l, x]. Qed.
Lemma climb_left_ok ctx :
  (Forall (λ f, f_l f = []) ctx ∧ climb_left (path_of ctx) = None) ∨
  (∃ c1 f l u k ctx', ctx = c1 ++ f :: ctx' ∧ Forall (λ f, f_l f = []) c1 ∧ f_l f = l ++ [(u, k)] ∧
     climb_left (path_of ctx) = Some (f_no f, Z.of_nat (length l), path_of ctx')).
Proof using.
  induction ctx as [|f ctx IH]; [by left|]. rewrite path_of_cons. cbn [climb_left].
  destruct (snoc_case (f_l f)) as [El|(l & [u k] & El)]; rewrite El.
  - cbn [length]. destruct IH as [[Hall E]|(c1 & g & l & u & k & ctx' & -> & Hall & Eg & E)].
    + left. split; [by constructor|done].
    + right. exists (f :: c1), g, l, u, k, ctx'. split_and!; [done|by constructor|done|done].
  - right. exists [], f, l, u, k, ctx. rewrite length_app, (proj2 (Z.ltb_lt _ _)) by (cbn; lia). split_and!; [done|constructor|done|].
    cbn [length]. do 3 f_equal. lia.
Qed.
Lemma right_spine_ok s ctx : ∀ fuel l path,
  is_leaf l → holds (pool s) (plug ctx l) → in_range (pool s) (owned (plug ctx l)) →
  Forall (λ f, f_r f = []) ctx → (length ctx < fuel)%nat →
  ∃ b, get (pool s) (no_of l) = Ok b ∧
    right_spine tid fuel (no_of (plug ctx l)) u64_max path s = (s, Some (Ok (no_of l, nentries b, path_of ctx ++ path))).
Proof using.
  induction ctx as [|f ctx IH] using rev_ind; intros fuel l path Hlf Hh Hr Hall Hf.
  - destruct l as [no next cs|]; [|done]. destruct Hh as [Hpage _]. destruct fuel; [cbn in Hf; lia|].
    destruct (open_cached_ok (pool s) no Leaf next (c_rec <$> cs) s eq_refl Hpage) as (b & Hg & Hn & Hop). exists b. split; [done|].
    cbn [plug no_of right_spine]. erewrite bind_ok by exact Hop.
    rewrite (node_tree _ _ _ _ _ _ Hn), Z.eqb_refl, bool_decide_true by apply Hn. done.
  - rewrite plug_app in Hh, Hr |- *. cbn [plug] in Hh, Hr |- *.
    apply Forall_app in Hall as [Hall [Hfr _]%Forall_cons].
    apply holds_plug1 in Hh as [Hf1 Hh]. apply range_plug1 in Hr as Hr'.
    destruct fuel; [cbn in Hf; lia|]. rewrite length_app in Hf. cbn [length] in Hf.
    assert (2 ≤ no_of (plug ctx l) < page_count (pool s)) as Hno.
    { unfold in_range in Hr'. rewrite Forall_forall in Hr'. apply Hr', no_in_owned. }
    pose proof (frame_small _ _ _ Hf1) as Hsm. destruct (frame_open s f _ Hf1) as (b & Hop & Ht & Hkd & Hne & Hch).
    cbn [right_spine no_of plug1]. erewrite bind_ok by exact Hop. rewrite Ht, Z.eqb_refl.
    rewrite bool_decide_false by (rewrite Hkd; done). cbn [negb]. rewrite Hne, Hfr in *. cbn [length] in *.
    replace (if Z.of_nat (length (f_l f) + 0) <? u64_max then Z.of_nat (length (f_l f) + 0) else u64_max) with (Z.of_nat (length (f_l f)))
      by (destruct (Z.ltb_spec (Z.of_nat (length (f_l f) + 0)) u64_max); lia).
    erewrite bind_ok by done. specialize (Hch (length (f_l f)) (no_of (plug ctx l))). cbn beta iota in Hch.
    erewrite bind_ok.
    2: { unfold lift. rewrite Hch; [done| |done]. by rewrite lookup_app_r, !length_fmap, Nat.sub_diag by (rewrite !length_fmap; lia). }
    destruct (IH fuel l ((f_no f, Z.of_nat (length (f_l f))) :: path) Hlf Hh Hr' Hall ltac:(lia)) as (b' & Hg & Hs). exists b'. split; [done|].
    rewrite Hs. unfold path_of. by rewrite fmap_app, <-app_assoc.
Qed.
Lemma rightmost t : ∀ lo hi, ord lo hi t → ∃ ctx l, t = plug ctx l ∧ is_leaf l ∧ Forall (λ f, f_r f = []) ctx.
Proof using.
  induction t as [no next cs|no cs ks Hcs] using tree_nested_ind; intros lo hi Ho.
  - by exists [], (TLeaf no next cs).
  - change (ords hi lo cs ks) in Ho. pose proof (ords_length _ _ _ _ Ho) as Hl.
    destruct (split_children cs ks (length ks) Hl) as (l & u & r & -> & Ek & E); [lia|]. rewrite Ek in *.
    assert (r = []) as ->. { rewrite length_app, !length_fmap in E. destruct r; [done|cbn in E; lia]. }
    apply Forall_app in Hcs as [_ [Hu _]%Forall_cons].
    change (ord lo hi (plug1 (Frame no l []) u)) in Ho. apply ord_plug1 in Ho as [_ Ho].
    destruct (Hu _ _ Ho) as (ctx & lf & -> & Hlf & Hall). exists (ctx ++ [Frame no l []]), lf.
    rewrite plug_app. split_and!; [done|done|]. apply Forall_app. by repeat constructor.
Qed.
Lemma before_nil ctx : Forall (λ f, f_l f = []) ctx → before ctx = [] ∧ leaves_before ctx = [].
Proof using. induction 1 as [|f ctx Hf Hc [IH1 IH2]]; [done|]. cbn. by rewrite Hf, IH1, IH2. Qed.
Lemma before_app c1 c2 : before (c1 ++ c2) = before c2 ++ before c1 ∧ leaves_before (c1 ++ c2) = leaves_before c2 ++ leaves_before c1.
Proof using.
  induction c1 as [|f c1 [IH1 IH2]]; [by rewrite !app_nil_r|]. cbn [app before leaves_before]. by rewrite IH1, IH2, !app_assoc.
Qed.
Lemma cells_rightmost ctx l : Forall (λ f, f_r f = []) ctx →
  cells (plug ctx l) = before ctx ++ cells l ∧ leaf_nos (plug ctx l) = leaves_before ctx ++ leaf_nos l.
Proof using. intros Hall. rewrite cells_plug, leaf_nos_plug. destruct (after_nil _ Hall) as [-> ->]. by rewrite !app_nil_r. Qed.
(** The step to the leaf on the left, past its last record. *)
Lemma retreat_ok s t ctx l it : view s t → t = plug ctx l → rv_path it = path_of ctx →
  (leaves_before ctx = [] ∧ before ctx = [] ∧ ∃ it', retreat tid it s = (s, Some (Ok (false, it'))) ∧
     rv_max_leaves it' = rv_max_leaves it ∧ rv_pin it' = rv_pin it ∧ rv_pending it' = rv_pending it) ∨
  (∃ ctx2 no next cs, t = plug ctx2 (TLeaf no next cs) ∧ before ctx = before ctx2 ++ cs ∧ leaves_before ctx = leaves_before ctx2 ++ [no] ∧
     (rv_leaves it + 1 ≤ rv_max_leaves it →
      retreat tid it s = (s, Some (Ok (true, mkReverse no (Z.of_nat (length cs)) (rv_done it) (path_of ctx2) (rv_leaves it + 1) (rv_max_leaves it) (rv_pin it) (rv_pending it)))))).
Proof using HPL.
  intros Hi -> Hp. unfold retreat. rewrite Hp.
  destruct (climb_left_ok ctx) as [[Hall ->]|(c1 & f & lf & u & k & ctx' & -> & Hall & El & ->)].
  - left. destruct (before_nil _ Hall) as [-> ->]. split; [done|]. split; [done|]. by eexists.
  - right. set (f2 := Frame (f_no f) lf ((k, plug c1 l) :: f_r f)).
    assert (plug (c1 ++ f :: ctx') l = plug (f2 :: ctx') u) as Et.
    { rewrite plug_app. cbn [plug]. f_equal. unfold plug1, f2. cbn [f_no f_l f_r]. rewrite El, !fmap_app. csimpl. by rewrite <-!app_assoc. }
    rewrite Et in Hi |- *. pose proof (proj1 (ord_plug _ _ _ _) (view_ord _ _ Hi)) as [_ Hou].
    destruct (rightmost u _ _ Hou) as (c2 & l2 & -> & Hl2 & Hright). destruct l2 as [no next cs|]; [|done].
    exists (c2 ++ f2 :: ctx'), no, next, cs. destruct (cells_rightmost c2 (TLeaf no next cs) Hright) as [Ec Eln].
    destruct (before_app c1 (f :: ctx')) as [-> ->]. destruct (before_nil c1 Hall) as [-> ->].
    destruct (before_app c2 (f2 :: ctx')) as [-> ->]. cbn [before leaves_before]. rewrite El. unfold f2. cbn [f_l]. rewrite fmap_app.
    unfold child_cells. rewrite !flat_map_app. csimpl. cbn [flat_map]. rewrite Ec, Eln. split; [by rewrite plug_app|].
    split; [by rewrite !app_nil_r, <-!app_assoc|]. split; [by rewrite !app_nil_r, <-!app_assoc|]. cbn [cells leaf_nos] in *.
    intros Hmax. erewrite bind_ok by apply levels_ok.
    change (plug (f2 :: ctx') (plug c2 (TLeaf no next cs))) with (plug ctx' (plug1 f2 (plug c2 (TLeaf no next cs)))) in Hi.
    pose proof (path_fuel s (c2 ++ f2 :: ctx') (TLeaf no next cs)) as Hfuel. rewrite plug_app in Hfuel. specialize (Hfuel Hi).
    rewrite length_app in Hfuel. cbn [length] in Hfuel.
    pose proof (proj1 (holds_plug _ _ _) (view_holds _ _ Hi)) as [_ [Hf2 Hh2]%holds_plug1].
    assert (in_range (pool s) (owned (plug c2 (TLeaf no next cs)))) as Hr.
    { eapply range_plug1. pose proof (view_range _ _ Hi) as Hr. unfold in_range in *. rewrite owned_plug in Hr. apply Forall_app in Hr as [_ Hr]. exact Hr. }
    assert (2 ≤ no_of (plug c2 (TLeaf no next cs)) < page_count (pool s)) as Hno by (unfold in_range in Hr; rewrite Forall_forall in Hr; apply Hr, no_in_owned).
    pose proof (frame_small _ _ _ Hf2) as Hsm. destruct (frame_open s f2 _ Hf2) as (b & Hop & Ht & Hkd & Hne & Hch). unfold f2 in Hne, Hch, Hsm, Hop. cbn [f_no f_l f_r length] in *.
    pose proof (proj1 (holds_plug _ _ _) Hh2) as [_ [(b2 & Hg2 & Hn2) _]].
    assert (right_spine tid (Z.to_nat (page_count (pool s))) (f_no f) (Z.of_nat (length lf)) (path_of ctx') s =
      (s, Some (Ok (no, Z.of_nat (length cs), path_of (c2 ++ f2 :: ctx'))))) as Hsp.
    { destruct (Z.to_nat (page_count (pool s))) as [|fuel]; [lia|]. cbn [right_spine]. erewrite bind_ok by exact Hop.
      rewrite Ht, Z.eqb_refl, bool_decide_false by (rewrite Hkd; done). cbn [negb]. rewrite Hne, (proj2 (Z.ltb_ge _ _)) by lia.
      erewrite bind_ok by done. erewrite bind_ok.
      2: { unfold lift. rewrite (Hch (length lf) (no_of (plug c2 (TLeaf no next cs)))); [done| |done].
           by rewrite lookup_app_r, !length_fmap, Nat.sub_diag by (rewrite !length_fmap; lia). }
      destruct (right_spine_ok s c2 fuel (TLeaf no next cs) ((f_no f, Z.of_nat (length lf)) :: path_of ctx') I Hh2 Hr Hright ltac:(lia)) as (b' & Hg & Hsp).
      cbn [no_of] in Hg, Hsp. rewrite Hg in Hg2. injection Hg2 as ->.
      rewrite Hsp, (node_count _ _ _ _ _ _ Hn2), length_fmap, path_of_app, path_of_cons. done. }
    erewrite bind_ok by exact Hsp. cbn beta iota. by rewrite (proj2 (Z.ltb_ge _ _)) by lia.
Qed.

(** ** Where it opens *)
Definition below_key (to : bytes) (l : list (bytes * bytes)) : list (bytes * bytes) := List.filter (λ kv, bytes_ltb kv.1 to) l.
Lemma below_key_app to l1 l2 : below_key to (l1 ++ l2) = below_key to l1 ++ below_key to l2.
Proof using. apply List.filter_app. Qed.
Lemma below_key_all to l : Forall (λ c, c_key c ≺ to) l → below_key to (entries l) = entries l.
Proof using.
  induction 1 as [|c l Hc Hl IH]; [done|]. unfold below_key, entries in *. cbn. rewrite (proj2 (ltb_lt _ _) Hc). cbn. by rewrite IH.
Qed.
Lemma below_key_none to l : Forall (λ c, to ≼ c_key c) l → below_key to (entries l) = [].
Proof using.
  induction 1 as [|c l Hc Hl IH]; [done|]. unfold below_key, entries in *. cbn. by rewrite (proj2 (ltb_ge _ _) Hc).
Qed.
(** The entries a position has still to show, ascending. *)
Definition left_of (ctx : list frame) (cs : list cell) (idx : nat) : list (bytes * bytes) := entries (before ctx ++ take idx cs).
Definition leaves_bound s (leaves : Z) (m : nat) : Prop := leaves + Z.of_nat m ≤ page_count (pool s).
Lemma range_reverse_ok s t to : view s t → ∃ ctx no next cs (i : nat),
  range_reverse tid to s = (s, Some (Ok (mkReverse no (Z.of_nat i) false (path_of ctx) 1 (page_count (pool s)) None None))) ∧
  t = plug ctx (TLeaf no next cs) ∧ (i ≤ length cs)%nat ∧ below_key to (entries (cells t)) = left_of ctx cs i ∧
  leaves_bound s 1 (length (leaves_before ctx)).
Proof using HL HPL.
  intros Hi. destruct (descend_to_leaf s t to Hi) as (ctx & no & next & cs & b & Ht & Hw & Ho & Hs & Hcs & Hg & Hn & Hd).
  destruct (lower_position b no next cs to (pool s) Hn Hcs Hs) as (i & Hlb & (Hi' & Hct & Hcd) & Hne). rewrite length_fmap in Hi'.
  exists ctx, no, next, cs, i. split.
  { assert (descend_with_path tid to s = (s, Some (Ok (no, path_of ctx)))) as Hp.
    { unfold descend_with_path. erewrite bind_ok by reflexivity. erewrite bind_ok by apply levels_ok.
      erewrite bind_ok by exact (Hd []). by rewrite app_nil_r. }
    unfold range_reverse. erewrite bind_ok by exact Hp. cbn beta iota.
    destruct (open_cached_ok (pool s) no Leaf next (c_rec <$> cs) s eq_refl) as (b' & Hg' & _ & Hop); [by exists b|].
    rewrite Hg in Hg'. injection Hg' as <-. erewrite bind_ok by exact Hop. by erewrite bind_ok by (unfold sure; rewrite Hlb; done). }
  split; [done|]. split; [done|]. split.
  - destruct (hole_bounds _ _ _ _ Ho Hw) as (Hb & Ha & _). unfold left_of. rewrite Ht, cells_plug. cbn [cells].
    rewrite <-(take_drop i cs) at 1. rewrite !entries_app, !below_key_app.
    rewrite (below_key_all to (before ctx)), (below_key_all to (take i cs)), (below_key_none to (drop i cs)), (below_key_none to (after ctx)).
    + by rewrite !app_nil_r.
    + eapply Forall_impl; [exact Ha|]. cbn. intros. order.
    + rewrite <-fmap_drop, Forall_fmap in Hcd. eapply Forall_impl; [exact Hcd|]. intros c. apply ltb_ge.
    + rewrite <-fmap_take, Forall_fmap in Hct. eapply Forall_impl; [exact Hct|]. intros c. apply ltb_lt.
    + done.
  - unfold leaves_bound. pose proof (submseteq_length _ _ (leaf_nos_owned t)) as Hlen.
    pose proof (distinct_pages _ _ (view_nodup _ _ Hi) (view_range _ _ Hi)). rewrite Ht, leaf_nos_plug, !length_app in Hlen. cbn [leaf_nos length] in Hlen.
    rewrite Ht in H. lia.
Qed.

(** ** By callback *)
Lemma left_step ctx cs i x : cs !! i = Some x → left_of ctx cs (S i) = left_of ctx cs i ++ [(c_key x, c_val x)].
Proof using. intros Hx. unfold left_of. by rewrite (take_S_r _ _ _ Hx), app_assoc, entries_app. Qed.
Lemma open_leaf_ok s no next cs b : leaf_bytes (tid:=tid) s no next cs b → open_leaf tid no s = (s, Some (Ok b)).
Proof using.
  intros (_ & Hn & _ & Hop & _). unfold open_leaf. erewrite bind_ok by exact Hop. by rewrite (node_tree _ _ _ _ _ _ Hn), Z.eqb_refl.
Qed.
Section visit.
Context {S : Type} (f : S → bytes → bytes → S * bool).
Lemma visit_down_ok s ctx no next cs b : view s (plug ctx (TLeaf no next cs)) → leaf_bytes (tid:=tid) s no next cs b →
  ∀ n acc, (n ≤ length cs)%nat → visit_down tid f no n b acc s = (s, Some (Ok (fold_while f acc (rev (entries (take n cs)))))).
Proof using HL HPL.
  intros Hv Hb n. pose proof Hb as (_ & _ & _ & _ & _ & _ & _ & Hsl). induction n as [|n IH]; intros acc Hn; [done|].
  destruct (lookup_lt_is_Some_2 cs n Hn) as [x Hx]. destruct (Hsl n x Hx) as [Hs1 Hs2]. cbn [visit_down].
  erewrite bind_ok by (unfold sure; rewrite Hs1; done). erewrite bind_ok by (unfold sure; rewrite Hs2; done). unfold waiting. cbn beta iota.
  rewrite (take_S_r _ _ _ Hx), entries_app, rev_app_distr. change (rev (entries [x])) with [(c_key x, c_val x)]. cbn [app fold_while].
  destruct (cell_item s ctx no next cs n x Hv Hx) as [_ Hval]. cbn [waiting fst snd] in Hval. destruct (cell_value x).2.
  - erewrite bind_ok by exact Hval. destruct (f acc (c_key x) (c_val x)) as [acc' []]; [|done]. erewrite bind_ok by (by eapply open_leaf_ok). apply IH. lia.
  - rewrite Hval. destruct (f acc (c_key x) (c_val x)) as [acc' []]; [|done]. apply IH. lia.
Qed.
Lemma reverse_loop_done s fuel it acc : rv_done it = true → reverse_loop tid f (Datatypes.S fuel) it acc s = (s, Some (Ok acc)).
Proof using. intros Hd. cbn [reverse_loop]. by rewrite Hd. Qed.
Lemma reverse_loop_ok s t : view s t → ∀ fuel ctx no next cs (idx : nat) leaves it acc,
  t = plug ctx (TLeaf no next cs) → (idx ≤ length cs)%nat → (length (leaves_before ctx) + 2 ≤ fuel)%nat → leaves_bound s leaves (length (leaves_before ctx)) →
  rv_page it = no → rv_idx it = Z.of_nat idx → rv_done it = false → rv_path it = path_of ctx → rv_leaves it = leaves → rv_max_leaves it = page_count (pool s) →
  reverse_loop tid f fuel it acc s = (s, Some (Ok (fold_while f acc (rev (left_of ctx cs idx))).1)).
Proof using HL HPL.
  intros Hv fuel. induction fuel as [|fuel IH]; intros ctx no next cs idx leaves it acc Ht Hidx Hf Hl <- Ei Ed Ep El Em; [lia|].
  pose proof Hv as Hvl. rewrite Ht in Hvl. destruct (leaf_view _ _ _ _ _ Hvl) as (b & Hb).
  cbn [reverse_loop]. rewrite Ed. erewrite bind_ok by (by eapply open_leaf_ok). rewrite Ei, Nat2Z.id.
  erewrite bind_ok by (by eapply visit_down_ok). unfold left_of. rewrite entries_app, rev_app_distr, fold_while_app.
  destruct (fold_while f acc (rev (entries (take idx cs)))) as [acc1 []]; cbn [negb]; [|done].
  destruct (retreat_ok s t ctx (TLeaf (rv_page it) next cs) (rv_at 0 it) Hv Ht Ep) as [(_ & -> & it' & Hrt & _)|(ctx2 & no2 & next2 & cs2 & Ht2 & -> & Elb & Hrt)].
  - erewrite bind_ok by exact Hrt. cbn beta iota. destruct fuel; [lia|]. by rewrite reverse_loop_done.
  - unfold leaves_bound in *. cbn [rv_at rv_leaves rv_max_leaves rv_done rv_pin rv_pending] in Hrt. rewrite Elb, length_app in *. cbn [length] in *.
    erewrite bind_ok by (apply Hrt; lia). cbn beta iota. rewrite (IH ctx2 no2 next2 cs2 (length cs2) (leaves + 1)); [|done|lia|lia|lia|done|done|done|done|cbn; lia|done].
    unfold left_of. by rewrite firstn_all.
Qed.
End visit.

(** ** What a cursor stands for *)
Definition rplace s t it (rest : list (bytes * bytes)) (m : nat) : Prop :=
  rv_max_leaves it = page_count (pool s) ∧
  if rv_done it then rest = [] ∧ m = 0%nat else
  ∃ ctx no next cs (idx : nat), t = plug ctx (TLeaf no next cs) ∧ rv_page it = no ∧ rv_idx it = Z.of_nat idx ∧ (idx ≤ length cs)%nat ∧
    rv_path it = path_of ctx ∧ m = length (leaves_before ctx) ∧ 1 ≤ rv_leaves it ∧ leaves_bound s (rv_leaves it) m ∧ rest = left_of ctx cs idx ∧
    match rv_pin it with Some b => leaf_bytes (tid:=tid) s no next cs b | None => True end.
(** The entries to come, in the order they come. *)
Definition rstands s t it (l : list (bytes * bytes)) : Prop :=
  ∃ rest m, rplace s t it rest m ∧ l = match rv_pending it with Some kv => kv :: rev rest | None => rev rest end.
Lemma rplace_rounds s t it rest m : rplace s t it rest m → (m + 2 ≤ reverse_rounds it)%nat.
Proof using.
  intros [Hm Hp]. unfold reverse_rounds. rewrite Hm. destruct (rv_done it); [lia|]. destruct Hp as (? & ? & ? & ? & ? & _ & _ & _ & _ & _ & _ & ? & ? & _). unfold leaves_bound in *. lia.
Qed.
Lemma rplace_pending s t it rest m kv : rplace s t it rest m → rplace s t (rv_with kv it) rest m.
Proof using. done. Qed.
Lemma rplace_unpinned s t it rest m : rplace s t it rest m → rplace s t (rv_pinned None it) rest m.
Proof using.
  intros [Hm Hp]. split; [done|]. cbn [rv_pinned rv_done rv_pin rv_page rv_idx rv_path rv_leaves] in *. destruct (rv_done it); [done|].
  destruct Hp as (ctx & no & next & cs & idx & H1 & H2 & H3 & H4 & H5 & H6 & H7 & H8 & H9 & _). by exists ctx, no, next, cs, idx.
Qed.
Lemma for_each_reverse_ok {S} (f : S → bytes → bytes → S * bool) s t it l acc : view s t → rstands s t it l →
  for_each_reverse tid f it acc s = (s, Some (Ok (fold_while f acc l).1)).
Proof using HL HPL.
  intros Hv (rest & m & Hp & ->). unfold for_each_reverse.
  assert (∀ it acc, rplace s t it rest m → rv_pin it = None → reverse_loop tid f (reverse_rounds it) it acc s = (s, Some (Ok (fold_while f acc (rev rest)).1))) as Hloop.
  { clear it acc Hp. intros it acc Hp _. pose proof (rplace_rounds _ _ _ _ _ Hp) as Hr. destruct Hp as [Hm Hp]. destruct (rv_done it) eqn:Ed.
    - destruct Hp as [-> _]. unfold reverse_rounds in *. by rewrite reverse_loop_done.
    - destruct Hp as (ctx & no & next & cs & idx & H1 & H2 & H3 & H4 & H5 & -> & H7 & H8 & -> & _). by eapply reverse_loop_ok. }
  apply rplace_unpinned in Hp. cbn [rv_pinned rv_pending]. destruct (rv_pending it) as [[k v]|] eqn:E; [|by apply Hloop].
  cbn [fold_while]. destruct (f acc k v) as [acc' []]; [|done]. change (reverse_rounds (rv_pinned None it)) with (reverse_rounds (rv_with None (rv_pinned None it))).
  by apply Hloop.
Qed.

(** ** By pulling *)
Definition rstanding s t it (l : list (bytes * bytes)) : Prop :=
  rstands s t it l ∧ reverse_current it s = (s, Some (Ok (head l))) ∧ rstands s t (reverse_step it) (tail l).
Lemma rstanding_pending s t it kv rest m : rv_pending it = Some kv → rplace s t it rest m → rstanding s t it (kv :: rev rest).
Proof using.
  intros Hk Hp. split; [by exists rest, m; rewrite Hk|]. unfold reverse_current, reverse_step. rewrite Hk. split; [done|]. by exists rest, m.
Qed.
Lemma rstanding_end s t it : rv_pending it = None → rv_done it = true → rv_max_leaves it = page_count (pool s) → rstanding s t it [].
Proof using.
  intros Hk Hd Hm. assert (∀ it', rv_pending it' = None → rv_done it' = true → rv_max_leaves it' = page_count (pool s) → rstands s t it' []) as Hst.
  { intros it' Hk' Hd' Hm'. exists [], 0%nat. split; [|by rewrite Hk']. split; [done|]. by rewrite Hd'. }
  split; [by apply Hst|]. unfold reverse_current, reverse_step. rewrite Hk, Hd. split; [done|]. by apply Hst.
Qed.
Lemma rstanding_leaf s t it ctx next cs (i : nat) b x : view s t → t = plug ctx (TLeaf (rv_page it) next cs) → rv_pending it = None → rv_done it = false →
  rv_max_leaves it = page_count (pool s) → rv_idx it = Z.of_nat (S i) → rv_path it = path_of ctx → 1 ≤ rv_leaves it → leaves_bound s (rv_leaves it) (length (leaves_before ctx)) →
  rv_pin it = Some b → leaf_bytes (tid:=tid) s (rv_page it) next cs b → cs !! i = Some x → (cell_value x).2 = false →
  rstanding s t it (rev (left_of ctx cs (S i))).
Proof using HL HPL.
  intros Hv Ht Hk Hd Hm Hi Hp Hl1 Hl2 Hpin Hb Hx Hf. pose proof (lookup_lt_Some _ _ _ Hx). split; [|split].
  - exists (left_of ctx cs (S i)), (length (leaves_before ctx)). split; [|by rewrite Hk]. split; [done|]. rewrite Hd, Hpin. by exists ctx, (rv_page it), next, cs, (S i).
  - unfold reverse_current. rewrite Hk, Hd, Hpin. pose proof Hb as (_ & _ & Hoc & _ & _ & _ & _ & Hsl). destruct (Hsl i x Hx) as [Hs1 Hs2].
    erewrite bind_ok by (unfold lift; by rewrite Hoc). rewrite Hi, (proj2 (Z.eqb_neq _ _)) by lia. replace (Z.of_nat (S i) - 1) with (Z.of_nat i) by lia.
    erewrite bind_ok by (unfold sure; rewrite Hs1; done). erewrite bind_ok by (unfold sure; rewrite Hs2; done). unfold waiting. cbn beta iota.
    rewrite Ht in Hv. destruct (cell_item _ _ _ _ _ _ _ Hv Hx) as [_ Hval]. cbn [waiting fst snd] in Hval. rewrite Hf in Hval. rewrite Hval.
    by rewrite (left_step _ _ _ _ Hx), rev_app_distr.
  - unfold reverse_step. rewrite Hk, (left_step _ _ _ _ Hx), rev_app_distr. exists (left_of ctx cs i), (length (leaves_before ctx)). split; [|cbn; by rewrite Hk].
    split; [done|]. cbn [rv_at rv_done rv_page rv_idx rv_path rv_leaves rv_pin]. rewrite Hd, Hpin. exists ctx, (rv_page it), next, cs, i.
    split; [done|]. split; [done|]. split; [rewrite Hi; unfold saturating_sub; lia|]. split; [lia|]. by split_and!.
Qed.
Lemma reverse_position_ok s t : view s t → ∀ fuel it rest m, rplace s t it rest m → rv_pending it = None →
  ((if rv_done it then 1 else m + 2) ≤ fuel)%nat → ∃ it', reverse_position tid fuel it s = (s, Some (Ok it')) ∧ rstanding s t it' (rev rest).
Proof using HL HPL.
  intros Hv fuel. induction fuel as [|fuel IH]; intros it rest m Hp Hk Hf; [destruct (rv_done _); lia|]. cbn [reverse_position].
  rewrite Hk, (bool_decide_false (is_Some None)) by (by intros [? ?]). cbn [orb]. destruct Hp as [Hm Hp]. destruct (rv_done it) eqn:Ed.
  { destruct Hp as [-> _]. exists it. split; [done|]. by apply rstanding_end. }
  destruct Hp as (ctx & no & next & cs & idx & Ht & <- & Hi & Hidx & Hpa & -> & Hl1 & Hl2 & -> & Hpin). pose proof Hv as Hvl. rewrite Ht in Hvl.
  assert (∃ b, (match rv_pin it with Some b => ret b | None => get_page (rv_page it) end) s = (s, Some (Ok b)) ∧ leaf_bytes (tid:=tid) s (rv_page it) next cs b) as (b & Hget & Hb).
  { destruct (rv_pin it) as [b|]; [by exists b|]. destruct (leaf_view _ _ _ _ _ Hvl) as (b & Hb). exists b. split; [|done]. unfold get_page. by rewrite (proj1 Hb). }
  erewrite bind_ok by exact Hget. pose proof Hb as (_ & Hn & Hoc & _ & _ & _ & _ & Hsl). cbn [rv_pinned rv_page rv_idx]. erewrite bind_ok by (unfold lift; by rewrite Hoc).
  rewrite (node_tree _ _ _ _ _ _ Hn), Z.eqb_refl. cbn [negb]. rewrite Hi. destruct idx as [|i].
  - change (0 <? Z.of_nat 0) with false. cbn iota. set (it1 := rv_pinned None (rv_pinned (Some b) it)).
    destruct (retreat_ok s t ctx (TLeaf (rv_page it) next cs) it1 Hv Ht Hpa) as [(_ & Eb & it' & Hrt & E1 & E2 & E3)|(ctx2 & no2 & next2 & cs2 & Ht2 & Eb & Elb & Hrt)].
    + erewrite bind_ok by exact Hrt. cbn beta iota. unfold left_of. rewrite Eb. apply (IH _ [] 0%nat); [|cbn; by rewrite E3|cbn; lia]. split; [|done]. cbn [rv_finished rv_max_leaves]. by rewrite E1.
    + unfold leaves_bound in *. rewrite Elb, length_app in *. cbn [length] in *. erewrite bind_ok by (apply Hrt; cbn [it1 rv_pinned rv_leaves rv_max_leaves]; lia). cbn beta iota.
      unfold left_of. rewrite Eb. cbn [take]. rewrite app_nil_r. apply (IH _ _ (length (leaves_before ctx2))); [|done|cbn [rv_done it1 rv_pinned]; rewrite Ed; lia].
      split; [done|]. cbn [it1 rv_pinned rv_done rv_page rv_idx rv_path rv_leaves rv_pin]. rewrite Ed. exists ctx2, no2, next2, cs2, (length cs2). unfold leaves_bound, left_of. rewrite firstn_all. split_and!; try done; lia.
  - destruct (lookup_lt_is_Some_2 cs i ltac:(lia)) as [x Hx]. destruct (Hsl i x Hx) as [Hs1 Hs2]. rewrite (proj2 (Z.ltb_lt 0 (Z.of_nat (S i)))) by lia. replace (Z.of_nat (S i) - 1) with (Z.of_nat i) by lia.
    erewrite bind_ok by (unfold sure; rewrite Hs1; done). erewrite bind_ok by (unfold sure; rewrite Hs2; done). unfold waiting. cbn beta iota. destruct (cell_value x).2 eqn:Ef.
    + destruct (cell_item _ _ _ _ _ _ _ Hvl Hx) as [_ Hval]. cbn [waiting fst snd] in Hval. rewrite Ef in Hval. erewrite bind_ok by exact Hval. eexists. split; [done|].
      rewrite (left_step _ _ _ _ Hx), rev_app_distr. apply (rstanding_pending _ _ _ (c_key x, c_val x) _ (length (leaves_before ctx))); [done|]. split; [done|].
      cbn [rv_with rv_pinned rv_at rv_done rv_page rv_idx rv_path rv_leaves rv_pin]. rewrite Ed. exists ctx, (rv_page it), next, cs, i. split_and!; try done; lia.
    + eexists. split; [done|]. by eapply (rstanding_leaf _ _ _ ctx next cs i b x).
Qed.
Lemma reverse_peek_ok s t it l : view s t → rstands s t it l → ∃ it', reverse_peek tid it s = (s, Some (Ok (head l, it'))) ∧ rstanding s t it' l.
Proof using HL HPL.
  intros Hv (rest & m & Hp & ->). assert (∃ it', reverse_position tid (reverse_rounds it) it s = (s, Some (Ok it')) ∧
    rstanding s t it' match rv_pending it with Some kv => kv :: rev rest | None => rev rest end) as (it' & Hpos & Hst).
  { destruct (rv_pending it) as [kv|] eqn:E.
    - exists it. split; [|by eapply rstanding_pending]. unfold reverse_rounds. cbn [reverse_position]. by rewrite E.
    - apply (reverse_position_ok s t Hv _ _ _ m); [done|done|]. pose proof (rplace_rounds _ _ _ _ _ Hp). destruct (rv_done it); lia. }
  exists it'. split; [|done]. unfold reverse_peek. erewrite bind_ok by exact Hpos. by erewrite bind_ok by apply Hst.
Qed.

(** ** Sessions *)
(** [n] times the record it stands on and a step, and then the rest by callback. *)
Fixpoint take_back (n : nat) (it : ReverseRangeIter) : M P (list (option (bytes * bytes)) * ReverseRangeIter) :=
  match n with
  | O => ret ([], it)
  | S n => let+ (r, it) := reverse_peek tid it in let+ (l, it) := take_back n (reverse_step it) in ret (r :: l, it)
  end.
Lemma take_back_ok s t n : view s t → ∀ it l, rstands s t it l →
  ∃ it', take_back n it s = (s, Some (Ok ((λ i, l !! i) <$> seq 0 n, it'))) ∧ rstands s t it' (drop n l).
Proof using HL HPL.
  intros Hv. induction n as [|n IH]; intros it l Hst; [by exists it|]. cbn [take_back].
  destruct (reverse_peek_ok s t it l Hv Hst) as (it1 & Hpk & _ & _ & Hst1). destruct (IH _ _ Hst1) as (it2 & Htb & Hst2). exists it2.
  erewrite bind_ok by exact Hpk. cbn beta iota. erewrite bind_ok by exact Htb. cbn beta iota. split.
  - cbn [seq fmap list_fmap]. unfold ret. do 4 f_equal. f_equal; [by destruct l|]. rewrite <-fmap_S_seq, <-list_fmap_compose. apply list_fmap_ext. intros i j _. cbn. by destruct l.
  - destruct l as [|kv l]; [by rewrite drop_nil in *|done].
Qed.
Lemma reverse_scan_ok {S} (f : S → bytes → bytes → S * bool) s t to n acc : view s t →
  let below := rev (below_key to (entries (cells t))) in
  (let+ it := range_reverse tid to in let+ (shown, it) := take_back n it in let+ acc := for_each_reverse tid f it acc in ret (shown, acc)) s =
    (s, Some (Ok ((λ i, below !! i) <$> seq 0 n, (fold_while f acc (drop n below)).1))).
Proof using HL HPL.
  intros Hv below. destruct (range_reverse_ok s t to Hv) as (ctx & no & next & cs & i & Hr & Ht & Hi & Hb & Hl). erewrite bind_ok by exact Hr.
  destruct (take_back_ok s t n Hv (mkReverse no (Z.of_nat i) false (path_of ctx) 1 (page_count (pool s)) None None) below) as (it' & Htb & Hst).
  { exists (left_of ctx cs i), (length (leaves_before ctx)). split; [|unfold below; by rewrite Hb]. split; [done|]. by exists ctx, no, next, cs, i. }
  erewrite bind_ok by exact Htb. cbn beta iota. by erewrite bind_ok by (by eapply for_each_reverse_ok).
Qed.
End reverse.
End TreeReverse.
