(* ===== verification/TreeWrite.v ===== *)
(** * Writing a tree

    How the operations that change pages act on the invariant of [TreeRep.v]: the
    rules of the pool's calls, copying a published page before it is written
    ([descend_for_write]), and handing a separator up the path
    ([insert_separator]).  A run either succeeds or stops at a refusal of the
    pool; in both cases the published pages are as they were. *)
From S2P Require Import Prelude Crc Page Cells Order Node Interior Pool Tree BTree TreeRep TreeRead.
Import Page Cells Order Node Interior Tree BTree TreeRep TreeRead.

Module TreeWrite.

Section write.
Context `{HC : Crc32c} `{HL : !Crc32cLaws} {P : Type} `{HP : PagePool P} `{HPL : !PagePoolLaws P}.
Context {tid : TreeId}.
Implicit Types (p : P) (s : BTree P) (t : tree) (O R : list Z).

(** ** Runs *)
(** What every operation does to the pool, whether it succeeds or not. *)
Record evolves p p' : Prop := {
  ev_ok : pool_ok p';
  ev_settings : same_settings p p';
  ev_count : page_count p ≤ page_count p';
  ev_kept : ∀ x, kept p x → kept p' x ∧ get p' x = get p x;
}.
(** The pages [O] read the same and are as writable as before. *)
Definition keeps p p' O : Prop := ∀ x, x ∈ O → get p' x = get p x ∧ is_frozen p' x = is_frozen p x.
(** Every page but [no] is as writable as before. *)
Definition frozen_but (no : Z) p p' : Prop := ∀ x, x ≠ no → is_frozen p' x = is_frozen p x.
(** Errors that come from the pool's limits. *)
Definition refused (e : error) : Prop :=
  ∃ p p', pool_ok p ∧ (allocate p = (p', Err e) ∨ ∃ no birth, free_shadow_page p no birth = (p', Err e)).
Definition runs {A} (m : M P A) s (Q : A → BTree P → Prop) : Prop :=
  match m s with
  | (s', Some (Ok a)) => Q a s' ∧ evolves (pool s) (pool s')
  | (s', Some (Err e)) => refused e ∧ evolves (pool s) (pool s')
  | (_, None) => False
  end.

Lemma evolves_refl p : pool_ok p → evolves p p.
Proof using. intros. split; [done|by split_and!|lia|done]. Qed.
Lemma evolves_trans p1 p2 p3 : evolves p1 p2 → evolves p2 p3 → evolves p1 p3.
Proof using.
  intros [H1 (S1 & S2 & S3) C1 K1] [H2 (T1 & T2 & T3) C2 K2]. split; [done|split_and!; congruence|lia|].
  intros x Hx. destruct (K1 x Hx) as [Hx' E1]. destruct (K2 x Hx') as [Hx'' E2]. split; [done|congruence].
Qed.
Lemma keeps_trans p1 p2 p3 O : keeps p1 p2 O → keeps p2 p3 O → keeps p1 p3 O.
Proof using. intros H1 H2 x Hx. destruct (H1 x Hx), (H2 x Hx). split; congruence. Qed.
Lemma keeps_sub p p' O O' : keeps p p' O → O' ⊆ O → keeps p p' O'.
Proof using. intros Hk Hs x Hx. by apply Hk, Hs. Qed.
Lemma keeps_refl p O : keeps p p O.
Proof using. by intros x. Qed.

Lemma runs_bind {A B} (m : M P A) (k : A → M P B) s Q Q' :
  runs m s Q → (∀ a s', Q a s' → evolves (pool s) (pool s') → runs (k a) s' Q') → runs (bind m k) s Q'.
Proof using.
  unfold runs, bind. destruct (m s) as [s' [[a|e]|]]; [|done|done]. intros [Hq Hev] Hk. specialize (Hk a s' Hq Hev).
  destruct (k a s') as [s'' [[b|e]|]]; [| |done]; (split; [apply Hk|by eapply evolves_trans; [|apply Hk]]).
Qed.
Lemma runs_mono {A} (m : M P A) s (Q Q' : A → BTree P → Prop) :
  runs m s Q → (∀ a s', Q a s' → evolves (pool s) (pool s') → Q' a s') → runs m s Q'.
Proof using. unfold runs. destruct (m s) as [s' [[a|e]|]]; intros Hr Hq; [|done|done]. destruct Hr as [Hr Hev]. split; [by apply Hq|done]. Qed.
Lemma runs_ret {A} (a : A) s (Q : A → BTree P → Prop) : pool_ok (pool s) → Q a s → runs (ret a) s Q.
Proof using. intros. split; [done|by apply evolves_refl]. Qed.
Lemma runs_read {A B} (m : M P A) (k : A → M P B) s a Q : m s = (s, Some (Ok a)) → runs (k a) s Q → runs (bind m k) s Q.
Proof using. intros Hm. unfold runs. by rewrite (bind_ok _ _ _ _ _ Hm). Qed.
Lemma runs_set {A B} (m : M P A) (k : A → M P B) s s' a Q :
  m s = (s', Some (Ok a)) → pool s' = pool s → runs (k a) s' Q → runs (bind m k) s Q.
Proof using. intros Hm Hp. unfold runs. rewrite (bind_ok _ _ _ _ _ Hm). by rewrite Hp. Qed.

(** ** The pool's calls *)
Lemma owned_ok_frame p p' O : owned_ok p O → page_count p ≤ page_count p' → (∀ x, x ∈ O → available p' x → available p x) → owned_ok p' O.
Proof using.
  intros [Hnd Hf] Hc Ha. split; [done|]. apply Forall_forall. intros x Hx. rewrite Forall_forall in Hf.
  destruct (Hf x Hx) as (Hr & Hu & Hn). split; [lia|]. split; [done|]. intros Hav. by apply Hn, Ha.
Qed.
Lemma runs_alloc {B} (k : Z → M P B) s O Q : pool_ok (pool s) → owned_ok (pool s) O →
  (∀ no p', evolves (pool s) p' → owned_ok p' (no :: O) → keeps (pool s) p' O → is_frozen p' no = false ∧ is_ok (get p' no) ∧ frozen_but no (pool s) p' →
    runs (k no) (set_pool p' s) Q) →
  runs (bind alloc k) s Q.
Proof using HPL.
  intros Hp Ho Hk. destruct (allocate (pool s)) as [p' [no|e]] eqn:Ea.
  - destruct (allocate_ok _ _ _ Hp Ea) as (Hok & Hset & Hsame & Hav & Hr & Hu & Hc & Hgn & Hfr & Hsub & Hnk & Hkept).
    assert (no ∉ O) as Hno.
    { intros Hin. destruct Ho as [_ Hf]. rewrite Forall_forall in Hf. destruct (Hf no Hin) as (_ & _ & Hn). done. }
    assert (evolves (pool s) p') as Hev.
    { split; [done|done|done|]. intros x Hx. split; [by apply Hkept|]. apply Hsame. intros [= ->]. done. }
    apply runs_bind with (Q := λ a s', a = no ∧ s' = set_pool p' s).
    + unfold runs, alloc. by rewrite Ea.
    + intros a s' [-> ->] _. apply Hk; [done| | |split; [done|split; [by rewrite Hgn|]]].
      3: { intros x Hx. apply Hsame. by intros [= ->]. }
      * destruct (owned_ok_frame _ p' _ Ho Hc) as [Hnd Hf]; [intros x _ Hx; by apply Hsub|].
        split; [by constructor|]. constructor; [|done]. split; [done|]. split; [done|]. intros Hx. by apply Hsub in Hx as [_ ?].
      * intros x Hx. apply Hsame. intros [= ->]. done.
  - destruct (allocate_err _ _ _ Hp Ea) as (Hok & Hset & Hsame & Hc & Hsub & Hkept).
    unfold runs, bind, alloc. rewrite Ea. split; [by exists (pool s), p'; split; [|left]|].
    split; [done|done|cbn; lia|]. intros x Hx. split; [by apply Hkept|by apply Hsame].
Qed.
(** [p'] is [p] with page [no] written. *)
Record wrote p (no : Z) (b : bytes) p' : Prop := {
  wrote_ev : evolves p p';
  wrote_get : ∀ x, get p' x = if decide (x = no) then Ok b else get p x;
  wrote_frozen : ∀ x, is_frozen p' x = is_frozen p x;
  wrote_owned : ∀ O, owned_ok p O → owned_ok p' O;
}.
Lemma wrote_keeps p no b p' O : wrote p no b p' → no ∉ O → keeps p p' O.
Proof using. intros Hw Hno x Hx. split; [|apply Hw]. rewrite (wrote_get _ _ _ _ Hw). rewrite decide_False; [done|by intros ->]. Qed.
Lemma wrote_here p no b p' : wrote p no b p' → get p' no = Ok b.
Proof using. intros Hw. rewrite (wrote_get _ _ _ _ Hw). by rewrite decide_True. Qed.
Lemma runs_write {B} (k : unit → M P B) s no b Q : pool_ok (pool s) → is_frozen (pool s) no = false →
  (∀ p', wrote (pool s) no b p' → runs (k tt) (set_pool p' s) Q) → runs (bind (write no b) k) s Q.
Proof using HPL.
  intros Hp Hf Hk. destruct (put_frame (pool s) no b Hp) as (Hok & Hset & Hc & Hfr & Hav & Hkept).
  assert (evolves (pool s) (put (pool s) no b)) as Hev.
  { split; [done|done|lia|]. intros x Hx. split; [by apply Hkept|]. rewrite get_put. rewrite decide_False; [done|].
    intros ->. apply kept_frozen in Hx. congruence. }
  apply runs_bind with (Q := λ _ s', s' = set_pool (put (pool s) no b) s); [by split|].
  intros [] s1 -> _. apply Hk. split; [done|intros; apply get_put|done|].
  intros O Ho. eapply owned_ok_frame; [done|lia|]. intros x _. by rewrite Hav.
Qed.
Lemma runs_retire {B} (k : unit → M P B) s no birth O Q : pool_ok (pool s) → owned_ok (pool s) (no :: O) →
  (∀ p', evolves (pool s) p' → owned_ok p' O → (∀ x, get p' x = get (pool s) x ∧ is_frozen p' x = is_frozen (pool s) x) →
    runs (k tt) (set_pool p' s) Q) →
  runs (bind (retire no birth) k) s Q.
Proof using HPL.
  intros Hp [Hnd Hall] Hk. apply NoDup_cons in Hnd as [Hno Hnd]. apply Forall_cons in Hall as [(Hr & Hu & Hav) Hall].
  destruct (free_shadow_page (pool s) no birth) as [p' r] eqn:Ef.
  destruct (free_ok _ _ _ _ _ Hp Ef Hav Hr) as (Hok & Hset & Hsame & Hc & Hsub & Hkept).
  assert (evolves (pool s) p') as Hev.
  { split; [done|done|lia|]. intros x Hx. split; [by apply Hkept|by apply Hsame]. }
  destruct r as [[]|e].
  - apply runs_bind with (Q := λ _ s', s' = set_pool p' s); [unfold runs, retire; by rewrite Ef|].
    intros [] s' -> _. apply Hk; [done| |intros x; by apply Hsame].
    apply (owned_ok_frame (pool s)); [done|lia|]. intros x Hx Hax. apply Hsub in Hax as [?| ->]; done.
  - unfold runs, bind, retire. rewrite Ef. split; [|done]. exists (pool s), p'. split; [done|]. right. by exists no, birth.
Qed.
Lemma get_mut_ok s no b : get (pool s) no = Ok b → is_frozen (pool s) no = false → get_mut no s = (s, Some (Ok b)).
Proof using. intros Hg Hf. unfold get_mut. by rewrite Hf, Hg. Qed.
Lemma get_page_ok s no b : get (pool s) no = Ok b → get_page no s = (s, Some (Ok b)).
Proof using. intros Hg. unfold get_page. by rewrite Hg. Qed.

(** ** What stays where it is *)
Lemma chain_same p p' pages : ∀ cs, (∀ x, x ∈ pages → get p' x = get p x) → chain_at p pages cs → chain_at p' pages cs.
Proof using.
  induction pages as [|no pages IH]; intros [|c cs] Hs; try done. intros [(b & Hg & Hb) Hc]. split.
  - exists b. rewrite Hs by left. done.
  - apply IH; [|done]. intros. apply Hs. by right.
Qed.
Lemma cell_same p p' c : record_limit p' = record_limit p → (∀ x, x ∈ c_chain c → get p' x = get p x) → cell_ok p c → cell_ok p' c.
Proof using.
  intros Hl Hs (Hb & Hk & Hc). split; [done|]. split; [done|]. destruct Hc as [?|(head & Hsh & Hhd & Hu & Hv & Hw & Hch)]; [by left|].
  right. exists head. refine (conj Hsh (conj Hhd (conj Hu (conj Hv (conj _ _))))).
  - unfold within_limit in *. by rewrite Hl.
  - by eapply chain_same.
Qed.
Lemma cells_same p p' cs : record_limit p' = record_limit p → (∀ x, x ∈ flat_map c_chain cs → get p' x = get p x) →
  Forall (cell_ok p) cs → Forall (cell_ok p') cs.
Proof using.
  intros Hl Hs Hc. apply Forall_forall. intros c Hin. rewrite Forall_forall in Hc. apply (cell_same p); [done| |by apply Hc].
  intros x Hx. apply Hs. apply list_elem_of_In, in_flat_map. exists c. by rewrite <-!list_elem_of_In.
Qed.
Lemma interior_page_same p p' no nos ks : get p' no = get p no → interior_page p no nos ks → interior_page p' no nos ks.
Proof using. intros Hg. destruct nos; [done|]. unfold interior_page. by rewrite Hg. Qed.
Lemma elem_of_flat_map {A B} (f : A → list B) l x : x ∈ flat_map f l ↔ ∃ a, a ∈ l ∧ x ∈ f a.
Proof using. rewrite list_elem_of_In, in_flat_map. setoid_rewrite list_elem_of_In. naive_solver. Qed.
Lemma holds_same p p' t : record_limit p' = record_limit p → (∀ x, x ∈ owned t → get p' x = get p x) → holds p t → holds p' t.
Proof using.
  intros Hl. induction t as [no next cs|no cs ks Hcs] using tree_nested_ind; intros Hs.
  - intros [(b & Hg & Hn) Hc]. split.
    + exists b. rewrite Hs by left. done.
    + apply (cells_same p); [done| |done]. intros. apply Hs. by right.
  - rewrite !holds_node. intros [Hi Hall]. split.
    + apply (interior_page_same p); [apply Hs; left|done].
    + unfold holds_all in *. rewrite Forall_forall in Hall, Hcs |- *. intros c Hc. apply Hcs; [done| |by apply Hall].
      intros x Hx. apply Hs. right. apply elem_of_flat_map. eauto.
Qed.
Lemma holds_all_same p p' cs : record_limit p' = record_limit p → (∀ x, x ∈ flat_map owned cs → get p' x = get p x) → holds_all p cs → holds_all p' cs.
Proof using.
  intros Hl Hs Hall. unfold holds_all in *. rewrite Forall_forall in Hall |- *. intros c Hc. apply (holds_same p); [done| |by apply Hall].
  intros x Hx. apply Hs, elem_of_flat_map. eauto.
Qed.
Lemma holds_ctx_same p p' ctx : ∀ h, record_limit p' = record_limit p → (∀ x, x ∈ owned_ctx ctx → get p' x = get p x) →
  holds_ctx p ctx h → holds_ctx p' ctx h.
Proof using.
  induction ctx as [|f ctx IH]; intros h Hl Hs; [done|]. intros [(Hi & H1 & H2) Hc].
  assert (∀ x, x ∈ owned_frame f → get p' x = get p x) as Hf by (intros; apply Hs, elem_of_app; by left).
  split; [|apply IH; [done| |done]; intros; apply Hs, elem_of_app; by right]. unfold owned_frame in Hf. split_and!.
  - apply (interior_page_same p); [apply Hf; left|done].
  - apply (holds_all_same p); [done| |done]. intros. apply Hf. right. apply elem_of_app. by left.
  - apply (holds_all_same p); [done| |done]. intros. apply Hf. right. apply elem_of_app. by right.
Qed.
Lemma evolves_limit p p' : evolves p p' → record_limit p' = record_limit p.
Proof using. intros Hev. apply Hev. Qed.

(** ** Nodes renumbered *)
Definition renumber t (no : Z) : tree := match t with TLeaf _ next cs => TLeaf no next cs | TNode _ cs ks => TNode no cs ks end.
Definition beneath t : list Z := match t with TLeaf _ _ cs => flat_map c_chain cs | TNode _ cs _ => flat_map owned cs end.
Lemma owned_beneath t : owned t = no_of t :: beneath t.
Proof using. by destruct t. Qed.
Lemma owned_renumber t no : owned (renumber t no) = no :: beneath t.
Proof using. by destruct t. Qed.
Definition page_kind t : PageKind := match t with TLeaf _ _ _ => Leaf | TNode _ _ _ => Interior end.
(** A node's page copied under a new number. *)
Lemma holds_renumber p p' t no b b1 : holds p t → get p (no_of t) = Ok b →
  put_at b 12 (le_bytes 4 no) = Some b1 → is_u32 no → get p' no = Ok (finalise b1 0) →
  record_limit p' = record_limit p → (∀ x, x ∈ beneath t → get p' x = get p x) → holds p' (renumber t no).
Proof using.
  intros Hh Hg Hp Hu Hg' Hl Hs. destruct t as [no0 next cs|no0 cs ks]; cbn [renumber no_of beneath] in *.
  - destruct Hh as [(b' & Hb & Hn) Hc]. rewrite Hg in Hb. injection Hb as <-.
    destruct (renumber_ok _ _ _ _ _ _ no Hn Hu) as (b2 & Hp2 & Hn2 & _). rewrite Hp in Hp2. injection Hp2 as <-.
    split; [|by apply (cells_same p)]. exists (finalise b1 0). split; [done|]. by apply node_finalise.
  - rewrite holds_node in *. destruct Hh as [Hi Hall]. split; [|by apply (holds_all_same p)].
    destruct (no_of <$> cs) as [|h nos]; [done|]. destruct Hi as ((b' & Hb & Hn) & Hrest). rewrite Hg in Hb. injection Hb as <-.
    destruct (interior_renumber _ _ _ _ _ no Hn Hu) as (b2 & Hp2 & Hn2). rewrite Hp in Hp2. injection Hp2 as <-.
    split; [|done]. exists (finalise b1 0). split; [done|]. by apply interior_finalise.
Qed.
Lemma holds_page p t : holds p t → ∃ b, get p (no_of t) = Ok b ∧ ∃ link recs, node_at b (page_kind t) tid (no_of t) link recs.
Proof using.
  destruct t as [no next cs|no cs ks].
  - intros [(b & Hg & Hn) _]. exists b. split; [done|]. by exists next, (c_rec <$> cs).
  - rewrite holds_node. intros [Hi _]. destruct (interior_view _ _ _ _ Hi) as (h & ns & b & _ & Hg & Hn & _).
    exists b. split; [done|]. by eexists _, _.
Qed.

(** ** Copy on write *)
Lemma shadow_page_ok s no b O : pool_ok (pool s) → owned_ok (pool s) (no :: O) → get (pool s) no = Ok b →
  (∃ kd link recs, node_at b kd tid no link recs) →
  runs (shadow_page no) s (λ no' s', ∃ p' b1, s' = set_pool p' s ∧ owned_ok p' (no' :: O) ∧ keeps (pool s) p' O ∧
    put_at b 12 (le_bytes 4 no') = Some b1 ∧ get p' no' = Ok (finalise b1 0) ∧ is_frozen p' no' = false ∧ frozen_but no' (pool s) p').
Proof using HPL.
  intros Hp Ho Hg (kd & link & recs & Hn). unfold shadow_page. eapply runs_read; [by apply get_page_ok|].
  apply (runs_alloc _ _ (no :: O)); [done|done|]. intros no' p1 Hev1 Ho1 Hk1 (Hf1 & _ & Hfb1).
  assert (is_u32 no' ∧ no' ∉ no :: O) as [Hu Hno'].
  { destruct Ho1 as [Hnd Hall]. apply NoDup_cons in Hnd as [? _]. apply Forall_cons in Hall as [(_ & ? & _) _]. done. }
  destruct (renumber_ok _ _ _ _ _ _ no' Hn Hu) as (b1 & Hput & _). rewrite Hput.
  eapply runs_read; [done|]. apply runs_write; [apply Hev1|done|]. intros p2 Hw.
  rewrite (Permutation_swap no no') in Ho1.
  apply (runs_retire _ _ _ _ (no' :: O)); [apply (wrote_ev _ _ _ _ Hw)|by apply Hw|].
  intros p3 Hev3 Ho3 Hsame. apply runs_ret; [apply Hev3|]. exists p3, b1. split_and!; try done.
  - intros x Hx. cbn [pool set_pool] in *. destruct (Hsame x) as [-> ->].
    assert (x ≠ no') by (intros ->; apply Hno'; by right).
    rewrite (wrote_get _ _ _ _ Hw), (wrote_frozen _ _ _ _ Hw), decide_False by done. apply Hk1. by right.
  - destruct (Hsame no') as [-> _]. by apply wrote_here in Hw.
  - destruct (Hsame no') as [_ ->]. by rewrite (wrote_frozen _ _ _ _ Hw).
  - intros x Hx. destruct (Hsame x) as [_ ->]. cbn [pool set_pool]. rewrite (wrote_frozen _ _ _ _ Hw). by apply Hfb1.
Qed.
(** An interior page written whole. *)
Lemma wrote_interior s no b nos ks h ns : pool_ok (pool s) → is_frozen (pool s) no = false →
  interior_at b tid no h (zip_with enc_interior ks ns) → nos = h :: ns → length ns = length ks →
  Forall sep_ok ks → Forall (λ no, is_u32 no) nos →
  runs (write no b) s (λ _ s', ∃ p' b', s' = set_pool p' s ∧ wrote (pool s) no b' p' ∧ interior_page p' no nos ks).
Proof using HPL.
  intros Hp Hf Hb -> Hl Hk Hu. assert (write no b = bind (write no b) ret) as -> by done.
  apply runs_write; [done|done|]. intros p' Hw. apply runs_ret; [apply Hw|]. exists p', b. refine (conj eq_refl (conj Hw _)). split; [|done].
  exists b. split; [by apply wrote_here in Hw|done].
Qed.
Lemma patch_child_ok s no nos ks (i : nat) x : pool_ok (pool s) → interior_page (pool s) no nos ks → (i < length nos)%nat →
  is_u32 x → is_frozen (pool s) no = false →
  runs (patch_child no (Z.of_nat i) x) s (λ _ s', ∃ p' b', s' = set_pool p' s ∧ wrote (pool s) no b' p' ∧ interior_page p' no (<[i := x]> nos) ks).
Proof using HPL.
  intros Hp Hi Hlt Hx Hf. destruct nos as [|h ns]; [cbn in Hlt; lia|]. destruct Hi as ((b & Hg & Hb) & Hl & Hk & Hu).
  pose proof (int_node _ _ _ _ _ Hb) as Hn. assert (Forall (λ no, is_u32 no) (<[i := x]> (h :: ns))) as Hu' by (by apply Forall_insert).
  unfold patch_child. eapply runs_read; [by apply get_mut_ok|].
  destruct i as [|i].
  - rewrite Z.eqb_refl. eapply runs_read; [unfold lift; by rewrite (node_open _ _ _ _ _ _ Hn)|].
    rewrite bool_decide_true by apply Hn. cbn [negb].
    apply (wrote_interior s no _ _ ks x ns); [done|done| |done|done|done|done].
    by eapply interior_finalise, interior_set_link.
  - rewrite (proj2 (Z.eqb_neq _ _)) by lia. eapply runs_read; [unfold lift; by rewrite (node_open _ _ _ _ _ _ Hn)|].
    rewrite bool_decide_true by apply Hn. cbn [negb orb length] in *.
    assert (length (zip_with enc_interior ks ns) = length ns) as Hz by (rewrite length_zip_with; lia).
    rewrite (proj2 (Z.ltb_ge _ _)) by (rewrite (node_count _ _ _ _ _ _ Hn), Hz; lia).
    replace (Z.of_nat (S i) - 1) with (Z.of_nat i) by lia.
    destruct (lookup_lt_is_Some_2 ks i) as [k Hki]; [lia|]. destruct (lookup_lt_is_Some_2 ns i) as [c Hci]; [lia|].
    assert (zip_with enc_interior ks ns !! i = Some (enc_interior k c)) as Hrec by (by rewrite lookup_zip_with, Hki, Hci).
    assert (sep_ok k) as Hsk by (by eapply (Forall_lookup_1 _ _ _ _ Hk)).
    eapply runs_read; [unfold sure; by rewrite (node_slot _ _ _ _ _ _ Hn i _ Hrec)|].
    eapply runs_read.
    { unfold sure. rewrite (proj2 (enc_interior_parts k c Hsk ltac:(apply Forall_cons in Hu as [_ Hu]; by eapply (Forall_lookup_1 _ _ _ _ Hu)))). done. }
    destruct (interior_patch _ _ _ _ _ i k c x Hb Hrec) as (b' & Hput & Hb'); [by apply enc_interior_ok|].
    destruct (slot_bounds b (Z.of_nat i)) as [off n]. eapply runs_read; [unfold sure; by rewrite Hput|].
    apply (wrote_interior s no _ _ ks h (<[i := x]> ns)); [done|done| |done|by rewrite length_insert|done|done].
    apply interior_finalise. rewrite insert_zip_with, (list_insert_id ks) in Hb' by done. exact Hb'.
Qed.

Lemma no_of_plug f ctx : ∀ t t', no_of (plug (f :: ctx) t) = no_of (plug (f :: ctx) t').
Proof using. revert f. induction ctx as [|g ctx IH]; intros f t t'; [done|]. change (no_of (plug (g :: ctx) (plug1 f t)) = no_of (plug (g :: ctx) (plug1 f t'))). apply IH. Qed.
Lemma ord_renumber lo hi t no : ord lo hi (renumber t no) ↔ ord lo hi t.
Proof using. by destruct t. Qed.
Lemma insert_middle {A} (l1 l2 : list A) (n : nat) x y : n = length l1 → <[n := y]> (l1 ++ x :: l2) = l1 ++ y :: l2.
Proof using. intros ->. rewrite <-(Nat.add_0_r (length l1)). by rewrite insert_app_r. Qed.
Lemma plug_owned_perm ctx t R : owned (plug ctx t) ++ R ≡ₚ no_of t :: owned_ctx ctx ++ beneath t ++ R.
Proof using. rewrite owned_plug, owned_beneath. solve_Permutation. Qed.

(** The pages of a node moved to a fresh page, seen from where it hangs. *)
Lemma moved_inv s s' p1 ctx u fresh b b1 R : inv s (plug ctx u) R → get (pool s) (no_of u) = Ok b →
  put_at b 12 (le_bytes 4 fresh) = Some b1 → get p1 fresh = Ok (finalise b1 0) → evolves (pool s) p1 →
  owned_ok p1 (fresh :: owned_ctx ctx ++ beneath u ++ R) → keeps (pool s) p1 (owned_ctx ctx ++ beneath u ++ R) →
  holds p1 (renumber u fresh) ∧ holds_ctx p1 ctx (no_of u).
Proof using.
  intros Hi Hg Hput Hg1 Hev Ho Hk. pose proof (proj1 (holds_plug _ _ _) (inv_holds _ _ _ Hi)) as [Hc Hu].
  assert (is_u32 fresh) as Hu32 by (destruct Ho as [_ Ho]; apply Forall_cons in Ho as [(_ & ? & _) _]; done). split.
  - apply (holds_renumber (pool s) p1 u fresh b b1); try done; [by apply evolves_limit|].
    intros x Hx. apply Hk. rewrite !elem_of_app. auto.
  - apply (holds_ctx_same (pool s)); [by apply evolves_limit| |done]. intros x Hx. apply Hk. rewrite elem_of_app. auto.
Qed.
(** The invariant, hole by hole. *)
Lemma inv_plug s ctx t R : pool_ok (pool s) → is_u16 tid → holds_ctx (pool s) ctx (no_of t) → holds (pool s) t →
  owned_ok (pool s) (owned_ctx ctx ++ owned t ++ R) → ord_ctx None None ctx → ord (lo_of None ctx) (hi_of None ctx) t →
  no_of (plug ctx t) = root s → inv s (plug ctx t) R.
Proof using.
  intros. split; [done|done|by apply holds_plug| |by apply ord_plug|done]. rewrite owned_plug. by rewrite <-app_assoc.
Qed.
Lemma inv_unplug s ctx t R : inv s (plug ctx t) R →
  holds_ctx (pool s) ctx (no_of t) ∧ holds (pool s) t ∧ owned_ok (pool s) (owned_ctx ctx ++ owned t ++ R) ∧
  ord_ctx None None ctx ∧ ord (lo_of None ctx) (hi_of None ctx) t.
Proof using.
  intros [Hp Ht Hh Ho Hord Hr]. apply holds_plug in Hh as [? ?]. apply ord_plug in Hord as [? ?].
  rewrite owned_plug, <-app_assoc in Ho. done.
Qed.
(** A frame's page is none of the others. *)
Lemma frame_alone p f ctx O : owned_ok p (owned_ctx (f :: ctx) ++ O) →
  f_no f ∉ (flat_map owned (f_l f).*1 ++ flat_map owned (f_r f).*2) ++ owned_ctx ctx ++ O.
Proof using.
  intros [Hnd _]. change (owned_ctx (f :: ctx)) with (owned_frame f ++ owned_ctx ctx) in Hnd. unfold owned_frame in Hnd.
  rewrite <-app_assoc in Hnd. cbn [app] in Hnd. by apply NoDup_cons in Hnd as [? _].
Qed.
(** The page of the innermost frame written anew. *)
Lemma holds_ctx_wrote p p' f ctx h b O : holds_ctx p (f :: ctx) h → owned_ok p (owned_ctx (f :: ctx) ++ O) → wrote p (f_no f) b p' →
  ∀ h', interior_page p' (f_no f) ((no_of <$> (f_l f).*1) ++ h' :: (no_of <$> (f_r f).*2)) ((f_l f).*2 ++ (f_r f).*1) →
  holds_ctx p' (f :: ctx) h' ∧ keeps p p' O.
Proof using.
  intros [(Hpage & Hl & Hr) Hc] Ho Hw h' Hpage'. pose proof (wrote_keeps _ _ _ _ _ Hw (frame_alone _ _ _ _ Ho)) as Hk.
  pose proof (evolves_limit _ _ (wrote_ev _ _ _ _ Hw)) as Hlim.
  split; [|eapply keeps_sub; [done|]; intros x Hx; rewrite !elem_of_app; auto].
  split; [split; [exact Hpage'|split]|].
  - apply (holds_all_same p); [done| |done]. intros x Hx. apply Hk. rewrite !elem_of_app. auto.
  - apply (holds_all_same p); [done| |done]. intros x Hx. apply Hk. rewrite !elem_of_app. auto.
  - apply (holds_ctx_same p); [done| |done]. intros x Hx. apply Hk. rewrite !elem_of_app. auto.
Qed.
(** The child under frame [f] copied, and the pointer to it. *)
Lemma shadow_child_ok {B} (k : Z → M P B) s f ctx u R Q :
  inv s (plug (f :: ctx) u) R → is_frozen (pool s) (f_no f) = false →
  (∀ fresh p', evolves (pool s) p' → inv (set_pool p' s) (plug (f :: ctx) (renumber u fresh)) R →
    is_frozen p' fresh = false → keeps (pool s) p' R →
    (∀ x, x ∈ owned_ctx (f :: ctx) → is_frozen p' x = is_frozen (pool s) x) → frozen_but fresh (pool s) p' →
    runs (k fresh) (set_pool p' s) Q) →
  runs (let+ fresh := shadow_page (no_of u) in patch_child (f_no f) (Z.of_nat (length (f_l f))) fresh ;;+ k fresh) s Q.
Proof using HPL.
  intros Hi Hfr Hk. pose proof (proj1 (holds_plug _ _ _) (inv_holds _ _ _ Hi)) as [_ Hu].
  pose proof (inv_all _ _ _ Hi) as Ho. rewrite plug_owned_perm in Ho.
  destruct (holds_page _ _ Hu) as (b & Hg & link & recs & Hn).
  eapply runs_bind; [apply (shadow_page_ok s _ b _ (inv_pool _ _ _ Hi) Ho Hg); by eexists _, _, _|].
  intros fresh s1 (p1 & b1 & -> & Ho1 & Hk1 & Hput & Hg1 & Hf1 & Hfb1) Hev1. cbn [pool set_pool] in Hev1.
  destruct (moved_inv s s p1 (f :: ctx) u fresh b b1 R Hi Hg Hput Hg1 Hev1 Ho1 Hk1) as [Hh1 [(Hpage & Hl1 & Hr1) Hc1]].
  assert (is_u32 fresh) as Hu32 by (destruct Ho1 as [_ Ha]; apply Forall_cons in Ha as [(_ & ? & _) _]; done).
  eapply runs_bind.
  { eapply (patch_child_ok (set_pool p1 s) _ _ _ (length (f_l f)) fresh); [apply Hev1|exact Hpage| |done|].
    - rewrite length_app, !length_fmap. cbn. lia.
    - cbn [pool set_pool]. rewrite <-Hfr. apply Hk1. apply elem_of_app. left. left. }
  intros [] s2 (p2 & b2 & -> & Hw & Hpage2) Hev2. cbn [pool set_pool] in *.
  rewrite (insert_middle ((no_of <$> (f_l f).*1)) _ (length (f_l f))) in Hpage2 by (by rewrite !length_fmap).
  assert (owned_ok p1 (owned_ctx (f :: ctx) ++ owned (renumber u fresh) ++ R)) as Ho1'.
  { rewrite owned_renumber. assert (fresh :: owned_ctx (f :: ctx) ++ beneath u ++ R ≡ₚ
      owned_ctx (f :: ctx) ++ (fresh :: beneath u) ++ R) as <- by solve_Permutation. done. }
  destruct (holds_ctx_wrote p1 p2 f ctx (no_of u) b2 _ (conj (conj Hpage (conj Hl1 Hr1)) Hc1) Ho1' Hw fresh Hpage2) as [Hc2 Hk2].
  assert (∀ x, x ∈ owned_ctx (f :: ctx) → is_frozen p2 x = is_frozen (pool s) x) as Hfz.
  { intros x Hx. rewrite (wrote_frozen _ _ _ _ Hw). apply Hk1. apply elem_of_app. by left. }
  apply Hk; [by eapply evolves_trans; [|apply Hw]| |by rewrite (wrote_frozen _ _ _ _ Hw)| |done|].
  3: { intros x Hx. rewrite (wrote_frozen _ _ _ _ Hw). by apply Hfb1. }
  - apply inv_unplug in Hi as Hu'. destruct Hu' as (_ & _ & _ & Hoc & Hou).
    apply inv_plug; [apply Hw|by eapply inv_tid|by destruct u| |by apply Hw|done|by rewrite ord_renumber|].
    + apply (holds_same p1); [apply evolves_limit, Hw| |done]. intros x Hx. apply Hk2, elem_of_app. by left.
    + rewrite (no_of_plug _ _ _ u). apply (inv_root _ _ _ Hi).
  - apply (keeps_trans _ p1); [apply (keeps_sub _ _ _ _ Hk1)|apply (keeps_sub _ _ _ _ Hk2)]; intros x Hx; rewrite !elem_of_app; auto.
Qed.

(** Paths that differ in page numbers alone. *)
Definition same_shape (c c' : list frame) : Prop := Forall2 (λ f g, f_l f = f_l g ∧ f_r f = f_r g) c c'.
Lemma same_shape_refl c : same_shape c c.
Proof using. induction c; constructor; auto. Qed.
Lemma same_shape_trans c1 c2 c3 : same_shape c1 c2 → same_shape c2 c3 → same_shape c1 c3.
Proof using.
  intros H. revert c3. induction H as [|f g c1 c2 [E1 E2] H IH]; intros c3 H3; [apply Forall2_nil_inv_l in H3 as ->; constructor|].
  apply Forall2_cons_inv_l in H3 as (h & c3' & [E3 E4] & H3 & ->). constructor; [split; congruence|by apply IH].
Qed.
Lemma same_shape_app c1 c2 d1 d2 : same_shape c1 c2 → same_shape d1 d2 → same_shape (c1 ++ d1) (c2 ++ d2).
Proof using. apply Forall2_app. Qed.
Lemma same_shape_view c c' : same_shape c c' →
  (∀ lo, lo_of lo c' = lo_of lo c) ∧ (∀ hi, hi_of hi c' = hi_of hi c) ∧ before c' = before c ∧ after c' = after c ∧
  (∀ b, last_of b c' = last_of b c) ∧ (∀ b, links_ctx b c' ↔ links_ctx b c).
Proof using.
  unfold lo_of, hi_of, last_of. induction 1 as [|f g c c' [E1 E2] H (I1 & I2 & I3 & I4 & I5 & I6)]; [done|].
  cbn [foldr before after links_ctx]. unfold links_frame, last_of. rewrite <-E1, <-E2, I3, I4.
  split_and!; try done; intros; rewrite ?I1, ?I2, ?I5, ?I6; done.
Qed.
Lemma renumber_plug c l no : ∃ c' no', renumber (plug c l) no = plug c' (renumber l no') ∧ same_shape c c' ∧
  no_of (plug c' (renumber l no')) = no.
Proof using.
  destruct c as [|f c _] using rev_ind.
  - exists [], no. split; [done|]. split; [constructor|by destruct l].
  - exists (c ++ [Frame no (f_l f) (f_r f)]), (no_of l). rewrite !plug_app. split_and!.
    + by assert (renumber l (no_of l) = l) as -> by (by destruct l).
    + apply same_shape_app; [apply same_shape_refl|]. by repeat constructor.
    + done.
Qed.
Lemma renumber_twice t a b : renumber (renumber t a) b = renumber t b.
Proof using. by destruct t. Qed.
Lemma renumber_same t : renumber t (no_of t) = t.
Proof using. by destruct t. Qed.
Lemma is_leaf_renumber t no : is_leaf t → is_leaf (renumber t no).
Proof using. by destruct t. Qed.

(** What a hint may name, once the node [u] has a copy of its own. *)
Lemma hint_renumber p p' ctx u fresh h : is_frozen p (no_of u) = true → frozen_but fresh p p' →
  hint_ok p (plug ctx u) h → hint_ok p' (plug ctx (renumber u fresh)) h.
Proof using.
  intros Hfz Hfb Hh. unfold hint_ok in *. rewrite node_nos_plug, elem_of_app in *. destruct (decide (h = fresh)) as [->|Hne].
  - right. right. destruct u; left.
  - rewrite Hfb by done. destruct Hh as [?|[?|Hh]]; [by left|right; by left|].
    destruct u as [no next cs|no cs ks]; cbn [node_nos renumber no_of] in *.
    + apply list_elem_of_singleton in Hh as ->. by left.
    + apply elem_of_cons in Hh as [->|Hh]; [by left|]. right. right. by right.
Qed.

Definition writable p (l : list Z) : Prop := Forall (λ x, is_frozen p x = false) l.
(** What a descent that copies as it goes ends with: the path of [c], on pages that
    may be written, to the leaf [l] moved to [r.1]. *)
Definition found_leaf (c cout : list frame) l R s (path : list Z) (r : Z * list Z) s' : Prop :=
  ∃ c', same_shape c c' ∧ inv s' (plug (c' ++ cout) (renumber l r.1)) R ∧
    writable (pool s') (f_no <$> c' ++ cout) ∧ is_frozen (pool s') r.1 = false ∧
    r.2 = (f_no <$> c') ++ path ∧ last_leaf s' = last_leaf s ∧ keeps (pool s) (pool s') R ∧
    ∀ h, hint_ok (pool s) (plug (c ++ cout) l) h → hint_ok (pool s') (plug (c' ++ cout) (renumber l r.1)) h.
Lemma found_leaf_under c c2 f cout l no' R s s1 path r s' : same_shape c c2 → last_leaf s1 = last_leaf s → keeps (pool s) (pool s1) R →
  (∀ h, hint_ok (pool s) (plug ((c ++ [f]) ++ cout) l) h → hint_ok (pool s1) (plug (c2 ++ f :: cout) (renumber l no')) h) →
  found_leaf c2 (f :: cout) (renumber l no') R s1 (f_no f :: path) r s' → found_leaf (c ++ [f]) cout l R s path r s'.
Proof using.
  intros Hsh El Hk Hh1 (c3 & Hsh3 & Hi & Hw & Hf & Hp & Hll & Hk3 & Hh3). exists (c3 ++ [f]).
  rewrite renumber_twice in Hi, Hh3. rewrite <-(app_assoc c3). split_and!; try done.
  - apply same_shape_app; [by eapply same_shape_trans|by repeat constructor].
  - by rewrite fmap_app, <-app_assoc.
  - congruence.
  - by eapply keeps_trans.
  - intros h Hh. by apply Hh3, Hh1.
Qed.
(** One level down, and whether the child must be copied first. *)
Lemma descend_step key s f cin cout l R : inv s (plug ((cin ++ [f]) ++ cout) l) R →
  within (lo_of None ((cin ++ [f]) ++ cout)) (hi_of None ((cin ++ [f]) ++ cout)) key →
  let child := no_of (plug cin l) in let i := Z.of_nat (length (f_l f)) in
  inv s (plug (f :: cout) (plug cin l)) R ∧
  ∃ b, open_cached (f_no f) s = (s, Some (Ok b)) ∧ tree_id b = tid ∧ kind b = Some Interior ∧ upper_bound b key = Some i ∧
    child_at (page_count (pool s)) b i = Some (Ok child).
Proof using HPL.
  intros Hi Hw child i. rewrite <-app_assoc in Hi, Hw. cbn [app] in Hi, Hw. rewrite plug_app in Hi. rewrite lo_of_app, hi_of_app in Hw.
  split; [done|]. pose proof (inv_unplug _ _ _ _ Hi) as ([Hf1 _] & _ & Ho & [Hof Hoc] & Hou).
  pose proof (proj1 (ord_plug _ _ _ _) Hou) as [Hocin _]. destruct (hole_bounds _ _ _ _ Hocin Hw) as (_ & _ & Hkf).
  eapply frame_step; [done|exact Hf1|exact Hof|exact Hkf|].
  destruct Ho as [_ Ho]. rewrite owned_beneath in Ho. apply Forall_app in Ho as [_ Ho]. cbn [app] in Ho. by apply Forall_cons in Ho as [(? & _) _].
Qed.
Lemma descend_for_write_loop_ok key : ∀ fuel cin l cout s R path,
  inv s (plug (cin ++ cout) l) R → is_leaf l → within (lo_of None (cin ++ cout)) (hi_of None (cin ++ cout)) key →
  writable (pool s) (f_no <$> cout) → is_frozen (pool s) (no_of (plug cin l)) = false → (length cin < fuel)%nat →
  runs (descend_for_write_loop tid fuel key (no_of (plug cin l)) path) s (found_leaf cin cout l R s path).
Proof using HPL.
  induction fuel as [|fuel IH]; intros cin l cout s R path Hi Hl Hw Hwr Hfz Hlen; [lia|]. cbn [descend_for_write_loop].
  destruct cin as [|f cin _] using rev_ind.
  - destruct l as [no next cs|]; [|done]. cbn [app plug no_of] in *.
    pose proof (inv_unplug _ _ _ _ Hi) as (_ & [Hpage _] & _).
    destruct (open_cached_ok (pool s) no Leaf next (c_rec <$> cs) s eq_refl Hpage) as (b & Hg & Hn & Hop).
    eapply runs_read; [exact Hop|]. rewrite (node_tree _ _ _ _ _ _ Hn), Z.eqb_refl, bool_decide_true by apply Hn. cbn [negb].
    eapply runs_read; [by apply get_mut_ok|]. apply runs_ret; [by apply Hi|]. exists []. split_and!; try done. constructor.
  - destruct (descend_step key s f cin cout l R Hi Hw) as (Hi1 & b & Hop & Ht & Hkd & Hub & Hch).
    rewrite <-app_assoc in Hw. cbn [app] in Hw. rewrite lo_of_app, hi_of_app in Hw.
    rewrite plug_app in Hfz |- *. cbn [plug plug1 no_of] in Hfz |- *. rewrite length_app in Hlen. cbn [length] in Hlen.
    eapply runs_read; [exact Hop|]. rewrite Ht, Z.eqb_refl. rewrite bool_decide_false by (rewrite Hkd; done). cbn [negb].
    eapply runs_read; [unfold sure; by rewrite Hub|]. eapply runs_read; [done|].
    eapply runs_read; [unfold lift; by rewrite Hch|]. eapply runs_read; [done|].
    destruct (is_frozen (pool s) (no_of (plug cin l))) eqn:Efz.
    + apply (shadow_child_ok _ s f cout (plug cin l) R); [done|done|].
      intros fresh p' Hev Hi' Hff Hk Hfx Hfb. destruct (renumber_plug cin l fresh) as (c' & no' & E & Hsh & Eno). rewrite E in Hi'.
      rewrite <-plug_app in Hi'. destruct (same_shape_view _ _ Hsh) as (E1 & E2 & _).
      eapply runs_mono; [rewrite <-Eno at 1; apply (IH c' (renumber l no') (f :: cout) _ R); try done|].
      * by apply is_leaf_renumber.
      * by rewrite lo_of_app, hi_of_app, E1, E2.
      * unfold writable in *. rewrite Forall_fmap, Forall_forall in *. intros g Hg. cbn. rewrite Hfx.
        -- apply elem_of_cons in Hg as [->|Hg]; [done|by apply Hwr].
        -- apply elem_of_flat_map. exists g. split; [done|left].
      * by rewrite Eno.
      * rewrite <-(Forall2_length _ _ _ Hsh). lia.
      * intros r s' Hr _. apply (found_leaf_under cin c' f cout l no' R s (set_pool p' s)); try done.
        intros h Hh. cbn [pool set_pool]. rewrite plug_app, <-E. apply (hint_renumber (pool s)); [done|done|].
        by rewrite <-app_assoc, plug_app in Hh.
    + rewrite <-plug_app in Hi1. eapply runs_mono; [apply (IH cin l (f :: cout) s R); try done|].
      * by rewrite lo_of_app, hi_of_app.
      * by constructor.
      * lia.
      * intros r s' Hr _. eapply (found_leaf_under _ cin _ _ _ (no_of l)); [apply same_shape_refl|done|by apply keeps_refl| |].
        -- intros h Hh. by rewrite renumber_same, <-app_assoc in *.
        -- by rewrite renumber_same.
Qed.

Lemma shadow_root_ok s t R : inv s t R →
  runs (if is_frozen (pool s) (root s) then let+ fresh := shadow_page (root s) in set_root fresh else ret tt) s (λ _ s',
    ∃ no, inv s' (renumber t no) R ∧ is_frozen (pool s') no = false ∧ last_leaf s' = last_leaf s ∧ keeps (pool s) (pool s') R ∧
      ∀ h, hint_ok (pool s) t h → hint_ok (pool s') (renumber t no) h).
Proof using HPL.
  intros Hi. destruct (is_frozen (pool s) (root s)) eqn:Efz.
  - rewrite <-(inv_root _ _ _ Hi) in *. pose proof (inv_all _ _ _ Hi) as Ho. pose proof (plug_owned_perm [] t R) as Hp.
    cbn [plug owned_ctx flat_map app] in Hp. rewrite Hp in Ho.
    destruct (holds_page _ _ (inv_holds _ _ _ Hi)) as (b & Hg & link & recs & Hn).
    eapply runs_bind; [apply (shadow_page_ok s _ b _ (inv_pool _ _ _ Hi) Ho Hg); by eexists _, _, _|].
    intros fresh s1 (p1 & b1 & -> & Ho1 & Hk1 & Hput & Hg1 & Hf1 & Hfb1) Hev1. cbn [pool set_pool] in Hev1.
    destruct (moved_inv s s p1 [] t fresh b b1 R Hi Hg Hput Hg1 Hev1 Ho1 Hk1) as [Hh1 _].
    split; [|by apply evolves_refl, Hev1]. exists fresh. split; [|split; [done|split; [done|split]]].
    + split; [apply Hev1|by eapply inv_tid|done|by rewrite owned_renumber| |by destruct t].
      apply ord_renumber, (inv_ord _ _ _ Hi).
    + eapply keeps_sub; [exact Hk1|]. intros x Hx. rewrite elem_of_app. auto.
    + intros h Hh. by apply (hint_renumber (pool s) p1 []).
  - apply runs_ret; [apply Hi|]. exists (no_of t). rewrite renumber_same. rewrite <-(inv_root _ _ _ Hi) in Efz.
    split_and!; [done|done|done|by apply keeps_refl|done].
Qed.
Lemma descend_for_write_ok key s c l R : inv s (plug c l) R → is_leaf l → within (lo_of None c) (hi_of None c) key →
  runs (descend_for_write tid key) s (found_leaf c [] l R s []).
Proof using HPL.
  intros Hi Hl Hw. unfold descend_for_write. eapply runs_read; [done|]. eapply runs_read; [done|].
  eapply runs_bind; [by apply shadow_root_ok|].
  intros [] s1 (no & Hi1 & Hf1 & Hll1 & Hk1 & Hh1) _. destruct (renumber_plug c l no) as (c' & no' & E & Hsh & Eno). rewrite E in Hi1.
  eapply runs_read; [done|]. eapply runs_read; [apply levels_ok|]. rewrite <-(inv_root _ _ _ Hi1).
  destruct (same_shape_view _ _ Hsh) as (E1 & E2 & _).
  eapply runs_mono; [apply (descend_for_write_loop_ok key _ c' (renumber l no') [] s1 R [])|].
  - by rewrite app_nil_r.
  - by apply is_leaf_renumber.
  - by rewrite app_nil_r, E1, E2.
  - constructor.
  - by rewrite Eno.
  - by eapply path_fuel, inv_view.
  - intros r s' (c3 & Hsh3 & Hi3 & Hw3 & Hf3 & Hp3 & Hll3 & Hk3 & Hh3) _. exists c3. rewrite renumber_twice in Hi3, Hh3.
    split_and!; try done; [by eapply same_shape_trans|congruence|by eapply keeps_trans|].
    intros h Hh. apply Hh3. rewrite app_nil_r in Hh |- *. rewrite <-E. by apply Hh1.
Qed.
End write.
End TreeWrite.
