(* ===== verification/TreeSplit.v ===== *)
(** * Separators handed up ([insert_separator] of [core/kernel/src/btree.rs])

    A node split in two hands the key between the halves to its parent, which may
    have to split in turn; above the root a new one is built.  First the shapes:
    a frame with two subtrees in its hole, cut where the code cuts it, and where a
    subtree ends up; then the pages. *)
From S2P Require Import Prelude Crc Page Cells Order Node Interior Pool Tree BTree TreeRep TreeRead TreeWrite.
Import Page Cells Order Node Interior Tree BTree TreeRep TreeRead TreeWrite.

Module TreeSplit.

(** ** Shapes *)
(** The children and separators of a frame with [t1] and [t2] in its hole. *)
Definition grown_children (f : frame) (t1 t2 : tree) : list tree := (f_l f).*1 ++ t1 :: t2 :: (f_r f).*2.
Definition grown_keys (f : frame) (sep : bytes) : list bytes := (f_l f).*2 ++ sep :: (f_r f).*1.

Lemma grown_ords lo hi f t1 t2 sep : ord_frame lo hi f →
  ord (end_l lo (f_l f)) (Some sep) t1 → ord (Some sep) (start_r hi (f_r f)) t2 →
  inside (end_l lo (f_l f)) (start_r hi (f_r f)) sep →
  ords hi lo (grown_children f t1 t2) (grown_keys f sep).
Proof.
  intros [Hl Hr] H1 H2 [Hi1 Hi2]. unfold grown_children, grown_keys.
  change (t2 :: (f_r f).*2) with (((sep, t2) :: f_r f).*2). change (sep :: (f_r f).*1) with (((sep, t2) :: f_r f).*1).
  apply ords_app. split; [done|]. split; [|done]. cbn [ord_r]. destruct (f_r f) as [|[k c] r] eqn:Er.
  - split; [by split|by split].
  - cbn [start_r below ord_r] in *. destruct Hr as ((Hk1 & Hk2) & Hc & Hr).
    split; [split; [done|]|split; [done|]].
    + destruct hi; cbn in *; [order|done].
    + split; [by split|by split].
Qed.
Lemma grown_links last f t1 t2 : links_frame last f → links false t1 →
  links (match f_r f with [] => last | _ => false end) t2 → all_links last (grown_children f t1 t2).
Proof.
  intros [Hl Hr] H1 H2. unfold grown_children. apply all_links_app. split; [done|]. split; [done|].
  destruct (f_r f) as [|x r]; [done|]. by apply all_links_cons.
Qed.
Lemma grown_flat {A} (g : tree → list A) f t1 t2 :
  flat_map g (grown_children f t1 t2) = flat_map g (f_l f).*1 ++ g t1 ++ g t2 ++ flat_map g (f_r f).*2.
Proof. unfold grown_children. rewrite flat_map_app. done. Qed.
Lemma flat_map_cut {A B} (g : A → list B) l n : flat_map g (take n l) ++ flat_map g (drop n l) = flat_map g l.
Proof. by rewrite <-flat_map_app, take_drop. Qed.

(** Where a subtree hangs, by the bounds of its place. *)
Definition placed (T t : tree) (lo hi : option bytes) : Prop := ∃ c, T = plug c t ∧ lo_of None c = lo ∧ hi_of None c = hi.
(** The bounds of the [i]-th child of a node. *)
Definition lo_at (lo : option bytes) (ks : list bytes) (i : nat) : option bytes := match i with O => lo | S i => ks !! i end.
Definition hi_at (hi : option bytes) (ks : list bytes) (i : nat) : option bytes := match ks !! i with Some k => Some k | None => hi end.
Lemma end_l_at lo (l : list (tree * bytes)) ks : end_l lo l = lo_at lo (l.*2 ++ ks) (length l).
Proof.
  unfold end_l. destruct l as [|x l] using rev_ind; [done|]. rewrite last_snoc, length_app, fmap_app. destruct x as [c k].
  replace (length l + length [(c, k)])%nat with (S (length l)) by (cbn; lia). cbn [lo_at].
  rewrite <-app_assoc, lookup_app_r by (rewrite length_fmap; lia). by rewrite length_fmap, Nat.sub_diag.
Qed.
Lemma start_r_at hi (r : list (bytes * tree)) ks n : length ks = n → start_r hi r = hi_at hi (ks ++ r.*1) n.
Proof.
  intros <-. unfold hi_at. rewrite lookup_app_r, Nat.sub_diag by lia. by destruct r as [|[k c] r].
Qed.
Lemma place_child T no cs ks lo hi (i : nat) c : length cs = S (length ks) → placed T (TNode no cs ks) lo hi → cs !! i = Some c →
  placed T c (lo_at lo ks i) (hi_at hi ks i).
Proof.
  intros Hl (ctx & -> & <- & <-) Hi. destruct (split_children cs ks i Hl) as (l & t & r & -> & -> & <-).
  { apply lookup_lt_Some in Hi. lia. }
  rewrite lookup_app_r in Hi by (rewrite length_fmap; lia). rewrite length_fmap, Nat.sub_diag in Hi. injection Hi as ->.
  exists (Frame no l r :: ctx). split; [done|]. cbn [lo_of hi_of foldr f_l f_r]. fold (lo_of None ctx) (hi_of None ctx).
  split; [apply end_l_at|]. apply start_r_at. by rewrite length_fmap.
Qed.
(** A node cut at its [n]-th separator: each child keeps its bounds. *)
Lemma place_cut T no no' cs ks lo hi (n : nat) up : length cs = S (length ks) → ks !! n = Some up →
  placed T (TNode no (take (S n) cs) (take n ks)) lo (Some up) →
  placed T (TNode no' (drop (S n) cs) (drop (S n) ks)) (Some up) hi →
  ∀ (i : nat) c, cs !! i = Some c → placed T c (lo_at lo ks i) (hi_at hi ks i).
Proof.
  intros Hl Hn P1 P2 i c Hi. pose proof (lookup_lt_Some _ _ _ Hn) as Hnl. destruct (decide (i ≤ n)%nat) as [Hin|Hin].
  - eapply (place_child _ _ _ _ _ _ i) in P1; [|rewrite !length_take; lia|by rewrite lookup_take_lt by lia].
    destruct P1 as (ctx & ET & Elo & Ehi). exists ctx. split; [done|]. rewrite Elo, Ehi. split.
    + destruct i as [|i]; [done|]. cbn [lo_at]. by rewrite lookup_take_lt by lia.
    + unfold hi_at. destruct (decide (i = n)) as [->|].
      * by rewrite lookup_take_ge, Hn by lia.
      * rewrite lookup_take_lt by lia. destruct (lookup_lt_is_Some_2 ks i) as [k ->]; [lia|done].
  - eapply (place_child _ _ _ _ _ _ (i - S n)) in P2; [|rewrite !length_drop; lia|rewrite lookup_drop; by replace (S n + (i - S n))%nat with i by lia].
    destruct P2 as (ctx & ET & Elo & Ehi). exists ctx. split; [done|]. rewrite Elo, Ehi. split.
    + destruct i as [|i]; [lia|]. destruct (decide (i = n)) as [->|].
      * rewrite Nat.sub_diag. cbn [lo_at]. by rewrite Hn.
      * replace (S i - S n)%nat with (S (i - S n)) by lia. cbn [lo_at]. rewrite lookup_drop. f_equal. lia.
    + unfold hi_at. rewrite lookup_drop. by replace (S n + (i - S n))%nat with i by lia.
Qed.
Lemma grown_place T f t1 t2 sep lo hi :
  (∀ (i : nat) c, grown_children f t1 t2 !! i = Some c → placed T c (lo_at lo (grown_keys f sep) i) (hi_at hi (grown_keys f sep) i)) →
  placed T t1 (end_l lo (f_l f)) (Some sep) ∧ placed T t2 (Some sep) (start_r hi (f_r f)).
Proof.
  intros Hp. unfold grown_children in Hp. set (n := length (f_l f)).
  assert (grown_keys f sep !! n = Some sep) as Hsep.
  { unfold grown_keys. rewrite lookup_app_r by (rewrite length_fmap; lia). by rewrite length_fmap, Nat.sub_diag. }
  split.
  - destruct (Hp n t1) as (c & ET & Elo & Ehi).
    { rewrite lookup_app_r by (rewrite length_fmap; lia). by rewrite length_fmap, Nat.sub_diag. }
    exists c. split; [done|]. rewrite Elo, Ehi. split; [symmetry; apply end_l_at|]. unfold hi_at. by rewrite Hsep.
  - destruct (Hp (S n) t2) as (c & ET & Elo & Ehi).
    { rewrite lookup_app_r by (rewrite length_fmap; lia). rewrite length_fmap. by replace (S n - length (f_l f))%nat with 1%nat by lia. }
    exists c. split; [done|]. rewrite Elo, Ehi. cbn [lo_at]. split; [done|]. unfold grown_keys.
    rewrite (start_r_at hi (f_r f) ((f_l f).*2 ++ [sep]) (S n)) by (rewrite length_app, length_fmap; cbn; lia).
    by rewrite <-app_assoc.
Qed.

Section split.
Context `{HC : Crc32c} `{HL : !Crc32cLaws} {P : Type} `{HP : PagePool P} `{HPL : !PagePoolLaws P}.
Context {tid : TreeId}.
Implicit Types (p : P) (s : BTree P) (t : tree) (O R : list Z).

(** ** The parent's page *)
Lemma zip_grow (ks : list bytes) (ns : list Z) (n : nat) k x : length ks = length ns → (n ≤ length ks)%nat →
  take n (zip_with enc_interior ks ns) ++ enc_interior k x :: drop n (zip_with enc_interior ks ns) =
    zip_with enc_interior (take n ks ++ k :: drop n ks) (take n ns ++ x :: drop n ns).
Proof using.
  intros Hl Hn. rewrite zip_with_take, zip_with_drop, zip_with_app by (rewrite !length_take; lia). done.
Qed.
Lemma insert_after {A} (h : A) ns l1 x y l2 n : h :: ns = l1 ++ x :: l2 → n = length l1 →
  h :: (take n ns ++ y :: drop n ns) = l1 ++ x :: y :: l2.
Proof using.
  intros E ->. destruct l1 as [|z l1]; injection E as -> ->; [done|]. cbn [length app]. f_equal.
  assert (l1 ++ x :: l2 = (l1 ++ [x]) ++ l2) as -> by (by rewrite <-app_assoc).
  rewrite take_app_length', drop_app_length' by (rewrite length_app; cbn; lia). by rewrite <-app_assoc.
Qed.
Lemma Forall_grow {A} (Q : A → Prop) l n x : Forall Q l → Q x → Forall Q (take n l ++ x :: drop n l).
Proof using. intros Hl Hx. apply Forall_app. split; [by apply Forall_take|]. constructor; [done|by apply Forall_drop]. Qed.
(** What the code reads of a parent whose hole takes [t1] and [t2]. *)
Record grown_page p (f : frame) t1 t2 sep (b : bytes) (h : Z) (recs : list bytes) (ns' : list Z) : Prop := {
  gp_get : get p (f_no f) = Ok b;
  gp_at : interior_at b tid (f_no f) h recs;
  gp_keys : Node.keys recs = (f_l f).*2 ++ (f_r f).*1;
  gp_nos : no_of <$> grown_children f t1 t2 = h :: ns';
  gp_length : length ns' = length (grown_keys f sep);
  gp_seps : Forall sep_ok (grown_keys f sep);
  gp_u32 : Forall (λ no, is_u32 no) (h :: ns');
  gp_place : (length (f_l f) ≤ length recs)%nat;
  gp_recs : take (length (f_l f)) recs ++ enc_interior sep (no_of t2) :: drop (length (f_l f)) recs =
            zip_with enc_interior (grown_keys f sep) ns';
}.
Lemma grown_view p f t1 t2 sep :
  interior_page p (f_no f) ((no_of <$> (f_l f).*1) ++ no_of t1 :: (no_of <$> (f_r f).*2)) ((f_l f).*2 ++ (f_r f).*1) →
  sep_ok sep → is_u32 (no_of t2) → ∃ b h recs ns', grown_page p f t1 t2 sep b h recs ns'.
Proof using.
  intros Hp Hs Hu2. set (n := length (f_l f)). destruct (_ ++ no_of t1 :: _) as [|h ns] eqn:E; [done|].
  destruct Hp as ((b & Hg & Hb) & Hl & Hk & Hu). symmetry in E.
  assert (grown_keys f sep = take n ((f_l f).*2 ++ (f_r f).*1) ++ sep :: drop n ((f_l f).*2 ++ (f_r f).*1)) as Eks.
  { unfold grown_keys. by rewrite take_app_length', drop_app_length' by (unfold n; by rewrite length_fmap). }
  assert (n ≤ length ((f_l f).*2 ++ (f_r f).*1))%nat by (rewrite length_app, length_fmap; unfold n; lia).
  exists b, h, (zip_with enc_interior ((f_l f).*2 ++ (f_r f).*1) ns), (take n ns ++ no_of t2 :: drop n ns). split; try done.
  - apply interior_keys; [done|by apply Forall_cons in Hu as [_ Hu]|done].
  - rewrite (insert_after _ _ _ _ (no_of t2) _ n E) by (unfold n; by rewrite !length_fmap).
    unfold grown_children. by rewrite fmap_app.
  - rewrite Eks, !length_app. cbn [length]. rewrite !length_take, !length_drop. lia.
  - rewrite Eks. by apply Forall_grow.
  - apply Forall_cons in Hu as [Hh Hu]. constructor; [done|by apply Forall_grow].
  - rewrite length_zip_with. unfold n in *. lia.
  - rewrite Eks. apply zip_grow; lia.
Qed.
Lemma enc_interior_blen k x : blen (enc_interior k x) = 6 + blen k.
Proof using. unfold enc_interior. rewrite !blen_app, !blen_le_bytes. lia. Qed.
Lemma small_records ks ns : Forall sep_ok ks → Forall (λ r, blen r + 4 ≤ USABLE / 2) (zip_with enc_interior ks ns).
Proof using.
  intros Hk. revert ns. induction Hk as [|k ks [_ Hk] Hks IH]; intros [|x ns]; cbn [zip_with]; constructor; [|by apply IH].
  rewrite enc_interior_blen. change KEY_CAP with 2018 in Hk. change (USABLE / 2) with 2028. lia.
Qed.
(** A separator that does not fit leaves a page that can be cut in two. *)
Lemma grown_split p f t1 t2 sep b h recs ns' : grown_page p f t1 t2 sep b h recs ns' →
  free_space b < blen (enc_interior sep (no_of t2)) + 4 →
  ∃ sp : nat, split_point (zip_with enc_interior (grown_keys f sep) ns') USABLE = Some (Z.of_nat sp) ∧
    cut_fits USABLE (zip_with enc_interior (grown_keys f sep) ns') sp.
Proof using.
  intros G Hf. set (recs' := zip_with enc_interior (grown_keys f sep) ns').
  assert (total (sizes recs') = total (sizes recs) + (blen (enc_interior sep (no_of t2)) + 4)) as Ht.
  { unfold recs'. rewrite <-(gp_recs _ _ _ _ _ _ _ _ _ G). pose proof (total_cut recs (length (f_l f))) as Hc.
    unfold sizes in *. rewrite fmap_app, total_app. csimpl. unfold total in *. cbn [foldr]. lia. }
  pose proof (int_tight _ _ _ _ _ (gp_at _ _ _ _ _ _ _ _ _ G)) as Hti. pose proof (free_space_nonneg b).
  pose proof (small_records (grown_keys f sep) ns' (gp_seps _ _ _ _ _ _ _ _ _ G)) as Hsm. fold recs' in Hsm.
  assert (blen (enc_interior sep (no_of t2)) + 4 ≤ USABLE / 2) as Hrec.
  { rewrite Forall_forall in Hsm. apply Hsm. unfold recs'. rewrite <-(gp_recs _ _ _ _ _ _ _ _ _ G). rewrite elem_of_app. right. left. }
  assert (USABLE < total (sizes recs')) as Hbig by lia.
  assert (2 ≤ length recs')%nat as Hlen.
  { clearbody recs'. clear Ht. destruct recs' as [|r1 [|r2 l]]; cbn [length]; [done| |lia].
    apply Forall_cons in Hsm as [Hsm _]. change (USABLE < blen r1 + 4 + 0) in Hbig.
    change (USABLE / 2) with 2028 in Hsm. change USABLE with 4056 in Hbig. lia. }
  pose proof (split_point_exists recs' Hlen Hsm ltac:(lia)) as [mid Hmid].
  pose proof (split_point_spec recs' USABLE) as Hsp. destruct (split_point recs' USABLE) as [m|]; [|by apply Hsp in Hmid].
  destruct Hsp as (sp & -> & Hsp & _). by exists sp.
Qed.

(** ** Handing a separator up *)
(** [t1] in the hole of [ctx] and [t2] beside it, both on their pages, with [sep]
    between them; [last]: the leaves after have no sibling at their end. *)
Record sep_pre s (ctx : list frame) t1 t2 (sep : bytes) R (last : bool) : Prop := {
  sp_pool : pool_ok (pool s);
  sp_tid : is_u16 tid;
  sp_ctx : holds_ctx (pool s) ctx (no_of t1);
  sp_t1 : holds (pool s) t1;
  sp_t2 : holds (pool s) t2;
  sp_owned : owned_ok (pool s) (owned_ctx ctx ++ owned t1 ++ owned t2 ++ R);
  sp_writable : writable (pool s) (f_no <$> ctx);
  sp_ord : ord_ctx None None ctx;
  sp_ord1 : ord (lo_of None ctx) (Some sep) t1;
  sp_ord2 : ord (Some sep) (hi_of None ctx) t2;
  sp_inside : inside (lo_of None ctx) (hi_of None ctx) sep;
  sp_sep : sep_ok sep;
  sp_links : links_ctx last ctx ∧ links false t1 ∧ links (last_of last ctx) t2;
  sp_root : no_of (plug ctx t1) = root s;
}.
Record sep_post s (ctx : list frame) t1 t2 (sep : bytes) R (last : bool) s' (T : tree) : Prop := {
  sq_inv : inv s' T R;
  sq_links : links last T;
  sq_cells : cells T = before ctx ++ cells t1 ++ cells t2 ++ after ctx;
  sq_leaves : leaf_nos T = leaves_before ctx ++ leaf_nos t1 ++ leaf_nos t2 ++ leaves_after ctx;
  sq_place1 : placed T t1 (lo_of None ctx) (Some sep);
  sq_place2 : placed T t2 (Some sep) (hi_of None ctx);
  sq_last : last_leaf s' = last_leaf s;
  sq_keeps : keeps (pool s) (pool s') R;
}.
Lemma owned_u32 p l x : owned_ok p l → x ∈ l → is_u32 x.
Proof using. intros [_ Ho] Hx. rewrite Forall_forall in Ho. by apply Ho. Qed.
Lemma sep_pre_u32 s ctx t1 t2 sep R last : sep_pre s ctx t1 t2 sep R last → is_u32 (no_of t1) ∧ is_u32 (no_of t2).
Proof using.
  intros Hpre. split; (eapply owned_u32; [apply Hpre|]; rewrite !elem_of_app).
  - right. left. apply no_in_owned.
  - right. right. left. apply no_in_owned.
Qed.

(** The root split. *)
Lemma root_split_ok s t1 t2 sep R last : sep_pre s [] t1 t2 sep R last →
  runs (insert_separator tid [] sep (no_of t2)) s (λ _ s', ∃ T, sep_post s [] t1 t2 sep R last s' T).
Proof using HPL.
  intros Hpre. destruct (sep_pre_u32 _ _ _ _ _ _ _ Hpre) as [Hu1 Hu2]. cbn [insert_separator].
  pose proof (sp_owned _ _ _ _ _ _ _ Hpre) as Ho. cbn [owned_ctx flat_map app] in Ho.
  eapply runs_read; [done|]. rewrite <-(sp_root _ _ _ _ _ _ _ Hpre). cbn [plug].
  apply (runs_alloc _ _ _ _ (sp_pool _ _ _ _ _ _ _ Hpre) Ho). intros no p1 Hev1 Ho1 Hk1 [Hf1 _].
  assert (is_u32 no) as Hu by (eapply owned_u32; [exact Ho1|left]).
  pose proof (interior_set_link _ _ _ _ _ (no_of t1) (interior_init tid no (sp_tid _ _ _ _ _ _ _ Hpre) Hu) Hu1) as Hb.
  destruct (interior_insert _ _ _ _ _ 0 (enc_interior sep (no_of t2)) Hb (le_n _)) as (b & Hins & Hb1).
  { apply enc_interior_ok; [apply Hpre|done]. }
  { rewrite (int_tight _ _ _ _ _ Hb), enc_interior_blen. pose proof (sp_sep _ _ _ _ _ _ _ Hpre) as [_ Hk].
    change KEY_CAP with 2018 in Hk. change (total (sizes [])) with 0. change USABLE with 4056. lia. }
  change (Z.of_nat 0) with 0 in Hins. eapply runs_read; [unfold lift; by rewrite Hins|].
  apply runs_write; [apply Hev1|done|]. intros p2 Hw. cbn [pool set_pool] in Hw.
  set (T := TNode no [t1; t2] [sep]).
  assert (keeps p1 p2 (owned t1 ++ owned t2 ++ R)) as Hk2.
  { apply (wrote_keeps _ _ _ _ _ Hw). destruct Ho1 as [Hnd _]. by apply NoDup_cons in Hnd as [? _]. }
  pose proof (evolves_limit _ _ (evolves_trans _ _ _ Hev1 (wrote_ev _ _ _ _ Hw))) as Hlim.
  pose proof (keeps_trans _ _ _ _ Hk1 Hk2) as Hk.
  split; [|apply evolves_refl, (wrote_ev _ _ _ _ Hw)]. exists T. split.
  - split; [apply Hw|apply Hpre| | |split; [apply Hpre|split; [apply Hpre|apply Hpre]]|done].
    + unfold T. rewrite holds_node. cbn [pool set_pool]. split.
      * split; [|split; [done|split; [apply Forall_singleton, Hpre|apply Forall_cons; split; [done|by apply Forall_singleton]]]].
        exists (finalise b 0). split; [by apply wrote_here in Hw|]. by apply interior_finalise.
      * constructor; [|constructor; [|constructor]]; (apply (holds_same (pool s)); [exact Hlim| |apply Hpre]; intros x Hx; apply Hk; rewrite !elem_of_app; auto).
    + cbn [pool set_pool T owned flat_map]. apply (wrote_owned _ _ _ _ Hw). rewrite app_nil_r. cbn [app]. by rewrite <-app_assoc.
  - destruct (sp_links _ _ _ _ _ _ _ Hpre) as (_ & ? & ?). done.
  - cbn. by rewrite !app_nil_r.
  - cbn. by rewrite !app_nil_r.
  - by exists [Frame no [] [(sep, t2)]].
  - by exists [Frame no [(t1, sep)] []].
  - done.
  - eapply keeps_sub; [exact Hk|]. intros x Hx. rewrite !elem_of_app. auto.
Qed.

Lemma grown_post s f ctx t1 t2 sep R last s' T :
  inv s' T R → links last T →
  cells T = before ctx ++ flat_map cells (grown_children f t1 t2) ++ after ctx →
  leaf_nos T = leaves_before ctx ++ flat_map leaf_nos (grown_children f t1 t2) ++ leaves_after ctx →
  (∀ (i : nat) c, grown_children f t1 t2 !! i = Some c →
     placed T c (lo_at (lo_of None ctx) (grown_keys f sep) i) (hi_at (hi_of None ctx) (grown_keys f sep) i)) →
  last_leaf s' = last_leaf s → keeps (pool s) (pool s') R → sep_post s (f :: ctx) t1 t2 sep R last s' T.
Proof using.
  intros Hi Hl Hc Hln Hp Hll Hk. apply grown_place in Hp as [P1 P2]. split; try done.
  - rewrite Hc, grown_flat. cbn [before after]. unfold child_cells. by rewrite <-!app_assoc.
  - rewrite Hln, grown_flat. cbn [leaves_before leaves_after]. by rewrite <-!app_assoc.
Qed.
Lemma grown_ords_pre s f ctx t1 t2 sep R last : sep_pre s (f :: ctx) t1 t2 sep R last →
  ords (hi_of None ctx) (lo_of None ctx) (grown_children f t1 t2) (grown_keys f sep).
Proof using.
  intros Hpre. destruct (sp_ord _ _ _ _ _ _ _ Hpre) as [Hof _].
  apply grown_ords; [done|apply (sp_ord1 _ _ _ _ _ _ _ Hpre)|apply (sp_ord2 _ _ _ _ _ _ _ Hpre)|apply (sp_inside _ _ _ _ _ _ _ Hpre)].
Qed.
Lemma grown_links_pre s f ctx t1 t2 sep R last : sep_pre s (f :: ctx) t1 t2 sep R last →
  all_links (last_of last ctx) (grown_children f t1 t2).
Proof using.
  intros Hpre. destruct (sp_links _ _ _ _ _ _ _ Hpre) as ([Hlf _] & H1 & H2). by apply grown_links.
Qed.
Lemma grown_holds_all p f t1 t2 : holds_all p (f_l f).*1 → holds_all p (f_r f).*2 → holds p t1 → holds p t2 →
  holds_all p (grown_children f t1 t2).
Proof using. intros. unfold holds_all, grown_children in *. apply Forall_app. split; [done|]. by constructor; [|constructor]. Qed.
(** What a parent and its children own, in the order the frame lists them. *)
Lemma grown_owned f ctx t1 t2 R :
  owned_ctx (f :: ctx) ++ owned t1 ++ owned t2 ++ R ≡ₚ
  f_no f :: owned_ctx ctx ++ flat_map owned (grown_children f t1 t2) ++ R.
Proof using.
  rewrite grown_flat. change (owned_ctx (f :: ctx)) with (owned_frame f ++ owned_ctx ctx). unfold owned_frame. solve_Permutation.
Qed.
Lemma ctx_wrote_outside p p' ctx h cs R : record_limit p' = record_limit p →
  keeps p p' (owned_ctx ctx ++ flat_map owned cs ++ R) → holds_ctx p ctx h → holds_all p cs →
  holds_ctx p' ctx h ∧ holds_all p' cs ∧ keeps p p' R.
Proof using.
  intros Hlim Hk Hc Hcs. split_and!.
  - apply (holds_ctx_same p); [done| |done]. intros x Hx. apply Hk. rewrite !elem_of_app. auto.
  - apply (holds_all_same p); [done| |done]. intros x Hx. apply Hk. rewrite !elem_of_app. auto.
  - eapply keeps_sub; [exact Hk|]. intros x Hx. rewrite !elem_of_app. auto.
Qed.

Lemma no_of_plug_same ctx t t' : no_of t = no_of t' → no_of (plug ctx t) = no_of (plug ctx t').
Proof using. intros E. destruct ctx as [|f ctx]; [done|apply no_of_plug]. Qed.

(** A parent with room. *)
Lemma separator_fits_ok s f ctx t1 t2 sep R last b h recs ns' : sep_pre s (f :: ctx) t1 t2 sep R last →
  grown_page (pool s) f t1 t2 sep b h recs ns' → blen (enc_interior sep (no_of t2)) + 4 ≤ free_space b →
  runs (let+ b := get_mut (f_no f) in
        let+ b := lift (insert_slot b (Z.of_nat (length (f_l f))) (enc_interior sep (no_of t2))) in
        write (f_no f) (finalise b 0)) s (λ _ s', ∃ T, sep_post s (f :: ctx) t1 t2 sep R last s' T).
Proof using HPL.
  intros Hpre G Hfit. pose proof (sp_writable _ _ _ _ _ _ _ Hpre) as [Hf _]%Forall_cons.
  destruct (sep_pre_u32 _ _ _ _ _ _ _ Hpre) as [_ Hu2]. pose proof (sp_ctx _ _ _ _ _ _ _ Hpre) as [(_ & Hl & Hr) Hc].
  eapply runs_read; [apply get_mut_ok; [apply G|done]|].
  destruct (interior_insert _ _ _ _ _ (length (f_l f)) _ (gp_at _ _ _ _ _ _ _ _ _ G) (gp_place _ _ _ _ _ _ _ _ _ G)
    (enc_interior_ok _ _ (sp_sep _ _ _ _ _ _ _ Hpre) Hu2) Hfit) as (b' & Hins & Hb').
  rewrite (gp_recs _ _ _ _ _ _ _ _ _ G) in Hb'. eapply runs_read; [unfold lift; by rewrite Hins|].
  pose proof (sp_owned _ _ _ _ _ _ _ Hpre) as Ho. rewrite grown_owned in Ho.
  set (cs := grown_children f t1 t2). set (ks := grown_keys f sep). fold ks in Hb'.
  eapply runs_mono; [apply (wrote_interior s (f_no f) (finalise b' 0) (no_of <$> cs) ks h ns')|].
  { apply Hpre. } { done. } { by apply interior_finalise. } { apply G. } { apply G. } { apply G. }
  { unfold cs. rewrite (gp_nos _ _ _ _ _ _ _ _ _ G). apply G. }
  intros [] s' (p' & b2 & -> & Hw & Hpage) Hev.
  assert (keeps (pool s) p' (owned_ctx ctx ++ flat_map owned cs ++ R)) as Hk.
  { apply (wrote_keeps _ _ _ _ _ Hw). destruct Ho as [Hnd _]. by apply NoDup_cons in Hnd as [? _]. }
  pose proof (grown_holds_all _ _ _ _ Hl Hr (sp_t1 _ _ _ _ _ _ _ Hpre) (sp_t2 _ _ _ _ _ _ _ Hpre)) as Hall.
  destruct (ctx_wrote_outside _ _ _ _ _ _ (evolves_limit _ _ (wrote_ev _ _ _ _ Hw)) Hk Hc Hall) as (Hc' & Hall' & HkR).
  set (N := TNode (f_no f) cs ks).
  assert (inv (set_pool p' s) (plug ctx N) R) as Hi.
  { destruct (sp_ord _ _ _ _ _ _ _ Hpre) as [_ Hoc].
    apply inv_plug; [apply Hw|apply Hpre|exact Hc'|by apply holds_node| |exact Hoc|by eapply grown_ords_pre|].
    - apply (wrote_owned _ _ _ _ Hw). cbn [N owned app]. by rewrite <-Permutation_middle.
    - change (root (set_pool p' s)) with (root s). rewrite <-(sp_root _ _ _ _ _ _ _ Hpre). by apply (no_of_plug_same ctx N (plug1 f t1)). }
  exists (plug ctx N). apply grown_post; try done.
  - apply links_plug. destruct (sp_links _ _ _ _ _ _ _ Hpre) as ([_ Hlc] & _). split; [done|]. exact (grown_links_pre _ _ _ _ _ _ _ _ Hpre).
  - by rewrite cells_plug.
  - by rewrite leaf_nos_plug.
  - intros i c Hic. eapply place_child; [|by exists ctx|done]. eapply ords_length. by eapply grown_ords_pre.
Qed.

(** *** A parent cut in two *)
Definition left_half (f : frame) t1 t2 sep (sp : nat) : tree :=
  TNode (f_no f) (take (S sp) (grown_children f t1 t2)) (take sp (grown_keys f sep)).
Definition right_half (no : Z) (f : frame) t1 t2 sep (sp : nat) : tree :=
  TNode no (drop (S sp) (grown_children f t1 t2)) (drop (S sp) (grown_keys f sep)).
(** The records of the two pages, and what the code reads of the first one to the right. *)
Record cut_at (f : frame) t1 t2 sep (h : Z) (ns' : list Z) (sp : nat) (up : bytes) (c : Z) : Prop := {
  cut_up : grown_keys f sep !! sp = Some up;
  cut_child : ns' !! sp = Some c;
  cut_left : no_of <$> take (S sp) (grown_children f t1 t2) = h :: take sp ns';
  cut_right : no_of <$> drop (S sp) (grown_children f t1 t2) = c :: drop (S sp) ns';
  cut_recs : drop sp (zip_with enc_interior (grown_keys f sep) ns') =
    enc_interior up c :: zip_with enc_interior (drop (S sp) (grown_keys f sep)) (drop (S sp) ns');
  cut_taken : take sp (zip_with enc_interior (grown_keys f sep) ns') = zip_with enc_interior (take sp (grown_keys f sep)) (take sp ns');
}.
Lemma grown_cut p f t1 t2 sep b h recs ns' sp : grown_page p f t1 t2 sep b h recs ns' →
  cut_fits USABLE (zip_with enc_interior (grown_keys f sep) ns') sp → ∃ up c, cut_at f t1 t2 sep h ns' sp up c.
Proof using.
  intros G ([_ Hsp] & _). rewrite length_zip_with in Hsp. pose proof (gp_length _ _ _ _ _ _ _ _ _ G) as Hl.
  pose proof (gp_nos _ _ _ _ _ _ _ _ _ G) as En.
  destruct (lookup_lt_is_Some_2 (grown_keys f sep) sp) as [up Hup]; [lia|]. destruct (lookup_lt_is_Some_2 ns' sp) as [c Hc]; [lia|].
  exists up, c. split; try done.
  - by rewrite fmap_take, En.
  - rewrite fmap_drop, En. cbn [drop]. by apply drop_S.
  - by rewrite zip_with_drop, (drop_S _ _ _ Hup), (drop_S _ _ _ Hc).
  - apply zip_with_take.
Qed.
Lemma total_drop recs (n : nat) : total (sizes (drop (S n) recs)) ≤ total (sizes (drop n recs)).
Proof using.
  destruct (recs !! n) as [r|] eqn:E.
  - rewrite (drop_S _ _ _ E). change (total (sizes (drop (S n) recs)) ≤ blen r + 4 + total (sizes (drop (S n) recs))).
    pose proof (blen_nonneg r). lia.
  - apply lookup_ge_None in E. by rewrite !drop_ge by lia.
Qed.
Lemma zip_recs_ok ks ns : Forall sep_ok ks → Forall (λ no, is_u32 no) ns → Forall (rec_ok Interior) (zip_with enc_interior ks ns).
Proof using.
  intros Hk. revert ns. induction Hk as [|k ks Hk Hks IH]; intros [|x ns] Hn; cbn [zip_with]; constructor.
  - apply Forall_cons in Hn as [Hx _]. by apply enc_interior_ok.
  - apply Forall_cons in Hn as [_ Hn]. by apply IH.
Qed.
(** The two halves on their pages, once both are written. *)
Lemma halves_hold p p1 p2 f t1 t2 sep b h recs ns' sp up c right_no bl br :
  grown_page p f t1 t2 sep b h recs ns' → cut_at f t1 t2 sep h ns' sp up c →
  wrote p right_no br p1 → wrote p1 (f_no f) bl p2 → right_no ≠ f_no f →
  interior_at br tid right_no c (zip_with enc_interior (drop (S sp) (grown_keys f sep)) (drop (S sp) ns')) →
  interior_at bl tid (f_no f) h (zip_with enc_interior (take sp (grown_keys f sep)) (take sp ns')) →
  holds_all p2 (grown_children f t1 t2) →
  holds p2 (left_half f t1 t2 sep sp) ∧ holds p2 (right_half right_no f t1 t2 sep sp).
Proof using.
  intros G C Hw1 Hw2 Hne Hbr Hbl Hall. pose proof (gp_seps _ _ _ _ _ _ _ _ _ G) as Hks.
  pose proof (gp_u32 _ _ _ _ _ _ _ _ _ G) as [Hh Hns]%Forall_cons. pose proof (gp_length _ _ _ _ _ _ _ _ _ G) as Hl.
  assert (is_u32 c) as Hc by (by eapply (Forall_lookup_1 _ _ _ _ Hns), cut_child).
  unfold left_half, right_half. rewrite !holds_node, (cut_left _ _ _ _ _ _ _ _ _ C), (cut_right _ _ _ _ _ _ _ _ _ C).
  split; (split; [|unfold holds_all in *; (by apply Forall_take) || (by apply Forall_drop)]).
  - split; [exists bl; split; [by apply wrote_here in Hw2|done]|]. split; [rewrite !length_take; lia|].
    split; [by apply Forall_take|]. constructor; [done|by apply Forall_take].
  - split; [exists br; split; [|done]|].
    + rewrite (wrote_get _ _ _ _ Hw2), decide_False by done. by apply wrote_here in Hw1.
    + split; [rewrite !length_drop; lia|]. split; [by apply Forall_drop|]. constructor; [done|by apply Forall_drop].
Qed.
Lemma halves_pre s p' f ctx t1 t2 sep R last sp up right_no :
  sep_pre s (f :: ctx) t1 t2 sep R last → pool_ok p' →
  holds_ctx p' ctx (f_no f) → holds p' (left_half f t1 t2 sep sp) → holds p' (right_half right_no f t1 t2 sep sp) →
  owned_ok p' (right_no :: f_no f :: owned_ctx ctx ++ flat_map owned (grown_children f t1 t2) ++ R) →
  writable p' (f_no <$> ctx) → grown_keys f sep !! sp = Some up →
  Forall sep_ok (grown_keys f sep) →
  sep_pre (set_pool p' s) ctx (left_half f t1 t2 sep sp) (right_half right_no f t1 t2 sep sp) up R last.
Proof using.
  intros Hpre Hp Hc Hl Hr Ho Hw Hup Hks. destruct (sp_ord _ _ _ _ _ _ _ Hpre) as [_ Hoc].
  pose proof (grown_ords_pre _ _ _ _ _ _ _ _ Hpre) as Hords. pose proof (ords_length _ _ _ _ Hords) as Hlen.
  pose proof (lookup_lt_Some _ _ _ Hup) as Hlt. pose proof (grown_links_pre _ _ _ _ _ _ _ _ Hpre) as Hlinks.
  destruct (ords_cut _ _ _ _ _ _ Hords Hup) as (Ho1 & Hin & Ho2).
  split; [done|apply Hpre|exact Hc|exact Hl|exact Hr| |exact Hw|exact Hoc|exact Ho1|exact Ho2|exact Hin| | |].
  - cbn [pool set_pool]. unfold left_half, right_half. cbn [owned].
    assert (owned_ctx ctx ++ (f_no f :: flat_map owned (take (S sp) (grown_children f t1 t2))) ++
      (right_no :: flat_map owned (drop (S sp) (grown_children f t1 t2))) ++ R ≡ₚ
      right_no :: f_no f :: owned_ctx ctx ++ (flat_map owned (take (S sp) (grown_children f t1 t2)) ++
        flat_map owned (drop (S sp) (grown_children f t1 t2))) ++ R) as -> by solve_Permutation.
    by rewrite flat_map_cut.
  - by eapply (Forall_lookup_1 _ _ _ _ Hks).
  - destruct (sp_links _ _ _ _ _ _ _ Hpre) as ([_ Hlc] & _). split; [done|]. split.
    + apply (all_links_take (last_of last ctx)); [done|lia].
    + apply all_links_drop; [done|lia].
  - change (root (set_pool p' s)) with (root s). rewrite <-(sp_root _ _ _ _ _ _ _ Hpre).
    by apply (no_of_plug_same ctx _ (plug1 f t1)).
Qed.
(** What building and writing the two pages comes to. *)
Lemma halves_built_ok {B} (k : unit → M P B) s f ctx t1 t2 sep R last b h recs ns' sp up c right_no Q :
  sep_pre s (f :: ctx) t1 t2 sep R last → grown_page (pool s) f t1 t2 sep b h recs ns' →
  cut_fits USABLE (zip_with enc_interior (grown_keys f sep) ns') sp → cut_at f t1 t2 sep h ns' sp up c →
  owned_ok (pool s) (right_no :: f_no f :: owned_ctx ctx ++ flat_map owned (grown_children f t1 t2) ++ R) →
  is_frozen (pool s) right_no = false →
  (∀ p', evolves (pool s) p' → sep_pre (set_pool p' s) ctx (left_half f t1 t2 sep sp) (right_half right_no f t1 t2 sep sp) up R last →
     keeps (pool s) p' R → runs (k tt) (set_pool p' s) Q) →
  runs (let+ page := build tid Interior right_no (drop 1 (drop sp (zip_with enc_interior (grown_keys f sep) ns'))) c in
        write right_no page ;;+
        let+ page := build tid Interior (f_no f) (take sp (zip_with enc_interior (grown_keys f sep) ns')) h in
        let+ _ := get_mut (f_no f) in
        write (f_no f) page ;;+ k tt) s Q.
Proof using HPL.
  intros Hpre G (Hsp & Hfl & Hfr) C Ho Hfz Hk. pose proof (cut_recs _ _ _ _ _ _ _ _ _ C) as Ecut.
  pose proof (gp_seps _ _ _ _ _ _ _ _ _ G) as Hks. pose proof (gp_u32 _ _ _ _ _ _ _ _ _ G) as [Hh Hns]%Forall_cons.
  assert (is_u32 c) as Hc by (by eapply (Forall_lookup_1 _ _ _ _ Hns), cut_child).
  pose proof Ho as [Hnd Hran].
  apply NoDup_cons in Hnd as [Hrn Hnd]. apply NoDup_cons in Hnd as [Hfn _].
  assert (is_u32 right_no ∧ is_u32 (f_no f)) as [Hur Huf].
  { apply Forall_cons in Hran as [(_ & ? & _) Hran]. by apply Forall_cons in Hran as [(_ & ? & _) _]. }
  pose proof (sp_tid _ _ _ _ _ _ _ Hpre) as Htid. pose proof (total_drop (zip_with enc_interior (grown_keys f sep) ns') sp) as Htd.
  assert (drop 1 (drop sp (zip_with enc_interior (grown_keys f sep) ns')) =
    zip_with enc_interior (drop (S sp) (grown_keys f sep)) (drop (S sp) ns')) as Ed by (by rewrite Ecut).
  rewrite drop_drop in Ed. replace (sp + 1)%nat with (S sp) in Ed by lia.
  destruct (interior_build tid right_no (zip_with enc_interior (drop (S sp) (grown_keys f sep)) (drop (S sp) ns')) c Htid Hur Hc)
    as (br & Hbr & Hbri); [apply zip_recs_ok; by apply Forall_drop|rewrite <-Ed; lia|].
  rewrite drop_drop. replace (sp + 1)%nat with (S sp) by lia. rewrite Ed.
  eapply runs_read; [unfold build, lift; by rewrite Hbr|]. apply runs_write; [apply Hpre|done|]. intros p1 Hw1.
  rewrite (cut_taken _ _ _ _ _ _ _ _ _ C) in Hfl |- *.
  destruct (interior_build tid (f_no f) (zip_with enc_interior (take sp (grown_keys f sep)) (take sp ns')) h Htid Huf Hh)
    as (bl & Hbl & Hbli); [apply zip_recs_ok; by apply Forall_take|done|].
  eapply runs_read; [unfold build, lift; by rewrite Hbl|].
  assert (right_no ≠ f_no f) as Hne by (intros ->; apply Hrn; left).
  pose proof (sp_writable _ _ _ _ _ _ _ Hpre) as Hwr. pose proof Hwr as [Hff _]%Forall_cons.
  eapply runs_read.
  { apply get_mut_ok; cbn [pool set_pool].
    - rewrite (wrote_get _ _ _ _ Hw1), decide_False by done. apply G.
    - by rewrite (wrote_frozen _ _ _ _ Hw1). }
  apply runs_write; [apply (wrote_ev _ _ _ _ Hw1)|cbn [pool set_pool]; by rewrite (wrote_frozen _ _ _ _ Hw1)|]. intros p2 Hw2.
  cbn [pool set_pool] in Hw2. change (set_pool p2 (set_pool p1 s)) with (set_pool p2 s).
  pose proof (evolves_trans _ _ _ (wrote_ev _ _ _ _ Hw1) (wrote_ev _ _ _ _ Hw2)) as Hev.
  assert (keeps (pool s) p2 (owned_ctx ctx ++ flat_map owned (grown_children f t1 t2) ++ R)) as Hkp.
  { apply (keeps_trans _ p1).
    - apply (wrote_keeps _ _ _ _ _ Hw1). intros Hin. apply Hrn. by right.
    - by apply (wrote_keeps _ _ _ _ _ Hw2). }
  pose proof (sp_ctx _ _ _ _ _ _ _ Hpre) as [(_ & Hl & Hr) Hcx].
  pose proof (grown_holds_all _ _ _ _ Hl Hr (sp_t1 _ _ _ _ _ _ _ Hpre) (sp_t2 _ _ _ _ _ _ _ Hpre)) as Hall.
  destruct (ctx_wrote_outside _ _ _ _ _ _ (evolves_limit _ _ Hev) Hkp Hcx Hall) as (Hcx' & Hall' & HkR).
  destruct (halves_hold _ _ _ _ _ _ _ _ _ _ _ _ _ _ _ _ _ G C Hw1 Hw2 Hne Hbri Hbli Hall') as [HL1 HL2].
  apply Hk; [done| |done]. eapply halves_pre; try done.
  - apply Hw2.
  - by apply Hw2, Hw1.
  - unfold writable in *. rewrite fmap_cons in Hwr. apply Forall_cons in Hwr as [_ Hwr].
    eapply Forall_impl; [exact Hwr|]. intros x Hx. by rewrite (wrote_frozen _ _ _ _ Hw2), (wrote_frozen _ _ _ _ Hw1).
  - apply C.
Qed.

Lemma node_slots b kd no link recs : node_at b kd tid no link recs → slots b = Some recs.
Proof using. intros Hn. apply rep_snapshot, (inv_rep _ _ (node_inv _ _ _ _ _ _ Hn)). Qed.
Lemma grown_page_same p p' f t1 t2 sep b h recs ns' : get p' (f_no f) = get p (f_no f) →
  grown_page p f t1 t2 sep b h recs ns' → grown_page p' f t1 t2 sep b h recs ns'.
Proof using. intros E []. split; try done. by rewrite E. Qed.
Lemma writable_ctx p p' ctx : (∀ x, x ∈ owned_ctx ctx → is_frozen p' x = is_frozen p x) → writable p (f_no <$> ctx) → writable p' (f_no <$> ctx).
Proof using.
  intros Hs Hw. unfold writable in *. rewrite Forall_fmap, Forall_forall in *. intros g Hg. cbn. rewrite Hs; [by apply Hw|].
  apply elem_of_flat_map. exists g. split; [done|left].
Qed.
Lemma sep_pre_step s p' ctx t1 t2 sep R last : sep_pre s ctx t1 t2 sep R last → evolves (pool s) p' →
  owned_ok p' (owned_ctx ctx ++ owned t1 ++ owned t2 ++ R) →
  keeps (pool s) p' (owned_ctx ctx ++ owned t1 ++ owned t2 ++ R) → sep_pre (set_pool p' s) ctx t1 t2 sep R last.
Proof using.
  intros [Hp Ht Hc H1 H2 Ho Hw Hoc Ho1 Ho2 Hin Hsp Hl Hr] Hev Ho' Hk. pose proof (evolves_limit _ _ Hev) as Hlim.
  split; try done; cbn [pool set_pool].
  - apply Hev.
  - apply (holds_ctx_same (pool s)); [done| |done]. intros x Hx. apply Hk. rewrite !elem_of_app. auto.
  - apply (holds_same (pool s)); [done| |done]. intros x Hx. apply Hk. rewrite !elem_of_app. auto.
  - apply (holds_same (pool s)); [done| |done]. intros x Hx. apply Hk. rewrite !elem_of_app. auto.
  - apply (writable_ctx (pool s)); [|done]. intros x Hx. apply Hk, elem_of_app. by left.
Qed.
(** Back from the parents: the grown frame, in the tree its halves ended up in. *)
Lemma halves_post s s1 s' f ctx t1 t2 sep R last sp up right_no T :
  sep_pre s (f :: ctx) t1 t2 sep R last → grown_keys f sep !! sp = Some up →
  last_leaf s1 = last_leaf s → keeps (pool s) (pool s1) R →
  sep_post s1 ctx (left_half f t1 t2 sep sp) (right_half right_no f t1 t2 sep sp) up R last s' T →
  sep_post s (f :: ctx) t1 t2 sep R last s' T.
Proof using.
  intros Hpre Hup El Hk [Hi Hl Hc Hln P1 P2 Hll Hk']. unfold left_half, right_half in *. cbn [cells leaf_nos] in *.
  apply grown_post; [done|done| | | |congruence|by eapply keeps_trans].
  - by rewrite Hc, <-(flat_map_cut cells (grown_children f t1 t2) (S sp)), <-app_assoc.
  - by rewrite Hln, <-(flat_map_cut leaf_nos (grown_children f t1 t2) (S sp)), <-app_assoc.
  - eapply place_cut; [|done|exact P1|exact P2]. eapply ords_length. by eapply grown_ords_pre.
Qed.
Lemma insert_separator_ok ctx : ∀ s t1 t2 sep R last, sep_pre s ctx t1 t2 sep R last →
  runs (insert_separator tid (f_no <$> ctx) sep (no_of t2)) s (λ _ s', ∃ T, sep_post s ctx t1 t2 sep R last s' T).
Proof using HPL.
  induction ctx as [|f ctx IH]; intros s t1 t2 sep R last Hpre; [by apply root_split_ok|].
  rewrite fmap_cons. cbn [insert_separator]. destruct (sep_pre_u32 _ _ _ _ _ _ _ Hpre) as [_ Hu2].
  pose proof (sp_ctx _ _ _ _ _ _ _ Hpre) as [(Hpage & _ & _) _].
  destruct (grown_view _ _ _ _ sep Hpage (sp_sep _ _ _ _ _ _ _ Hpre) Hu2) as (b & h & recs & ns' & G).
  pose proof (int_node _ _ _ _ _ (gp_at _ _ _ _ _ _ _ _ _ G)) as Hn.
  destruct (sp_ord _ _ _ _ _ _ _ Hpre) as [Hof _].
  assert (upper_bound b sep = Some (Z.of_nat (length (f_l f)))) as Hub.
  { eapply upper_position; [exact Hn|apply G|by eapply frame_sorted|]. eapply hole_position; [exact Hof|].
    apply inside_within. apply (sp_inside _ _ _ _ _ _ _ Hpre). }
  eapply runs_read; [apply get_page_ok, G|]. eapply runs_read; [unfold lift; by rewrite (node_open _ _ _ _ _ _ Hn)|].
  eapply runs_read; [unfold sure; by rewrite Hub|].
  destruct (Z.leb_spec (blen (enc_interior sep (no_of t2)) + 4) (free_space b)) as [Hfit|Hfit].
  - by eapply separator_fits_ok.
  - destruct (grown_split _ _ _ _ _ _ _ _ _ G Hfit) as (sp & Esp & Hsp). destruct (grown_cut _ _ _ _ _ _ _ _ _ _ G Hsp) as (up & c & C).
    eapply runs_read; [unfold sure; by rewrite (node_slots _ _ _ _ _ Hn)|].
    unfold insert_at. rewrite Nat2Z.id, (gp_recs _ _ _ _ _ _ _ _ _ G).
    eapply runs_read; [unfold lift; by rewrite Esp|]. rewrite !Nat2Z.id.
    pose proof (gp_seps _ _ _ _ _ _ _ _ _ G) as Hks. pose proof (gp_u32 _ _ _ _ _ _ _ _ _ G) as [Hh Hns]%Forall_cons.
    destruct (enc_interior_read up c) as [Eup Ech].
    { eapply (Forall_lookup_1 _ _ _ _ Hks), C. } { eapply (Forall_lookup_1 _ _ _ _ Hns), C. }
    pose proof (cut_recs _ _ _ _ _ _ _ _ _ C) as Ecut.
    eapply runs_read; [unfold key_at; erewrite bind_ok by (unfold sure; rewrite Ecut; done); unfold sure; by rewrite Eup|].
    eapply runs_read; [unfold sure; by rewrite Ecut|]. eapply runs_read; [unfold sure; by rewrite Ech|].
    pose proof (sp_owned _ _ _ _ _ _ _ Hpre) as Ho. rewrite grown_owned in Ho.
    apply (runs_alloc _ _ _ _ (sp_pool _ _ _ _ _ _ _ Hpre) Ho). intros right_no p1 Hev1 Ho1 Hk1 [Hf1 _].
    change (child0 b) with (next_leaf b). rewrite (node_link _ _ _ _ _ _ Hn).
    assert (keeps (pool s) p1 (owned_ctx (f :: ctx) ++ owned t1 ++ owned t2 ++ R)) as Hk1'.
    { eapply keeps_sub; [exact Hk1|]. intros x. by rewrite grown_owned. }
    assert (sep_pre (set_pool p1 s) (f :: ctx) t1 t2 sep R last) as Hpre1.
    { apply sep_pre_step; [done|done| |done]. rewrite grown_owned. by apply (owned_ok_app p1 [right_no]) in Ho1 as [_ ?]. }
    apply (halves_built_ok (λ _, insert_separator tid (f_no <$> ctx) up right_no) (set_pool p1 s) f ctx t1 t2 sep R last b h recs ns' sp up c right_no); try done.
    { eapply grown_page_same; [|exact G]. apply Hk1'. apply elem_of_app. left. left. }
    intros p2 Hev2 Hpre2 Hk2. eapply runs_mono; [exact (IH _ _ _ _ _ _ Hpre2)|]. intros [] s' [T HT] _. exists T.
    eapply (halves_post s (set_pool p2 (set_pool p1 s))); [done|apply C|done| |exact HT].
    eapply keeps_trans; [|exact Hk2]. eapply keeps_sub; [exact Hk1|]. intros x Hx. rewrite !elem_of_cons, !elem_of_app. auto.
Qed.
End split.
End TreeSplit.
