(* ===== verification/TreeSpill.v ===== *)
(** * Values on overflow pages ([core/kernel/src/btree.rs])

    Writing a value to a chain of pages ([write_overflow]) and giving a replaced
    chain back ([replaced_overflow_pages]). *)
From S2P Require Import Prelude Crc Page Cells Order Node Interior Pool Tree BTree TreeRep TreeRead TreeWrite.
Import Page Cells Order Node Interior Tree BTree TreeRep TreeRead TreeWrite.

Module TreeSpill.

Section spill.
Context `{HC : Crc32c} `{HL : !Crc32cLaws} {P : Type} `{HP : PagePool P} `{HPL : !PagePoolLaws P}.
Context {tid : TreeId}.
Implicit Types (p : P) (s : BTree P) (t : tree) (O R : list Z).

(** ** One page of a chain *)
Lemma ov_built no next c : is_u32 no → is_u32 next → blen c ≤ OV_CAP →
  ∃ b1 b2 b3, put_at (finalise (init Overflow 0 no) 0) OV_NEXT (le_bytes 4 next) = Some b1 ∧
    put_at b1 OV_USED (le_bytes 2 (blen c mod 65536)) = Some b2 ∧ put_at b2 OV_DATA c = Some b3 ∧ ov_page b3 no next c.
Proof using.
  intros Hno Hnext Hc. pose proof (blen_nonneg c). change OV_CAP with 4050 in Hc. change OV_NEXT with 40. change OV_USED with 44. change OV_DATA with 46.
  rewrite Z.mod_small by lia.
  destruct (node_finalise _ _ _ _ _ _ 0 (proj1 (node_init Overflow 0 no ltac:(width) Hno))) as [Hn _].
  set (b0 := finalise (init Overflow 0 no) 0) in *. destruct Hn as [Hi Hk Ht Hp _ _].
  pose proof (rep_len _ _ (inv_rep _ _ Hi)) as Hlen. change PAGE_SIZE with 4096 in Hlen.
  set (b1 := splice b0 40 (le_bytes 4 next)). set (b2 := splice b1 44 (le_bytes 2 (blen c))). set (b3 := splice b2 46 c).
  exists b1, b2, b3. unfold b3, b2, b1. rewrite !put_at_ok by side. split_and!; [done|done|done|]. fold b1. fold b2. fold b3.
  assert (∀ o n, 0 ≤ o → o + n ≤ 40 → slice b3 o n = slice b0 o n) as Hout.
  { intros. unfold b3, b2, b1. by rd. }
  assert (blen b1 = 4096) as Hl1 by (unfold b1; by len). assert (blen b2 = 4096) as Hl2 by (unfold b2; by len).
  assert (blen b3 = 4096) as Hl3 by (unfold b3; by len).
  assert (free_ptr b0 = 4096) as Hfp.
  { pose proof (rep_n _ _ (inv_rep _ _ Hi)). unfold b0, finalise. destruct (init_fields Overflow 0 no ltac:(width) Hno) as (_&_&_&_&_&_&Hf&_).
    change 4096 with PAGE_SIZE. rewrite <-Hf. unfold free_ptr. page_unfold. by rd. }
  split; [split|..].
  - split; [done| | | |done|].
    + unfold nentries, rd_u16. rewrite Hout by lia. exact (rep_n _ _ (inv_rep _ _ Hi)).
    + unfold free_ptr, rd_u16 in *. rewrite Hout by lia. rewrite Hfp. page_unfold. change (blen (@nil bytes)) with 0; change (total_len []) with 0. lia.
    + unfold free_ptr, rd_u16 in *. rewrite Hout by lia. rewrite Hfp. page_unfold. lia.
    + unfold free_ptr, rd_u16 in *. rewrite Hout by lia. rewrite Hfp. page_unfold. change (blen (@nil bytes)) with 0; change (total_len []) with 0. lia.
  - unfold rd_u32. rewrite Hout by lia. exact (inv_magic _ _ Hi).
  - unfold rd_u16. rewrite Hout by lia. exact (inv_version _ _ Hi).
  - unfold format_version, FORMAT_AT, rd_u16. rewrite Hout by lia. exact (inv_format _ _ Hi).
  - unfold kind, rd_u16. rewrite Hout by lia. exact (inv_kind _ _ Hi).
  - rewrite <-Hk. unfold kind, rd_u16. by rewrite Hout by lia.
  - rewrite <-Ht. unfold tree_id, rd_u16. by rewrite Hout by lia.
  - rewrite <-Hp. unfold page_no, rd_u32. by rewrite Hout by lia.
  - unfold rd_u32, b3, b2, b1. change OV_NEXT with 40. rd. rewrite Z.sub_diag, slice_le_bytes by done. by apply le_num_le_bytes_4.
  - unfold rd_u16, b3, b2. change OV_USED with 44. rd. rewrite Z.sub_diag, slice_le_bytes by done. apply le_num_le_bytes_2. width.
  - done.
  - unfold b3. change OV_DATA with 46. apply slice_splice_same; [lia|]. unfold b2, b1. len.
Qed.

(** ** Writing a chain *)
Definition fresh_pages p (l : list Z) : Prop := Forall (λ no, is_frozen p no = false ∧ is_ok (get p no)) l.
Lemma fresh_keeps p p' l : keeps p p' l → fresh_pages p l → fresh_pages p' l.
Proof using.
  intros Hk Hf. unfold fresh_pages in *. rewrite Forall_forall in *. intros x Hx. destruct (Hk x Hx) as [-> ->]. by apply Hf.
Qed.
Lemma alloc_chunks_ok n : ∀ s O, pool_ok (pool s) → owned_ok (pool s) O →
  runs (alloc_chunks n) s (λ pages s', ∃ p', s' = set_pool p' s ∧ length pages = n ∧ owned_ok p' (pages ++ O) ∧
    keeps (pool s) p' O ∧ fresh_pages p' pages ∧ ∀ x, x ∉ pages → is_frozen p' x = is_frozen (pool s) x).
Proof using HPL.
  induction n as [|n IH]; intros s O Hp Ho; cbn [alloc_chunks].
  - apply runs_ret; [done|]. exists (pool s). split; [by destruct s|]. split_and!; [done|done|by apply keeps_refl|constructor|done].
  - apply (runs_alloc _ _ O); [done|done|]. intros no p1 Hev1 Ho1 Hk1 (Hf1 & Hg1 & Hfb1).
    eapply runs_bind; [apply (IH _ (no :: O)); [apply Hev1|done]|].
    intros nos s2 (p2 & -> & Hlen & Ho2 & Hk2 & Hf2 & Hfb2) Hev2. apply runs_ret; [apply Hev2|]. cbn [pool set_pool] in *.
    exists p2. split; [done|]. split; [cbn; lia|]. rewrite <-Permutation_middle in Ho2. split; [done|]. split.
    + eapply keeps_trans; [exact Hk1|]. eapply keeps_sub; [exact Hk2|]. intros x. apply list_elem_of_further.
    + split; [constructor; [|done]; destruct (Hk2 no) as [-> ->]; [left|]; done|].
      intros x [Hx Hxs]%not_elem_of_cons. rewrite (Hfb2 x Hxs). by apply Hfb1.
Qed.
Lemma write_chain_ok pages : ∀ cs s O, pool_ok (pool s) → owned_ok (pool s) (pages ++ O) → fresh_pages (pool s) pages →
  length pages = length cs → Forall (λ c, blen c ≤ OV_CAP) cs →
  runs (write_chain pages cs) s (λ _ s', ∃ p', s' = set_pool p' s ∧ owned_ok p' (pages ++ O) ∧ keeps (pool s) p' O ∧ chain_at p' pages cs ∧
    ∀ x, is_frozen p' x = is_frozen (pool s) x).
Proof using HPL.
  induction pages as [|no pages IH]; intros [|c cs] s O Hp Ho Hf Hl Hc; try done; cbn [write_chain].
  - apply runs_ret; [done|]. exists (pool s). split; [by destruct s|]. split_and!; [done|by apply keeps_refl|done|done].
  - apply Forall_cons in Hf as [[Hfz Hok] Hf]. apply Forall_cons in Hc as [Hc Hcs].
    destruct (get (pool s) no) as [b0|] eqn:Eg; [|done]. eapply runs_read; [by apply get_mut_ok|].
    set (next := match pages with n :: _ => n | [] => 0 end).
    assert (is_u32 no ∧ is_u32 next) as [Hu Hun].
    { destruct Ho as [_ Ho]. cbn [app] in Ho. apply Forall_cons in Ho as [(_ & Hu & _) Ho]. split; [done|]. unfold next.
      destruct pages as [|n pages]; [width|]. cbn [app] in Ho. by apply Forall_cons in Ho as [(_ & ? & _) _]. }
    destruct (ov_built no next c Hu Hun Hc) as (b1 & b2 & b3 & E1 & E2 & E3 & Hb).
    eapply runs_read; [unfold sure; by rewrite E1|]. eapply runs_read; [unfold sure; by rewrite E2|].
    eapply runs_read; [unfold sure; by rewrite E3|]. apply runs_write; [done|done|]. intros p1 Hw.
    assert (no ∉ pages ++ O) as Hno by (destruct Ho as [Hnd _]; cbn [app] in Hnd; by apply NoDup_cons in Hnd as [? _]).
    pose proof (wrote_keeps _ _ _ _ _ Hw Hno) as Hk1. pose proof (wrote_owned _ _ _ _ Hw _ Ho) as Ho1.
    assert (owned_ok p1 (pages ++ no :: O)) as Ho1' by (rewrite <-Permutation_middle; exact Ho1).
    eapply runs_mono; [apply (IH cs _ (no :: O)); try done|].
    + apply (wrote_ev _ _ _ _ Hw).
    + eapply fresh_keeps; [|exact Hf]. eapply keeps_sub; [exact Hk1|]. intros x Hx. apply elem_of_app. by left.
    + cbn in Hl. lia.
    + intros [] s2 (p2 & -> & Ho2 & Hk2 & Hch & Hfb2) _. cbn [pool set_pool] in *. exists p2. split; [done|]. split_and!.
      * cbn [app]. rewrite Permutation_middle. exact Ho2.
      * eapply keeps_trans; [eapply keeps_sub; [exact Hk1|]|eapply keeps_sub; [exact Hk2|]].
        -- intros x Hx. apply elem_of_app. by right.
        -- intros x. apply list_elem_of_further.
      * split; [|done]. exists b3. split; [|exact Hb]. destruct (Hk2 no) as [-> _]; [left|]. by apply wrote_here in Hw.
      * intros x. by rewrite Hfb2, (wrote_frozen _ _ _ _ Hw).
Qed.
Lemma chunked_cap cs : ∀ v, chunked v cs → Forall (λ c, blen c ≤ OV_CAP) cs.
Proof using.
  induction cs as [|c cs IH]; intros v Hc; [constructor|]. destruct Hc as (Hb & w & -> & Hw). constructor; [lia|].
  destruct cs as [|c2 cs]; [constructor|]. apply (IH w). apply Hw.
Qed.
Lemma write_overflow_ok s v O : pool_ok (pool s) → owned_ok (pool s) O → within_limit (pool s) (blen v) →
  runs (write_overflow v) s (λ '(head, crc) s', ∃ p' pages, s' = set_pool p' s ∧ owned_ok p' (pages ++ O) ∧ keeps (pool s) p' O ∧
    head :: tail pages = pages ∧ crc = crc32c v ∧ chain_at p' pages (chunks v) ∧ within_limit p' (blen v) ∧
    ∀ x, x ∉ pages → is_frozen p' x = is_frozen (pool s) x).
Proof using HPL.
  intros Hp Ho Hw. unfold write_overflow. eapply runs_read; [by apply over_limit_ok|]. cbn iota.
  eapply runs_bind; [by apply alloc_chunks_ok|]. intros pages s1 (p1 & -> & Hlen & Ho1 & Hk1 & Hf1 & Hfb1) Hev1.
  pose proof (chunks_chunked v) as Hch. eapply runs_bind.
  { apply (write_chain_ok pages (chunks v) _ O); [apply Hev1|done|done|done|by eapply chunked_cap]. }
  intros [] s2 (p2 & -> & Ho2 & Hk2 & Hc2 & Hfb2) Hev2. cbn [pool set_pool] in *.
  destruct pages as [|head pages]; [destruct (chunks v); done|]. eapply runs_read; [done|].
  apply runs_ret; [apply Hev2|]. exists p2, (head :: pages). split_and!; try done; [by eapply keeps_trans| |].
  - unfold within_limit in *. by rewrite (evolves_limit _ _ Hev2), (evolves_limit _ _ Hev1).
  - intros x Hx. rewrite Hfb2. by apply Hfb1.
Qed.

(** ** Giving a chain back *)
Lemma retired_loop_ok s bound cs : ∀ fuel chain pre w pages,
  chain_at (pool s) chain cs → chunked w cs → in_range (pool s) chain →
  blen pages + Z.of_nat (length chain) = bound → (length chain < fuel)%nat →
  ∃ l, retired_loop fuel (blen (pre ++ w)) (crc32c (pre ++ w)) bound (match chain with n :: _ => n | [] => 0 end)
    (blen pre) (crc32c pre) pages s = (s, Some (Ok (pages ++ l))) ∧ l.*1 = chain.
Proof using HL.
  induction cs as [|c cs IH]; intros fuel chain pre w pages Hc Hw Hr Hb Hf; [done|].
  destruct chain as [|no chain]; [done|]. destruct Hc as [(b & Hg & Hov) Hc]. apply Forall_cons in Hr as [Hno Hr].
  destruct fuel as [|fuel]; [cbn in Hf; lia|]. destruct Hw as (Hbc & w' & -> & Hw'). cbn [length] in *.
  cbn [retired_loop]. rewrite (proj2 (Z.eqb_neq no 0)) by lia. erewrite bind_ok by done.
  rewrite (proj2 (Z.ltb_ge no 2)), (proj2 (Z.leb_gt _ no)), (proj2 (Z.leb_gt bound _)) by lia. cbn [orb].
  erewrite bind_ok by (by apply get_page_ok). erewrite bind_ok by (unfold lift; by rewrite (ov_open _ _ _ _ Hov)).
  rewrite bool_decide_true by apply Hov. rewrite (ov_tree _ _ _ _ Hov). cbn [negb orb Z.eqb]. cbv zeta.
  rewrite (ov_used _ _ _ _ Hov), (ov_next _ _ _ _ Hov).
  replace (blen (pre ++ c ++ w') - blen pre) with (blen (c ++ w')) by (rewrite (blen_app pre); lia).
  rewrite <-Hbc, Z.eqb_refl. cbn [negb]. erewrite bind_ok by (unfold sure; rewrite (ov_get _ _ _ _ Hov); done).
  set (birth := if is_frozen (pool s) no then lsn b else stamp_generation (pool s)).
  erewrite bind_ok by done. fold birth. rewrite crc32c_append_app, <-blen_app, app_assoc.
  assert (blen (pages ++ [(no, birth)]) = blen pages + 1) as Ep by (unfold blen; rewrite length_app; cbn; lia).
  destruct cs as [|c2 cs].
  - subst w'. destruct chain as [|? ?]; [|done]. exists [(no, birth)]. split; [|done]. rewrite app_nil_r.
    destruct fuel; cbn [retired_loop Z.eqb]; rewrite Ep, !Z.eqb_refl, (proj2 (Z.eqb_eq (blen pages + 1) bound)) by (cbn in Hb; lia); done.
  - destruct Hw' as [_ Hw']. destruct (IH fuel chain (pre ++ c) w' (pages ++ [(no, birth)]) Hc Hw' Hr ltac:(lia) ltac:(lia)) as (l & E & El).
    exists ((no, birth) :: l). rewrite E. split; [by rewrite <-app_assoc|]. csimpl. by rewrite El.
Qed.
(** What the code plans to retire is exactly the cell's chain. *)
Lemma replaced_pages_ok s c : cell_ok (pool s) c → in_range (pool s) (c_chain c) →
  ∃ l, replaced_overflow_pages (c_rec c) s = (s, Some (Ok l)) ∧ l.*1 = c_chain c.
Proof using HL.
  intros Hc Hr. destruct (cell_helpers _ _ Hc) as [_ Hv]. unfold replaced_overflow_pages.
  erewrite bind_ok by (unfold sure; rewrite Hv; done). unfold cell_value.
  destruct Hc as (_ & _ & [[_ Hch]|(head & _ & Hch & Hu & Hl & Hlim & Hat)]).
  - rewrite Hch. cbn [fst snd negb]. by exists [].
  - rewrite <-Hch. cbn [fst snd negb]. pose proof (blen_nonneg (c_val c)).
    destruct (marker_fields (blen (c_val c)) head (crc32c (c_val c))) as (_ & E0 & E4 & E8); [width|done|pose proof (crc32c_range (c_val c)); width|].
    rewrite E0, E4, E8. erewrite bind_ok by (by apply over_limit_ok). cbn iota. rewrite Hch in *.
    pose proof (chunks_chunked (c_val c)) as Hck. pose proof (chunked_pages _ _ Hck) as Hlen. pose proof (chain_lengths _ _ _ Hat) as Hcl.
    destruct (retired_loop_ok s (n_pages (blen (c_val c))) (chunks (c_val c)) (S (Z.to_nat (n_pages (blen (c_val c))))) (c_chain c) [] (c_val c) [] Hat Hck Hr)
      as (l & E & El); [rewrite blen_nil; lia|lia|].
    exists l. split; [|done]. cbn [app] in E. assert (crc32c [] = 0) as Ec by (apply crc_nil; width). rewrite Ec in E.
    rewrite <-Hch in E at 1. exact E.
Qed.
Lemma retire_all_ok l : ∀ s O, pool_ok (pool s) → owned_ok (pool s) (l.*1 ++ O) →
  runs (retire_all l) s (λ _ s', ∃ p', s' = set_pool p' s ∧ owned_ok p' O ∧ keeps (pool s) p' O ∧ ∀ x, is_frozen p' x = is_frozen (pool s) x).
Proof using HPL.
  induction l as [|[no birth] l IH]; intros s O Hp Ho; cbn [retire_all].
  - apply runs_ret; [done|]. exists (pool s). split; [by destruct s|]. split; [done|]. split; [by apply keeps_refl|done].
  - apply (runs_retire _ _ _ _ (l.*1 ++ O)); [done|done|]. intros p1 Hev1 Ho1 Hs1.
    eapply runs_mono; [apply IH; [apply Hev1|exact Ho1]|]. intros [] s2 (p2 & -> & Ho2 & Hk2 & Hf2) _. exists p2. split; [done|]. split; [done|]. split.
    + eapply keeps_trans; [|exact Hk2]. intros x _. apply Hs1.
    + intros x. rewrite Hf2. apply Hs1.
Qed.
End spill.
End TreeSpill.
