(* ===== verification/TreeInsert.v ===== *)
(** * Inserting ([insert] of [core/kernel/src/btree.rs])

    A leaf with room, the replaced record taken out first, the leaf cut in two or
    in three, the append fast path: each ends with a tree whose entries are the
    old ones with the key's entry put in its place. *)
From S2P Require Import Prelude Crc Page Cells Order Node Interior Pool Tree BTree TreeRep TreeRead TreeWrite TreeSplit TreeSpill.
Import Page Cells Order Node Interior Tree BTree TreeRep TreeRead TreeWrite TreeSplit TreeSpill.

Module TreeInsert.

(** ** What an insertion means *)
(** [put]: an association list sorted by key, with the entry of [key] set. *)
Fixpoint put (key val : bytes) (l : list (bytes * bytes)) : list (bytes * bytes) :=
  match l with
  | [] => [(key, val)]
  | (k, v) :: l' =>
      if bytes_ltb key k then (key, val) :: l
      else if bool_decide (k = key) then (key, val) :: l' else (k, v) :: put key val l'
  end.
Lemma put_after key val l1 l2 : Forall (λ c, c_key c ≺ key) l1 → put key val (entries (l1 ++ l2)) = entries l1 ++ put key val (entries l2).
Proof.
  induction 1 as [|c l1 Hc Hl1 IH]; [done|]. unfold entries in *. cbn [app fmap list_fmap put]. fold (entries l1) in *.
  rewrite (proj2 (ltb_ge key (c_key c))) by (left; exact Hc). rewrite bool_decide_false by (intros Heq; rewrite Heq in Hc; order). by rewrite IH.
Qed.
Lemma put_before key val l : Forall (λ c, key ≺ c_key c) l → put key val (entries l) = (key, val) :: entries l.
Proof. destruct 1 as [|c l Hc Hl]; [done|]. cbn. by rewrite (proj2 (ltb_lt _ _) Hc). Qed.
Lemma put_here key val c l : c_key c = key → put key val (entries (c :: l)) = (key, val) :: entries l.
Proof.
  intros <-. cbn. rewrite (proj2 (ltb_ge (c_key c) (c_key c))) by (right; done). by rewrite bool_decide_true.
Qed.

Section insert.
Context `{HC : Crc32c} `{HL : !Crc32cLaws} {P : Type} `{HP : PagePool P} `{HPL : !PagePoolLaws P}.
Context {tid : TreeId}.
Implicit Types (p : P) (s : BTree P) (t : tree) (O R : list Z).

(** ** Leaves *)
Lemma inv_keeps s t R R' p' : inv s t R → evolves (pool s) p' → owned_ok p' (owned t ++ R') → keeps (pool s) p' (owned t) →
  inv (set_pool p' s) t R'.
Proof using.
  intros [Hp Ht Hh Ho Hord Hr] Hev Ho' Hk. split; [apply Hev|done| |done|done|done].
  apply (holds_same (pool s)); [by apply evolves_limit| |done]. intros x Hx. by apply Hk.
Qed.
(** The leaf of a context written with other cells. *)
Lemma leaf_write_ok {B} (k : unit → M P B) s ctx no next cs R b cs' R' Q :
  inv s (plug ctx (TLeaf no next cs)) R → is_frozen (pool s) no = false → node_at b Leaf tid no next (c_rec <$> cs') →
  Forall (cell_ok (pool s)) cs' → sorted (c_key <$> cs') → Forall (λ c, within (lo_of None ctx) (hi_of None ctx) (c_key c)) cs' →
  flat_map c_chain cs' ++ R' ≡ₚ flat_map c_chain cs ++ R →
  (∀ p', wrote (pool s) no b p' → inv (set_pool p' s) (plug ctx (TLeaf no next cs')) R' →
     keeps (pool s) p' (owned_ctx ctx ++ flat_map c_chain cs ++ R) → runs (k tt) (set_pool p' s) Q) →
  runs (bind (write no b) k) s Q.
Proof using HPL.
  intros Hi Hf Hn Hc Hs Hw Hperm Hk. destruct (inv_unplug _ _ _ _ Hi) as (Hctx & _ & Ho & Hoc & _). cbn [owned app] in Ho.
  rewrite <-Permutation_middle in Ho. apply runs_write; [by apply Hi|done|]. intros p' Hwr.
  assert (keeps (pool s) p' (owned_ctx ctx ++ flat_map c_chain cs ++ R)) as Hkp.
  { apply (wrote_keeps _ _ _ _ _ Hwr). destruct Ho as [Hnd _]. by apply NoDup_cons in Hnd as [? _]. }
  pose proof (evolves_limit _ _ (wrote_ev _ _ _ _ Hwr)) as Hlim.
  apply Hk; [done| |done]. apply inv_plug; [apply Hwr|by apply Hi| | | |done|done|].
  - apply (holds_ctx_same (pool s)); [done| |done]. intros x Hx. apply Hkp. rewrite elem_of_app. auto.
  - split; [exists b; split; [by apply wrote_here in Hwr|done]|]. apply (cells_same (pool s)); [done| |done].
    intros x Hx. apply Hkp. rewrite <-Hperm, !elem_of_app. auto.
  - apply (wrote_owned _ _ _ _ Hwr). cbn [owned app]. by rewrite <-Permutation_middle, Hperm.
  - change (root (set_pool p' s)) with (root s). rewrite <-(inv_root _ _ _ Hi). by apply no_of_plug_same.
Qed.
(** A sorted run of cells cut at a cell. *)
Lemma cut_leaf lo hi cs (n : nat) c no next no' next' : sorted (c_key <$> cs) → Forall (λ c, within lo hi (c_key c)) cs →
  cs !! n = Some c → (0 < n)%nat →
  ord lo (Some (c_key c)) (TLeaf no next (take n cs)) ∧ ord (Some (c_key c)) hi (TLeaf no' next' (drop n cs)) ∧ inside lo hi (c_key c).
Proof using.
  intros Hs Hw Hn H0. rewrite <-(take_drop n cs), (drop_S _ _ _ Hn) in Hs, Hw. rewrite fmap_app in Hs.
  apply sorted_app in Hs as (S1 & S2 & Hlt). apply Forall_app in Hw as [W1 W2]. rewrite (drop_S _ _ _ Hn).
  assert (∀ d, d ∈ take n cs → c_key d ≺ c_key c) as Hb.
  { intros d Hd. apply Hlt; [by apply list_elem_of_fmap_2|left]. }
  pose proof (proj1 (Forall_cons _ _ _) W2) as [[Wc1 Wc2] _]. split; [|split].
  - split; [done|]. rewrite Forall_forall in W1 |- *. intros d Hd. split; [by apply W1|by apply Hb].
  - split; [done|]. rewrite fmap_cons in S2. apply StronglySorted_inv in S2 as [_ Hgt]. rewrite Forall_fmap, Forall_forall in Hgt.
    rewrite Forall_forall in W2 |- *. intros d Hd. split; [|by apply W2]. apply elem_of_cons in Hd as [->|Hd]; [by right|left; by apply Hgt].
  - split; [|done]. destruct cs as [|d cs]; [done|]. destruct n as [|n]; [lia|]. cbn [take] in W1.
    apply Forall_cons in W1 as [[Hd _] _]. assert (c_key d ≺ c_key c) as Hdc by (apply Hb; left).
    destruct lo; cbn in *; [order|done].
Qed.
Lemma insert_sorted (cs : list cell) (new : cell) (i : nat) : sorted (c_key <$> cs) → Forall (λ c, c_key c ≺ c_key new) (take i cs) →
  Forall (λ c, c_key new ≺ c_key c) (drop i cs) → sorted (c_key <$> take i cs ++ new :: drop i cs).
Proof using.
  intros Hs Hl Hr. rewrite <-(take_drop i cs), fmap_app in Hs. apply sorted_app in Hs as (S1 & S2 & Hlt).
  rewrite Forall_forall in Hl, Hr. rewrite fmap_app, fmap_cons. apply sorted_app. split_and!; [done| |].
  - constructor; [done|]. rewrite Forall_fmap, Forall_forall. exact Hr.
  - intros a b Ha Hb. apply list_elem_of_fmap in Ha as (x & -> & Hx). apply elem_of_cons in Hb as [->|Hb]; [by apply Hl|].
    apply Hlt; [by apply list_elem_of_fmap_2|done].
Qed.

(** The leaf an insertion has come to, its path on pages that may be written, and
    the cell to insert, its chain set aside. *)
Record leaf_pre s (ctx : list frame) (no next : Z) (cs : list cell) (new : cell) : Prop := {
  lp_inv : inv s (plug ctx (TLeaf no next cs)) (c_chain new);
  lp_links : links true (plug ctx (TLeaf no next cs));
  lp_path : writable (pool s) (f_no <$> ctx);
  lp_leaf : is_frozen (pool s) no = false;
  lp_cell : cell_ok (pool s) new;
  lp_key : within (lo_of None ctx) (hi_of None ctx) (c_key new);
  lp_hint : last_leaf s = None;
}.
(** The cells of the leaf with [new] at position [i]. *)
Definition with_cell (cs : list cell) (i : nat) (new : cell) : list cell := take i cs ++ new :: drop i cs.
(** Position [i] is where a new key belongs. *)
Definition new_at (cs : list cell) (i : nat) (key : bytes) : Prop :=
  (i ≤ length cs)%nat ∧ Forall (λ c, c_key c ≺ key) (take i cs) ∧ Forall (λ c, key ≺ c_key c) (drop i cs).
Definition inserted_at (ctx : list frame) (cs : list cell) (i : nat) (new : cell) s' : Prop :=
  ∃ T, tree_of s' T ∧ cells T = before ctx ++ with_cell cs i new ++ after ctx.

Lemma leaf_pre_view s ctx no next cs new : leaf_pre s ctx no next cs new →
  ∃ b, get (pool s) no = Ok b ∧ node_at b Leaf tid no next (c_rec <$> cs) ∧ Forall (cell_ok (pool s)) cs ∧
    sorted (c_key <$> cs) ∧ Forall (λ c, within (lo_of None ctx) (hi_of None ctx) (c_key c)) cs ∧ is_u32 next.
Proof using.
  intros Hp. destruct (inv_unplug _ _ _ _ (lp_inv _ _ _ _ _ _ Hp)) as (_ & [(b & Hg & Hn) Hc] & _ & _ & [Hs Hw]).
  exists b. split_and!; try done; pose proof (lp_links _ _ _ _ _ _ Hp) as Hl; apply links_plug in Hl as [_ [_ Hu]]; apply Hu.
Qed.
(** Other bytes for the same records. *)
Lemma leaf_rewrite_ok {B} (k : unit → M P B) s ctx no next cs new b Q : leaf_pre s ctx no next cs new →
  node_at b Leaf tid no next (c_rec <$> cs) →
  (∀ p', leaf_pre (set_pool p' s) ctx no next cs new → get p' no = Ok b → runs (k tt) (set_pool p' s) Q) →
  runs (bind (write no b) k) s Q.
Proof using HPL.
  intros Hp Hn Hk. destruct (leaf_pre_view _ _ _ _ _ _ Hp) as (_ & _ & _ & Hcs & Hs & Hw & _).
  destruct Hp as [Hi Hl Hpa Hf Hc Hkey Hh]. eapply leaf_write_ok; [exact Hi|done|exact Hn|done|done|done|done|].
  intros p' Hwr Hi' Hkp. apply Hk; [|by apply wrote_here in Hwr]. split; try done.
  - apply (writable_ctx (pool s)); [|done]. intros x _. apply (wrote_frozen _ _ _ _ Hwr).
  - cbn [pool set_pool]. by rewrite (wrote_frozen _ _ _ _ Hwr).
  - apply (cell_same (pool s)); [apply evolves_limit, Hwr| |done]. intros x Hx. apply Hkp. rewrite !elem_of_app. auto.
Qed.
Lemma with_cell_sorted cs i new : sorted (c_key <$> cs) → new_at cs i (c_key new) → sorted (c_key <$> with_cell cs i new).
Proof using. intros Hs (_ & Hl & Hr). by apply insert_sorted. Qed.
Lemma with_cell_Forall (Q : cell → Prop) cs i new : Forall Q cs → Q new → Forall Q (with_cell cs i new).
Proof using. apply Forall_grow. Qed.
Lemma with_cell_chains cs i new : flat_map c_chain (with_cell cs i new) ≡ₚ flat_map c_chain cs ++ c_chain new.
Proof using.
  unfold with_cell. rewrite flat_map_app. cbn [flat_map]. rewrite <-(flat_map_cut c_chain cs i). solve_Permutation.
Qed.
Lemma with_cell_recs cs i new : take i (c_rec <$> cs) ++ c_rec new :: drop i (c_rec <$> cs) = c_rec <$> with_cell cs i new.
Proof using. unfold with_cell. by rewrite fmap_app, fmap_take, fmap_cons, fmap_drop. Qed.

(** Room on the page. *)
Lemma leaf_insert_ok {B} (k : unit → M P B) s ctx no next cs new i b Q : inv s (plug ctx (TLeaf no next cs)) (c_chain new) →
  is_frozen (pool s) no = false → cell_ok (pool s) new → within (lo_of None ctx) (hi_of None ctx) (c_key new) →
  new_at cs i (c_key new) →
  get (pool s) no = Ok b → node_at b Leaf tid no next (c_rec <$> cs) → blen (c_rec new) + 4 ≤ free_space b →
  (∀ p', pool_ok p' → inv (set_pool p' s) (plug ctx (TLeaf no next (with_cell cs i new))) [] → runs (k tt) (set_pool p' s) Q) →
  runs (let+ b := lift (insert_slot b (Z.of_nat i) (c_rec new)) in write no (finalise b 0) ;;+ k tt) s Q.
Proof using HPL.
  intros Hinv Hf Hc Hkey Hi Hg Hn Hfit Hk. destruct (inv_unplug _ _ _ _ Hinv) as (_ & [_ Hcs] & _ & _ & [Hs Hw]).
  pose proof (node_insert _ _ _ _ _ _ i (c_rec new) Hn) as Hins. change SLOT_LEN with 4 in Hins. rewrite decide_True in Hins by done.
  destruct Hins as (b' & Hins & Hn' & _); [rewrite length_fmap; apply Hi|by eapply cell_rec_ok|].
  eapply runs_read; [unfold lift; by rewrite Hins|]. rewrite with_cell_recs in Hn'.
  eapply (leaf_write_ok _ s ctx no next cs _ _ (with_cell cs i new) []); [exact Hinv|done|by apply node_finalise| | | | |].
  - by apply with_cell_Forall.
  - by apply with_cell_sorted.
  - by apply with_cell_Forall.
  - by rewrite app_nil_r, with_cell_chains.
  - intros p' Hwr Hi' _. apply Hk; [apply Hwr|done].
Qed.
(** The handle after it, with the hint a leaf of the tree. *)
Lemma hinted s p' ctx no next cs cs' h : inv (set_pool p' s) (plug ctx (TLeaf no next cs')) [] → links true (plug ctx (TLeaf no next cs)) →
  (h = Some no ∨ h = None) → ∀ hits atts, tree_of (mkBTree p' (root s) h hits atts) (plug ctx (TLeaf no next cs')).
Proof using.
  intros Hi Hl Hh hits atts. split.
  - by destruct Hi.
  - rewrite links_plug in *. exact Hl.
  - destruct Hh as [->| ->]; [|done]. right. rewrite node_nos_plug, elem_of_app. right. left.
Qed.
Lemma insert_here_ok s ctx no next cs new i b : leaf_pre s ctx no next cs new → new_at cs i (c_key new) →
  get (pool s) no = Ok b → node_at b Leaf tid no next (c_rec <$> cs) → blen (c_rec new) + 4 ≤ free_space b →
  runs (let+ b := lift (insert_slot b (Z.of_nat i) (c_rec new)) in
        write no (finalise b 0) ;;+ (if next =? 0 then set_last_leaf (Some no) else ret tt)) s
    (λ _ s', inserted_at ctx cs i new s').
Proof using HPL.
  intros Hp Hi Hg Hn Hfit. pose proof (lp_links _ _ _ _ _ _ Hp) as Hl.
  apply (leaf_insert_ok (λ _, if next =? 0 then set_last_leaf (Some no) else ret tt) _ ctx _ next cs); try done; try apply Hp.
  intros p' Hp' Hi'. destruct (next =? 0).
  - split; [|by apply evolves_refl]. exists (plug ctx (TLeaf no next (with_cell cs i new))). split; [|apply cells_plug]. apply (hinted _ _ _ _ _ _ _ _ Hi' Hl). by left.
  - apply runs_ret; [done|]. exists (plug ctx (TLeaf no next (with_cell cs i new))). split; [|apply cells_plug]. unfold set_pool. rewrite (lp_hint _ _ _ _ _ _ Hp).
    apply (hinted _ _ _ _ _ _ _ _ Hi' Hl). by right.
Qed.

(** ** A leaf cut in two *)
Lemma leaf_built p no next cs : is_u16 tid → is_u32 no → is_u32 next → Forall (cell_ok p) cs → total (sizes (c_rec <$> cs)) ≤ USABLE →
  ∃ b, build_page Leaf tid no (c_rec <$> cs) next = Some (Ok b) ∧ node_at b Leaf tid no next (c_rec <$> cs).
Proof using.
  intros Ht Hno Hnx Hc Hs. pose proof (build_page_ok Leaf tid no (c_rec <$> cs) next Ht Hno Hnx) as Hb.
  rewrite decide_True in Hb by done. apply Hb. rewrite Forall_fmap. eapply Forall_impl; [exact Hc|]. intros c. apply cell_rec_ok.
Qed.
Lemma key_at_ok p cs (n : nat) c s : Forall (cell_ok p) cs → cs !! n = Some c →
  key_at (c_rec <$> cs) (Z.of_nat n) s = (s, Some (Ok (c_key c))).
Proof using.
  intros Hcs Hn. unfold key_at. erewrite bind_ok by (unfold sure; rewrite Nat2Z.id, list_lookup_fmap, Hn; done).
  pose proof (Forall_lookup_1 _ _ _ _ Hcs Hn) as Hc. apply cell_shape in Hc. destruct (shape_helpers _ _ _ _ Hc) as [E _].
  unfold sure. by rewrite E.
Qed.
(** The leaf's cells with the new one among them, not yet on pages: everything the
    splits rely on and none of their writes disturbs. *)
Record full_leaf s (ctx : list frame) (no next : Z) (U : list cell) : Prop := {
  fl_pool : pool_ok (pool s);
  fl_tid : is_u16 tid;
  fl_ctx : holds_ctx (pool s) ctx no;
  fl_owned : owned_ok (pool s) (no :: owned_ctx ctx ++ flat_map c_chain U);
  fl_ord : ord_ctx None None ctx;
  fl_sorted : sorted (c_key <$> U);
  fl_cells : Forall (cell_ok (pool s)) U;
  fl_within : Forall (λ c, within (lo_of None ctx) (hi_of None ctx) (c_key c)) U;
  fl_links : links_ctx true ctx ∧ (next = 0 ↔ last_of true ctx = true) ∧ is_u32 next;
  fl_path : writable (pool s) (f_no <$> ctx);
  fl_leaf : is_frozen (pool s) no = false;
  fl_root : ∀ t, no_of t = no → no_of (plug ctx t) = root s;
}.
Lemma full_leaf_of s ctx no next cs new i : leaf_pre s ctx no next cs new → new_at cs i (c_key new) →
  full_leaf s ctx no next (with_cell cs i new).
Proof using.
  intros Hp Hi. destruct (leaf_pre_view _ _ _ _ _ _ Hp) as (b0 & _ & _ & Hcs & Hs & Hw & Hun).
  pose proof (lp_inv _ _ _ _ _ _ Hp) as Hinv. destruct (inv_unplug _ _ _ _ Hinv) as (Hctx & _ & Ho & Hoc & _).
  pose proof (lp_links _ _ _ _ _ _ Hp) as [Hlc [Hlast _]]%links_plug. cbn [owned no_of] in *.
  split; try done; try apply Hp.
  - rewrite with_cell_chains.
    assert (no :: owned_ctx ctx ++ flat_map c_chain cs ++ c_chain new ≡ₚ owned_ctx ctx ++ (no :: flat_map c_chain cs) ++ c_chain new) as -> by solve_Permutation.
    done.
  - by apply with_cell_sorted.
  - apply with_cell_Forall; [done|apply Hp].
  - apply with_cell_Forall; [done|apply Hp].
  - intros t Ht. rewrite <-(inv_root _ _ _ Hinv). by apply no_of_plug_same.
Qed.
Lemma full_leaf_step s s' ctx no next U : full_leaf s ctx no next U → root s' = root s → evolves (pool s) (pool s') →
  owned_ok (pool s') (no :: owned_ctx ctx ++ flat_map c_chain U) → is_frozen (pool s') no = false →
  keeps (pool s) (pool s') (owned_ctx ctx ++ flat_map c_chain U) → full_leaf s' ctx no next U.
Proof using.
  intros [Hp Ht Hctx Ho Hoc Hs Hc Hw Hl Hpa Hf Hr] Er Hev Ho' Hf' Hk. split; try done.
  - apply Hev.
  - apply (holds_ctx_same (pool s)); [by apply evolves_limit| |done]. intros x Hx. apply Hk, elem_of_app. by left.
  - eapply cells_same; [by apply evolves_limit| |exact Hc]. intros x Hx. apply Hk, elem_of_app. by right.
  - apply (writable_ctx (pool s)); [|done]. intros x Hx. apply Hk, elem_of_app. by left.
  - intros t Et. rewrite Er. by apply Hr.
Qed.
(** A page beside the leaf written: nothing it relies on changes. *)
Lemma full_leaf_wrote s ctx no next U x b p' : full_leaf s ctx no next U → wrote (pool s) x b p' →
  x ∉ owned_ctx ctx ++ flat_map c_chain U → full_leaf (set_pool p' s) ctx no next U.
Proof using.
  intros Hfl Hw Hx. eapply full_leaf_step; [done|done|apply Hw|apply Hw, Hfl| |by eapply wrote_keeps].
  cbn [pool set_pool]. rewrite (wrote_frozen _ _ _ _ Hw). apply Hfl.
Qed.
(** Two leaves side by side where one hung, ready for their separator. *)
Lemma leaves_pre s ctx no rno mid next U V (n : nat) c R last : full_leaf s ctx no next (U ++ V) →
  node_page (pool s) no Leaf rno (c_rec <$> take n U) → node_page (pool s) rno Leaf mid (c_rec <$> drop n U) →
  owned_ok (pool s) (rno :: no :: owned_ctx ctx ++ flat_map c_chain U ++ R) →
  U !! n = Some c → (0 < n)%nat → links_ctx last ctx → links (last_of last ctx) (TLeaf rno mid (drop n U)) →
  sep_pre s ctx (TLeaf no rno (take n U)) (TLeaf rno mid (drop n U)) (c_key c) R last.
Proof using.
  intros F H1 H2 Ho Hn H0 Hlc Hl2. pose proof (fl_cells _ _ _ _ _ F) as [Hcs _]%Forall_app.
  pose proof (fl_within _ _ _ _ _ F) as [Hw _]%Forall_app. pose proof (fl_sorted _ _ _ _ _ F) as Hs.
  rewrite fmap_app in Hs. apply sorted_app in Hs as (Hs & _ & _).
  destruct (cut_leaf _ _ _ _ _ no rno rno mid Hs Hw Hn H0) as (Ho1 & Ho2 & Hin).
  split; try done; try apply F; try done.
  - split; [done|by apply Forall_take].
  - split; [done|by apply Forall_drop].
  - cbn [owned]. assert (owned_ctx ctx ++ (no :: flat_map c_chain (take n U)) ++ (rno :: flat_map c_chain (drop n U)) ++ R ≡ₚ
      rno :: no :: owned_ctx ctx ++ (flat_map c_chain (take n U) ++ flat_map c_chain (drop n U)) ++ R) as -> by solve_Permutation.
    by rewrite flat_map_cut.
  - by apply (Forall_lookup_1 _ _ _ _ Hcs Hn).
  - split; [done|]. split; [|done]. cbn [links]. destruct Ho as [_ Ho]. apply Forall_cons in Ho as [(Hr & Hu & _) _]. split; [lia|done].
Qed.
Lemma drop_key_at p cs (n : nat) c s : Forall (cell_ok p) cs → cs !! n = Some c →
  key_at (drop n (c_rec <$> cs)) 0 s = (s, Some (Ok (c_key c))).
Proof using.
  intros Hcs Hn. rewrite <-fmap_drop. change 0 with (Z.of_nat 0). eapply key_at_ok; [by apply Forall_drop|].
  by rewrite lookup_drop, Nat.add_0_r.
Qed.
Lemma split_two_ok s ctx no next cs new i (sp : nat) : leaf_pre s ctx no next cs new → new_at cs i (c_key new) →
  let recs := c_rec <$> with_cell cs i new in cut_fits USABLE recs sp →
  runs (let+ sep := key_at (drop sp recs) 0 in
        let+ right_no := alloc in
        let+ page := build tid Leaf right_no (drop sp recs) next in
        write right_no page ;;+
        let+ page := build tid Leaf no (take sp recs) right_no in
        write no page ;;+
        (if next =? 0 then set_last_leaf (Some right_no) else ret tt) ;;+
        insert_separator tid (f_no <$> ctx) sep right_no) s (λ _ s', inserted_at ctx cs i new s').
Proof using HPL.
  intros Hp Hi recs ([Hsp0 Hspl] & Hfl & Hfr). unfold recs in *. rewrite length_fmap in Hspl. rewrite <-fmap_take, <-fmap_drop in *.
  pose proof (full_leaf_of _ _ _ _ _ _ _ Hp Hi) as F. set (U := with_cell cs i new) in *.
  destruct (lookup_lt_is_Some_2 U sp Hspl) as [c Hc]. rewrite fmap_drop.
  eapply runs_read; [eapply drop_key_at; [apply F|done]|]. rewrite <-fmap_drop.
  apply (runs_alloc _ _ _ _ (fl_pool _ _ _ _ _ F) (fl_owned _ _ _ _ _ F)). intros rno p1 Hev1 Ho1 Hk1 [Hf1 _].
  pose proof Ho1 as [Hnd Hran]. apply NoDup_cons in Hnd as [Hrn Hnd]. apply NoDup_cons in Hnd as [Hno _].
  apply Forall_cons in Hran as [(_ & Hur & _) Hran]. apply Forall_cons in Hran as [(_ & Hu & _) _].
  assert (full_leaf (set_pool p1 s) ctx no next U) as F1.
  { apply (full_leaf_step s); [done|done|done|by apply (owned_ok_app p1 [rno]) in Ho1 as [_ ?]| |].
    - cbn [pool set_pool]. destruct (Hk1 no) as [_ ->]; [left|apply F].
    - eapply keeps_sub; [exact Hk1|]. intros x Hx. by right. }
  destruct (fl_links _ _ _ _ _ F) as (Hlc & Hlast & Hun).
  destruct (leaf_built p1 rno next (drop sp U) (fl_tid _ _ _ _ _ F) Hur Hun) as (br & Hbr & Hnr); [apply Forall_drop, F1|done|].
  destruct (leaf_built p1 no rno (take sp U) (fl_tid _ _ _ _ _ F) Hu Hur) as (bl & Hbl & Hnl); [apply Forall_take, F1|done|].
  eapply runs_read; [unfold build, lift; by rewrite Hbr|]. apply runs_write; [apply Hev1|done|]. intros p2 Hw2.
  assert (full_leaf (set_pool p2 (set_pool p1 s)) ctx no next U) as F2.
  { eapply full_leaf_wrote; [exact F1|done|]. intros Hx. apply Hrn. by right. }
  eapply runs_read; [unfold build, lift; by rewrite Hbl|]. apply runs_write; [apply F2|apply F2|]. intros p3 Hw3.
  pose proof (full_leaf_wrote _ _ _ _ _ _ _ _ F2 Hw3 Hno) as F3. cbn [pool set_pool] in *.
  assert (owned_ok p3 (rno :: no :: owned_ctx ctx ++ flat_map c_chain U ++ [])) as Ho3.
  { rewrite app_nil_r. by apply (wrote_owned _ _ _ _ Hw3), (wrote_owned _ _ _ _ Hw2). }
  assert (rno ≠ no) as Hne by (intros ->; apply Hrn; left).
  set (h := if next =? 0 then Some rno else None).
  set (s3 := mkBTree p3 (root s) h (fast_path_hits s) (fast_path_attempts s)).
  assert (full_leaf s3 ctx no next (U ++ [])) as F4 by (rewrite app_nil_r; by destruct F3).
  assert (sep_pre s3 ctx (TLeaf no rno (take sp U)) (TLeaf rno next (drop sp U)) (c_key c) [] true) as Hpre.
  { apply (leaves_pre _ _ _ _ _ _ _ _ _ _ _ _ F4); try done.
    - exists bl. split; [by apply wrote_here in Hw3|done].
    - exists br. split; [|done]. cbn [pool s3]. rewrite (wrote_get _ _ _ _ Hw3), decide_False by done. by apply wrote_here in Hw2. }
  eapply (runs_set _ _ _ s3 tt).
  { unfold s3, h. destruct (next =? 0); [done|]. unfold ret, set_pool. cbn. by rewrite (lp_hint _ _ _ _ _ _ Hp). }
  { done. }
  eapply runs_mono; [exact (insert_separator_ok _ _ _ _ _ _ _ Hpre)|]. intros [] s' [T HT] _. exists T. split.
  - split; [apply HT|apply HT|]. rewrite (sq_last _ _ _ _ _ _ _ _ _ HT). unfold s3, h. cbn. destruct (next =? 0); [|done].
    right. apply leaf_node_nos. rewrite (sq_leaves _ _ _ _ _ _ _ _ _ HT). cbn [leaf_nos]. rewrite !elem_of_app, !elem_of_cons. auto.
  - rewrite (sq_cells _ _ _ _ _ _ _ _ _ HT). cbn [cells]. by rewrite (app_assoc (take sp U)), take_drop.
Qed.
End insert.
End TreeInsert.
