(* ===== verification/TreeThree.v ===== *)
(** * A leaf cut in three ([split_leaf_and_insert] of [core/kernel/src/btree.rs])

    Where a record of nearly a page lands between two others that no single cut
    separates from it, the records are packed greedily: into exactly three pages.
    The first separator goes up the path; the second goes up the path that a new
    descent finds. *)
From S2P Require Import Prelude Crc Page Cells Order Node Interior Pool Tree BTree TreeRep TreeRead TreeWrite TreeSplit TreeSpill TreeInsert.
Import Page Cells Order Node Interior Tree BTree TreeRep TreeRead TreeWrite TreeSplit TreeSpill TreeInsert.

Module TreeThree.

(** ** The packing *)
Lemma greedy_next usable recs : ∀ i used, used ≤ usable →
  (greedy usable i used recs = [] ∧ used + total (sizes recs) ≤ usable) ∨
  (∃ (n : nat) r, recs !! n = Some r ∧ used + total (sizes (take n recs)) ≤ usable ∧
     usable < used + total (sizes (take n recs)) + (blen r + 4) ∧
     greedy usable i used recs = (i + Z.of_nat n) :: greedy usable (i + Z.of_nat n + 1) (blen r + 4) (drop (S n) recs)).
Proof.
  induction recs as [|r recs IH]; intros i used Hu; cbn [greedy].
  - left. split; [done|]. change (total (sizes [])) with 0. lia.
  - destruct (Z.ltb_spec usable (used + blen r + 4)) as [Hlt|Hge].
    + right. exists 0%nat, r. change (total (sizes (take 0 (r :: recs)))) with 0. rewrite !Z.add_0_r. split_and!; [done|lia|lia|done].
    + destruct (IH (i + 1) (used + blen r + 4)) as [[E Hs]|(n & r' & Hn & H1 & H2 & E)]; [lia| |].
      * left. split; [done|]. change (total (sizes (r :: recs))) with (blen r + 4 + total (sizes recs)). lia.
      * right. exists (S n), r'. change (total (sizes (take (S n) (r :: recs)))) with (blen r + 4 + total (sizes (take n recs))).
        split_and!; [done|lia|lia|]. rewrite E. replace (i + 1 + Z.of_nat n) with (i + Z.of_nat (S n)) by lia. done.
Qed.
(** Sizes of the parts of a list. *)
Definition weight (recs : list bytes) : Z := total (sizes recs).
Lemma weight_app l1 l2 : weight (l1 ++ l2) = weight l1 + weight l2.
Proof. unfold weight, sizes. by rewrite fmap_app, total_app. Qed.
Lemma weight_cons r l : weight (r :: l) = blen r + 4 + weight l.
Proof. done. Qed.
Lemma weight_at l (n : nat) r : l !! n = Some r → weight (drop n l) = blen r + 4 + weight (drop (S n) l).
Proof. intros Hn. by rewrite (drop_S _ _ _ Hn). Qed.
Lemma weight_cut l (n : nat) : weight l = weight (take n l) + weight (drop n l).
Proof. by rewrite <-weight_app, take_drop. Qed.
Lemma weight_each recs : weight recs ≤ USABLE → Forall (λ r, blen r + 4 ≤ USABLE) recs.
Proof.
  intros Hw. apply Forall_lookup_2. intros j r Hj. pose proof (weight_cut recs j) as E. rewrite (weight_at _ _ _ Hj) in E.
  pose proof (total_nonneg (take j recs)). pose proof (total_nonneg (drop (S j) recs)). unfold weight in *. lia.
Qed.
(** Records of at most two pages that no cut separates make exactly three groups. *)
Lemma three_groups recs : Forall (λ r, blen r + 4 ≤ USABLE) recs → USABLE < weight recs → weight recs ≤ 2 * USABLE →
  (∀ mid, ¬ cut_fits USABLE recs mid) →
  ∃ c1 c2 : nat, greedy USABLE 0 0 recs = [Z.of_nat c1; Z.of_nat c2] ∧ (0 < c1 < c2)%nat ∧ (c2 < length recs)%nat ∧
    weight (take c1 recs) ≤ USABLE ∧ weight (take (c2 - c1) (drop c1 recs)) ≤ USABLE ∧ weight (drop c2 recs) ≤ USABLE.
Proof.
  intros Hall Hbig Htwo Hno. assert (0 ≤ USABLE) by done.
  destruct (greedy_next USABLE recs 0 0) as [[_ Hs]|(c1 & r1 & Hc1 & Hle1 & Hgt1 & E1)]; [done|unfold weight in *; lia|].
  fold (weight (take c1 recs)) in *. rewrite !Z.add_0_l in *. pose proof (lookup_lt_Some _ _ _ Hc1) as Hl1.
  assert (0 < c1)%nat as Hpos.
  { destruct c1; [|lia]. pose proof (Forall_lookup_1 _ _ _ _ Hall Hc1) as Hr. cbn in Hr. change (weight (take 0 recs)) with 0 in *. lia. }
  pose proof (weight_cut recs c1) as Hw1. pose proof (weight_at _ _ _ Hc1) as Hw1'.
  pose proof (Forall_lookup_1 _ _ _ _ Hall Hc1) as Hr1. cbn in Hr1.
  destruct (greedy_next USABLE (drop (S c1) recs) (Z.of_nat c1 + 1) (blen r1 + 4)) as [[_ Hs]|(n2 & r2 & Hn2 & Hle2 & Hgt2 & E2)]; [done| |].
  { exfalso. apply (Hno c1). unfold cut_fits. fold (weight (take c1 recs)) (weight (drop c1 recs)). fold (weight (drop (S c1) recs)) in Hs.
    split; [lia|]. split; [done|lia]. }
  fold (weight (take n2 (drop (S c1) recs))) in *. set (c2 := (S c1 + n2)%nat).
  rewrite lookup_drop in Hn2. fold c2 in Hn2. pose proof (lookup_lt_Some _ _ _ Hn2) as Hl2.
  pose proof (Forall_lookup_1 _ _ _ _ Hall Hn2) as Hr2. cbn in Hr2.
  rewrite drop_drop in E2. replace (S c1 + S n2)%nat with (S c2) in E2 by (unfold c2; lia).
  replace (Z.of_nat c1 + 1 + Z.of_nat n2) with (Z.of_nat c2) in E2 by (unfold c2; lia).
  assert (weight (take (c2 - c1) (drop c1 recs)) = blen r1 + 4 + weight (take n2 (drop (S c1) recs))) as Hmid.
  { rewrite (drop_S _ _ _ Hc1). replace (c2 - c1)%nat with (S n2) by (unfold c2; lia). done. }
  assert (weight (drop c1 recs) = weight (take (c2 - c1) (drop c1 recs)) + weight (drop c2 recs)) as Hw2.
  { rewrite (weight_cut (drop c1 recs) (c2 - c1)), drop_drop. by replace (c1 + (c2 - c1))%nat with c2 by (unfold c2; lia). }
  pose proof (weight_at _ _ _ Hn2) as Hw2'.
  destruct (greedy_next USABLE (drop (S c2) recs) (Z.of_nat c2 + 1) (blen r2 + 4)) as [[E3 Hs]|(n3 & r3 & Hn3 & Hle3 & Hgt3 & _)]; [done| |].
  - fold (weight (drop (S c2) recs)) in Hs. exists c1, c2. rewrite E1, E2, E3. unfold c2 in *. split_and!; (done || lia).
  - exfalso. fold (weight (take n3 (drop (S c2) recs))) in *. pose proof (weight_cut (drop (S c2) recs) n3).
    pose proof (weight_at _ _ _ Hn3). pose proof (total_nonneg (drop (S n3) (drop (S c2) recs))). pose proof (total_nonneg (take n2 (drop (S c1) recs))).
    unfold weight in *. lia.
Qed.

(** ** Last leaves *)
Lemma last_hi c : last_of true c = true ↔ hi_of None c = None.
Proof.
  unfold last_of, hi_of. induction c as [|f c IH]; [done|]. cbn [foldr]. destruct (f_r f) as [|[k t] r]; [exact IH|]. cbn. split; done.
Qed.
Lemma links_ctx_last b b' c : last_of true c = true → links_ctx b c → links_ctx b' c.
Proof.
  induction c as [|f c IH]; [done|]. unfold last_of. cbn [foldr links_ctx]. fold (last_of true c). unfold links_frame.
  destruct (f_r f) as [|x r]; [|done]. intros Hl [[Hf _] Hc]. split; [done|by apply IH].
Qed.
Lemma last_of_false c : last_of false c = false.
Proof. unfold last_of. induction c as [|f c IH]; [done|]. cbn. by destruct (f_r f). Qed.
(** Equal sorted lists around the same cells. *)
Lemma around_unique (l1 l2 m1 m2 B : list cell) : B ≠ [] → sorted (c_key <$> l1 ++ B ++ l2) → l1 ++ B ++ l2 = m1 ++ B ++ m2 →
  l1 = m1 ∧ l2 = m2.
Proof.
  intros HB Hs E. destruct B as [|x B]; [done|].
  assert (length l1 = length m1) as El.
  { assert ((c_key <$> l1 ++ (x :: B) ++ l2) !! length l1 = Some (c_key x)) as H1.
    { rewrite list_lookup_fmap, lookup_app_r, Nat.sub_diag by lia. done. }
    assert ((c_key <$> l1 ++ (x :: B) ++ l2) !! length m1 = Some (c_key x)) as H2.
    { rewrite E, list_lookup_fmap, lookup_app_r, Nat.sub_diag by lia. done. }
    destruct (lt_eq_lt_dec (length l1) (length m1)) as [[Hlt|]|Hlt]; [|done|].
    - pose proof (sorted_lookup _ _ _ _ _ Hs H1 H2 Hlt). exfalso. order.
    - pose proof (sorted_lookup _ _ _ _ _ Hs H2 H1 Hlt). exfalso. order. }
  apply app_inj_1 in E as [-> E]; [|done]. split; [done|]. by apply app_inv_head in E.
Qed.

Section three.
Context `{HC : Crc32c} `{HL : !Crc32cLaws} {P : Type} `{HP : PagePool P} `{HPL : !PagePoolLaws P}.
Context {tid : TreeId}.
Implicit Types (p : P) (s : BTree P) (t : tree) (O R : list Z).

(** ** The second separator *)
(** The right leaf, set aside while the first separator went up. *)
Definition aside (rno next : Z) (V : list cell) : list Z := owned (TLeaf rno next V).
Lemma owned_in p l x : owned_ok p l → x ∈ l → x ≠ 0 ∧ is_u32 x.
Proof using. intros [_ Ho] Hx. rewrite Forall_forall in Ho. destruct (Ho x Hx) as (? & ? & _). split; [lia|done]. Qed.
Lemma second_pre s c' leaf rno next B V sep1 sep2 hi : inv s (plug c' (TLeaf leaf rno B)) (aside rno next V) →
  holds (pool s) (TLeaf rno next V) → writable (pool s) (f_no <$> c') → lo_of None c' = Some sep1 → hi_of None c' = hi →
  ord (Some sep1) (Some sep2) (TLeaf leaf rno B) → ord (Some sep2) hi (TLeaf rno next V) → inside (Some sep1) hi sep2 → sep_ok sep2 →
  links_ctx (negb (next =? 0)) c' → is_u32 next → (next = 0 ↔ hi = None) →
  sep_pre s c' (TLeaf leaf rno B) (TLeaf rno next V) sep2 [] true.
Proof using.
  intros Hi Hr Hw Hlo Hhi Ho1 Ho2 Hin Hsep Hl Hu Hnext. destruct (inv_unplug _ _ _ _ Hi) as (Hctx & Hm & Ho & Hoc & _).
  destruct (owned_in _ _ rno Ho) as [Hr0 Hru]; [rewrite !elem_of_app; right; right; left|].
  assert (next = 0 ↔ last_of true c' = true) as Hlast by (rewrite last_hi, Hhi; done).
  split; try done; rewrite ?Hlo, ?Hhi; try done; try by apply Hi.
  - by rewrite app_nil_r.
  - split; [|split; [by split|by split]].
    destruct (Z.eqb_spec next 0) as [->|Hne]; [|done]. apply (links_ctx_last false); [by apply Hlast|done].
Qed.
Lemma second_ok s ctx T mid rno next A B V sep1 sep2 sR : sep_post sR ctx (TLeaf A.1 mid A.2) (TLeaf mid rno B) sep1 (aside rno next V) (negb (next =? 0)) s T →
  evolves (pool sR) (pool s) → holds (pool sR) (TLeaf rno next V) → B ≠ [] →
  ord (Some sep1) (Some sep2) (TLeaf mid rno B) → ord (Some sep2) (hi_of None ctx) (TLeaf rno next V) →
  inside (Some sep1) (hi_of None ctx) sep2 → sep_ok sep2 → is_u32 next → (next = 0 ↔ hi_of None ctx = None) → last_leaf s = None →
  runs (let+ (_, new_path) := descend_for_write tid sep2 in
        insert_separator tid new_path sep2 rno ;;+
        (if next =? 0 then set_last_leaf (Some rno) else ret tt)) s (λ _ s',
    ∃ T', tree_of s' T' ∧ cells T' = before ctx ++ A.2 ++ B ++ V ++ after ctx).
Proof using HPL.
  intros [Hi Hl Hc _ _ (C & -> & Hlo & Hhi) Hll HkR] HevR Hr HB Ho1 Ho2 Hin Hsep Hun Hnext Hlast.
  pose proof (inv_pool _ _ _ Hi) as Hpool.
  eapply runs_bind; [apply (descend_for_write_ok sep2 s C (TLeaf mid rno B)); [exact Hi|done|rewrite Hlo, Hhi; by apply inside_within]|].
  intros [leaf path] s5 (C' & Hsh & Hi5 & Hw5 & _ & Hpath & Hll5 & Hk5 & _) Hev5. cbn [fst snd] in *.
  rewrite app_nil_r in Hi5, Hw5, Hpath. cbn [renumber] in Hi5. subst path.
  destruct (same_shape_view _ _ Hsh) as (E1 & E2 & E3 & E4 & _ & E6).
  assert (sep_pre s5 C' (TLeaf leaf rno B) (TLeaf rno next V) sep2 [] true) as Hpre.
  { eapply (second_pre s5 C' leaf rno next B V sep1 sep2 (hi_of None ctx)); try done.
    - apply (holds_same (pool sR)); [apply evolves_limit; by eapply evolves_trans| |exact Hr].
      intros x Hx. destruct (Hk5 x Hx) as [-> _]. by apply HkR.
    - by rewrite E1.
    - by rewrite E2.
    - apply E6. by apply links_plug in Hl as [? _]. }
  eapply runs_bind; [exact (insert_separator_ok _ _ _ _ _ _ _ Hpre)|]. intros [] s6 [T6 HT] Hev6.
  assert (cells T6 = before ctx ++ A.2 ++ B ++ V ++ after ctx) as Hcells.
  { rewrite (sq_cells _ _ _ _ _ _ _ _ _ HT), E3, E4. cbn [cells] in *. rewrite cells_plug in Hc. cbn [cells] in Hc.
    destruct (around_unique (before C) (after C) (before ctx ++ A.2) (after ctx) B HB) as [-> ->].
    - pose proof (ord_keys _ _ _ (inv_ord _ _ _ Hi)) as [Hs _]. unfold keys in Hs. by rewrite cells_plug in Hs.
    - by rewrite Hc, <-!app_assoc.
    - by rewrite <-!app_assoc. }
  destruct (Z.eqb_spec next 0) as [E0|E0].
  - split; [|apply evolves_refl, HT]. exists T6. split; [|done]. split; [|apply HT|].
    + destruct (sq_inv _ _ _ _ _ _ _ _ _ HT). by split.
    + right. apply leaf_node_nos. rewrite (sq_leaves _ _ _ _ _ _ _ _ _ HT). cbn [leaf_nos]. rewrite !elem_of_app, !elem_of_cons. auto.
  - apply runs_ret; [apply HT|]. exists T6. split; [|done]. split; [apply HT|apply HT|].
    by rewrite (sq_last _ _ _ _ _ _ _ _ _ HT), Hll5, Hlast.
Qed.

(** ** The three pages *)
Lemma slice_parts {A} (l : list A) (c1 c2 : nat) : (c1 < c2 < length l)%nat →
  slice l 0 (Z.of_nat c1) = take c1 l ∧ slice l (Z.of_nat c1) (Z.of_nat c2 - Z.of_nat c1) = take (c2 - c1) (drop c1 l) ∧
  slice l (Z.of_nat c2) (blen l - Z.of_nat c2) = drop c2 l.
Proof using.
  intros Hc. unfold slice, blen. change (Z.to_nat 0) with 0%nat. rewrite drop_0, !Nat2Z.id.
  replace (Z.to_nat (Z.of_nat c2 - Z.of_nat c1)) with (c2 - c1)%nat by lia. split_and!; [done|done|].
  apply take_ge. rewrite length_drop. lia.
Qed.

Lemma full_leaf_alloc s ctx no next U x p' : full_leaf s ctx no next U → evolves (pool s) p' →
  owned_ok p' (x :: no :: owned_ctx ctx ++ flat_map c_chain U) → keeps (pool s) p' (no :: owned_ctx ctx ++ flat_map c_chain U) →
  full_leaf (set_pool p' s) ctx no next U.
Proof using.
  intros F Hev Ho Hk. apply (full_leaf_step s); [done|done|done|by apply (owned_ok_app p' [x]) in Ho as [_ ?]| |].
  - cbn [pool set_pool]. destruct (Hk no) as [_ ->]; [left|apply F].
  - eapply keeps_sub; [exact Hk|]. intros y Hy. by right.
Qed.
Lemma three_written p ctx no mid rno U bm br bl p3 p4 p5 next (c1 c2 : nat) :
  owned_ok p (rno :: mid :: no :: owned_ctx ctx ++ flat_map c_chain U) →
  wrote p mid bm p3 → wrote p3 rno br p4 → wrote p4 no bl p5 →
  node_at bl Leaf tid no mid (c_rec <$> take c1 U) → node_at bm Leaf tid mid rno (c_rec <$> take (c2 - c1) (drop c1 U)) →
  node_at br Leaf tid rno next (c_rec <$> drop c2 U) →
  owned_ok p5 (rno :: mid :: no :: owned_ctx ctx ++ flat_map c_chain U) ∧ node_page p5 no Leaf mid (c_rec <$> take c1 U) ∧
  node_page p5 mid Leaf rno (c_rec <$> take (c2 - c1) (drop c1 U)) ∧ node_page p5 rno Leaf next (c_rec <$> drop c2 U).
Proof using.
  intros Ho Hw3 Hw4 Hw5 Hl Hm Hr. pose proof Ho as [Hnd _].
  apply NoDup_cons in Hnd as [Hn1 Hnd]. apply NoDup_cons in Hnd as [Hn2 _].
  assert (rno ≠ mid ∧ rno ≠ no ∧ mid ≠ no) as (Hne1 & Hne2 & Hne3).
  { split_and!; intros ->; [apply Hn1; left|apply Hn1; right; left|apply Hn2; left]. }
  split_and!.
  - by apply (wrote_owned _ _ _ _ Hw5), (wrote_owned _ _ _ _ Hw4), (wrote_owned _ _ _ _ Hw3).
  - exists bl. split; [by apply wrote_here in Hw5|done].
  - exists bm. split; [|done]. rewrite (wrote_get _ _ _ _ Hw5), decide_False, (wrote_get _ _ _ _ Hw4), decide_False by done. by apply wrote_here in Hw3.
  - exists br. split; [|done]. rewrite (wrote_get _ _ _ _ Hw5), decide_False by done. by apply wrote_here in Hw4.
Qed.
Lemma three_pages_ok {B} (k : Z → Z → bytes → bytes → M P B) s ctx no next U (c1 c2 : nat) c d Q : full_leaf s ctx no next U →
  U !! c1 = Some c → U !! c2 = Some d →
  let recs := c_rec <$> U in weight (take c1 recs) ≤ USABLE → weight (take (c2 - c1) (drop c1 recs)) ≤ USABLE → weight (drop c2 recs) ≤ USABLE →
  (∀ mid rno p', full_leaf (set_pool p' s) ctx no next U → owned_ok p' (rno :: mid :: no :: owned_ctx ctx ++ flat_map c_chain U) →
     node_page p' no Leaf mid (c_rec <$> take c1 U) → node_page p' mid Leaf rno (c_rec <$> take (c2 - c1) (drop c1 U)) →
     node_page p' rno Leaf next (c_rec <$> drop c2 U) → runs (k mid rno (c_key c) (c_key d)) (set_pool p' s) Q) →
  runs (let+ mid_no := alloc in
        let+ right_no := alloc in
        let+ left_image := build tid Leaf no (take c1 recs) mid_no in
        let+ mid_image := build tid Leaf mid_no (take (c2 - c1) (drop c1 recs)) right_no in
        let+ right_image := build tid Leaf right_no (drop c2 recs) next in
        let+ mid_sep := key_at recs (Z.of_nat c1) in
        let+ right_sep := key_at recs (Z.of_nat c2) in
        write mid_no mid_image ;;+ write right_no right_image ;;+ write no left_image ;;+ k mid_no right_no mid_sep right_sep) s Q.
Proof using HPL.
  intros F Hc Hd recs Hw1 Hw2 Hw3 Hk. unfold recs in *. rewrite <-!fmap_drop, <-!fmap_take in *. unfold weight in *.
  apply (runs_alloc _ _ _ _ (fl_pool _ _ _ _ _ F) (fl_owned _ _ _ _ _ F)). intros mid p1 Hev1 Ho1 Hk1 [Hf1 _].
  pose proof (full_leaf_alloc _ _ _ _ _ _ _ F Hev1 Ho1 Hk1) as F1.
  apply (runs_alloc _ _ _ _ (fl_pool _ _ _ _ _ F1) Ho1). intros rno p2 Hev2 Ho2 Hk2 [Hf2 _]. cbn [pool set_pool] in Hev2, Hk2.
  assert (full_leaf (set_pool p2 (set_pool p1 s)) ctx no next U) as F2.
  { apply (full_leaf_alloc _ _ _ _ _ mid _ F1 Hev2); [by apply (owned_ok_app p2 [rno]) in Ho2 as [_ ?]|].
    eapply keeps_sub; [exact Hk2|]. intros x Hx. by right. }
  pose proof Ho2 as [Hnd Hran]. apply NoDup_cons in Hnd as [Hn1 Hnd]. apply NoDup_cons in Hnd as [Hn2 Hnd]. apply NoDup_cons in Hnd as [Hn3 _].
  apply Forall_cons in Hran as [(_ & Hur & _) Hran]. apply Forall_cons in Hran as [(_ & Hum & _) Hran].
  apply Forall_cons in Hran as [(_ & Hul & _) _]. destruct (fl_links _ _ _ _ _ F) as (_ & _ & Hun). pose proof (fl_tid _ _ _ _ _ F) as Ht.
  pose proof (fl_cells _ _ _ _ _ F2) as Hcs. cbn [pool set_pool] in Hcs.
  destruct (leaf_built p2 no mid (take c1 U) Ht Hul Hum) as (bl & Hbl & Hnl); [by apply Forall_take|done|].
  destruct (leaf_built p2 mid rno (take (c2 - c1) (drop c1 U)) Ht Hum Hur) as (bm & Hbm & Hnm); [by apply Forall_take, Forall_drop|done|].
  destruct (leaf_built p2 rno next (drop c2 U) Ht Hur Hun) as (br & Hbr & Hnr); [by apply Forall_drop|done|].
  eapply runs_read; [unfold build, lift; by rewrite Hbl|]. eapply runs_read; [unfold build, lift; by rewrite Hbm|].
  eapply runs_read; [unfold build, lift; by rewrite Hbr|]. eapply runs_read; [by eapply key_at_ok|]. eapply runs_read; [by eapply key_at_ok|].
  apply runs_write; [apply F2|destruct (Hk2 mid) as [_ Hx]; [left|by rewrite <-Hf1]|]. intros p3 Hwr3.
  assert (full_leaf (set_pool p3 (set_pool p2 (set_pool p1 s))) ctx no next U) as F3.
  { eapply full_leaf_wrote; [exact F2|done|]. intros Hx. apply Hn2. by right. }
  apply runs_write; [apply F3|cbn [pool set_pool]; by rewrite (wrote_frozen _ _ _ _ Hwr3)|]. intros p4 Hwr4.
  pose proof (full_leaf_wrote _ _ _ _ _ rno br p4 F3 Hwr4 ltac:(intros Hx; apply Hn1; by do 2 right)) as F4.
  apply runs_write; [apply F4|apply F4|]. intros p5 Hwr5. pose proof (full_leaf_wrote _ _ _ _ _ _ _ _ F4 Hwr5 Hn3) as F5.
  cbn [pool set_pool] in *. destruct (three_written p2 ctx no mid rno U bm br bl p3 p4 p5 next c1 c2 Ho2 Hwr3 Hwr4 Hwr5 Hnl Hnm Hnr) as (Ho5 & Hp1 & Hp2 & Hp3).
  by apply Hk.
Qed.

(** ** Three leaves and two separators *)
Lemma three_leaves_ok s ctx no next cs new i (c1 c2 : nat) : leaf_pre s ctx no next cs new → new_at cs i (c_key new) →
  let U := with_cell cs i new in let recs := c_rec <$> U in
  greedy USABLE 0 0 recs = [Z.of_nat c1; Z.of_nat c2] → (0 < c1 < c2)%nat → (c2 < length recs)%nat →
  weight (take c1 recs) ≤ USABLE → weight (take (c2 - c1) (drop c1 recs)) ≤ USABLE → weight (drop c2 recs) ≤ USABLE →
  runs (split_three tid no (f_no <$> ctx) recs next) s (λ _ s', inserted_at ctx cs i new s').
Proof using HPL.
  intros Hp Hi U recs Hg Hc12 Hc2 Hw1 Hw2 Hw3. pose proof (full_leaf_of _ _ _ _ _ _ _ Hp Hi) as F. fold U in F.
  assert (length recs = length U) as Elen by apply length_fmap. rewrite Elen in Hc2.
  destruct (lookup_lt_is_Some_2 U c1) as [c Hc]; [lia|]. destruct (lookup_lt_is_Some_2 U c2) as [d Hd]; [lia|].
  destruct (slice_parts recs c1 c2) as (S1 & S2 & S3); [lia|]. unfold split_three. rewrite Hg. cbn [app].
  rewrite (proj2 (Z.eqb_neq 0 _)), (proj2 (Z.eqb_neq (Z.of_nat c1) _)), (proj2 (Z.eqb_neq (Z.of_nat c2) _)) by (unfold blen; lia).
  cbn [orb]. rewrite S1, S2, S3.
  apply (three_pages_ok (λ mid_no right_no mid_sep right_sep,
      set_last_leaf None ;;+ insert_separator tid (f_no <$> ctx) mid_sep mid_no ;;+
      let+ (_, new_path) := descend_for_write tid right_sep in
      insert_separator tid new_path right_sep right_no ;;+
      (if next =? 0 then set_last_leaf (Some right_no) else ret tt)) s ctx no next U c1 c2 c d); try done.
  intros mid rno p' F' Ho Hpl Hpm Hpr. set (s3 := mkBTree p' (root s) None (fast_path_hits s) (fast_path_attempts s)).
  eapply (runs_set _ _ _ s3 tt); [done|done|].
  assert (full_leaf s3 ctx no next (take c2 U ++ drop c2 U)) as F3 by (rewrite take_drop; by destruct F').
  set (V := drop c2 U) in *. set (B := take (c2 - c1) (drop c1 U)) in *.
  assert (take c1 (take c2 U) = take c1 U) as EA by (rewrite take_take; f_equal; lia).
  assert (drop c1 (take c2 U) = B) as EB by (unfold B; rewrite take_drop_commute; do 2 f_equal; lia).
  assert (take c2 U !! c1 = Some c) as Hc' by (by rewrite lookup_take_lt by lia).
  destruct (fl_links _ _ _ _ _ F) as (Hlc & Hlast & Hun).
  destruct (owned_in _ _ rno Ho) as [Hr0 Hru]; [left|].
  assert (sep_pre s3 ctx (TLeaf no mid (take c1 U)) (TLeaf mid rno B) (c_key c) (aside rno next V) (negb (next =? 0))) as Hpre.
  { rewrite <-EA, <-EB. apply (leaves_pre _ _ _ _ _ _ _ _ _ _ _ _ F3); try done.
    - by rewrite EA.
    - by rewrite EB.
    - unfold aside. cbn [owned pool s3].
      assert (mid :: no :: owned_ctx ctx ++ flat_map c_chain (take c2 U) ++ rno :: flat_map c_chain V ≡ₚ
        rno :: mid :: no :: owned_ctx ctx ++ flat_map c_chain (take c2 U) ++ flat_map c_chain V) as -> by solve_Permutation.
      unfold V. by rewrite flat_map_cut.
    - lia.
    - destruct (Z.eqb_spec next 0) as [->|]; [|done]. apply (links_ctx_last true); [by apply Hlast|done].
    - split; [|done]. split; [done|]. destruct (Z.eqb_spec next 0) as [->|Hne]; [by rewrite last_of_false|].
      intros Hl. by apply Hlast in Hl. }
  eapply runs_bind; [exact (insert_separator_ok _ _ _ _ _ _ _ Hpre)|]. intros [] s4 [T HT] Hev4.
  destruct (cut_leaf _ _ _ _ _ no mid mid rno (fl_sorted _ _ _ _ _ F) (fl_within _ _ _ _ _ F) Hc ltac:(lia)) as (_ & [Hs2 Hwi2] & _).
  assert (drop c1 U !! (c2 - c1)%nat = Some d) as Hd' by (rewrite lookup_drop; by replace (c1 + (c2 - c1))%nat with c2 by lia).
  destruct (cut_leaf _ _ _ _ _ mid rno rno next Hs2 Hwi2 Hd' ltac:(lia)) as (Ho1 & Ho2 & Hin).
  rewrite drop_drop in Ho2. replace (c1 + (c2 - c1))%nat with c2 in Ho2 by lia. fold V in Ho2. fold B in Ho1.
  eapply runs_mono; [eapply (second_ok s4 ctx T mid rno next (no, take c1 U) B V (c_key c) (c_key d) s3); try done|].
  - split; [done|]. apply Forall_drop. pose proof (fl_cells _ _ _ _ _ F') as Hcs. exact Hcs.
  - unfold B. intros E. apply (f_equal length) in E. rewrite length_take, length_drop in E. cbn in E. lia.
  - apply (Forall_lookup_1 _ _ _ _ (fl_cells _ _ _ _ _ F) Hd).
  - by rewrite <-last_hi.
  - by rewrite (sq_last _ _ _ _ _ _ _ _ _ HT).
  - intros [] s' (T' & HT' & Hcells) _. exists T'. split; [done|]. rewrite Hcells. cbn [snd]. rewrite <-EA, <-EB, (app_assoc (take c1 _)), take_drop.
    unfold V. by rewrite (app_assoc (take c2 U)), take_drop.
Qed.
End three.
End TreeThree.
