(* ===== verification/TreeOps.v ===== *)
(** * A leaf with a new cell ([insert_into_leaf] of [core/kernel/src/btree.rs])

    The old record taken out, room made, the record put in its place or the leaf
    split: the entries are the old ones with the key's entry set. *)
From S2P Require Import Prelude Crc Page Cells Order Node Interior Pool Tree BTree TreeRep TreeRead TreeWrite TreeSplit TreeSpill TreeInsert TreeThree.
Import Page Cells Order Node Interior Tree BTree TreeRep TreeRead TreeWrite TreeSplit TreeSpill TreeInsert TreeThree.

Module TreeOps.

Section ops.
Context `{HC : Crc32c} `{HL : !Crc32cLaws} {P : Type} `{HP : PagePool P} `{HPL : !PagePoolLaws P}.
Context {tid : TreeId}.
Implicit Types (p : P) (s : BTree P) (t : tree) (O R : list Z).

(** ** The leaf *)
Lemma with_cell_weight cs i new : weight (c_rec <$> with_cell cs i new) = weight (c_rec <$> cs) + (blen (c_rec new) + 4).
Proof using.
  rewrite <-with_cell_recs, weight_app, weight_cons, (weight_cut (c_rec <$> cs) i). lia.
Qed.
(** A full leaf: one cut where there is one, else three groups. *)
Lemma split_leaf_ok s ctx no next cs new i b : leaf_pre s ctx no next cs new → new_at cs i (c_key new) →
  get (pool s) no = Ok b → node_at b Leaf tid no next (c_rec <$> cs) → free_space b = USABLE - weight (c_rec <$> cs) →
  free_space b < blen (c_rec new) + 4 → blen (c_rec new) ≤ MAX_RECORD_LEN →
  runs (split_leaf_and_insert tid no (f_no <$> ctx) (Z.of_nat i) (c_rec new)) s (λ _ s', inserted_at ctx cs i new s').
Proof using HPL.
  intros Hp Hi Hg Hn Hfree Hlt Hmax. unfold split_leaf_and_insert.
  eapply runs_read; [apply get_mut_ok; [done|apply Hp]|]. eapply runs_read; [unfold lift; by rewrite (node_open _ _ _ _ _ _ Hn)|].
  eapply runs_read; [unfold sure; by rewrite (node_slots _ _ _ _ _ Hn)|]. rewrite (node_link _ _ _ _ _ _ Hn).
  unfold insert_at. rewrite !Nat2Z.id, !with_cell_recs. set (recs := c_rec <$> with_cell cs i new).
  pose proof (free_space_nonneg b) as H0. pose proof (with_cell_weight cs i new) as Hw. fold recs in Hw.
  assert (length recs = S (length cs)) as Elen.
  { unfold recs, with_cell. rewrite length_fmap, length_app, length_take. cbn [length]. rewrite length_drop. destruct Hi. lia. }
  match goal with |- context [if ?c then Some (Z.of_nat i) else ?e] => set (choice := if c then Some (Z.of_nat i) else e) end.
  assert ((∃ sp : nat, choice = Some (Z.of_nat sp) ∧ cut_fits USABLE recs sp) ∨ (choice = None ∧ ∀ mid, ¬ cut_fits USABLE recs mid)) as [(sp & -> & Hsp)|[-> Hno]].
  { unfold choice. destruct (_ && _) eqn:Eat.
    - left. exists i. split; [done|]. rewrite !andb_true_iff in Eat. destruct Eat as ((((A1 & A2) & A3) & A4) & _).
      unfold cut_fits. unfold blen in *. lia.
    - pose proof (split_point_spec recs USABLE) as Hsp. destruct (split_point recs USABLE) as [m|]; [|by right].
      destruct Hsp as (sp & -> & Hsp & _). left. by exists sp. }
  - rewrite Nat2Z.id. by apply split_two_ok.
  - destruct (three_groups recs) as (c1 & c2 & Hgr & Hc12 & Hc2 & W1 & W2 & W3); [|lia| |done|].
    + unfold recs. rewrite Forall_fmap. apply with_cell_Forall.
      * apply (proj1 (Forall_fmap _ _ _)), weight_each. lia.
      * cbn. change MAX_RECORD_LEN with 4052 in Hmax. change USABLE with 4056. lia.
    + change MAX_RECORD_LEN with 4052 in Hmax. change USABLE with 4056 in *. lia.
    + by eapply three_leaves_ok.
Qed.
(** The page's free space decides, after reclaiming it if need be. *)
Lemma place_ok s ctx no next cs new i : leaf_pre s ctx no next cs new → new_at cs i (c_key new) → blen (c_rec new) ≤ MAX_RECORD_LEN →
  runs (let+ b := get_mut no in
        (if blen (c_rec new) + 4 <=? free_space b then ret tt else let+ b := sure (compact b) in write no (finalise b 0)) ;;+
        let+ b := get_mut no in
        if blen (c_rec new) + 4 <=? free_space b then
          let+ b := lift (insert_slot b (Z.of_nat i) (c_rec new)) in
          write no (finalise b 0) ;;+
          (if next =? 0 then set_last_leaf (Some no) else ret tt)
        else split_leaf_and_insert tid no (f_no <$> ctx) (Z.of_nat i) (c_rec new)) s (λ _ s', inserted_at ctx cs i new s').
Proof using HPL.
  intros Hp Hi Hmax. destruct (leaf_pre_view _ _ _ _ _ _ Hp) as (b & Hg & Hn & _).
  eapply runs_read; [apply get_mut_ok; [done|apply Hp]|]. destruct (Z.leb_spec (blen (c_rec new) + 4) (free_space b)) as [Hfit|Hfit].
  - eapply runs_read; [done|]. eapply runs_read; [apply get_mut_ok; [done|apply Hp]|]. rewrite (proj2 (Z.leb_le _ _)) by done.
    by eapply insert_here_ok.
  - destruct (node_compact _ _ _ _ _ _ Hn) as (b1 & Hcmp & Hn1 & Hf1). destruct (node_finalise _ _ _ _ _ _ 0 Hn1) as [Hn2 Hf2].
    eapply runs_bind with (Q := λ _ s', leaf_pre s' ctx no next cs new ∧ get (pool s') no = Ok (finalise b1 0)).
    + eapply runs_read; [unfold sure; by rewrite Hcmp|].
      assert (write no (finalise b1 0) = bind (write no (finalise b1 0)) ret) as -> by done.
      eapply leaf_rewrite_ok; [exact Hp|exact Hn2|]. intros p' Hp' Hg'. apply runs_ret; [apply Hp'|done].
    + intros [] s' [Hp' Hg'] _. eapply runs_read; [apply get_mut_ok; [done|apply Hp']|].
      destruct (Z.leb_spec (blen (c_rec new) + 4) (free_space (finalise b1 0))) as [Hfit2|Hfit2].
      * by eapply insert_here_ok.
      * eapply split_leaf_ok; [done|done|done|exact Hn2|by rewrite Hf2|done|done].
Qed.

(** ** The replaced record *)
Lemma drop_S_cut (cs : list cell) i c key : sorted (c_key <$> cs) → cuts (λ k, bytes_ltb k key) (c_key <$> cs) i → cs !! i = Some c → c_key c = key →
  new_at (delete i cs) i key ∧ with_cell (delete i cs) i = λ new, take i cs ++ new :: drop (S i) cs.
Proof using.
  intros Hs Hcut Hi Hk. destruct (cut_cells key cs i Hs Hcut) as [Hl Hr]. rewrite Hi in Hr. destruct Hr as [_ Hr].
  pose proof (lookup_lt_Some _ _ _ Hi). unfold new_at, with_cell. rewrite delete_take_drop.
  rewrite take_app_length', drop_app_length' by (rewrite length_take; lia). split; [|done].
  split; [rewrite length_app, length_take, length_drop; lia|]. split; [done|]. by rewrite <-Hk.
Qed.
Lemma new_at_absent (cs : list cell) i key : sorted (c_key <$> cs) → cuts (λ k, bytes_ltb k key) (c_key <$> cs) i →
  match cs !! i with Some c => c_key c ≠ key | None => True end → new_at cs i key.
Proof using.
  intros Hs Hcut Hne. destruct (cut_cells key cs i Hs Hcut) as [Hl Hr]. destruct Hcut as (Hi & _). rewrite length_fmap in Hi.
  split; [done|]. split; [done|]. destruct (cs !! i) as [c|] eqn:E; [|rewrite Hr; constructor]. destruct Hr as [Hk Hr].
  assert (key ≺ c_key c) as Hlt by (destruct Hk as [?|Heq]; [done|by rewrite Heq in Hne]).
  rewrite (drop_S _ _ _ E). constructor; [done|]. eapply Forall_impl; [exact Hr|]. intros d Hd. cbn in *. order.
Qed.
(** Without its record, and with the record's chain retired. *)
Lemma remove_old_ok s ctx no next cs new i c l b : leaf_pre s ctx no next cs new → cs !! i = Some c → l.*1 = c_chain c →
  node_at b Leaf tid no next (c_rec <$> cs) →
  runs (let+ b := sure (remove_slot b (Z.of_nat i)) in
        let+ b := sure (compact b) in
        write no (finalise b 0) ;;+ retire_all l) s (λ _ s', leaf_pre s' ctx no next (delete i cs) new).
Proof using HPL.
  intros Hp Hi Hl Hn. destruct (leaf_pre_view _ _ _ _ _ _ Hp) as (_ & _ & _ & Hcs & Hs & Hw & _).
  pose proof (lookup_lt_Some _ _ _ Hi) as Hlt.
  destruct (node_remove _ _ _ _ _ _ i Hn) as (b1 & Hrm & Hn1); [by rewrite length_fmap|].
  destruct (node_compact _ _ _ _ _ _ Hn1) as (b2 & Hcmp & Hn2 & _). destruct (node_finalise _ _ _ _ _ _ 0 Hn2) as [Hn3 _].
  eapply runs_read; [unfold sure; by rewrite Hrm|]. eapply runs_read; [unfold sure; by rewrite Hcmp|].
  assert (delete i (c_rec <$> cs) = c_rec <$> delete i cs) as Ed by (by rewrite !delete_take_drop, fmap_app, fmap_take, fmap_drop).
  rewrite Ed in Hn3. set (cs' := delete i cs) in *.
  assert (flat_map c_chain cs' ++ c_chain c ++ c_chain new ≡ₚ flat_map c_chain cs ++ c_chain new) as Hperm.
  { unfold cs'. rewrite delete_take_drop, flat_map_app.
    rewrite <-(flat_map_cut c_chain cs i), (drop_S _ _ _ Hi). cbn [flat_map]. solve_Permutation. }
  assert (sorted (c_key <$> cs')) as Hs'.
  { unfold cs'. rewrite delete_take_drop, fmap_app. rewrite <-(take_drop_middle _ _ _ Hi), fmap_app, fmap_cons in Hs.
    apply sorted_app in Hs as (S1 & S2 & Hlt'). apply StronglySorted_inv in S2 as [S2 _]. apply sorted_app. split_and!; [done|done|].
    intros x y Hx Hy. apply Hlt'; [done|by right]. }
  eapply (leaf_write_ok _ s ctx no next cs (c_chain new) (finalise b2 0) cs' (c_chain c ++ c_chain new));
    [apply Hp|apply Hp|exact Hn3|by apply Forall_delete|done|by apply Forall_delete|done|].
  intros p1 Hw1 Hi1 Hk1. pose proof (inv_all _ _ _ Hi1) as Ho1. cbn [pool set_pool] in Ho1.
  assert (owned_ok p1 (l.*1 ++ owned (plug ctx (TLeaf no next cs')) ++ c_chain new)) as Ho1'.
  { rewrite Hl. assert (c_chain c ++ owned (plug ctx (TLeaf no next cs')) ++ c_chain new ≡ₚ
      owned (plug ctx (TLeaf no next cs')) ++ c_chain c ++ c_chain new) as -> by solve_Permutation. done. }
  eapply runs_mono; [apply retire_all_ok; [apply (wrote_ev _ _ _ _ Hw1)|exact Ho1']|]. intros [] s2 (p2 & -> & Ho2 & Hk2 & _) Hev2. cbn [pool set_pool] in *.
  change (set_pool p2 (set_pool p1 s)) with (set_pool p2 s).
  assert (keeps p1 p2 (owned (plug ctx (TLeaf no next cs')))) as Hk2' by (eapply keeps_sub; [exact Hk2|]; intros x Hx; apply elem_of_app; auto).
  assert (∀ x, x ∈ owned_ctx ctx → is_frozen p2 x = is_frozen (pool s) x) as Hfz.
  { intros x Hx. destruct (Hk2' x) as [_ ->]; [rewrite owned_plug; apply elem_of_app; auto|]. apply (wrote_frozen _ _ _ _ Hw1). }
  split.
  - exact (inv_keeps (set_pool p1 s) _ _ _ p2 Hi1 Hev2 Ho2 Hk2').
  - pose proof (lp_links _ _ _ _ _ _ Hp) as Hlk. rewrite links_plug in *. exact Hlk.
  - apply (writable_ctx (pool s)); [exact Hfz|apply Hp].
  - cbn [pool set_pool]. destruct (Hk2' no) as [_ ->]; [rewrite owned_plug; apply elem_of_app; right; left|].
    rewrite (wrote_frozen _ _ _ _ Hw1). apply Hp.
  - apply (cell_same p1); [by apply evolves_limit| |].
    + intros x Hx. apply Hk2, elem_of_app. by right.
    + apply (cell_same (pool s)); [apply evolves_limit, Hw1| |apply Hp]. intros x Hx. apply Hk1. rewrite !elem_of_app. auto.
  - apply Hp.
  - apply Hp.
Qed.

(** The entries of the leaf and around it, with the new cell in. *)
Lemma put_around ctx cs (i j : nat) new : Forall (λ c, c_key c ≺ c_key new) (before ctx) → Forall (λ c, c_key new ≺ c_key c) (after ctx) →
  Forall (λ c, c_key c ≺ c_key new) (take i cs) → Forall (λ c, c_key new ≺ c_key c) (drop j cs) →
  (j = i ∨ j = S i ∧ ∃ c, cs !! i = Some c ∧ c_key c = c_key new) →
  put (c_key new) (c_val new) (entries (before ctx ++ cs ++ after ctx)) = entries (before ctx ++ (take i cs ++ new :: drop j cs) ++ after ctx).
Proof using.
  intros Hb Ha Hl Hr Hj. rewrite <-(take_drop i cs) at 1. rewrite put_after by done. rewrite <-app_assoc, put_after by done.
  assert (put (c_key new) (c_val new) (entries (drop i cs ++ after ctx)) = entries ((new :: drop j cs) ++ after ctx)) as ->.
  { destruct Hj as [->|(-> & c & Hc & Hk)].
    - rewrite put_before by (by apply Forall_app). done.
    - rewrite (drop_S _ _ _ Hc). cbn [app]. by rewrite put_here. }
  by rewrite !entries_app, <-!app_assoc.
Qed.
Lemma insert_into_leaf_ok s ctx no next cs new : leaf_pre s ctx no next cs new → blen (c_rec new) ≤ MAX_RECORD_LEN →
  runs (insert_into_leaf tid no (f_no <$> ctx) (c_key new) (c_rec new)) s (λ _ s',
    ∃ T, tree_of s' T ∧ entries (cells T) = put (c_key new) (c_val new) (entries (before ctx ++ cs ++ after ctx))).
Proof using HL HPL.
  intros Hp Hmax. destruct (leaf_pre_view _ _ _ _ _ _ Hp) as (b & Hg & Hn & Hcs & Hs & Hw & _).
  pose proof (lp_inv _ _ _ _ _ _ Hp) as Hinv. destruct (inv_unplug _ _ _ _ Hinv) as (_ & _ & _ & Hoc & _).
  destruct (hole_bounds _ _ _ _ Hoc (lp_key _ _ _ _ _ _ Hp)) as (Hbef & Haft & _).
  destruct (lower_position b no next cs (c_key new) (pool s) Hn Hcs Hs) as (i & Hlb & Hcut & Hne).
  destruct (cut_cells _ _ _ Hs Hcut) as [Htk Hdr].
  unfold insert_into_leaf. eapply runs_read; [apply get_mut_ok; [done|apply Hp]|].
  eapply runs_read; [unfold lift; by rewrite (node_open _ _ _ _ _ _ Hn)|]. eapply runs_read; [unfold sure; by rewrite Hlb|].
  rewrite Hne. destruct (cs !! i) as [c|] eqn:Ec.
  - pose proof (lookup_lt_Some _ _ _ Ec). pose proof (Forall_lookup_1 _ _ _ _ Hcs Ec) as Hc.
    rewrite (proj2 (Z.ltb_lt _ _)) by lia.
    assert (validated_key (c_rec c) = Some (c_key c)) as Hvk by (apply cell_shape in Hc; by destruct (shape_helpers _ _ _ _ Hc)).
    eapply runs_read.
    { unfold sure. rewrite (node_slot _ _ _ _ _ _ Hn i (c_rec c)) by (by rewrite list_lookup_fmap, Ec). cbn [mbind option_bind]. by rewrite Hvk. }
    rewrite (node_link _ _ _ _ _ _ Hn). destruct (decide (c_key c = c_key new)) as [E|E].
    + rewrite bool_decide_true by done.
      assert (in_range (pool s) (c_chain c)) as Hran.
      { eapply inv_view in Hinv. eapply owned_cell; [apply Hinv|apply Hinv|exact Ec]. }
      destruct (replaced_pages_ok s c Hc Hran) as (l & Hrep & Hl). eapply runs_read; [exact Hrep|].
      eapply runs_bind; [eapply remove_old_ok; [exact Hp|exact Ec|exact Hl|exact Hn]|]. intros [] s1 Hp1 _.
      destruct (drop_S_cut cs i c (c_key new) Hs Hcut Ec E) as [Hat Hwith].
      eapply runs_mono; [by apply place_ok|]. intros [] s2 (T & HT & Hcells) _. exists T. split; [done|].
      rewrite Hcells, Hwith. symmetry. apply put_around; [done|done|done| |right; eauto].
      destruct Hdr as [_ Hdr]. by rewrite E in Hdr.
    + rewrite bool_decide_false by done. eapply runs_read; [done|]. eapply runs_read; [done|].
      assert (new_at cs i (c_key new)) as Hat by (apply new_at_absent; [done|done|by rewrite Ec]).
      eapply runs_mono; [by apply place_ok|]. intros [] s2 (T & HT & Hcells) _. exists T. split; [done|].
      rewrite Hcells. symmetry. destruct Hat as (_ & H1 & H2). by apply put_around; auto.
  - apply lookup_ge_None in Ec. rewrite (proj2 (Z.ltb_ge _ _)) by lia. eapply runs_read; [done|].
    rewrite (node_link _ _ _ _ _ _ Hn). eapply runs_read; [done|]. eapply runs_read; [done|].
    assert (new_at cs i (c_key new)) as Hat by (apply new_at_absent; [done|done|by rewrite (lookup_ge_None_2 _ _ Ec)]).
    eapply runs_mono; [by apply place_ok|]. intros [] s2 (T & HT & Hcells) _. exists T. split; [done|].
    rewrite Hcells. symmetry. destruct Hat as (_ & H1 & H2). by apply put_around; auto.
Qed.
End ops.
End TreeOps.
