(* ===== verification/TreePair.v ===== *)
(** * Two siblings made one, or evened out ([rebalance_after_delete] of [core/kernel/src/btree.rs])

    Two children side by side and the separator between them are first put
    together, as one node that may be too large for a page: [merged].  Where it
    fits, that node is the result; where not, it is cut again, at a cell of a leaf
    or at a separator of an interior node: [left_part] and [right_part].  Then the
    pages: what a node's bytes say ([page_at]) apart from what lies below it
    ([body]), so that an image built under one number can be moved to another. *)
From S2P Require Import Prelude Crc Page Cells Order Node Interior Pool Tree BTree TreeRep TreeRead TreeWrite TreeSplit TreeInsert.
Import Page Cells Order Node Interior Tree BTree TreeRep TreeRead TreeWrite TreeSplit TreeInsert.

Module TreePair.

(** ** Shapes *)
Definition merged (tl : tree) (k : bytes) (tr : tree) : tree :=
  match tl, tr with
  | TLeaf no _ cs, TLeaf _ next ds => TLeaf no next (cs ++ ds)
  | TNode no cs ks, TNode _ ds hs => TNode no (cs ++ ds) (ks ++ k :: hs)
  | _, _ => tl
  end.
Definition left_part (u : tree) (n : nat) (next : Z) : tree :=
  match u with
  | TLeaf no _ cs => TLeaf no next (take n cs)
  | TNode no cs ks => TNode no (take (S n) cs) (take n ks)
  end.
Definition right_part (u : tree) (n : nat) (no : Z) : tree :=
  match u with
  | TLeaf _ next cs => TLeaf no next (drop n cs)
  | TNode _ cs ks => TNode no (drop (S n) cs) (drop (S n) ks)
  end.
Definition key_between (u : tree) (n : nat) : option bytes :=
  match u with TLeaf _ _ cs => c_key <$> cs !! n | TNode _ _ ks => ks !! n end.
Definition shaped (u : tree) : Prop := match u with TLeaf _ _ _ => True | TNode _ cs ks => length cs = S (length ks) end.
(** Where a node may be cut: a leaf leaves something to its left. *)
Definition may_cut (u : tree) (n : nat) : Prop := match u with TLeaf _ _ _ => (0 < n)%nat | TNode _ _ _ => True end.

Lemma ords_join hi k lo cs ks ds hs : ords (Some k) lo cs ks → ords hi (Some k) ds hs → inside lo hi k →
  ords hi lo (cs ++ ds) (ks ++ k :: hs).
Proof.
  intros H1 H2 Hk. revert lo ks H1 Hk. induction cs as [|c cs IH]; intros lo ks H1 Hk; [done|].
  destruct cs as [|c2 cs], ks as [|k0 ks]; try done.
  - cbn [app]. destruct ds as [|d ds]; [done|]. done.
  - by destruct H1 as (_ & _ & ?).
  - destruct H1 as (Hc & [Ha Hb] & Hr). cbn [app].
    change (ord lo (Some k0) c ∧ inside lo hi k0 ∧ ords hi (Some k0) ((c2 :: cs) ++ ds) (ks ++ k :: hs)).
    destruct Hk as [Hk1 Hk2]. cbn in Hb. split; [done|]. split.
    + split; [done|]. destruct hi; cbn in *; [order|done].
    + apply IH; [done|]. by split.
Qed.
Lemma all_links_join last cs ds : all_links false cs → all_links last ds → all_links last (cs ++ ds).
Proof.
  intros H1 H2. induction cs as [|c cs IH]; [done|]. cbn [app]. destruct cs as [|c2 cs]; cbn [app].
  - apply all_links_cons; [by destruct ds|by split].
  - destruct H1 as [Hc H1]. apply all_links_cons; [done|]. split; [done|]. by apply IH.
Qed.

Section merged.
Context (tl tr : tree) (k : bytes) (Hkind : page_kind tl = page_kind tr).
Lemma merged_no : no_of (merged tl k tr) = no_of tl.
Proof using Hkind. by destruct tl, tr. Qed.
Lemma merged_kind : page_kind (merged tl k tr) = page_kind tl.
Proof using Hkind. by destruct tl, tr. Qed.
Lemma merged_cells : cells (merged tl k tr) = cells tl ++ cells tr.
Proof using Hkind. destruct tl, tr; try done. cbn [merged cells]. by rewrite flat_map_app. Qed.
Lemma merged_beneath : beneath (merged tl k tr) = beneath tl ++ beneath tr.
Proof using Hkind. destruct tl, tr; try done; cbn [merged beneath]; by rewrite flat_map_app. Qed.
Lemma merged_ord lo hi : ord lo (Some k) tl → ord (Some k) hi tr → inside lo hi k → ord lo hi (merged tl k tr).
Proof using Hkind.
  intros H1 H2 Hk. destruct tl as [no next cs|no cs ks], tr as [no' next' ds|no' ds hs]; try done; cbn [merged].
  - destruct H1 as [S1 W1], H2 as [S2 W2]. pose proof (keys_ok_app lo hi k (c_key <$> cs) (c_key <$> ds) Hk) as [Hs Hw].
    + split; [done|]. by apply Forall_fmap.
    + split; [done|]. by apply Forall_fmap.
    + split; [by rewrite fmap_app|]. rewrite <-fmap_app in Hw. exact (proj1 (Forall_fmap _ _ _) Hw).
  - by apply ords_join.
Qed.
Lemma merged_links last : links false tl → links last tr → links last (merged tl k tr).
Proof using Hkind. destruct tl, tr; try done. apply all_links_join. Qed.
End merged.

Section parts.
Context (u : tree) (n : nat) (k : bytes) (Hk : key_between u n = Some k).
Lemma parts_cells next no : cells (left_part u n next) ++ cells (right_part u n no) = cells u.
Proof using All. destruct u; cbn [left_part right_part cells]; [by rewrite take_drop|apply flat_map_cut]. Qed.
Lemma parts_beneath next no : beneath (left_part u n next) ++ beneath (right_part u n no) = beneath u.
Proof using All. destruct u; cbn [left_part right_part beneath]; apply flat_map_cut. Qed.
Lemma parts_ord lo hi next no : ord lo hi u → may_cut u n →
  ord lo (Some k) (left_part u n next) ∧ ord (Some k) hi (right_part u n no) ∧ inside lo hi k.
Proof using Hk.
  intros Ho Hn. destruct u as [no0 next0 cs|no0 cs ks]; cbn [key_between left_part right_part may_cut] in *.
  - destruct (cs !! n) as [c|] eqn:Ec; [|done]. injection Hk as <-. destruct Ho as [Hs Hw]. by apply cut_leaf.
  - destruct (ords_cut hi lo cs ks n k Ho Hk) as (H1 & H2 & H3). done.
Qed.
Lemma parts_links last next no : links last u → shaped u → next ≠ 0 → is_u32 next → links false (left_part u n next) ∧ links last (right_part u n no).
Proof using Hk.
  intros Hl Hlen Hn Hu. destruct u as [no0 next0 cs|no0 cs ks]; cbn [left_part right_part].
  - split; [|done]. by split.
  - cbn in Hlen, Hk. apply lookup_lt_Some in Hk. split.
    + apply (all_links_take last); [done|lia].
    + apply (all_links_drop last); [done|lia].
Qed.
End parts.

Section pages.
Context `{HC : Crc32c} `{HL : !Crc32cLaws} {P : Type} `{HP : PagePool P} `{HPL : !PagePoolLaws P}.
Context {tid : TreeId}.
Implicit Types (p : P) (s : BTree P) (t : tree) (O R : list Z).

(** ** A node's bytes and what lies below *)
(** The link of a node's page and its records. *)
Definition link_of (t : tree) : Z :=
  match t with TLeaf _ next _ => next | TNode _ cs _ => default 0 (head (no_of <$> cs)) end.
Definition recs_of (t : tree) : list bytes :=
  match t with TLeaf _ _ cs => c_rec <$> cs | TNode _ cs ks => zip_with enc_interior ks (tail (no_of <$> cs)) end.
Definition page_at (t : tree) (b : bytes) : Prop :=
  match t with
  | TLeaf no _ _ => node_at b Leaf tid no (link_of t) (recs_of t)
  | TNode no _ _ => interior_at b tid no (link_of t) (recs_of t)
  end.
Definition body p (t : tree) : Prop :=
  match t with
  | TLeaf _ _ cs => Forall (cell_ok p) cs
  | TNode _ cs ks => length cs = S (length ks) ∧ Forall sep_ok ks ∧ Forall (λ no, is_u32 no) (no_of <$> cs) ∧ holds_all p cs
  end.
Lemma holds_split p t : holds p t ↔ (∃ b, get p (no_of t) = Ok b ∧ page_at t b) ∧ body p t.
Proof using.
  destruct t as [no next cs|no cs ks]; [done|]. rewrite holds_node. cbn [no_of page_at body link_of recs_of].
  destruct cs as [|c cs]; cbn [fmap list_fmap interior_page head tail default length].
  - split; [by intros [? _]|by intros (_ & ? & _)].
  - fold (no_of <$> cs). rewrite length_fmap. naive_solver.
Qed.
Lemma page_node t b : page_at t b → node_at b (page_kind t) tid (no_of t) (link_of t) (recs_of t).
Proof using. destruct t; [done|]. apply int_node. Qed.
Lemma body_same p p' t : record_limit p' = record_limit p → (∀ x, x ∈ beneath t → get p' x = get p x) → body p t → body p' t.
Proof using.
  intros Hl Hs. destruct t as [no next cs|no cs ks]; cbn [beneath body] in *; [by apply cells_same|].
  intros (H1 & H2 & H3 & H4). split_and!; [done..|]. by apply (holds_all_same p).
Qed.
Lemma body_shaped p t : body p t → shaped t.
Proof using. destruct t; [done|]. by intros [? _]. Qed.
Lemma body_recs p t : body p t → Forall (rec_ok (page_kind t)) (recs_of t).
Proof using.
  destruct t as [no next cs|no cs ks]; cbn [body page_kind recs_of].
  - intros Hc. apply Forall_fmap. eapply Forall_impl; [exact Hc|]. intros c. apply cell_rec_ok.
  - intros (_ & Hk & Hu & _). apply zip_recs_ok; [done|]. by apply Forall_tail.
Qed.
Lemma body_link p t : body p t → shaped t → match t with TLeaf _ next _ => is_u32 next | _ => True end → is_u32 (link_of t).
Proof using.
  destruct t as [no next cs|no cs ks]; [done|]. intros (Hl & _ & Hu & _) _ _. destruct cs as [|c cs]; [done|].
  cbn. by apply Forall_cons in Hu as [? _].
Qed.
(** Its page built, given a number, given a link. *)
Lemma page_built p t : is_u16 tid → is_u32 (no_of t) → is_u32 (link_of t) → body p t → total (sizes (recs_of t)) ≤ USABLE →
  ∃ b, build_page (page_kind t) tid (no_of t) (recs_of t) (link_of t) = Some (Ok b) ∧ page_at t b.
Proof using.
  intros Ht Hno Hl Hb Hs. pose proof (body_recs _ _ Hb) as Hr. destruct t as [no next cs|no cs ks].
  - pose proof (build_page_ok Leaf tid no (recs_of (TLeaf no next cs)) next Ht Hno Hl Hr) as H. by rewrite decide_True in H.
  - by apply interior_build.
Qed.
Lemma page_moved t b no' : page_at t b → is_u32 no' → ∃ b', put_at b 12 (le_bytes 4 no') = Some b' ∧ page_at (renumber t no') b'.
Proof using.
  destruct t as [no next cs|no cs ks]; intros Hp Hu.
  - destruct (renumber_ok _ _ _ _ _ _ no' Hp Hu) as (b' & E & Hn & _). by exists b'.
  - destruct (interior_renumber _ _ _ _ _ no' Hp Hu) as (b' & E & Hn). by exists b'.
Qed.
Lemma page_linked no next cs b next' : page_at (TLeaf no next cs) b → is_u32 next' →
  ∃ b', put_at b 20 (le_bytes 4 next') = Some b' ∧ page_at (TLeaf no next' cs) b'.
Proof using.
  intros Hp Hu. exists (set_next_leaf b next'). split.
  - pose proof (rep_len _ _ (inv_rep _ _ (node_inv _ _ _ _ _ _ Hp))) as Hlen.
    apply put_at_ok; rewrite ?blen_le_bytes; page_unfold; lia.
  - by apply (node_set_link _ _ _ _ next).
Qed.

(** ** Put together, cut again *)
Definition down (tl : tree) (k : bytes) (tr : tree) : list bytes :=
  match page_kind tl with Interior => [enc_interior k (link_of tr)] | _ => [] end.
Lemma merged_recs p tl k tr : page_kind tl = page_kind tr → body p tl → body p tr →
  recs_of (merged tl k tr) = recs_of tl ++ down tl k tr ++ recs_of tr.
Proof using.
  intros Hkd H1 H2. destruct tl as [no next cs|no cs ks], tr as [no' next' ds|no' ds hs]; try done; cbn [merged recs_of].
  - by rewrite fmap_app.
  - destruct H1 as (L1 & _), H2 as (L2 & _). destruct cs as [|c cs], ds as [|d ds]; try done. cbn in L1, L2.
    rewrite fmap_app. change (tail ((no_of <$> c :: cs) ++ (no_of <$> d :: ds))) with ((no_of <$> cs) ++ no_of d :: (no_of <$> ds)).
    rewrite zip_with_app by (rewrite length_fmap; lia). done.
Qed.
Lemma merged_link p tl k tr : page_kind tl = page_kind tr → body p tl →
  link_of (merged tl k tr) = match page_kind tl with Interior => link_of tl | _ => link_of tr end.
Proof using.
  intros Hkd H1. destruct tl as [no next cs|no cs ks], tr as [no' next' ds|no' ds hs]; try done; cbn [merged link_of page_kind].
  destruct H1 as (L1 & _). by destruct cs as [|c cs].
Qed.
Lemma merged_body p tl k tr : page_kind tl = page_kind tr → sep_ok k → body p tl → body p tr → body p (merged tl k tr).
Proof using.
  intros Hkd Hk H1 H2. destruct tl as [no next cs|no cs ks], tr as [no' next' ds|no' ds hs]; try done; cbn [merged body] in *.
  - by apply Forall_app.
  - destruct H1 as (L1 & K1 & U1 & A1), H2 as (L2 & K2 & U2 & A2). unfold holds_all in *.
    rewrite fmap_app, !Forall_app, Forall_cons, !length_app. cbn [length]. split_and!; (done || lia).
Qed.
Section cut.
Context (u : tree) (n : nat) (k : bytes) (Hk : key_between u n = Some k).
(** The record the code cuts at. *)
Lemma cut_record p : body p u → ∃ rec, recs_of u !! n = Some rec ∧ validated_key rec = Some k ∧
  (page_kind u = Interior → ∀ no, validated_child rec = Some (link_of (right_part u n no))).
Proof using Hk.
  intros Hb. destruct u as [no next cs|no cs ks]; cbn [key_between recs_of page_kind right_part] in *.
  - destruct (cs !! n) as [c|] eqn:Ec; [|done]. injection Hk as <-. exists (c_rec c).
    pose proof (Forall_lookup_1 _ _ _ _ Hb Ec) as Hc. apply cell_shape in Hc.
    split; [by rewrite list_lookup_fmap, Ec|]. split; [by destruct (shape_helpers _ _ _ _ Hc)|done].
  - destruct Hb as (L & K & U & _). destruct cs as [|c cs]; [done|]. cbn in L. pose proof (lookup_lt_Some _ _ _ Hk).
    destruct (lookup_lt_is_Some_2 cs n) as [d Hd]; [lia|]. exists (enc_interior k (no_of d)).
    rewrite fmap_cons in U. apply Forall_cons in U as [_ U]. destruct (enc_interior_read k (no_of d)) as [E1 E2].
    { by apply (Forall_lookup_1 _ _ _ _ K Hk). }
    { refine (Forall_lookup_1 _ (no_of <$> cs) n _ U _). by rewrite list_lookup_fmap, Hd. }
    split; [|split; [done|]].
    + cbn [fmap list_fmap tail]. by rewrite lookup_zip_with, Hk, list_lookup_fmap, Hd.
    + intros _ no0. cbn [link_of]. cbn [drop]. rewrite (drop_S _ _ _ Hd). done.
Qed.
Lemma left_part_page next : shaped u →
  recs_of (left_part u n next) = take n (recs_of u) ∧ no_of (left_part u n next) = no_of u ∧ page_kind (left_part u n next) = page_kind u ∧
  link_of (left_part u n next) = match u with TLeaf _ _ _ => next | _ => link_of u end.
Proof using Hk.
  intros L. destruct u as [no0 next0 cs|no0 cs ks]; cbn [left_part recs_of no_of page_kind link_of] in *.
  - by rewrite fmap_take.
  - cbn in L. destruct cs as [|c cs]; [done|]. cbn [take fmap list_fmap tail head default]. fold (no_of <$> cs). fold (no_of <$> take n cs).
    by rewrite fmap_take, <-zip_with_take.
Qed.
Lemma right_part_page no : shaped u →
  recs_of (right_part u n no) = drop (match u with TLeaf _ _ _ => n | _ => S n end) (recs_of u) ∧
  no_of (right_part u n no) = no ∧ page_kind (right_part u n no) = page_kind u ∧
  (is_leaf u → link_of (right_part u n no) = link_of u).
Proof using Hk.
  intros L. destruct u as [no0 next0 cs|no0 cs ks]; cbn [right_part recs_of no_of page_kind link_of] in *.
  - by rewrite fmap_drop.
  - cbn in L, Hk. split; [|done]. destruct cs as [|c cs]; [done|]. cbn in L. pose proof (lookup_lt_Some _ _ _ Hk).
    destruct (lookup_lt_is_Some_2 cs n) as [d Hd]; [lia|]. cbn [drop fmap list_fmap tail]. rewrite (drop_S _ _ _ Hd).
    cbn [fmap list_fmap tail]. fold (no_of <$> cs) (no_of <$> drop (S n) cs). by rewrite fmap_drop, <-zip_with_drop.
Qed.
Lemma parts_body p next no : body p u → body p (left_part u n next) ∧ body p (right_part u n no).
Proof using Hk.
  intros Hb. destruct u as [no0 next0 cs|no0 cs ks]; cbn [left_part right_part body] in *.
  - split; [by apply Forall_take|by apply Forall_drop].
  - destruct Hb as (L & K & U & A). cbn in Hk. apply lookup_lt_Some in Hk. unfold holds_all in *.
    rewrite fmap_take, fmap_drop, !length_take, !length_drop.
    split; split_and!; first [lia|by apply Forall_take|by apply Forall_drop].
Qed.
End cut.
End pages.
End TreePair.
