(* ===== verification/TreeEven.v ===== *)
(** * A pair of siblings on its pages ([rebalance_after_delete] of [core/kernel/src/btree.rs])

    One attempt of the code on two neighbouring children: it leaves everything as it
    is, or it ends with the same cells in a tree whose node above the pair is on
    the same page as before. *)
From S2P Require Import Prelude Crc Page Cells Order Node Interior Pool Tree BTree TreeRep TreeRead TreeWrite TreeSplit TreeInsert BTreeDelete TreePair.
Import Page Cells Order Node Interior Tree BTree TreeRep TreeRead TreeWrite TreeSplit TreeInsert BTreeDelete TreePair.

Module TreeEven.

(** ** Where an interior pair is cut *)
(** Both sides of the record at [mid] fit, the record itself going up. *)
Definition sides_fit (usable : Z) (recs : list bytes) (mid : nat) : Prop :=
  (mid < length recs)%nat ∧ total (sizes (take mid recs)) ≤ usable ∧ total (sizes (drop (S mid) recs)) ≤ usable.
Definition tilt (recs : list bytes) (mid : nat) : Z :=
  Z.abs (total (sizes (take mid recs)) - total (sizes (drop (S mid) recs))).
(** The loop of [best_cut] after the first [j] records. *)
Definition best_side (usable : Z) (recs : list bytes) (j : nat) (best : option (Z * Z)) : Prop :=
  match best with
  | Some (m, d) => ∃ mid : nat, m = Z.of_nat mid ∧ (mid < j)%nat ∧ sides_fit usable recs mid ∧ d = tilt recs mid ∧
      ∀ mid', (mid' < j)%nat → sides_fit usable recs mid' →
        d ≤ tilt recs mid' ∧ ((mid' < mid)%nat → d < tilt recs mid')
  | None => ∀ mid', (mid' < j)%nat → ¬ sides_fit usable recs mid'
  end.
Lemma best_cut_step usable recs (j : nat) best : (j < length recs)%nat → best_side usable recs j best →
  let l := total (sizes (take j recs)) in let r := total (sizes (drop (S j) recs)) in
  best_side usable recs (S j)
    (if (l <=? usable) && (r <=? usable) then
       match best with
       | Some (_, old) => if Z.abs (l - r) <? old then Some (Z.of_nat j, Z.abs (l - r)) else best
       | None => Some (Z.of_nat j, Z.abs (l - r))
       end
     else best).
Proof.
  intros Hj Hb l r. assert (sides_fit usable recs j ↔ l ≤ usable ∧ r ≤ usable) as Hfit by (unfold sides_fit; tauto).
  assert (tilt recs j = Z.abs (l - r)) as Ht by done.
  assert (∀ mid', (mid' < S j)%nat → mid' = j ∨ (mid' < j)%nat) as Hlast by lia.
  destruct ((l <=? usable) && (r <=? usable)) eqn:E.
  - rewrite andb_true_iff, !Z.leb_le in E. apply Hfit in E as Hjf.
    assert ((∀ mid', (mid' < j)%nat → sides_fit usable recs mid' → tilt recs j < tilt recs mid') →
      best_side usable recs (S j) (Some (Z.of_nat j, Z.abs (l - r)))) as Hnew.
    { intros H. exists j. rewrite <-Ht. split_and!; [done|lia|done|done|]. intros mid' [->|Hm]%Hlast Hf; [lia|].
      pose proof (H mid' Hm Hf). lia. }
    destruct best as [[m d]|].
    + destruct Hb as (mid & -> & Hm & Hf & -> & Hmin). destruct (Z.ltb_spec (Z.abs (l - r)) (tilt recs mid)) as [Hlt|Hge].
      * apply Hnew; intros mid' Hm' Hf'; destruct (Hmin mid' Hm' Hf'); lia.
      * exists mid. split_and!; [done|lia|done|done|]. intros mid' [->|Hm']%Hlast Hf'; [lia|by apply Hmin].
    + apply Hnew; intros mid' Hm' Hf'; by apply Hb in Hf'.
  - assert (¬ sides_fit usable recs j) as Hno by (rewrite Hfit; rewrite andb_false_iff, !Z.leb_gt in E; lia).
    destruct best as [[m d]|].
    + destruct Hb as (mid & -> & Hm & Hf & -> & Hmin). exists mid. split_and!; [done|lia|done|done|].
      intros mid' [->|Hm']%Hlast Hf'; [done|by apply Hmin].
    + intros mid' [->|Hm']%Hlast; [done|by apply Hb].
Qed.
Lemma best_cut_loop usable recs tail : ∀ (j : nat) best, drop j recs = tail → (j ≤ length recs)%nat → best_side usable recs j best →
  best_side usable recs (length recs) (best_cut usable (total (sizes recs)) (total (sizes (take j recs))) (Z.of_nat j) tail best).
Proof.
  induction tail as [|rec tail IH]; intros j best Ht Hj Hb; cbn [best_cut].
  - apply (f_equal length) in Ht. rewrite length_drop in Ht. cbn in Ht. by replace (length recs) with j by lia.
  - assert (recs !! j = Some rec) as Hr by (rewrite <-(Nat.add_0_r j), <-lookup_drop, Ht; done).
    pose proof (lookup_lt_Some _ _ _ Hr) as Hlt. assert (drop (S j) recs = tail) as Ht' by (rewrite (drop_S _ _ _ Hr) in Ht; by injection Ht).
    assert (total (sizes (take (S j) recs)) = total (sizes (take j recs)) + blen rec + 4) as Etk.
    { rewrite (take_S_r _ _ _ Hr). unfold sizes. rewrite fmap_app, total_app. cbn. lia. }
    pose proof (total_cut recs (S j)) as Ec. rewrite Etk in Ec.
    replace (total (sizes recs) - total (sizes (take j recs)) - blen rec - 4) with (total (sizes (drop (S j) recs))) by lia.
    rewrite <-Etk. replace (Z.of_nat j + 1) with (Z.of_nat (S j)) by lia. apply IH; [done|lia|].
    by apply best_cut_step.
Qed.
Lemma best_cut_spec usable recs :
  match best_cut usable (total (sizes recs)) 0 0 recs None with
  | Some (m, _) => ∃ mid : nat, m = Z.of_nat mid ∧ sides_fit usable recs mid ∧ ∀ mid', sides_fit usable recs mid' → tilt recs mid ≤ tilt recs mid'
  | None => ∀ mid, ¬ sides_fit usable recs mid
  end.
Proof.
  pose proof (best_cut_loop usable recs recs 0 None eq_refl ltac:(lia) ltac:(intros ? ?; lia)) as Hb.
  change (total (sizes (take 0 recs))) with 0 in Hb. change (Z.of_nat 0) with 0 in Hb.
  destruct (best_cut _ _ _ _ _ _) as [[m d]|]; cbn [best_side] in Hb.
  - destruct Hb as (mid & -> & _ & Hf & -> & Hmin). exists mid. split; [done|]. split; [done|].
    intros mid' Hf'. apply Hmin; [apply Hf'|done].
  - intros mid Hf. apply (Hb mid); [apply Hf|done].
Qed.

Lemma drop_1_tail {A} (l : list A) : drop 1 l = tail l.
Proof. by destruct l. Qed.
Lemma delete_zip {A B C} (f : A → B → C) l k n : length l = length k → delete n (zip_with f l k) = zip_with f (delete n l) (delete n k).
Proof.
  revert k n. induction l as [|x l IH]; intros [|y k] n Hl; try done. destruct n as [|n]; [done|].
  cbn [zip_with delete list_delete]. f_equal. apply IH. by injection Hl.
Qed.

Section even.
Context `{HC : Crc32c} `{HL : !Crc32cLaws} {P : Type} `{HP : PagePool P} `{HPL : !PagePoolLaws P}.
Context {tid : TreeId}.
Implicit Types (p : P) (s : BTree P) (t : tree) (O R : list Z).

(** ** The parent's records *)
Lemma total_zip ks : ∀ ns ns', length ns = length ks → length ns' = length ks →
  total (sizes (zip_with enc_interior ks ns)) = total (sizes (zip_with enc_interior ks ns')).
Proof using.
  induction ks as [|k ks IH]; intros [|x ns] [|y ns'] H1 H2; try done. injection H1 as H1. injection H2 as H2. cbn [zip_with].
  change (blen (enc_interior k x) + 4 + total (sizes (zip_with enc_interior ks ns)) = blen (enc_interior k y) + 4 + total (sizes (zip_with enc_interior ks ns'))).
  rewrite !enc_interior_blen, (IH ns ns'); done.
Qed.
Lemma repoint_ok ks : ∀ ns ns', Forall sep_ok ks → Forall (λ no, is_u32 no) ns → length ns = length ks → length ns' = length ks →
  repoint (zip_with enc_interior ks ns) ns' = Some (zip_with enc_interior ks ns').
Proof using.
  induction ks as [|k ks IH]; intros [|x ns] [|y ns'] Hk Hn H1 H2; try done. injection H1 as H1. injection H2 as H2.
  apply Forall_cons in Hk as [Hk Hks]. apply Forall_cons in Hn as [Hx Hn]. cbn [zip_with repoint].
  rewrite (proj1 (enc_interior_read k x Hk Hx)). cbn [mbind option_bind]. by rewrite (IH ns ns').
Qed.

(** ** The plan for a pair *)
Inductive plan_spec (u : tree) (precs : list bytes) (ids : list Z) (n : nat) (rno : Z) (merge : bool) : option plan → Prop :=
  | plan_none : plan_spec u precs ids n rno merge None
  | plan_merge : merge = true →
      plan_spec u precs ids n rno merge (Some (Plan (delete n precs) (delete (S n) ids) (recs_of u) [] 0))
  | plan_cut (mid : nat) k : merge = false → key_between u mid = Some k → may_cut u mid →
      total (sizes (recs_of (left_part u mid rno))) ≤ USABLE → total (sizes (recs_of (right_part u mid rno))) ≤ USABLE →
      plan_spec u precs ids n rno merge
        (Some (Plan (<[n := enc_interior k rno]> precs) ids (recs_of (left_part u mid rno)) (recs_of (right_part u mid rno))
                 (link_of (right_part u mid rno)))).
Lemma key_between_at p u (mid : nat) : body p u → (mid < length (recs_of u))%nat → is_Some (key_between u mid).
Proof using.
  intros Hb Hm. destruct u as [no next cs|no cs ks]; cbn [key_between recs_of] in *.
  - rewrite length_fmap in Hm. destruct (lookup_lt_is_Some_2 cs mid Hm) as [c ->]. by eexists.
  - rewrite length_zip_with in Hm. apply lookup_lt_is_Some. lia.
Qed.
Lemma plan_pair_ok p u precs ids (n : nat) rno merge : body p u → (n < length precs)%nat → (S n < length ids)%nat →
  ∃ pl, plan_pair (page_kind u) precs ids (Z.of_nat n) rno (link_of u) (recs_of u) merge = Some pl ∧ plan_spec u precs ids n rno merge pl.
Proof using.
  intros Hb Hn Hi. pose proof (body_shaped _ _ Hb) as Hsh. unfold plan_pair, remove_at, set_at.
  replace (Z.of_nat n + 1) with (Z.of_nat (S n)) by lia. rewrite !Nat2Z.id.
  rewrite (proj2 (Z.ltb_lt (Z.of_nat n) (blen precs))), (proj2 (Z.ltb_lt (Z.of_nat (S n)) (blen ids))) by (unfold blen; lia). destruct merge.
  { eexists. split; [done|]. by apply plan_merge. }
  assert (∀ mid : nat, (mid < length (recs_of u))%nat → ∃ k rec, key_between u mid = Some k ∧ recs_of u !! mid = Some rec ∧ validated_key rec = Some k ∧
    (page_kind u = Interior → validated_child rec = Some (link_of (right_part u mid rno)))) as Hat.
  { intros mid Hm. destruct (key_between_at p u mid Hb Hm) as [k Hk]. destruct (cut_record u mid k Hk p Hb) as (rec & H1 & H2 & H3).
    exists k, rec. split_and!; [done..|]. intros. by apply H3. }
  destruct (bool_decide (page_kind u = Leaf)) eqn:Ek.
  - apply bool_decide_eq_true in Ek. pose proof (split_point_spec (recs_of u) USABLE) as Hs.
    destruct (split_point (recs_of u) USABLE) as [m|]; [|eexists; split; [done|apply plan_none]].
    destruct Hs as (mid & -> & ((Hm0 & Hm) & Hl & Hr) & _). destruct (Hat mid Hm) as (k & rec & Hk & Hrec & Hkey & _).
    destruct (left_part_page u mid k Hk rno Hsh) as (E1 & _ & _ & _). destruct (right_part_page u mid k Hk rno Hsh) as (E2 & _ & _ & E3).
    destruct u as [no next cs|]; [|done]. rewrite Nat2Z.id, Hrec. cbn [mbind option_bind]. rewrite Hkey. cbn [mbind option_bind].
    eexists. split; [done|]. rewrite <-E1, <-E2, <-(E3 I) in *. by apply (plan_cut _ _ _ _ _ _ mid k).
  - apply bool_decide_eq_false in Ek. pose proof (best_cut_spec USABLE (recs_of u)) as Hs.
    destruct (best_cut _ _ _ _ _ _) as [[m d]|]; [|eexists; split; [done|apply plan_none]].
    destruct Hs as (mid & -> & (Hm & Hl & Hr) & _). destruct (Hat mid Hm) as (k & rec & Hk & Hrec & Hkey & Hch).
    destruct (left_part_page u mid k Hk rno Hsh) as (E1 & _ & _ & _). destruct (right_part_page u mid k Hk rno Hsh) as (E2 & _ & _ & _).
    destruct u as [|no cs ks]; [done|]. rewrite Nat2Z.id, Hrec. cbn [mbind option_bind]. rewrite Hkey. cbn [mbind option_bind].
    rewrite Hch by done. cbn [mbind option_bind]. replace (Z.to_nat (Z.of_nat mid + 1)) with (S mid) by lia.
    eexists. split; [done|]. rewrite <-E1, <-E2 in *. by apply (plan_cut _ _ _ _ _ _ mid k).
Qed.

(** ** The pair in its tree *)
Definition pair_node (g : frame) tl tr k : tree := TNode (f_no g) (grown_children g tl tr) (grown_keys g k).
Lemma ord_r_lower lo lo' hi r : (match lo' with Some l => strictly_above lo l | None => lo = None end) → ord_r lo' hi r → ord_r lo hi r.
Proof using.
  destruct r as [|[k c] r]; [done|]. intros Hlo ([Ha Hb] & Hr). split; [|done]. split; [|done].
  destruct lo' as [l|]; [|by subst]. by eapply strictly_above_trans.
Qed.
Lemma grown_ords_inv lo hi g tl tr k : ords hi lo (grown_children g tl tr) (grown_keys g k) →
  ord_frame lo hi g ∧ ord (end_l lo (f_l g)) (Some k) tl ∧ ord (Some k) (start_r hi (f_r g)) tr ∧
  inside (end_l lo (f_l g)) (start_r hi (f_r g)) k.
Proof using.
  unfold grown_children, grown_keys. change (tr :: (f_r g).*2) with (((k, tr) :: f_r g).*2). change (k :: (f_r g).*1) with (((k, tr) :: f_r g).*1).
  intros (Hl & ([Hk1 Hk2] & Htr & Hr) & Htl)%ords_app. split; [|split; [done|split; [done|]]].
  - split; [done|]. by apply (ord_r_lower _ (Some k)).
  - split; [done|]. destruct (f_r g) as [|[k' c] r]; [done|]. by destruct Hr as ([? _] & _).
Qed.
Lemma grown_links_inv last g tl tr : all_links last (grown_children g tl tr) →
  links_frame last g ∧ links false tl ∧ links (match f_r g with [] => last | _ => false end) tr.
Proof using.
  unfold grown_children. intros [Hl H]%all_links_app. destruct H as [Htl Hr]. unfold links_frame. destruct (f_r g) as [|x r]; [done|].
  apply all_links_cons in Hr as [Htr Hr]; [done|done].
Qed.
(** What a tree with the pair in it says. *)
Record pair_pre s ctx (g : frame) tl tr k : Prop := {
  pp_tree : tree_of s (plug ctx (pair_node g tl tr k));
  pp_parent : is_frozen (pool s) (f_no g) = false;
  pp_path : writable (pool s) (f_no <$> ctx);
  pp_kind : page_kind tl = page_kind tr;
}.
Definition below_pair ctx (g : frame) tl tr : list Z := owned_ctx (g :: ctx) ++ beneath tl ++ beneath tr.
Lemma pair_owned ctx g tl tr k : owned (plug ctx (pair_node g tl tr k)) ≡ₚ no_of tl :: no_of tr :: below_pair ctx g tl tr.
Proof using.
  rewrite owned_plug. unfold pair_node. cbn [owned]. rewrite grown_flat, (owned_beneath tl), (owned_beneath tr). unfold below_pair.
  change (owned_ctx (g :: ctx)) with (owned_frame g ++ owned_ctx ctx). unfold owned_frame. solve_Permutation.
Qed.
Section facts.
Context s ctx g tl tr k (Hpp : pair_pre s ctx g tl tr k).
Lemma pair_holds : holds_ctx (pool s) ctx (f_no g) ∧ (∃ b, get (pool s) (f_no g) = Ok b ∧ page_at (pair_node g tl tr k) b) ∧
  body (pool s) (pair_node g tl tr k) ∧ holds (pool s) tl ∧ holds (pool s) tr ∧ holds_all (pool s) (f_l g).*1 ∧ holds_all (pool s) (f_r g).*2.
Proof using Hpp.
  pose proof (inv_unplug _ _ _ _ (of_inv _ _ (pp_tree _ _ _ _ _ _ Hpp))) as (Hc & Hh & _). apply holds_split in Hh as [Hp Hb].
  pose proof Hb as (_ & _ & _ & Ha). unfold holds_all, grown_children in Ha. apply Forall_app in Ha as [Hl Ha].
  apply Forall_cons in Ha as [Htl Ha]. apply Forall_cons in Ha as [Htr Hr]. done.
Qed.
Lemma pair_owned_ok : owned_ok (pool s) (no_of tl :: no_of tr :: below_pair ctx g tl tr).
Proof using Hpp. pose proof (inv_owned _ _ _ (of_inv _ _ (pp_tree _ _ _ _ _ _ Hpp))) as Ho. by rewrite pair_owned in Ho. Qed.
Lemma pair_ords : ord_ctx None None ctx ∧ ord_frame (lo_of None ctx) (hi_of None ctx) g ∧
  ord (end_l (lo_of None ctx) (f_l g)) (Some k) tl ∧ ord (Some k) (start_r (hi_of None ctx) (f_r g)) tr ∧
  inside (end_l (lo_of None ctx) (f_l g)) (start_r (hi_of None ctx) (f_r g)) k.
Proof using Hpp.
  pose proof (inv_unplug _ _ _ _ (of_inv _ _ (pp_tree _ _ _ _ _ _ Hpp))) as (_ & _ & _ & Hoc & Ho). split; [done|]. by apply grown_ords_inv.
Qed.
Lemma pair_links : links_ctx true ctx ∧ links_frame (last_of true ctx) g ∧ links false tl ∧
  links (match f_r g with [] => last_of true ctx | _ => false end) tr.
Proof using Hpp.
  pose proof (of_links _ _ (pp_tree _ _ _ _ _ _ Hpp)) as Hl. apply links_plug in Hl as [Hlc Hl]. split; [done|]. by apply grown_links_inv.
Qed.
Lemma pair_key : sep_ok k.
Proof using Hpp.
  destruct pair_holds as (_ & _ & (_ & Hk & _) & _). unfold grown_keys in Hk. apply Forall_app in Hk as [_ Hk]. by apply Forall_cons in Hk as [? _].
Qed.
End facts.

(** The node above the pair replaced, everything around it as before. *)
Lemma node_replaced s s' ctx no cs ks cs' ks' : tree_of s (plug ctx (TNode no cs ks)) → root s' = root s → last_leaf s' = None →
  evolves (pool s) (pool s') → keeps (pool s) (pool s') (owned_ctx ctx) → holds (pool s') (TNode no cs' ks') →
  owned_ok (pool s') (owned_ctx ctx ++ owned (TNode no cs' ks')) →
  ords (hi_of None ctx) (lo_of None ctx) cs' ks' → all_links (last_of true ctx) cs' → tree_of s' (plug ctx (TNode no cs' ks')).
Proof using.
  intros [Hi Hl _] Er Eh Hev Hk Hh Ho Hord Hls. pose proof (inv_unplug _ _ _ _ Hi) as (Hc & _ & _ & Hoc & _).
  apply links_plug in Hl as [Hlc _]. split; [|by apply links_plug|by rewrite Eh].
  apply inv_plug; [apply Hev|apply Hi| |done| |done|done|].
  - apply (holds_ctx_same (pool s)); [by apply evolves_limit| |done]. intros x Hx. by apply Hk.
  - by rewrite app_nil_r.
  - rewrite Er, <-(inv_root _ _ _ Hi). by apply no_of_plug_same.
Qed.
Lemma writable_page_ok s t O : pool_ok (pool s) → owned_ok (pool s) (no_of t :: O) → holds (pool s) t →
  runs (writable_page (no_of t)) s (λ no s', ∃ p', s' = set_pool p' s ∧ owned_ok p' (no :: O) ∧ keeps (pool s) p' O ∧
    is_frozen p' no = false ∧ ∃ b, get p' no = Ok b).
Proof using HPL.
  intros Hp Ho Hh. destruct (holds_page _ _ Hh) as (b & Hg & link & recs & Hn). unfold writable_page. eapply runs_read; [done|].
  destruct (is_frozen (pool s) (no_of t)) eqn:Ef.
  - eapply runs_mono; [by apply (shadow_page_ok s _ b O); [| |done|eauto]|].
    intros no s' (p' & b1 & -> & Ho' & Hk & _ & Hg' & Hf & _) _. exists p'. eauto 10.
  - apply runs_ret; [done|]. exists (pool s). split; [by destruct s|]. split; [done|]. split; [by apply keeps_refl|]. eauto.
Qed.

(** ** Installed *)
(** What an attempt that goes through ends with. *)
Definition pair_done s' ctx g tl tr k : Prop := ∃ cs ks,
  tree_of s' (plug ctx (TNode (f_no g) cs ks)) ∧ flat_map cells cs = flat_map cells (grown_children g tl tr) ∧
  (length (owned (TNode (f_no g) cs ks)) ≤ length (owned (pair_node g tl tr k)))%nat ∧ writable (pool s') (f_no <$> ctx).
(** The pages around the pair but for the parent's. *)
Definition beside ctx (g : frame) : list Z := owned_ctx ctx ++ flat_map owned (f_l g).*1 ++ flat_map owned (f_r g).*2.
Lemma below_beside ctx g tl tr : below_pair ctx g tl tr ≡ₚ f_no g :: beside ctx g ++ beneath tl ++ beneath tr.
Proof using.
  unfold below_pair, beside. change (owned_ctx (g :: ctx)) with (owned_frame g ++ owned_ctx ctx). unfold owned_frame. solve_Permutation.
Qed.
Lemma pair_installed s s' ctx g tl tr k mid mk b : pair_pre s ctx g tl tr k →
  let cs := (f_l g).*1 ++ mid ++ (f_r g).*2 in let ks := (f_l g).*2 ++ mk ++ (f_r g).*1 in
  root s' = root s → last_leaf s' = None → evolves (pool s) (pool s') → keeps (pool s) (pool s') (beside ctx g) →
  Forall (holds (pool s')) mid → get (pool s') (f_no g) = Ok b → page_at (TNode (f_no g) cs ks) b →
  Forall sep_ok mk → Forall (λ no, is_u32 no) (no_of <$> mid) →
  owned_ok (pool s') (f_no g :: beside ctx g ++ flat_map owned mid) →
  ords (hi_of None ctx) (lo_of None ctx) cs ks → all_links (last_of true ctx) cs →
  flat_map cells mid = cells tl ++ cells tr → (length (flat_map owned mid) ≤ length (owned tl) + length (owned tr))%nat →
  pair_done s' ctx g tl tr k.
Proof using.
  intros Hpp cs ks Er Eh Hev Hk Hmid Hg Hb Hmk Hmu Ho Hord Hls Hcells Hlen.
  destruct (pair_holds _ _ _ _ _ _ Hpp) as (_ & _ & (_ & HK & HU & _) & _ & _ & HSl & HSr). pose proof (evolves_limit _ _ Hev) as Hlim.
  unfold grown_keys in HK. apply Forall_app in HK as [HK1 HK2]. apply Forall_cons in HK2 as [_ HK2].
  unfold grown_children in HU. rewrite fmap_app, !fmap_cons in HU. apply Forall_app in HU as [HU1 HU2].
  apply Forall_cons in HU2 as [_ HU2]. apply Forall_cons in HU2 as [_ HU2].
  exists cs, ks. split; [|split; [|split]].
  - eapply (node_replaced s); [apply Hpp|done|done|done| | | |done|done].
    + eapply keeps_sub; [exact Hk|]. intros x Hx. apply elem_of_app. by left.
    + apply holds_split. split; [by exists b|]. split; [by eapply ords_length|]. split; [|split].
      * unfold ks. rewrite !Forall_app. done.
      * unfold cs. rewrite !fmap_app, !Forall_app. done.
      * unfold holds_all, cs. rewrite !Forall_app. split; [|split; [done|]].
        -- apply (holds_all_same (pool s)); [done| |done]. intros x Hx. apply Hk. unfold beside. rewrite !elem_of_app. auto.
        -- apply (holds_all_same (pool s)); [done| |done]. intros x Hx. apply Hk. unfold beside. rewrite !elem_of_app. auto.
    + cbn [owned]. unfold cs. rewrite !flat_map_app. eapply owned_ok_perm; [|exact Ho]. unfold beside. solve_Permutation.
  - unfold cs. rewrite grown_flat, !flat_map_app, Hcells. by rewrite <-app_assoc.
  - unfold pair_node. cbn [owned length]. rewrite grown_flat. unfold cs. rewrite !flat_map_app, !length_app. lia.
  - apply (writable_ctx (pool s)); [|apply Hpp]. intros x Hx. apply Hk, elem_of_app. by left.
Qed.

(** ** Lists of a parent *)
Lemma head_lookup (l : list Z) : l ≠ [] → l !! 0%nat = Some (default 0 (head l)).
Proof using. by destruct l. Qed.
Lemma set_at_ok {A} (l1 l2 : list A) x y : set_at (Z.of_nat (length l1)) y (l1 ++ x :: l2) = Some (l1 ++ y :: l2).
Proof using.
  unfold set_at, blen. rewrite length_app. cbn [length]. rewrite (proj2 (Z.ltb_lt _ _)) by lia. rewrite Nat2Z.id. f_equal. by apply insert_middle.
Qed.
Lemma nos_length cs (ks : list bytes) : length cs = S (length ks) → length (tail (no_of <$> cs)) = length ks.
Proof using. destruct cs as [|c cs]; [done|]. cbn. rewrite length_fmap. by injection 1. Qed.
Lemma parent_built no cs ks : is_u16 tid → is_u32 no → length cs = S (length ks) → Forall sep_ok ks → Forall (λ no, is_u32 no) (no_of <$> cs) →
  total (sizes (recs_of (TNode no cs ks))) ≤ USABLE →
  ∃ b, build_page Interior tid no (recs_of (TNode no cs ks)) (link_of (TNode no cs ks)) = Some (Ok b) ∧ page_at (TNode no cs ks) b.
Proof using.
  intros Ht Hno Hl Hk Hu Hs. apply interior_build; [done|done| |apply zip_recs_ok; [done|by apply Forall_tail]|done].
  destruct cs as [|c cs]; [done|]. cbn. by apply Forall_cons in Hu as [? _].
Qed.
(** The trial build: the parent takes the change, or the attempt is dropped. *)
Lemma trial_ok s no ks ns first (m : M P (option bool)) Q : pool_ok (pool s) → is_u16 tid → is_u32 no → is_u32 first →
  Forall sep_ok ks → Forall (λ no, is_u32 no) ns → Q None s → (total (sizes (zip_with enc_interior ks ns)) ≤ USABLE → runs m s Q) →
  runs (let+ trial := sure (build_page Interior tid no (zip_with enc_interior ks ns) first) in
        match trial with Err TooLarge => ret None | Err e => fail e | Ok _ => m end) s Q.
Proof using.
  intros Hp Ht Hno Hf Hk Hn HQ Hm. pose proof (build_page_ok Interior tid no _ first Ht Hno Hf (zip_recs_ok ks ns Hk Hn)) as Hb.
  destruct (decide _) as [Hle|]; [destruct Hb as (b & Hb & _)|].
  - eapply runs_read; [unfold sure; by rewrite Hb|]. by apply Hm.
  - eapply runs_read; [unfold sure; by rewrite Hb|]. by apply runs_ret.
Qed.
Lemma link_u32 p last t : links last t → body p t → is_u32 (link_of t).
Proof using.
  intros Hl Hb. destruct t as [no next cs|no cs ks]; [apply Hl|]. apply (body_link _ _ Hb); [by eapply body_shaped|done].
Qed.
Lemma body_renumber p t no : body p (renumber t no) ↔ body p t.
Proof using. by destruct t. Qed.
Lemma merged_ids g tl tr : delete (S (length (f_l g))) (no_of <$> grown_children g tl tr) = no_of <$> ((f_l g).*1 ++ tl :: (f_r g).*2).
Proof using.
  unfold grown_children. rewrite !fmap_app, !fmap_cons. set (r := no_of <$> (f_r g).*2).
  replace (S (length (f_l g))) with (length ((no_of <$> (f_l g).*1) ++ [no_of tl])) by (rewrite length_app, !length_fmap; cbn; lia).
  pose proof (delete_middle ((no_of <$> (f_l g).*1) ++ [no_of tl]) r (no_of tr)) as E. by rewrite <-!app_assoc in E.
Qed.
Lemma merged_keys g k : delete (length (f_l g)) (grown_keys g k) = (f_l g).*2 ++ (f_r g).*1.
Proof using. unfold grown_keys. rewrite <-(length_fmap snd (f_l g)). apply delete_middle. Qed.
Lemma cut_keys g k k' : <[length (f_l g) := k']> (grown_keys g k) = grown_keys g k'.
Proof using. unfold grown_keys. apply insert_middle. by rewrite length_fmap. Qed.
Lemma set_left (l : list (tree * bytes)) t t' r : set_at (Z.of_nat (length l)) (no_of t') (no_of <$> (l.*1 ++ t :: r)) = Some (no_of <$> (l.*1 ++ t' :: r)).
Proof using.
  rewrite !fmap_app, !fmap_cons. assert (length l = length (no_of <$> l.*1)) as -> by (by rewrite !length_fmap). apply set_at_ok.
Qed.
Lemma set_right (l : list (tree * bytes)) t1 t t' r :
  set_at (Z.of_nat (length l) + 1) (no_of t') (no_of <$> (l.*1 ++ t1 :: t :: r)) = Some (no_of <$> (l.*1 ++ t1 :: t' :: r)).
Proof using.
  replace (Z.of_nat (length l) + 1) with (Z.of_nat (length ((l ++ [(t1, [])])))) by (rewrite length_app; cbn; lia).
  pose proof (set_left (l ++ [(t1, [])]) t t' r) as E.
  assert ((l ++ [(t1, [])]).*1 = l.*1 ++ [t1]) as Ea by (by rewrite fmap_app). by rewrite Ea, <-!app_assoc in E.
Qed.

(** ** A merge *)
Lemma link_kind p tl k tr : page_kind tl = page_kind tr → body p tl →
  (if negb (bool_decide (page_kind tl = Leaf)) then link_of tl else link_of tr) = link_of (merged tl k tr).
Proof using. intros Hk Hb. rewrite (merged_link p) by done. by destruct tl. Qed.
Section pair.
Context s ctx g tl tr k (Hpp : pair_pre s ctx g tl tr k).
Let u := merged tl k tr.
Lemma pair_merged : body (pool s) u ∧ is_u32 (link_of u) ∧ beneath u = beneath tl ++ beneath tr ∧ cells u = cells tl ++ cells tr ∧
  ord (end_l (lo_of None ctx) (f_l g)) (start_r (hi_of None ctx) (f_r g)) u ∧
  links (match f_r g with [] => last_of true ctx | _ => false end) u ∧ is_u32 (no_of tl) ∧ is_u32 (no_of tr).
Proof using Hpp.
  pose proof (pp_kind _ _ _ _ _ _ Hpp) as Hkd. destruct (pair_holds _ _ _ _ _ _ Hpp) as (_ & _ & _ & Htl & Htr & _).
  apply holds_split in Htl as [_ Bl]. apply holds_split in Htr as [_ Br].
  destruct (pair_ords _ _ _ _ _ _ Hpp) as (_ & _ & Ol & Or & Hin). destruct (pair_links _ _ _ _ _ _ Hpp) as (_ & _ & Ll & Lr).
  pose proof (merged_body _ _ k _ Hkd (pair_key _ _ _ _ _ _ Hpp) Bl Br) as Bu.
  pose proof (merged_links tl tr k Hkd _ Ll Lr) as Lu. pose proof (pair_owned_ok _ _ _ _ _ _ Hpp) as Ho.
  split; [done|]. split; [by eapply link_u32|]. split; [by apply merged_beneath|]. split; [by apply merged_cells|].
  split; [by apply merged_ord|]. split; [done|]. split; (eapply owned_u32; [exact Ho|]); [left|right; left].
Qed.
End pair.
End even.
End TreeEven.
