(* ===== verification/TreeInstall.v ===== *)
(** * The pages of a pair written ([rebalance_after_delete] of [core/kernel/src/btree.rs])

    The images are built under the old numbers, moved to the pages that may be
    written, and copied there with the parent's; a merge retires the right page. *)
From S2P Require Import Prelude Crc Page Cells Order Node Interior Pool Tree BTree TreeRep TreeRead TreeWrite TreeSplit TreeInsert BTreeDelete TreePair TreeEven.
Import Page Cells Order Node Interior Tree BTree TreeRep TreeRead TreeWrite TreeSplit TreeInsert BTreeDelete TreePair TreeEven.

Module TreeInstall.

Section install.
Context `{HC : Crc32c} `{HL : !Crc32cLaws} {P : Type} `{HP : PagePool P} `{HPL : !PagePoolLaws P}.
Context {tid : TreeId}.
Implicit Types (p : P) (s : BTree P) (t : tree) (O R : list Z).

Definition attempt s ctx g tl tr k (merge : bool) (r : option bool) s' : Prop :=
  (r = None ∧ s' = s) ∨ (r = Some merge ∧ pair_done s' ctx g tl tr k).
(** The state once the last page is written. *)
Definition unhinted p s : BTree P := mkBTree p (root s) None (fast_path_hits s) (fast_path_attempts s).

Lemma length_delete_in {A} (l : list A) i : (i < length l)%nat → length (delete i l) = pred (length l).
Proof using. intros Hi. rewrite length_delete by (by apply lookup_lt_is_Some). lia. Qed.
Lemma first_u32 (l : list Z) : l ≠ [] → Forall (λ no, is_u32 no) l → is_u32 (default 0 (head l)).
Proof using. destruct l as [|x l]; [done|]. intros _ Hl. by apply Forall_cons in Hl as [? _]. Qed.
Lemma no_of_renumber t no : no_of (renumber t no) = no.
Proof using. by destruct t. Qed.
Lemma runs_tail {A} (m : M P A) s Q : runs (bind m ret) s Q → runs m s Q.
Proof using. unfold runs, bind, ret. by destruct (m s) as [s' [[a|e]|]]. Qed.
Lemma retire_ok s no (f : BTree P → Z) O : pool_ok (pool s) → owned_ok (pool s) (no :: O) →
  runs (let+ birth := ask f in retire no birth) s (λ _ s', ∃ p', s' = set_pool p' s ∧ owned_ok p' O ∧
    ∀ x, get p' x = get (pool s) x ∧ is_frozen p' x = is_frozen (pool s) x).
Proof using HPL.
  intros Hp Ho. eapply runs_read; [done|]. apply runs_tail.
  apply (runs_retire _ _ _ _ O); [done|done|]. intros p' Hev Ho' Hs. apply runs_ret; [apply Hev|]. exists p'. done.
Qed.
(** What a merge has built before it writes. *)
Record merge_ready s ctx g tl tr k (fl : Z) (li pi : bytes) s1 : Prop := {
  mr_state : ∃ p, s1 = set_pool p s;
  mr_evolves : evolves (pool s) (pool s1);
  mr_owned : owned_ok (pool s1) (fl :: no_of tr :: below_pair ctx g tl tr);
  mr_keeps : keeps (pool s) (pool s1) (no_of tr :: below_pair ctx g tl tr);
  mr_writable : is_frozen (pool s1) fl = false;
  mr_left : page_at (renumber (merged tl k tr) fl) li;
  mr_parent : page_at (TNode (f_no g) ((f_l g).*1 ++ renumber (merged tl k tr) fl :: (f_r g).*2) ((f_l g).*2 ++ (f_r g).*1)) pi;
}.
Lemma put_merge_ok s ctx g tl tr k fl li pi s1 f : pair_pre s ctx g tl tr k → merge_ready s ctx g tl tr k fl li pi s1 →
  runs ((let+ birth := ask f in retire (no_of tr) birth) ;;+
        write fl li ;;+ ret tt ;;+ write (f_no g) pi ;;+ set_last_leaf None ;;+ ret (Some true)) s1
    (attempt s ctx g tl tr k true).
Proof using HPL.
  intros Hpp [(p1 & ->) Hev1 Ho1 Hk1 Hf1 Hli Hpi]. cbn [pool set_pool] in *. set (u := merged tl k tr) in *.
  destruct (pair_merged _ _ _ _ _ _ Hpp) as (Bu & _ & Ebe & Ecl & Ou & Lu & _). fold u in Bu, Ebe, Ecl, Ou, Lu.
  destruct (pair_ords _ _ _ _ _ _ Hpp) as (_ & Of & _). destruct (pair_links _ _ _ _ _ _ Hpp) as (_ & Lf & _).
  rewrite (Permutation_swap (no_of tr) fl) in Ho1.
  eapply runs_bind; [apply (retire_ok _ _ _ (fl :: below_pair ctx g tl tr)); [apply Hev1|exact Ho1]|].
  intros [] s2 (p2 & -> & Ho2 & Hs2) Hev2. cbn [pool set_pool] in *. rewrite below_beside in Ho2.
  apply runs_write; [apply Hev2|cbn [pool set_pool]; rewrite (proj2 (Hs2 fl)); exact Hf1|]. intros p3 Hw3. cbn [pool set_pool] in *.
  eapply runs_read; [done|].
  assert (keeps (pool s) p2 (f_no g :: beside ctx g ++ beneath tl ++ beneath tr)) as Hk2.
  { intros x Hx. destruct (Hs2 x) as [-> ->]. apply Hk1. right. by rewrite below_beside. }
  assert (is_frozen p3 (f_no g) = false) as Hfp.
  { rewrite (wrote_frozen _ _ _ _ Hw3), (proj2 (Hk2 (f_no g) ltac:(left))). apply Hpp. }
  apply runs_write; [apply Hw3|done|]. intros p4 Hw4. cbn [pool set_pool] in *.
  pose proof Ho2 as [Hnd _]. apply NoDup_cons in Hnd as [Hfl Hnd]. apply NoDup_cons in Hnd as [Hfn _].
  assert (fl ≠ f_no g) as Hne by (intros ->; apply Hfl; left).
  assert (keeps (pool s) p4 (beside ctx g ++ beneath u)) as Hk4.
  { rewrite Ebe. apply (keeps_trans _ p2); [eapply keeps_sub; [exact Hk2|]; intros x Hx; by right|]. apply (keeps_trans _ p3).
    - apply (wrote_keeps _ _ _ _ _ Hw3). intros Hx. apply Hfl. by right.
    - by apply (wrote_keeps _ _ _ _ _ Hw4). }
  pose proof (evolves_trans _ _ _ Hev1 (evolves_trans _ _ _ Hev2 (evolves_trans _ _ _ (wrote_ev _ _ _ _ Hw3) (wrote_ev _ _ _ _ Hw4)))) as Hev.
  eapply (runs_set _ _ _ (unhinted p4 s)); [done|done|]. apply runs_ret; [apply Hw4|]. right. split; [done|].
  eapply (pair_installed s _ ctx g tl tr k [renumber u fl] [] pi); cbn [pool unhinted app]; try done.
  - intros x Hx. apply Hk4, elem_of_app. by left.
  - apply Forall_singleton, holds_split. rewrite no_of_renumber, body_renumber. split.
    + exists li. split; [|done]. rewrite (wrote_get _ _ _ _ Hw4), decide_False by done. by apply wrote_here in Hw3.
    + apply (body_same (pool s)); [by apply evolves_limit| |done]. intros x Hx. apply Hk4, elem_of_app. by right.
  - by apply wrote_here in Hw4.
  - apply Forall_singleton. rewrite no_of_renumber. eapply owned_u32; [exact Ho2|left].
  - apply (wrote_owned _ _ _ _ Hw4), (wrote_owned _ _ _ _ Hw3). cbn [flat_map]. rewrite app_nil_r, owned_renumber, Ebe.
    eapply owned_ok_perm; [|exact Ho2]. solve_Permutation.
  - apply ords_app. destruct Of. split; [done|]. split; [done|]. by rewrite ord_renumber.
  - apply all_links_app. destruct Lf as [Lf1 Lf2]. split; [done|]. destruct (f_r g) as [|x r]; cbn [fmap list_fmap]; [by destruct u|].
    split; [by destruct u|done].
  - cbn [flat_map]. rewrite app_nil_r, <-Ecl. by destruct u.
  - cbn [flat_map]. rewrite app_nil_r, owned_renumber, Ebe, (owned_beneath tl), (owned_beneath tr). cbn [length]. rewrite length_app. lia.
Qed.

Lemma install_merge_ok s ctx g tl tr k lsn0 : pair_pre s ctx g tl tr k →
  let u := merged tl k tr in total (sizes (recs_of u)) ≤ USABLE →
  runs (install_pair tid (page_kind tl) (f_no g) (Z.of_nat (length (f_l g))) (no_of tl) (no_of tr) (link_of tl) (link_of tr) lsn0 true
          (Plan (delete (length (f_l g)) (recs_of (pair_node g tl tr k))) (delete (S (length (f_l g))) (no_of <$> grown_children g tl tr)) (recs_of u) [] 0)) s
    (attempt s ctx g tl tr k true).
Proof using HPL.
  intros Hpp u Hfit. pose proof (pp_kind _ _ _ _ _ _ Hpp) as Hkd.
  destruct (pair_holds _ _ _ _ _ _ Hpp) as (_ & (b & Hg & _) & (Hlen & Hks & Hus & _) & Htl & _).
  destruct (pair_merged _ _ _ _ _ _ Hpp) as (Bu & Hlu & _ & _ & _ & _ & Hu1 & _). fold u in Bu, Hlu.
  pose proof (pair_owned_ok _ _ _ _ _ _ Hpp) as Ho. pose proof (of_inv _ _ (pp_tree _ _ _ _ _ _ Hpp)) as Hinv.
  pose proof (inv_tid _ _ _ Hinv) as Htid. unfold install_pair. cbn [pl_ids pl_recs pl_left pl_right pl_link]. cbv zeta.
  rewrite merged_ids. set (ks := (f_l g).*2 ++ (f_r g).*1). set (n := length (f_l g)).
  assert (no_of <$> ((f_l g).*1 ++ tl :: (f_r g).*2) ≠ []) as Hne by (by destruct (f_l g)).
  eapply runs_read; [unfold sure; by rewrite head_lookup|].
  set (ns0 := delete n (tail (no_of <$> grown_children g tl tr))).
  assert (delete n (recs_of (pair_node g tl tr k)) = zip_with enc_interior ks ns0) as ->.
  { unfold pair_node, recs_of. rewrite delete_zip by (symmetry; by apply nos_length). unfold n. by rewrite merged_keys. }
  pose proof (Forall_delete _ _ n (Forall_tail _ _ Hus)) as Hus0. fold ns0 in Hus0.
  pose proof (Forall_delete _ _ n Hks) as Hks0. unfold n in Hks0. rewrite merged_keys in Hks0. fold n ks in Hks0.
  pose proof (Forall_delete _ _ (S n) Hus) as Huc. unfold n in Huc. rewrite merged_ids in Huc. fold n in Huc.
  assert (n < length (grown_keys g k))%nat as Hn by (unfold grown_keys; rewrite length_app, length_fmap; unfold n; cbn; lia).
  assert (length ns0 = length ks) as El0.
  { unfold ns0, ks. rewrite <-(merged_keys g k). pose proof (nos_length _ _ Hlen) as En.
    rewrite !length_delete_in by (rewrite ?En; done). by rewrite En. }
  assert (is_u32 (f_no g)) as Hup by (eapply owned_u32; [exact Ho|]; rewrite below_beside; right; right; left).
  apply trial_ok; [apply Hinv|done|done| |done|done|by left|].
  { by apply first_u32. }
  intros Hsz. rewrite (link_kind (pool s) tl k tr Hkd) by (by apply holds_split in Htl as [_ ?]). fold u.
  destruct (page_built (pool s) u Htid) as (li & Hli & Pli); [by unfold u; rewrite merged_no|done|done|done|].
  unfold u in Hli. rewrite merged_kind, merged_no in Hli by done. fold u in Hli.
  eapply runs_read; [unfold build, lift; by rewrite Hli|]. eapply runs_read; [done|].
  eapply runs_bind; [apply (writable_page_ok s tl); [apply Hinv|exact Ho|done]|].
  intros fl s1 (p1 & -> & Ho1 & Hk1 & Hf1 & [b1 Hg1]) Hev1. cbn [pool set_pool] in *. eapply runs_read; [done|].
  assert (is_u32 fl) as Hufl by (eapply owned_u32; [exact Ho1|left]).
  set (u' := renumber u fl). set (cs := (f_l g).*1 ++ u' :: (f_r g).*2).
  assert (length cs = S (length ks)) as Elc by (unfold cs, ks; rewrite !length_app; cbn; rewrite !length_fmap; lia).
  pose proof (set_left (f_l g) tl u' (f_r g).*2) as Eset. unfold u' in Eset at 1. rewrite no_of_renumber in Eset.
  eapply runs_read; [unfold sure, n; by rewrite Eset|]. fold cs. eapply runs_read; [done|].
  rewrite drop_1_tail. eapply runs_read; [unfold sure; by rewrite (repoint_ok ks) by (done || by apply nos_length)|].
  destruct (page_moved u li fl Pli Hufl) as (li' & Hput & Pli'). eapply runs_read; [unfold sure; by rewrite Hput|].
  rewrite andb_false_r. eapply runs_read; [done|]. eapply runs_read; [done|].
  assert (Forall (λ no, is_u32 no) (no_of <$> cs)) as Huc'.
  { unfold cs, u'. rewrite !fmap_app, !fmap_cons, !Forall_app, !Forall_cons, no_of_renumber in *. naive_solver. }
  eapply runs_read; [unfold sure; rewrite head_lookup; [done|unfold cs; by destruct (f_l g)]|].
  destruct (parent_built (f_no g) cs ks Htid Hup Elc Hks0 Huc') as (pi & Hpi & Ppi).
  { unfold recs_of. rewrite (total_zip ks _ ns0); [done|by apply nos_length|done]. }
  eapply runs_read; [unfold build, lift; unfold recs_of, link_of in Hpi; by rewrite Hpi|].
  assert (f_no g ∈ no_of tr :: below_pair ctx g tl tr) as Hin by (rewrite below_beside; right; left).
  eapply runs_read; [by apply get_mut_ok|]. eapply runs_read; [done|].
  eapply runs_read; [apply get_mut_ok; cbn [pool set_pool]; [rewrite (proj1 (Hk1 _ Hin)); exact Hg|rewrite (proj2 (Hk1 _ Hin)); apply Hpp]|].
  eapply put_merge_ok; [done|]. split; try done. by exists p1.
Qed.

(** ** A pair evened out *)
Lemma key_sep p u mid k : body p u → key_between u mid = Some k → sep_ok k.
Proof using.
  intros Hb Hk. destruct u as [no next cs|no cs ks]; cbn [body key_between] in *.
  - destruct (cs !! mid) as [c|] eqn:Ec; [|done]. injection Hk as <-. apply (Forall_lookup_1 _ _ _ _ Hb Ec).
  - destruct Hb as (_ & Hks & _). by apply (Forall_lookup_1 _ _ _ _ Hks Hk).
Qed.
Lemma beneath_renumber t no : beneath (renumber t no) = beneath t.
Proof using. by destruct t. Qed.
Lemma right_renumber u mid no no' : renumber (right_part u mid no) no' = right_part u mid no'.
Proof using. by destruct u. Qed.
Lemma links_renumber last t no : links last (renumber t no) ↔ links last t.
Proof using. by destruct t. Qed.
Lemma cells_renumber t no : cells (renumber t no) = cells t.
Proof using. by destruct t. Qed.
Lemma no_of_right u mid no : no_of (right_part u mid no) = no.
Proof using. by destruct u. Qed.
Definition new_left (u : tree) (mid : nat) (fl fr : Z) : tree := renumber (left_part u mid fr) fl.
(** The left image with its new number and, for a leaf, its new sibling. *)
Lemma left_moved u mid rno fl fr li : page_at (left_part u mid rno) li → is_u32 fl → is_u32 fr →
  ∃ li' li'', put_at li 12 (le_bytes 4 fl) = Some li' ∧
    (if bool_decide (page_kind u = Leaf) && negb false then put_at li' 20 (le_bytes 4 fr) else Some li') = Some li'' ∧
    page_at (new_left u mid fl fr) li''.
Proof using.
  intros Hp Hfl Hfr. destruct (page_moved _ _ fl Hp Hfl) as (li' & Hput & Hp'). exists li'. destruct u as [no next cs|no cs ks].
  - destruct (page_linked _ _ _ _ fr Hp' Hfr) as (li'' & Hl & Hp''). by exists li''.
  - by exists li'.
Qed.
(** What evening out has built before it writes. *)
Record cut_ready s ctx g tl tr k mid k' (fl fr : Z) (li ri pi : bytes) s1 : Prop := {
  cr_state : ∃ p, s1 = set_pool p s;
  cr_evolves : evolves (pool s) (pool s1);
  cr_owned : owned_ok (pool s1) (fr :: fl :: below_pair ctx g tl tr);
  cr_keeps : keeps (pool s) (pool s1) (below_pair ctx g tl tr);
  cr_writable : is_frozen (pool s1) fl = false ∧ is_frozen (pool s1) fr = false;
  cr_left : page_at (new_left (merged tl k tr) mid fl fr) li;
  cr_right : page_at (right_part (merged tl k tr) mid fr) ri;
  cr_parent : page_at (TNode (f_no g) (grown_children g (new_left (merged tl k tr) mid fl fr) (right_part (merged tl k tr) mid fr))
    (grown_keys g k')) pi;
}.
Lemma put_cut_ok s ctx g tl tr k mid k' fl fr li ri pi s1 : pair_pre s ctx g tl tr k → cut_ready s ctx g tl tr k mid k' fl fr li ri pi s1 →
  key_between (merged tl k tr) mid = Some k' → may_cut (merged tl k tr) mid →
  runs (ret tt ;;+ write fl li ;;+ write fr ri ;;+ write (f_no g) pi ;;+ set_last_leaf None ;;+ ret (Some false)) s1
    (attempt s ctx g tl tr k false).
Proof using HPL.
  intros Hpp [(p2 & ->) Hev2 Ho2 Hk2 [Hfl Hfr] Hli Hri Hpi] Hkey Hmay. cbn [pool set_pool] in *. set (u := merged tl k tr) in *.
  destruct (pair_merged _ _ _ _ _ _ Hpp) as (Bu & _ & Ebe & Ecl & Ou & Lu & _). fold u in Bu, Ebe, Ecl, Ou, Lu.
  destruct (pair_ords _ _ _ _ _ _ Hpp) as (_ & Of & _). destruct (pair_links _ _ _ _ _ _ Hpp) as (_ & Lf & _).
  rewrite below_beside in Ho2. eapply keeps_sub in Hk2; [|intros x Hx; rewrite below_beside; exact Hx].
  destruct (parts_ord u mid k' Hkey _ _ fr fr Ou Hmay) as (O1 & O2 & Oin).
  assert (is_u32 fr ∧ fr ≠ 0) as [Hur Hr0].
  { destruct Ho2 as [_ Ha]. apply Forall_cons in Ha as [(Hr & Hu & _) _]. split; [done|lia]. }
  destruct (parts_links u mid k' Hkey _ fr fr Lu (body_shaped _ _ Bu) Hr0 Hur) as [L1 L2].
  eapply runs_read; [done|]. apply runs_write; [apply Hev2|done|]. intros p3 Hw3.
  apply runs_write; [apply Hw3|cbn [pool set_pool]; by rewrite (wrote_frozen _ _ _ _ Hw3)|]. intros p4 Hw4. cbn [pool set_pool] in *.
  assert (is_frozen p4 (f_no g) = false) as Hfp.
  { rewrite (wrote_frozen _ _ _ _ Hw4), (wrote_frozen _ _ _ _ Hw3), (proj2 (Hk2 (f_no g) ltac:(left))). apply Hpp. }
  apply runs_write; [apply Hw4|done|]. intros p5 Hw5. cbn [pool set_pool] in *.
  pose proof Ho2 as [Hnd _]. apply NoDup_cons in Hnd as [Hn1 Hnd]. apply NoDup_cons in Hnd as [Hn2 Hnd]. apply NoDup_cons in Hnd as [Hn3 _].
  assert (fl ≠ f_no g ∧ fr ≠ f_no g ∧ fl ≠ fr) as (Hne1 & Hne2 & Hne3).
  { split_and!; intros ->; [apply Hn2; left|apply Hn1; right; left|apply Hn1; left]. }
  assert (keeps (pool s) p5 (beside ctx g ++ beneath u)) as Hk5.
  { rewrite Ebe. apply (keeps_trans _ p2); [eapply keeps_sub; [exact Hk2|]; intros x Hx; by right|]. apply (keeps_trans _ p3); [|apply (keeps_trans _ p4)].
    - apply (wrote_keeps _ _ _ _ _ Hw3). intros Hx. apply Hn2. by right.
    - apply (wrote_keeps _ _ _ _ _ Hw4). intros Hx. apply Hn1. by do 2 right.
    - by apply (wrote_keeps _ _ _ _ _ Hw5). }
  pose proof (evolves_trans _ _ _ Hev2 (evolves_trans _ _ _ (wrote_ev _ _ _ _ Hw3) (evolves_trans _ _ _ (wrote_ev _ _ _ _ Hw4) (wrote_ev _ _ _ _ Hw5)))) as Hev.
  eapply (runs_set _ _ _ (unhinted p5 s)); [done|done|]. apply runs_ret; [apply Hw5|]. right. split; [done|].
  assert (beneath (new_left u mid fl fr) ++ beneath (right_part u mid fr) = beneath u) as Ebp.
  { unfold new_left. rewrite beneath_renumber. by apply (parts_beneath u mid k'). }
  destruct (parts_body u mid k' Hkey (pool s) fr fr Bu) as [B1 B2].
  eapply (pair_installed s _ ctx g tl tr k [new_left u mid fl fr; right_part u mid fr] [k'] pi); cbn [pool unhinted app]; try done.
  - intros x Hx. apply Hk5, elem_of_app. by left.
  - apply Forall_cons. split; [|apply Forall_singleton]; apply holds_split; (split; [|eapply (body_same (pool s)); [by apply evolves_limit| |]]).
    + unfold new_left at 1. rewrite no_of_renumber. exists li. split; [|done].
      rewrite (wrote_get _ _ _ _ Hw5), decide_False, (wrote_get _ _ _ _ Hw4), decide_False by done. by apply wrote_here in Hw3.
    + intros x Hx. apply Hk5. rewrite <-Ebp, !elem_of_app. auto.
    + unfold new_left. by rewrite body_renumber.
    + rewrite no_of_right. exists ri. split; [|done]. rewrite (wrote_get _ _ _ _ Hw5), decide_False by done. by apply wrote_here in Hw4.
    + intros x Hx. apply Hk5. rewrite <-Ebp, !elem_of_app. auto.
    + done.
  - by apply wrote_here in Hw5.
  - apply Forall_singleton. by apply (key_sep (pool s) u mid).
  - unfold new_left. cbn [fmap list_fmap]. rewrite no_of_renumber, no_of_right. apply Forall_cons. split; [|by apply Forall_singleton].
    eapply owned_u32; [exact Ho2|right; left].
  - apply (wrote_owned _ _ _ _ Hw5), (wrote_owned _ _ _ _ Hw4), (wrote_owned _ _ _ _ Hw3). cbn [flat_map]. rewrite app_nil_r, !owned_beneath, no_of_right.
    unfold new_left at 1. rewrite no_of_renumber. eapply owned_ok_perm; [|exact Ho2].
    rewrite <-Ebe, <-Ebp. solve_Permutation.
  - apply grown_ords; [done| |done|done]. unfold new_left. by rewrite ord_renumber.
  - apply grown_links; [done| |done]. unfold new_left. by rewrite links_renumber.
  - cbn [flat_map]. unfold new_left. rewrite app_nil_r, cells_renumber, <-Ecl. by apply (parts_cells u mid k').
  - cbn [flat_map]. rewrite app_nil_r, !owned_beneath, length_app. cbn [length].
    pose proof (f_equal length Ebp) as E1. pose proof (f_equal length Ebe) as E2. rewrite !length_app in *. lia.
Qed.
(** Both pages that may be written, one after the other. *)
Lemma writable_pair_ok s ctx g tl tr k : pair_pre s ctx g tl tr k →
  runs (let+ fl := writable_page (no_of tl) in let+ fr := writable_page (no_of tr) in ret (fl, fr)) s (λ '(fl, fr) s',
    ∃ p, s' = set_pool p s ∧ owned_ok p (fr :: fl :: below_pair ctx g tl tr) ∧ keeps (pool s) p (below_pair ctx g tl tr) ∧
      is_frozen p fl = false ∧ is_frozen p fr = false ∧ (∃ b, get p fl = Ok b) ∧ (∃ b, get p fr = Ok b)).
Proof using HPL.
  intros Hpp. pose proof (pair_owned_ok _ _ _ _ _ _ Hpp) as Ho.
  destruct (pair_holds _ _ _ _ _ _ Hpp) as (_ & _ & _ & Htl & Htr & _). pose proof (of_inv _ _ (pp_tree _ _ _ _ _ _ Hpp)) as Hinv.
  eapply runs_bind; [apply (writable_page_ok s tl); [apply Hinv|exact Ho|done]|].
  intros fl s1 (p1 & -> & Ho1 & Hk1 & Hf1 & [b1 Hg1]) Hev1. rewrite (Permutation_swap (no_of tr) fl) in Ho1.
  eapply runs_bind; [apply (writable_page_ok _ tr); [apply Hev1|exact Ho1|]|].
  { apply (holds_same (pool s)); [by apply evolves_limit| |done]. intros x Hx. apply Hk1. rewrite owned_beneath in Hx.
    apply elem_of_cons in Hx as [->|Hx]; [left|right]. unfold below_pair. rewrite !elem_of_app. auto. }
  intros fr s2 (p2 & -> & Ho2 & Hk2 & Hf2 & Hg2) Hev2. cbn [pool set_pool] in *. apply runs_ret; [apply Hev2|].
  destruct (Hk2 fl) as [E1 E2]; [left|]. exists p2. split; [done|]. split; [done|]. split.
  { apply (keeps_trans _ p1); (eapply keeps_sub; [eassumption|]); intros x Hx; by right. }
  rewrite E1, E2. eauto.
Qed.
Lemma runs_pair {A B C} (m : M P A) (m' : M P B) (k : A → B → M P C) s Q :
  runs (bind (let+ a := m in let+ b := m' in ret (a, b)) (λ '(a, b), k a b)) s Q → runs (let+ a := m in let+ b := m' in k a b) s Q.
Proof using.
  unfold runs, bind, ret. destruct (m s) as [s1 [[a|e]|]]; [|done|done]. by destruct (m' s1) as [s2 [[b|e]|]].
Qed.
(** From the two pages on: their new numbers told to the images and the parent. *)
Lemma cut_back_ok s ctx g tl tr k mid k' fl fr p2 li ri ns0 : pair_pre s ctx g tl tr k →
  let u := merged tl k tr in let n := length (f_l g) in key_between u mid = Some k' → may_cut u mid →
  page_at (left_part u mid (no_of tr)) li → page_at (right_part u mid (no_of tr)) ri →
  evolves (pool s) p2 → owned_ok p2 (fr :: fl :: below_pair ctx g tl tr) → keeps (pool s) p2 (below_pair ctx g tl tr) →
  is_frozen p2 fl = false → is_frozen p2 fr = false → (∃ b, get p2 fl = Ok b) → (∃ b, get p2 fr = Ok b) →
  length ns0 = length (grown_keys g k') → Forall sep_ok (grown_keys g k') → Forall (λ no, is_u32 no) ns0 →
  total (sizes (zip_with enc_interior (grown_keys g k') ns0)) ≤ USABLE →
  runs (let+ ids := sure (set_at (Z.of_nat n) fl (no_of <$> grown_children g tl tr)) in
        let+ ids := sure (set_at (Z.of_nat n + 1) fr ids) in
        let+ precs := sure (repoint (zip_with enc_interior (grown_keys g k') ns0) (drop 1 ids)) in
        let+ li := sure (put_at li 12 (le_bytes 4 fl)) in
        let+ li := sure (if bool_decide (page_kind tl = Leaf) && negb false then put_at li 20 (le_bytes 4 fr) else Some li) in
        let+ ri := sure (Some <$> put_at ri 12 (le_bytes 4 fr)) in
        let+ first := sure (ids !! 0%nat) in
        let+ pi := build tid Interior (f_no g) precs first in
        let+ _ := get_mut fl in
        let+ _ := get_mut fr in
        let+ _ := get_mut (f_no g) in
        ret tt ;;+ write fl li ;;+
        match ri with Some b => write fr b | None => ret tt end ;;+
        write (f_no g) pi ;;+ set_last_leaf None ;;+ ret (Some false)) (set_pool p2 s)
    (attempt s ctx g tl tr k false).
Proof using HPL.
  intros Hpp u n Hkey Hmay Pli Pri Hev2 Ho2 Hk2 Hf1 Hf2 [b1 Hg1] [b2 Hg2] El0 Hks Hus0 Hsz.
  destruct (pair_holds _ _ _ _ _ _ Hpp) as (_ & (b & Hg & _) & (Hlen & _ & Hus & _) & _).
  pose proof (inv_tid _ _ _ (of_inv _ _ (pp_tree _ _ _ _ _ _ Hpp))) as Htid. pose proof (pp_kind _ _ _ _ _ _ Hpp) as Hkd.
  assert (is_u32 fl ∧ is_u32 fr ∧ is_u32 (f_no g)) as (Hufl & Hufr & Hup).
  { split; [|split]; (eapply owned_u32; [exact Ho2|]); [right; left|left|rewrite below_beside; do 2 right; left]. }
  set (L := new_left u mid fl fr). set (R := right_part u mid fr). set (cs := grown_children g L R). set (ks := grown_keys g k') in *.
  assert (no_of L = fl ∧ no_of R = fr) as [EL ER] by (split; [apply no_of_renumber|apply no_of_right]).
  pose proof (set_left (f_l g) tl L (tr :: (f_r g).*2)) as E1. pose proof (set_right (f_l g) L tr R (f_r g).*2) as E2. rewrite EL in E1. rewrite ER in E2.
  eapply runs_read; [unfold sure, n, grown_children; by rewrite E1|]. eapply runs_read; [unfold sure, n; by rewrite E2|].
  change ((f_l g).*1 ++ L :: R :: (f_r g).*2) with cs. rewrite drop_1_tail.
  assert (length cs = S (length ks)) as Elc.
  { unfold cs, ks, grown_children, grown_keys. rewrite !length_app. cbn [length]. rewrite !length_fmap. lia. }
  eapply runs_read; [unfold sure; by rewrite (repoint_ok ks) by (done || by apply nos_length)|].
  destruct (left_moved u mid (no_of tr) fl fr li Pli Hufl Hufr) as (li' & li'' & P1 & P2 & Pl).
  assert (page_kind u = page_kind tl) as Eku by (by apply merged_kind). rewrite Eku in P2.
  eapply runs_read; [unfold sure; by rewrite P1|]. eapply runs_read; [unfold sure; by rewrite P2|].
  destruct (page_moved _ _ fr Pri Hufr) as (ri' & P3 & Pr). rewrite right_renumber in Pr.
  eapply runs_read; [unfold sure; by rewrite P3|].
  eapply runs_read; [unfold sure; rewrite head_lookup; [done|by destruct (f_l g) eqn:E; unfold cs, grown_children; rewrite E]|].
  assert (Forall (λ no, is_u32 no) (no_of <$> cs)) as Huc.
  { unfold cs, grown_children in *. rewrite !fmap_app, !fmap_cons, !Forall_app, !Forall_cons in *. rewrite EL, ER. naive_solver. }
  destruct (parent_built (f_no g) cs ks Htid Hup Elc Hks Huc) as (pi & Hpi & Ppi).
  { unfold recs_of. rewrite (total_zip ks _ ns0); [done|by apply nos_length|done]. }
  eapply runs_read; [unfold build, lift; unfold recs_of, link_of in Hpi; by rewrite Hpi|].
  assert (f_no g ∈ below_pair ctx g tl tr) as Hin by (rewrite below_beside; left).
  eapply runs_read; [by apply get_mut_ok|]. eapply runs_read; [by apply get_mut_ok|].
  eapply runs_read; [apply get_mut_ok; cbn [pool set_pool]; [rewrite (proj1 (Hk2 _ Hin)); exact Hg|rewrite (proj2 (Hk2 _ Hin)); apply Hpp]|].
  cbn iota beta. eapply put_cut_ok; [done| |exact Hkey|done]. split; try done. by exists p2.
Qed.
Lemma install_cut_ok s ctx g tl tr k lsn0 mid k' : pair_pre s ctx g tl tr k →
  let u := merged tl k tr in let n := length (f_l g) in key_between u mid = Some k' → may_cut u mid →
  total (sizes (recs_of (left_part u mid (no_of tr)))) ≤ USABLE → total (sizes (recs_of (right_part u mid (no_of tr)))) ≤ USABLE →
  runs (install_pair tid (page_kind tl) (f_no g) (Z.of_nat n) (no_of tl) (no_of tr) (link_of tl) (link_of tr) lsn0 false
          (Plan (<[n := enc_interior k' (no_of tr)]> (recs_of (pair_node g tl tr k))) (no_of <$> grown_children g tl tr)
             (recs_of (left_part u mid (no_of tr))) (recs_of (right_part u mid (no_of tr))) (link_of (right_part u mid (no_of tr))))) s
    (attempt s ctx g tl tr k false).
Proof using HPL.
  intros Hpp u n Hkey Hmay Hfl Hfr. pose proof (pp_kind _ _ _ _ _ _ Hpp) as Hkd.
  destruct (pair_holds _ _ _ _ _ _ Hpp) as (_ & (b & Hg & _) & (Hlen & Hks & Hus & _) & Htl & _).
  destruct (pair_merged _ _ _ _ _ _ Hpp) as (Bu & Hlu & _ & _ & _ & Lu & Hu1 & Hu2). fold u in Bu, Hlu, Lu.
  pose proof (pair_owned_ok _ _ _ _ _ _ Hpp) as Ho. pose proof (of_inv _ _ (pp_tree _ _ _ _ _ _ Hpp)) as Hinv.
  pose proof (inv_tid _ _ _ Hinv) as Htid. unfold install_pair. cbn [pl_ids pl_recs pl_left pl_right pl_link]. cbv zeta.
  assert (no_of <$> grown_children g tl tr ≠ []) as Hne by (by destruct (f_l g) eqn:E; unfold grown_children; rewrite E).
  eapply runs_read; [unfold sure; by rewrite head_lookup|].
  set (ks := grown_keys g k'). set (ns0 := <[n := no_of tr]> (tail (no_of <$> grown_children g tl tr))).
  assert (<[n := enc_interior k' (no_of tr)]> (recs_of (pair_node g tl tr k)) = zip_with enc_interior ks ns0) as ->.
  { unfold pair_node, recs_of, ks, ns0. rewrite insert_zip_with. unfold n. by rewrite cut_keys. }
  pose proof (key_sep _ _ _ _ Bu Hkey) as Hsk. pose proof (body_shaped _ _ Bu) as Hsh.
  assert (Forall sep_ok ks) as Hks0 by (unfold ks; rewrite <-(cut_keys g k k'); by apply Forall_insert).
  assert (Forall (λ no, is_u32 no) ns0) as Hus0 by (apply Forall_insert; [by apply Forall_tail|done]).
  assert (length ns0 = length ks) as El0.
  { unfold ns0, ks. rewrite <-(cut_keys g k k'), !length_insert. by apply nos_length. }
  assert (is_u32 (f_no g)) as Hup by (eapply owned_u32; [exact Ho|]; rewrite below_beside; right; right; left).
  apply trial_ok; [apply Hinv|done|done|by apply first_u32|done|done|by left|]. intros Hsz.
  assert (no_of tr ≠ 0) as Hr0 by (destruct Ho as [_ Ha]; apply Forall_cons in Ha as [_ Ha]; apply Forall_cons in Ha as [(? & _) _]; lia).
  destruct (parts_links u mid k' Hkey _ (no_of tr) (no_of tr) Lu Hsh Hr0 Hu2) as [L1 L2].
  destruct (parts_body u mid k' Hkey (pool s) (no_of tr) (no_of tr) Bu) as [B1 B2].
  destruct (left_part_page u mid k' Hkey (no_of tr) Hsh) as (_ & En1 & Ek1 & El1).
  destruct (right_part_page u mid k' Hkey (no_of tr) Hsh) as (_ & En2 & Ek2 & _).
  unfold u in En1, Ek1, Ek2. rewrite merged_no in En1 by done. rewrite merged_kind in Ek1, Ek2 by done. fold u in En1, Ek1, Ek2.
  destruct (page_built (pool s) (left_part u mid (no_of tr)) Htid) as (li & Hli & Pli); [by rewrite En1|by eapply link_u32|done|done|].
  destruct (page_built (pool s) (right_part u mid (no_of tr)) Htid) as (ri & Hri & Pri); [by rewrite En2|by eapply link_u32|done|done|].
  rewrite En1, Ek1 in Hli. rewrite En2, Ek2 in Hri.
  assert ((if negb (bool_decide (page_kind tl = Leaf)) then link_of tl else no_of tr) = link_of (left_part u mid (no_of tr))) as ->.
  { rewrite El1. unfold u. pose proof (merged_link (pool s) tl k tr Hkd) as Hml. apply holds_split in Htl as [_ Bl].
    specialize (Hml Bl). destruct tl, tr; done. }
  eapply runs_read; [unfold build, lift; by rewrite Hli|]. eapply runs_read; [erewrite bind_ok by (unfold build, lift; by rewrite Hri); done|].
  apply runs_pair. eapply runs_bind; [by eapply writable_pair_ok|].
  intros [fl fr] s2 (p2 & -> & Ho2 & Hk2 & Hf1 & Hf2 & [b1 Hg1] & [b2 Hg2]) Hev2. cbn [pool set_pool] in *.
  apply (cut_back_ok s ctx g tl tr k mid k'); try done; eauto.
Qed.
End install.
End TreeInstall.
