(* ===== verification/TreeDelete.v ===== *)
(** * Deleting ([delete] and [rebalance_after_delete] of [core/kernel/src/btree.rs])

    Attempts on the pairs around an underfull node, the loop that goes up the path,
    and deletion as a whole: what is left are the entries without the key's. *)
From S2P Require Import Prelude Crc Page Cells Order Node Interior Pool Tree BTree TreeRep TreeRead TreeWrite TreeSplit TreeSpill TreeInsert TreeThree TreeOps BTreeDelete TreePair TreeEven TreeInstall.
Import Page Cells Order Node Interior Tree BTree TreeRep TreeRead TreeWrite TreeSplit TreeSpill TreeInsert TreeThree TreeOps BTreeDelete TreePair TreeEven TreeInstall.

Module TreeDelete.

(** Two neighbours among the children, and the separator between them. *)
Lemma split_pair no cs ks (i : nat) : length cs = S (length ks) → (S i < length cs)%nat →
  ∃ g tl tr k, cs = grown_children g tl tr ∧ ks = grown_keys g k ∧ length (f_l g) = i ∧ f_no g = no.
Proof.
  intros Hl Hi. destruct (split_children cs ks i Hl) as (l & tl & r & -> & -> & E); [lia|].
  destruct r as [|[k tr] r].
  - rewrite !length_app, !length_fmap in *. cbn in Hi. lia.
  - by exists (Frame no l r), tl, tr, k.
Qed.

(** ** What a deletion means *)
Definition remove (key : bytes) (l : list (bytes * bytes)) : list (bytes * bytes) := filter (λ kv, kv.1 ≠ key) l.
Lemma remove_absent key cs : Forall (λ c, c_key c ≠ key) cs → remove key (entries cs) = entries cs.
Proof.
  induction 1 as [|c cs Hc Hcs IH]; [done|]. unfold remove, entries in *. csimpl. rewrite filter_cons_True by done. by rewrite IH.
Qed.
Lemma remove_app key l1 l2 : remove key (l1 ++ l2) = remove key l1 ++ remove key l2.
Proof. apply filter_app. Qed.
Lemma remove_here key c cs : c_key c = key → remove key (entries (c :: cs)) = remove key (entries cs).
Proof. intros Hk. unfold remove, entries. csimpl. by rewrite filter_cons_False by (cbn; tauto). Qed.
Lemma assoc_remove key k l : assoc k (remove key l) = if bool_decide (key = k) then None else assoc k l.
Proof.
  induction l as [|[k' v'] l IH]; [by case_bool_decide|]. unfold remove in *. destruct (decide (k' = key)) as [->|Hne].
  - rewrite filter_cons_False by (cbn; tauto). rewrite IH. cbn [assoc]. by case_bool_decide.
  - rewrite filter_cons_True by done. cbn [assoc]. rewrite IH. do 2 case_bool_decide; congruence.
Qed.
Lemma keys_differ (cs : list cell) key : Forall (λ c, c_key c ≺ key) cs ∨ Forall (λ c, key ≺ c_key c) cs → Forall (λ c, c_key c ≠ key) cs.
Proof. intros [H|H]; (eapply Forall_impl; [exact H|]); cbn; intros c Hc Heq; rewrite Heq in Hc; order. Qed.

Section delete.
Context `{HC : Crc32c} `{HL : !Crc32cLaws} {P : Type} `{HP : PagePool P} `{HPL : !PagePoolLaws P}.
Context {tid : TreeId}.
Implicit Types (p : P) (s : BTree P) (t : tree) (O R : list Z).

(** ** One attempt *)
Lemma open_node_ok s t : holds (pool s) t → ∃ b, get (pool s) (no_of t) = Ok b ∧ open_cached (no_of t) s = (s, Some (Ok b)) ∧
  tree_id b = tid ∧ kind b = Some (page_kind t) ∧ slots b = Some (recs_of t) ∧ next_leaf b = link_of t ∧
  nentries b = Z.of_nat (length (recs_of t)).
Proof using.
  intros Hh. apply holds_split in Hh as [(b & Hg & Hp) _]. apply page_node in Hp as Hn. exists b.
  destruct (open_cached_ok (pool s) (no_of t) _ _ _ s eq_refl (ex_intro _ b (conj Hg Hn))) as (b' & Hg' & _ & Hop).
  rewrite Hg in Hg'. injection Hg' as <-. split; [done|]. split; [done|]. split; [apply Hn|]. split; [apply Hn|].
  split; [by eapply node_slots|]. split; [apply Hn|by eapply node_count].
Qed.
Definition tried s ctx no cs (mo : bool) (ks : list bytes) (r : option bool) s' : Prop :=
  (r = None ∧ s' = s) ∨ ∃ cs' ks', r = Some mo ∧ tree_of s' (plug ctx (TNode no cs' ks')) ∧
    flat_map cells cs' = flat_map cells cs ∧
    (length (owned (TNode no cs' ks')) ≤ length (owned (TNode no cs ks)))%nat ∧ writable (pool s') (f_no <$> ctx).
Lemma plan_pair_link kd precs ids start rno l l' all merge : kd ≠ Leaf →
  plan_pair kd precs ids start rno l all merge = plan_pair kd precs ids start rno l' all merge.
Proof using. intros Hk. unfold plan_pair. by rewrite !(bool_decide_false (kd = Leaf)) by done. Qed.
Lemma down_ok s ctx g tl tr k : pair_pre s ctx g tl tr k →
  (if bool_decide (page_kind tl = Interior) then let+ sep := key_at (recs_of (pair_node g tl tr k)) (Z.of_nat (length (f_l g))) in ret [enc_interior sep (link_of tr)]
   else ret []) s = (s, Some (Ok (down tl k tr))).
Proof using.
  intros Hpp. destruct (pair_holds _ _ _ _ _ _ Hpp) as (_ & _ & (Hlen & Hks & Hus & _) & _). unfold down.
  destruct tl as [|no cs ks]; cbn [page_kind]; [done|]. rewrite bool_decide_true by done.
  assert (grown_keys g k !! length (f_l g) = Some k) as Hk.
  { unfold grown_keys. rewrite lookup_app_r by (rewrite length_fmap; lia). by rewrite length_fmap, Nat.sub_diag. }
  destruct (lookup_lt_is_Some_2 (tail (no_of <$> grown_children g (TNode no cs ks) tr)) (length (f_l g))) as [x Hx].
  { rewrite (nos_length _ (grown_keys g k)) by done. by apply lookup_lt_Some in Hk. }
  assert (recs_of (pair_node g (TNode no cs ks) tr k) !! length (f_l g) = Some (enc_interior k x)) as Hr.
  { unfold recs_of, pair_node. by rewrite lookup_zip_with, Hk, Hx. }
  erewrite bind_ok; [done|]. unfold key_at. erewrite bind_ok by (unfold sure; by rewrite Nat2Z.id, Hr). unfold sure.
  rewrite (proj1 (enc_interior_read k x (Forall_lookup_1 _ _ _ _ Hks Hk) (Forall_lookup_1 _ _ _ _ (Forall_tail _ _ Hus) Hx))). done.
Qed.
Lemma try_pair_ok s ctx no cs ks kd mo (i : nat) : tree_of s (plug ctx (TNode no cs ks)) → is_frozen (pool s) no = false →
  writable (pool s) (f_no <$> ctx) → (S i < length cs)%nat →
  runs (try_pair tid kd no (recs_of (TNode no cs ks)) (no_of <$> cs) mo (Z.of_nat i)) s (tried s ctx no cs mo ks).
Proof using HPL.
  intros Ht Hf Hw Hi. destruct (inv_unplug _ _ _ _ (of_inv _ _ Ht)) as (_ & Hh & _).
  pose proof (proj2 (proj1 (holds_split _ _) Hh)) as (Hlen & _).
  destruct (split_pair no cs ks i Hlen Hi) as (g & tl & tr & k & -> & -> & <- & <-). fold (pair_node g tl tr k) in *.
  pose proof Hh as [_ Hall]%holds_node. unfold holds_all, grown_children in Hall. apply Forall_app in Hall as [_ Hall].
  apply Forall_cons in Hall as [Htl [Htr _]%Forall_cons].
  assert (∀ r, r = None → runs (ret r) s (tried s ctx (f_no g) (grown_children g tl tr) mo (grown_keys g k))) as Hnone.
  { intros r ->. apply runs_ret; [apply Ht|by left]. }
  assert (length (f_l g) = length (no_of <$> (f_l g).*1)) as El by (by rewrite !length_fmap).
  assert ((no_of <$> grown_children g tl tr) = (no_of <$> (f_l g).*1) ++ no_of tl :: no_of tr :: (no_of <$> (f_r g).*2)) as Eids.
  { unfold grown_children. by rewrite fmap_app. }
  unfold try_pair. replace (Z.of_nat (length (f_l g)) + 1) with (Z.of_nat (S (length (f_l g)))) by lia. rewrite !Nat2Z.id.
  eapply runs_read; [unfold sure; by rewrite Eids, El, list_lookup_middle|].
  eapply runs_read; [unfold sure; rewrite Eids, lookup_app_r by lia; by replace (S (length (f_l g)) - length (no_of <$> (f_l g).*1))%nat with 1%nat by lia|].
  destruct (open_node_ok s tl Htl) as (lb & _ & Hol & Etl & Ekl & Esl & Ell & _). destruct (open_node_ok s tr Htr) as (rb & _ & Hor & Etr & Ekr & Esr & Elr & _).
  eapply runs_read; [exact Hol|]. rewrite Etl, Z.eqb_refl, Ekl. cbn [negb].
  destruct (decide (page_kind tl = kd)) as [<-|Hne]; [rewrite bool_decide_true by done|rewrite bool_decide_false by congruence; by apply Hnone].
  cbn [negb]. eapply runs_read; [unfold sure; by rewrite Esl|].
  eapply runs_read; [exact Hor|]. rewrite Etr, Z.eqb_refl, Ekr. cbn [negb].
  destruct (decide (page_kind tl = page_kind tr)) as [Hkd|Hne]; [rewrite (bool_decide_true (Some _ = Some _)) by congruence|
    rewrite (bool_decide_false (Some _ = Some _)) by congruence; by apply Hnone]. cbn [negb].
  assert (pair_pre s ctx g tl tr k) as Hpp by done.
  change (child0 rb) with (next_leaf rb). rewrite Elr, Ell. eapply runs_read; [by eapply down_ok|].
  eapply runs_read; [unfold sure; by rewrite Esr|]. cbv zeta.
  destruct (pair_merged _ _ _ _ _ _ Hpp) as (Bu & _ & _ & Ecl & _).
  rewrite <-(merged_recs (pool s)) by (done || by apply holds_split). set (u := merged tl k tr) in *.
  destruct (eqb mo (total (sizes (recs_of u)) <=? USABLE)) eqn:Em; [|by apply Hnone]. apply eqb_prop in Em. rewrite <-Em. cbn [negb].
  assert (plan_pair (page_kind tl) (recs_of (pair_node g tl tr k)) (no_of <$> grown_children g tl tr) (Z.of_nat (length (f_l g))) (no_of tr) (link_of tr) (recs_of u) mo =
    plan_pair (page_kind u) (recs_of (pair_node g tl tr k)) (no_of <$> grown_children g tl tr) (Z.of_nat (length (f_l g))) (no_of tr) (link_of u) (recs_of u) mo) as ->.
  { unfold u. rewrite merged_kind by done. destruct tl, tr; try done. }
  destruct (plan_pair_ok (pool s) u (recs_of (pair_node g tl tr k)) (no_of <$> grown_children g tl tr) (length (f_l g)) (no_of tr) mo Bu) as (pl & Hpl & Hspec).
  { unfold recs_of, pair_node. rewrite length_zip_with, (nos_length _ (grown_keys g k)) by done. unfold grown_keys. rewrite length_app, length_fmap. cbn. lia. }
  { rewrite length_fmap. done. }
  eapply runs_read; [unfold sure; by rewrite Hpl|].
  assert (∀ m, runs m s (attempt s ctx g tl tr k mo) → runs m s (tried s ctx (f_no g) (grown_children g tl tr) mo (grown_keys g k))) as Hdone.
  { intros m Hm. eapply runs_mono; [exact Hm|]. intros r s' [?|(-> & cs' & ks' & H1 & H2 & H3 & H4)] _; [by left|]. right. by exists cs', ks'. }
  destruct Hspec as [|Emo|mid k' Emo Hkey Hmay H1 H2]; [by apply Hnone| |].
  - rewrite Emo in Em. symmetry in Em. apply Z.leb_le in Em. subst mo. apply Hdone. by apply install_merge_ok.
  - clear Em. subst mo. apply Hdone. by apply install_cut_ok.
Qed.
Lemma try_pairs_ok s ctx no cs ks kd mo (starts : list nat) : tree_of s (plug ctx (TNode no cs ks)) → is_frozen (pool s) no = false →
  writable (pool s) (f_no <$> ctx) → Forall (λ i, S i < length cs)%nat starts →
  runs (try_pairs tid kd no (recs_of (TNode no cs ks)) (no_of <$> cs) mo (Z.of_nat <$> starts)) s (tried s ctx no cs mo ks).
Proof using HPL.
  intros Ht Hf Hw. induction 1 as [|i starts Hi _ IH]; cbn [fmap list_fmap try_pairs]; [apply runs_ret; [apply Ht|by left]|].
  eapply runs_bind; [by apply try_pair_ok|]. intros r s' [[-> ->]|(cs' & ks' & -> & Ht' & Hr)] Hev; [exact IH|].
  apply runs_ret; [apply Ht'|]. right. by exists cs', ks'.
Qed.

(** ** The parent's children *)
Lemma children_at_ok s b nos : (∀ i x, nos !! i = Some x → child_at (page_count (pool s)) b (Z.of_nat i) = Some (Ok x)) →
  ∀ l (i : nat), drop i nos = l → children_at b (seqZ (Z.of_nat i) (Z.of_nat (length l))) s = (s, Some (Ok l)).
Proof using.
  intros Hc l. induction l as [|x l IH]; intros i Hd; [done|]. cbn [length]. rewrite seqZ_cons by lia. cbn [children_at].
  assert (nos !! i = Some x) as Hx by (rewrite <-(Nat.add_0_r i), <-lookup_drop, Hd; done).
  erewrite bind_ok by done. erewrite bind_ok by (unfold lift; rewrite (Hc i x Hx); done).
  replace (Z.succ (Z.of_nat i)) with (Z.of_nat (S i)) by lia. replace (Z.pred (Z.of_nat (S (length l)))) with (Z.of_nat (length l)) by lia.
  erewrite bind_ok; [done|]. apply IH. rewrite (drop_S _ _ _ Hx) in Hd. by injection Hd.
Qed.
Lemma position_ok x l1 l2 : ∀ i, x ∉ l1 → position x (l1 ++ x :: l2) i = Some (i + Z.of_nat (length l1)).
Proof using.
  induction l1 as [|y l1 IH]; intros i Hx; cbn [app position length].
  - rewrite Z.eqb_refl. f_equal. lia.
  - apply not_elem_of_cons in Hx as [Hne Hx]. rewrite (proj2 (Z.eqb_neq y x)) by congruence. rewrite IH by done. f_equal. lia.
Qed.
Definition starts_of (n len : nat) : list nat := (if decide (0 < n)%nat then [pred n] else []) ++ (if decide (S n < len)%nat then [n] else []).
Lemma starts_ok n len : (n < len)%nat →
  (if 0 <? Z.of_nat n then [Z.of_nat n - 1] else []) ++ (if Z.of_nat n + 1 <? Z.of_nat len then [Z.of_nat n] else []) = Z.of_nat <$> starts_of n len ∧
  Forall (λ i, S i < len)%nat (starts_of n len).
Proof using.
  intros Hn. unfold starts_of. split.
  - rewrite fmap_app. f_equal.
    + destruct (Z.ltb_spec 0 (Z.of_nat n)); [rewrite decide_True by lia; cbn; f_equal; lia|by rewrite decide_False by lia].
    + destruct (Z.ltb_spec (Z.of_nat n + 1) (Z.of_nat len)); [by rewrite decide_True by lia|by rewrite decide_False by lia].
  - apply Forall_app. split; (destruct (decide _); [|constructor]); apply Forall_singleton; lia.
Qed.
(** What a round reads of the parent. *)
Lemma parent_ok s ctx f t : tree_of s (plug (f :: ctx) t) →
  let N := plug1 f t in let cs := (f_l f).*1 ++ t :: (f_r f).*2 in ∃ b,
  open_cached (f_no f) s = (s, Some (Ok b)) ∧ tree_id b = tid ∧ kind b = Some Interior ∧ slots b = Some (recs_of N) ∧
  children_at b (seqZ 0 (nentries b + 1)) s = (s, Some (Ok (no_of <$> cs))) ∧
  position (no_of t) (no_of <$> cs) 0 = Some (Z.of_nat (length (f_l f))) ∧ length cs = (length (f_l f) + S (length (f_r f)))%nat.
Proof using.
  intros Ht N cs. pose proof (of_inv _ _ Ht) as Hi. cbn [plug] in Hi. destruct (inv_unplug _ _ _ _ Hi) as (_ & Hh & Ho & _).
  destruct (open_node_ok s N Hh) as (b & Hg & Hop & Htr & Hk & Hsl & _). exists b. split; [done|]. split; [done|]. split; [done|]. split; [done|].
  apply holds_plug1 in Hh as [Hf _]. destruct (frame_open s f _ Hf) as (b' & Hop' & _ & _ & Hne & Hch).
  change (no_of N) with (f_no f) in Hop. rewrite Hop in Hop'. injection Hop' as <-.
  assert ((no_of <$> cs) = (no_of <$> (f_l f).*1) ++ no_of t :: (no_of <$> (f_r f).*2)) as Eids by (unfold cs; by rewrite fmap_app).
  assert (length cs = (length (f_l f) + S (length (f_r f)))%nat) as Elen by (unfold cs; rewrite length_app; cbn; by rewrite !length_fmap).
  rewrite app_nil_r in Ho. apply owned_ok_app in Ho as [_ Ho].
  assert (∀ c, c ∈ cs → no_of c ∈ flat_map owned cs) as Hown.
  { intros c Hc. apply elem_of_flat_map. exists c. split; [done|apply no_in_owned]. }
  split; [|split; [|done]].
  - replace (nentries b + 1) with (Z.of_nat (length (no_of <$> cs))) by (rewrite length_fmap; lia). change 0 with (Z.of_nat 0).
    apply (children_at_ok s b (no_of <$> cs)); [|done]. intros i x Hx. apply Hch; [by rewrite <-Eids|].
    rewrite list_lookup_fmap in Hx. destruct (cs !! i) as [c|] eqn:Ec; [|done]. injection Hx as <-.
    destruct Ho as [_ Ho]. rewrite Forall_forall in Ho. apply Ho. right. apply Hown. by eapply list_elem_of_lookup_2.
  - rewrite Eids. rewrite position_ok; [f_equal; by rewrite !length_fmap|].
    intros Hin. apply list_elem_of_fmap in Hin as (c & Ec & Hc). destruct Ho as [Hnd _]. cbn [N plug1 owned] in Hnd.
    apply NoDup_cons in Hnd as [_ Hnd]. rewrite flat_map_app in Hnd. apply NoDup_app in Hnd as (_ & Hnd & _).
    apply (Hnd (no_of t)).
    + apply elem_of_flat_map. exists c. split; [done|]. rewrite Ec. apply no_in_owned.
    + cbn [flat_map]. apply elem_of_app. left. apply no_in_owned.
Qed.
(** A node that hangs below another is not the root. *)
Lemma below_root s f ctx t R : inv s (plug (f :: ctx) t) R → no_of t ≠ root s.
Proof using.
  intros Hi Hr. destruct (inv_unplug _ _ _ _ Hi) as (_ & _ & Ho & _). rewrite <-(inv_root _ _ _ Hi) in Hr.
  destruct Ho as [Hnd _]. apply NoDup_app in Hnd as (_ & Hnd & _). apply (Hnd (no_of t)).
  - rewrite Hr. apply elem_of_flat_map. clear. revert f t. induction ctx as [|g ctx IH]; intros f t.
    + exists f. split; [left|]. left.
    + destruct (IH g (plug1 f t)) as (h & Hh & Hin). exists h. split; [by right|exact Hin].
  - apply elem_of_app. left. apply no_in_owned.
Qed.

(** ** The way up *)
Definition same_cells (T : tree) s' : Prop := ∃ T', tree_of s' T' ∧ cells T' = cells T.
Lemma page_is_node b t : kind b = Some (page_kind t) → is_node b = true.
Proof using. intros Hk. unfold is_node. rewrite Hk. by destruct t. Qed.
(** The root taken off. *)
Lemma collapse_ok s no c birth (k : M P unit) : tree_of s (TNode no [c] []) →
  (∀ s', tree_of s' c → last_leaf s' = None → runs k s' (λ _ s', same_cells c s')) →
  runs (retire no birth ;;+ set_root (no_of c) ;;+ set_last_leaf None ;;+ k) s (λ _ s', same_cells (TNode no [c] []) s').
Proof using HPL.
  intros [Hi Hl _] Hk. pose proof (inv_all _ _ _ Hi) as Ho. cbn [owned flat_map app] in Ho. rewrite !app_nil_r in Ho.
  apply (runs_retire _ _ _ _ (owned c)); [apply Hi|exact Ho|]. intros p' Hev Ho' Hs.
  eapply runs_set; [done|done|]. eapply runs_set; [done|done|]. eapply runs_mono; [apply Hk|].
  - split; [|exact Hl|done]. split; [apply Hev|apply Hi| | |exact (inv_ord _ _ _ Hi)|done].
    + pose proof (inv_holds _ _ _ Hi) as [_ Hc]%holds_node. apply Forall_cons in Hc as [Hc _].
      apply (holds_same (pool s)); [by apply evolves_limit| |done]. intros x _. apply Hs.
    + by rewrite app_nil_r.
  - done.
  - intros _ s' (T & HT & Ec) _. exists T. split; [done|]. rewrite Ec. cbn [cells flat_map]. by rewrite app_nil_r.
Qed.
Lemma rebalance_loop_ok fuel : ∀ ctx t s, tree_of s (plug ctx t) → writable (pool s) (f_no <$> ctx) →
  (length ctx + length (owned (plug ctx t)) < fuel)%nat →
  runs (rebalance_loop tid fuel (no_of t) (f_no <$> ctx)) s (λ _ s', same_cells (plug ctx t) s').
Proof using HPL.
  induction fuel as [|fuel IH]; intros ctx t s Ht Hw Hf; [lia|]. cbn [rebalance_loop].
  pose proof (of_inv _ _ Ht) as Hi. destruct (inv_unplug _ _ _ _ Hi) as (_ & Hh & _).
  destruct (open_node_ok s t Hh) as (b & _ & Hop & Htr & Hk & Hsl & Hlk & Hne).
  assert (∀ m, m s = (s, Some (Ok tt)) → runs m s (λ _ s', same_cells (plug ctx t) s')) as Hstop.
  { intros m Hm. unfold runs. rewrite Hm. split; [by eexists|]. apply evolves_refl, Hi. }
  eapply runs_read; [exact Hop|]. rewrite Htr, Z.eqb_refl, (page_is_node _ _ Hk). cbn [negb orb].
  eapply runs_read; [unfold sure; by rewrite Hsl|]. eapply runs_read; [done|].
  destruct ctx as [|f ctx].
  - cbn [plug] in *. rewrite (inv_root _ _ _ Hi), Z.eqb_refl, <-(inv_root _ _ _ Hi).
    destruct (bool_decide (kind b = Some Interior) && (nentries b =? 0)) eqn:E; [|by apply Hstop].
    apply andb_true_iff in E as [Ek%bool_decide_eq_true En%Z.eqb_eq]. rewrite Hk in Ek. destruct t as [|no cs ks]; [done|].
    pose proof (proj2 (proj1 (holds_split _ _) Hh)) as (Hlen & _). rewrite Hne in En. unfold recs_of in En.
    rewrite length_zip_with, (nos_length _ ks) in En by done. destruct ks; [|cbn in En; lia]. destruct cs as [|c [|? ?]]; try done.
    pose proof Hh as [_ [Hc _]%Forall_cons]%holds_node. change (child0 b) with (next_leaf b). rewrite Hlk.
    change (link_of (TNode no [c] [])) with (no_of c).
    destruct (open_node_ok s c Hc) as (b' & _ & Hop' & Htr' & Hk' & _). eapply runs_read; [exact Hop'|].
    rewrite Htr', Z.eqb_refl, (page_is_node _ _ Hk'). cbn [negb orb]. eapply runs_read; [done|].
    apply collapse_ok; [done|]. intros s' Ht' _. apply (IH [] c); [done|constructor|]. cbn in Hf |- *. rewrite length_app in Hf. cbn in Hf. lia.
  - rewrite (proj2 (Z.eqb_neq _ _)) by (by eapply below_root). destruct (USABLE / 3 <=? _); [by apply Hstop|].
    destruct (parent_ok s ctx f t Ht) as (p & Hopp & Htp & Hkp & Hslp & Hids & Hpos & Elen).
    cbn [fmap list_fmap]. eapply runs_read; [exact Hopp|]. rewrite Htp, Z.eqb_refl, bool_decide_true by done. cbn [negb orb].
    eapply runs_read; [unfold sure; by rewrite Hslp|]. eapply runs_read; [exact Hids|].
    eapply runs_read; [unfold lift; by rewrite Hpos|]. apply Forall_cons in Hw as [Hwf Hw]. cbn [length] in Hf.
    set (cs := (f_l f).*1 ++ t :: (f_r f).*2) in *. set (ks := (f_l f).*2 ++ (f_r f).*1).
    change (plug (f :: ctx) t) with (plug ctx (TNode (f_no f) cs ks)) in *. change (recs_of (plug1 f t)) with (recs_of (TNode (f_no f) cs ks)).
    destruct (blen (no_of <$> cs) =? 1); [apply (IH ctx (TNode (f_no f) cs ks)); [done|done|lia]|]. cbv zeta.
    destruct (starts_ok (length (f_l f)) (length cs)) as [Est Hst]; [lia|].
    assert (blen (no_of <$> cs) = Z.of_nat (length cs)) as -> by (unfold blen; by rewrite length_fmap). rewrite Est.
    eapply runs_read; [unfold sure; by rewrite Hk|]. set (ps := starts_of (length (f_l f)) (length cs)) in *.
    assert (∀ mo r s', tried s ctx (f_no f) cs mo ks r s' → evolves (pool s) (pool s') → r ≠ None →
      runs (match r with Some true => rebalance_loop tid fuel (f_no f) (f_no <$> ctx) | _ => ret tt end) s' (λ _ s', same_cells (plug ctx (TNode (f_no f) cs ks)) s')) as Hend.
    { intros mo r s' [[-> _]|(cs' & ks' & -> & Ht' & Ec & Hlen & Hw')] _ Hr; [done|].
      assert (cells (plug ctx (TNode (f_no f) cs' ks')) = cells (plug ctx (TNode (f_no f) cs ks))) as Ecells.
      { rewrite !cells_plug. cbn [cells]. by rewrite Ec. }
      destruct mo.
      - eapply runs_mono; [apply (IH ctx (TNode (f_no f) cs' ks')); [done|done|]|].
        + rewrite !(Permutation_length (owned_plug ctx _)), !length_app in *. lia.
        + intros _ s2 (T & HT & E) _. exists T. split; [done|]. congruence.
      - apply runs_ret; [apply Ht'|]. by exists (plug ctx (TNode (f_no f) cs' ks')). }
    eapply runs_bind; [by apply (try_pairs_ok s ctx (f_no f) cs ks (page_kind t) true)|]. intros r s' Hr Hev.
    destruct Hr as [[-> ->]|Hr].
    + eapply runs_bind; [by apply (try_pairs_ok s ctx (f_no f) cs ks (page_kind t) false)|]. intros r s' Hr Hev'.
      destruct r as [m|]; [by apply (Hend false (Some m))|]. destruct Hr as [[_ ->]|(? & ? & ? & _)]; [by apply Hstop|done].
    + assert (tried s ctx (f_no f) cs true ks r s') as Hr' by (by right). destruct Hr as (cs' & ks' & -> & _).
      eapply runs_read; [done|]. by eapply (Hend true (Some true)).
Qed.
Lemma rebalance_ok ctx t s : tree_of s (plug ctx t) → writable (pool s) (f_no <$> ctx) →
  runs (rebalance_after_delete tid (no_of t) (f_no <$> ctx)) s (λ _ s', same_cells (plug ctx t) s').
Proof using HPL.
  intros Ht Hw. pose proof (inv_view _ _ _ (of_inv _ _ Ht)) as Hv. pose proof (path_fuel _ _ _ Hv) as Hp.
  pose proof (distinct_pages _ _ (view_nodup _ _ Hv) (view_range _ _ Hv)) as Hd.
  unfold rebalance_after_delete. eapply runs_read; [apply levels_ok|]. apply rebalance_loop_ok; [done|done|lia].
Qed.

(** ** Deletion *)
(** The leaf without the record, its chain given back. *)
Lemma take_record_ok s ctx no next cs i c b l : tree_of s (plug ctx (TLeaf no next cs)) → cs !! i = Some c → l.*1 = c_chain c →
  is_frozen (pool s) no = false → get (pool s) no = Ok b →
  runs (let+ b := sure (remove_slot b (Z.of_nat i)) in write no (finalise b 0) ;;+ retire_all l) s (λ _ s',
    tree_of s' (plug ctx (TLeaf no next (delete i cs))) ∧ ∀ x, is_frozen (pool s') x = is_frozen (pool s) x).
Proof using HPL.
  intros [Hi Hl Hh] Hc El Hf Hg. destruct (inv_unplug _ _ _ _ Hi) as (_ & [(b' & Hg' & Hn) Hcs] & _ & _ & [Hs Hw]).
  rewrite Hg in Hg'. injection Hg' as <-. pose proof (lookup_lt_Some _ _ _ Hc) as Hlt.
  destruct (node_remove _ _ _ _ _ _ i Hn) as (b1 & Hrm & Hn1); [by rewrite length_fmap|]. destruct (node_finalise _ _ _ _ _ _ 0 Hn1) as [Hn2 _].
  assert (delete i (c_rec <$> cs) = c_rec <$> delete i cs) as Ed by (by rewrite !delete_take_drop, fmap_app, fmap_take, fmap_drop).
  rewrite Ed in Hn2. eapply runs_read; [unfold sure; by rewrite Hrm|].
  assert (sorted (c_key <$> delete i cs)) as Hs'.
  { rewrite delete_take_drop, fmap_app. rewrite <-(take_drop_middle _ _ _ Hc), fmap_app, fmap_cons in Hs.
    apply sorted_app in Hs as (S1 & S2 & Hlt'). apply StronglySorted_inv in S2 as [S2 _]. apply sorted_app. split_and!; [done|done|].
    intros x y Hx Hy. apply Hlt'; [done|by right]. }
  eapply (leaf_write_ok _ s ctx no next cs [] (finalise b1 0) (delete i cs) (c_chain c)); [done|done|exact Hn2|by apply Forall_delete|done|by apply Forall_delete| |].
  { rewrite app_nil_r, delete_take_drop, flat_map_app. rewrite <-(flat_map_cut c_chain cs i), (drop_S _ _ _ Hc). cbn [flat_map]. solve_Permutation. }
  intros p1 Hw1 Hi1 _. pose proof (inv_all _ _ _ Hi1) as Ho1. cbn [pool set_pool] in *.
  eapply runs_mono; [apply (retire_all_ok _ _ (owned (plug ctx (TLeaf no next (delete i cs))))); [apply (wrote_ev _ _ _ _ Hw1)|by rewrite El, Permutation_app_comm]|].
  intros [] s2 (p2 & -> & Ho2 & Hk2 & Hf2) Hev2. cbn [pool set_pool] in *. change (set_pool p2 (set_pool p1 s)) with (set_pool p2 s).
  assert (∀ x, is_frozen p2 x = is_frozen (pool s) x) as Hfz by (intros x; by rewrite Hf2, (wrote_frozen _ _ _ _ Hw1)).
  split; [|done]. split.
  - exact (inv_keeps (set_pool p1 s) _ _ [] p2 Hi1 Hev2 ltac:(by rewrite app_nil_r) Hk2).
  - rewrite links_plug in *. exact Hl.
  - cbn. destruct (last_leaf s) as [h|]; [|done]. unfold hint_ok in *. cbn [pool set_pool]. rewrite Hfz.
    destruct Hh as [?|Hh]; [by left|right]. rewrite node_nos_plug in *. exact Hh.
Qed.
Lemma remove_entry ctx cs i c key : sorted (c_key <$> cs) → cuts (λ k, bytes_ltb k key) (c_key <$> cs) i → cs !! i = Some c → c_key c = key →
  Forall (λ c, c_key c ≺ key) (before ctx) → Forall (λ c, key ≺ c_key c) (after ctx) →
  entries (before ctx ++ delete i cs ++ after ctx) = remove key (entries (before ctx ++ cs ++ after ctx)).
Proof using.
  intros Hs Hcut Hi Hk Hb Ha. destruct (cut_cells _ _ _ Hs Hcut) as [Ht Hd]. rewrite Hi in Hd. destruct Hd as [_ Hd]. rewrite Hk in Hd.
  rewrite delete_take_drop. rewrite <-(take_drop_middle _ _ _ Hi) at 3.
  rewrite !entries_app, !remove_app, remove_here, !(remove_absent key) by (done || (apply keys_differ; auto)). done.
Qed.
Definition deleted s t key (r : bool) s' : Prop :=
  r = bool_decide (is_Some (assoc key (entries (cells t)))) ∧ (r = false → s' = s) ∧
  ∃ T, tree_of s' T ∧ entries (cells T) = remove key (entries (cells t)).
Lemma runs_regroup {A B C D} (m : M P A) (f : A → M P B) (g : M P C) (k : M P D) s Q :
  runs ((let+ a := m in f a ;;+ g) ;;+ k) s Q → runs (let+ a := m in f a ;;+ g ;;+ k) s Q.
Proof using.
  unfold runs, bind. destruct (m s) as [s1 [[a|e]|]]; [|done|done]. destruct (f a s1) as [s2 [[b|e]|]]; [|done|done].
  by destruct (g s2) as [s3 [[c|e]|]].
Qed.
(** The record found, its chain planned: the descent that copies, the removal, the way up. *)
Lemma delete_hit_ok s ctx no next cs i c l key : tree_of s (plug ctx (TLeaf no next cs)) → within (lo_of None ctx) (hi_of None ctx) key →
  cuts (λ k, bytes_ltb k key) (c_key <$> cs) i → cs !! i = Some c → c_key c = key → l.*1 = c_chain c →
  runs (let+ (leaf, path) := descend_for_write tid key in
        let+ b := get_mut leaf in
        let+ _ := lift (Some (open_resident_validated b leaf)) in
        let+ i := sure (lower_bound b key) in
        let+ b := sure (remove_slot b i) in
        write leaf (finalise b 0) ;;+ retire_all l ;;+ rebalance_after_delete tid leaf path ;;+ ret true) s
    (λ r s', r = true ∧ ∃ T, tree_of s' T ∧ entries (cells T) = remove key (entries (cells (plug ctx (TLeaf no next cs))))).
Proof using HPL.
  intros Ht Hw Hcut Hi Hk El. pose proof (of_inv _ _ Ht) as Hinv.
  eapply runs_bind; [apply (descend_for_write_ok key s ctx (TLeaf no next cs) []); done|].
  intros [leaf path] s1 (c' & Hsh & Hi1 & Hwr & Hf & Hp & Hll & _ & Hh1) _. cbn [fst snd renumber] in *. rewrite !app_nil_r in *. subst path.
  destruct (same_shape_view _ _ Hsh) as (E1 & E2 & E3 & E4 & E5 & E6).
  assert (tree_of s1 (plug c' (TLeaf leaf next cs))) as Ht1.
  { split; [done| |].
    - pose proof (of_links _ _ Ht) as Hl. rewrite links_plug in *. by rewrite E5, E6.
    - rewrite Hll. pose proof (of_hint _ _ Ht) as Hh. destruct (last_leaf s) as [h|]; [|done]. by apply Hh1. }
  destruct (inv_unplug _ _ _ _ Hi1) as (_ & [(b & Hg & Hn) Hcs] & _ & Hoc & [Hs _]).
  eapply runs_read; [by apply get_mut_ok|]. eapply runs_read; [unfold lift; by rewrite (node_validated _ _ _ _ _ Hn)|].
  destruct (lower_position b leaf next cs key (pool s1) Hn Hcs Hs) as (j & Hlb & Hcut' & _).
  rewrite (cuts_unique _ _ _ _ Hcut' Hcut) in Hlb. eapply runs_read; [unfold sure; by rewrite Hlb|].
  pose proof (take_record_ok s1 c' leaf next cs i c b l Ht1 Hi El Hf Hg) as Hrec.
  apply runs_regroup. eapply runs_bind; [exact Hrec|]. intros [] s2 [Ht2 Hfz] _.
  eapply runs_bind; [apply (rebalance_ok c' (TLeaf leaf next (delete i cs)) s2); [done|]|].
  { eapply Forall_impl; [exact Hwr|]. intros x Hx. by rewrite Hfz. }
  intros [] s3 (T & HT & Ecells) _. apply runs_ret; [apply HT|]. split; [done|]. exists T. split; [done|].
  assert (within (lo_of None c') (hi_of None c') key) as Hw' by (by rewrite E1, E2).
  destruct (hole_bounds _ _ _ _ Hoc Hw') as (Hb & Ha & _). rewrite Ecells, !cells_plug. cbn [cells]. rewrite <-E3, <-E4.
  by apply (remove_entry c' cs i c).
Qed.
Lemma btree_delete_ok s t key : tree_of s t → runs (btree_delete tid key) s (deleted s t key).
Proof using HL HPL.
  intros Ht. pose proof (inv_view _ _ _ (of_inv _ _ Ht)) as Hv.
  destruct (descend_to_leaf s t key Hv) as (ctx & no & next & cs & b & -> & Hw & Ho & Hs & Hcs & Hg & Hn & Hd).
  unfold btree_delete. eapply runs_read; [apply (descend_path_ok key s no b), Hd|].
  destruct (open_cached_ok (pool s) no Leaf next (c_rec <$> cs) s eq_refl) as (b' & Hg' & _ & Hop); [by exists b|].
  rewrite Hg in Hg'. injection Hg' as <-. eapply runs_read; [exact Hop|].
  destruct (lower_position b no next cs key (pool s) Hn Hcs Hs) as (i & Hlb & Hcut & Hne).
  eapply runs_read; [unfold sure; by rewrite Hlb|]. rewrite Hne.
  pose proof (assoc_leaf ctx no next cs key Ho Hw) as Ha. rewrite (assoc_cut key cs i Hs Hcut) in Ha.
  destruct (cut_cells _ _ _ Hs Hcut) as [Htk Hdr]. destruct (hole_bounds _ _ _ _ Ho Hw) as (Hbe & Haf & _).
  assert (match cs !! i with Some c => c_key c ≠ key | None => True end →
    runs (ret false) s (deleted s (plug ctx (TLeaf no next cs)) key)) as Hmiss.
  { intros Hno. apply runs_ret; [apply Ht|]. split; [|split; [done|]].
    - rewrite Ha. revert Hno. destruct (cs !! i) as [c|]; intros Hno; [rewrite (bool_decide_false (c_key c = key)) by done|];
        by rewrite bool_decide_false by (by intros [? ?]).
    - exists (plug ctx (TLeaf no next cs)). split; [done|]. rewrite remove_absent; [done|]. rewrite cells_plug. cbn [cells].
      destruct (new_at_absent cs i key Hs Hcut Hno) as (_ & H1 & H2). rewrite <-(take_drop i cs), !Forall_app.
      split; [|split; [split|]]; apply keys_differ; auto. }
  destruct (cs !! i) as [c|] eqn:Ec.
  - pose proof (lookup_lt_Some _ _ _ Ec). pose proof (Forall_lookup_1 _ _ _ _ Hcs Ec) as Hc. rewrite (proj2 (Z.ltb_lt _ _)) by lia.
    assert (validated_key (c_rec c) = Some (c_key c)) as Hvk by (pose proof (cell_shape _ _ Hc) as Hsh; by destruct (shape_helpers _ _ _ _ Hsh)).
    eapply runs_read.
    { unfold sure. rewrite (node_slot _ _ _ _ _ _ Hn i (c_rec c)) by (by rewrite list_lookup_fmap, Ec). cbn [mbind option_bind]. by rewrite Hvk. }
    destruct (decide (c_key c = key)) as [E|E]; [rewrite bool_decide_true by done|rewrite bool_decide_false by done; by apply Hmiss].
    destruct (owned_cell _ _ _ _ _ _ _ (view_nodup _ _ Hv) (view_range _ _ Hv) Ec) as [_ Hran].
    destruct (replaced_pages_ok s c Hc Hran) as (l & Hrep & El). eapply runs_read; [exact Hrep|].
    eapply runs_mono; [by eapply delete_hit_ok|]. intros r s' [-> HT] _. split; [|done].
    rewrite Ha, (bool_decide_true (c_key c = key)) by done. by rewrite bool_decide_true by (by eexists).
  - apply lookup_ge_None in Ec. rewrite (proj2 (Z.ltb_ge _ _)) by lia. eapply runs_read; [done|]. by apply Hmiss.
Qed.
End delete.
End TreeDelete.
