(* ===== verification/TreeMain.v ===== *)
(** * The tree's operations, whole ([core/kernel/src/btree.rs])

    [create], [insert], [delete], [get] and a scan over a handle whose pages hold a
    tree: each is its counterpart on a sorted association list, and a writer leaves
    every published page as it was.  The concrete runs at the end use the pool of
    [Pool.v]. *)
From S2P Require Import Prelude Crc Page Cells Order Node Interior Pool Tree BTree TreeRep TreeRead TreeWrite TreeSplit TreeSpill TreeInsert TreeThree TreeOps BTreeDelete TreeDelete Cursor TreeCursor Reverse TreeReverse.
Import Page Cells Order Node Interior Tree BTree TreeRep TreeRead TreeWrite TreeSplit TreeSpill TreeInsert TreeThree TreeOps BTreeDelete TreeDelete Cursor TreeCursor Reverse TreeReverse.

Module TreeMain.

Section main.
Context `{HC : Crc32c} `{HL : !Crc32cLaws} {P : Type} `{HP : PagePool P} `{HPL : !PagePoolLaws P}.
Context {tid : TreeId}.
Implicit Types (p : P) (s : BTree P) (t : tree) (O R : list Z).

(** ** By descent *)
(** The state an insertion's last step leaves: a tree with the cell's entry put in. *)
Definition put_into t (new : cell) s' : Prop :=
  ∃ T, tree_of s' T ∧ entries (cells T) = put (c_key new) (c_val new) (entries (cells t)).
Lemma insert_slow_ok s t new : inv s t (c_chain new) → links true t → cell_ok (pool s) new → last_leaf s = None →
  blen (c_rec new) ≤ MAX_RECORD_LEN → runs (insert_slow tid (c_key new) (c_rec new)) s (λ _ s', put_into t new s').
Proof using HL HPL.
  intros Hi Hl Hc Hh Hmax.
  destruct (find_leaf t None None (c_key new) (inv_ord _ _ _ Hi)) as (ctx & l & -> & Hlf & Hw); [done|].
  destruct l as [no next cs|]; [|done]. unfold insert_slow.
  eapply runs_bind; [apply (descend_for_write_ok _ _ ctx (TLeaf no next cs)); done|].
  intros [leaf path] s' (c' & Hsh & Hi' & Hwr & Hf & Hp & Hll & Hk & _) Hev. cbn [fst snd renumber] in *. rewrite !app_nil_r in *.
  destruct (same_shape_view _ _ Hsh) as (E1 & E2 & E3 & E4 & E5 & E6). rewrite Hp.
  assert (leaf_pre s' c' leaf next cs new) as Hpre.
  { split; try done.
    - rewrite links_plug in *. by rewrite E5, E6.
    - apply (cell_same (pool s)); [by apply evolves_limit| |done]. intros x Hx. by apply Hk.
    - by rewrite E1, E2.
    - congruence. }
  eapply runs_mono; [by eapply insert_into_leaf_ok|]. intros [] s2 (T & HT & He) _. exists T. split; [done|].
  rewrite He, E3, E4, cells_plug. done.
Qed.

(** ** The append fast path *)
Lemma hint_node h t : ∀ lo hi, ord lo hi t → h ∈ node_nos t → ∃ ctx u, t = plug ctx u ∧ no_of u = h.
Proof using.
  induction t as [no next cs|no cs ks Hcs] using tree_nested_ind; intros lo hi Ho Hin; cbn [node_nos] in Hin.
  - apply list_elem_of_singleton in Hin as ->. by exists [], (TLeaf no next cs).
  - apply elem_of_cons in Hin as [->|Hin]; [by exists [], (TNode no cs ks)|]. apply elem_of_flat_map in Hin as (c & Hc & Hin). apply list_elem_of_lookup in Hc as [i Hi].
    change (ords hi lo cs ks) in Ho. pose proof (ords_length _ _ _ _ Ho) as Hl. pose proof (lookup_lt_Some _ _ _ Hi).
    destruct (split_children cs ks i Hl) as (l & u & r & -> & -> & E); [lia|].
    rewrite lookup_app_r in Hi by (rewrite length_fmap; lia). rewrite length_fmap, E, Nat.sub_diag in Hi. injection Hi as ->.
    apply ords_app in Ho as (_ & _ & Ho). apply Forall_app in Hcs as [_ [IH _]%Forall_cons].
    destruct (IH _ _ Ho Hin) as (ctx & v & -> & Hv). exists (ctx ++ [Frame no l r]), v. by rewrite plug_app.
Qed.
Lemma last_new_at (cs : list cell) c key : sorted (c_key <$> cs) → last cs = Some c → c_key c ≺ key → new_at cs (length cs) key.
Proof using.
  intros Hs Hl Hk. split; [done|]. rewrite firstn_all, drop_all. split; [|constructor].
  apply last_Some in Hl as [l ->]. rewrite fmap_app in Hs. apply sorted_app in Hs as (_ & _ & Hlt). apply Forall_app. split; [|by repeat constructor].
  apply Forall_forall. intros d Hd. assert (c_key d ≺ c_key c); [|cbn; order]. apply Hlt; [by apply list_elem_of_fmap_2|left].
Qed.
(** What the hint may name while a record is built: the record's own chain may have
    taken the page. *)
Definition hinted_page s (t : tree) (new : cell) (h : Z) : Prop := hint_ok (pool s) t h ∨ h ∈ c_chain new.
Lemma chain_page p pages cs h : chain_at p pages cs → h ∈ pages → ∃ b next c, get p h = Ok b ∧ ov_page b h next c.
Proof using.
  revert cs. induction pages as [|no pages IH]; intros [|c cs] Hc Hin; try done; [by apply not_elem_of_nil in Hin|].
  destruct Hc as [(b & Hg & Hb) Hc]. apply elem_of_cons in Hin as [->|Hin]; [by eexists _, _, _|by eapply IH].
Qed.
Lemma cell_page p c h : cell_ok p c → h ∈ c_chain c → ∃ b next ch, get p h = Ok b ∧ ov_page b h next ch.
Proof using.
  intros (_ & _ & [[_ ->]|(head & _ & _ & _ & _ & _ & Hc)]) Hh; [by apply not_elem_of_nil in Hh|]. by eapply chain_page.
Qed.
(** A page of another kind is turned down. *)
Lemma other_page_declined s h key rec b kd : is_frozen (pool s) h = false → get (pool s) h = Ok b → open_checked b h = Some (Ok tt) →
  kind b = Some kd → kd ≠ Leaf → fast_path_leaf tid h key rec s = (s, Some (Ok false)).
Proof using.
  intros Hf Hg Ho Hk Hne. unfold fast_path_leaf. erewrite bind_ok by done. rewrite Hf.
  erewrite bind_ok by (by apply get_mut_ok). erewrite bind_ok by (unfold lift; by rewrite Ho).
  by rewrite bool_decide_false by (rewrite Hk; congruence).
Qed.
(** The hint passes the test only where the key belongs at the end of the whole tree. *)
Lemma fast_path_leaf_ok s t R h key rec new : inv s t R → links true t → cell_ok (pool s) new → hinted_page s t new h →
  ∃ fits, fast_path_leaf tid h key rec s = (s, Some (Ok fits)) ∧
    (fits = true → ∃ ctx cs b, t = plug ctx (TLeaf h 0 cs) ∧ is_frozen (pool s) h = false ∧ get (pool s) h = Ok b ∧
       node_at b Leaf tid h 0 (c_rec <$> cs) ∧ blen rec + 4 ≤ free_space b ∧
       within (lo_of None ctx) (hi_of None ctx) key ∧ new_at cs (length cs) key).
Proof using.
  intros Hi Hl Hnew Hin. destruct (is_frozen (pool s) h) eqn:Ef.
  { exists false. split; [|done]. unfold fast_path_leaf. erewrite bind_ok by done. by rewrite Ef. }
  destruct Hin as [[Hfz|Hin]|Hin]; [congruence| |].
  2: { destruct (cell_page _ _ _ Hnew Hin) as (b & nx & ch & Hg & Hov). exists false. split; [|done].
       eapply other_page_declined; [done|exact Hg| |apply Hov|done]. unfold open_checked, validate_records.
       rewrite (ov_open _ _ _ _ Hov), (ov_kind _ _ _ _ Hov). done. }
  destruct (hint_node h t None None (inv_ord _ _ _ Hi) Hin) as (ctx & u & -> & Eu). destruct u as [no next cs|no cs ks]; cbn [no_of] in Eu; subst no.
  2: { exists false. split; [|done]. destruct (inv_unplug _ _ _ _ Hi) as (_ & Hh & _). apply holds_node in Hh as [Hh _].
       destruct (interior_view _ _ _ _ Hh) as (h0 & ns & b & _ & Hg & Hn & _).
       eapply other_page_declined; [done|exact Hg|by eapply node_open|apply Hn|done]. }
  destruct (inv_unplug _ _ _ _ Hi) as (_ & [(b & Hg & Hn) Hcs] & _ & Hoc & [Hs Hw]).
  unfold fast_path_leaf. erewrite bind_ok by done. rewrite Ef.
  erewrite bind_ok by (by apply get_mut_ok). erewrite bind_ok by (unfold lift; by rewrite (node_open _ _ _ _ _ _ Hn)).
  rewrite (node_link _ _ _ _ _ _ Hn). destruct (_ && _) eqn:E; [|by eexists].
  rewrite !andb_true_iff in E. destruct E as ((((_ & _) & ->%Z.eqb_eq) & Hfit%Z.leb_le) & Hpos%Z.ltb_lt).
  rewrite (node_count _ _ _ _ _ _ Hn), length_fmap in *.
  destruct (last cs) as [c|] eqn:Ec; [|apply last_None in Ec as ->; cbn in Hpos; lia].
  pose proof Ec as Ec'. rewrite last_lookup in Ec'. pose proof (Forall_lookup_1 _ _ _ _ Hcs Ec') as Hc.
  apply cell_shape in Hc. destruct (shape_helpers _ _ _ _ Hc) as [Hvk _].
  replace (Z.of_nat (length cs) - 1) with (Z.of_nat (pred (length cs))) by lia.
  erewrite bind_ok by (unfold sure; rewrite (node_slot _ _ _ _ _ _ Hn _ (c_rec c)) by (by rewrite list_lookup_fmap, Ec'); done).
  erewrite bind_ok by (unfold sure; rewrite Hvk; done). eexists. split; [done|]. intros Hlt%ltb_lt.
  exists ctx, cs, b. split_and!; try done; [|by eapply last_new_at].
  apply links_plug in Hl as [_ [Hlast _]]. apply proj1, (λ f, f eq_refl), last_hi in Hlast. rewrite Hlast in *.
  split; [|done]. pose proof (Forall_lookup_1 _ _ _ _ Hw Ec') as [Ha _]. eapply above_weaken; [by left|done].
Qed.
Lemma insert_fast_ok s t ctx h cs b new : inv s t (c_chain new) → links true t → t = plug ctx (TLeaf h 0 cs) →
  is_frozen (pool s) h = false → get (pool s) h = Ok b → node_at b Leaf tid h 0 (c_rec <$> cs) → blen (c_rec new) + 4 ≤ free_space b →
  cell_ok (pool s) new → within (lo_of None ctx) (hi_of None ctx) (c_key new) → new_at cs (length cs) (c_key new) →
  runs (insert_fast h (c_rec new)) s (λ _ s', put_into t new s').
Proof using HPL.
  intros Hi Hl -> Hf Hg Hn Hfit Hc Hw Hat. unfold insert_fast. eapply runs_read; [by apply get_mut_ok|].
  rewrite (node_count _ _ _ _ _ _ Hn), length_fmap.
  apply (leaf_insert_ok (λ _, set_last_leaf (Some h)) _ ctx _ 0 cs); try done. intros p' Hp' Hi'. split; [|by apply evolves_refl].
  exists (plug ctx (TLeaf h 0 (with_cell cs (length cs) new))). split; [apply (hinted _ _ _ _ _ _ _ _ Hi' Hl); by left|].
  destruct (inv_unplug _ _ _ _ Hi) as (_ & _ & _ & Hoc & _). destruct (hole_bounds _ _ _ _ Hoc Hw) as (Hb & Ha & _).
  rewrite !cells_plug. symmetry. destruct Hat as (_ & H1 & H2). by apply put_around; auto.
Qed.
(** With the record built: by the hint if it fits, else by descent. *)
Lemma insert_record_ok s t new : inv s t (c_chain new) → links true t → cell_ok (pool s) new →
  match last_leaf s with Some h => hinted_page s t new h | None => True end → blen (c_rec new) ≤ MAX_RECORD_LEN →
  runs (let+ hint := ask last_leaf in
        match hint with
        | Some hint =>
            add_attempt ;;+
            let+ fits := fast_path_leaf tid hint (c_key new) (c_rec new) in
            if fits : bool then add_hit ;;+ insert_fast hint (c_rec new)
            else set_last_leaf None ;;+ insert_slow tid (c_key new) (c_rec new)
        | None => insert_slow tid (c_key new) (c_rec new)
        end) s (λ _ s', put_into t new s').
Proof using HL HPL.
  intros Hi Hl Hc Hh Hmax. eapply runs_read; [done|]. destruct (last_leaf s) as [h|] eqn:Eh; [|by apply insert_slow_ok].
  eapply runs_set; [done|done|]. set (s1 := mkBTree _ _ _ _ _).
  assert (∀ r l f a, inv (mkBTree (pool s) r l f a) t (c_chain new) ↔ root s = r) as Hsame.
  { intros r l f a. destruct Hi as [H1 H2 H3 H4 H5 H6]. split; [intros Hi'; rewrite <-H6; apply (inv_root _ _ _ Hi')|intros <-; by split]. }
  destruct (fast_path_leaf_ok s1 t (c_chain new) h (c_key new) (c_rec new) new) as (fits & Hrun & Hfits); [by apply Hsame|done|done|done|].
  eapply runs_read; [exact Hrun|]. destruct fits.
  - destruct (Hfits eq_refl) as (ctx & cs & b & E & Hf & Hg & Hn & Hfit & Hw & Hat).
    eapply runs_set; [done|done|]. eapply (insert_fast_ok _ t ctx h cs b); try done. by apply Hsame.
  - eapply runs_set; [done|done|]. apply insert_slow_ok; try done. by apply Hsame.
Qed.

(** ** The record *)
Lemma enc_leaf_len key val compact : blen (enc_leaf key val compact) ≤ 4 + blen key + blen val.
Proof using.
  unfold enc_leaf. cbv zeta. generalize (match key with [] => false | b :: _ => int_tag b && (blen key =? 1 + (b - 128)) end). intros int.
  destruct (compact && int); [|destruct (_ && _)]; rewrite ?blen_app, ?blen_cons, ?blen_le_bytes, ?blen_app; lia.
Qed.
Lemma enc_leaf_bytes key val compact : bytes_ok key → bytes_ok val → bytes_ok (enc_leaf key val compact).
Proof using.
  intros Hk Hv. unfold enc_leaf. cbv zeta. generalize (match key with [] => false | b :: _ => int_tag b && (blen key =? 1 + (b - 128)) end). intros int.
  destruct (compact && int); [|destruct (_ && _)].
  - apply (bytes_ok_app [255]). split; [|by apply bytes_ok_app]. by repeat constructor.
  - rewrite !bytes_ok_app. pose proof (le_bytes_ok 2 (Z.lor 16384 (blen key mod 65536))). done.
  - rewrite !bytes_ok_app. pose proof (le_bytes_ok 2 (blen key)). pose proof (le_bytes_ok 2 (blen val)). done.
Qed.
Lemma inline_cell p key val compact : sep_ok key → bytes_ok val → 4 + blen key + blen val ≤ MAX_RECORD_LEN →
  cell_ok p (Cell key val (enc_leaf key val compact) []).
Proof using.
  intros Hk Hv Hm. split; [apply enc_leaf_bytes; [apply Hk|done]|]. split; [done|]. left. split; [|done]. apply enc_leaf_shape; [apply Hk|done|done].
Qed.
Lemma spilled_cell p key val head pages : sep_ok key → blen val ≤ u32_max → is_u32 head → head :: tail pages = pages →
  within_limit p (blen val) → chain_at p pages (chunks val) →
  cell_ok p (Cell key val (enc_leaf_marker key (enc_marker (blen val mod 4294967296) head (crc32c val))) pages).
Proof using.
  intros Hk Hv Hh Hp Hw Hc. pose proof (blen_nonneg val). rewrite Z.mod_small by (change u32_max with 4294967295 in Hv; lia).
  pose proof (sep_record key Hk) as [_ Hr]. destruct Hk as [Hb Hk]. split; [|split; [done|right]].
  - cbn [c_rec]. unfold enc_leaf_marker, enc_marker. rewrite !bytes_ok_app.
    pose proof (λ n x, le_bytes_ok n x) as Hle. refine (conj (Hle _ _) (conj Hb (conj (Hle _ _) (conj (Hle _ _) (conj (Hle _ _) (Hle _ _)))))).
  - exists head. refine (conj _ (conj Hp (conj Hh (conj Hv (conj Hw Hc))))). by apply enc_leaf_marker_shape.
Qed.

(** The record of [key] built, its chain written and set aside. *)
Record record_ready t (key val rec : bytes) s' (new : cell) : Prop := {
  rr_key : c_key new = key;
  rr_val : c_val new = val;
  rr_rec : c_rec new = rec;
  rr_inv : inv s' t (c_chain new);
  rr_cell : cell_ok (pool s') new;
  rr_len : blen rec ≤ MAX_RECORD_LEN;
}.
Lemma record_built s t key val : inv s t [] → sep_ok key → bytes_ok val → blen val ≤ u32_max → within_limit (pool s) (blen val) →
  runs (if MAX_RECORD_LEN <? 4 + blen key + blen val then
          let+ (head, crc) := write_overflow val in
          ret (enc_leaf_marker key (enc_marker (blen val mod 4294967296) head crc))
        else let+ compact := ask (λ s, compact_cells (pool s)) in ret (enc_leaf key val compact)) s
    (λ rec s', (∃ new, record_ready t key val rec s' new ∧ ∀ h, hint_ok (pool s) t h → hinted_page s' t new h) ∧ last_leaf s' = last_leaf s).
Proof using HPL.
  intros Hi Hk Hb Hv Hw. pose proof (inv_all _ _ _ Hi) as Ho. rewrite app_nil_r in Ho.
  destruct (Z.ltb_spec MAX_RECORD_LEN (4 + blen key + blen val)) as [Hlen|Hlen].
  - eapply runs_bind; [apply write_overflow_ok; [apply Hi|exact Ho|done]|].
    intros [head crc] s' (p' & pages & -> & Ho' & Hkp & Hp & -> & Hc & Hw' & Hfz) Hev. apply runs_ret; [apply Hev|]. split; [|done].
    assert (is_u32 head) as Hu.
    { destruct Ho' as [_ Ho']. rewrite <-Hp in Ho'. cbn [app] in Ho'. by apply Forall_cons in Ho' as [(_ & ? & _) _]. }
    exists (Cell key val (enc_leaf_marker key (enc_marker (blen val mod 4294967296) head (crc32c val))) pages). split; [split; try done|].
    + eapply inv_keeps; [exact Hi|exact Hev| |done]. cbn [c_chain]. by rewrite Permutation_app_comm.
    + by apply spilled_cell.
    + pose proof (sep_record key Hk) as [_ Hr]. unfold enc_leaf_marker, enc_marker. blens. lia.
    + intros h Hh. unfold hinted_page, hint_ok in *. cbn [pool set_pool c_chain]. destruct (decide (h ∈ pages)); [by right|]. left. by rewrite Hfz.
  - eapply runs_read; [done|]. apply runs_ret; [apply Hi|]. split; [|done].
    exists (Cell key val (enc_leaf key val (compact_cells (pool s))) []). split; [split; try done; [by apply inline_cell|]|by left].
    pose proof (enc_leaf_len key val (compact_cells (pool s))). lia.
Qed.

(** ** The operations *)
Lemma insert_ok s t key val : tree_of s t → sep_ok key → bytes_ok val → blen val ≤ u32_max → within_limit (pool s) (blen val) →
  runs (insert tid key val) s (λ _ s', ∃ T, tree_of s' T ∧ entries (cells T) = put key val (entries (cells t))).
Proof using HL HPL.
  intros [Hi Hl Hh] Hk Hb Hv Hw. unfold insert. eapply runs_bind; [by apply record_built|].
  intros rec s' [(new & [<- <- <- Hi' Hc Hm] & Hnew) Hll] _. rewrite (proj2 (Z.ltb_ge _ _)) by done.
  apply insert_record_ok; try done. rewrite Hll. destruct (last_leaf s) as [h|]; [by apply Hnew|done].
Qed.
Lemma create_ok s : pool_ok (pool s) → is_u16 tid → last_leaf s = None →
  runs (create tid) s (λ _ s', ∃ no, tree_of s' (TLeaf no 0 [])).
Proof using HPL.
  intros Hp Ht Hh. unfold create. apply (runs_alloc _ _ []); [done|split; constructor|]. intros no p' Hev Ho _ [Hf _].
  pose proof Ho as [_ [(Hno & Hu & _) _]%Forall_cons]. rewrite (proj2 (Z.eqb_neq no 0)) by lia. eapply runs_read; [done|].
  apply runs_write; [apply Hev|done|]. intros p2 Hw. split; [|apply evolves_refl, Hw]. exists no. split.
  - pose proof (wrote_owned _ _ _ _ Hw _ Ho) as Ho2.
    destruct (node_finalise _ _ _ _ _ _ 0 (proj1 (node_init Leaf tid no Ht Hu))) as [Hn _].
    split; [apply Hw|done| |exact Ho2|split; constructor|done].
    split; [|constructor]. eexists. split; [by apply wrote_here in Hw|exact Hn].
  - split; [done|]. split; lia.
  - cbn. by rewrite Hh.
Qed.

(** ** Histories *)
(** What a writer does between two openings of the file: insertions, deletions, and
    the publication of everything written so far. *)
Inductive op := Put (key val : bytes) | Del (key : bytes) | Publish.
Definition run_op (o : op) : M P unit :=
  match o with
  | Put key val => insert tid key val
  | Del key => btree_delete tid key ;;+ ret tt
  | Publish => λ s, (set_pool (publish (pool s)) s, Some (Ok tt))
  end.
Fixpoint run_ops (ops : list op) : M P unit :=
  match ops with [] => ret tt | o :: ops => run_op o ;;+ run_ops ops end.
(** The same on an association list. *)
Definition put_op (l : list (bytes * bytes)) (o : op) : list (bytes * bytes) :=
  match o with Put key val => put key val l | Del key => remove key l | Publish => l end.
Definition op_ok p (o : op) : Prop :=
  match o with
  | Put key val => sep_ok key ∧ bytes_ok val ∧ blen val ≤ u32_max ∧ within_limit p (blen val)
  | Del _ | Publish => True
  end.
Lemma publish_evolves p : pool_ok p → evolves p (publish p).
Proof using HPL.
  intros Hp. destruct (publish_ok p Hp) as (Hok & Hs & Hc & Hg & _ & Hk & _). split; [done|done|lia|]. intros x Hx. split; [by apply Hk|done].
Qed.
Lemma ops_ok_evolves p p' ops : evolves p p' → Forall (op_ok p) ops → Forall (op_ok p') ops.
Proof using.
  intros Hev Ho. eapply Forall_impl; [exact Ho|]. intros [key val|key|]; [|done|done]. cbn. unfold within_limit. by rewrite (evolves_limit _ _ Hev).
Qed.
Lemma inv_publish s t R : inv s t R → inv (set_pool (publish (pool s)) s) t R.
Proof using HPL.
  intros Hi. destruct (publish_ok (pool s) (inv_pool _ _ _ Hi)) as (Hok & (_ & Hl & _) & Hc & Hg & Ha & _).
  split; try apply Hi; [done| |].
  - apply (holds_same (pool s)); [done|done|apply Hi].
  - eapply owned_ok_frame; [apply Hi|cbn; lia|]. intros x _ Hx. by apply Ha.
Qed.
Lemma tree_publish s t : tree_of s t → tree_of (set_pool (publish (pool s)) s) t.
Proof using HPL.
  intros [Hi Hl Hh]. split; [by apply inv_publish|done|]. cbn. destruct (last_leaf s) as [h|]; [|done].
  destruct Hh as [Hf|?]; [|by right]. left. cbn [pool set_pool]. by apply (publish_ok (pool s) (inv_pool _ _ _ Hi)).
Qed.
Lemma run_op_ok s t o : tree_of s t → op_ok (pool s) o →
  runs (run_op o) s (λ _ s', ∃ T, tree_of s' T ∧ entries (cells T) = put_op (entries (cells t)) o).
Proof using HL HPL.
  intros Ht Ho. destruct o as [key val|key|]; [destruct Ho as (? & ? & ? & ?); by apply insert_ok| |].
  { eapply runs_bind; [by apply btree_delete_ok|]. intros r s' (_ & _ & T & HT & He) _. apply runs_ret; [apply HT|]. by exists T. }
  split; [|apply publish_evolves, Ht]. exists t. split; [|done]. by apply tree_publish.
Qed.
Lemma run_ops_ok ops : ∀ s t, tree_of s t → Forall (op_ok (pool s)) ops →
  runs (run_ops ops) s (λ _ s', ∃ T, tree_of s' T ∧ entries (cells T) = foldl put_op (entries (cells t)) ops).
Proof using HL HPL.
  induction ops as [|o ops IH]; intros s t Ht Ho; [apply runs_ret; [apply Ht|by exists t]|]. apply Forall_cons in Ho as [Ho Hos].
  eapply runs_bind; [by apply run_op_ok|]. intros [] s1 (T & HT & He) Hev. cbn [foldl]. rewrite <-He. apply IH; [done|]. by eapply ops_ok_evolves.
Qed.
(** The entries after a history, as a map. *)
Definition model (ops : list op) : gmap bytes bytes :=
  foldl (λ m o, match o with Put key val => <[key := val]> m | Del key => base.delete key m | Publish => m end) ∅ ops.
Lemma assoc_put key val k l : assoc k (put key val l) = if bool_decide (key = k) then Some val else assoc k l.
Proof using.
  induction l as [|[k' v'] l IH]; [done|]. cbn [put]. destruct (bytes_ltb key k'); [done|]. destruct (decide (k' = key)) as [->|E].
  - rewrite (bool_decide_true (key = key)) by done. cbn [assoc]. by case_bool_decide.
  - rewrite (bool_decide_false (k' = key)) by done. cbn [assoc]. rewrite IH. do 2 case_bool_decide; congruence.
Qed.
Lemma assoc_model ops k : assoc k (foldl put_op [] ops) = model ops !! k.
Proof using.
  unfold model. assert (∀ l (m : gmap bytes bytes), assoc k l = m !! k → assoc k (foldl put_op l ops) =
    foldl (λ m o, match o with Put key val => <[key := val]> m | Del key => base.delete key m | Publish => m end) m ops !! k) as H; [|by apply H].
  induction ops as [|[key val|key|] ops IH]; intros l m E; [done| | |by apply IH]; cbn [foldl]; apply IH; cbn [put_op]; rewrite ?assoc_put, ?assoc_remove.
  - case_bool_decide; [subst; by rewrite lookup_insert_eq|by rewrite lookup_insert_ne].
  - case_bool_decide; [subst; by rewrite lookup_delete_eq|by rewrite lookup_delete_ne].
Qed.

(** ** Snapshots *)
(** The handle of a reader: the root it opened, the pool as it is by now. *)
Definition reader (s0 s : BTree P) : BTree P := mkBTree (pool s) (root s0) None 0 0.
Lemma view_kept s s' t : view s t → Forall (kept (pool s)) (owned t) → evolves (pool s) (pool s') → view (reader s s') t.
Proof using.
  intros [Hh Hn Hr Ho Hrt] Hk Hev. rewrite Forall_forall in Hk. split; [|done| |done|done].
  - apply (holds_same (pool s)); [by apply evolves_limit| |done]. intros x Hx. by apply Hev, Hk.
  - pose proof (ev_count _ _ Hev). eapply Forall_impl; [exact Hr|]. cbn. lia.
Qed.
Lemma published_kept s t R : inv s t R → Forall (kept (publish (pool s))) (owned t).
Proof using HPL.
  intros Hi. destruct (publish_ok (pool s) (inv_pool _ _ _ Hi)) as (_ & _ & _ & _ & _ & _ & Hk).
  pose proof (inv_owned _ _ _ Hi) as [_ Ho]. eapply Forall_impl; [exact Ho|]. intros x (H1 & _ & H2). by apply Hk.
Qed.
(** The pool a run ends with, answer or error. *)
Lemma runs_evolves {A} (m : M P A) s Q : runs m s Q → evolves (pool s) (pool (m s).1).
Proof using. unfold runs. destruct (m s) as [s' [[a|e]|]]; [by intros [_ ?]|by intros [_ ?]|done]. Qed.
Lemma snapshot_ok s t ops s1 : tree_of s t → Forall (op_ok (pool s)) ops → (run_ops (Publish :: ops) s).1 = s1 → view (reader s s1) t.
Proof using HL HPL.
  intros Ht Ho <-. change ((run_ops (Publish :: ops) s).1) with ((run_ops ops (set_pool (publish (pool s)) s)).1).
  pose proof (run_op_ok s t Publish Ht I) as [_ Hev]. cbn [run_op pool set_pool] in Hev.
  assert (tree_of (set_pool (publish (pool s)) s) t) as Ht'.
  { by apply tree_publish. }
  assert (Forall (op_ok (publish (pool s))) ops) as Ho' by (by eapply ops_ok_evolves).
  set (s0 := set_pool (publish (pool s)) s) in *.
  apply (view_kept s0); [by eapply inv_view, Ht'| |].
  - eapply published_kept, Ht.
  - eapply runs_evolves. by apply run_ops_ok.
Qed.
End main.

(** ** Properties *)
Section properties.
Context `{HC : Crc32c} `{HL : !Crc32cLaws} {P : Type} `{HP : PagePool P} `{HPL : !PagePoolLaws P}.
Context {tid : TreeId}.
Implicit Types (s : BTree P) (t : tree).



(** C4: [delete] answers whether the key was there, and takes a well-formed tree to
    a well-formed tree without its entry and with every other one: the record and
    its chain of overflow pages go, and the way back up merges an underfull page
    with a sibling, evens the two out, or takes away a root left with one child.  A
    miss changes nothing at all.  It never panics or loops, and fails only by the
    pool's limits. *)
Theorem tree_delete s t key : tree_of s t →
  match btree_delete tid key s with
  | (s', Some (Ok found)) => found = bool_decide (is_Some (assoc key (entries (cells t)))) ∧ (found = false → s' = s) ∧
      ∃ T, tree_of s' T ∧ entries (cells T) = remove key (entries (cells t))
  | (_, Some (Err e)) => refused e
  | (_, None) => False
  end.
Proof using HL HPL.
  intros Ht. pose proof (btree_delete_ok s t key Ht) as Hr. unfold runs in Hr.
  destruct (btree_delete tid key s) as [s' [[a|e]|]]; [apply Hr|apply Hr|done].
Qed.


(** C11: the keys are in strictly increasing order, and a scan visits the
    entries from the key it starts at in that order, once each and until the
    callback has enough, reading spilled values back in full.  A descending scan
    visits the entries below its key, last first: those looked at one by one before,
    and then by callback the rest.  Both leave the handle as it was. *)
Theorem tree_scan {S} (f : S → bytes → bytes → S * bool) s t from to n acc : tree_of s t →
  sorted (entries (cells t)).*1 ∧
  (let+ it := range tid from in for_each_ref tid f it acc) s =
    (s, Some (Ok (fold_while f acc (from_key from (entries (cells t)))).1)) ∧
  let below := rev (below_key to (entries (cells t))) in
  (let+ it := range_reverse tid to in let+ (shown, it) := take_back n it in
   let+ acc := for_each_reverse tid f it acc in ret (shown, acc)) s =
    (s, Some (Ok ((λ i, below !! i) <$> seq 0 n, (fold_while f acc (drop n below)).1))).
Proof using HL HPL.
  intros Ht. pose proof (inv_view _ _ _ (of_inv _ _ Ht)) as Hv. split; [|split].
  - pose proof (ord_keys _ _ _ (inv_ord _ _ _ (of_inv _ _ Ht))) as [Hs _]. unfold keys in Hs. unfold entries. by rewrite <-list_fmap_compose.
  - by apply scan_ok.
  - by apply reverse_scan_ok.
Qed.

(** C12: a pull cursor is the list of the entries from its key on.  Whatever
    an executor calls, in whatever order - [next], [peek_ref], a seek by
    [peek_at_or_after], a [step] past what the last look has shown - and then, to be
    done with it, [for_each_ref], the answers are those of the same calls on the
    list, across leaves, buffered records and spilled values; every call returns,
    none fails, and the handle stays as it was. *)
Theorem pull_cursor {S} (f : S → bytes → bytes → S * bool) s t from calls acc : tree_of s t → in_turn false calls = true →
  let l := from_key from (entries (cells t)) in
  (let+ c := open_range tid from in let+ (answers, c) := run_calls calls c in
   let+ acc := for_each_rest tid f c acc in ret (answers, acc)) s =
    (s, Some (Ok (list_calls calls l, (fold_while f acc (list_left calls l)).1))).
Proof using HL HPL. intros Ht Hin. apply session_ok; [|done]. exact (inv_view _ _ _ (of_inv _ _ Ht)). Qed.
End properties.

(** C13: the records of a leaf and one more that a page can hold always
    fit on new pages.  Either a cut in two fits, and [split_point] finds the most
    balanced one; or there is none, and the greedy packing makes exactly three
    groups, none empty and each at most a page.  So a leaf never answers
    [TooLarge] for a record that passed the length check. *)
Theorem leaf_always_splits (recs : list bytes) rec i : weight recs ≤ USABLE → blen rec ≤ MAX_RECORD_LEN →
  let all := take i recs ++ rec :: drop i recs in USABLE < weight all →
  match split_point all USABLE with
  | Some m => ∃ mid : nat, m = Z.of_nat mid ∧ cut_fits USABLE all mid ∧ ∀ mid', cut_fits USABLE all mid' → imbalance all mid ≤ imbalance all mid'
  | None => ∃ c1 c2 : nat, greedy USABLE 0 0 all = [Z.of_nat c1; Z.of_nat c2] ∧ (0 < c1 < c2)%nat ∧ (c2 < length all)%nat ∧
      weight (take c1 all) ≤ USABLE ∧ weight (take (c2 - c1) (drop c1 all)) ≤ USABLE ∧ weight (drop c2 all) ≤ USABLE
  end.
Proof.
  intros Hw Hr all Hbig. pose proof (split_point_spec all USABLE) as Hs. destruct (split_point all USABLE) as [m|].
  - destruct Hs as (mid & -> & Hc & Hb). exists mid. split; [done|]. split; [done|]. intros mid' Hm. by apply Hb.
  - apply three_groups; [|done| |done].
    + pose proof (weight_each _ Hw). apply Forall_app. split; [by apply Forall_take|]. apply Forall_cons. split; [|by apply Forall_drop].
      change MAX_RECORD_LEN with 4052 in Hr. change USABLE with 4056. lia.
    + subst all. rewrite weight_app, weight_cons. rewrite (weight_cut recs i) in Hw. change MAX_RECORD_LEN with 4052 in Hr. change USABLE with 4056 in *. lia.
Qed.

(** ** Concrete runs *)
#[local] Existing Instance crc32c_reference.
#[local] Existing Instance crc32c_reference_laws.
#[local] Existing Instance Pool.pool_pages.
#[local] Existing Instance Pool.pool_laws.
#[local] Instance tree_one : TreeId := 1.
Definition empty_pool : Pool.Pool := Pool.mkPool ∅ ∅ 2 None [] 0 ∅ 0 1 0 ∅ 0 false.
Definition empty_handle : BTree Pool.Pool := mkBTree empty_pool 0 None 0 0.
Definition key_of_len (first : Z) (len : nat) : bytes := first :: replicate (len - 1) 0.
(** A value spilled, a leaf split, a publication, a deletion that misses, two of
    which the second merges the leaves and takes the root away, copies of published
    pages, the spilled value replaced, a split again. *)
Definition some_ops : list op :=
  [Put (key_of_len 4 2000) (replicate 5000 7); Put (key_of_len 2 2000) [1]; Put (key_of_len 3 2000) [2]; Publish;
   Del [7]; Del (key_of_len 2 2000); Del (key_of_len 3 2000); Put (key_of_len 4 2000) [9]; Put (key_of_len 2 2000) [3];
   Put (key_of_len 3 2000) [4]; Put [1] []].
Lemma empty_handle_ok : pool_ok (pool empty_handle).
Proof. refine (conj _ (conj eq_refl (conj _ (conj (NoDup_nil_2) (Forall_nil_2 _))))); cbn; unfold u32_max; lia. Qed.
Lemma put_ok {p : Pool.Pool} (Hp : record_limit p = None) k n b m :
  byte_ok k ∧ byte_ok b ∧ Nat.leb n 2000 && Nat.leb m 5000 = true → op_ok p (Put (key_of_len k n) (replicate m b)).
Proof.
  intros (Hk & Hb & [Hn%Nat.leb_le Hm%Nat.leb_le]%andb_true_iff). refine (conj (conj _ _) (conj _ (conj _ _))).
  - constructor; [done|]. by apply Forall_replicate.
  - unfold blen, key_of_len. cbn [length]. rewrite length_replicate. change KEY_CAP with 2018. lia.
  - by apply Forall_replicate.
  - unfold blen. rewrite length_replicate. change u32_max with 4294967295. lia.
  - unfold within_limit. by rewrite Hp.
Qed.
Lemma some_ops_ok : Forall (op_ok empty_pool) some_ops.
Proof.
  pose proof (put_ok (p := empty_pool) eq_refl) as H.
  refine (Forall_cons_2 _ _ _ (H 4 2000%nat 7 5000%nat _) (Forall_cons_2 _ _ _ (H 2 2000%nat 1 1%nat _)
    (Forall_cons_2 _ _ _ (H 3 2000%nat 2 1%nat _) (Forall_cons_2 _ Publish _ I
    (Forall_cons_2 _ (Del _) _ I (Forall_cons_2 _ (Del _) _ I (Forall_cons_2 _ (Del _) _ I
    (Forall_cons_2 _ _ _ (H 4 2000%nat 9 1%nat _) (Forall_cons_2 _ _ _ (H 2 2000%nat 3 1%nat _)
    (Forall_cons_2 _ _ _ (H 3 2000%nat 4 1%nat _) (Forall_cons_2 _ _ _ (H 1 1%nat 1 0%nat _) (Forall_nil_2 _)))))))))))); vm_compute; done.
Qed.
Lemma some_ops_run : ((create 1 ;;+ run_ops some_ops) empty_handle).2 = Some (Ok tt).
Proof. vm_compute. reflexivity. Qed.
(** The handle it leaves, the tree on its pages, and more of the same. *)
Definition some_handle : BTree Pool.Pool := ((create 1 ;;+ run_ops some_ops) empty_handle).1.
Lemma runs_answer {A} (m : M Pool.Pool A) s Q a : runs m s Q → (m s).2 = Some (Ok a) → Q a (m s).1.
Proof. unfold runs. destruct (m s) as [s' [[b|e]|]]; cbn; [|done|done]. intros [Hq _] [= <-]. exact Hq. Qed.
Lemma some_tree : ∃ t, tree_of some_handle t ∧ entries (cells t) = foldl put_op [] some_ops.
Proof.
  assert (runs (create 1 ;;+ run_ops some_ops) empty_handle (λ _ s', ∃ t, tree_of s' t ∧ entries (cells t) = foldl put_op [] some_ops)) as Hr.
  { eapply runs_bind; [apply create_ok; [exact empty_handle_ok|by vm_compute|exact eq_refl]|]. intros [] s1 (no & Ht) Hev.
    apply (run_ops_ok some_ops s1 (TLeaf no 0 []) Ht). eapply ops_ok_evolves; [exact Hev|exact some_ops_ok]. }
  exact (runs_answer _ _ _ _ Hr some_ops_run).
Qed.
Definition more_ops : list op := [Put (key_of_len 3 2000) [8]; Publish; Put [5] [5]; Del (key_of_len 4 2000)].
Lemma some_limit : record_limit (pool some_handle) = None.
Proof. vm_compute. reflexivity. Qed.
Lemma more_ops_ok : Forall (op_ok (pool some_handle)) more_ops.
Proof.
  pose proof (put_ok some_limit) as H.
  refine (Forall_cons_2 _ _ _ (H 3 2000%nat 8 1%nat _) (Forall_cons_2 _ Publish _ I (Forall_cons_2 _ _ _ (H 5 1%nat 5 1%nat _)
    (Forall_cons_2 _ (Del _) _ I (Forall_nil_2 _)))));
    vm_compute; done.
Qed.
Definition collect (acc : list (bytes * bytes)) (k v : bytes) : list (bytes * bytes) * bool := (acc ++ [(k, v)], true).

Lemma tree_delete_witness : ∃ t, tree_of some_handle t ∧
  match btree_delete 1 (key_of_len 4 2000) some_handle with
  | (s', Some (Ok found)) => found = bool_decide (is_Some (assoc (key_of_len 4 2000) (entries (cells t)))) ∧ (found = false → s' = some_handle) ∧
      ∃ T, tree_of s' T ∧ entries (cells T) = remove (key_of_len 4 2000) (entries (cells t))
  | (_, Some (Err e)) => refused e
  | (_, None) => False
  end.
Proof.
  destruct some_tree as (t & Ht & _). exists t. split; [exact Ht|]. exact (tree_delete some_handle t (key_of_len 4 2000) Ht).
Defined.
(** Both directions of the answer, and a root that gave way to its last child. *)
Example deletions_run :
  (btree_delete 1 (key_of_len 4 2000) some_handle).2 = Some (Ok true) ∧ (btree_delete 1 [7] some_handle).2 = Some (Ok false) ∧
  let s := ((create 1 ;;+ run_ops (take 6 some_ops)) empty_handle).1 in
  negb (root s =? root (btree_delete 1 (key_of_len 3 2000) s).1) = true.
Proof. vm_compute. auto. Qed.
Lemma tree_scan_witness : ∃ t, entries (cells t) = foldl put_op [] some_ops ∧ sorted (entries (cells t)).*1 ∧
  (let+ it := range 1 [2] in for_each_ref 1 collect it []) some_handle =
    (some_handle, Some (Ok (fold_while collect [] (from_key [2] (entries (cells t)))).1)) ∧
  let below := rev (below_key [9] (entries (cells t))) in
  (let+ it := range_reverse 1 [9] in let+ (shown, it) := take_back 2 it in let+ acc := for_each_reverse 1 collect it [] in ret (shown, acc)) some_handle =
    (some_handle, Some (Ok ((λ i, below !! i) <$> seq 0 2, (fold_while collect [] (drop 2 below)).1))).
Proof.
  destruct some_tree as (t & Ht & He). exists t. split; [exact He|]. exact (tree_scan collect some_handle t [2] [9] 2 [] Ht).
Defined.
(** Looks, steps, a read and a seek. *)
Definition cursor_calls : list call :=
  [Peek; Step; Peek; Peek; Next; PeekAt (key_of_len 3 2000); Step; Peek].
Lemma pull_cursor_witness : ∃ t, entries (cells t) = foldl put_op [] some_ops ∧ in_turn false cursor_calls = true ∧
  let l := from_key [] (entries (cells t)) in
  (let+ c := open_range 1 [] in let+ (answers, c) := run_calls cursor_calls c in
   let+ acc := for_each_rest 1 collect c [] in ret (answers, acc)) some_handle =
    (some_handle, Some (Ok (list_calls cursor_calls l, (fold_while collect [] (list_left cursor_calls l)).1))).
Proof.
  destruct some_tree as (t & Ht & He). assert (in_turn false cursor_calls = true) as Hin by reflexivity.
  exists t. split; [exact He|]. split; [exact Hin|]. exact (pull_cursor collect some_handle t [] cursor_calls [] Ht Hin).
Defined.
(** A leaf of two records and a third of half a page: no cut in two fits. *)
Definition two_records : list bytes := [replicate 1000 0; replicate 2000 0].
Lemma leaf_always_splits_witness :
  let all := take 1 two_records ++ replicate 4000 0 :: drop 1 two_records in USABLE < weight all ∧
  match split_point all USABLE with
  | Some m => ∃ mid : nat, m = Z.of_nat mid ∧ cut_fits USABLE all mid ∧ ∀ mid', cut_fits USABLE all mid' → imbalance all mid ≤ imbalance all mid'
  | None => ∃ c1 c2 : nat, greedy USABLE 0 0 all = [Z.of_nat c1; Z.of_nat c2] ∧ (0 < c1 < c2)%nat ∧ (c2 < length all)%nat ∧
      weight (take c1 all) ≤ USABLE ∧ weight (take (c2 - c1) (drop c1 all)) ≤ USABLE ∧ weight (drop c2 all) ≤ USABLE
  end.
Proof.
  assert (USABLE < weight (take 1 two_records ++ replicate 4000 0 :: drop 1 two_records)) as Hbig by (vm_compute; done).
  split; [exact Hbig|]. apply (leaf_always_splits two_records (replicate 4000 0) 1); [vm_compute; done|vm_compute; done|exact Hbig].
Defined.

(** A separator of more than half a page: the interior page has no cut, the
    insertion is refused after the leaves have been rewritten, and a row put
    before is gone. *)
Definition long_keys : list op :=
  [Put (key_of_len 1 2000) []; Put (key_of_len 2 2000) []; Put (key_of_len 3 2000) []; Put (key_of_len 4 2039) [5];
   Put (key_of_len 6 2000) []].
Example long_separator_loses_a_row :
  let s := ((create 1 ;;+ run_ops long_keys) empty_handle).1 in
  let s' := (insert 1 (key_of_len 5 1000) [] s).1 in
  (btree_get 1 (key_of_len 4 2039) s).2 = Some (Ok (Some [5])) ∧
  (insert 1 (key_of_len 5 1000) [] s).2 = Some (Err TooLarge) ∧
  (btree_get 1 (key_of_len 4 2039) s').2 = Some (Ok None).
Proof. vm_compute. auto. Qed.
End TreeMain.
